(* ===== verification/_CoqProject ===== *)
-Q . S2P
Prelude.v
RustStd.v
Sync.v
Types.v
Chain.v
StoreTrait.v
MemStore.v
OracleState.v
CommitLog.v
History.v
Coordinator.v
Handles.v
Database.v
Spec.v
Session.v
BTreeStore.v
Sequential.v
System.v
Recovery.v
Restart.v
Conflicts.v
Calls.v
LoomTests.v
Crashes.v
Programs.v
Retry.v
Completion.v
Bank.v
Counter.v
Doctors.v
CountingStore.v
Threads.v
OneShot.v
DurableRetry.v
Footprint.v
ThreadedTests.v
Examples.v
UnitTests.v
IntegrationTests.v
Scenarios.v
CrashScenarios.v
ClientScenarios.v
RetryScenarios.v
