(* ===== verification/Prelude.v ===== *)
(** * txn-db: a verification library

    txn-db is an embedded transactional key-value store for Rust: multi-version
    concurrency control with snapshot isolation, optionally serializable
    transactions, garbage collection of old versions, and an optional durable
    commit log. This library models the crate ([src/src/*.rs]) as executable Rocq
    definitions and proves what makes it correct. This file is its root: it holds
    the shared vocabulary (bytes, panics, machine integers, automation); the parts
    are in the files below.

    ** The program and where each part is modelled

    - [timestamp.rs], [error.rs]: [Types]. [Timestamp.t], [TxnError.t], [Result],
      and [fallible], the type of code that may return an error or panic.
    - [store.rs]: [Chain] has the version chain of one key ([visible_value],
      [newer_than] and the closure [gc_chain] of [collect_garbage]); [StoreTrait]
      has the trait [VersionStore] as a typeclass of operations and its documented
      contract as a typeclass of laws [StoreLaws]; [MemStore] has the sharded
      [MemoryStore] with both commit paths and shard-by-shard collection, and the
      instance that discharges the contract.
    - [oracle.rs]: [OracleState]. Timestamp allocation, the read watermark with its
      out-of-order bookkeeping, the registry of live readers.
    - [durable.rs]: [CommitLog]. Module [Codec] is the record encoder and decoder,
      module [CommitLog] is [open] and [append_committed] over the class [Wal], the
      interface of the external crate wal-db.
    - [db.rs]: [Coordinator] has [struct Inner] and [commit_writes], also cut into
      the pieces ([alloc], [encode_record], [apply], [append], [commit_done]) that a
      concurrent run interleaves; [Database] has [struct Db]: the constructors,
      [open] with its replay, the one-shot operations with their retry loops.
    - [txn.rs]: [Handles]. [ActiveReader], [Transaction], [Snapshot].
    - [sync.rs]: [Sync]. The guard helpers [lock], [read] and [write] on locks with
      the poison flag of the standard library.
    - The [mod tests] of these files and the examples in the documentation of
      [lib.rs]: [UnitTests], as functions that return when the test passes.
    - [RustStd]: what the crate uses of the Rust standard library: binary search
      and [partition_point], sorting, [dedup], [next_power_of_two], little-endian
      conversions, and [HashIter], the unspecified iteration order of hash maps.

    State is passed explicitly. What the code shares through [Arc<Inner>] is the
    [Inner.t] that operations take and return; dropping a handle is a call.

    ** Specification and refinement

    - [History]: the list of commits in the order the store applied them, and what
      it reads at a timestamp ([hist_view], [hist_changed]). It is the abstract
      value every invariant of the upper layers refers to.
    - [Spec]: module [SI], an abstract machine of snapshot isolation: the current
      contents as one map, a stamp per key, and handles that hold a copy of the map
      they began with. [Session] runs the calls of the API one after another on the
      modelled code, and proves that every answer is one the machine gives.
    - [System]: clients and collections running concurrently, as a step relation at
      the granularity of the code's critical sections: taking a timestamp,
      validate-and-apply, log append, release, drop, and one shard of a collection
      are single steps, everything else may come in between. Reachability is from a
      database with an arbitrary history; the invariant is by rule induction.
    - [Recovery]: what the log holds in every reachable state and what [Db::open]
      makes of it after a crash.
    - [Conflicts]: how one action changes the client that takes it, and what follows
      for refused commits. [Calls]: what a handle reads once it is made; the life of a
      snapshot and a whole collection as runs of [System].
    - [Restart]: a process that runs calls of the API on a durable database and may
      die between any two of them and open the log again ([Durable.exec]), against
      module [DSI], the machine of [Spec] with a saved state beside the current one.
    - [Crashes]: one process after another on one log, each of them a concurrent run
      of [System] that may die at any point, also in the middle of commits.
    - [Sequential]: the machine of [Spec] as a logic for straight-line programs on
      one thread, in which the tests below are run for all their inputs.
    - [Scenarios], [CrashScenarios]: concrete runs: the inputs at which the theorems
      above are applied, and two runs that show what is not promised.

    ** Tests and other stores

    - [BTreeStore]: the store of [tests/backing_store.rs], which shares no code with
      [MemoryStore] and keeps the contract of [StoreTrait]; module [Agreement]
      compares the answers of any two stores that do.
    - [IntegrationTests]: the tests of [tests/*.rs] that run on one thread, as
      functions of what their generators produce.
    - [LoomTests]: the assertions of [tests/loom_txn.rs] about every reachable state
      of [System].
    - [ThreadedTests]: the integration tests that start threads, as fair runs of
      [Retry] or, where a snapshot is held, runs of [System].

    ** Client programs

    - [Programs]: a transaction of a client as a tree of the calls it makes. [run]
      is the program alone on a map, [exec] the program on the modelled code, and
      [pstep] interleaves any number of programs on [System].
    - [Retry]: threads that run programs in retry loops, each attempt a client of its
      own, on the interleaved system: [turn] is the next call of a thread, a [run] an
      infinite sequence of turns and pieces of collections in which every thread
      keeps getting turns. A thread has [count] transactions to commit, which may
      differ ([body w j] is the [j]-th of thread [w]); the number of an attempt tells
      which of them it is at. [OneShot]: [put] and [delete] of [db.rs] are threads.
    - [Completion]: what such threads leave behind when no call fails, as in memory;
      [DurableRetry]: over a log with room, and after it is opened again;
      [Footprint]: when threads have keys of their own. [Threads]: the threads of the
      counter example and of the contention test of [db.rs].
    - [Bank], [Counter], [Doctors]: [examples/bank_transfer.rs],
      [concurrent_counter.rs] and [serializable_doctors.rs], as functions on the
      modelled code and as client programs.
    - [CountingStore]: [examples/custom_store.rs], a second store that meets the
      contract of [StoreTrait].
    - [Examples]: the [main] of the examples, with what each prints.
    - [ClientScenarios], [RetryScenarios]: concrete interleavings of client programs,
      and threads taking turns until they are done.

    ** What the theorems show

    - Isolation ([System], [Calls]): reads are those of the snapshot and stay so under
      any interleaving and collection, and the snapshot is what could be read when the
      handle was made; first committer wins; serializable transactions
      that write are serializable in the order they were applied; the watermark is
      exact; what [commit] returns is what happened; no step panics; commits are
      wait-free; [Transaction::commit], a snapshot from begin to drop, and
      [collect_garbage] are compositions of the interleaved steps.
    - Progress ([Conflicts], [Retry], [Completion] and the files after them): no conflict is
      spurious, and independent keys never conflict. While a commit is stalled the
      loops can only spin; but in every fair run every retry loop ends, in memory
      with [Ok] on every call, one commit each, and as well on a durable database
      whose log has room for them, where opening the log again gives the same reads.
      So the counter of the example ends at exactly the number of increments issued,
      and contended writers leave what one of them wrote. Threads with keys of their
      own end as if each had run alone. The loops of [put] and [delete] are threads
      that get all the turns.
    - Contract ([MemStore], [Chain]): no operation panics on a store the crate built
      or leaves it ill-formed; commits are atomic on both paths, and the fast
      path is the general one; reads after commits; collection is invisible to live
      readers, honest about its count, and as thorough as it can be; locks are taken
      in one order; sharding rounds to a power of two.
    - Timestamps ([OracleState]): the watermark advances to the end of the finished
      run in every order of completion; the low watermark is the oldest live reader.
    - Durability ([CommitLog], [Recovery]): a byte string decodes exactly when it is
      an encoding; the decoder is total on all inputs; recovery after a crash gives
      every acknowledged commit and nothing that was not applied, and exactly the
      state before when nothing was in flight; of a log that was cut, a prefix of
      its commits.
    - Crashes ([Crashes]): through any number of crashes at any points, what a client
      was told had succeeded stays, and later readers find it or something newer; as
      long as the log can be appended to, also what a client was merely served stays,
      so nobody acts on a commit that recovery undoes.
    - Restarts ([Restart]): a durable database that is killed and reopened any number
      of times answers as the abstract machine does, and nothing acknowledged is
      lost.
    - Stores ([BTreeStore]): two stores that keep the contract cannot be told apart
      by any session, but for how many versions a collection says it reclaimed and
      which stale key a conflict names.
    - Clients ([Programs] and the files of the examples): what every program keeps
      when it runs alone holds in every snapshot of every interleaving; so transfers
      conserve money, no increment is lost, and serializable doctors never leave
      nobody on call. A program that runs by itself does on the code what it does on
      a map.
    - Conformance ([UnitTests], [IntegrationTests], [LoomTests], [Sync]): the unit
      tests of the crate pass on the model in both build profiles, the integration
      tests for every input their generators can produce; of commits that race for a
      key one wins, those on different keys all succeed and are visible in the end; a
      poisoned lock behaves as one that is not.
    - Limits: a read-only serializable transaction is not validated and can observe
      a non-serializable state; an acknowledged commit can be invisible to the next
      transaction while an earlier timestamp is in flight; a commit refused by the
      log is visible all the same; lengths of [2^32] and more are truncated in the
      log; counters at the end of their range; a transfer from an account to itself
      creates money.

    ** Bounds and fuel

    - [u64] and [usize] are [N] below [2^64] with the arithmetic of both build
      profiles ([Profile]): a panic on overflow, or wrap-around. Theorems about runs
      assume [room] for the timestamps still to be allocated and readers to be
      registered; the theorems on [recovered] and [with_shards] state what happens
      without room.
    - The loop of [commit_done] removes a pending timestamp in every turn: its fuel
      is one more than their number. The halving of [binary_search] has the length
      of the slice. Neither can run out.
    - [Db::put] and [Db::delete] retry on conflicts without a bound. Between
      operations the first attempt cannot conflict, so any positive fuel is enough
      ([Session]). Under concurrency no number of attempts is enough in advance;
      [Retry] has no fuel, and its termination measure is, first, the number of
      transactions whose commit is still owed, which every applied commit lowers and
      nothing raises, and then the calls left of an attempt that begins when all that
      is applied is visible, and which therefore cannot be refused unless the former
      goes down. A fair run stays within the room of the counters by assumption: the
      number of attempts before it ends depends on the scheduler.
    - The runs of [Restart] have at most [2 ^ 30] calls, so that the writes of
      one record are counted by its 32 bits and timestamps by their 64; keys and
      values are as long as their length fields allow ([call_fits]).
    - A reachable state is the end of any sequence of steps each of which finds room
      for one more timestamp and one more reader; its length is not bounded.

    ** What is not modelled

    - [sync.rs]: the choice between std and loom primitives. Locks are the atomicity
      of critical sections in [System], and memory orderings sequential consistency
      of the steps; [Sync] shows that recovering poisoned guards has no effect of
      its own.
    - wal-db: an interface with three documented behaviours (an iteration without
      error yields the log's records, an append adds its record or fails having
      added at most that, reopening preserves records). A failure of the disk is an
      error of one of its calls.
    - [lib.rs] but for its examples (prose, lints, re-exports); the benchmarks; how
      the examples render bytes as text; the bytes of a log file that is cut, which
      are those of wal-db: a cut is by record. [long_reader_survives_aggressive_gc]
      has no definition: that its snapshot does not move is [Calls.handle_is_pinned],
      that the collections it races with reclaim something depends on the scheduler.
      Spawning and joining threads are not operations: a thread of [Retry] that has
      not begun is one that has had no turn, and what holds after joining holds from
      some moment on.
    - In [System] and [Retry] a read-only snapshot is a client that does not write
      ([Calls.snapshot_is_its_actions]), and each attempt of a one-shot [put] or
      [delete] is a client of its own ([OneShot.one_shot_is_its_turns]).
    - Over a log that may run full, a retry loop can end with the error of the log;
      [Retry] says that it ends, and [Recovery] and [Crashes] what is kept, but which
      of the threads meet the error depends on the scheduler. *)

From Stdlib Require Export NArith Lia Strings.Byte.
From stdpp Require Export base tactics strings pretty numbers sorting gmap list.

(** ** Bytes and byte strings *)

#[export] Instance byte_eq_dec : EqDecision byte := Byte.byte_eq_dec.

#[export] Program Instance byte_countable : Countable byte :=
  inj_countable Byte.to_N Byte.of_N _.
Next Obligation. intros x. apply Byte.of_to_N. Qed.

(** [Arc<[u8]>], [Vec<u8>] and [&[u8]]: immutable byte strings. Sharing through
    the [Arc] is not observable, so they are all plain lists. *)
Abbreviation bytes := (list byte).

(** ** Panics

    [outcome A] is what running a piece of Rust code yields: it returns a value
    or it panics. Fallible code ([Result]) is layered on top in [Types]. *)
Inductive outcome (A : Type) : Type :=
| Ret (a : A)
| Panic.
Arguments Ret {A} a.
Arguments Panic {A}.

#[export] Instance outcome_ret : MRet outcome := @Ret.
#[export] Instance outcome_bind : MBind outcome :=
  λ A B f m, match m with Ret a => f a | Panic => Panic end.
#[export] Instance outcome_fmap : FMap outcome :=
  λ A B f m, match m with Ret a => Ret (f a) | Panic => Panic end.

(** Slice indexing [v[i]]: out of range panics. *)
Definition index {A} (l : list A) (i : nat) : outcome A :=
  match l !! i with Some x => Ret x | None => Panic end.

(** ** Machine integers

    [u64] and [usize] (64-bit targets) are [N] below [2^64]. The operators [+]
    and [-] panic on overflow when the crate is built with overflow checks (the
    dev and test profiles) and wrap without them (the release profile, whose
    [Cargo.toml] section does not turn them on); the profile is a parameter. *)
Class Profile := overflow_checks : bool.

Definition u64_modulus : N := 18446744073709551616.

Definition wrap_u64 (x : N) : N := (x mod u64_modulus)%N.

Definition add_u64 `{Profile} (a b : N) : outcome N :=
  if (a + b <? u64_modulus)%N then Ret (a + b)%N
  else if overflow_checks then Panic else Ret (wrap_u64 (a + b)).

Definition sub_u64 `{Profile} (a b : N) : outcome N :=
  if (b <=? a)%N then Ret (a - b)%N
  else if overflow_checks then Panic else Ret (wrap_u64 (a + u64_modulus - b)).

(** [AtomicU64::fetch_add(1)] always wraps. *)
Definition fetch_add_u64 (a : N) : N := wrap_u64 (a + 1).

(** [u64::wrapping_mul]. *)
Definition wrapping_mul_u64 (a b : N) : N := wrap_u64 (a * b).

(** ** Automation *)

Create HintDb txn.

(** Unfold one [match]/[if] on a boolean comparison of [N] or [nat]. *)
Ltac case_cmp :=
  match goal with
  | |- context [N.ltb ?a ?b] => destruct (N.ltb_spec a b)
  | |- context [N.leb ?a ?b] => destruct (N.leb_spec a b)
  | |- context [N.eqb ?a ?b] => destruct (N.eqb_spec a b)
  | H : context [N.ltb ?a ?b] |- _ => destruct (N.ltb_spec a b)
  | H : context [N.leb ?a ?b] |- _ => destruct (N.leb_spec a b)
  | H : context [N.eqb ?a ?b] |- _ => destruct (N.eqb_spec a b)
  | |- context [Nat.leb ?a ?b] => destruct (Nat.leb_spec a b)
  | |- context [Nat.eqb ?a ?b] => destruct (Nat.eqb_spec a b)
  | H : context [Nat.leb ?a ?b] |- _ => destruct (Nat.leb_spec a b)
  | H : context [Nat.eqb ?a ?b] |- _ => destruct (Nat.eqb_spec a b)
  end.

(** Run the binds whose first computation has returned. *)
Ltac run := cbn [mbind outcome_bind fmap outcome_fmap mret outcome_ret].

(** ** Lemmas on outcomes and machine integers *)

Lemma bind_Ret {A B} (m : outcome A) (f : A → outcome B) b :
  (m ≫= f) = Ret b ↔ ∃ a, m = Ret a ∧ f a = Ret b.
Proof. split; [destruct m; [eauto|done]|by intros (a & -> & ?)]. Qed.

Lemma index_Ret {A} (l : list A) i x : l !! i = Some x → index l i = Ret x.
Proof. unfold index. by intros ->. Qed.

Lemma add_u64_ok `{Profile} a b :
  (a + b < u64_modulus)%N → add_u64 a b = Ret (a + b)%N.
Proof. intros. unfold add_u64. by case_cmp; [|lia]. Qed.

Lemma sub_u64_ok `{Profile} a b : (b ≤ a)%N → sub_u64 a b = Ret (a - b)%N.
Proof. intros. unfold sub_u64. by case_cmp; [|lia]. Qed.

Lemma wrap_u64_small x : (x < u64_modulus)%N → wrap_u64 x = x.
Proof. apply N.mod_small. Qed.

Lemma wrap_u64_bound x : (wrap_u64 x < u64_modulus)%N.
Proof. apply N.mod_lt. discriminate. Qed.

Lemma fetch_add_u64_ok a :
  (a + 1 < u64_modulus)%N → fetch_add_u64 a = (a + 1)%N.
Proof. apply wrap_u64_small. Qed.

#[export] Hint Resolve index_Ret wrap_u64_bound : txn.
Create Rewrite HintDb txn.
#[export] Hint Rewrite @add_u64_ok @sub_u64_ok using lia : txn.

(** ** Lists *)

Section list_lemmas.
Context {A : Type}.
Implicit Types l : list A.

(** A list sorted by [R] splits at a predicate that is downward closed along
    [R]: its elements that satisfy it come first. *)
Lemma StronglySorted_partition (R : relation A) (P : A → bool) l :
  (∀ x y, R x y → P y = true → P x = true) →
  StronglySorted R l →
  ∃ l1 l2, l = l1 ++ l2 ∧ Forall (λ x, P x = true) l1 ∧ Forall (λ x, P x = false) l2.
Proof.
  intros HR. induction 1 as [|x l Hs (l1 & l2 & -> & H1 & H2) Hx].
  { exists [], []. auto. }
  destruct (P x) eqn:HP.
  { exists (x :: l1), l2. auto. }
  exists [], (x :: l1 ++ l2). split_and!; [done..|].
  constructor; [done|]. eapply Forall_impl; [exact Hx|].
  intros y HRy. destruct (P y) eqn:E; [|done]. by rewrite (HR x y) in HP.
Qed.

Lemma last_snoc_Some l x : last (l ++ [x]) = Some x.
Proof. apply last_snoc. Qed.

Lemma last_elem_of l x : last l = Some x → x ∈ l.
Proof. intros (l' & ->)%last_Some. set_solver. Qed.

(** The last element of a sorted list is above every other. *)
Lemma StronglySorted_last (R : relation A) `{!Reflexive R} l x y :
  StronglySorted R l → last l = Some x → y ∈ l → R y x.
Proof.
  intros Hs (l' & ->)%last_Some [Hy | ->%list_elem_of_singleton]%elem_of_app; [|done].
  eapply StronglySorted_app_1_elem_of; [exact Hs|done|set_solver].
Qed.

Lemma StronglySorted_snoc (R : relation A) l x :
  StronglySorted R l → (∀ y, y ∈ l → R y x) → StronglySorted R (l ++ [x]).
Proof.
  intros Hl Hx. apply StronglySorted_app_2; [|done|by repeat constructor].
  intros y z Hy ->%list_elem_of_singleton. auto.
Qed.

Lemma StronglySorted_sublist (R : relation A) l l' :
  l' `sublist_of` l → StronglySorted R l → StronglySorted R l'.
Proof.
  induction 1 as [|x l1 l2 Hsub IH|x l1 l2 Hsub IH]; [done|..]; intros [Hs Hx]%StronglySorted_inv.
  - constructor; [auto|]. rewrite Forall_forall in *. intros y Hy. apply Hx.
    by eapply elem_of_submseteq, sublist_submseteq.
  - auto.
Qed.

Lemma StronglySorted_lookup_lt (R : relation A) l i j x y :
  StronglySorted R l → l !! i = Some x → l !! j = Some y → i < j → R x y.
Proof.
  intros Hs Hi Hj Hij. rewrite <-(take_drop_middle _ _ _ Hi) in Hs.
  apply StronglySorted_app_1_r, StronglySorted_inv in Hs as [_ Hall].
  rewrite Forall_forall in Hall. apply Hall, list_elem_of_lookup.
  exists (j - S i). rewrite lookup_drop. rewrite <-Hj. f_equal. lia.
Qed.

Lemma StronglySorted_drop (R : relation A) n l :
  StronglySorted R l → StronglySorted R (drop n l).
Proof. rewrite <-(take_drop n l) at 1. apply StronglySorted_app_1_r. Qed.

Lemma list_alter_as_insert (f : A → A) l i x :
  l !! i = Some x → alter f i l = <[i := f x]> l.
Proof.
  intros Hx. apply list_eq. intros j. destruct (decide (i = j)) as [<-|].
  - rewrite list_lookup_alter_eq, list_lookup_insert_eq, Hx; [done|].
    by eapply lookup_lt_Some.
  - by rewrite list_lookup_alter_ne, list_lookup_insert_ne.
Qed.

(** Sums compare as their terms do. *)
Lemma sum_list_le {B} (f g : B → nat) (l : list B) :
  (∀ w, w ∈ l → f w ≤ g w) →
  sum_list (f <$> l) ≤ sum_list (g <$> l) ∧
  ((∃ w, w ∈ l ∧ f w < g w) → sum_list (f <$> l) < sum_list (g <$> l)).
Proof.
  induction l as [|w l IH]; intros Hle; cbn; [split; [done|]; intros (w & Hw & _); set_solver|].
  destruct IH as [IH1 IH2]; [set_solver|]. pose proof (Hle w ltac:(set_solver)). split; [lia|].
  intros (w' & [->|Hin]%elem_of_cons & Hlt); [lia|]. enough (sum_list (f <$> l) < sum_list (g <$> l)) by lia.
  apply IH2. by exists w'.
Qed.

Lemma sum_list_update {B} (f g : B → nat) (l : list B) (w : B) :
  NoDup l → w ∈ l → (∀ w', w' ∈ l → w' ≠ w → f w' = g w') →
  sum_list (f <$> l) + g w = sum_list (g <$> l) + f w.
Proof.
  intros Hnd Hw Hne. induction Hnd as [|w' l Hw' Hnd IH]; [set_solver|]. cbn.
  apply elem_of_cons in Hw as [->|Hw].
  - assert (f <$> l = g <$> l) as ->; [|lia].
    apply list_fmap_ext. intros i x Hx%list_elem_of_lookup_2. apply Hne; [set_solver|congruence].
  - rewrite (Hne w') by set_solver. enough (sum_list (f <$> l) + g w = sum_list (g <$> l) + f w) by lia.
    apply IH; [done|]. set_solver.
Qed.

Lemma split_unique (l1 l2 l1' l2' : list A) x :
  NoDup (l1 ++ x :: l2) → l1 ++ x :: l2 = l1' ++ x :: l2' → l1 = l1'.
Proof.
  revert l1'. induction l1 as [|y l1 IH]; intros [|y' l1'] Hnd E; [done|..]; cbn in *;
    injection E as -> E; apply NoDup_cons in Hnd as [Hx Hnd].
  - subst. set_solver.
  - set_solver.
  - f_equal. by apply IH.
Qed.

End list_lemmas.

Lemma zip_fmap {A B C} (f : A → B) (g : A → C) (l : list A) :
  zip (f <$> l) (g <$> l) = (λ x, (f x, g x)) <$> l.
Proof. induction l as [|x l IH]; cbn; [done|]. by f_equal. Qed.

Lemma zip_fmap_r {A B} (f : A → B) (l : list A) : zip l (f <$> l) = (λ x, (x, f x)) <$> l.
Proof. induction l as [|x l IH]; cbn; [done|]. by f_equal. Qed.

#[export] Hint Resolve StronglySorted_snoc StronglySorted_drop : txn.
