(* ===== verification/RustStd.v ===== *)
(** * The parts of the Rust standard library the crate uses

    Executable models of [slice::binary_search_by] and the two searches built on
    it, sorting and [dedup], [usize::next_power_of_two], the little-endian
    conversions, and the iteration order of the hash containers, which the
    standard library leaves unspecified and which is therefore an interface. *)

From S2P Require Import Prelude.

(** ** Searching sorted slices *)

(** [slice::binary_search_by]: [inl i] is [Ok(i)], [inr i] is [Err(i)]. The loop
    is the library's: halve [size], move [base] to [mid] unless the probe is
    [Greater]. *)
Section binary_search.
Context {A : Type} (f : A → comparison) (l : list A).

Fixpoint binary_search_loop (fuel base size : nat) : nat :=
  match fuel with
  | O => base
  | S fuel =>
     if size <=? 1 then base else
     let half := Nat.div size 2 in
     let mid := base + half in
     let base' := match l !! mid with
                  | Some x => match f x with Gt => base | _ => mid end
                  | None => base
                  end in
     binary_search_loop fuel base' (size - half)
  end.

Definition binary_search_by : nat + nat :=
  let base := binary_search_loop (length l) 0 (length l) in
  match l !! base with
  | None => inr 0
  | Some x => match f x with Eq => inl base | Lt => inr (S base) | Gt => inr base end
  end.
End binary_search.

(** [slice::partition_point]. *)
Definition partition_point {A} (pred : A → bool) (l : list A) : nat :=
  match binary_search_by (λ x, if pred x then Lt else Gt) l with inl i | inr i => i end.

(** [slice::binary_search] on a slice of [usize]. *)
Definition binary_search (l : list nat) (x : nat) : nat + nat :=
  binary_search_by (λ y, Nat.compare y x) l.

(** ** Sorting *)

(** [slice::sort_unstable] on [usize]: equal elements are indistinguishable, so
    any sort gives the same list. *)
Definition sort_unstable (l : list nat) : list nat := merge_sort le l.

(** [Vec::dedup]: remove consecutive repeated elements. *)
Fixpoint dedup (l : list nat) : list nat :=
  match l with
  | [] => []
  | x :: l' => match l' with
               | y :: _ => if x =? y then dedup l' else x :: dedup l'
               | [] => [x]
               end
  end.

(** [slice::sort_by_key], the stable sort, with an [N] key. *)
Section sort_by_key.
Context {A : Type} (key : A → N).

Fixpoint insert_by_key (x : A) (l : list A) : list A :=
  match l with
  | [] => [x]
  | y :: l' => if (key x <=? key y)%N then x :: l else y :: insert_by_key x l'
  end.

Definition sort_by_key (l : list A) : list A := foldr insert_by_key [] l.
End sort_by_key.

(** ** Integers *)

(** [usize::next_power_of_two]: overflow panics with overflow checks, and gives
    0 without. *)
Definition next_power_of_two `{Profile} (n : N) : outcome N :=
  let p := (2 ^ N.log2_up n)%N in
  if (p <? u64_modulus)%N then Ret p else if overflow_checks then Panic else Ret 0%N.

(** [x as u8] and [u64::from(b)]. *)
Definition as_u8 (x : N) : byte := default x00 (Byte.of_N (x mod 256)).

(** [to_le_bytes] and [from_le_bytes], for any width. *)
Fixpoint to_le_bytes (width : nat) (x : N) : bytes :=
  match width with
  | O => []
  | S width => as_u8 x :: to_le_bytes width (x / 256)
  end.

Fixpoint from_le_bytes (b : bytes) : N :=
  match b with
  | [] => 0%N
  | x :: b => (Byte.to_N x + 256 * from_le_bytes b)%N
  end.

(** ** Iteration order of hash containers

    [HashMap::into_iter] and [HashSet::into_iter] yield every entry once, in an
    order that depends on a per-process random seed. *)
Class HashIter := {
  hash_iter : ∀ {V}, gmap bytes V → list (bytes * V);
  hash_iter_perm : ∀ {V} (m : gmap bytes V), hash_iter m ≡ₚ map_to_list m;
  set_iter : gset bytes → list bytes;
  set_iter_perm : ∀ X : gset bytes, set_iter X ≡ₚ elements X;
}.

(** One possible order, for evaluation. *)
#[export] Program Instance hash_iter_canonical : HashIter := {|
  hash_iter := λ V m, map_to_list m;
  set_iter := elements;
|}.
Next Obligation. done. Qed.
Next Obligation. done. Qed.

(** ** Lemmas: searching *)

Section binary_search_lemmas.
Context {A : Type} (f : A → comparison) (l1 l2 : list A).
Hypothesis Hl1 : Forall (λ x, f x ≠ Gt) l1.
Hypothesis Hl2 : Forall (λ x, f x = Gt) l2.

Lemma probe_spec mid x :
  (l1 ++ l2) !! mid = Some x → f x = Gt ↔ length l1 ≤ mid.
Proof using Hl1 Hl2.
  intros Hx. destruct (decide (mid < length l1)) as [Hlt|Hge].
  - rewrite lookup_app_l in Hx by done.
    pose proof (Forall_lookup_1 _ _ _ _ Hl1 Hx) as Hne. cbn in Hne.
    split; [done|lia].
  - rewrite lookup_app_r in Hx by lia.
    pose proof (Forall_lookup_1 _ _ _ _ Hl2 Hx) as Heq. cbn in Heq.
    split; [lia|done].
Qed.

(** The loop invariant: the boundary lies in [base, base+size] and [base] is
    either the start or below the boundary. With as much fuel as [size] the loop
    ends because [size] has reached 1. *)
Lemma binary_search_loop_spec fuel base size :
  size ≤ fuel →
  1 ≤ size →
  base + size ≤ length (l1 ++ l2) →
  base = 0 ∨ base < length l1 →
  length l1 ≤ base + size →
  let b := binary_search_loop f (l1 ++ l2) fuel base size in
  b < length (l1 ++ l2) ∧ (b = 0 ∨ b < length l1) ∧ length l1 ≤ S b.
Proof using Hl1 Hl2.
  revert base size. induction fuel as [|fuel IH]; intros base size Hf Hs Hlen Hb Hbound.
  { lia. }
  cbn [binary_search_loop]. destruct (Nat.leb_spec size 1). { split_and!; lia. }
  pose proof (Nat.div_lt size 2 ltac:(lia) ltac:(lia)).
  pose proof (Nat.div_mod_eq size 2). pose proof (Nat.mod_upper_bound size 2 ltac:(lia)).
  set (half := Nat.div size 2) in *.
  destruct (lookup_lt_is_Some_2 (l1 ++ l2) (base + half)) as [x Hx]; [lia|].
  pose proof (probe_spec _ _ Hx) as Hprobe.
  rewrite Hx. destruct (decide (length l1 ≤ base + half)) as [Hle|Hnle].
  - rewrite (proj2 Hprobe Hle). apply IH; lia.
  - assert (f x ≠ Gt) by tauto. destruct (f x); [..|done]; apply IH; lia.
Qed.

Lemma binary_search_base_spec :
  l1 ++ l2 ≠ [] →
  let b := binary_search_loop f (l1 ++ l2) (length (l1 ++ l2)) 0 (length (l1 ++ l2)) in
  b < length (l1 ++ l2) ∧ (b = 0 ∨ b < length l1) ∧ length l1 ≤ S b.
Proof using Hl1 Hl2.
  intros Hne. assert (1 ≤ length (l1 ++ l2)).
  { destruct (l1 ++ l2); cbn; [done|lia]. }
  apply binary_search_loop_spec; try lia. rewrite length_app. lia.
Qed.
End binary_search_lemmas.

(** On a partitioned slice [partition_point] is the size of the first part. *)
Lemma partition_point_app {A} (pred : A → bool) (l1 l2 : list A) :
  Forall (λ x, pred x = true) l1 →
  Forall (λ x, pred x = false) l2 →
  partition_point pred (l1 ++ l2) = length l1.
Proof.
  intros H1 H2. unfold partition_point, binary_search_by.
  destruct (decide (l1 ++ l2 = [])) as [E|Hne].
  { apply app_nil in E as [-> ->]. done. }
  set (f := λ x, if pred x then Lt else Gt).
  assert (Hf1 : Forall (λ x, f x ≠ Gt) l1).
  { eapply Forall_impl; [exact H1|]. intros x Hx. unfold f. by rewrite Hx. }
  assert (Hf2 : Forall (λ x, f x = Gt) l2).
  { eapply Forall_impl; [exact H2|]. intros x Hx. unfold f. by rewrite Hx. }
  pose proof (binary_search_base_spec f l1 l2 Hf1 Hf2 Hne) as (Hb & Hb0 & Hb1).
  destruct (lookup_lt_is_Some_2 _ _ Hb) as [x Hx]. rewrite Hx.
  pose proof (probe_spec f l1 l2 Hf1 Hf2 _ _ Hx) as Hp.
  unfold f in *. destruct (pred x).
  - assert (¬ length l1 ≤ _) as Hn by (intros ?%Hp; done). lia.
  - pose proof (proj1 Hp eq_refl). lia.
Qed.

(** On a strictly ascending slice [binary_search] finds every element. *)
Lemma binary_search_found (l : list nat) i x :
  StronglySorted lt l → l !! i = Some x → binary_search l x = inl i.
Proof.
  intros Hs Hi. unfold binary_search, binary_search_by.
  assert (Hl : l = take (S i) l ++ drop (S i) l) by by rewrite take_drop.
  assert (Hlen : length (take (S i) l) = S i).
  { rewrite length_take. apply lookup_lt_Some in Hi. lia. }
  assert (Hall : ∀ j y, l !! j = Some y → (j ≤ i → y ≤ x) ∧ (i < j → x < y)).
  { intros j y Hj. split; intros Hij.
    - destruct (decide (j = i)) as [->|]; [naive_solver lia|].
      enough (y < x) by lia.
      eapply StronglySorted_lookup_lt; [exact Hs|exact Hj|exact Hi|lia].
    - eapply StronglySorted_lookup_lt; [exact Hs|exact Hi|exact Hj|lia]. }
  set (f := λ y, Nat.compare y x).
  assert (Hf1 : Forall (λ y, f y ≠ Gt) (take (S i) l)).
  { apply Forall_lookup_2. intros j y [Hj ?]%lookup_take_Some.
    apply Hall in Hj as [Hle _]. unfold f. rewrite Nat.compare_gt_iff. lia. }
  assert (Hf2 : Forall (λ y, f y = Gt) (drop (S i) l)).
  { apply Forall_lookup_2. intros j y Hj. rewrite lookup_drop in Hj.
    apply Hall in Hj as [_ Hgt]. unfold f. rewrite Nat.compare_gt_iff. lia. }
  assert (Hne : take (S i) l ++ drop (S i) l ≠ []).
  { rewrite <-Hl. intros ->. done. }
  pose proof (binary_search_base_spec f _ _ Hf1 Hf2 Hne) as (_ & Hb0 & Hb1).
  rewrite Hlen, <-Hl in *.
  set (b := binary_search_loop f l (length l) 0 (length l)) in *.
  assert (b = i) as -> by lia. rewrite Hi. unfold f. by rewrite Nat.compare_refl.
Qed.

(** ** Lemmas: sorting *)

Lemma sort_unstable_perm l : sort_unstable l ≡ₚ l.
Proof. apply merge_sort_Permutation. Qed.

Lemma sort_unstable_sorted l : StronglySorted le (sort_unstable l).
Proof. apply (StronglySorted_merge_sort le). Qed.

Lemma dedup_elem_of l x : x ∈ dedup l ↔ x ∈ l.
Proof.
  induction l as [|y l IH]; [done|]. destruct l as [|z l]; [done|].
  change (dedup (y :: z :: l)) with (if y =? z then dedup (z :: l) else y :: dedup (z :: l)).
  destruct (Nat.eqb_spec y z) as [->|]; set_solver.
Qed.

(** Sorting then deduplicating gives a strictly ascending list. *)
Lemma dedup_sorted l : StronglySorted le l → StronglySorted lt (dedup l).
Proof.
  induction l as [|y l IH]; [constructor|]. intros [Hs Hy]%StronglySorted_inv.
  destruct l as [|z l]; [by repeat constructor|].
  change (dedup (y :: z :: l)) with (if y =? z then dedup (z :: l) else y :: dedup (z :: l)).
  destruct (Nat.eqb_spec y z); [auto|]. constructor; [auto|].
  apply Forall_forall. intros x Hx. rewrite dedup_elem_of in Hx.
  apply StronglySorted_inv in Hs as [_ Hz].
  inversion Hy; subst. apply elem_of_cons in Hx as [->|Hx]; [lia|].
  rewrite Forall_forall in Hz. pose proof (Hz x Hx). lia.
Qed.

Section sort_by_key_lemmas.
Context {A : Type} (key : A → N).
Implicit Types l : list A.

Lemma insert_by_key_perm x l : insert_by_key key x l ≡ₚ x :: l.
Proof.
  induction l as [|y l IH]; cbn; [done|]. case_cmp; [done|].
  rewrite IH. apply Permutation_swap.
Qed.

Lemma sort_by_key_perm l : sort_by_key key l ≡ₚ l.
Proof.
  induction l as [|x l IH]; cbn; [done|]. by rewrite insert_by_key_perm, IH.
Qed.

Lemma insert_by_key_sorted x l :
  StronglySorted (λ a b, (key a ≤ key b)%N) l →
  StronglySorted (λ a b, (key a ≤ key b)%N) (insert_by_key key x l).
Proof.
  induction 1 as [|y l Hs IH Hy]; cbn; [by repeat constructor|]. case_cmp.
  - constructor; [by constructor|]. constructor; [done|].
    eapply Forall_impl; [exact Hy|]. cbn. lia.
  - constructor; [done|]. rewrite insert_by_key_perm. constructor; [lia|done].
Qed.

Lemma sort_by_key_sorted l :
  StronglySorted (λ a b, (key a ≤ key b)%N) (sort_by_key key l).
Proof. induction l; cbn; [constructor|by apply insert_by_key_sorted]. Qed.
End sort_by_key_lemmas.

(** ** Lemmas: powers of two and little-endian integers *)

Lemma next_power_of_two_ok `{Profile} n :
  (n ≤ 2 ^ 63)%N → next_power_of_two n = Ret (2 ^ N.log2_up n)%N.
Proof.
  intros Hn. unfold next_power_of_two.
  assert (N.log2_up n ≤ 63)%N.
  { change 63%N with (N.log2_up (2 ^ 63)). by apply N.log2_up_le_mono. }
  assert (2 ^ N.log2_up n ≤ 2 ^ 63)%N by (apply N.pow_le_mono_r; lia).
  case_cmp; [done|]. change u64_modulus with (2 ^ 64)%N in *.
  assert (2 ^ 63 < 2 ^ 64)%N by done. lia.
Qed.

Lemma to_N_bound b : (Byte.to_N b < 256)%N.
Proof. by destruct b. Qed.

Lemma as_u8_to_N x : Byte.to_N (as_u8 x) = (x mod 256)%N.
Proof.
  unfold as_u8. pose proof (N.mod_lt x 256 ltac:(done)).
  destruct (Byte.of_N (x mod 256)) as [b|] eqn:E.
  - by apply Byte.to_of_N in E.
  - apply Byte.of_N_None_iff in E. lia.
Qed.

Lemma as_u8_of_to_N b : as_u8 (Byte.to_N b) = b.
Proof. unfold as_u8. by destruct b. Qed.

Lemma length_to_le_bytes w x : length (to_le_bytes w x) = w.
Proof. revert x. induction w; intros; cbn; auto. Qed.

Lemma from_to_le_bytes w x : (x < 256 ^ N.of_nat w)%N → from_le_bytes (to_le_bytes w x) = x.
Proof.
  revert x. induction w as [|w IH]; intros x Hx.
  { cbn in *. lia. }
  rewrite Nat2N.inj_succ, N.pow_succ_r' in Hx. cbn [to_le_bytes from_le_bytes].
  rewrite IH, as_u8_to_N by (apply N.Div0.div_lt_upper_bound; lia).
  pose proof (N.div_mod' x 256). lia.
Qed.

Lemma from_le_bytes_bound b : (from_le_bytes b < 256 ^ N.of_nat (length b))%N.
Proof.
  induction b as [|x b IH]; cbn [from_le_bytes length]; [done|].
  rewrite Nat2N.inj_succ, N.pow_succ_r'. pose proof (to_N_bound x). lia.
Qed.

Lemma to_from_le_bytes b : to_le_bytes (length b) (from_le_bytes b) = b.
Proof.
  induction b as [|x b IH]; cbn [from_le_bytes length to_le_bytes]; [done|].
  pose proof (to_N_bound x). f_equal.
  - rewrite <-(as_u8_of_to_N x) at 2. unfold as_u8.
    by rewrite N.mul_comm, N.Div0.mod_add, (N.mod_small (Byte.to_N x)) by done.
  - rewrite N.mul_comm, N.div_add, N.div_small by done. done.
Qed.

(** Truncating to the width first changes nothing. *)
Lemma to_le_bytes_mod w x : to_le_bytes w (x mod 256 ^ N.of_nat w) = to_le_bytes w x.
Proof.
  revert x. induction w as [|w IH]; intros x; [done|].
  rewrite Nat2N.inj_succ, N.pow_succ_r'. cbn [to_le_bytes].
  assert (256 ^ N.of_nat w ≠ 0)%N by (by apply N.pow_nonzero).
  rewrite N.Div0.mod_mul_r, (N.mul_comm 256). f_equal.
  - unfold as_u8. by rewrite N.Div0.mod_add, N.Div0.mod_mod.
  - rewrite <-(IH (x / 256)%N). f_equal.
    rewrite N.div_add, N.div_small by (done || by apply N.mod_lt). lia.
Qed.

(** ** Lemmas: iteration order *)

Lemma hash_iter_elem `{HashIter} {V} (m : gmap bytes V) k v :
  (k, v) ∈ hash_iter m ↔ m !! k = Some v.
Proof. by rewrite hash_iter_perm, elem_of_map_to_list. Qed.

Lemma hash_iter_NoDup `{HashIter} {V} (m : gmap bytes V) : NoDup (hash_iter m).*1.
Proof. rewrite hash_iter_perm. apply NoDup_fst_map_to_list. Qed.

Lemma hash_iter_list_to_map `{HashIter} {V} (m : gmap bytes V) :
  list_to_map (hash_iter m) = m.
Proof.
  rewrite <-(list_to_map_to_list m) at 2.
  apply list_to_map_proper; [apply hash_iter_NoDup|apply hash_iter_perm].
Qed.

Lemma set_iter_elem `{HashIter} (X : gset bytes) k : k ∈ set_iter X ↔ k ∈ X.
Proof. by rewrite set_iter_perm, elem_of_elements. Qed.

#[export] Hint Resolve hash_iter_NoDup sort_unstable_sorted dedup_sorted : txn.
