(* ===== verification/Sync.v ===== *)
(** * Locks that recover from poisoning

    [src/sync.rs]: the guards of the crate are taken with [lock], [read] and [write],
    which ignore that an earlier holder panicked. A lock is the data it protects and
    the poison flag of the standard library; who waits for whom is the business of
    the interleavings of [System], in which each critical section is one step. *)

From S2P Require Import Prelude RustStd.

Module Sync.
Section sync.
Context {T : Type}.

(** ** Definitions *)

Record Mutex := mkMutex { poisoned : bool; data : T }.
Record RwLock := mkRwLock { rw_poisoned : bool; rw_data : T }.

(** [LockResult]: a guard, or an error that carries one. A guard gives access to the
    data. *)
Inductive LockResult :=
| Acquired (guard : T)
| Poisoned (guard : T).

(** The standard library's [Mutex::lock], [RwLock::read] and [RwLock::write]. *)
Definition Mutex_lock (m : Mutex) : LockResult :=
  if poisoned m then Poisoned (data m) else Acquired (data m).

Definition RwLock_read (l : RwLock) : LockResult :=
  if rw_poisoned l then Poisoned (rw_data l) else Acquired (rw_data l).

Definition RwLock_write (l : RwLock) : LockResult :=
  if rw_poisoned l then Poisoned (rw_data l) else Acquired (rw_data l).

Definition into_inner (guard : T) : T := guard.

(** [pub(crate) fn lock], [read] and [write]. *)
Definition lock (m : Mutex) : T :=
  match Mutex_lock m with
  | Acquired guard => guard
  | Poisoned poisoned => into_inner poisoned
  end.

Definition read (l : RwLock) : T :=
  match RwLock_read l with
  | Acquired guard => guard
  | Poisoned poisoned => into_inner poisoned
  end.

Definition write (l : RwLock) : T :=
  match RwLock_write l with
  | Acquired guard => guard
  | Poisoned poisoned => into_inner poisoned
  end.

(** What runs while a guard is held: what it leaves of the data, also when it
    unwinds, and what it returns. *)
Definition section (B : Type) : Type := T → T * outcome B.

Definition panicked {B} (r : outcome B) : bool := match r with Panic => true | Ret _ => false end.

(** Take the guard, run, drop the guard: it poisons the lock when it is dropped by a
    panic. A read guard neither changes the data nor poisons. *)
Definition with_lock {B} (m : Mutex) (f : section B) : Mutex * outcome B :=
  let '(d, r) := f (lock m) in (mkMutex (poisoned m || panicked r) d, r).

Definition with_write {B} (l : RwLock) (f : section B) : RwLock * outcome B :=
  let '(d, r) := f (write l) in (mkRwLock (rw_poisoned l || panicked r) d, r).

Definition with_read {B} (l : RwLock) (f : T → outcome B) : RwLock * outcome B :=
  (l, f (read l)).

(** The same with [lock().unwrap()], for comparison. *)
Definition with_unwrap {B} (m : Mutex) (f : section B) : Mutex * outcome B :=
  match Mutex_lock m with
  | Acquired guard => let '(d, r) := f guard in (mkMutex (panicked r) d, r)
  | Poisoned _ => (m, Panic)
  end.

(** Sections one after the other, whatever becomes of each. *)
Fixpoint run {L B} (take : L → section B → L * outcome B) (l : L) (fs : list (section B)) :
    L * list (outcome B) :=
  match fs with
  | [] => (l, [])
  | f :: fs =>
     let '(l, r) := take l f in
     let '(l, rs) := run take l fs in (l, r :: rs)
  end.

(** On the bare data, without a lock. *)
Definition bare {B} (d : T) (f : section B) : T * outcome B := f d.

(** ** Lemmas *)

(** Poisoning has no effect: a critical section finds the data as the last one left
    it and returns what it returns on the bare data, also after a panic; the flag
    only records that there was one. *)
Theorem poisoning_ignored {B} (fs : list (section B)) (p : bool) (d : T) :
  let '(d', rs) := run bare d fs in
  run with_lock (mkMutex p d) fs = (mkMutex (p || existsb panicked rs) d', rs) ∧
  run with_write (mkRwLock p d) fs = (mkRwLock (p || existsb panicked rs) d', rs).
Proof.
  revert p d. induction fs as [|f fs IH]; intros p d; cbn; [by rewrite orb_false_r|].
  unfold with_lock at 1, with_write at 1, bare at 1, lock, write, Mutex_lock, RwLock_write, into_inner. cbn.
  assert ((if p then d else d) = d) as Hd by by destruct p.
  replace (match (if p then Poisoned d else Acquired d) with Acquired guard => guard | Poisoned q => q end)
    with d by by destruct p.
  destruct (f d) as [d1 r]. specialize (IH (p || panicked r) d1). destruct (run bare d1 fs) as [d' rs].
  destruct IH as [-> ->]. cbn. by rewrite orb_assoc.
Qed.

(** With [unwrap], one panic would make every later section panic. *)
Lemma unwrap_stays_poisoned {B} (f : section B) (fs : list (section B)) (d : T) :
  (f d).2 = Panic →
  (run with_unwrap (mkMutex false d) (f :: fs)).2 = replicate (S (length fs)) Panic.
Proof.
  intros Hf. assert (with_unwrap (mkMutex false d) f = (mkMutex true (f d).1, Panic)) as E.
  { unfold with_unwrap, Mutex_lock. cbn. destruct (f d) as [d1 r]. cbn in *. by subst r. }
  assert (∀ d1, run with_unwrap (mkMutex true d1) fs = (mkMutex true d1, replicate (length fs) Panic)) as Hp.
  { intros d1. clear. induction fs as [|g fs IH]; [done|]. cbn. by rewrite IH. }
  cbn [run]. by rewrite E, Hp.
Qed.

End sync.
End Sync.
