(* ===== verification/Types.v ===== *)
(** * Timestamps, errors and results

    [Module Timestamp] models [src/timestamp.rs], [Module TxnError] models
    [src/error.rs]. [Result] is [core::result::Result] with the crate's error
    type, and [fallible] is Rust code that returns a [Result] and may panic. *)

From S2P Require Import Prelude.

(** ** Timestamps *)

Module Timestamp.

(** [struct Timestamp(u64)]: a newtype, built with [from_raw] and read with
    [get]. *)
Record t := from_raw { get : N }.

Definition ZERO : t := from_raw 0.

(** The derived instances: equality, hashing and the order of the raw counter. *)
#[global] Instance eq_dec : EqDecision t.
Proof. solve_decision. Defined.

#[global] Program Instance countable : Countable t := inj_countable' get from_raw _.
Next Obligation. by intros []. Qed.

Definition le (a b : t) : Prop := (get a ≤ get b)%N.
Definition lt (a b : t) : Prop := (get a < get b)%N.
Definition leb (a b : t) : bool := (get a <=? get b)%N.
Definition ltb (a b : t) : bool := (get a <? get b)%N.

(** [Ord::max]: on equal values the second argument is returned. *)
Definition max (a b : t) : t := if leb a b then b else a.

(** [impl Display]. *)
Definition fmt (a : t) : string := "@" +:+ pretty (get a).

Lemma ext a b : get a = get b → a = b.
Proof. destruct a, b; cbn. by intros ->. Qed.

Lemma leb_le a b : leb a b = true ↔ (get a ≤ get b)%N.
Proof. apply N.leb_le. Qed.

Lemma leb_gt a b : leb a b = false ↔ (get b < get a)%N.
Proof. apply N.leb_gt. Qed.

Lemma ltb_lt a b : ltb a b = true ↔ (get a < get b)%N.
Proof. apply N.ltb_lt. Qed.

Lemma ltb_ge a b : ltb a b = false ↔ (get b ≤ get a)%N.
Proof. apply N.ltb_ge. Qed.

Lemma leb_spec a b : BoolSpec (get a ≤ get b)%N (get b < get a)%N (leb a b).
Proof. apply N.leb_spec. Qed.

Lemma ltb_spec a b : BoolSpec (get a < get b)%N (get b ≤ get a)%N (ltb a b).
Proof. apply N.ltb_spec. Qed.

Lemma max_get a b : get (max a b) = N.max (get a) (get b).
Proof. unfold max. destruct (leb_spec a b); lia. Qed.

(** The derived order is a decidable total order with least element [ZERO]. *)
#[global] Instance le_total_order : TotalOrder le.
Proof.
  split; [split; [split|]|].
  - intros a. unfold le. lia.
  - intros a b c. unfold le. lia.
  - intros a b ??. apply ext. unfold le in *. lia.
  - intros a b. unfold strict, le. destruct (decide (a = b)) as [->|Hne]; [auto|].
    assert (get a ≠ get b) by (intros ?; by apply Hne, ext). lia.
Qed.

#[global] Instance le_decision : RelDecision le.
Proof. intros a b. unfold le. apply _. Defined.

End Timestamp.

(** ** Errors *)

Module TxnError.

(** [enum TxnError]. *)
Inductive t :=
| Conflict (key_len : N)
| Store (context detail : string)
| Durability (detail : string).

#[global] Instance eq_dec : EqDecision t.
Proof. solve_decision. Defined.

Definition conflict (key_len : nat) : t := Conflict (N.of_nat key_len).
Definition store (context detail : string) : t := Store context detail.
Definition durability (detail : string) : t := Durability detail.

Definition is_retryable (e : t) : bool :=
  match e with Conflict _ => true | _ => false end.

(** [impl Display]. *)
Definition fmt (e : t) : string :=
  match e with
  | Conflict key_len =>
     "write-write conflict on a " +:+ pretty key_len +:+ "-byte key; retry the transaction"
  | Store context detail => "version store error while " +:+ context +:+ ": " +:+ detail
  | Durability detail => "durable commit log error: " +:+ detail
  end.

(** [impl ForgeError]. *)
Definition kind (e : t) : string :=
  match e with
  | Conflict _ => "Conflict"
  | Store _ _ => "Store"
  | Durability _ => "Durability"
  end.

Definition caption (e : t) : string := "transaction error".

(** The trait method delegates to the inherent one. *)
Definition forge_is_retryable (e : t) : bool := is_retryable e.

Definition is_fatal (e : t) : bool :=
  match e with Durability _ => true | _ => false end.

(** The metadata of an error is consistent: an error is retryable exactly when
    it is a conflict, fatal exactly when it is a durability failure, and hence
    never both. *)
Lemma metadata_spec e :
  (is_retryable e = true ↔ kind e = "Conflict") ∧
  (is_fatal e = true ↔ kind e = "Durability") ∧
  is_retryable e && is_fatal e = false.
Proof. destruct e; cbn; naive_solver. Qed.

End TxnError.

(** ** Results *)

Inductive Result (A : Type) : Type :=
| Ok (a : A)
| Err (e : TxnError.t).
Arguments Ok {A} a.
Arguments Err {A} e.

#[export] Instance Result_eq_dec {A} `{EqDecision A} : EqDecision (Result A).
Proof. solve_decision. Defined.

#[export] Instance result_ret : MRet Result := @Ok.
#[export] Instance result_bind : MBind Result :=
  λ A B f m, match m with Ok a => f a | Err e => Err e end.
#[export] Instance result_fmap : FMap Result :=
  λ A B f m, match m with Ok a => Ok (f a) | Err e => Err e end.

Definition is_ok {A} (r : Result A) : bool := match r with Ok _ => true | Err _ => false end.

(** Fallible code that may panic; [x ←? m; k] is [let x = m?; k]. *)
Abbreviation fallible A := (outcome (Result A)).

Definition try_bind {A B} (m : fallible A) (f : A → fallible B) : fallible B :=
  r ← m;
  match r with Ok a => f a | Err e => Ret (Err e) end.

Declare Scope txn_scope.
Open Scope txn_scope.
Notation "x ←? m ; k" := (try_bind m (λ x, k))
  (at level 20, m at level 100, k at level 200,
   format "x  ←?  m ;  '/' k") : txn_scope.
Notation "' pat ←? m ; k" := (try_bind m (λ pat, k))
  (at level 20, pat pattern, m at level 100, k at level 200) : txn_scope.

Lemma try_bind_Ok {A B} (m : fallible A) (f : A → fallible B) b :
  try_bind m f = Ret (Ok b) ↔ ∃ a, m = Ret (Ok a) ∧ f a = Ret (Ok b).
Proof.
  unfold try_bind. rewrite bind_Ret. split.
  - intros ([a|e] & -> & H); [eauto|done].
  - intros (a & -> & H). eauto.
Qed.

(** Case analysis on comparisons of timestamps, exposing the raw counters. *)
Ltac case_ts :=
  match goal with
  | |- context [Timestamp.ltb ?a ?b] => destruct (Timestamp.ltb_spec a b)
  | |- context [Timestamp.leb ?a ?b] => destruct (Timestamp.leb_spec a b)
  | H : context [Timestamp.ltb ?a ?b] |- _ => destruct (Timestamp.ltb_spec a b)
  | H : context [Timestamp.leb ?a ?b] |- _ => destruct (Timestamp.leb_spec a b)
  end.

(** Arithmetic on timestamps through their counters. *)
Ltac ts_lia := unfold Timestamp.le, Timestamp.lt in *; cbn [Timestamp.get] in *; lia.

#[export] Hint Resolve Timestamp.ext : txn.
