(* ===== verification/Chain.v ===== *)
(** * Version chains

    The per-key history of [src/store.rs]: [struct Version], the reads of a chain
    ([visible_value], [newer_than]) and the body of the closure that
    [collect_garbage] hands to [HashMap::retain]. The abstract reading of a chain
    is [view] (which value a snapshot sees) and [changed_since] (whether the key
    changed after a snapshot). *)

From S2P Require Import Prelude RustStd Types.

(** ** Definitions *)

(** [struct Version]: a [value] of [None] is a tombstone. *)
Record Version := mkVersion {
  commit_ts : Timestamp.t;
  value : option bytes;
}.

#[export] Instance Version_eq_dec : EqDecision Version.
Proof. solve_decision. Defined.

Abbreviation Chain := (list Version).

Definition at_or_below (t : Timestamp.t) (v : Version) : bool :=
  Timestamp.leb (commit_ts v) t.

(** [fn newer_than]. *)
Definition newer_than (versions : option Chain) (read_ts : Timestamp.t) : bool :=
  match versions ≫= last with
  | Some v => Timestamp.ltb read_ts (commit_ts v)
  | None => false
  end.

(** [fn visible_value]. *)
Definition visible_value (versions : option Chain) (read_ts : Timestamp.t) :
    outcome (option bytes) :=
  match versions with
  | None => Ret None
  | Some versions =>
     let visible := partition_point (at_or_below read_ts) versions in
     match visible with
     | O => Ret None
     | S idx => v ← index versions idx; Ret (value v)
     end
  end.

(** [Vec::drain(0..n)] with the drained elements dropped. *)
Definition drain_front {A} (n : nat) (l : list A) : outcome (list A) :=
  if n <=? length l then Ret (drop n l) else Panic.

(** The closure of [collect_garbage]: how many versions of the chain were
    reclaimed, and the chain that is retained ([None] when the closure returns
    [false] and the key is removed). *)
Definition gc_chain (low_watermark : Timestamp.t) (chain : Chain) :
    outcome (nat * option Chain) :=
  let visible := partition_point (at_or_below low_watermark) chain in
  '(reclaimed, chain) ←
    (if 1 <? visible then
       chain ← drain_front (visible - 1) chain;
       Ret (visible - 1, chain)
     else Ret (0, chain));
  Ret match chain with
      | [v] => if at_or_below low_watermark v && bool_decide (value v = None)
               then (reclaimed + 1, None)
               else (reclaimed, Some chain)
      | _ => (reclaimed, Some chain)
      end.

(** *** Abstract reading *)

(** The newest version at or below [t]. *)
Definition visible_at (c : Chain) (t : Timestamp.t) : option Version :=
  last (List.filter (at_or_below t) c).

Definition view (c : Chain) (t : Timestamp.t) : option bytes := visible_at c t ≫= value.

(** Some version is stamped after [t]. *)
Definition changed_since (c : Chain) (t : Timestamp.t) : bool :=
  existsb (λ v, Timestamp.ltb t (commit_ts v)) c.

(** Ascending commit-timestamp order, the invariant of every chain. *)
Definition ascending (c : Chain) : Prop :=
  StronglySorted (λ a b, Timestamp.le (commit_ts a) (commit_ts b)) c.

(** A chain that a store holds: never empty, and ascending. *)
Definition chain_wf (c : Chain) : Prop := c ≠ [] ∧ ascending c.

(** The versions a collection must keep. *)
Definition above (wm : Timestamp.t) (v : Version) : bool := negb (at_or_below wm v).

(** What is left of a chain collected at [wm]: the newest version at or below it,
    unless a tombstone with nothing after it, and everything above it. *)
Definition collected (wm : Timestamp.t) (c : Chain) : Chain :=
  let kept := List.filter (above wm) c in
  match last (List.filter (at_or_below wm) c) with
  | None => kept
  | Some v => if bool_decide (kept = []) && bool_decide (value v = None) then [] else v :: kept
  end.

(** Two chains that no reader at or after [t] can tell apart. *)
Definition same_from (t : Timestamp.t) (c c' : Chain) : Prop :=
  ∀ t', (Timestamp.get t ≤ Timestamp.get t')%N →
    view c' t' = view c t' ∧ changed_since c' t' = changed_since c t'.

(** A chain for the witnesses: three versions, the last one a tombstone. *)
Definition sample_chain : Chain :=
  [mkVersion (Timestamp.from_raw 1) (Some [x01]);
   mkVersion (Timestamp.from_raw 3) (Some [x02]);
   mkVersion (Timestamp.from_raw 5) None].

(** ** Reading *)

Lemma visible_at_snoc c v t :
  visible_at (c ++ [v]) t = if at_or_below t v then Some v else visible_at c t.
Proof.
  unfold visible_at. rewrite List.filter_app. cbn.
  destruct (at_or_below t v); [by rewrite last_snoc|by rewrite app_nil_r].
Qed.

Lemma view_snoc c v t :
  view (c ++ [v]) t = if at_or_below t v then value v else view c t.
Proof. unfold view. rewrite visible_at_snoc. by destruct (at_or_below t v). Qed.

Lemma changed_since_snoc c v t :
  changed_since (c ++ [v]) t = changed_since c t || Timestamp.ltb t (commit_ts v).
Proof. unfold changed_since. rewrite existsb_app. cbn. by rewrite orb_false_r. Qed.

Lemma changed_since_true c t :
  changed_since c t = true ↔
    ∃ v, v ∈ c ∧ (Timestamp.get t < Timestamp.get (commit_ts v))%N.
Proof.
  unfold changed_since. rewrite existsb_exists.
  setoid_rewrite Timestamp.ltb_lt. by setoid_rewrite list_elem_of_In.
Qed.

Lemma changed_since_false c t :
  changed_since c t = false ↔
    ∀ v, v ∈ c → (Timestamp.get (commit_ts v) ≤ Timestamp.get t)%N.
Proof.
  rewrite <-not_true_iff_false, changed_since_true. split.
  - intros Hn v Hv. destruct (N.le_gt_cases (Timestamp.get (commit_ts v)) (Timestamp.get t));
      [done|]. exfalso. eauto.
  - intros Hall (v & Hv & Hlt). specialize (Hall v Hv). lia.
Qed.

Lemma visible_at_Some c t v :
  visible_at c t = Some v → v ∈ c ∧ (Timestamp.get (commit_ts v) ≤ Timestamp.get t)%N.
Proof.
  intros Hv%last_elem_of%list_elem_of_In. apply filter_In in Hv as [Hv Hle].
  by rewrite list_elem_of_In, <-Timestamp.leb_le.
Qed.

(** An ascending chain splits at any timestamp. *)
Lemma ascending_split c t :
  ascending c →
  ∃ l1 l2, c = l1 ++ l2 ∧
    Forall (λ v, at_or_below t v = true) l1 ∧
    Forall (λ v, at_or_below t v = false) l2.
Proof.
  apply StronglySorted_partition. intros x y Hxy Hy. unfold at_or_below in *.
  apply Timestamp.leb_le in Hy. apply Timestamp.leb_le. ts_lia.
Qed.

Lemma filter_all_true {A} (P : A → bool) l : Forall (λ x, P x = true) l → List.filter P l = l.
Proof.
  induction 1 as [|x l Hx _ IH]; [done|]. cbn. by rewrite Hx, IH.
Qed.

Lemma filter_all_false {A} (P : A → bool) l : Forall (λ x, P x = false) l → List.filter P l = [].
Proof. induction 1 as [|x l Hx _ IH]; [done|]. cbn. by rewrite Hx. Qed.

Lemma visible_at_split l1 l2 t :
  Forall (λ v, at_or_below t v = true) l1 →
  Forall (λ v, at_or_below t v = false) l2 →
  visible_at (l1 ++ l2) t = last l1.
Proof.
  intros H1 H2. unfold visible_at.
  by rewrite List.filter_app, filter_all_true, filter_all_false, app_nil_r.
Qed.

(** The binary search reads exactly the newest version at or below the snapshot. *)
Lemma visible_value_view c t : ascending c → visible_value (Some c) t = Ret (view c t).
Proof.
  intros (l1 & l2 & -> & H1 & H2)%(ascending_split _ t).
  unfold visible_value, view. rewrite partition_point_app, visible_at_split by done.
  destruct l1 as [|v l1 _] using rev_ind; [done|].
  rewrite length_app, last_snoc, Nat.add_comm. cbn.
  rewrite <-app_assoc, (index_Ret _ _ v); [done|]. by apply list_lookup_middle.
Qed.

Lemma visible_value_default (o : option Chain) t :
  (∀ c, o = Some c → ascending c) → visible_value o t = Ret (view (default [] o) t).
Proof. destruct o as [c|]; [|done]. intros Hc. by apply visible_value_view, Hc. Qed.

(** Looking at the last version only is enough to detect a change. *)
Lemma newer_than_changed c t : ascending c → newer_than (Some c) t = changed_since c t.
Proof.
  intros Hc. unfold newer_than. cbn.
  destruct c as [|v c _] using rev_ind; [done|]. rewrite last_snoc, changed_since_snoc.
  destruct (Timestamp.ltb_spec t (commit_ts v)) as [|Hge]; [by rewrite orb_true_r|].
  rewrite orb_false_r. symmetry. apply changed_since_false. intros w Hw.
  pose proof (StronglySorted_app_1_elem_of _ _ _ w v Hc Hw ltac:(set_solver)). ts_lia.
Qed.

Lemma newer_than_default (o : option Chain) t :
  (∀ c, o = Some c → ascending c) → newer_than o t = changed_since (default [] o) t.
Proof. destruct o as [c|]; [|done]. intros Hc. by apply newer_than_changed, Hc. Qed.

(** ** Appending *)

Lemma ascending_snoc c v :
  ascending c → changed_since c (commit_ts v) = false → ascending (c ++ [v]).
Proof.
  intros Hc Hlast. apply StronglySorted_snoc; [done|]. intros w Hw.
  by apply (proj1 (changed_since_false _ _) Hlast).
Qed.

Lemma chain_wf_snoc c v :
  ascending c → changed_since c (commit_ts v) = false → chain_wf (c ++ [v]).
Proof. split; [|by apply ascending_snoc]. by destruct c. Qed.

Lemma changed_since_mono c t t' :
  (Timestamp.get t ≤ Timestamp.get t')%N → changed_since c t = false → changed_since c t' = false.
Proof.
  rewrite !changed_since_false. intros Ht Hc v Hv. specialize (Hc v Hv). lia.
Qed.

(** When nothing changed after [t], every later snapshot reads the same value. *)
Lemma view_unchanged c t t' :
  (Timestamp.get t ≤ Timestamp.get t')%N → changed_since c t = false → view c t' = view c t.
Proof.
  intros Ht Hc. unfold view, visible_at. f_equal.
  rewrite changed_since_false in Hc. f_equal.
  rewrite !filter_all_true; [done| |]; apply Forall_forall; intros v Hv;
    apply Timestamp.leb_le; specialize (Hc v Hv); lia.
Qed.

#[export] Hint Resolve ascending_snoc chain_wf_snoc : txn.

(** ** Collection *)

Lemma same_from_refl t c : same_from t c c.
Proof. done. Qed.

Lemma drain_front_ok {A} n (l : list A) : n ≤ length l → drain_front n l = Ret (drop n l).
Proof. intros. unfold drain_front. by case_cmp; [|lia]. Qed.

(** What the closure computes, on a chain split at the watermark: the last of the
    versions at or below it survives, unless it is alone and a tombstone. *)
Lemma gc_chain_split wm l1 l2 :
  Forall (λ v, at_or_below wm v = true) l1 →
  Forall (λ v, at_or_below wm v = false) l2 →
  gc_chain wm (l1 ++ l2) =
    Ret match last l1 with
        | None => (0, Some l2)
        | Some v => if bool_decide (l2 = []) && bool_decide (value v = None)
                    then (length l1, None)
                    else (length l1 - 1, Some (v :: l2))
        end.
Proof.
  intros H1 H2. unfold gc_chain. rewrite partition_point_app by done.
  destruct l1 as [|v l1 _] using rev_ind.
  { cbn. destruct l2 as [|w [|]]; [done| |done].
    apply Forall_cons in H2 as [Hw _]. by rewrite Hw. }
  rewrite last_snoc, length_app. cbn [length]. rewrite Nat.add_sub.
  assert (Hv : at_or_below wm v = true) by (by apply Forall_app in H1 as [_ [? _]%Forall_cons]).
  assert (Hdrop : (if 1 <? length l1 + 1 then
       chain ← drain_front (length l1) ((l1 ++ [v]) ++ l2); Ret (length l1, chain)
     else Ret (0, (l1 ++ [v]) ++ l2)) = Ret (length l1, v :: l2)).
  { destruct (Nat.ltb_spec 1 (length l1 + 1)).
    - rewrite drain_front_ok by (rewrite !length_app; cbn; lia).
      by rewrite <-app_assoc, drop_app_length.
    - by destruct l1; [|cbn in *; lia]. }
  rewrite Hdrop. cbn. destruct l2 as [|w l2]; [|done]. rewrite Hv. cbn.
  by case_bool_decide.
Qed.

Lemma filter_split wm l1 l2 :
  Forall (λ v, at_or_below wm v = true) l1 → Forall (λ v, at_or_below wm v = false) l2 →
  List.filter (above wm) (l1 ++ l2) = l2 ∧ List.filter (at_or_below wm) (l1 ++ l2) = l1.
Proof.
  intros H1 H2. unfold above. rewrite !List.filter_app. split.
  - rewrite filter_all_false, filter_all_true; [done|..].
    + eapply Forall_impl; [exact H2|]. intros v Hv. cbn. by rewrite Hv.
    + eapply Forall_impl; [exact H1|]. intros v Hv. cbn. by rewrite Hv.
  - by rewrite filter_all_true, filter_all_false, app_nil_r.
Qed.

(** *** What a collection leaves *)

Lemma collected_split wm l1 l2 :
  Forall (λ v, at_or_below wm v = true) l1 → Forall (λ v, at_or_below wm v = false) l2 →
  collected wm (l1 ++ l2) =
    match last l1 with
    | None => l2
    | Some v => if bool_decide (l2 = []) && bool_decide (value v = None) then [] else v :: l2
    end.
Proof.
  intros H1 H2. unfold collected. by destruct (filter_split wm l1 l2 H1 H2) as [-> ->].
Qed.

(** The closure computes it, and counts what it drops. *)
Lemma gc_chain_collected wm c :
  ascending c →
  ∃ n r, gc_chain wm c = Ret (n, r) ∧ default [] r = collected wm c ∧
    length c = n + length (collected wm c) ∧ (c ≠ [] → r ≠ Some []).
Proof.
  intros Hasc. destruct (ascending_split c wm Hasc) as (l1 & l2 & -> & H1 & H2).
  rewrite gc_chain_split, collected_split, length_app by done.
  destruct (last l1) as [v|] eqn:E.
  2:{ apply last_None in E as ->. eexists _, _. split_and!; [done..|]. by intros ? [= ->]. }
  assert (length l1 ≠ 0) by (by destruct l1).
  destruct (bool_decide (l2 = []) && _) eqn:Eb; eexists _, _; (split_and!; [done..| |done]).
  - apply andb_true_iff in Eb as [->%bool_decide_eq_true _]. done.
  - cbn. lia.
Qed.

(** It starts with at most one version at or below the watermark. *)
Lemma collected_parts wm l1 l2 :
  Forall (λ v, at_or_below wm v = true) l1 → Forall (λ v, at_or_below wm v = false) l2 →
  ∃ l, collected wm (l1 ++ l2) = l ++ l2 ∧ Forall (λ v, at_or_below wm v = true) l ∧
    length l ≤ 1 ∧ (∀ v, v ∈ l → last l1 = Some v ∧ (l2 = [] → value v ≠ None)).
Proof.
  intros H1 H2. rewrite collected_split by done.
  destruct (last l1) as [v|] eqn:E; [|exists []; split_and!; [done..|cbn; lia|set_solver]].
  destruct (bool_decide _ && _) eqn:Eb.
  - apply andb_true_iff in Eb as [->%bool_decide_eq_true _].
    exists []. split_and!; [done..|cbn; lia|set_solver].
  - exists [v]. split_and!; [done| |done|].
    + constructor; [|done]. rewrite Forall_forall in H1. by apply H1, last_elem_of.
    + intros w ->%list_elem_of_singleton. split; [done|]. intros -> Hv.
      by rewrite !bool_decide_true in Eb.
Qed.

(** What is dropped is invisible to every reader at or after the watermark. *)
Lemma visible_dropped wm l1 v l2 t :
  Forall (λ v, at_or_below wm v = true) (l1 ++ [v]) → (Timestamp.get wm ≤ Timestamp.get t)%N →
  visible_at ((l1 ++ [v]) ++ l2) t = visible_at (v :: l2) t ∧
  changed_since ((l1 ++ [v]) ++ l2) t = changed_since (v :: l2) t ∧ at_or_below t v = true.
Proof.
  intros H1 Ht. assert (Hbelow : Forall (λ w, at_or_below t w = true) (l1 ++ [v])).
  { eapply Forall_impl; [exact H1|]. intros w Hw%Timestamp.leb_le. apply Timestamp.leb_le. lia. }
  apply Forall_app in Hbelow as [Hl1 [Hv _]%Forall_cons]. rewrite <-app_assoc. split_and!; [..|done].
  - unfold visible_at. rewrite List.filter_app, (filter_all_true _ l1) by done.
    cbn. rewrite Hv. by rewrite last_app_cons.
  - unfold changed_since. rewrite existsb_app. replace (existsb _ l1) with false; [done|].
    symmetry. change (changed_since l1 t = false). apply changed_since_false. intros w Hw.
    rewrite Forall_forall in Hl1. by apply Timestamp.leb_le, Hl1.
Qed.

Lemma collected_same wm c : ascending c → same_from wm c (collected wm c).
Proof.
  intros Hasc t Ht. destruct (ascending_split c wm Hasc) as (l1 & l2 & -> & H1 & H2).
  rewrite collected_split by done. destruct l1 as [|v l1 _] using rev_ind; [done|].
  rewrite last_snoc. destruct (visible_dropped wm l1 v l2 t H1 Ht) as (Hvis & Hch & Hv).
  unfold view. rewrite Hvis, Hch. destruct (bool_decide _ && _) eqn:Eb; [|done].
  apply andb_true_iff in Eb as [->%bool_decide_eq_true Hval%bool_decide_eq_true].
  unfold visible_at, changed_since. cbn. rewrite Hv. cbn. rewrite Hval, orb_false_r.
  split; [done|]. symmetry. by apply Timestamp.ltb_ge, Timestamp.leb_le.
Qed.

Lemma collected_ascending wm c : ascending c → ascending (collected wm c).
Proof.
  intros Hasc. destruct (ascending_split c wm Hasc) as (l1 & l2 & -> & H1 & H2).
  rewrite collected_split by done. unfold ascending in *.
  destruct l1 as [|v l1 _] using rev_ind; [done|]. rewrite last_snoc.
  rewrite <-app_assoc in Hasc. apply StronglySorted_app_1_r in Hasc.
  destruct (_ && _); [constructor|done].
Qed.

Lemma collected_idem wm c : ascending c → collected wm (collected wm c) = collected wm c.
Proof.
  intros Hasc. destruct (ascending_split c wm Hasc) as (l1 & l2 & -> & H1 & H2).
  destruct (collected_parts wm l1 l2 H1 H2) as (l & E & Hl & Hlen & Hval). rewrite E.
  rewrite collected_split by done. destruct l as [|v [|]]; [done| |cbn in Hlen; lia]. cbn.
  destruct (Hval v ltac:(set_solver)) as [_ Hv]. case_bool_decide; [|done]. cbn.
  case_bool_decide; [|done]. by destruct Hv.
Qed.

(** A key disappears when nothing of it can be read any more. *)
Lemma collected_empty wm c :
  ascending c →
  collected wm c ≠ [] ↔ is_Some (view c wm) ∨ changed_since c wm = true.
Proof.
  intros Hasc. destruct (collected_same wm c Hasc wm) as [<- <-]; [done|].
  destruct (ascending_split c wm Hasc) as (l1 & l2 & -> & H1 & H2).
  destruct (collected_parts wm l1 l2 H1 H2) as (l & -> & Hl & Hlen & Hval).
  unfold view. rewrite visible_at_split, changed_since_true by done. split.
  - intros Hne. destruct l2 as [|w l2].
    + left. destruct (last l) as [v|] eqn:E; [|apply last_None in E; by subst]. cbn.
      destruct (Hval v) as [_ Hv]; [by apply last_elem_of|]. destruct (value v); [done|].
      by destruct Hv.
    + right. exists w. split; [set_solver|]. apply Forall_cons in H2 as [Hw _].
      by apply Timestamp.leb_gt.
  - destruct l; [|done]. destruct l2; [|done]. intros [[? H]|(? & H & _)]; [done|set_solver].
Qed.

(** Nothing above the watermark is lost, and at most one version below it is kept. *)
Lemma collected_tight wm c :
  ascending c →
  List.filter (above wm) (collected wm c) = List.filter (above wm) c ∧
  length (List.filter (at_or_below wm) (collected wm c)) ≤ 1.
Proof.
  intros Hasc. destruct (ascending_split c wm Hasc) as (l1 & l2 & -> & H1 & H2).
  destruct (collected_parts wm l1 l2 H1 H2) as (l & -> & Hl & Hl1 & _).
  destruct (filter_split wm l1 l2 H1 H2), (filter_split wm l l2 Hl H2).
  split; congruence.
Qed.

(** The key is removed exactly when its last version is a passed tombstone. *)
Lemma collected_tombstone wm c :
  ascending c →
  c ≠ [] ∧ collected wm c = [] ↔ ∃ v, last c = Some v ∧ at_or_below wm v = true ∧ value v = None.
Proof.
  intros Hasc. destruct (ascending_split c wm Hasc) as (l1 & l2 & -> & H1 & H2).
  rewrite collected_split by done. destruct l2 as [|w l2 _] using rev_ind.
  - rewrite app_nil_r. destruct (last l1) as [v|] eqn:E.
    + assert (at_or_below wm v = true).
      { rewrite Forall_forall in H1. by apply H1, last_elem_of. }
      assert (l1 ≠ []) by (by intros ->). case_bool_decide; [|done]. cbn.
      case_bool_decide; naive_solver.
    + apply last_None in E as ->. naive_solver.
  - rewrite app_assoc, last_snoc, bool_decide_false by (by destruct l2).
    apply Forall_app in H2 as [_ [Hw _]%Forall_cons]. split.
    + intros [_ H]. destruct (last l1); [done|]. by destruct l2.
    + intros (v & [= <-] & ? & _). congruence.
Qed.

(** ** Properties *)

Lemma sample_chain_ascending : ascending sample_chain.
Proof.
  repeat first [apply SSorted_nil | apply SSorted_cons | apply Forall_nil_2 | apply Forall_cons_2];
    unfold Timestamp.le; cbn; lia.
Qed.

(** A read returns the value of the last version at or below the snapshot, and
    nothing when every version is newer. The binary search in [visible_value]
    finds exactly that version, for every ascending chain. *)
Theorem visible_value_newest c t :
  ascending c →
  ∃ r, visible_value (Some c) t = Ret r ∧
    ((r = None ∧ ∀ v, v ∈ c → (Timestamp.get t < Timestamp.get (commit_ts v))%N) ∨
     ∃ i v, c !! i = Some v ∧ (Timestamp.get (commit_ts v) ≤ Timestamp.get t)%N ∧ r = value v ∧
       ∀ j w, c !! j = Some w → (Timestamp.get (commit_ts w) ≤ Timestamp.get t)%N → j ≤ i).
Proof.
  intros Hc. exists (view c t). split; [by apply visible_value_view|].
  destruct (ascending_split c t Hc) as (l1 & l2 & -> & H1 & H2).
  unfold view. rewrite visible_at_split by done. rewrite Forall_forall in H1, H2.
  destruct l1 as [|v l1 _] using rev_ind.
  - left. split; [done|]. intros v Hv. by apply Timestamp.leb_gt, H2.
  - right. rewrite last_snoc. exists (length l1), v. split_and!.
    + rewrite <-app_assoc. by apply list_lookup_middle.
    + apply Timestamp.leb_le, (H1 v). set_solver.
    + done.
    + intros j w Hj Hw. apply Nat.le_ngt. intros Hlt.
      rewrite lookup_app_r in Hj by (rewrite length_app; cbn; lia).
      apply list_elem_of_lookup_2, H2, Timestamp.leb_gt in Hj. lia.
Qed.

Lemma visible_value_newest_witness :
  ascending sample_chain ∧
  ∃ r, visible_value (Some sample_chain) (Timestamp.from_raw 4) = Ret r ∧
    ((r = None ∧ ∀ v, v ∈ sample_chain → (4 < Timestamp.get (commit_ts v))%N) ∨
     ∃ i v, sample_chain !! i = Some v ∧ (Timestamp.get (commit_ts v) ≤ 4)%N ∧ r = value v ∧
       ∀ j w, sample_chain !! j = Some w → (Timestamp.get (commit_ts w) ≤ 4)%N → j ≤ i).
Proof.
  split; [apply sample_chain_ascending|].
  apply (visible_value_newest sample_chain (Timestamp.from_raw 4)), sample_chain_ascending.
Defined.

(** Validation by the last version alone is exact: [newer_than] answers
    whether any version of the chain is newer than the snapshot. *)
Lemma newer_than_exact c t :
  ascending c →
  newer_than (Some c) t = true ↔
    ∃ v, v ∈ c ∧ (Timestamp.get t < Timestamp.get (commit_ts v))%N.
Proof. intros Hc. by rewrite newer_than_changed, changed_since_true. Qed.

(** Collecting one chain is safe and as thorough as it can be. The closure
    never panics; it counts exactly the versions it drops; no reader at or after
    the watermark can tell the difference; every version above the watermark
    survives and at most one at or below it does; and the key is removed
    altogether exactly when all that would be left is a tombstone every reader
    already sees. *)
Lemma gc_chain_safe_and_tight wm c :
  ascending c → c ≠ [] →
  ∃ n r, gc_chain wm c = Ret (n, r) ∧
    length c = n + length (default [] r) ∧
    same_from wm c (default [] r) ∧
    List.filter (above wm) (default [] r) =
      List.filter (above wm) c ∧
    length (List.filter (at_or_below wm) (default [] r)) ≤ 1 ∧
    (r = None ↔ ∃ v, last c = Some v ∧ at_or_below wm v = true ∧ value v = None).
Proof.
  intros Hasc Hne. destruct (gc_chain_collected wm c Hasc) as (n & r & E & Hr & Hlen & Hsome).
  destruct (collected_tight wm c Hasc). exists n, r.
  rewrite <-(collected_tombstone wm c Hasc), Hr. split_and!; [done|done|by apply collected_same|done..|].
  rewrite <-Hr. specialize (Hsome Hne). destruct r as [[|]|]; naive_solver.
Qed.
