(* ===== verification/StoreTrait.v ===== *)
(** * The version-store interface

    [trait VersionStore] of [src/store.rs] as a typeclass of operations, and the
    contract its documentation states as a second typeclass of laws. Everything
    above the store ([Handles], [Database], [System]) is proved against this
    interface; [MemStore] discharges it for [MemoryStore]. *)

From S2P Require Import Prelude RustStd Types.

(** [type WriteEntry]. *)
Abbreviation WriteEntry := (bytes * option bytes)%type.

(** ** Operations

    The methods take [&self] but an implementation may mutate itself behind a
    lock, so each operation returns the new state of the store. *)
Class VersionStore (S : Type) := {
  vs_get : S → bytes → Timestamp.t → outcome (S * Result (option bytes));
  vs_try_commit :
    S → Timestamp.t → Timestamp.t → list WriteEntry → list bytes → outcome (S * Result unit);
  vs_collect_garbage : S → Timestamp.t → outcome (S * nat);
}.

(** The default body of [collect_garbage] in the trait. *)
Definition default_collect_garbage {S : Type} (s : S) (low_watermark : Timestamp.t) :
  outcome (S * nat) := Ret (s, 0).

(** ** Contract *)

(** What key [k] reads at snapshot [t] once [writes] are installed at [commit_ts]
    over a history in which it reads [old]. *)
Definition committed_view (writes : list WriteEntry) (commit_ts : Timestamp.t)
    (k : bytes) (t : Timestamp.t) (old : option bytes) : option bytes :=
  match (list_to_map writes : gmap bytes (option bytes)) !! k with
  | Some v => if Timestamp.leb commit_ts t then v else old
  | None => old
  end.

(** Whether [k] has then changed after snapshot [t]. *)
Definition committed_changed (writes : list WriteEntry) (commit_ts : Timestamp.t)
    (k : bytes) (t : Timestamp.t) (old : bool) : bool :=
  match (list_to_map writes : gmap bytes (option bytes)) !! k with
  | Some _ => old || Timestamp.ltb t commit_ts
  | None => old
  end.

(** The contract. [vs_view s k t] is the value of [k] in the snapshot at [t] and
    [vs_changed s k t] says whether [k] has a version after [t]; an implementation
    chooses them, and an invariant under which they are maintained.
    [vs_gc_step wm] relates the states before and after one atomic piece of a
    collection at watermark [wm] (for a sharded store, one shard).
    [vs_may_fail] says whether the backend can report a failure of its own. *)
Class StoreLaws (S : Type) `{VersionStore S} := {
  vs_inv : S → Prop;
  vs_view : S → bytes → Timestamp.t → option bytes;
  vs_changed : S → bytes → Timestamp.t → bool;
  vs_gc_step : Timestamp.t → S → S → Prop;
  vs_may_fail : Prop;

  (** [get] is the snapshot read; the only error is a backend failure. *)
  law_get s k t :
    vs_inv s →
    ∃ s' r, vs_get s k t = Ret (s', r) ∧ vs_inv s' ∧
      (∀ k' t', vs_view s' k' t' = vs_view s k' t' ∧ vs_changed s' k' t' = vs_changed s k' t') ∧
      match r with
      | Ok v => v = vs_view s k t
      | Err (TxnError.Store _ _) => vs_may_fail
      | Err _ => False
      end;

  (** [try_commit] validates both sets and installs the writes, or applies
      nothing; a conflict is reported only for a key that did change. *)
  law_try_commit s read_ts commit_ts writes reads :
    vs_inv s →
    (Timestamp.get read_ts ≤ Timestamp.get commit_ts)%N →
    NoDup writes.*1 →
    ∃ s' r, vs_try_commit s read_ts commit_ts writes reads = Ret (s', r) ∧ vs_inv s' ∧
      match r with
      | Ok _ =>
         (∀ k, k ∈ writes.*1 ++ reads → vs_changed s k read_ts = false) ∧
         (∀ k t, vs_view s' k t = committed_view writes commit_ts k t (vs_view s k t)) ∧
         (∀ k t, vs_changed s' k t = committed_changed writes commit_ts k t (vs_changed s k t))
      | Err e =>
         (∀ k t, vs_view s' k t = vs_view s k t ∧ vs_changed s' k t = vs_changed s k t) ∧
         match e with
         | TxnError.Conflict n =>
            ∃ k, k ∈ writes.*1 ++ reads ∧ vs_changed s k read_ts = true ∧ n = N.of_nat (length k)
         | TxnError.Store _ _ => vs_may_fail
         | TxnError.Durability _ => False
         end
      end;

  (** A piece of a collection is invisible to every reader at or after the
      watermark, and a whole collection is a sequence of pieces. *)
  law_gc_step wm s s' :
    vs_inv s → vs_gc_step wm s s' →
    vs_inv s' ∧
    ∀ k t, (Timestamp.get wm ≤ Timestamp.get t)%N →
      vs_view s' k t = vs_view s k t ∧ vs_changed s' k t = vs_changed s k t;
  law_collect_garbage s wm :
    vs_inv s →
    ∃ s' n, vs_collect_garbage s wm = Ret (s', n) ∧ rtc (vs_gc_step wm) s s';
}.

(** A store that starts out with no history. *)
Definition vs_empty {S} `{StoreLaws S} (s : S) : Prop :=
  vs_inv s ∧ ∀ k t, vs_view s k t = None ∧ vs_changed s k t = false.

(** ** Consequences of the contract *)

Section laws.
Context {S : Type} `{StoreLaws S}.

(** Observational equivalence of stores, coarser than equality. *)
Definition vs_equiv (s s' : S) : Prop :=
  ∀ k t, vs_view s' k t = vs_view s k t ∧ vs_changed s' k t = vs_changed s k t.

#[export] Instance vs_equiv_equivalence : Equivalence vs_equiv.
Proof.
  split.
  - by intros s k t.
  - intros s s' Hs k t. by destruct (Hs k t) as [-> ->].
  - intros s1 s2 s3 H12 H23 k t. destruct (H12 k t) as [<- <-]. apply H23.
Qed.

#[export] Instance vs_view_proper : Proper (vs_equiv ==> eq ==> eq ==> eq) vs_view.
Proof. intros s s' Hs k ? <- t ? <-. by destruct (Hs k t) as [-> _]. Qed.

#[export] Instance vs_changed_proper : Proper (vs_equiv ==> eq ==> eq ==> eq) vs_changed.
Proof. intros s s' Hs k ? <- t ? <-. by destruct (Hs k t) as [_ ->]. Qed.

(** Indistinguishable to readers at or after [wm]. *)
Definition vs_same_from (wm : Timestamp.t) (s s' : S) : Prop :=
  ∀ k t, (Timestamp.get wm ≤ Timestamp.get t)%N →
    vs_view s' k t = vs_view s k t ∧ vs_changed s' k t = vs_changed s k t.

#[export] Instance vs_same_from_preorder wm : PreOrder (vs_same_from wm).
Proof.
  split.
  - by intros s k t.
  - intros s1 s2 s3 H12 H23 k t Ht.
    destruct (H12 k t Ht) as [<- <-]. by apply H23.
Qed.

Lemma gc_steps_same wm s s' :
  vs_inv s → rtc (vs_gc_step wm) s s' → vs_inv s' ∧ vs_same_from wm s s'.
Proof.
  intros Hs Hrtc. induction Hrtc as [s|s s1 s2 Hstep _ IH]; [done|].
  destruct (law_gc_step wm s s1 Hs Hstep) as [Hs1 Hsame].
  destruct (IH Hs1) as [Hs2 Hsame2]. split; [done|].
  etrans; [|exact Hsame2]. exact Hsame.
Qed.

Lemma collect_garbage_same wm s :
  vs_inv s →
  ∃ s' n, vs_collect_garbage s wm = Ret (s', n) ∧ vs_inv s' ∧ vs_same_from wm s s'.
Proof.
  intros Hs. destruct (law_collect_garbage s wm Hs) as (s' & n & E & Hrtc).
  exists s', n. split; [done|]. by apply gc_steps_same.
Qed.
End laws.
