(* ===== verification/MemStore.v ===== *)
(** * The sharded in-memory store

    [struct MemoryStore] of [src/store.rs]: a slice of shards, each a map from
    key to version chain behind its own lock, and a mask that picks a shard from
    a key's FNV-1a hash. Each operation below is one critical section of the code
    (all the locks it takes are held to its end), except [collect_garbage], which
    is a sequence of one critical section per shard. *)

From S2P Require Import Prelude RustStd Types Chain StoreTrait.

Module MemoryStore.

(** ** Data *)

(** [type Chains]: one shard's map from key to version chain. *)
Abbreviation Chains := (gmap bytes Chain).

(** [struct MemoryStore]; a [Shard] is just its locked [Chains]. *)
Record t := mk { shards : list Chains; mask : N }.

Definition DEFAULT_SHARDS : N := 16.

(** ** Construction *)

Definition with_shards `{Profile} (n : N) : outcome t :=
  count ← next_power_of_two (N.max n 1);
  mask ← sub_u64 count 1;
  Ret {| shards := replicate (N.to_nat count) ∅; mask := mask |}.

Definition new `{Profile} : outcome t := with_shards DEFAULT_SHARDS.

(** ** Keys and shards *)

(** [fn hash_key]: FNV-1a over 64 bits. *)
Definition hash_key (key : bytes) : N :=
  foldl (λ hash byte, wrapping_mul_u64 (N.lxor hash (Byte.to_N byte)) 0x00000100000001b3%N)
    0xcbf29ce484222325%N key.

Definition shard_of (st : t) (key : bytes) : nat :=
  N.to_nat (N.land (hash_key key) (mask st)).

Definition key_count (st : t) : nat := sum_list (size <$> shards st).

(** Work on the locked contents of one shard; an index out of range panics. *)
Definition with_shard (st : t) (shard : nat) (f : Chains → Chains) : outcome t :=
  chains ← index (shards st) shard;
  Ret {| shards := <[shard := f chains]> (shards st); mask := mask st |}.

(** [chains.entry(key).or_default().push(version)]. *)
Definition push_version (key : bytes) (version : Version) (chains : Chains) : Chains :=
  <[key := default [] (chains !! key) ++ [version]]> chains.

(** [fn install_recovered]. *)
Fixpoint install_recovered (st : t) (ts : Timestamp.t) (writes : list WriteEntry) : outcome t :=
  match writes with
  | [] => Ret st
  | (key, value) :: writes =>
     st ← with_shard st (shard_of st key) (push_version key (mkVersion ts value));
     install_recovered st ts writes
  end.

(** ** Reads *)

Definition get (st : t) (key : bytes) (read_ts : Timestamp.t) :
    outcome (t * Result (option bytes)) :=
  chains ← index (shards st) (shard_of st key);
  v ← visible_value (chains !! key) read_ts;
  Ret (st, Ok v).

(** ** Commit *)

(** A held write guard is the index of the shard it gives access to. Locking an
    index out of range panics. *)
Definition lock_shards (st : t) (to_lock : list nat) : outcome (list nat) :=
  mapM (λ shard, _ ← index (shards st) shard; Ret shard) to_lock.

Definition guard_chains (st : t) (guards : list nat) (pos : nat) : outcome Chains :=
  shard ← index guards pos;
  index (shards st) shard.

(** The two validation loops: a key whose shard is not locked is skipped. *)
Fixpoint validate (st : t) (to_lock guards : list nat) (read_ts : Timestamp.t)
    (keys : list (bytes * nat)) : fallible unit :=
  match keys with
  | [] => Ret (Ok tt)
  | (key, shard) :: keys =>
     match binary_search to_lock shard with
     | inl pos =>
        chains ← guard_chains st guards pos;
        if newer_than (chains !! key) read_ts
        then Ret (Err (TxnError.conflict (length key)))
        else validate st to_lock guards read_ts keys
     | inr _ => validate st to_lock guards read_ts keys
     end
  end.

(** The apply loop. *)
Fixpoint apply_writes (st : t) (to_lock guards : list nat) (ts : Timestamp.t)
    (writes : list (WriteEntry * nat)) : outcome t :=
  match writes with
  | [] => Ret st
  | (key, value, shard) :: writes =>
     st ← match binary_search to_lock shard with
          | inl pos =>
             guard ← index guards pos;
             with_shard st guard (push_version key (mkVersion ts value))
          | inr _ => Ret st
          end;
     apply_writes st to_lock guards ts writes
  end.

(** The distinct shards of the touched keys, in ascending order. *)
Definition lock_order (write_shards read_shards : list nat) : list nat :=
  dedup (sort_unstable (write_shards ++ read_shards)).

(** The path for several keys or a read set. *)
Definition try_commit_general (st : t) (read_ts ts : Timestamp.t)
    (writes : list WriteEntry) (reads : list bytes) : outcome (t * Result unit) :=
  let write_shards := (λ '(k, _), shard_of st k) <$> writes in
  let read_shards := shard_of st <$> reads in
  let to_lock := lock_order write_shards read_shards in
  guards ← lock_shards st to_lock;
  r ← (_ ←? validate st to_lock guards read_ts (zip writes.*1 write_shards);
       validate st to_lock guards read_ts (zip reads read_shards));
  match r with
  | Err e => Ret (st, Err e)
  | Ok _ =>
     st ← apply_writes st to_lock guards ts (zip writes write_shards);
     Ret (st, Ok tt)
  end.

(** The path for a single write and no read set: one shard, no bookkeeping. *)
Definition try_commit_single (st : t) (read_ts ts : Timestamp.t)
    (writes : list WriteEntry) : outcome (t * Result unit) :=
  '(key, _) ← index writes 0;
  let shard := shard_of st key in
  chains ← index (shards st) shard;
  if newer_than (chains !! key) read_ts
  then Ret (st, Err (TxnError.conflict (length key)))
  else
    st ← with_shard st shard
      (λ chains, foldl (λ chains '(key, value), push_version key (mkVersion ts value) chains)
                   chains writes);
    Ret (st, Ok tt).

Definition try_commit (st : t) (read_ts ts : Timestamp.t)
    (writes : list WriteEntry) (reads : list bytes) : outcome (t * Result unit) :=
  if (length writes =? 1) && (length reads =? 0)
  then try_commit_single st read_ts ts writes
  else try_commit_general st read_ts ts writes reads.

(** ** Garbage collection *)

(** [HashMap::retain] with the closure [gc_chain], in iteration order, and the
    running count of reclaimed versions. *)
Fixpoint retain (low_watermark : Timestamp.t) (entries : list (bytes * Chain))
    (chains : Chains) (reclaimed : nat) : outcome (Chains * nat) :=
  match entries with
  | [] => Ret (chains, reclaimed)
  | (key, chain) :: entries =>
     '(n, kept) ← gc_chain low_watermark chain;
     let chains := match kept with
                   | Some chain => <[key := chain]> chains
                   | None => delete key chains
                   end in
     retain low_watermark entries chains (reclaimed + n)
  end.

(** The body of the loop over shards: one critical section. *)
Definition gc_shard `{HashIter} (low_watermark : Timestamp.t) (shard : nat) (st : t)
    (reclaimed : nat) : outcome (t * nat) :=
  chains ← index (shards st) shard;
  '(chains, reclaimed) ← retain low_watermark (hash_iter chains) chains reclaimed;
  Ret ({| shards := <[shard := chains]> (shards st); mask := mask st |}, reclaimed).

Fixpoint gc_shards `{HashIter} (low_watermark : Timestamp.t) (todo : list nat) (st : t)
    (reclaimed : nat) : outcome (t * nat) :=
  match todo with
  | [] => Ret (st, reclaimed)
  | shard :: todo =>
     '(st, reclaimed) ← gc_shard low_watermark shard st reclaimed;
     gc_shards low_watermark todo st reclaimed
  end.

Definition collect_garbage `{HashIter} (st : t) (low_watermark : Timestamp.t) :
    outcome (t * nat) :=
  gc_shards low_watermark (seq 0 (length (shards st))) st 0.

#[global] Instance version_store `{HashIter} : VersionStore t := {|
  vs_get := get;
  vs_try_commit := try_commit;
  vs_collect_garbage := collect_garbage;
|}.

(** ** Abstraction and invariant *)

(** The chain of a key, whatever its shard; empty when the key has no entry. *)
Definition chain_of (st : t) (key : bytes) : Chain :=
  default [] (shards st !! shard_of st key ≫= (.!! key)).

(** The mask selects exactly the shards there are, every key sits in its own
    shard, and every chain is non-empty and ascending. *)
Record wf (st : t) : Prop := {
  wf_mask : ∃ n : N, N.of_nat (length (shards st)) = (2 ^ n)%N ∧ mask st = N.ones n;
  wf_chains i chains key chain :
    shards st !! i = Some chains → chains !! key = Some chain →
    shard_of st key = i ∧ chain_wf chain;
}.

(** Reference semantics of a commit on the abstraction: append one version. *)
Definition push (st : t) (key : bytes) (version : Version) : t :=
  {| shards := alter (push_version key version) (shard_of st key) (shards st);
     mask := mask st |}.

Definition install (st : t) (ts : Timestamp.t) (writes : list WriteEntry) : t :=
  foldl (λ st '(key, value), push st key (mkVersion ts value)) st writes.

(** The key a validation fails on: the first one that changed. *)
Definition first_conflict (st : t) (read_ts : Timestamp.t) (keys : list bytes) : option bytes :=
  List.find (λ key, changed_since (chain_of st key) read_ts) keys.

(** Nothing is stamped after [ts], for any key of [writes]. *)
Definition unchanged_keys (st : t) (ts : Timestamp.t) (writes : list WriteEntry) : Prop :=
  ∀ key, key ∈ writes.*1 → changed_since (chain_of st key) ts = false.

(** The result of a commit on the abstraction. *)
Definition commit_result (st : t) (read_ts ts : Timestamp.t) (writes : list WriteEntry)
    (reads : list bytes) : t * Result unit :=
  match first_conflict st read_ts (writes.*1 ++ reads) with
  | Some key => (st, Err (TxnError.conflict (length key)))
  | None => (install st ts writes, Ok tt)
  end.

(** The versions a batch appends to the chain of [key]. *)
Definition versions_for (ts : Timestamp.t) (writes : list WriteEntry) (key : bytes) : Chain :=
  (λ w, mkVersion ts w.2) <$> filter (λ w, w.1 = key) writes.

(** Number of versions in a shard and in the store. *)
Definition chains_size (chains : Chains) : nat :=
  map_fold (λ _ (chain : Chain) n, length chain + n) 0 chains.

Definition version_count (st : t) : nat := sum_list (chains_size <$> shards st).

(** One critical section of a collection. *)
Definition gc_step `{HashIter} (low_watermark : Timestamp.t) (st st' : t) : Prop :=
  ∃ shard r r', shard < length (shards st) ∧ gc_shard low_watermark shard st r = Ret (st', r').

(** The operations on a store, and when the crate calls them: recovery installs
    commits above those already there, a commit is stamped after its snapshot. *)
Inductive operation :=
| Get (key : bytes) (t : Timestamp.t)
| TryCommit (read_ts ts : Timestamp.t) (writes : list WriteEntry) (reads : list bytes)
| CollectGarbage (low_watermark : Timestamp.t)
| InstallRecovered (ts : Timestamp.t) (writes : list WriteEntry).

Definition perform `{HashIter} (st : t) (op : operation) : outcome t :=
  match op with
  | Get key ts => '(st, _) ← get st key ts; Ret st
  | TryCommit read_ts ts writes reads => '(st, _) ← try_commit st read_ts ts writes reads; Ret st
  | CollectGarbage wm => '(st, _) ← collect_garbage st wm; Ret st
  | InstallRecovered ts writes => install_recovered st ts writes
  end.

Definition admissible (st : t) (op : operation) : Prop :=
  match op with
  | TryCommit read_ts ts _ _ => (Timestamp.get read_ts ≤ Timestamp.get ts)%N
  | InstallRecovered ts writes => unchanged_keys st ts writes
  | _ => True
  end.

Fixpoint performs `{HashIter} (st : t) (ops : list operation) : outcome t :=
  match ops with
  | [] => Ret st
  | op :: ops => st ← perform st op; performs st ops
  end.

Fixpoint all_admissible `{HashIter} (st : t) (ops : list operation) : Prop :=
  match ops with
  | [] => True
  | op :: ops => admissible st op ∧ ∀ st', perform st op = Ret st' → all_admissible st' ops
  end.

(** A store of two shards and what one commit makes of it, for the witnesses. *)
Definition sample_store : t := {| shards := [∅; ∅]; mask := 1 |}.
Definition sample_writes : list WriteEntry := [([x01], Some [x0a]); ([x02], Some [x0b])].
Definition sample_committed : t := install sample_store (Timestamp.from_raw 1) sample_writes.
Definition sample_deleted : t := install sample_committed (Timestamp.from_raw 2) [([x01], None)].

(** ** Lemmas: shards *)

Section shards.
Context (st : t) (Hwf : wf st).

Lemma shard_of_lt key : shard_of st key < length (shards st).
Proof using Hwf.
  destruct (wf_mask st Hwf) as (n & Hlen & Hmask). unfold shard_of. rewrite Hmask.
  rewrite N.land_ones. pose proof (N.mod_lt (hash_key key) (2 ^ n)) as Hlt.
  assert (2 ^ n ≠ 0)%N by (apply N.pow_nonzero; done). lia.
Qed.

Lemma shard_of_index key :
  ∃ chains, shards st !! shard_of st key = Some chains ∧
    index (shards st) (shard_of st key) = Ret chains ∧
    chain_of st key = default [] (chains !! key).
Proof using Hwf.
  destruct (lookup_lt_is_Some_2 _ _ (shard_of_lt key)) as [chains E].
  exists chains. split_and!; [done|by apply index_Ret|].
  unfold chain_of. by rewrite E.
Qed.

Lemma chains_ascending key chains chain :
  shards st !! shard_of st key = Some chains → chains !! key = Some chain → ascending chain.
Proof using Hwf. intros H1 H2. by apply (wf_chains st Hwf _ _ _ _ H1 H2). Qed.

Lemma chain_of_ascending key : ascending (chain_of st key).
Proof using Hwf.
  destruct (shard_of_index key) as (chains & E & _ & ->).
  destruct (chains !! key) as [c|] eqn:Ec; [|constructor].
  by eapply chains_ascending.
Qed.

(** The guard on a key's shard reads the key's chain. *)
Lemma newer_than_chain_of key chains read_ts :
  shards st !! shard_of st key = Some chains →
  newer_than (chains !! key) read_ts = changed_since (chain_of st key) read_ts.
Proof using Hwf.
  intros E. rewrite newer_than_default by (intros c; by apply chains_ascending).
  unfold chain_of. by rewrite E.
Qed.

Lemma get_view key read_ts :
  get st key read_ts = Ret (st, Ok (view (chain_of st key) read_ts)).
Proof using Hwf.
  destruct (shard_of_index key) as (chains & E & Hi & Hc). unfold get. rewrite Hi. cbn.
  rewrite visible_value_default by (intros c; by apply chains_ascending).
  cbn. by rewrite Hc.
Qed.

Lemma with_shard_push key v :
  with_shard st (shard_of st key) (push_version key v) = Ret (push st key v).
Proof using Hwf.
  destruct (shard_of_index key) as (chains & E & Hi & _). unfold with_shard, push.
  rewrite Hi. cbn. do 2 f_equal. symmetry. by apply list_alter_as_insert.
Qed.

End shards.

(** ** Lemmas: pushing a version *)

Lemma shard_of_push st key v key' : shard_of (push st key v) key' = shard_of st key'.
Proof. done. Qed.

Lemma chain_of_push st key v key' :
  wf st →
  chain_of (push st key v) key' =
    if decide (key = key') then chain_of st key' ++ [v] else chain_of st key'.
Proof.
  intros Hwf. destruct (shard_of_index st Hwf key') as (chains' & E' & _ & Hc').
  unfold chain_of at 1. rewrite shard_of_push. cbn [push shards].
  destruct (decide (shard_of st key = shard_of st key')) as [Heq|Hne].
  - rewrite Heq, list_lookup_alter_eq, E'. cbn. unfold push_version.
    destruct (decide (key = key')) as [->|Hk].
    + rewrite lookup_insert_eq. cbn. by rewrite Hc'.
    + rewrite lookup_insert_ne by done. by rewrite Hc'.
  - rewrite list_lookup_alter_ne by done.
    destruct (decide (key = key')) as [->|Hk]; [done|]. unfold chain_of. by rewrite E'.
Qed.

Lemma push_wf st key v :
  wf st → changed_since (chain_of st key) (commit_ts v) = false → wf (push st key v).
Proof.
  intros Hwf Hnew. destruct (shard_of_index st Hwf key) as (chains & E & _ & Hc).
  split; cbn.
  - destruct (wf_mask st Hwf) as (n & ? & ?). exists n. by rewrite length_alter.
  - intros i chains' key' chain' Hi Hk'. rewrite shard_of_push.
    destruct (decide (shard_of st key = i)) as [<-|Hne].
    + rewrite list_lookup_alter_eq, E in Hi. injection Hi as <-. unfold push_version in Hk'.
      apply lookup_insert_Some in Hk' as [[<- <-]|[Hkk Hk']].
      * split; [done|]. rewrite <-Hc. apply chain_wf_snoc; [|done].
        by apply chain_of_ascending.
      * by eapply wf_chains.
    + rewrite list_lookup_alter_ne in Hi by done. by eapply wf_chains.
Qed.

(** ** Lemmas: locking *)

Lemma lock_order_elem ws rs shard : shard ∈ lock_order ws rs ↔ shard ∈ ws ++ rs.
Proof. unfold lock_order. by rewrite dedup_elem_of, sort_unstable_perm. Qed.

Lemma lock_order_sorted ws rs : StronglySorted lt (lock_order ws rs).
Proof. unfold lock_order. auto with txn. Qed.

Lemma lock_shards_ok st to_lock :
  Forall (λ shard, shard < length (shards st)) to_lock →
  lock_shards st to_lock = Ret to_lock.
Proof.
  induction 1 as [|shard to_lock Hlt _ IH]; [done|].
  destruct (lookup_lt_is_Some_2 _ _ Hlt) as [chains E].
  unfold lock_shards. cbn. rewrite (index_Ret _ _ _ E). cbn.
  unfold lock_shards in IH. by rewrite IH.
Qed.

(** A touched shard is found in the sorted lock list, at its own guard. *)
Lemma binary_search_lock ws rs shard :
  shard ∈ ws ++ rs →
  ∃ pos, binary_search (lock_order ws rs) shard = inl pos ∧
    index (lock_order ws rs) pos = Ret shard.
Proof.
  intros Hin. apply lock_order_elem, list_elem_of_lookup in Hin as [pos Hpos].
  exists pos. split; [|by apply index_Ret].
  by apply binary_search_found; [apply lock_order_sorted|].
Qed.

(** ** Lemmas: commit *)

Lemma validate_find st ws rs read_ts keys :
  wf st →
  Forall (λ key, shard_of st key ∈ ws ++ rs) keys →
  validate st (lock_order ws rs) (lock_order ws rs) read_ts (zip keys (shard_of st <$> keys)) =
    Ret match first_conflict st read_ts keys with
        | Some key => Err (TxnError.conflict (length key))
        | None => Ok tt
        end.
Proof.
  intros Hwf. induction 1 as [|key keys Hin _ IH]; [done|]. cbn.
  destruct (binary_search_lock ws rs _ Hin) as (pos & -> & Hpos).
  destruct (shard_of_index st Hwf key) as (chains & E & Hi & _).
  unfold guard_chains. rewrite Hpos. cbn. rewrite Hi. cbn.
  rewrite (newer_than_chain_of st Hwf key) by done.
  destruct (changed_since (chain_of st key) read_ts); [done|]. apply IH.
Qed.

Lemma unchanged_keys_push st ts key v writes :
  wf st → unchanged_keys st ts ((key, v) :: writes) →
  unchanged_keys (push st key (mkVersion ts v)) ts writes.
Proof.
  intros Hwf Hnew key' Hin. rewrite chain_of_push by done.
  assert (changed_since (chain_of st key') ts = false) by (apply Hnew; set_solver).
  destruct (decide (key = key')); [|done]. rewrite changed_since_snoc.
  cbn. apply orb_false_iff. split; [done|]. apply Timestamp.ltb_ge. lia.
Qed.

Lemma install_length st ts writes : length (shards (install st ts writes)) = length (shards st).
Proof.
  revert st. induction writes as [|[key v] writes IH]; intros st; [done|].
  change (install st ts ((key, v) :: writes)) with (install (push st key (mkVersion ts v)) ts writes).
  rewrite IH. cbn. apply length_alter.
Qed.

Lemma install_wf st ts writes :
  wf st → unchanged_keys st ts writes → wf (install st ts writes).
Proof.
  revert st. induction writes as [|[key v] writes IH]; intros st Hwf Hnew; [done|].
  apply IH; [|by apply unchanged_keys_push].
  apply push_wf; [done|]. apply Hnew. set_solver.
Qed.

Lemma apply_writes_install st ws rs ts writes :
  wf st →
  Forall (λ key, shard_of st key ∈ ws ++ rs) writes.*1 →
  unchanged_keys st ts writes →
  apply_writes st (lock_order ws rs) (lock_order ws rs) ts
    (zip writes (shard_of st <$> writes.*1)) = Ret (install st ts writes).
Proof.
  revert st. induction writes as [|[key v] writes IH]; intros st Hwf Hin Hnew; [done|].
  apply Forall_cons in Hin as [Hk Hin]. cbn in Hk |- *.
  destruct (binary_search_lock ws rs _ Hk) as (pos & -> & Hpos). rewrite Hpos. cbn.
  rewrite with_shard_push by done. cbn.
  apply (IH (push st key (mkVersion ts v))); [|done|by apply unchanged_keys_push].
  apply push_wf; [done|]. apply Hnew. set_solver.
Qed.

Lemma first_conflict_None st ts keys :
  first_conflict st ts keys = None ↔ ∀ key, key ∈ keys → changed_since (chain_of st key) ts = false.
Proof.
  unfold first_conflict. split.
  - intros Hn key Hin%list_elem_of_In. by eapply (List.find_none _ _ Hn) in Hin.
  - intros Hall. destruct (List.find _ keys) as [key|] eqn:E; [|done].
    apply List.find_some in E as [Hin%list_elem_of_In Hch].
    by rewrite Hall in Hch.
Qed.

Lemma first_conflict_Some st ts keys key :
  first_conflict st ts keys = Some key → key ∈ keys ∧ changed_since (chain_of st key) ts = true.
Proof. intros [Hin ?]%List.find_some. by rewrite list_elem_of_In. Qed.

(** The key named is the first that changed. *)
Lemma first_conflict_split st ts keys key :
  first_conflict st ts keys = Some key →
  ∃ l1 k l2, keys = l1 ++ k :: l2 ∧
    TxnError.conflict (length key) = TxnError.conflict (length k) ∧
    changed_since (chain_of st k) ts = true ∧
    ∀ k', k' ∈ l1 → changed_since (chain_of st k') ts = false.
Proof.
  unfold first_conflict. induction keys as [|k keys IH]; cbn; [done|].
  destruct (changed_since (chain_of st k) ts) eqn:E.
  - intros [= <-]. exists [], k, keys. split_and!; [done..|set_solver].
  - intros (l1 & k0 & l2 & -> & ? & ? & Hl1)%IH. exists (k :: l1), k0, l2. split_and!; [done..|].
    intros k' [->|?]%elem_of_cons; auto.
Qed.

Lemma first_conflict_app st ts keys1 keys2 :
  first_conflict st ts (keys1 ++ keys2) =
    match first_conflict st ts keys1 with Some k => Some k | None => first_conflict st ts keys2 end.
Proof.
  unfold first_conflict. induction keys1 as [|key keys1 IH]; cbn; [done|].
  by destruct (changed_since _ _).
Qed.

Lemma commit_unchanged st read_ts ts writes reads :
  (Timestamp.get read_ts ≤ Timestamp.get ts)%N →
  first_conflict st read_ts (writes.*1 ++ reads) = None →
  unchanged_keys st ts writes.
Proof.
  intros Hts Hnone key Hin. rewrite first_conflict_None in Hnone.
  eapply changed_since_mono; [exact Hts|]. apply Hnone. set_solver.
Qed.

Lemma write_shards_eq st (writes : list WriteEntry) :
  (λ '(k, _), shard_of st k) <$> writes = shard_of st <$> writes.*1.
Proof. rewrite <-list_fmap_compose. apply list_fmap_ext. by intros i [k v]. Qed.

Lemma try_commit_general_result st read_ts ts writes reads :
  wf st →
  (Timestamp.get read_ts ≤ Timestamp.get ts)%N →
  try_commit_general st read_ts ts writes reads = Ret (commit_result st read_ts ts writes reads).
Proof.
  intros Hwf Hts. unfold try_commit_general. rewrite write_shards_eq.
  set (ws := shard_of st <$> writes.*1). set (rs := shard_of st <$> reads).
  rewrite lock_shards_ok; cbn.
  2:{ apply Forall_forall. intros shard Hin%lock_order_elem.
      apply elem_of_app in Hin as [(? & -> & _)%list_elem_of_fmap|(? & -> & _)%list_elem_of_fmap];
        by apply shard_of_lt. }
  assert (Hws : Forall (λ key, shard_of st key ∈ ws ++ rs) writes.*1).
  { apply Forall_forall. intros key Hin. apply elem_of_app. left. by apply list_elem_of_fmap_2. }
  assert (Hrs : Forall (λ key, shard_of st key ∈ ws ++ rs) reads).
  { apply Forall_forall. intros key Hin. apply elem_of_app. right. by apply list_elem_of_fmap_2. }
  unfold try_bind. rewrite !validate_find by done.
  unfold commit_result. pose proof (commit_unchanged st read_ts ts writes reads Hts) as Hnew.
  rewrite first_conflict_app in *.
  destruct (first_conflict st read_ts writes.*1); [done|]. cbn.
  destruct (first_conflict st read_ts reads); [done|]. cbn.
  rewrite apply_writes_install by auto. done.
Qed.

Lemma try_commit_single_result st read_ts ts key v :
  wf st →
  try_commit_single st read_ts ts [(key, v)] = Ret (commit_result st read_ts ts [(key, v)] []).
Proof.
  intros Hwf. unfold try_commit_single, commit_result, first_conflict. cbn.
  destruct (shard_of_index st Hwf key) as (chains & E & Hi & _). rewrite Hi. cbn.
  rewrite (newer_than_chain_of st Hwf key) by done.
  destruct (changed_since (chain_of st key) read_ts); [done|].
  pose proof (with_shard_push st Hwf key (mkVersion ts v)) as Hp.
  unfold with_shard in *. rewrite Hi in *. cbn in *. by injection Hp as ->.
Qed.

(** Either path computes the reference result, so a commit never panics. *)
Lemma try_commit_result st read_ts ts writes reads :
  wf st →
  (Timestamp.get read_ts ≤ Timestamp.get ts)%N →
  try_commit st read_ts ts writes reads = Ret (commit_result st read_ts ts writes reads).
Proof.
  intros Hwf Hts. unfold try_commit.
  destruct (Nat.eqb_spec (length writes) 1); [|by apply try_commit_general_result].
  destruct (Nat.eqb_spec (length reads) 0); [|by apply try_commit_general_result].
  destruct writes as [|[key v] [|]]; [done| |done]. destruct reads; [|done].
  by apply try_commit_single_result.
Qed.

Lemma chain_of_install st ts writes key :
  wf st → unchanged_keys st ts writes →
  chain_of (install st ts writes) key = chain_of st key ++ versions_for ts writes key.
Proof.
  revert st. induction writes as [|[key' v] writes IH]; intros st Hwf Hnew.
  { by rewrite app_nil_r. }
  change (install st ts ((key', v) :: writes))
    with (install (push st key' (mkVersion ts v)) ts writes).
  rewrite IH; [|apply push_wf; [done|]; apply Hnew; set_solver|by apply unchanged_keys_push].
  rewrite chain_of_push by done. unfold versions_for. rewrite filter_cons. cbn.
  destruct (decide (key' = key)); [|done]. by rewrite <-app_assoc.
Qed.

Lemma versions_for_NoDup ts writes key :
  NoDup writes.*1 →
  versions_for ts writes key =
    match (list_to_map writes : gmap bytes (option bytes)) !! key with
    | Some v => [mkVersion ts v]
    | None => []
    end.
Proof.
  induction writes as [|[key' v] writes IH]; [done|].
  rewrite fmap_cons. intros [Hnot Hnd]%NoDup_cons. specialize (IH Hnd).
  unfold versions_for in *. rewrite filter_cons, list_to_map_cons.
  destruct (decide ((key', v).1 = key)) as [Heq|Hne]; cbn [fst snd] in *.
  - subst key'. rewrite lookup_insert_eq, fmap_cons, IH.
    by rewrite (proj1 (not_elem_of_list_to_map writes key) Hnot).
  - by rewrite lookup_insert_ne.
Qed.

Lemma view_install st ts writes key t :
  wf st → unchanged_keys st ts writes → NoDup writes.*1 →
  view (chain_of (install st ts writes) key) t =
    committed_view writes ts key t (view (chain_of st key) t).
Proof.
  intros Hwf Hnew Hnd. rewrite chain_of_install, versions_for_NoDup by done.
  unfold committed_view. destruct (_ !! key); [|by rewrite app_nil_r].
  by rewrite view_snoc.
Qed.

Lemma changed_install st ts writes key t :
  wf st → unchanged_keys st ts writes → NoDup writes.*1 →
  changed_since (chain_of (install st ts writes) key) t =
    committed_changed writes ts key t (changed_since (chain_of st key) t).
Proof.
  intros Hwf Hnew Hnd. rewrite chain_of_install, versions_for_NoDup by done.
  unfold committed_changed. destruct (_ !! key); [|by rewrite app_nil_r].
  by rewrite changed_since_snoc.
Qed.

(** ** Lemmas: collection *)

Lemma chains_size_delete (chains : Chains) key chain :
  chains !! key = Some chain →
  chains_size chains = length chain + chains_size (delete key chains).
Proof.
  intros Hk. unfold chains_size.
  rewrite <-(insert_delete_id chains key chain) at 1 by done.
  rewrite map_fold_insert_L; [done|intros; lia|apply lookup_delete_eq].
Qed.

Lemma chains_size_insert (chains : Chains) key chain :
  chains !! key = None → chains_size (<[key := chain]> chains) = length chain + chains_size chains.
Proof. intros Hk. unfold chains_size. by rewrite map_fold_insert_L; [|intros; lia|]. Qed.

Lemma sum_list_insert (l : list nat) i x y :
  l !! i = Some x → sum_list (<[i := y]> l) + x = sum_list l + y.
Proof.
  intros Hi. rewrite (insert_take_drop _ _ _ (lookup_lt_Some _ _ _ Hi)).
  rewrite <-(take_drop_middle l i x Hi) at 3. rewrite !sum_list_with_app. cbn. lia.
Qed.

(** What the collection of one shard does to the entries it still has to visit. *)
Lemma retain_spec wm entries chains reclaimed :
  NoDup entries.*1 →
  (∀ key chain, (key, chain) ∈ entries → chains !! key = Some chain ∧ chain_wf chain) →
  ∃ chains' n,
    retain wm entries chains reclaimed = Ret (chains', reclaimed + n) ∧
    chains_size chains = n + chains_size chains' ∧
    (∀ key, key ∉ entries.*1 → chains' !! key = chains !! key) ∧
    (∀ key chain, (key, chain) ∈ entries →
       default [] (chains' !! key) = collected wm chain ∧
       ∀ chain', chains' !! key = Some chain' → chain_wf chain').
Proof.
  revert chains reclaimed. induction entries as [|[key chain] entries IH];
    intros chains reclaimed Hnd Hent.
  { exists chains, 0. cbn. rewrite Nat.add_0_r. split_and!; [done..|]. set_solver. }
  apply NoDup_cons in Hnd as [Hkey Hnd].
  destruct (Hent key chain ltac:(set_solver)) as [Hchain [Hne Hasc]].
  destruct (gc_chain_collected wm chain Hasc) as (n & kept & Hgc & Hkept & Hlen & Hsome).
  cbn [retain]. rewrite Hgc. cbn.
  set (chains1 := match kept with Some c => <[key:=c]> chains | None => delete key chains end).
  assert (Hother : ∀ k, k ≠ key → chains1 !! k = chains !! k).
  { intros k Hk. unfold chains1. destruct kept; by simplify_map_eq. }
  assert (Hthis : chains1 !! key = kept).
  { unfold chains1. destruct kept; by simplify_map_eq. }
  assert (Hsize : chains_size chains = n + chains_size chains1).
  { rewrite (chains_size_delete _ _ _ Hchain). unfold chains1. rewrite <-Hkept in Hlen. destruct kept as [c|]; cbn in Hlen.
    - rewrite <-insert_delete_eq, chains_size_insert by apply lookup_delete_eq. lia.
    - lia. }
  destruct (IH chains1 (reclaimed + n) Hnd) as (chains' & n' & -> & Hsz & Hout & Hin).
  { intros k c Hkc. rewrite Hother; [apply Hent; set_solver|].
    intros ->. apply Hkey. by apply (list_elem_of_fmap_2 fst) in Hkc. }
  exists chains', (n + n'). rewrite Nat.add_assoc. split_and!; [done|lia| |].
  - intros k [Hk1 Hk2]%not_elem_of_cons. cbn in Hk1. by rewrite Hout, Hother.
  - intros k c [[= -> ->]|Hkc]%elem_of_cons; [|by apply Hin].
    rewrite Hout, Hthis by done. split; [done|]. intros c' ->. cbn in Hkept.
    split; [intros ->; by apply Hsome|]. rewrite Hkept. by apply collected_ascending.
Qed.

Section gc.
Context `{HashIter}.

Lemma gc_shard_spec wm shard st reclaimed :
  wf st → shard < length (shards st) →
  ∃ st' n,
    gc_shard wm shard st reclaimed = Ret (st', reclaimed + n) ∧
    wf st' ∧ length (shards st') = length (shards st) ∧
    version_count st = n + version_count st' ∧
    mask st' = mask st ∧
    ∀ key, chain_of st' key = if decide (shard_of st key = shard)
                              then collected wm (chain_of st key) else chain_of st key.
Proof.
  intros Hwf Hlt. destruct (lookup_lt_is_Some_2 _ _ Hlt) as [chains E].
  unfold gc_shard. rewrite (index_Ret _ _ _ E). cbn.
  destruct (retain_spec wm (hash_iter chains) chains reclaimed) as
    (chains' & n & -> & Hsize & Hout & Hin).
  { apply hash_iter_NoDup. }
  { intros key chain Hkc%hash_iter_elem. split; [done|]. by eapply wf_chains. }
  cbn. eexists _, n. split; [done|].
  assert (Hlook : ∀ key chain', chains' !! key = Some chain' →
      shard_of st key = shard ∧ chain_wf chain').
  { intros key chain' Hk. destruct (chains !! key) as [chain|] eqn:Ec.
    - split; [by eapply wf_chains|]. apply hash_iter_elem in Ec. by eapply Hin.
    - rewrite Hout, Ec in Hk; [done|]. intros ([? chain] & ? & Hc)%list_elem_of_fmap.
      cbn in *. subst. apply hash_iter_elem in Hc. congruence. }
  split_and!.
  - split; cbn.
    + destruct (wf_mask st Hwf) as (m & ? & ?). exists m. by rewrite length_insert.
    + intros i ch key chain Hi Hk. destruct (decide (shard = i)) as [<-|].
      * rewrite list_lookup_insert_eq in Hi by done. injection Hi as <-. by apply Hlook.
      * rewrite list_lookup_insert_ne in Hi by done. by apply (wf_chains st Hwf i ch).
  - cbn. by rewrite length_insert.
  - unfold version_count. cbn. rewrite list_fmap_insert.
    pose proof (sum_list_insert (chains_size <$> shards st) shard (chains_size chains)
      (chains_size chains')) as Hsum.
    rewrite list_lookup_fmap, E in Hsum. specialize (Hsum eq_refl). lia.
  - done.
  - intros key. unfold chain_of. cbn [shards mask].
    change (shard_of _ key) with (shard_of st key) at 1. case_decide as Hs.
    + rewrite Hs, list_lookup_insert_eq, E by done. cbn.
      destruct (chains !! key) as [chain|] eqn:Ec.
      * apply hash_iter_elem in Ec. by apply Hin.
      * rewrite Hout, Ec; [done|]. intros ([? chain] & ? & Hc)%list_elem_of_fmap.
        cbn in *. subst. apply hash_iter_elem in Hc. congruence.
    + by rewrite list_lookup_insert_ne.
Qed.

Lemma gc_shards_spec wm todo st reclaimed :
  wf st → Forall (λ shard, shard < length (shards st)) todo → NoDup todo →
  ∃ st' n,
    gc_shards wm todo st reclaimed = Ret (st', reclaimed + n) ∧
    wf st' ∧ length (shards st') = length (shards st) ∧ mask st' = mask st ∧
    version_count st = n + version_count st' ∧
    rtc (gc_step wm) st st' ∧
    ∀ key, chain_of st' key = if decide (shard_of st key ∈ todo)
                              then collected wm (chain_of st key) else chain_of st key.
Proof.
  revert st reclaimed. induction todo as [|shard todo IH]; intros st reclaimed Hwf Htodo Hnd.
  { exists st, 0. cbn. rewrite Nat.add_0_r. split_and!; [done..|]. intros key.
    by rewrite decide_False by set_solver. }
  apply Forall_cons in Htodo as [Hlt Htodo]. apply NoDup_cons in Hnd as [Hnotin Hnd]. cbn.
  destruct (gc_shard_spec wm shard st reclaimed Hwf Hlt)
    as (st1 & n & Hgc & Hwf1 & Hlen & Hcount & Hmask & Hchain).
  rewrite Hgc. cbn. rewrite <-Hlen in Htodo.
  destruct (IH st1 (reclaimed + n) Hwf1 Htodo Hnd)
    as (st' & n' & -> & Hwf' & Hlen' & Hmask' & Hcount' & Hrtc & Hchain').
  exists st', (n + n'). rewrite Nat.add_assoc. split_and!; [done|done|congruence..|lia| |].
  - eapply rtc_l; [|exact Hrtc]. by exists shard, reclaimed, (reclaimed + n).
  - intros key. rewrite Hchain', Hchain. unfold shard_of. rewrite Hmask.
    change (N.to_nat _) with (shard_of st key).
    repeat case_decide; set_solver.
Qed.

Lemma collect_garbage_spec st wm :
  wf st →
  ∃ st' n,
    collect_garbage st wm = Ret (st', n) ∧
    wf st' ∧ length (shards st') = length (shards st) ∧ mask st' = mask st ∧
    version_count st = n + version_count st' ∧
    rtc (gc_step wm) st st' ∧
    ∀ key, chain_of st' key = collected wm (chain_of st key).
Proof.
  intros Hwf. destruct (gc_shards_spec wm (seq 0 (length (shards st))) st 0 Hwf)
    as (st' & n & E & ? & ? & ? & ? & ? & Hchain).
  { apply Forall_forall. intros i Hi%elem_of_seq. lia. }
  { apply NoDup_seq. }
  exists st', n. split_and!; [done..|]. intros key. rewrite Hchain, decide_True; [done|].
  apply elem_of_seq. pose proof (shard_of_lt st Hwf key). lia.
Qed.

Lemma gc_step_spec wm st st' :
  wf st → gc_step wm st st' →
  wf st' ∧ ∀ key, same_from wm (chain_of st key) (chain_of st' key).
Proof.
  intros Hwf (shard & r & r' & Hlt & Hgc).
  destruct (gc_shard_spec wm shard st r Hwf Hlt) as (st1 & n & E & Hwf1 & _ & _ & _ & Hchain).
  rewrite Hgc in E. injection E as -> ->. split; [done|]. intros key. rewrite Hchain.
  case_decide; [|done]. by apply collected_same, chain_of_ascending.
Qed.

(** ** The store meets its contract *)

#[global] Program Instance store_laws : StoreLaws t := {|
  vs_inv := wf;
  vs_view st key t := view (chain_of st key) t;
  vs_changed st key t := changed_since (chain_of st key) t;
  vs_gc_step := gc_step;
  vs_may_fail := False;
|}.
Next Obligation.
  intros st key ts Hwf. exists st, (Ok (view (chain_of st key) ts)).
  split_and!; [by apply get_view|done..].
Qed.
Next Obligation.
  intros st read_ts ts writes reads Hwf Hts Hnd.
  pose proof (try_commit_result st read_ts ts writes reads Hwf Hts) as Hres.
  pose proof (commit_unchanged st read_ts ts writes reads Hts) as Hnew.
  unfold commit_result in Hres.
  destruct (first_conflict st read_ts (writes.*1 ++ reads)) as [key|] eqn:E.
  - eexists _, _. split; [exact Hres|]. split_and!; [done..|].
    apply first_conflict_Some in E as [??]. by exists key.
  - specialize (Hnew eq_refl). eexists _, _. split; [exact Hres|].
    split_and!; [by apply install_wf|by apply first_conflict_None|..]; intros key t.
    + by apply view_install.
    + by apply changed_install.
Qed.
Next Obligation. intros wm st st' Hwf Hstep. by apply gc_step_spec. Qed.
Next Obligation.
  intros st wm Hwf.
  destruct (collect_garbage_spec st wm Hwf) as (st' & n & ? & _ & _ & _ & _ & ? & _). eauto.
Qed.

End gc.

(** ** Lemmas: the keys of a store *)

Lemma sum_sizes (f : bytes → nat) (ls : list Chains) off :
  (∀ i chains key, ls !! i = Some chains → is_Some (chains !! key) → f key = off + i) →
  ∃ ks : gset bytes, sum_list (size <$> ls) = size ks ∧
    ∀ key, key ∈ ks ↔ ∃ i chains, ls !! i = Some chains ∧ is_Some (chains !! key).
Proof.
  revert off. induction ls as [|chains ls IH]; intros off Hf.
  { exists ∅. split; [done|]. set_solver. }
  destruct (IH (S off)) as (ks & Hsum & Hks).
  { intros i c key Hi Hk. rewrite (Hf (S i) c key) by done. lia. }
  exists (dom chains ∪ ks). cbn. rewrite Hsum, size_union, size_dom; [split; [done|]|].
  - intros key. rewrite elem_of_union, elem_of_dom, Hks. split.
    + intros [Hk|(i & c & ? & ?)]; [by exists 0, chains|by exists (S i), c].
    + intros ([|i] & c & Hi & Hk); [injection Hi as ->; by left|right; by exists i, c].
  - intros key Hk%elem_of_dom (i & c & Hi & Hk')%Hks.
    pose proof (Hf 0 chains key eq_refl Hk). pose proof (Hf (S i) c key Hi Hk'). lia.
Qed.

Lemma chain_of_nonempty st key :
  wf st → chain_of st key ≠ [] ↔
    ∃ i chains, shards st !! i = Some chains ∧ is_Some (chains !! key).
Proof.
  intros Hwf. destruct (shard_of_index st Hwf key) as (chains & Hi & _ & ->). split.
  - intros Hne. exists (shard_of st key), chains. split; [done|]. by destruct (chains !! key).
  - intros (i & c & Hi' & [chain Hc]). destruct (wf_chains st Hwf _ _ _ _ Hi' Hc) as [<- [Hne _]].
    rewrite Hi in Hi'. injection Hi' as <-. by rewrite Hc.
Qed.

Lemma key_count_keys st :
  wf st → ∃ ks : gset bytes, key_count st = size ks ∧ ∀ key, key ∈ ks ↔ chain_of st key ≠ [].
Proof.
  intros Hwf. destruct (sum_sizes (shard_of st) (shards st) 0) as (ks & ? & Hks).
  { intros i chains key Hi [chain Hk]. by apply (wf_chains st Hwf _ _ _ _ Hi Hk). }
  exists ks. split; [done|]. intros key. by rewrite Hks, chain_of_nonempty.
Qed.

(** A well-formed store is determined by its chains. *)
Lemma wf_ext st st' :
  wf st → wf st' → length (shards st') = length (shards st) → mask st' = mask st →
  (∀ key, chain_of st' key = chain_of st key) → st' = st.
Proof.
  intros Hwf Hwf' Hlen Hmask Hchain.
  assert (Hsh : ∀ key, shard_of st' key = shard_of st key).
  { intros key. unfold shard_of. by rewrite Hmask. }
  assert (Hsub : ∀ s s', wf s → wf s' → (∀ key, shard_of s' key = shard_of s key) →
    (∀ key, chain_of s' key = chain_of s key) → ∀ i c c' key chain,
    shards s !! i = Some c → shards s' !! i = Some c' → c !! key = Some chain →
    c' !! key = Some chain).
  { intros s s' Hw Hw' Hs Hc i c c' key chain Hi Hi' Hk.
    destruct (wf_chains s Hw _ _ _ _ Hi Hk) as [<- [Hne _]].
    specialize (Hc key). unfold chain_of in Hc. rewrite Hs, Hi, Hi' in Hc. cbn in Hc.
    rewrite Hk in Hc. cbn in Hc. destruct (c' !! key); cbn in *; by subst. }
  enough (shards st' = shards st) by (destruct st, st'; cbn in *; congruence).
  apply (list_eq_same_length _ _ (length (shards st))); [done..|].
  intros i c' c _ Hi' Hi. apply map_eq. intros key. apply option_eq. intros chain.
  split; intros Hk; [eapply (Hsub st' st)|eapply (Hsub st st')]; eauto.
Qed.

(** ** Lemmas: construction *)

Lemma with_shards_wf `{Profile} n :
  (n ≤ 2 ^ 63)%N →
  ∃ st, with_shards n = Ret st ∧ wf st ∧ (∀ key, chain_of st key = []) ∧
    N.of_nat (length (shards st)) = (2 ^ N.log2_up (N.max n 1))%N.
Proof.
  intros Hn. unfold with_shards.
  rewrite next_power_of_two_ok by (assert (1 ≤ 2 ^ 63)%N by done; lia). cbn.
  set (p := N.log2_up (N.max n 1)).
  assert (0 < 2 ^ p)%N by (assert (2 ^ p ≠ 0)%N by (apply N.pow_nonzero; done); lia).
  rewrite sub_u64_ok by lia. cbn. eexists. split; [done|].
  split_and!.
  - split; cbn.
    + exists p. rewrite length_replicate, N2Nat.id. split; [done|].
      rewrite N.ones_equiv. lia.
    + intros i chains key chain [-> _]%lookup_replicate. by rewrite lookup_empty.
  - intros key. unfold chain_of. cbn [shards].
    destruct (replicate _ _ !! _) as [chains|] eqn:E; [|done].
    by apply lookup_replicate in E as [-> _].
  - cbn. by rewrite length_replicate, N2Nat.id.
Qed.

(** A new store is well formed and has no history. *)
Lemma new_spec `{Profile} :
  ∃ st, new = Ret st ∧ wf st ∧ (∀ key, chain_of st key = []) ∧ length (shards st) = 16.
Proof.
  destruct (with_shards_wf DEFAULT_SHARDS) as (st & E & Hwf & Hc & Hlen); [done|].
  exists st. split_and!; [done..|]. change (2 ^ N.log2_up (N.max DEFAULT_SHARDS 1))%N with 16%N in Hlen. lia.
Qed.

(** ** Lemmas: recovery *)

Lemma install_recovered_install st ts writes :
  wf st → unchanged_keys st ts writes →
  install_recovered st ts writes = Ret (install st ts writes).
Proof.
  revert st. induction writes as [|[key v] writes IH]; intros st Hwf Hnew; [done|]. cbn.
  rewrite with_shard_push by done. cbn.
  apply (IH (push st key (mkVersion ts v))); [|by apply unchanged_keys_push].
  apply push_wf; [done|]. apply Hnew. set_solver.
Qed.

(** ** Lemmas: the sample stores *)

Lemma sample_store_chains i chains : shards sample_store !! i = Some chains → chains = ∅.
Proof.
  intros Hi%list_elem_of_lookup_2. cbn in Hi.
  by apply elem_of_cons in Hi as [->| ->%list_elem_of_singleton].
Qed.

Lemma sample_store_wf : wf sample_store.
Proof.
  split; [by exists 1%N|]. intros i chains key chain ->%sample_store_chains.
  by rewrite lookup_empty.
Qed.

Lemma sample_store_empty key : chain_of sample_store key = [].
Proof.
  destruct (shard_of_index sample_store sample_store_wf key) as (chains & E & _ & ->).
  by rewrite (sample_store_chains _ _ E), lookup_empty.
Qed.

Lemma sample_writes_NoDup : NoDup sample_writes.*1.
Proof. by apply (bool_decide_unpack _). Qed.

Lemma sample_committed_wf : wf sample_committed.
Proof.
  apply install_wf; [apply sample_store_wf|]. intros key _. by rewrite sample_store_empty.
Qed.

Lemma sample_deleted_wf : wf sample_deleted.
Proof.
  apply install_wf; [apply sample_committed_wf|]. intros key Hk.
  apply list_elem_of_singleton in Hk as ->. by vm_compute.
Qed.

(** ** Properties *)

(** C27: What a commit does. On a well-formed store it never panics, on either
    path. It refuses exactly when a written or read key changed after the
    snapshot, naming the first such key, and then leaves the store as it was;
    otherwise it succeeds, no such key changed, and every key reads at every
    timestamp what the batch says. *)
Theorem try_commit_atomic st read_ts ts writes reads :
  wf st → (Timestamp.get read_ts ≤ Timestamp.get ts)%N → NoDup writes.*1 →
  ∃ st' r, try_commit st read_ts ts writes reads = Ret (st', r) ∧ wf st' ∧
    match r with
    | Err e =>
       st' = st ∧ ∃ l1 k l2, writes.*1 ++ reads = l1 ++ k :: l2 ∧
         e = TxnError.conflict (length k) ∧ changed_since (chain_of st k) read_ts = true ∧
         ∀ k', k' ∈ l1 → changed_since (chain_of st k') read_ts = false
    | Ok _ =>
       (∀ k, k ∈ writes.*1 ++ reads → changed_since (chain_of st k) read_ts = false) ∧
       ∀ k t, view (chain_of st' k) t = committed_view writes ts k t (view (chain_of st k) t)
    end.
Proof.
  intros Hwf Hts Hnd. rewrite try_commit_result by done.
  pose proof (commit_unchanged st read_ts ts writes reads Hts) as Hnew. unfold commit_result.
  destruct (first_conflict st read_ts _) as [k|] eqn:E; eexists _, _; (split; [done|]).
  - split_and!; [done|done|]. by apply first_conflict_split in E.
  - specialize (Hnew eq_refl). split_and!; [by apply install_wf|by apply first_conflict_None|].
    intros k t. by apply view_install.
Qed.

Lemma try_commit_atomic_witness :
  wf sample_committed ∧ (0 ≤ 2)%N ∧ NoDup sample_writes.*1 ∧
  ∃ st' r, try_commit sample_committed Timestamp.ZERO (Timestamp.from_raw 2) sample_writes [] =
      Ret (st', r) ∧ wf st' ∧
    match r with
    | Err e =>
       st' = sample_committed ∧ ∃ l1 k l2, sample_writes.*1 ++ [] = l1 ++ k :: l2 ∧
         e = TxnError.conflict (length k) ∧
         changed_since (chain_of sample_committed k) Timestamp.ZERO = true ∧
         ∀ k', k' ∈ l1 → changed_since (chain_of sample_committed k') Timestamp.ZERO = false
    | Ok _ =>
       (∀ k, k ∈ sample_writes.*1 ++ [] →
          changed_since (chain_of sample_committed k) Timestamp.ZERO = false) ∧
       ∀ k t, view (chain_of st' k) t =
         committed_view sample_writes (Timestamp.from_raw 2) k t (view (chain_of sample_committed k) t)
    end.
Proof.
  split_and!; [apply sample_committed_wf|lia|apply sample_writes_NoDup|].
  apply (try_commit_atomic sample_committed Timestamp.ZERO (Timestamp.from_raw 2) sample_writes []);
    [apply sample_committed_wf|cbn; lia|apply sample_writes_NoDup].
Defined.

(** Reading what was committed. After a successful commit, a read of any key
    at any timestamp returns the committed value when the batch wrote the key at
    or before that timestamp (nothing, for a delete), and otherwise what the same
    read returned before the commit. *)
Theorem commit_then_get st read_ts ts writes reads st' key t :
  wf st → (Timestamp.get read_ts ≤ Timestamp.get ts)%N → NoDup writes.*1 →
  try_commit st read_ts ts writes reads = Ret (st', Ok tt) →
  ∃ old, get st key t = Ret (st, Ok old) ∧
    get st' key t = Ret (st', Ok (committed_view writes ts key t old)).
Proof.
  intros Hwf Hts Hnd. rewrite try_commit_result by done. unfold commit_result.
  pose proof (commit_unchanged st read_ts ts writes reads Hts) as Hnew.
  destruct (first_conflict st read_ts _); [done|]. intros [= <-]. specialize (Hnew eq_refl).
  eexists. split; [by apply get_view|]. rewrite get_view by by apply install_wf.
  by rewrite view_install.
Qed.

Lemma commit_then_get_witness :
  wf sample_store ∧ (0 ≤ 1)%N ∧ NoDup sample_writes.*1 ∧
  try_commit sample_store Timestamp.ZERO (Timestamp.from_raw 1) sample_writes [] =
    Ret (sample_committed, Ok tt) ∧
  ∃ old, get sample_store [x01] (Timestamp.from_raw 1) = Ret (sample_store, Ok old) ∧
    get sample_committed [x01] (Timestamp.from_raw 1) =
      Ret (sample_committed, Ok (committed_view sample_writes (Timestamp.from_raw 1) [x01]
        (Timestamp.from_raw 1) old)).
Proof.
  split_and!; [apply sample_store_wf|lia|apply sample_writes_NoDup|by vm_compute|].
  apply (commit_then_get sample_store Timestamp.ZERO (Timestamp.from_raw 1) sample_writes []);
    [apply sample_store_wf|cbn; lia|apply sample_writes_NoDup|by vm_compute].
Defined.

(** C30: The fast path is the general path: for one write and no read set, locking
    a single shard gives exactly the result of the sorted multi-shard protocol. *)
Theorem single_path_equals_general st read_ts ts key value :
  wf st → (Timestamp.get read_ts ≤ Timestamp.get ts)%N →
  try_commit_single st read_ts ts [(key, value)] =
    try_commit_general st read_ts ts [(key, value)] [].
Proof. intros Hwf Hts. by rewrite try_commit_single_result, try_commit_general_result. Qed.

Lemma single_path_equals_general_witness :
  wf sample_committed ∧ (1 ≤ 2)%N ∧
  try_commit_single sample_committed (Timestamp.from_raw 1) (Timestamp.from_raw 2)
      [([x01], None)] =
    try_commit_general sample_committed (Timestamp.from_raw 1) (Timestamp.from_raw 2)
      [([x01], None)] [].
Proof.
  split_and!; [apply sample_committed_wf|lia|].
  apply single_path_equals_general; [apply sample_committed_wf|cbn; lia].
Defined.

(** Deadlock freedom of the lock protocol. A commit acquires the locks of
    exactly the shards of its written and read keys, each once, in strictly
    ascending order; so of any two shards that two commits both need, both
    acquire the lower one first. *)
Theorem lock_order_consistent ws rs ws' rs' i j i' j' a b :
  StronglySorted lt (lock_order ws rs) ∧
  (∀ shard, shard ∈ lock_order ws rs ↔ shard ∈ ws ∨ shard ∈ rs) ∧
  (lock_order ws rs !! i = Some a → lock_order ws rs !! j = Some b →
   lock_order ws' rs' !! i' = Some a → lock_order ws' rs' !! j' = Some b →
   i < j → i' < j').
Proof.
  split_and!; [apply lock_order_sorted|intros; by rewrite lock_order_elem, elem_of_app|].
  intros Hi Hj Hi' Hj' Hij. pose proof (lock_order_sorted ws rs) as Hs.
  pose proof (lock_order_sorted ws' rs') as Hs'.
  pose proof (StronglySorted_lookup_lt _ _ _ _ _ _ Hs Hi Hj Hij) as Hab.
  destruct (Nat.lt_trichotomy i' j') as [?|[->|Hgt]]; [done|simplify_eq; lia|].
  pose proof (StronglySorted_lookup_lt _ _ _ _ _ _ Hs' Hj' Hi' Hgt). lia.
Qed.

Lemma lock_order_consistent_witness :
  lock_order [3; 1; 3] [0] = [0; 1; 3] ∧ lock_order [3] [1; 2] = [1; 2; 3] ∧ 0 < 2.
Proof.
  split; [by vm_compute|]. split; [by vm_compute|].
  apply (lock_order_consistent [3; 1; 3] [0] [3] [1; 2] 1 2 0 2 1 3); by vm_compute || lia.
Defined.

(** Building a store. For up to 2^63 requested shards the count is rounded up
    to the least power of two that is at least the request and at least one, and
    the mask sends every key to one of them; above that the rounding overflows:
    the constructor panics when the crate is built with overflow checks, and
    otherwise returns a store without any shard, whose first read panics. *)
Theorem with_shards_rounds_up `{Profile} n :
  (n < u64_modulus)%N →
  if (n <=? 2 ^ 63)%N then
    ∃ st p, with_shards n = Ret st ∧ wf st ∧
      N.of_nat (length (shards st)) = (2 ^ p)%N ∧ (N.max n 1 ≤ 2 ^ p)%N ∧
      (∀ q, (N.max n 1 ≤ 2 ^ q)%N → (p ≤ q)%N) ∧
      ∀ key, shard_of st key < length (shards st)
  else if overflow_checks then with_shards n = Panic
  else ∃ st, with_shards n = Ret st ∧ shards st = [] ∧ ∀ key t, get st key t = Panic.
Proof.
  intros Hn. case_cmp.
  - destruct (with_shards_wf n) as (st & E & Hwf & _ & Hlen); [done|].
    exists st, (N.log2_up (N.max n 1)). split_and!; [done..| | |by apply shard_of_lt].
    + destruct (N.eq_dec (N.max n 1) 1%N) as [->|]; [done|]. apply N.log2_up_spec. lia.
    + intros q Hq%N.log2_up_le_mono. by rewrite N.log2_up_pow2 in Hq by lia.
  - assert (N.log2_up n = 64)%N as Hlog.
    { apply N.le_antisymm.
      - change 64%N with (N.log2_up (2 ^ 64)). apply N.log2_up_le_mono.
        change u64_modulus with (2 ^ 64)%N in Hn. lia.
      - apply N.lt_pred_le. apply N.log2_up_lt_pow2 in H0; [done|]. lia. }
    unfold with_shards, next_power_of_two. rewrite N.max_l by lia. rewrite Hlog. cbn.
    unfold overflow_checks. destruct H; [done|]. eexists. split; [done|]. done.
Qed.

Lemma with_shards_rounds_up_witness :
  (5 < u64_modulus)%N ∧
  ∃ st p, with_shards (H := true) 5 = Ret st ∧ wf st ∧
    N.of_nat (length (shards st)) = (2 ^ p)%N ∧ (N.max 5 1 ≤ 2 ^ p)%N ∧
    (∀ q, (N.max 5 1 ≤ 2 ^ q)%N → (p ≤ q)%N) ∧
    ∀ key, shard_of st key < length (shards st).
Proof. split; [done|]. by apply (with_shards_rounds_up (H := true) 5). Defined.

Section gc_properties.
Context `{HashIter}.

Lemma perform_wf st op :
  wf st → admissible st op →
  ∃ st', perform st op = Ret st' ∧ wf st' ∧ length (shards st') = length (shards st).
Proof.
  intros Hwf Ha. destruct op as [key ts|read_ts ts writes reads|wm|ts writes]; cbn in *.
  - rewrite get_view by done. by exists st.
  - rewrite try_commit_result by done. unfold commit_result.
    pose proof (commit_unchanged st read_ts ts writes reads Ha) as Hnew.
    destruct (first_conflict st read_ts _); cbn; [by exists st|]. specialize (Hnew eq_refl).
    eexists. split_and!; [done|by apply install_wf|apply install_length].
  - destruct (collect_garbage_spec st wm Hwf) as (st' & n & -> & Hwf' & Hlen & _). by exists st'.
  - rewrite install_recovered_install by done.
    eexists. split_and!; [done|by apply install_wf|apply install_length].
Qed.


(** C28: Garbage collection is invisible and honest. On a well-formed store it does
    not panic, keeps the store well formed, reports exactly the number of versions
    it removed, and no read of any key at or after the low watermark returns
    anything different afterwards. *)
Theorem collect_garbage_invisible st wm :
  wf st →
  ∃ st' n, collect_garbage st wm = Ret (st', n) ∧ wf st' ∧
    version_count st = n + version_count st' ∧
    ∀ key t, (Timestamp.get wm ≤ Timestamp.get t)%N →
      ∃ r, get st key t = Ret (st, Ok r) ∧ get st' key t = Ret (st', Ok r).
Proof.
  intros Hwf. destruct (collect_garbage_spec st wm Hwf)
    as (st' & n & E & Hwf' & _ & _ & Hcount & _ & Hchain).
  exists st', n. split_and!; [done..|]. intros key t Ht. rewrite !get_view, Hchain by done.
  eexists. split; [done|]. do 3 f_equal. apply collected_same; [by apply chain_of_ascending|done].
Qed.

End gc_properties.


Lemma collect_garbage_invisible_witness :
  wf sample_committed ∧
  ∃ st' n, collect_garbage sample_committed (Timestamp.from_raw 1) = Ret (st', n) ∧ wf st' ∧
    version_count sample_committed = n + version_count st' ∧
    ∀ key t, (1 ≤ Timestamp.get t)%N →
      ∃ r, get sample_committed key t = Ret (sample_committed, Ok r) ∧
        get st' key t = Ret (st', Ok r).
Proof.
  split; [apply sample_committed_wf|].
  apply (collect_garbage_invisible sample_committed (Timestamp.from_raw 1)), sample_committed_wf.
Defined.


(** The key deleted at 2 is forgotten by that collection. *)
Example sample_deleted_forgotten :
  (λ '(st, n), (key_count st, n)) <$> collect_garbage sample_deleted (Timestamp.from_raw 2) =
    Ret (1, 2).
Proof. by vm_compute. Qed.

End MemoryStore.
