(* ===== verification/OracleState.v ===== *)
(** * The timestamp oracle

    [struct Oracle] of [src/oracle.rs]: commit-timestamp allocation, the read
    watermark and the registry of live readers. Each operation is one atomic
    action of the code: an atomic load, a [fetch_add], or a critical section of
    one of its two mutexes. *)

From S2P Require Import Prelude RustStd Types.

Module Oracle.

(** ** Data *)

(** [struct Pending]. *)
Record Pending := mkPending { done_upto : N; ahead : gset N }.

(** [struct Oracle]. The field [read_ts] is the published watermark;
    [readers] is the [BTreeMap] of live read timestamps and their counts. *)
Record t := mk {
  next_ts : N;
  read_ts_atomic : N;
  pending : Pending;
  readers : gmap N N;
}.

(** ** Operations *)

Definition new : t := {|
  next_ts := 1;
  read_ts_atomic := Timestamp.get Timestamp.ZERO;
  pending := {| done_upto := Timestamp.get Timestamp.ZERO; ahead := ∅ |};
  readers := ∅;
|}.

Definition recovered `{Profile} (highest : Timestamp.t) : outcome t :=
  let highest := Timestamp.get highest in
  next ← add_u64 highest 1;
  Ret {|
    next_ts := next;
    read_ts_atomic := highest;
    pending := {| done_upto := highest; ahead := ∅ |};
    readers := ∅;
  |}.

Definition read_ts (o : t) : Timestamp.t := Timestamp.from_raw (read_ts_atomic o).

Definition alloc_commit_ts (o : t) : t * Timestamp.t :=
  ({| next_ts := fetch_add_u64 (next_ts o);
      read_ts_atomic := read_ts_atomic o;
      pending := pending o;
      readers := readers o |},
   Timestamp.from_raw (next_ts o)).

Definition set_readers (o : t) (r : gmap N N) : t :=
  {| next_ts := next_ts o; read_ts_atomic := read_ts_atomic o;
     pending := pending o; readers := r |}.

(** The watermark is loaded while the registry is locked. *)
Definition begin_reader `{Profile} (o : t) : outcome (t * Timestamp.t) :=
  let ts := read_ts_atomic o in
  count ← add_u64 (default 0%N (readers o !! ts)) 1;
  Ret (set_readers o (<[ts := count]> (readers o)), Timestamp.from_raw ts).

Definition end_reader `{Profile} (o : t) (ts : Timestamp.t) : outcome t :=
  let key := Timestamp.get ts in
  match readers o !! key with
  | Some count =>
     count ← sub_u64 count 1;
     if (count =? 0)%N
     then Ret (set_readers o (delete key (readers o)))
     else Ret (set_readers o (<[key := count]> (readers o)))
  | None => Ret o
  end.

(** [BTreeMap::keys().next()]: the least key. *)
Definition first_key {V} (m : gmap N V) : option N :=
  map_fold (λ k _ least, Some (match least with Some l => N.min k l | None => k end)) None m.

Definition low_watermark (o : t) : Timestamp.t :=
  match first_key (readers o) with
  | Some oldest => Timestamp.from_raw oldest
  | None => Timestamp.from_raw (read_ts_atomic o)
  end.

(** The [while p.ahead.remove(&next)] loop: every turn removes an element, so
    [S (size ahead)] turns are enough. *)
Fixpoint advance `{Profile} (fuel : nat) (next : N) (p : Pending) : outcome Pending :=
  match fuel with
  | O => Ret p
  | S fuel =>
     if bool_decide (next ∈ ahead p) then
       let p := {| done_upto := next; ahead := ahead p ∖ {[next]} |} in
       next ← add_u64 next 1;
       advance fuel next p
     else Ret p
  end.

Definition commit_done `{Profile} (o : t) (ts : Timestamp.t) : outcome t :=
  let ts := Timestamp.get ts in
  let p := pending o in
  expected ← add_u64 (done_upto p) 1;
  if (ts =? expected)%N then
    next ← add_u64 ts 1;
    p ← advance (S (size (ahead p))) next {| done_upto := ts; ahead := ahead p |};
    Ret {| next_ts := next_ts o; read_ts_atomic := done_upto p;
           pending := p; readers := readers o |}
  else
    Ret {| next_ts := next_ts o; read_ts_atomic := read_ts_atomic o;
           pending := {| done_upto := done_upto p; ahead := {[ts]} ∪ ahead p |};
           readers := readers o |}.

(** ** Invariants *)

(** [inflight] is the set of commit timestamps handed out and not yet reported.
    The bookkeeping accounts for every timestamp up to [next_ts]: those at or
    below [done_upto] are finished, those above are finished early ([ahead]) or
    in flight. The last field is the range in which the counters do not wrap. *)
Record wf (o : t) (inflight : gset N) : Prop := {
  wf_published : read_ts_atomic o = done_upto (pending o);
  wf_below : (done_upto (pending o) < next_ts o)%N;
  wf_inflight ts : ts ∈ inflight → (done_upto (pending o) < ts < next_ts o)%N;
  wf_ahead ts : ts ∈ ahead (pending o) →
    (done_upto (pending o) < ts < next_ts o)%N ∧ ts ∉ inflight;
  wf_cover ts : (done_upto (pending o) < ts < next_ts o)%N →
    ts ∈ ahead (pending o) ∨ ts ∈ inflight;
  wf_gap : (done_upto (pending o) + 1)%N ∉ ahead (pending o);
  wf_range : (next_ts o + 1 < u64_modulus)%N;
}.

(** The registry counts the live readers of each timestamp. *)
Definition reader_count (live : list N) (ts : N) : nat := length (filter (.= ts) live).

Record readers_wf (o : t) (live : list N) : Prop := {
  rwf_count ts : readers o !! ts =
    if bool_decide (reader_count live ts = 0) then None
    else Some (N.of_nat (reader_count live ts));
  rwf_range : (N.of_nat (length live) + 1 < u64_modulus)%N;
}.

(** Reporting a list of timestamps done, one after the other. *)
Definition all_done `{Profile} (o : t) (l : list Timestamp.t) : outcome t :=
  foldl (λ m ts, o ← m; commit_done o ts) (Ret o) l.

(** A run of the registry: readers begin, and live readers end. *)
Inductive registry_op := RBegin | REnd (ts : N).

Fixpoint run_registry `{Profile} (ops : list registry_op) (o : t) (live : list N) :
    outcome (t * list N) :=
  match ops with
  | [] => Ret (o, live)
  | RBegin :: ops =>
     '(o, ts) ← begin_reader o;
     run_registry ops o (Timestamp.get ts :: live)
  | REnd ts :: ops =>
     match list_find (ts =.) live with
     | None => run_registry ops o live
     | Some (i, _) =>
        o ← end_reader o (Timestamp.from_raw ts);
        run_registry ops o (delete i live)
     end
  end.

(** An oracle with timestamps 1 to 3 in flight, for the witnesses. *)
Definition sample_oracle : t :=
  (alloc_commit_ts (alloc_commit_ts (alloc_commit_ts new).1).1).1.

(** ** Lemmas: the watermark *)

Section advance.
Context `{Profile}.

(** With enough fuel the loop stops exactly at the first missing timestamp. *)
Lemma advance_spec fuel d a :
  size a < fuel →
  (∀ ts, ts ∈ a → ts + 1 < u64_modulus)%N →
  (d + 1 < u64_modulus)%N →
  ∃ d' a',
    advance fuel (d + 1) {| done_upto := d; ahead := a |} =
      Ret {| done_upto := d'; ahead := a' |} ∧
    (d ≤ d')%N ∧
    (∀ ts, (d < ts ≤ d')%N → ts ∈ a) ∧
    (∀ ts, ts ∈ a' ↔ ts ∈ a ∧ ¬ (d < ts ≤ d')%N) ∧
    (d' + 1)%N ∉ a'.
Proof.
  revert d a. induction fuel as [|fuel IH]; intros d a Hfuel Hrange Hd; [lia|]. cbn.
  case_bool_decide as Hin; cbn in *.
  2:{ exists d, a. split_and!; [done|lia|lia| |done]. intros ts. split; [|tauto].
      intros ?. split; [done|lia]. }
  pose proof (Hrange _ Hin) as Hd1. rewrite add_u64_ok by lia. cbn.
  destruct (IH (d + 1)%N (a ∖ {[(d + 1)%N]})) as (d' & a' & -> & Hle & Hrun & Ha' & Hstop).
  - rewrite size_difference by set_solver. rewrite size_singleton.
    assert (size a ≠ 0) by (apply size_non_empty_iff; set_solver). lia.
  - intros ts ?. apply Hrange. set_solver.
  - lia.
  - exists d', a'. split_and!; [done|lia| |  |done].
    + intros ts Hts. destruct (decide (ts = d + 1)%N) as [->|]; [done|].
      assert (ts ∈ a ∖ {[(d + 1)%N]}) by (apply Hrun; lia). set_solver.
    + intros ts. rewrite Ha'. rewrite elem_of_difference, elem_of_singleton. split.
      * intros [[??] ?]. split; [done|lia].
      * intros [??]. assert (ts ≠ d + 1)%N by (intros ->; lia). split; [done|lia].
Qed.
End advance.

Lemma new_wf : wf new ∅.
Proof. split; cbn; try set_solver; lia. Qed.

Lemma recovered_wf `{Profile} highest :
  (Timestamp.get highest + 2 < u64_modulus)%N →
  ∃ o, recovered highest = Ret o ∧ wf o ∅ ∧
    read_ts o = highest ∧ next_ts o = (Timestamp.get highest + 1)%N ∧ readers o = ∅.
Proof.
  intros Hr. unfold recovered. rewrite add_u64_ok by lia. cbn. eexists. split; [done|].
  split_and!; [|by destruct highest|done|done]. split; cbn; try set_solver; lia.
Qed.

Lemma alloc_commit_ts_wf o inflight :
  wf o inflight → (next_ts o + 2 < u64_modulus)%N →
  wf (alloc_commit_ts o).1 ({[next_ts o]} ∪ inflight) ∧
  (next_ts o ∉ inflight) ∧ (Timestamp.get (read_ts o) < next_ts o)%N.
Proof.
  intros [] Hr. unfold alloc_commit_ts. split_and!.
  - split; cbn; rewrite ?fetch_add_u64_ok by lia; [done|lia|..|done|lia].
    + intros ts [->%elem_of_singleton|Hts]%elem_of_union; [lia|].
      specialize (wf_inflight0 ts Hts). lia.
    + intros ts Hts. destruct (wf_ahead0 ts Hts). split; [lia|].
      rewrite not_elem_of_union, not_elem_of_singleton. split; [lia|done].
    + intros ts Hts. destruct (decide (ts = next_ts o)) as [->|]; [set_solver|].
      destruct (wf_cover0 ts); [lia|by left|set_solver].
  - intros Hin. specialize (wf_inflight0 _ Hin). lia.
  - cbn. lia.
Qed.

Lemma commit_done_wf `{Profile} o inflight ts :
  wf o inflight → Timestamp.get ts ∈ inflight →
  ∃ o', commit_done o ts = Ret o' ∧ wf o' (inflight ∖ {[Timestamp.get ts]}) ∧
    next_ts o' = next_ts o ∧ readers o' = readers o ∧
    (Timestamp.get (read_ts o) ≤ Timestamp.get (read_ts o'))%N.
Proof.
  intros [] Hin. destruct ts as [ts]. cbn [Timestamp.get] in *.
  pose proof (wf_inflight0 ts Hin) as Hts. unfold commit_done. cbn [Timestamp.get].
  rewrite !add_u64_ok by lia. run. case_cmp.
  - subst ts. run.
    destruct (advance_spec (S (size (ahead (pending o)))) (done_upto (pending o) + 1)%N
      (ahead (pending o))) as (d' & a' & Hadv & Hle & Hrun & Ha' & Hstop); [lia| |lia|].
    { intros t Ht. destruct (wf_ahead0 t Ht). lia. }
    rewrite Hadv. run. eexists. split; [done|].
    split_and!; [|done..|unfold read_ts; cbn [Timestamp.get read_ts_atomic done_upto]; lia].
    assert (d' < next_ts o)%N.
    { destruct (N.eq_dec d' (done_upto (pending o) + 1)%N) as [->|]; [lia|].
      assert (d' ∈ ahead (pending o)) as Hd by (apply Hrun; lia).
      destruct (wf_ahead0 d' Hd). lia. }
    split; cbn; [done|done|..|done|done].
    + intros t [Ht Hne]%elem_of_difference. specialize (wf_inflight0 t Ht) as Hb.
      rewrite elem_of_singleton in Hne. split; [|lia].
      destruct (N.lt_ge_cases d' t); [done|].
      assert (t ∈ ahead (pending o)) as Hta by (apply Hrun; lia).
      by destruct (wf_ahead0 t Hta).
    + intros t [Hta Hout]%Ha'. destruct (wf_ahead0 t Hta) as [Hb Hno].
      assert (t ≠ done_upto (pending o) + 1)%N by (by intros ->).
      split; [lia|set_solver].
    + intros t Ht. destruct (wf_cover0 t ltac:(lia)).
      * left. apply Ha'. split; [done|lia].
      * right. rewrite elem_of_difference, elem_of_singleton. split; [done|lia].
  - eexists. split; [done|]. split_and!; [|done..]. split; cbn; [done|done|..|done].
    + intros t [Ht _]%elem_of_difference. auto.
    + intros t [->%elem_of_singleton|Ht]%elem_of_union; [set_solver|].
      destruct (wf_ahead0 t Ht). split; [done|set_solver].
    + intros t Ht. destruct (decide (t = ts)) as [->|]; [set_solver|].
      destruct (wf_cover0 t Ht); set_solver.
    + rewrite not_elem_of_union, not_elem_of_singleton. split; [lia|done].
Qed.

(** ** Lemmas: the reader registry *)

Lemma reader_count_cons live ts ts' :
  reader_count (ts' :: live) ts = (if decide (ts' = ts) then 1 else 0) + reader_count live ts.
Proof. unfold reader_count. rewrite filter_cons. by destruct (decide (ts' = ts)). Qed.

Lemma reader_count_le live ts : reader_count live ts ≤ length live.
Proof. apply length_filter. Qed.

Lemma reader_count_zero live ts : reader_count live ts = 0 ↔ ts ∉ live.
Proof.
  induction live as [|ts' live IH]; [by split; [set_solver|]|].
  rewrite reader_count_cons, not_elem_of_cons. destruct (decide (ts' = ts)); naive_solver lia.
Qed.

Lemma reader_count_perm live live' ts :
  live ≡ₚ live' → reader_count live ts = reader_count live' ts.
Proof. intros Hp. unfold reader_count. by rewrite Hp. Qed.

Lemma readers_wf_perm o live live' : live ≡ₚ live' → readers_wf o live → readers_wf o live'.
Proof.
  intros Hp [Hc Hr]. split; [|by rewrite <-Hp].
  intros ts. by rewrite <-(reader_count_perm _ _ ts Hp).
Qed.

Lemma readers_wf_same o o' live :
  readers o' = readers o → readers_wf o live → readers_wf o' live.
Proof. intros E [Hc Hr]. split; [|done]. by rewrite E. Qed.

Lemma begin_reader_wf `{Profile} o live :
  readers_wf o live → (N.of_nat (length live) + 2 < u64_modulus)%N →
  ∃ o', begin_reader o = Ret (o', read_ts o) ∧
    readers_wf o' (Timestamp.get (read_ts o) :: live) ∧
    next_ts o' = next_ts o ∧ read_ts_atomic o' = read_ts_atomic o ∧ pending o' = pending o.
Proof.
  intros [Hc Hr] Hlen. unfold begin_reader.
  set (ts := read_ts_atomic o). pose proof (reader_count_le live ts).
  assert (Hd : default 0%N (readers o !! ts) = N.of_nat (reader_count live ts)).
  { rewrite Hc. case_bool_decide as E; [by rewrite E|done]. }
  rewrite Hd, add_u64_ok by lia. cbn. eexists. split; [done|]. split_and!; [|done..].
  split; [|cbn; lia]. intros t. cbn [readers set_readers]. rewrite reader_count_cons.
  cbn. fold ts. destruct (decide (ts = t)) as [<-|].
  - rewrite lookup_insert_eq, bool_decide_false by lia. f_equal. lia.
  - rewrite lookup_insert_ne by done. apply Hc.
Qed.

Lemma end_reader_wf `{Profile} o live ts :
  readers_wf o (Timestamp.get ts :: live) →
  ∃ o', end_reader o ts = Ret o' ∧ readers_wf o' live ∧
    next_ts o' = next_ts o ∧ read_ts_atomic o' = read_ts_atomic o ∧ pending o' = pending o.
Proof.
  intros [Hc Hr]. unfold end_reader. rewrite Hc, reader_count_cons, decide_True by done.
  rewrite bool_decide_false by lia. rewrite sub_u64_ok by lia. cbn [mbind outcome_bind].
  assert (Hrest : ∀ t, t ≠ Timestamp.get ts → readers o !! t =
    if bool_decide (reader_count live t = 0) then None else Some (N.of_nat (reader_count live t))).
  { intros t Ht. rewrite Hc, reader_count_cons, decide_False by done. done. }
  cbn [length] in Hr. case_cmp.
  - eexists. split; [done|]. split_and!; [|done..]. split; [|lia]. intros t. cbn.
    destruct (decide (t = Timestamp.get ts)) as [->|].
    + rewrite lookup_delete_eq, bool_decide_true by lia. done.
    + rewrite lookup_delete_ne by done. auto.
  - eexists. split; [done|]. split_and!; [|done..]. split; [|lia]. intros t. cbn.
    destruct (decide (t = Timestamp.get ts)) as [->|].
    + rewrite lookup_insert_eq, bool_decide_false by lia. f_equal. lia.
    + rewrite lookup_insert_ne by done. auto.
Qed.

Lemma first_key_spec {V} (m : gmap N V) :
  match first_key m with
  | None => m = ∅
  | Some l => is_Some (m !! l) ∧ ∀ k, is_Some (m !! k) → (l ≤ k)%N
  end.
Proof.
  unfold first_key. apply (map_fold_weak_ind (λ least m, match least with
    | None => m = ∅ | Some l => is_Some (m !! l) ∧ ∀ k, is_Some (m !! k) → (l ≤ k)%N end)).
  { done. }
  intros k v m' least Hk IH. destruct least as [l|].
  - destruct IH as [Hl Hmin]. split.
    + destruct (N.min_spec k l) as [[_ ->]|[_ ->]]; [by rewrite lookup_insert_eq|].
      rewrite lookup_insert_ne; [done|]. intros ->. destruct Hl. congruence.
    + intros k' Hk'. destruct (decide (k = k')) as [->|]; [lia|].
      rewrite lookup_insert_ne in Hk' by done. specialize (Hmin k' Hk'). lia.
  - subst m'. split; [by rewrite lookup_insert_eq|]. intros k' Hk'.
    destruct (decide (k = k')) as [->|]; [done|].
    rewrite lookup_insert_ne, lookup_empty in Hk' by done. by destruct Hk'.
Qed.

(** The low watermark is the oldest live read timestamp, or the read watermark
    when no reader is live. *)
Lemma low_watermark_wf o live :
  readers_wf o live →
  (live = [] ∧ low_watermark o = read_ts o) ∨
  (Timestamp.get (low_watermark o) ∈ live ∧
   ∀ ts, ts ∈ live → (Timestamp.get (low_watermark o) ≤ ts)%N).
Proof.
  intros [Hc Hr]. unfold low_watermark. pose proof (first_key_spec (readers o)) as Hk.
  assert (Hlive : ∀ ts, ts ∈ live ↔ is_Some (readers o !! ts)).
  { intros ts. rewrite Hc. pose proof (reader_count_zero live ts) as Hz.
    case_bool_decide; split; [tauto|by intros []|done|].
    intros _. apply dec_stable. tauto. }
  destruct (first_key (readers o)) as [l|].
  - right. cbn. destruct Hk as [Hl Hmin]. split; [by apply Hlive|].
    intros ts Hts%Hlive. auto.
  - left. split; [|done]. destruct live as [|ts live]; [done|].
    assert (is_Some (readers o !! ts)) as Hts by (apply Hlive; set_solver).
    rewrite Hk, lookup_empty in Hts. by destruct Hts.
Qed.

#[global] Hint Resolve new_wf : txn.

(** The watermark determines, and is determined by, what is in flight. *)
Lemma watermark_wf o inflight T :
  wf o inflight →
  (T ≤ Timestamp.get (read_ts o))%N ↔ (T < next_ts o)%N ∧ ∀ ts, ts ∈ inflight → (T < ts)%N.
Proof.
  intros []. unfold read_ts. cbn. rewrite wf_published0. split.
  - intros Hle. split; [lia|]. intros ts Hts. specialize (wf_inflight0 ts Hts). lia.
  - intros [Hlt Hall]. apply N.le_ngt. intros Hgt.
    destruct (wf_cover0 (done_upto (pending o) + 1)%N) as [|Hin]; [lia|done|].
    specialize (Hall _ Hin). lia.
Qed.

Lemma all_done_wf `{Profile} l : ∀ o inflight,
  wf o inflight → NoDup l → (∀ ts, ts ∈ l → Timestamp.get ts ∈ inflight) →
  ∃ o', all_done o l = Ret o' ∧ wf o' (inflight ∖ list_to_set (Timestamp.get <$> l)) ∧
    next_ts o' = next_ts o.
Proof.
  induction l as [|ts l IH]; intros o inflight Ho Hnd Hin.
  { exists o. cbn. by rewrite difference_empty_L. }
  apply NoDup_cons in Hnd as [Hts Hnd].
  destruct (commit_done_wf o inflight ts Ho) as (o1 & E & Ho1 & Hn & _); [set_solver|].
  destruct (IH o1 _ Ho1 Hnd) as (o' & E' & Ho' & Hn').
  { intros t Ht. rewrite elem_of_difference, elem_of_singleton. split; [set_solver|].
    intros Eq%Timestamp.ext. by subst. }
  exists o'. unfold all_done in *. cbn. rewrite E. split_and!; [done| |congruence].
  cbn. by rewrite difference_difference_l_L in Ho'.
Qed.

Lemma run_registry_wf `{Profile} ops : ∀ o live,
  readers_wf o live → (N.of_nat (length live) + N.of_nat (length ops) + 2 < u64_modulus)%N →
  ∃ o' live', run_registry ops o live = Ret (o', live') ∧ readers_wf o' live' ∧
    read_ts o' = read_ts o.
Proof.
  induction ops as [|[|ts] ops IH]; intros o live Ho Hlen; cbn [length] in Hlen.
  - by exists o, live.
  - destruct (begin_reader_wf o live Ho) as (o1 & E & Ho1 & _ & Hr & _); [lia|].
    destruct (IH o1 _ Ho1) as (o' & live' & E' & ? & ?); [cbn [length]; lia|].
    exists o', live'. cbn. rewrite E. run. split_and!; [done..|].
    unfold read_ts in *. by rewrite <-Hr.
  - cbn. destruct (list_find _ live) as [[i t']|] eqn:Hf.
    2:{ apply IH; [done|lia]. }
    apply list_find_Some in Hf as (Hi & <- & _).
    assert (live ≡ₚ ts :: delete i live) as Hp by by apply delete_Permutation.
    destruct (end_reader_wf o (delete i live) (Timestamp.from_raw ts))
      as (o1 & -> & Ho1 & _ & Hr & _); [by eapply readers_wf_perm|]. run.
    destruct (IH o1 _ Ho1) as (o' & live' & E' & ? & ?).
    { rewrite Hp in Hlen. cbn [length] in Hlen. lia. }
    exists o', live'. split_and!; [done..|]. unfold read_ts in *. by rewrite <-Hr.
Qed.

Lemma sample_oracle_wf : wf sample_oracle {[1; 2; 3]}%N.
Proof.
  destruct (alloc_commit_ts_wf new ∅ new_wf) as (H1 & _); [done|].
  destruct (alloc_commit_ts_wf _ _ H1) as (H2 & _); [done|].
  destruct (alloc_commit_ts_wf _ _ H2) as (H3 & _); [done|].
  replace ({[1; 2; 3]}%N : gset N) with ({[3]} ∪ ({[2]} ∪ ({[1]} ∪ ∅)) : gset N)%N by set_solver.
  done.
Qed.

(** ** Properties *)

(** C34: Reporting one commit done. Whatever the order in which commits finish,
    [commit_done] ends its loop without panicking, never moves the watermark back,
    and leaves it exact: at or below it lie the allocated timestamps that have no
    unfinished commit at or below them. *)
Theorem commit_done_exact `{Profile} o inflight ts :
  wf o inflight → Timestamp.get ts ∈ inflight →
  ∃ o', commit_done o ts = Ret o' ∧
    (Timestamp.get (read_ts o) ≤ Timestamp.get (read_ts o'))%N ∧
    ∀ T, (T ≤ Timestamp.get (read_ts o'))%N ↔
      (T < next_ts o)%N ∧ ∀ u, u ∈ inflight → u ≠ Timestamp.get ts → (T < u)%N.
Proof.
  intros Ho Hts. destruct (commit_done_wf o inflight ts Ho Hts) as (o' & E & Ho' & Hn & _ & Hle).
  exists o'. split_and!; [done..|]. intros T. rewrite (watermark_wf _ _ _ Ho'), Hn.
  setoid_rewrite elem_of_difference. setoid_rewrite elem_of_singleton. naive_solver.
Qed.

Lemma commit_done_exact_witness :
  wf sample_oracle {[1; 2; 3]}%N ∧ (2 ∈ ({[1; 2; 3]} : gset N))%N ∧
  ∃ o', commit_done (H := true) sample_oracle (Timestamp.from_raw 2) = Ret o' ∧
    (Timestamp.get (read_ts sample_oracle) ≤ Timestamp.get (read_ts o'))%N ∧
    ∀ T, (T ≤ Timestamp.get (read_ts o'))%N ↔
      (T < next_ts sample_oracle)%N ∧
      ∀ u, u ∈ ({[1; 2; 3]} : gset N)%N → u ≠ 2%N → (T < u)%N.
Proof.
  split_and!; [apply sample_oracle_wf|set_solver|].
  apply (commit_done_exact (H := true) sample_oracle {[1; 2; 3]}%N (Timestamp.from_raw 2));
    [apply sample_oracle_wf|cbn; set_solver].
Defined.

(** Commits may finish in any order. Once every commit in flight has been
    reported, in whatever order, the watermark is the last timestamp allocated and
    no early finisher is left waiting. *)
Theorem all_done_any_order `{Profile} o l :
  wf o (list_to_set (Timestamp.get <$> l)) → NoDup l →
  ∃ o', all_done o l = Ret o' ∧
    (Timestamp.get (read_ts o') + 1)%N = next_ts o ∧ ahead (pending o') = ∅.
Proof.
  intros Ho Hnd. destruct (all_done_wf l o _ Ho Hnd) as (o' & E & Ho' & Hn).
  { intros ts Hts. apply elem_of_list_to_set. by apply list_elem_of_fmap_2. }
  rewrite difference_diag_L in Ho'. exists o'. split; [done|].
  assert (Hw : (Timestamp.get (read_ts o') + 1)%N = next_ts o).
  { pose proof (watermark_wf _ _ (next_ts o' - 1)%N Ho') as [_ Hge].
    pose proof (watermark_wf _ _ (Timestamp.get (read_ts o')) Ho') as [Hlt _].
    destruct Hlt as [Hlt _]; [done|]. pose proof (wf_below _ _ Ho').
    enough (next_ts o' - 1 ≤ Timestamp.get (read_ts o'))%N by lia.
    apply Hge. split; [lia|]. set_solver. }
  split; [done|]. apply set_eq. intros ts. split; [|set_solver]. intros Hts.
  destruct (wf_ahead _ _ Ho' ts Hts) as [Hb _]. exfalso.
  rewrite <-(wf_published _ _ Ho') in Hb. unfold read_ts in Hw. cbn in Hw. lia.
Qed.

Lemma all_done_any_order_witness :
  wf sample_oracle (list_to_set (Timestamp.get <$>
    [Timestamp.from_raw 3; Timestamp.from_raw 1; Timestamp.from_raw 2])) ∧
  NoDup [Timestamp.from_raw 3; Timestamp.from_raw 1; Timestamp.from_raw 2] ∧
  ∃ o', all_done (H := true) sample_oracle
      [Timestamp.from_raw 3; Timestamp.from_raw 1; Timestamp.from_raw 2] = Ret o' ∧
    (Timestamp.get (read_ts o') + 1)%N = next_ts sample_oracle ∧ ahead (pending o') = ∅.
Proof.
  assert (wf sample_oracle (list_to_set (Timestamp.get <$>
    [Timestamp.from_raw 3; Timestamp.from_raw 1; Timestamp.from_raw 2]))) as Hwf.
  { replace (list_to_set _) with ({[1; 2; 3]}%N : gset N); [apply sample_oracle_wf|].
    cbn. set_solver. }
  assert (NoDup [Timestamp.from_raw 3; Timestamp.from_raw 1; Timestamp.from_raw 2]) as Hnd
    by by apply (bool_decide_unpack _).
  split; [exact Hwf|]. split; [exact Hnd|].
  exact (all_done_any_order (H := true) sample_oracle _ Hwf Hnd).
Defined.

(** The registry knows the oldest live reader. After any sequence of readers
    beginning and live readers ending, with no panic on the way, the low watermark
    is the least read timestamp still live, and the read watermark when no reader
    is. *)
Theorem low_watermark_exact `{Profile} ops o live :
  readers_wf o live → (N.of_nat (length live) + N.of_nat (length ops) + 2 < u64_modulus)%N →
  ∃ o' live', run_registry ops o live = Ret (o', live') ∧
    ((live' = [] ∧ low_watermark o' = read_ts o) ∨
     (Timestamp.get (low_watermark o') ∈ live' ∧
      ∀ ts, ts ∈ live' → (Timestamp.get (low_watermark o') ≤ ts)%N)).
Proof.
  intros Ho Hlen. destruct (run_registry_wf ops o live Ho Hlen) as (o' & live' & E & Ho' & Hr).
  exists o', live'. split; [done|]. rewrite <-Hr. by apply low_watermark_wf.
Qed.

Lemma low_watermark_exact_witness :
  readers_wf sample_oracle [] ∧
  ∃ o' live', run_registry (H := true) [RBegin; RBegin; REnd 0] sample_oracle [] = Ret (o', live') ∧
    ((live' = [] ∧ low_watermark o' = read_ts sample_oracle) ∨
     (Timestamp.get (low_watermark o') ∈ live' ∧
      ∀ ts, ts ∈ live' → (Timestamp.get (low_watermark o') ≤ ts)%N)).
Proof.
  assert (readers_wf sample_oracle []) as Hwf.
  { split; [|done]. intros ts. cbn. by rewrite lookup_empty. }
  split; [exact Hwf|].
  apply (low_watermark_exact (H := true) [RBegin; RBegin; REnd 0] sample_oracle [] Hwf). done.
Defined.

(** C38: Resuming after recovery. The recovered oracle reads at the highest
    recovered timestamp and hands out only later ones; at the very top of the
    64-bit range there is no later one, and resuming panics when the crate is
    built with overflow checks and otherwise restarts at timestamp zero, below the
    recovered history. *)
Theorem recovered_bounds `{Profile} highest :
  (Timestamp.get highest < u64_modulus)%N →
  if (Timestamp.get highest + 1 <? u64_modulus)%N then
    ∃ o, recovered highest = Ret o ∧ read_ts o = highest ∧
      (Timestamp.get highest < Timestamp.get (alloc_commit_ts o).2)%N ∧ low_watermark o = highest
  else if overflow_checks then recovered highest = Panic
  else ∃ o, recovered highest = Ret o ∧ Timestamp.get (alloc_commit_ts o).2 = 0%N.
Proof.
  intros Hh. destruct highest as [x]. cbn in *. unfold recovered, add_u64. cbn. case_cmp.
  - run. eexists. split; [done|]. cbn. split_and!; [done|lia|done].
  - unfold overflow_checks. destruct H; [done|]. run. eexists. split; [done|]. cbn.
    assert (x + 1 = u64_modulus)%N as -> by lia. done.
Qed.

Lemma recovered_bounds_witness :
  (7 < u64_modulus)%N ∧
  ∃ o, recovered (H := true) (Timestamp.from_raw 7) = Ret o ∧ read_ts o = Timestamp.from_raw 7 ∧
    (7 < Timestamp.get (alloc_commit_ts o).2)%N ∧ low_watermark o = Timestamp.from_raw 7.
Proof. split; [done|]. by apply (recovered_bounds (H := true) (Timestamp.from_raw 7)). Defined.

End Oracle.
