(* ===== verification/CommitLog.v ===== *)
(** * The durable commit log

    [src/durable.rs]: the commit-record codec ([Module Codec]) and the log itself
    ([Module CommitLog]), a thin layer over the external [wal-db] crate, which is
    an interface here: the operations the code calls and the documented
    behaviour it relies on. *)

From S2P Require Import Prelude RustStd Types StoreTrait.

Module Codec.

(** ** Data *)

(** [struct RecoveredCommit]. *)
Record RecoveredCommit := mkCommit { commit_ts : Timestamp.t; writes : list WriteEntry }.

Definition RECORD_VERSION : byte := x01.
Definition MIN_WRITE_BYTES : N := 4 + 1.

(** ** Encoding *)

(** [len as u32]. *)
Definition as_u32 (n : nat) : N := (N.of_nat n mod 2 ^ 32)%N.

(** The closure that sizes one write, and the capacity reserved for a record. *)
Definition write_len (w : WriteEntry) : nat :=
  let '(key, value) := w in
  4 + length key + 1 + match value with None => 0 | Some v => 4 + length v end.

Definition record_capacity (ws : list WriteEntry) : nat :=
  1 + 8 + 4 + sum_list (write_len <$> ws).

(** The body of the loop over the writes: extend the buffer with one write. *)
Definition encode_write (buf : bytes) (w : WriteEntry) : bytes :=
  let '(key, value) := w in
  let buf := buf ++ to_le_bytes 4 (as_u32 (length key)) in
  let buf := buf ++ key in
  match value with
  | Some v =>
     let buf := buf ++ [x01] in
     let buf := buf ++ to_le_bytes 4 (as_u32 (length v)) in
     buf ++ v
  | None => buf ++ [x00]
  end.

Definition encode_for_log (ts : Timestamp.t) (ws : list WriteEntry) : bytes :=
  let buf := [RECORD_VERSION] in
  let buf := buf ++ to_le_bytes 8 (Timestamp.get ts) in
  let buf := buf ++ to_le_bytes 4 (as_u32 (length ws)) in
  foldl encode_write buf ws.

(** ** Decoding *)

Definition corrupt (reason : string) : TxnError.t :=
  TxnError.durability ("malformed commit record: " +:+ reason).

Definition corrupt_tag (tag : byte) : TxnError.t :=
  TxnError.durability ("malformed commit record: invalid value tag " +:+ pretty (Byte.to_N tag)).

Definition unsupported (version : byte) : TxnError.t :=
  TxnError.durability ("unsupported commit record version " +:+ pretty (Byte.to_N version)).

(** [struct Reader]. *)
Record Reader := mkReader { buf : bytes; pos : N }.

Definition reader_new (b : bytes) : Reader := {| buf := b; pos := 0 |}.

Definition buf_len (r : Reader) : N := N.of_nat (length (buf r)).

Definition remaining `{Profile} (r : Reader) : outcome N := sub_u64 (buf_len r) (pos r).

(** The slice [&buf[start..end]]: a bad range panics. *)
Definition slice (b : bytes) (start stop : N) : outcome bytes :=
  if (start <=? stop)%N && (stop <=? N.of_nat (length b))%N
  then Ret (take (N.to_nat (stop - start)) (drop (N.to_nat start) b))
  else Panic.

Definition read_bytes (r : Reader) (len : N) : fallible (bytes * Reader) :=
  let stop := (pos r + len)%N in
  if (stop <? u64_modulus)%N && (stop <=? buf_len r)%N then
    s ← slice (buf r) (pos r) stop;
    Ret (Ok (s, {| buf := buf r; pos := stop |}))
  else Ret (Err (corrupt "record ends mid-field")).

Definition read_u8 (r : Reader) : fallible (byte * Reader) :=
  '(b, r) ←? read_bytes r 1;
  b0 ← index b 0;
  Ret (Ok (b0, r)).

Definition read_u32 (r : Reader) : fallible (N * Reader) :=
  '(b, r) ←? read_bytes r 4;
  b ← mapM (index b) [0; 1; 2; 3];
  Ret (Ok (from_le_bytes b, r)).

Definition read_u64 (r : Reader) : fallible (N * Reader) :=
  '(b, r) ←? read_bytes r 8;
  b ← mapM (index b) [0; 1; 2; 3; 4; 5; 6; 7];
  Ret (Ok (from_le_bytes b, r)).

(** One turn of the decoding loop. *)
Definition decode_value (r : Reader) : fallible (option bytes * Reader) :=
  '(tag, r) ←? read_u8 r;
  match tag with
  | x00 => Ret (Ok (None, r))
  | x01 =>
     '(value_len, r) ←? read_u32 r;
     '(value, r) ←? read_bytes r value_len;
     Ret (Ok (Some value, r))
  | other => Ret (Err (corrupt_tag other))
  end.

Definition decode_write (r : Reader) : fallible (WriteEntry * Reader) :=
  '(key_len, r) ←? read_u32 r;
  '(key, r) ←? read_bytes r key_len;
  '(value, r) ←? decode_value r;
  Ret (Ok ((key, value), r)).

Fixpoint decode_writes (count : nat) (r : Reader) (acc : list WriteEntry) :
    fallible (list WriteEntry * Reader) :=
  match count with
  | O => Ret (Ok (acc, r))
  | S count =>
     '(w, r) ←? decode_write r;
     decode_writes count r (acc ++ [w])
  end.

Definition decode_commit `{Profile} (b : bytes) : fallible RecoveredCommit :=
  let r := reader_new b in
  '(version, r) ←? read_u8 r;
  if bool_decide (version ≠ RECORD_VERSION) then Ret (Err (unsupported version)) else
  '(raw_ts, r) ←? read_u64 r;
  '(count, r) ←? read_u32 r;
  rem ← remaining r;
  if (rem / MIN_WRITE_BYTES <? count)%N
  then Ret (Err (corrupt "write count exceeds record size"))
  else
  '(ws, r) ←? decode_writes (N.to_nat count) r [];
  rem ← remaining r;
  if negb (rem =? 0)%N then Ret (Err (corrupt "trailing bytes after commit record"))
  else Ret (Ok {| commit_ts := Timestamp.from_raw raw_ts; writes := ws |}).

(** ** Specification *)

(** The bytes of a value, of one write and of a record, as the format document
    lays them out. *)
Definition value_bytes (v : option bytes) : bytes :=
  match v with
  | Some v => [x01] ++ to_le_bytes 4 (N.of_nat (length v)) ++ v
  | None => [x00]
  end.

Definition write_bytes (w : WriteEntry) : bytes := encode_write [] w.

Definition record_bytes (ts : Timestamp.t) (ws : list WriteEntry) : bytes :=
  RECORD_VERSION :: to_le_bytes 8 (Timestamp.get ts) ++
  to_le_bytes 4 (as_u32 (length ws)) ++ (ws ≫= write_bytes).

(** Every length fits its field, and the record fits the address space. *)
Definition fits_u32 (n : N) : Prop := (n < 2 ^ 32)%N.
Definition fits_u64 (n : N) : Prop := (n < u64_modulus)%N.
Definition value_fits (v : option bytes) : Prop :=
  match v with None => True | Some v => fits_u32 (N.of_nat (length v)) end.

Definition write_fits (w : WriteEntry) : Prop :=
  fits_u32 (N.of_nat (length w.1)) ∧ value_fits w.2.

Record record_fits (ts : Timestamp.t) (ws : list WriteEntry) : Prop := {
  fits_ts : fits_u64 (Timestamp.get ts);
  fits_count : fits_u32 (N.of_nat (length ws));
  fits_writes : Forall write_fits ws;
  fits_total : (N.of_nat (length (encode_for_log ts ws)) < u64_modulus)%N;
}.

(** A reader that has consumed [pre] and has [rest] before it. *)
Definition reader_at (pre rest : bytes) : Reader :=
  {| buf := pre ++ rest; pos := N.of_nat (length pre) |}.

(** The two ways a read of [A] can end at [reader_at pre rest]: it fails with an
    error, or it consumes exactly the bytes [enc a] of a value that fits. *)
Definition reads {A} (fits : A → Prop) (enc : A → bytes) (m : fallible (A * Reader))
    (pre rest : bytes) : Prop :=
  (∃ e, m = Ret (Err (TxnError.durability e))) ∨
  ∃ a rest', m = Ret (Ok (a, reader_at (pre ++ enc a) rest')) ∧ rest = enc a ++ rest' ∧ fits a.


(** A record with a value and a tombstone, for the witnesses. *)
Definition sample_writes : list WriteEntry := [([x61], Some [x62; x63]); ([x64], None)].
Definition sample_commit : RecoveredCommit := mkCommit (Timestamp.from_raw 7) sample_writes.

(** ** Lemmas: encoding *)

#[local] Arguments to_le_bytes : simpl never.
#[local] Arguments from_le_bytes : simpl never.

Lemma encode_write_app buf w : encode_write buf w = buf ++ write_bytes w.
Proof.
  destruct w as [key [v|]]; unfold write_bytes, encode_write;
    rewrite <-?app_assoc; cbn; by rewrite <-?app_assoc.
Qed.

Lemma foldl_encode_write ws b : foldl encode_write b ws = b ++ (ws ≫= write_bytes).
Proof.
  revert b. induction ws as [|w ws IH]; intros b; cbn; [by rewrite app_nil_r|].
  by rewrite IH, encode_write_app, <-app_assoc.
Qed.

Lemma encode_for_log_bytes ts ws : encode_for_log ts ws = record_bytes ts ws.
Proof.
  unfold encode_for_log, record_bytes. rewrite foldl_encode_write. by rewrite <-!app_assoc.
Qed.

Lemma length_write_bytes w : length (write_bytes w) = write_len w.
Proof.
  destruct w as [key [v|]]; unfold write_bytes, write_len, encode_write;
    rewrite !length_app, ?length_to_le_bytes; cbn; rewrite ?length_app; lia.
Qed.

Lemma write_bytes_min w : 5 ≤ length (write_bytes w).
Proof. rewrite length_write_bytes. destruct w as [key [v|]]; cbn; lia. Qed.

Lemma length_writes_bytes ws : length (ws ≫= write_bytes) = sum_list (write_len <$> ws).
Proof.
  induction ws as [|w ws IH]; cbn; [done|]. by rewrite length_app, length_write_bytes, IH.
Qed.

Lemma as_u32_small n : (N.of_nat n < 2 ^ 32)%N → as_u32 n = N.of_nat n.
Proof. apply N.mod_small. Qed.

Lemma as_u32_bound n : (as_u32 n < 2 ^ 32)%N.
Proof. apply N.mod_lt. done. Qed.

(** ** Lemmas: reading *)

Section reading.
Implicit Types pre rest c : bytes.

Lemma reader_at_advance pre c rest :
  {| buf := pre ++ c ++ rest; pos := N.of_nat (length pre) + N.of_nat (length c) |} =
  reader_at (pre ++ c) rest.
Proof. unfold reader_at. rewrite <-app_assoc, length_app. f_equal. lia. Qed.

Lemma slice_middle pre c rest :
  slice (pre ++ c ++ rest) (N.of_nat (length pre))
    (N.of_nat (length pre) + N.of_nat (length c)) = Ret c.
Proof.
  unfold slice. rewrite !length_app.
  destruct (N.leb_spec (N.of_nat (length pre)) (N.of_nat (length pre) + N.of_nat (length c))); [|lia].
  destruct (N.leb_spec (N.of_nat (length pre) + N.of_nat (length c))
    (N.of_nat (length pre + (length c + length rest)))); [|lia]. cbn [andb].
  replace (_ + _ - _)%N with (N.of_nat (length c)) by lia.
  by rewrite !Nat2N.id, drop_app_length, take_app_length.
Qed.

(** Reading [c] when it is next. *)
Lemma read_bytes_next pre c rest :
  (N.of_nat (length (pre ++ c ++ rest)) < u64_modulus)%N →
  read_bytes (reader_at pre (c ++ rest)) (N.of_nat (length c)) =
    Ret (Ok (c, reader_at (pre ++ c) rest)).
Proof.
  intros Hlen. unfold read_bytes, buf_len. cbn [buf pos reader_at].
  rewrite !length_app in Hlen. rewrite !length_app.
  destruct (N.ltb_spec (N.of_nat (length pre) + N.of_nat (length c)) u64_modulus); [|lia].
  destruct (N.leb_spec (N.of_nat (length pre) + N.of_nat (length c))
    (N.of_nat (length pre + (length c + length rest)))); [|lia]. cbn [andb].
  rewrite slice_middle. run. by rewrite reader_at_advance.
Qed.

(** A read either fails or consumes exactly what it was asked for. *)
Lemma read_bytes_cases pre rest n :
  (∃ e, read_bytes (reader_at pre rest) n = Ret (Err (TxnError.durability e))) ∨
  ∃ c rest', read_bytes (reader_at pre rest) n = Ret (Ok (c, reader_at (pre ++ c) rest')) ∧
    rest = c ++ rest' ∧ N.of_nat (length c) = n.
Proof.
  unfold read_bytes, buf_len. cbn [buf pos reader_at].
  destruct (N.ltb_spec (N.of_nat (length pre) + n) u64_modulus); cbn [andb]; [|by left; eexists].
  destruct (N.leb_spec (N.of_nat (length pre) + n) (N.of_nat (length (pre ++ rest))))
    as [Hle|]; [|by left; eexists].
  right. rewrite length_app in Hle.
  assert (Hc : rest = take (N.to_nat n) rest ++ drop (N.to_nat n) rest) by by rewrite take_drop.
  assert (Hn : N.of_nat (length (take (N.to_nat n) rest)) = n) by (rewrite length_take; lia).
  set (c := take (N.to_nat n) rest) in *. set (rest' := drop (N.to_nat n) rest) in *.
  exists c, rest'. rewrite Hc, <-Hn, slice_middle. run. by rewrite reader_at_advance.
Qed.

(** Chaining reads. *)
Lemma reads_bind {A B} fitsA fitsB (encA : A → bytes) (encB : B → bytes) m
    (f : A * Reader → fallible (B * Reader)) pre rest :
  reads fitsA encA m pre rest →
  (∀ a rest', fitsA a →
     (∃ e, f (a, reader_at (pre ++ encA a) rest') = Ret (Err (TxnError.durability e))) ∨
     ∃ b restB restC, f (a, reader_at (pre ++ encA a) rest') =
       Ret (Ok (b, reader_at ((pre ++ encA a) ++ restB) restC)) ∧
       rest' = restB ++ restC ∧ encB b = encA a ++ restB ∧ fitsB b) →
  reads fitsB encB (try_bind m f) pre rest.
Proof.
  intros [[e ->]|(a & rest' & -> & -> & Ha)] Hf.
  { left. by exists e. }
  unfold try_bind. run.
  destruct (Hf a rest' Ha) as [[e ->]|(b & rB & rC & -> & -> & HB & Hb)].
  { left. by exists e. }
  right. exists b, rC. rewrite HB, <-!app_assoc. done.
Qed.

Lemma read_u8_cases pre rest : reads (λ _, True) (λ b, [b]) (read_u8 (reader_at pre rest)) pre rest.
Proof.
  unfold read_u8, reads, try_bind.
  destruct (read_bytes_cases pre rest 1) as [[e ->]|(c & rest' & -> & -> & Hlen)].
  { left. by exists e. }
  destruct c as [|b [|]]; cbn in Hlen; try lia. right. by exists b, rest'.
Qed.

Lemma read_u32_cases pre rest :
  reads fits_u32 (to_le_bytes 4) (read_u32 (reader_at pre rest)) pre rest.
Proof.
  unfold read_u32, reads, try_bind.
  destruct (read_bytes_cases pre rest 4) as [[e ->]|(c & rest' & -> & -> & Hlen)].
  { left. by exists e. }
  right. exists (from_le_bytes c), rest'.
  assert (length c = 4) as Hc by lia.
  assert (to_le_bytes 4 (from_le_bytes c) = c) as -> by (rewrite <-Hc; apply to_from_le_bytes).
  split_and!; [do 5 (destruct c as [|? c]; try done)|done|].
  pose proof (from_le_bytes_bound c) as Hb. by rewrite Hc in Hb.
Qed.

Lemma read_u64_cases pre rest :
  reads fits_u64 (to_le_bytes 8) (read_u64 (reader_at pre rest)) pre rest.
Proof.
  unfold read_u64, reads, try_bind.
  destruct (read_bytes_cases pre rest 8) as [[e ->]|(c & rest' & -> & -> & Hlen)].
  { left. by exists e. }
  right. exists (from_le_bytes c), rest'.
  assert (length c = 8) as Hc by lia.
  assert (to_le_bytes 8 (from_le_bytes c) = c) as -> by (rewrite <-Hc; apply to_from_le_bytes).
  split_and!; [do 9 (destruct c as [|? c]; try done)|done|].
  pose proof (from_le_bytes_bound c) as Hb. by rewrite Hc in Hb.
Qed.

(** The same, when the field that comes next is known. *)
Lemma read_u8_next pre b rest :
  (N.of_nat (length (pre ++ [b] ++ rest)) < u64_modulus)%N →
  read_u8 (reader_at pre ([b] ++ rest)) = Ret (Ok (b, reader_at (pre ++ [b]) rest)).
Proof.
  intros Hlen. unfold read_u8. change 1%N with (N.of_nat (length [b])).
  by rewrite (read_bytes_next pre [b] rest).
Qed.

Lemma mapM_index (c : bytes) : mapM (index c) (seq 0 (length c)) = Ret c.
Proof.
  assert (∀ c1 c2, mapM (index (c1 ++ c2)) (seq (length c1) (length c2)) = Ret c2) as Hgen.
  { intros c1 c2. revert c1. induction c2 as [|b c2 IH]; intros c1; [done|]. cbn.
    rewrite (index_Ret _ _ b) by by apply list_lookup_middle. run.
    specialize (IH (c1 ++ [b])). rewrite <-app_assoc, length_app, Nat.add_comm in IH.
    cbn in IH. by rewrite IH. }
  apply (Hgen [] c).
Qed.

Lemma read_u32_next pre x rest :
  (x < 2 ^ 32)%N →
  (N.of_nat (length (pre ++ to_le_bytes 4 x ++ rest)) < u64_modulus)%N →
  read_u32 (reader_at pre (to_le_bytes 4 x ++ rest)) =
    Ret (Ok (x, reader_at (pre ++ to_le_bytes 4 x) rest)).
Proof.
  intros Hx Hlen. unfold read_u32, try_bind.
  change 4%N with (N.of_nat (length (to_le_bytes 4 x))). rewrite read_bytes_next by done.
  run. change [0; 1; 2; 3] with (seq 0 (length (to_le_bytes 4 x))).
  rewrite mapM_index. run. by rewrite from_to_le_bytes.
Qed.

Lemma read_u64_next pre x rest :
  (x < u64_modulus)%N →
  (N.of_nat (length (pre ++ to_le_bytes 8 x ++ rest)) < u64_modulus)%N →
  read_u64 (reader_at pre (to_le_bytes 8 x ++ rest)) =
    Ret (Ok (x, reader_at (pre ++ to_le_bytes 8 x) rest)).
Proof.
  intros Hx Hlen. unfold read_u64, try_bind.
  change 8%N with (N.of_nat (length (to_le_bytes 8 x))). rewrite read_bytes_next by done.
  run. change [0; 1; 2; 3; 4; 5; 6; 7] with (seq 0 (length (to_le_bytes 8 x))).
  rewrite mapM_index. run. by rewrite from_to_le_bytes.
Qed.

End reading.

(** ** Lemmas: decoding *)

Lemma to_le_bytes_as_u32 n : to_le_bytes 4 (as_u32 n) = to_le_bytes 4 (N.of_nat n).
Proof. apply (to_le_bytes_mod 4). Qed.

Lemma write_bytes_fields key v :
  write_bytes (key, v) = to_le_bytes 4 (N.of_nat (length key)) ++ key ++ value_bytes v.
Proof.
  unfold write_bytes, encode_write. rewrite !to_le_bytes_as_u32.
  destruct v as [v|]; cbn [value_bytes]; [|by rewrite <-!app_assoc].
  by rewrite to_le_bytes_as_u32, <-!app_assoc.
Qed.

(** Decoding either reports an error or consumes exactly the encoding of what it
    returns; in particular it never panics. *)
Lemma decode_value_cases pre rest :
  reads value_fits value_bytes (decode_value (reader_at pre rest)) pre rest.
Proof.
  unfold decode_value. eapply reads_bind; [apply read_u8_cases|]. intros tag rest1 _. cbn.
  destruct tag; try by left; eexists.
  - right. exists None, [], rest1. by rewrite app_nil_r.
  - destruct (read_u32_cases (pre ++ [x01]) rest1) as [[e ->]|(n & rest2 & -> & -> & Hn)].
    { left. by exists e. }
    unfold try_bind. run.
    destruct (read_bytes_cases ((pre ++ [x01]) ++ to_le_bytes 4 n) rest2 n)
      as [[e ->]|(c & rest3 & -> & -> & Hlen)].
    { left. by exists e. }
    right. exists (Some c), (to_le_bytes 4 n ++ c), rest3. run. cbn [value_bytes value_fits].
    by rewrite Hlen, <-!app_assoc.
Qed.

Lemma decode_write_cases pre rest :
  reads write_fits write_bytes (decode_write (reader_at pre rest)) pre rest.
Proof.
  unfold decode_write. eapply reads_bind; [apply read_u32_cases|]. intros n rest1 Hn. cbn beta iota.
  destruct (read_bytes_cases (pre ++ to_le_bytes 4 n) rest1 n)
    as [[e ->]|(key & rest2 & -> & -> & Hlen)].
  { left. by exists e. }
  unfold try_bind. run.
  destruct (decode_value_cases ((pre ++ to_le_bytes 4 n) ++ key) rest2)
    as [[e ->]|(v & rest3 & -> & -> & Hv)].
  { left. by exists e. }
  right. exists (key, v), (key ++ value_bytes v), rest3. run.
  unfold write_fits. cbn [fst snd]. by rewrite write_bytes_fields, Hlen, <-!app_assoc.
Qed.

Lemma decode_writes_cases count pre rest acc :
  (∃ e, decode_writes count (reader_at pre rest) acc = Ret (Err (TxnError.durability e))) ∨
  ∃ ws rest', decode_writes count (reader_at pre rest) acc =
      Ret (Ok (acc ++ ws, reader_at (pre ++ (ws ≫= write_bytes)) rest')) ∧
    rest = (ws ≫= write_bytes) ++ rest' ∧ length ws = count ∧ Forall write_fits ws.
Proof.
  revert pre rest acc. induction count as [|count IH]; intros pre rest acc; cbn [decode_writes].
  { right. exists [], rest. cbn. by rewrite !app_nil_r. }
  destruct (decode_write_cases pre rest) as [[e ->]|(w & rest1 & -> & -> & Hw)].
  { left. by exists e. }
  unfold try_bind. run.
  destruct (IH (pre ++ write_bytes w) rest1 (acc ++ [w])) as [[e ->]|(ws & rest2 & -> & -> & <- & Hws)].
  { left. by exists e. }
  right. exists (w :: ws), rest2. cbn. rewrite <-!app_assoc.
  split_and!; auto.
Qed.

(** Forward: a well-sized encoding that comes next is decoded. *)
Lemma decode_value_next pre v rest :
  value_fits v →
  (N.of_nat (length (pre ++ value_bytes v ++ rest)) < u64_modulus)%N →
  decode_value (reader_at pre (value_bytes v ++ rest)) =
    Ret (Ok (v, reader_at (pre ++ value_bytes v) rest)).
Proof.
  intros Hv Hlen. destruct v as [v|]; unfold decode_value; cbn [value_bytes] in *.
  - rewrite <-!(app_assoc [x01]), <-(app_assoc (to_le_bytes 4 _)) in *.
    rewrite read_u8_next by done. unfold try_bind. run. cbn beta iota.
    rewrite read_u32_next; [|done|by rewrite <-app_assoc]. run.
    rewrite read_bytes_next by (by rewrite <-!app_assoc). run. by rewrite <-!app_assoc.
  - rewrite read_u8_next by done. done.
Qed.

Lemma decode_write_next pre w rest :
  write_fits w →
  (N.of_nat (length (pre ++ write_bytes w ++ rest)) < u64_modulus)%N →
  decode_write (reader_at pre (write_bytes w ++ rest)) =
    Ret (Ok (w, reader_at (pre ++ write_bytes w) rest)).
Proof.
  destruct w as [key v]. intros [Hk Hv] Hlen. cbn in Hk, Hv.
  rewrite write_bytes_fields in *. rewrite <-!app_assoc in *. unfold decode_write.
  rewrite read_u32_next by done. unfold try_bind. run.
  rewrite read_bytes_next by (by rewrite <-!app_assoc). run.
  rewrite decode_value_next; [|done|by rewrite <-!app_assoc]. run. by rewrite <-!app_assoc.
Qed.

Lemma decode_writes_next ws pre rest acc :
  Forall write_fits ws →
  (N.of_nat (length (pre ++ (ws ≫= write_bytes) ++ rest)) < u64_modulus)%N →
  decode_writes (length ws) (reader_at pre ((ws ≫= write_bytes) ++ rest)) acc =
    Ret (Ok (acc ++ ws, reader_at (pre ++ (ws ≫= write_bytes)) rest)).
Proof.
  intros Hfit. revert pre acc. induction Hfit as [|w ws Hw _ IH]; intros pre acc Hlen; cbn.
  { by rewrite !app_nil_r. }
  cbn in Hlen. rewrite <-app_assoc in *. rewrite decode_write_next by done. unfold try_bind. run.
  rewrite IH by (by rewrite <-!app_assoc). by rewrite <-!app_assoc.
Qed.

Lemma remaining_at `{Profile} pre rest : remaining (reader_at pre rest) = Ret (N.of_nat (length rest)).
Proof.
  unfold remaining, buf_len. cbn [buf pos reader_at]. rewrite length_app, sub_u64_ok by lia.
  f_equal. lia.
Qed.

(** A count that the writes themselves justify passes the bound check. *)
Lemma writes_count_bound ws rest :
  (N.of_nat (length ws) ≤ N.of_nat (length ((ws ≫= write_bytes) ++ rest)) / MIN_WRITE_BYTES)%N.
Proof.
  apply N.div_le_lower_bound; [done|]. change MIN_WRITE_BYTES with 5%N. rewrite length_app.
  enough (5 * length ws ≤ length (ws ≫= write_bytes)) by lia.
  induction ws as [|w ws IH]; cbn; [done|].
  rewrite length_app. pose proof (write_bytes_min w). lia.
Qed.

(** *** Records *)

Section records.
Context `{Profile}.

Lemma decode_commit_next ts ws rest :
  fits_u64 (Timestamp.get ts) → fits_u32 (N.of_nat (length ws)) → Forall write_fits ws →
  (N.of_nat (length (encode_for_log ts ws ++ rest)) < u64_modulus)%N →
  decode_commit (encode_for_log ts ws ++ rest) =
    Ret (if (N.of_nat (length rest) =? 0)%N then Ok (mkCommit ts ws)
         else Err (corrupt "trailing bytes after commit record")).
Proof.
  intros Hts Hcount Hws Hlen. rewrite encode_for_log_bytes in *. unfold record_bytes in *.
  rewrite as_u32_small in * by done.
  cbn [app] in *. rewrite <-!app_assoc in *.
  set (body := (ws ≫= write_bytes)) in *. unfold decode_commit.
  change (reader_new (?x :: ?l)) with (reader_at [] ([x] ++ l)).
  rewrite read_u8_next by done. unfold try_bind. run. rewrite bool_decide_false by tauto. run.
  rewrite read_u64_next by done. run. rewrite read_u32_next by (done || by rewrite <-!app_assoc).
  run. rewrite remaining_at. run.
  pose proof (writes_count_bound ws rest) as Hbound. fold body in Hbound.
  case_cmp; [lia|]. run. rewrite Nat2N.id, decode_writes_next by (done || by rewrite <-!app_assoc).
  run. rewrite remaining_at. run. case_cmp; cbn [negb]; [|done]. by destruct ts.
Qed.

Lemma decode_commit_cases b :
  (∃ e, decode_commit b = Ret (Err (TxnError.durability e))) ∨
  ∃ c, decode_commit b = Ret (Ok c) ∧ b = encode_for_log (commit_ts c) (writes c) ∧
    fits_u64 (Timestamp.get (commit_ts c)) ∧ fits_u32 (N.of_nat (length (writes c))) ∧
    Forall write_fits (writes c).
Proof.
  unfold decode_commit. change (reader_new b) with (reader_at [] b).
  destruct (read_u8_cases [] b) as [[e ->]|(version & r1 & -> & -> & _)]; [by left; eexists|].
  unfold try_bind. run. case_bool_decide as Hversion; [by left; eexists|]. cbn [app].
  destruct (read_u64_cases [version] r1) as [[e ->]|(ts & r2 & -> & -> & Hts)]; [by left; eexists|].
  run. destruct (read_u32_cases ([version] ++ to_le_bytes 8 ts) r2)
    as [[e ->]|(count & r3 & -> & -> & Hcount)]; [by left; eexists|].
  run. rewrite remaining_at. run. case_cmp; [by left; eexists|]. run.
  edestruct (decode_writes_cases (N.to_nat count)) as [[e ->]|(ws & r4 & -> & -> & Hlen & Hws)];
    [by left; eexists|].
  run. rewrite remaining_at. run. case_cmp; cbn [negb]; [|by left; eexists].
  right. eexists. split; [done|]. cbn [commit_ts writes].
  assert (N.of_nat (length ws) = count) as Hn by lia.
  destruct r4; [|cbn in *; lia]. rewrite app_nil_r. cbn [app].
  split_and!; [|done|by rewrite Hn|done].
  subst version. rewrite encode_for_log_bytes. unfold record_bytes. by rewrite to_le_bytes_as_u32, Hn.
Qed.

Lemma decode_record_fits ts ws :
  record_fits ts ws → decode_commit (encode_for_log ts ws) = Ret (Ok (mkCommit ts ws)).
Proof.
  intros [Hts Hcount Hws Hlen]. rewrite <-(app_nil_r (encode_for_log ts ws)).
  by rewrite decode_commit_next by (done || by rewrite app_nil_r).
Qed.

End records.

(** A length one too large for 32 bits. *)
Lemma too_long : ∃ n : nat, N.of_nat n = (2 ^ 32)%N.
Proof. exists (N.to_nat (2 ^ 32)). apply N2Nat.id. Qed.

Lemma sample_fits : record_fits (Timestamp.from_raw 7) sample_writes.
Proof. split; [done|done| |done]. repeat (apply Forall_cons_2 || apply Forall_nil_2); by split. Qed.

(** ** Properties *)

Section properties.
Context `{Profile}.

(** C31: The codec is a bijection. A byte string that fits in memory decodes to a
    commit exactly when that commit's lengths fit their fields and the string is
    its encoding: encoding then decoding gives the commit back, and decoding then
    encoding gives the bytes back. *)
Theorem decode_iff_encoded b c :
  (N.of_nat (length b) < u64_modulus)%N →
  decode_commit b = Ret (Ok c) ↔
    record_fits (commit_ts c) (writes c) ∧ b = encode_for_log (commit_ts c) (writes c).
Proof.
  intros Hlen. split.
  - destruct (decode_commit_cases b) as [[e ->]|(c' & -> & Hb & ? & ? & ?)]; [done|].
    intros [= <-]. split; [|done]. split; try done. by rewrite <-Hb.
  - intros [Hfit ->]. rewrite decode_record_fits by done. by destruct c.
Qed.


(** A damaged length is always noticed. Cutting bytes off the end of a record,
    or adding bytes after it, makes the decoder report a durability error; it
    never returns another commit. *)
Theorem wrong_length_rejected ts ws b rest :
  record_fits ts ws → rest ≠ [] →
  b ++ rest = encode_for_log ts ws ∨
    b = encode_for_log ts ws ++ rest ∧ (N.of_nat (length b) < u64_modulus)%N →
  ∃ detail, decode_commit b = Ret (Err (TxnError.durability detail)).
Proof.
  intros Hfit Hrest Hb.
  assert (Hlen0 : length rest ≠ 0) by by destruct rest.
  destruct Hb as [Hb|[-> Hlen]].
  - destruct (decode_commit_cases b) as [?|(c & _ & Eb & Hts & Hcount & Hws)]; [done|].
    pose proof (decode_record_fits ts ws Hfit) as Hd. rewrite <-Hb, Eb in Hd.
    rewrite decode_commit_next in Hd; [|done..|].
    + case_cmp; [lia|done].
    + rewrite <-Eb, Hb. by apply fits_total.
  - destruct Hfit. rewrite decode_commit_next by done. case_cmp; [lia|]. by eexists.
Qed.

(** The capacity reserved for a record is exact: the buffer of
    [encode_for_log] never grows, and is full at the end. *)
Lemma record_capacity_exact ts ws :
  length (encode_for_log ts ws) = record_capacity ws.
Proof.
  rewrite encode_for_log_bytes. unfold record_bytes, record_capacity.
  cbn [length]. rewrite !length_app, !length_to_le_bytes, length_writes_bytes. lia.
Qed.

(** C37: Lengths are stored in 32 bits without a check. A batch with more than
    2^32 - 1 writes, or with a key or value that long, is written to the log as a
    record that never decodes to that batch. *)
Theorem oversized_not_recovered ts ws :
  ¬ (fits_u32 (N.of_nat (length ws)) ∧ Forall write_fits ws) →
  decode_commit (encode_for_log ts ws) ≠ Ret (Ok (mkCommit ts ws)).
Proof.
  intros Hover E. destruct (decode_commit_cases (encode_for_log ts ws)) as [[e E']|(c & E' & _ & _ & ? & ?)].
  - by rewrite E' in E.
  - rewrite E' in E. injection E as ->. by apply Hover.
Qed.

End properties.

Lemma decode_iff_encoded_witness :
  (N.of_nat (length (encode_for_log (Timestamp.from_raw 7) sample_writes)) < u64_modulus)%N ∧
  (decode_commit (H := true) (encode_for_log (Timestamp.from_raw 7) sample_writes) =
     Ret (Ok sample_commit) ↔
   record_fits (Timestamp.from_raw 7) sample_writes ∧
   encode_for_log (Timestamp.from_raw 7) sample_writes =
     encode_for_log (Timestamp.from_raw 7) sample_writes).
Proof.
  split; [done|].
  apply (decode_iff_encoded (H := true) (encode_for_log (Timestamp.from_raw 7) sample_writes)
    sample_commit). done.
Defined.

Lemma wrong_length_rejected_witness :
  record_fits (Timestamp.from_raw 7) sample_writes ∧
  ∃ detail, decode_commit (H := true) (encode_for_log (Timestamp.from_raw 7) sample_writes ++ [x00]) =
    Ret (Err (TxnError.durability detail)).
Proof.
  split; [apply sample_fits|].
  apply (wrong_length_rejected (H := true) (Timestamp.from_raw 7) sample_writes _ [x00]);
    [apply sample_fits|done|right; split; done].
Defined.

Lemma oversized_not_recovered_witness :
  ∃ huge : list WriteEntry,
  ¬ (fits_u32 (N.of_nat (length huge)) ∧ Forall write_fits huge) ∧
  decode_commit (H := true) (encode_for_log (Timestamp.from_raw 1) huge) ≠
    Ret (Ok (mkCommit (Timestamp.from_raw 1) huge)).
Proof.
  destruct too_long as [n Hn]. exists [(replicate n x00, None)].
  assert (¬ (fits_u32 (N.of_nat (length [(replicate n x00, None : option bytes)])) ∧
    Forall write_fits [(replicate n x00, None)])) as Hover.
  { intros [_ [[Hk _] _]%Forall_cons_1]. cbn [fst] in Hk. rewrite length_replicate, Hn in Hk.
    by apply N.lt_irrefl in Hk. }
  split; [exact Hover|]. exact (oversized_not_recovered (H := true) (Timestamp.from_raw 1) _ Hover).
Defined.

End Codec.

(** ** The write-ahead log crate

    [wal_db::Wal] is external code: an interface of the calls [src/durable.rs]
    makes. [Disk] is what survives a crash; opening it gives a log or an error
    message. An entry of the iterator is its data, or an error. *)
Class Wal (Disk W : Type) := {
  wal_open : Disk → string + W;
  wal_iter : W → string + list (string + bytes);
  wal_append_and_sync : W → bytes → W * (string + N);
  wal_disk : W → Disk;
}.

(** The behaviour the code relies on: an iteration that reports no error yields
    the records of the log; a successful append adds its record, a failed one
    adds at most its record; what is on the disk reopens to the same records. *)
Class WalLaws (Disk W : Type) `{Wal Disk W} := {
  wal_records : W → list bytes;
  law_wal_iter w es datas :
    wal_iter w = inr es → es = inr <$> datas → datas = wal_records w;
  law_wal_append_ok w r w' lsn :
    wal_append_and_sync w r = (w', inr lsn) → wal_records w' = wal_records w ++ [r];
  law_wal_append_err w r w' e :
    wal_append_and_sync w r = (w', inl e) →
    wal_records w' = wal_records w ∨ wal_records w' = wal_records w ++ [r];
  law_wal_reopen w w' :
    wal_open (wal_disk w) = inr w' → wal_records w' = wal_records w;
}.

(** The log in memory: one possible implementation, whose appends succeed while
    there is [room] for the record. *)
Record MemWal := mkMemWal { mw_records : list bytes; mw_room : nat }.

#[export] Instance mem_wal : Wal MemWal MemWal := {|
  wal_open := inr;
  wal_iter := λ w, inr (inr <$> mw_records w);
  wal_append_and_sync := λ w r,
    match mw_room w with
    | O => (w, inl "no space left on device")
    | S room => (mkMemWal (mw_records w ++ [r]) room, inr (N.of_nat (length (mw_records w))))
    end;
  wal_disk := λ w, w;
|}.

#[export] Program Instance mem_wal_laws : WalLaws MemWal MemWal := {|
  wal_records := mw_records;
|}.
Next Obligation.
  intros w es datas [= <-]. revert datas. generalize (mw_records w).
  induction l as [|r l IH]; intros [|d datas] E; try done. cbn in E. injection E as -> E.
  f_equal. by apply IH.
Qed.
Next Obligation. intros [rs [|n]] r w' lsn E; cbn in E; [done|]. by injection E as <- _. Qed.
Next Obligation. intros [rs [|n]] r w' e E; cbn in E; [|done]. injection E as <- _. by left. Qed.
Next Obligation. by intros w w' [= <-]. Qed.

Module CommitLog.
Section log.
Context `{Profile} {Disk W : Type} `{Wal Disk W}.

(** [struct CommitLog]. *)
Record t := mk { wal : W }.

(** [.map_err(TxnError::durability)]. *)
Definition durable {A} (m : string + A) : Result A :=
  match m with inl e => Err (TxnError.durability e) | inr a => Ok a end.

(** The loop of [open] over the entries. *)
Fixpoint decode_entries (entries : list (string + bytes))
    (recovered : list Codec.RecoveredCommit) : fallible (list Codec.RecoveredCommit) :=
  match entries with
  | [] => Ret (Ok recovered)
  | entry :: entries =>
     data ←? Ret (durable entry);
     commit ←? Codec.decode_commit data;
     decode_entries entries (recovered ++ [commit])
  end.

Definition open (path : Disk) : fallible (t * list Codec.RecoveredCommit) :=
  w ←? Ret (durable (wal_open path));
  entries ←? Ret (durable (wal_iter w));
  recovered ←? decode_entries entries [];
  Ret (Ok ({| wal := w |}, recovered)).

Definition append_committed (l : t) (record : bytes) : t * Result unit :=
  let '(w, r) := wal_append_and_sync (wal l) record in
  ({| wal := w |}, (λ _, tt) <$> durable r).

(** *** Specification *)

Definition record_of (c : Codec.RecoveredCommit) : bytes :=
  Codec.encode_for_log (Codec.commit_ts c) (Codec.writes c).

Definition commit_fits (c : Codec.RecoveredCommit) : Prop :=
  Codec.record_fits (Codec.commit_ts c) (Codec.writes c).

Context `{!WalLaws Disk W}.

(** The log holds exactly the commits [cs], in this order. *)
Definition holds (l : t) (cs : list Codec.RecoveredCommit) : Prop :=
  wal_records (wal l) = record_of <$> cs ∧ Forall commit_fits cs.

(** And a disk: a log opened over it holds them. *)
Definition disk_holds (d : Disk) (cs : list Codec.RecoveredCommit) : Prop :=
  Forall commit_fits cs ∧ ∀ w, wal_open d = inr w → wal_records w = record_of <$> cs.

(** *** Lemmas *)

Lemma decode_commit_fits c : commit_fits c → Codec.decode_commit (record_of c) = Ret (Ok c).
Proof using Type.
  intros [Hts Hcount Hws Hlen]. rewrite <-(app_nil_r (record_of c)). unfold record_of.
  rewrite Codec.decode_commit_next; [by destruct c|done..|by rewrite app_nil_r].
Qed.

Lemma decode_entries_fits cs acc :
  Forall commit_fits cs →
  decode_entries (inr <$> (record_of <$> cs)) acc = Ret (Ok (acc ++ cs)).
Proof using Type.
  intros Hcs. revert acc. induction Hcs as [|c cs Hc _ IH]; intros acc; cbn.
  { by rewrite app_nil_r. }
  rewrite decode_commit_fits by done. unfold try_bind. run. rewrite IH. by rewrite <-app_assoc.
Qed.

(** Decoding the entries fails, or every entry was readable. *)
Lemma decode_entries_cases entries acc :
  (∃ e, decode_entries entries acc = Ret (Err (TxnError.durability e))) ∨
  ∃ datas, entries = inr <$> datas.
Proof using Type.
  revert acc. induction entries as [|[e|d] entries IH]; intros acc.
  - right. by exists [].
  - left. by exists e.
  - cbn. unfold try_bind. run.
    destruct (Codec.decode_commit_cases d) as [[e ->]|(c & -> & _)]; [left; by exists e|]. run.
    destruct (IH (acc ++ [c])) as [[e ->]|[datas ->]]; [left; by exists e|].
    right. by exists (d :: datas).
Qed.

(** What the log left on the disk opens to its records. *)
Lemma holds_disk l cs : holds l cs → disk_holds (wal_disk (wal l)) cs.
Proof using Type*.
  intros [Hrec Hfits]. split; [done|]. intros w Hw. by rewrite (law_wal_reopen _ _ Hw).
Qed.

(** Opening a disk reports an I/O error or gives back its commits. *)
Lemma open_disk d cs :
  disk_holds d cs →
  (∃ e, open d = Ret (Err (TxnError.durability e))) ∨
  ∃ l, open d = Ret (Ok (l, cs)) ∧ holds l cs.
Proof using Type*.
  intros [Hfits Hrec]. unfold open. destruct (wal_open d) as [e|w] eqn:Hopen; [left; by exists e|].
  specialize (Hrec w eq_refl). unfold try_bind. run. cbn [durable].
  destruct (wal_iter w) as [e|entries] eqn:Hiter; [left; by exists e|]. run. cbn [durable].
  destruct (decode_entries_cases entries []) as [[e ->]|[datas ->]]; [left; by exists e|].
  pose proof (law_wal_iter _ _ _ Hiter eq_refl) as ->. rewrite Hrec.
  rewrite decode_entries_fits by done. right. by eexists.
Qed.

Lemma append_committed_ok l cs c l' :
  holds l cs → commit_fits c →
  append_committed l (record_of c) = (l', Ok tt) → holds l' (cs ++ [c]).
Proof using Type*.
  intros [Hrec Hfits] Hc. unfold append_committed.
  destruct (wal_append_and_sync (wal l) (record_of c)) as [w [e|lsn]] eqn:E; [done|].
  intros [= <-]. split; cbn.
  - rewrite (law_wal_append_ok _ _ _ _ E), Hrec, fmap_app. done.
  - apply Forall_app. auto.
Qed.

Lemma append_committed_err l cs c l' e :
  holds l cs → commit_fits c →
  append_committed l (record_of c) = (l', Err e) →
  (∃ detail, e = TxnError.durability detail) ∧ (holds l' cs ∨ holds l' (cs ++ [c])).
Proof using Type*.
  intros [Hrec Hfits] Hc. unfold append_committed.
  destruct (wal_append_and_sync (wal l) (record_of c)) as [w [d|lsn]] eqn:E; [|done].
  intros [= <- <-]. split; [by exists d|]. destruct (law_wal_append_err _ _ _ _ E) as [Hw|Hw].
  - left. split; cbn; [by rewrite Hw|done].
  - right. split; cbn; [by rewrite Hw, Hrec, fmap_app|]. apply Forall_app. auto.
Qed.

End log.
Arguments t : clear implicits.
End CommitLog.
