(* ===== verification/History.v ===== *)
(** * Commit histories

    The abstract state of the database: the list of commits it has applied, in
    the order the store applied them. What a snapshot reads, and whether a key
    changed after a snapshot, are functions of the history alone; [Inner] and
    [System] relate the store, the oracle and the log to it. *)

From S2P Require Import Prelude RustStd Types StoreTrait CommitLog.

(** ** Definitions *)

Abbreviation Commit := Codec.RecoveredCommit.
Abbreviation History := (list Codec.RecoveredCommit).

Definition ts_of (c : Commit) : N := Timestamp.get (Codec.commit_ts c).

Definition writes_map (c : Commit) : gmap bytes (option bytes) := list_to_map (Codec.writes c).

(** The value of [k] in the snapshot at [t], and whether it changed after [t]. *)
Definition hist_view (h : History) (k : bytes) (t : Timestamp.t) : option bytes :=
  foldl (λ old c, committed_view (Codec.writes c) (Codec.commit_ts c) k t old) None h.

Definition hist_changed (h : History) (k : bytes) (t : Timestamp.t) : bool :=
  foldl (λ old c, committed_changed (Codec.writes c) (Codec.commit_ts c) k t old) false h.

(** The value of a key after every commit of a history, in order. *)
Definition hist_now (h : History) (k : bytes) : option bytes :=
  foldl (λ old c, match writes_map c !! k with Some v => v | None => old end) None h.

(** The commits a snapshot at [t] sees. *)
Definition visible (t : Timestamp.t) (h : History) : History :=
  filter (λ c, (ts_of c ≤ Timestamp.get t)%N) h.

Definition touches (k : bytes) (c : Commit) : Prop := is_Some (writes_map c !! k).

#[export] Instance touches_dec k c : Decision (touches k c).
Proof. unfold touches. apply _. Defined.

(** The commits that wrote [k], oldest first. *)
Definition writers (k : bytes) (h : History) : History := filter (touches k) h.

(** Timestamps are unique, every batch writes a key once, and the commits of one
    key were applied in timestamp order. *)
Record history_wf (h : History) : Prop := {
  hwf_unique : NoDup (ts_of <$> h);
  hwf_batches c : c ∈ h → NoDup (Codec.writes c).*1;
  hwf_ordered k : StronglySorted N.lt (ts_of <$> writers k h);
}.

(** ** Lemmas *)

Lemma hist_view_snoc h c k t :
  hist_view (h ++ [c]) k t =
    committed_view (Codec.writes c) (Codec.commit_ts c) k t (hist_view h k t).
Proof. unfold hist_view. by rewrite foldl_app. Qed.

Lemma hist_changed_snoc h c k t :
  hist_changed (h ++ [c]) k t =
    committed_changed (Codec.writes c) (Codec.commit_ts c) k t (hist_changed h k t).
Proof. unfold hist_changed. by rewrite foldl_app. Qed.

(** Only the writers of [k] matter to [k]. *)
Lemma hist_view_writers h k t : hist_view (writers k h) k t = hist_view h k t.
Proof.
  induction h as [|c h IH] using rev_ind; [done|]. unfold writers in *.
  rewrite filter_app, hist_view_snoc. cbn. case_decide as Hc.
  - by rewrite hist_view_snoc, IH.
  - rewrite app_nil_r, IH. unfold committed_view. unfold touches, writes_map in Hc.
    destruct (_ !! k); [by destruct Hc|done].
Qed.

Lemma hist_changed_writers h k t : hist_changed (writers k h) k t = hist_changed h k t.
Proof.
  induction h as [|c h IH] using rev_ind; [done|]. unfold writers in *.
  rewrite filter_app, hist_changed_snoc. cbn. case_decide as Hc.
  - by rewrite hist_changed_snoc, IH.
  - rewrite app_nil_r, IH. unfold committed_changed. unfold touches, writes_map in Hc.
    destruct (_ !! k); [by destruct Hc|done].
Qed.

Lemma hist_changed_true h k t :
  hist_changed h k t = true ↔ ∃ c, c ∈ h ∧ touches k c ∧ (Timestamp.get t < ts_of c)%N.
Proof.
  induction h as [|c h IH] using rev_ind; [split; [done|set_solver]|].
  rewrite hist_changed_snoc. unfold committed_changed.
  setoid_rewrite elem_of_app. setoid_rewrite list_elem_of_singleton.
  destruct (_ !! k) eqn:E.
  - rewrite orb_true_iff, IH, Timestamp.ltb_lt. split.
    + intros [(c' & ? & ? & ?)|?]; [by eauto 6|]. exists c.
      split_and!; [by right|by eexists|done].
    + intros (c' & [?| ->] & ? & ?); [by eauto 6|by right].
  - rewrite IH. split; [intros (c' & ? & ? & ?); by eauto 6|].
    intros (c' & [?| ->] & Ht & ?); [by eauto 6|]. unfold touches, writes_map in Ht.
    rewrite E in Ht. by destruct Ht.
Qed.

Lemma hist_changed_false h k t :
  hist_changed h k t = false ↔ ∀ c, c ∈ h → touches k c → (ts_of c ≤ Timestamp.get t)%N.
Proof.
  rewrite <-not_true_iff_false, hist_changed_true. split.
  - intros Hn c Hc Hk. apply N.le_ngt. intros ?. apply Hn. eauto.
  - intros Hall (c & Hc & Hk & Hlt). specialize (Hall c Hc Hk). lia.
Qed.

(** A commit above [t] is invisible at [t]. *)
Lemma hist_view_above h c k t :
  (Timestamp.get t < ts_of c)%N → hist_view (h ++ [c]) k t = hist_view h k t.
Proof.
  intros Hlt. rewrite hist_view_snoc. unfold committed_view.
  destruct (_ !! k); [|done]. by destruct (Timestamp.leb_spec (Codec.commit_ts c) t);
    [unfold ts_of in *; lia|].
Qed.

(** Between two snapshots no commit separates, the reads agree. *)
Lemma hist_view_between h k t t' :
  (Timestamp.get t ≤ Timestamp.get t')%N →
  (∀ c, c ∈ h → touches k c → (Timestamp.get t < ts_of c)%N → (Timestamp.get t' < ts_of c)%N) →
  hist_view h k t' = hist_view h k t.
Proof.
  intros Ht. induction h as [|c h IH] using rev_ind; intros Hb; [done|].
  rewrite !hist_view_snoc, IH by set_solver. unfold committed_view.
  destruct (_ !! k) eqn:E; [|done].
  assert (touches k c) as Hk by (by eexists). unfold ts_of in Hb.
  specialize (Hb c ltac:(set_solver) Hk). repeat case_ts; try done; lia.
Qed.

(** Appending a commit that is newer than every writer of its keys. *)
Lemma history_wf_snoc h c :
  history_wf h → NoDup (Codec.writes c).*1 → ts_of c ∉ ts_of <$> h →
  (∀ k c', c' ∈ h → touches k c → touches k c' → (ts_of c' < ts_of c)%N) →
  history_wf (h ++ [c]).
Proof.
  intros [Hu Hb Ho] Hnd Hfresh Hnew. split.
  - rewrite fmap_app. apply NoDup_app. split_and!; [done| |by apply NoDup_singleton].
    intros ts Hts ->%list_elem_of_singleton. done.
  - intros c' [?| ->%list_elem_of_singleton]%elem_of_app; auto.
  - intros k. unfold writers. rewrite filter_app, fmap_app. cbn.
    case_decide as Hk; cbn; [|rewrite app_nil_r; apply Ho]. apply StronglySorted_snoc; [apply Ho|].
    intros ts (c' & -> & [? ?]%list_elem_of_filter)%list_elem_of_fmap. by eapply Hnew.
Qed.

(** Earlier writers of a key are older. *)
Lemma history_wf_before h1 c h2 c' k :
  history_wf (h1 ++ c :: h2) → c' ∈ h1 → touches k c → touches k c' → (ts_of c' < ts_of c)%N.
Proof.
  intros [_ _ Ho] Hc' Hk Hk'. specialize (Ho k). unfold writers in Ho.
  rewrite filter_app, filter_cons_True, fmap_app in Ho by done.
  eapply StronglySorted_app_1_elem_of; [exact Ho| |by left].
  apply list_elem_of_fmap_2, list_elem_of_filter. done.
Qed.

Lemma touches_elem k c : touches k c ↔ k ∈ (Codec.writes c).*1.
Proof.
  unfold touches, writes_map. split.
  - intros [v Hv%elem_of_list_to_map_2]. by apply (list_elem_of_fmap_2 fst) in Hv.
  - intros Hk. destruct (_ !! k) eqn:E; [by eexists|].
    by apply not_elem_of_list_to_map in E.
Qed.

(** When a key has not changed since [t], [t] reads its latest value. *)
Lemma hist_now_unchanged h k t : hist_changed h k t = false → hist_now h k = hist_view h k t.
Proof.
  induction h as [|e h IH] using rev_ind; [done|]. unfold hist_now in *.
  rewrite foldl_app, hist_changed_snoc, hist_view_snoc.
  unfold committed_changed, committed_view. cbn. unfold writes_map.
  destruct (_ !! k); [|done]. intros [_ Hle]%orb_false_iff.
  apply Timestamp.ltb_ge in Hle. by case_ts; [|lia].
Qed.

(** What was applied from the commit on is invisible at the snapshot. *)
Lemma hist_view_suffix h1 h2 k t :
  (∀ e, e ∈ h2 → (Timestamp.get t < ts_of e)%N) → hist_view (h1 ++ h2) k t = hist_view h1 k t.
Proof.
  induction h2 as [|e h2 IH] using rev_ind; intros He; [by rewrite app_nil_r|].
  rewrite app_assoc, hist_view_above by (apply He; set_solver). apply IH. set_solver.
Qed.

Lemma writers_none h k : (∀ c, c ∈ h → ¬ touches k c) → writers k h = [].
Proof.
  intros Hn. induction h as [|c h IH]; [done|]. unfold writers in *.
  rewrite filter_cons_False by (apply Hn; set_solver). apply IH. set_solver.
Qed.

(** A snapshot reads what the commits it sees leave. *)
Lemma visible_snoc t h c :
  visible t (h ++ [c]) = visible t h ++ (if decide (ts_of c ≤ Timestamp.get t)%N then [c] else []).
Proof. unfold visible. by rewrite filter_app. Qed.

Lemma visible_all t h : (∀ c, c ∈ h → (ts_of c ≤ Timestamp.get t)%N) → visible t h = h.
Proof.
  induction h as [|c h IH] using rev_ind; intros Hall; [done|].
  rewrite visible_snoc, IH by (intros; apply Hall; set_solver).
  rewrite decide_True; [done|]. apply Hall. set_solver.
Qed.

Lemma hist_now_snoc h c k :
  hist_now (h ++ [c]) k = match writes_map c !! k with Some v => v | None => hist_now h k end.
Proof. unfold hist_now. by rewrite foldl_app. Qed.

Lemma hist_now_visible h k t : hist_now (visible t h) k = hist_view h k t.
Proof.
  induction h as [|c h IH] using rev_ind; [done|]. rewrite visible_snoc, hist_view_snoc.
  unfold committed_view. fold (writes_map c). case_decide as Ht; unfold ts_of in Ht.
  - rewrite hist_now_snoc, IH. destruct (_ !! k); [|done]. by case_ts; [|lia].
  - rewrite app_nil_r, IH. destruct (_ !! k); [|done]. by case_ts; [lia|].
Qed.

(** Strictly sorted lists are determined by their elements. *)
Lemma sorted_unique (h1 h2 : History) :
  h1 ≡ₚ h2 → StronglySorted N.lt (ts_of <$> h1) → StronglySorted N.lt (ts_of <$> h2) → h1 = h2.
Proof.
  intros Hp H1 H2.
  assert (Hfm : ∀ h : History, StronglySorted N.lt (ts_of <$> h) →
    StronglySorted (λ a b, (ts_of a < ts_of b)%N) h).
  { induction h as [|c h IH]; cbn; [constructor|]. intros [Hs Hc]%StronglySorted_inv.
    constructor; [auto|]. by rewrite Forall_fmap in Hc. }
  apply Hfm in H1. apply Hfm in H2. clear Hfm.
  revert h2 Hp H2. induction H1 as [|c h1 Hs IH Hc]; intros h2 Hp H2.
  { by apply Permutation_nil_l in Hp. }
  destruct H2 as [|c' h2 Hs' Hc'].
  { by apply Permutation_nil_r in Hp. }
  rewrite Forall_forall in Hc, Hc'.
  assert (c = c') as ->.
  { assert (c ∈ c' :: h2) as [->|Hin]%elem_of_cons by (rewrite <-Hp; set_solver); [done|].
    assert (c' ∈ c :: h1) as [->|Hin']%elem_of_cons by (rewrite Hp; set_solver); [done|].
    specialize (Hc c' Hin'). specialize (Hc' c Hin). lia. }
  f_equal. apply IH; [|done]. by eapply Permutation_cons_inv.
Qed.

(** A reordering that keeps the commits of each key in timestamp order reads the
    same. *)
Lemma history_perm_same h h' :
  history_wf h → history_wf h' → h ≡ₚ h' →
  ∀ k t, hist_view h' k t = hist_view h k t ∧ hist_changed h' k t = hist_changed h k t.
Proof.
  intros Hh Hh' Hp k t.
  assert (writers k h' = writers k h) as E.
  { apply sorted_unique; [|by apply hwf_ordered..]. unfold writers. by rewrite Hp. }
  by rewrite <-(hist_view_writers h'), <-(hist_changed_writers h'), E,
    hist_view_writers, hist_changed_writers.
Qed.

(** Any sublist of a well-formed history is one, and so is its sorting. *)
Lemma history_wf_sorted h :
  NoDup (ts_of <$> h) → (∀ c, c ∈ h → NoDup (Codec.writes c).*1) →
  history_wf (sort_by_key ts_of h).
Proof.
  intros Hu Hb. pose proof (sort_by_key_perm ts_of h) as Hp. split.
  - by rewrite Hp.
  - intros c Hc. rewrite Hp in Hc. auto.
  - intros k. pose proof (sort_by_key_sorted ts_of h) as Hs.
    assert (NoDup (ts_of <$> sort_by_key ts_of h)) as Hnd by (by rewrite Hp).
    revert Hs Hnd. generalize (sort_by_key ts_of h). clear. intros h.
    induction 1 as [|c h Hs IH Hc]; [constructor|]. rewrite fmap_cons.
    intros [Hnot Hnd]%NoDup_cons. unfold writers in *. rewrite filter_cons.
    specialize (IH Hnd). case_decide; [|done]. cbn. constructor; [done|].
    apply Forall_forall. intros ts (c' & -> & [_ Hin]%list_elem_of_filter)%list_elem_of_fmap.
    rewrite Forall_forall in Hc. specialize (Hc c' Hin).
    assert (ts_of c ≠ ts_of c'); [|lia].
    intros E. apply Hnot. rewrite E. by apply list_elem_of_fmap_2.
Qed.

(** Leaving commits out. *)
Lemma history_wf_sublist h h' : h' `sublist_of` h → history_wf h → history_wf h'.
Proof.
  intros Hsub [Hu Hb Ho]. split.
  - eapply sublist_NoDup; [exact Hu|by apply fmap_sublist].
  - intros c Hc. apply Hb. by eapply elem_of_submseteq, sublist_submseteq.
  - intros k. eapply StronglySorted_sublist; [|exact (Ho k)]. apply fmap_sublist.
    unfold writers. clear -Hsub. induction Hsub; rewrite ?filter_cons; [done|..];
      case_decide; done || by constructor.
Qed.

(** What a snapshot reads depends on the commits it sees alone. *)
Lemma hist_view_visible_same h h' k t :
  history_wf h → history_wf h' →
  (∀ e, (ts_of e ≤ Timestamp.get t)%N → e ∈ h ↔ e ∈ h') → hist_view h k t = hist_view h' k t.
Proof.
  intros Hh Hh' Hsame.
  assert (∀ g, hist_view (visible t g) k t = hist_view g k t) as Hvis.
  { intros g. rewrite <-(hist_now_visible (visible t g)), <-(hist_now_visible g), (visible_all t (visible t g));
      [done|]. by intros c [? _]%list_elem_of_filter. }
  rewrite <-(Hvis h), <-(Hvis h').
  assert (∀ g, history_wf g → history_wf (visible t g)) as Hwf
    by (intros g; apply history_wf_sublist, sublist_filter).
  apply history_perm_same; [auto..|].
  apply NoDup_Permutation; [eapply NoDup_fmap_1, hwf_unique; eauto..|].
  intros e. unfold visible. rewrite !list_elem_of_filter. naive_solver.
Qed.

(** Above a commit it sees, a snapshot reads that commit or a later one. *)
Lemma hist_view_newest h e k t :
  history_wf h → e ∈ h → touches k e → (ts_of e ≤ Timestamp.get t)%N →
  ∃ e', e' ∈ h ∧ writes_map e' !! k = Some (hist_view h k t) ∧ (ts_of e ≤ ts_of e')%N ∧
    (ts_of e' ≤ Timestamp.get t)%N.
Proof.
  induction h as [|c h IH] using rev_ind; [by intros _ ?%not_elem_of_nil|].
  intros Hwf He Hk Ht.
  assert (history_wf h) as Hwf' by (eapply history_wf_sublist; [by apply sublist_inserts_r|done]).
  rewrite hist_view_snoc. unfold committed_view. fold (writes_map c).
  destruct (writes_map c !! k) as [v|] eqn:Hc.
  - case_ts.
    + exists c. split_and!; [set_solver|done| |unfold ts_of; lia].
      apply elem_of_app in He as [He| ->%list_elem_of_singleton]; [|done].
      apply N.lt_le_incl. eapply (history_wf_before h c [] e k); [done|done|by eexists|done].
    + apply elem_of_app in He as [He| ->%list_elem_of_singleton]; [|unfold ts_of in Ht; lia].
      destruct (IH Hwf' He Hk Ht) as (e' & ? & ? & ? & ?). exists e'. set_solver.
  - apply elem_of_app in He as [He| ->%list_elem_of_singleton].
    + destruct (IH Hwf' He Hk Ht) as (e' & ? & ? & ? & ?). exists e'. set_solver.
    + unfold touches in Hk. rewrite Hc in Hk. by destruct Hk.
Qed.

#[export] Hint Resolve history_wf_snoc : txn.
