(* ===== verification/Coordinator.v ===== *)
(** * The commit coordinator

    [struct Inner] of [src/db.rs]: the version store, the oracle and the optional
    durable log, and the operations on them that the handles call. Everything is
    proved against the interfaces [VersionStore]/[StoreLaws] and [Wal]/[WalLaws].
    [commit_writes] is written as the composition of the atomic pieces that
    [System] interleaves. *)

From S2P Require Import Prelude RustStd Types StoreTrait CommitLog OracleState History.

Module Inner.
Section inner.
Context `{Profile} {S : Type} `{VersionStore S} {Disk W : Type} `{Wal Disk W}.

(** ** Definitions *)

(** [struct Inner]. *)
Record t := mk { store : S; oracle : Oracle.t; log : option (CommitLog.t W) }.

Definition set_store (i : t) (s : S) : t := {| store := s; oracle := oracle i; log := log i |}.
Definition set_oracle (i : t) (o : Oracle.t) : t :=
  {| store := store i; oracle := o; log := log i |}.
Definition set_log (i : t) (l : option (CommitLog.t W)) : t :=
  {| store := store i; oracle := oracle i; log := l |}.

Definition new (s : S) : t := {| store := s; oracle := Oracle.new; log := None |}.

Definition recovered (s : S) (o : Oracle.t) (l : CommitLog.t W) : t :=
  {| store := s; oracle := o; log := Some l |}.

Definition read_ts (i : t) : Timestamp.t := Oracle.read_ts (oracle i).

Definition begin_reader (i : t) : outcome (t * Timestamp.t) :=
  '(o, ts) ← Oracle.begin_reader (oracle i);
  Ret (set_oracle i o, ts).

Definition end_reader (i : t) (ts : Timestamp.t) : outcome t :=
  o ← Oracle.end_reader (oracle i) ts;
  Ret (set_oracle i o).

(** [self.store.get(key, read_ts)]. *)
Definition store_get (i : t) (key : bytes) (ts : Timestamp.t) :
    outcome (t * Result (option bytes)) :=
  '(s, r) ← vs_get (store i) key ts;
  Ret (set_store i s, r).

Definition collect_garbage (i : t) : outcome (t * nat) :=
  '(s, n) ← vs_collect_garbage (store i) (Oracle.low_watermark (oracle i));
  Ret (set_store i s, n).

(** *** The pieces of [commit_writes] *)

Definition alloc (i : t) : t * Timestamp.t :=
  let '(o, ts) := Oracle.alloc_commit_ts (oracle i) in (set_oracle i o, ts).

(** The record is encoded only when there is a log. *)
Definition encode_record (i : t) (commit_ts : Timestamp.t) (writes : list WriteEntry) :
    option bytes :=
  (λ _, Codec.encode_for_log commit_ts writes) <$> log i.

Definition apply (i : t) (read_ts commit_ts : Timestamp.t) (writes : list WriteEntry)
    (reads : list bytes) : outcome (t * Result unit) :=
  '(s, r) ← vs_try_commit (store i) read_ts commit_ts writes reads;
  Ret (set_store i s, r).

(** [if let (Some(log), Some(record)) = ...]. *)
Definition append (i : t) (record : option bytes) : t * Result unit :=
  match log i, record with
  | Some l, Some record =>
     let '(l, r) := CommitLog.append_committed l record in (set_log i (Some l), r)
  | _, _ => (i, Ok tt)
  end.

Definition commit_done (i : t) (commit_ts : Timestamp.t) : outcome t :=
  o ← Oracle.commit_done (oracle i) commit_ts;
  Ret (set_oracle i o).

Definition commit_writes (i : t) (read_ts : Timestamp.t) (writes : list WriteEntry)
    (reads : list bytes) : outcome (t * Result Timestamp.t) :=
  let '(i, commit_ts) := alloc i in
  let record := encode_record i commit_ts writes in
  '(i, result) ← apply i read_ts commit_ts writes reads;
  let '(i, durable) := if is_ok result then append i record else (i, Ok tt) in
  match durable with
  | Err err =>
     i ← commit_done i commit_ts;
     Ret (i, Err err)
  | Ok _ =>
     i ← commit_done i commit_ts;
     Ret (i, (λ _, commit_ts) <$> result)
  end.

(** ** The invariant

    [live] lists the read timestamps of the live readers, [inflight] the commit
    timestamps allocated and not yet reported done, [h] the commits applied to
    the store. From [horizon] on, the store agrees with [h]; collections have
    only reclaimed what lies before it. *)
Definition commit_of (ts : Timestamp.t) (writes : list WriteEntry) : Commit :=
  Codec.mkCommit ts writes.

Definition watermark (i : t) : N := Timestamp.get (read_ts i).

Context `{!StoreLaws S}.

Record inv (i : t) (live : list N) (inflight : gset N) (h : History) (horizon : N) : Prop := {
  inv_oracle : Oracle.wf (oracle i) inflight;
  inv_readers : Oracle.readers_wf (oracle i) live;
  inv_live ts : ts ∈ live → (horizon ≤ ts ≤ watermark i)%N;
  inv_horizon : (horizon ≤ watermark i)%N;
  inv_store : vs_inv (store i);
  inv_view k t : (horizon ≤ Timestamp.get t)%N →
    vs_view (store i) k t = hist_view h k t ∧ vs_changed (store i) k t = hist_changed h k t;
  inv_history : history_wf h;
  inv_issued c : c ∈ h → (ts_of c < Oracle.next_ts (oracle i))%N;
}.

(** Room for [n] more operations before a 64-bit counter would overflow. *)
Definition room (i : t) (live : list N) (n : N) : Prop :=
  (Oracle.next_ts (oracle i) + n + 1 < u64_modulus)%N ∧
  (N.of_nat (length live) + n + 1 < u64_modulus)%N.

(** The database is durable, and its log holds the commits [logged]. *)
Definition log_holds `{!WalLaws Disk W} (i : t) (logged : History) : Prop :=
  ∃ l, log i = Some l ∧ CommitLog.holds l logged.

(** What [commit_writes] promises, by result: the commit is applied under the
    timestamp it returns; or it was refused and nothing is applied; or (a log
    failure) it is applied although an error is returned. *)
Definition commit_post (i i' : t) (live : list N) (inflight : gset N) (h : History) (hz : N)
    (read : Timestamp.t) (writes : list WriteEntry) (reads : list bytes)
    (r : Result Timestamp.t) : Prop :=
  let ts := Timestamp.from_raw (Oracle.next_ts (oracle i)) in
  match r with
  | Ok ts' =>
     ts' = ts ∧ inv i' live inflight (h ++ [commit_of ts writes]) hz ∧
     ∀ k, k ∈ writes.*1 ++ reads → hist_changed h k read = false
  | Err (TxnError.Conflict n) =>
     inv i' live inflight h hz ∧ log i' = log i ∧
     ∃ k, k ∈ writes.*1 ++ reads ∧ hist_changed h k read = true ∧ n = N.of_nat (length k)
  | Err (TxnError.Store _ _) =>
     inv i' live inflight h hz ∧ log i' = log i ∧ vs_may_fail (S := S)
  | Err (TxnError.Durability _) =>
     inv i' live inflight (h ++ [commit_of ts writes]) hz ∧ is_Some (log i) ∧
     ∀ k, k ∈ writes.*1 ++ reads → hist_changed h k read = false
  end.

(** And to the log. *)
Definition commit_log_post `{!WalLaws Disk W} (i i' : t) (writes : list WriteEntry)
    (r : Result Timestamp.t) : Prop :=
  let c := commit_of (Timestamp.from_raw (Oracle.next_ts (oracle i))) writes in
  ∀ logged, log_holds i logged → CommitLog.commit_fits c →
    match r with
    | Ok _ => log_holds i' (logged ++ [c])
    | Err (TxnError.Durability _) => log_holds i' logged ∨ log_holds i' (logged ++ [c])
    | Err _ => log_holds i' logged
    end.

(** ** Lemmas: the pieces preserve the invariant *)

Lemma new_inv s : vs_empty s → inv (new s) [] ∅ [] 0.
Proof.
  intros [Hs Hempty]. split; cbn.
  - apply Oracle.new_wf.
  - split; [|done]. intros ts. cbn. by rewrite lookup_empty.
  - intros ts Hts%elem_of_nil. done.
  - lia.
  - done.
  - intros k t _. apply Hempty.
  - split; [apply NoDup_nil_2|intros c Hc%elem_of_nil; done|intros; constructor].
  - intros c Hc%elem_of_nil. done.
Qed.

Lemma begin_reader_inv i live inflight h hz :
  inv i live inflight h hz → (N.of_nat (length live) + 2 < u64_modulus)%N →
  ∃ i', begin_reader i = Ret (i', read_ts i) ∧
    inv i' (watermark i :: live) inflight h hz ∧
    store i' = store i ∧ log i' = log i ∧
    Oracle.next_ts (oracle i') = Oracle.next_ts (oracle i) ∧ read_ts i' = read_ts i.
Proof.
  intros Hi Hroom. unfold begin_reader.
  destruct (Oracle.begin_reader_wf _ _ (inv_readers _ _ _ _ _ Hi) Hroom)
    as (o & -> & Hr & Hn & Ha & Hp). run. eexists. split; [done|].
  destruct Hi as [Ho ? Hl ? ? ? ? ?].
  assert (Hw : ∀ i', oracle i' = o → watermark i' = watermark i).
  { intros i' Hi'. unfold watermark, read_ts, Oracle.read_ts. by rewrite Hi', Ha. }
  split_and!; [|done..|unfold read_ts, Oracle.read_ts; cbn; by rewrite Ha].
  split; [|done| |by rewrite Hw|done..|cbn; by rewrite Hn].
  - cbn. destruct Ho. split; rewrite ?Hn, ?Ha, ?Hp; done.
  - rewrite (Hw (set_oracle i o)) by done. intros ts [->|Hts]%elem_of_cons; [lia|by apply Hl].
Qed.

Lemma end_reader_inv i ts live inflight h hz :
  inv i (Timestamp.get ts :: live) inflight h hz →
  ∃ i', end_reader i ts = Ret i' ∧ inv i' live inflight h hz ∧
    store i' = store i ∧ log i' = log i ∧
    Oracle.next_ts (oracle i') = Oracle.next_ts (oracle i) ∧ read_ts i' = read_ts i.
Proof.
  intros Hi. unfold end_reader.
  destruct (Oracle.end_reader_wf _ _ _ (inv_readers _ _ _ _ _ Hi))
    as (o & -> & Hr & Hn & Ha & Hp). run. eexists. split; [done|].
  destruct Hi as [Ho ? Hl ? ? ? ? ?].
  assert (Hw : ∀ i', oracle i' = o → watermark i' = watermark i).
  { intros i' Hi'. unfold watermark, read_ts, Oracle.read_ts. by rewrite Hi', Ha. }
  split_and!; [|done..|unfold read_ts, Oracle.read_ts; cbn; by rewrite Ha].
  split; [|done| |by rewrite Hw|done..|cbn; by rewrite Hn].
  - cbn. destruct Ho. split; rewrite ?Hn, ?Ha, ?Hp; done.
  - rewrite (Hw (set_oracle i o)) by done. intros t Ht. apply Hl. by apply list_elem_of_further.
Qed.

Lemma inv_live_perm i live live' inflight h hz :
  live ≡ₚ live' → inv i live inflight h hz → inv i live' inflight h hz.
Proof.
  intros Hp []. split; try done; [by eapply Oracle.readers_wf_perm|].
  intros ts Hts. rewrite <-Hp in Hts. auto.
Qed.

(** A step of the store that keeps what is readable from the horizon on. *)
Lemma set_store_inv i live inflight h hz h' hz' s :
  inv i live inflight h hz →
  vs_inv s → history_wf h' →
  (∀ c, c ∈ h' → (ts_of c < Oracle.next_ts (oracle i))%N) →
  (∀ ts, ts ∈ live → (hz' ≤ ts)%N) → (hz' ≤ watermark i)%N →
  (∀ k t, (hz' ≤ Timestamp.get t)%N →
    vs_view s k t = hist_view h' k t ∧ vs_changed s k t = hist_changed h' k t) →
  inv (set_store i s) live inflight h' hz'.
Proof.
  intros [] ? ? ? Hl ? ?. split; try done. intros ts Hts. split; [by apply Hl|].
  by apply inv_live0.
Qed.

Lemma store_get_inv i live inflight h hz key ts :
  inv i live inflight h hz → (hz ≤ Timestamp.get ts)%N →
  ∃ i' r, store_get i key ts = Ret (i', r) ∧ inv i' live inflight h hz ∧
    oracle i' = oracle i ∧ log i' = log i ∧
    match r with
    | Ok v => v = hist_view h key ts
    | Err (TxnError.Store _ _) => vs_may_fail (S := S)
    | Err _ => False
    end.
Proof.
  intros Hi Hts. unfold store_get.
  destruct (law_get (store i) key ts) as (s & r & -> & Hs & Hsame & Hr).
  { by eapply inv_store. }
  run. eexists _, r. split; [done|]. split_and!; [|done..|].
  - eapply set_store_inv; [done|done|by eapply inv_history|by eapply inv_issued| |
      by eapply inv_horizon|].
    + intros t Ht. by eapply inv_live.
    + intros k t Ht. destruct (Hsame k t) as [-> ->]. by eapply inv_view.
  - destruct r as [v|]; [|done]. subst v. by eapply inv_view.
Qed.

Lemma alloc_inv i live inflight h hz :
  inv i live inflight h hz → (Oracle.next_ts (oracle i) + 2 < u64_modulus)%N →
  let '(i', ts) := alloc i in
  inv i' live ({[Timestamp.get ts]} ∪ inflight) h hz ∧
  Timestamp.get ts = Oracle.next_ts (oracle i) ∧
  Oracle.next_ts (oracle i') = (Oracle.next_ts (oracle i) + 1)%N ∧
  store i' = store i ∧ log i' = log i ∧ read_ts i' = read_ts i ∧
  Timestamp.get ts ∉ inflight ∧ Timestamp.get ts ∉ ts_of <$> h.
Proof.
  intros Hi Hroom. unfold alloc.
  destruct (Oracle.alloc_commit_ts_wf _ _ (inv_oracle _ _ _ _ _ Hi) Hroom) as (Hwf & Hfresh & Hlt).
  destruct (Oracle.alloc_commit_ts (oracle i)) as [o ts] eqn:E.
  unfold Oracle.alloc_commit_ts in E. injection E as <- <-. cbn [fst Timestamp.get] in *.
  destruct Hi as [? [] ? ? ? ? ? Hiss].
  split_and!; [|done|cbn; by rewrite fetch_add_u64_ok by lia|done..|].
  - split; try done. intros c Hc. cbn. rewrite fetch_add_u64_ok by lia.
    specialize (Hiss c Hc). lia.
  - intros (c & Hc & Hin)%list_elem_of_fmap. specialize (Hiss c Hin). lia.
Qed.

(** The validate-and-apply step: either it applies the whole batch, and then no
    key it validated had changed since the snapshot, or it changes nothing. *)
Lemma apply_inv i live inflight h hz read commit_ts writes reads :
  inv i live inflight h hz →
  Timestamp.get read ∈ live →
  Timestamp.get commit_ts ∈ inflight → Timestamp.get commit_ts ∉ ts_of <$> h →
  NoDup writes.*1 →
  ∃ i' r, apply i read commit_ts writes reads = Ret (i', r) ∧
    oracle i' = oracle i ∧ log i' = log i ∧
    match r with
    | Ok _ =>
       inv i' live inflight (h ++ [commit_of commit_ts writes]) hz ∧
       ∀ k, k ∈ writes.*1 ++ reads → hist_changed h k read = false
    | Err (TxnError.Conflict n) =>
       inv i' live inflight h hz ∧
       ∃ k, k ∈ writes.*1 ++ reads ∧ hist_changed h k read = true ∧ n = N.of_nat (length k)
    | Err (TxnError.Store _ _) => inv i' live inflight h hz ∧ vs_may_fail (S := S)
    | Err (TxnError.Durability _) => False
    end.
Proof.
  intros Hi Hread Hfl Hfresh Hnd.
  destruct (inv_live _ _ _ _ _ Hi _ Hread) as [Hhz Hwm].
  pose proof (Oracle.wf_inflight _ _ (inv_oracle _ _ _ _ _ Hi) _ Hfl) as Hts.
  rewrite <-(Oracle.wf_published _ _ (inv_oracle _ _ _ _ _ Hi)) in Hts.
  change (Oracle.read_ts_atomic (oracle i)) with (watermark i) in Hts.
  assert (Hview := inv_view _ _ _ _ _ Hi). unfold apply.
  destruct (law_try_commit (store i) read commit_ts writes reads)
    as (s & r & -> & Hs & Hr); [by eapply inv_store|lia|done|].
  run. eexists _, r. split_and!; [done..|]. destruct r as [[]|e].
  - destruct Hr as (Hvalid & Hv & Hc). split.
    2:{ intros k Hk. rewrite <-(proj2 (Hview k read Hhz)). auto. }
    eapply set_store_inv; [done|done|..|by eapply inv_horizon|].
    + apply history_wf_snoc; [by eapply inv_history|done|done|].
      intros k c Hc' Hk Hkc. specialize (Hvalid k).
      rewrite (proj2 (Hview k read Hhz)), hist_changed_false in Hvalid.
      enough (ts_of c ≤ Timestamp.get read)%N by (unfold ts_of at 2; cbn; lia).
      apply Hvalid; [|done..]. apply touches_elem in Hk. apply elem_of_app. by left.
    + intros c [?| ->%list_elem_of_singleton]%elem_of_app; [by eapply inv_issued|].
      unfold ts_of. cbn. lia.
    + intros t Ht. by eapply inv_live.
    + intros k t Ht. rewrite Hv, Hc, hist_view_snoc, hist_changed_snoc.
      by destruct (Hview k t Ht) as [-> ->].
  - destruct Hr as [Hsame He].
    assert (inv (set_store i s) live inflight h hz).
    { eapply set_store_inv; [done|done|by eapply inv_history|by eapply inv_issued| |
        by eapply inv_horizon|].
      + intros t Ht. by eapply inv_live.
      + intros k t Ht. destruct (Hsame k t) as [-> ->]. auto. }
    destruct e; [|done..]. split; [done|]. destruct He as (k & ? & Hch & ?).
    rewrite (proj2 (Hview k read Hhz)) in Hch. eauto.
Qed.

Lemma append_same i record :
  store (append i record).1 = store i ∧ oracle (append i record).1 = oracle i ∧
  (is_Some (log (append i record).1) → is_Some (log i)).
Proof.
  unfold append. destruct (log i) as [l|] eqn:E, record as [r|]; cbn; rewrite ?E; try done.
  by destruct (CommitLog.append_committed l r).
Qed.

(** The invariant does not mention the log. *)
Lemma inv_same i i' live inflight h hz :
  store i' = store i → oracle i' = oracle i →
  inv i live inflight h hz → inv i' live inflight h hz.
Proof. destruct i, i'. cbn. intros -> -> []. by split. Qed.

Lemma commit_done_inv i live inflight h hz ts :
  inv i live inflight h hz → Timestamp.get ts ∈ inflight →
  ∃ i', commit_done i ts = Ret i' ∧ inv i' live (inflight ∖ {[Timestamp.get ts]}) h hz ∧
    store i' = store i ∧ log i' = log i ∧
    Oracle.next_ts (oracle i') = Oracle.next_ts (oracle i) ∧
    (watermark i ≤ watermark i')%N.
Proof.
  intros Hi Hfl. unfold commit_done.
  destruct (Oracle.commit_done_wf _ _ _ (inv_oracle _ _ _ _ _ Hi) Hfl)
    as (o & -> & Hwf & Hn & Hr & Hw). run. eexists. split; [done|]. destruct Hi.
  split_and!; [|done..]. split; [done| | | |done|done|done|cbn; by rewrite Hn].
  - by eapply Oracle.readers_wf_same.
  - intros t Ht. specialize (inv_live0 t Ht). unfold watermark, read_ts in *. cbn [oracle set_oracle]. lia.
  - unfold watermark, read_ts in *. cbn [oracle set_oracle]. lia.
Qed.

(** One piece of a collection at a watermark no reader is below. *)
Lemma gc_step_inv i live inflight h hz wm s :
  inv i live inflight h hz →
  (∀ ts, ts ∈ live → (Timestamp.get wm ≤ ts)%N) → (Timestamp.get wm ≤ watermark i)%N →
  vs_gc_step wm (store i) s →
  inv (set_store i s) live inflight h (N.max hz (Timestamp.get wm)).
Proof.
  intros Hi Hlive Hwm Hstep.
  destruct (law_gc_step wm (store i) s (inv_store _ _ _ _ _ Hi) Hstep) as [Hs Hsame].
  eapply set_store_inv; [done|done|by eapply inv_history|by eapply inv_issued|..].
  - intros ts Hts. specialize (Hlive ts Hts). pose proof (inv_live _ _ _ _ _ Hi ts Hts). lia.
  - pose proof (inv_horizon _ _ _ _ _ Hi). lia.
  - intros k t Ht. destruct (Hsame k t ltac:(lia)) as [-> ->]. eapply inv_view; [done|lia].
Qed.

Lemma gc_steps_inv i live inflight h hz wm s :
  inv i live inflight h hz →
  (∀ ts, ts ∈ live → (Timestamp.get wm ≤ ts)%N) → (Timestamp.get wm ≤ watermark i)%N →
  rtc (vs_gc_step wm) (store i) s →
  inv (set_store i s) live inflight h (N.max hz (Timestamp.get wm)).
Proof.
  intros Hi Hlive Hwm Hrtc.
  destruct (gc_steps_same wm (store i) s (inv_store _ _ _ _ _ Hi) Hrtc) as [Hs Hsame].
  eapply set_store_inv; [done|done|by eapply inv_history|by eapply inv_issued|..].
  - intros ts Hts. specialize (Hlive ts Hts). pose proof (inv_live _ _ _ _ _ Hi ts Hts). lia.
  - pose proof (inv_horizon _ _ _ _ _ Hi). lia.
  - intros k t Ht. destruct (Hsame k t ltac:(lia)) as [-> ->]. eapply inv_view; [done|lia].
Qed.

(** The oldest live reader, or the watermark when there is none, is such. *)
Lemma low_watermark_bound i live inflight h hz :
  inv i live inflight h hz →
  (∀ ts, ts ∈ live → (Timestamp.get (Oracle.low_watermark (oracle i)) ≤ ts)%N) ∧
  (hz ≤ Timestamp.get (Oracle.low_watermark (oracle i)) ≤ watermark i)%N.
Proof.
  intros []. destruct (Oracle.low_watermark_wf _ _ inv_readers0) as [[-> ->]|[Hin Hmin]].
  - split; [intros ts Hts%elem_of_nil; done|]. unfold watermark, read_ts in *. lia.
  - split; [done|]. by apply inv_live0.
Qed.

Lemma collect_garbage_inv i live inflight h hz :
  inv i live inflight h hz →
  ∃ i' n, collect_garbage i = Ret (i', n) ∧
    inv i' live inflight h (Timestamp.get (Oracle.low_watermark (oracle i))) ∧
    oracle i' = oracle i ∧ log i' = log i.
Proof.
  intros Hi. destruct (low_watermark_bound _ _ _ _ _ Hi) as (Hlive & Hhz & Hwm).
  unfold collect_garbage. set (wm := Oracle.low_watermark (oracle i)) in *.
  destruct (law_collect_garbage (store i) wm (inv_store _ _ _ _ _ Hi)) as (s & n & -> & Hrtc).
  run. eexists _, n. split_and!; [done| |done..].
  rewrite <-(N.max_r hz (Timestamp.get wm)) by done. by apply gc_steps_inv.
Qed.

(** ** Lemmas: a whole commit

    Run without interruption; other transactions may be in flight. *)

Lemma append_result i record :
  (append i record).2 = Ok tt ∨
  ((∃ e, (append i record).2 = Err (TxnError.durability e)) ∧
   ∃ l record' l' e, log i = Some l ∧ CommitLog.append_committed l record' = (l', Err e)).
Proof.
  unfold append. destruct (log i) as [l|], record as [r|]; try by left.
  unfold CommitLog.append_committed.
  destruct (wal_append_and_sync (CommitLog.wal l) r) as [w [e|lsn]] eqn:E; [|by left].
  right. split; [by exists e|]. exists l, r. unfold CommitLog.append_committed. rewrite E. by eexists _, _.
Qed.

Lemma append_log `{!WalLaws Disk W} i c logged :
  log_holds i logged → CommitLog.commit_fits c →
  let i' := (append i (encode_record i (Codec.commit_ts c) (Codec.writes c))).1 in
  match (append i (encode_record i (Codec.commit_ts c) (Codec.writes c))).2 with
  | Ok _ => log_holds i' (logged ++ [c])
  | Err _ => log_holds i' logged ∨ log_holds i' (logged ++ [c])
  end.
Proof.
  unfold log_holds, append, encode_record. intros (l & -> & Hl) Hc. cbn.
  change (Codec.encode_for_log _ _) with (CommitLog.record_of c).
  destruct (CommitLog.append_committed l (CommitLog.record_of c)) as [l' [[]|e]] eqn:Ha; cbn.
  - eexists. split; [done|]. by eapply CommitLog.append_committed_ok.
  - destruct (CommitLog.append_committed_err l logged c l' e Hl Hc Ha) as [_ [?|?]];
      [left|right]; by eexists.
Qed.

(** The append, whole: only the log changes, and only by this record. *)
Lemma append_inv i live inflight h hz ts writes :
  inv i live inflight h hz →
  let '(i', d) := append i (encode_record i ts writes) in
  inv i' live inflight h hz ∧ oracle i' = oracle i ∧ (is_Some (log i') → is_Some (log i)) ∧
  (d = Ok tt ∨ (∃ e, d = Err (TxnError.durability e)) ∧ is_Some (log i)) ∧
  ∀ `{!WalLaws Disk W} logged, log_holds i logged → CommitLog.commit_fits (commit_of ts writes) →
    match d with
    | Ok _ => log_holds i' (logged ++ [commit_of ts writes])
    | Err _ => log_holds i' logged ∨ log_holds i' (logged ++ [commit_of ts writes])
    end.
Proof.
  intros Hi. destruct (append_same i (encode_record i ts writes)) as (Hs & Ho & Hl).
  pose proof (append_result i (encode_record i ts writes)) as Hres.
  pose proof (λ (HL : WalLaws Disk W) logged,
    append_log (WalLaws0 := HL) i (commit_of ts writes) logged) as Hlog.
  cbn in Hlog. destruct (append i _) as [i' d]. cbn in *.
  split_and!; [by eapply inv_same|done|done| |intros HL; apply Hlog].
  destruct Hres as [->|[? (l & ? & ? & ? & -> & _)]]; eauto.
Qed.

(** Releasing the timestamp of a commit that has just been allocated. *)
Lemma release_inv i live inflight h hz ts :
  inv i live ({[Timestamp.get ts]} ∪ inflight) h hz → Timestamp.get ts ∉ inflight →
  ∃ i', commit_done i ts = Ret i' ∧ inv i' live inflight h hz ∧ log i' = log i ∧
    Oracle.next_ts (oracle i') = Oracle.next_ts (oracle i) ∧ (watermark i ≤ watermark i')%N.
Proof.
  intros Hi Hnew. destruct (commit_done_inv i _ _ _ _ ts Hi) as (i' & -> & Hi' & _ & ? & ? & ?).
  { set_solver. }
  exists i'. replace (({[Timestamp.get ts]} ∪ inflight) ∖ {[Timestamp.get ts]}) with inflight in Hi'
    by set_solver. done.
Qed.

Lemma encode_record_log i i' ts writes :
  log i = log i' → encode_record i ts writes = encode_record i' ts writes.
Proof. unfold encode_record. by intros ->. Qed.

Lemma log_holds_log `{!WalLaws Disk W} i i' logged :
  log i = log i' → log_holds i logged → log_holds i' logged.
Proof. unfold log_holds. by intros ->. Qed.

Lemma commit_writes_inv i live inflight h hz read writes reads :
  inv i live inflight h hz → (Oracle.next_ts (oracle i) + 2 < u64_modulus)%N →
  Timestamp.get read ∈ live → NoDup writes.*1 →
  ∃ i' r, commit_writes i read writes reads = Ret (i', r) ∧
    Oracle.next_ts (oracle i') = (Oracle.next_ts (oracle i) + 1)%N ∧
    (watermark i ≤ watermark i')%N ∧ (is_Some (log i') → is_Some (log i)) ∧
    commit_post i i' live inflight h hz read writes reads r ∧
    ∀ `{!WalLaws Disk W}, commit_log_post i i' writes r.
Proof.
  intros Hi Hroom Hread Hnd. unfold commit_writes, commit_post, commit_log_post.
  pose proof (alloc_inv _ _ _ _ _ Hi Hroom) as Halloc.
  destruct (alloc i) as [i1 ts]. destruct Halloc as (Hi1 & Hts & Hn & Hst & Hlog & Hw & Hf & Hh).
  rewrite <-Hts. replace (Timestamp.from_raw (Timestamp.get ts)) with ts by by destruct ts.
  rewrite <-Hts in Hn. change (read_ts i1 = read_ts i) in Hw.
  destruct (apply_inv i1 live ({[Timestamp.get ts]} ∪ inflight) h hz read ts writes reads)
    as (i2 & r & -> & Ho2 & Hl2 & Hr); [done|done|set_solver|done|done|].
  assert (Hw2 : watermark i2 = watermark i) by (unfold watermark, read_ts in *; by rewrite Ho2, Hw).
  run. rewrite (encode_record_log i1 i2) by done. destruct r as [[]|e]; cbn [is_ok].
  - destruct Hr as [Hi2 Hvalid]. pose proof (append_inv i2 _ _ _ _ ts writes Hi2) as Happ.
    destruct (append i2 _) as [i3 d]. destruct Happ as (Hi3 & Ho3 & Hl3 & Hd & Hlogged).
    assert (Hw3 : watermark i3 = watermark i) by (unfold watermark, read_ts in *; by rewrite Ho3).
    destruct (release_inv i3 _ _ _ _ ts Hi3 Hf) as (i4 & -> & Hi4 & Hl4 & Hn4 & Hw4).
    rewrite Ho3, Ho2, Hn in Hn4. rewrite Hw3 in Hw4. rewrite Hl2, Hlog in Hl3, Hd.
    assert (Hl : is_Some (log i4) → is_Some (log i)) by by rewrite Hl4.
    assert (Hli : log i = log i2) by (by rewrite Hl2, Hlog).
    destruct Hd as [-> | [[e ->] ?]]; run.
    + eexists i4, (Ok ts). split_and!; [done..|]. intros HL logged ??.
      apply (log_holds_log i3); [done|]. apply Hlogged; [by apply (log_holds_log i)|done].
    + eexists i4, (Err (TxnError.durability e)). split_and!; [done..|]. intros HL logged ??.
      destruct (Hlogged HL logged); [by apply (log_holds_log i)|done|left|right];
        by apply (log_holds_log i3).
  - assert (Hi2 : inv i2 live ({[Timestamp.get ts]} ∪ inflight) h hz)
      by (destruct e; [apply Hr|apply Hr|done]).
    destruct (release_inv i2 _ _ _ _ ts Hi2 Hf) as (i4 & -> & Hi4 & Hl4 & Hn4 & Hw4).
    run. cbn. rewrite Ho2, Hn in Hn4. rewrite Hw2 in Hw4. rewrite Hl2, Hlog in Hl4.
    exists i4, (Err e). split_and!; [done|done|done|by rewrite Hl4| |].
    + destruct e as [n| |]; [|by destruct Hr|done]. by destruct Hr.
    + intros HL logged ??. destruct e; [| |done]; by apply (log_holds_log i).
Qed.

(** ** Properties *)

(** C35: Every outcome of [commit_writes]. Run from any consistent state, with other
    commits possibly in flight, it never panics, consumes exactly one timestamp and
    never moves the watermark back, and: on success the batch is applied under that
    timestamp and nothing it validated had changed; on a conflict or a store
    failure nothing is applied and the timestamp is released all the same; on a
    durability failure (only with a log) the batch is applied although an error is
    returned. *)
Theorem commit_writes_outcomes i live inflight h hz read writes reads :
  inv i live inflight h hz → (Oracle.next_ts (oracle i) + 2 < u64_modulus)%N →
  Timestamp.get read ∈ live → NoDup writes.*1 →
  ∃ i' r, commit_writes i read writes reads = Ret (i', r) ∧
    Oracle.next_ts (oracle i') = (Oracle.next_ts (oracle i) + 1)%N ∧
    (watermark i ≤ watermark i')%N ∧
    commit_post i i' live inflight h hz read writes reads r.
Proof.
  intros Hi Hroom Hread Hnd.
  destruct (commit_writes_inv i live inflight h hz read writes reads Hi Hroom Hread Hnd)
    as (i' & r & ? & ? & ? & _ & ? & _). by exists i', r.
Qed.

(** A commit reported as failed can be visible. When the log append fails,
    [commit_writes] returns the durability error after the batch was applied and
    its timestamp released: with nothing else in flight, a read at the new
    watermark returns the value of every key the failed commit wrote. *)
Theorem durability_error_is_visible i live h hz read writes reads i' detail k v :
  inv i live ∅ h hz → (Oracle.next_ts (oracle i) + 2 < u64_modulus)%N →
  Timestamp.get read ∈ live → NoDup writes.*1 →
  commit_writes i read writes reads = Ret (i', Err (TxnError.Durability detail)) →
  (k, v) ∈ writes →
  ∃ i'' r, store_get i' k (read_ts i') = Ret (i'', r) ∧
    match r with Ok v' => v' = v | Err _ => vs_may_fail (S := S) end.
Proof.
  intros Hi Hroom Hread Hnd E Hk.
  destruct (commit_writes_inv i live ∅ h hz read writes reads Hi Hroom Hread Hnd)
    as (i1 & r & E1 & Hn & Hw & _ & Hpost & _).
  rewrite E in E1. injection E1 as <- <-. destruct Hpost as (Hi' & _ & _).
  destruct (store_get_inv i' _ _ _ _ k (read_ts i') Hi') as (i'' & r & -> & _ & _ & _ & Hr);
    [by apply (inv_horizon _ _ _ _ _ Hi')|].
  exists i'', r. split; [done|]. destruct r as [v'|[]]; try done. rewrite Hr, hist_view_snoc.
  unfold committed_view. cbn.
  rewrite (proj1 (elem_of_list_to_map writes k v Hnd) Hk). case_ts; [done|]. exfalso.
  pose proof (Oracle.watermark_wf _ _ (Oracle.next_ts (oracle i)) (inv_oracle _ _ _ _ _ Hi'))
    as [_ Hge]. cbn in *. change (Timestamp.get (Oracle.read_ts (oracle i')))
    with (Timestamp.get (read_ts i')) in Hge.
  enough (Oracle.next_ts (oracle i) ≤ Timestamp.get (read_ts i'))%N by (cbn in *; lia).
  apply Hge. split; [rewrite Hn; lia|set_solver].
Qed.

End inner.
Arguments t : clear implicits.
#[global] Arguments watermark : simpl never.
End Inner.
