(* ===== verification/Handles.v ===== *)
(** * Transactions and snapshots

    [src/txn.rs]: the handles a database hands out. A handle owns its read
    timestamp, its write buffer and its read set; everything shared is in the
    [Inner] the operations take and return. Dropping a handle is explicit. *)

From S2P Require Import Prelude RustStd Types StoreTrait CommitLog OracleState History Coordinator.

(** ** Definitions *)

Module ActiveReader.
Section active_reader.
Context `{Profile} {S : Type} `{VersionStore S} {Disk W : Type} `{Wal Disk W}.

(** [struct ActiveReader]: the [Arc<Inner>] is the state passed around. *)
Record t := mk { read_ts : Timestamp.t }.

Definition new (i : Inner.t S W) : outcome (Inner.t S W * t) :=
  '(i, ts) ← Inner.begin_reader i;
  Ret (i, {| read_ts := ts |}).

(** [impl Drop]. *)
Definition drop (i : Inner.t S W) (a : t) : outcome (Inner.t S W) := Inner.end_reader i (read_ts a).

End active_reader.
End ActiveReader.

Module Transaction.
Section transaction.
Context `{Profile} {S : Type} `{VersionStore S} {Disk W : Type} `{Wal Disk W} `{HashIter}.

(** [struct Transaction]. *)
Record t := mk {
  active : ActiveReader.t;
  writes : gmap bytes (option bytes);
  reads : option (gset bytes);
}.

Definition new (i : Inner.t S W) (serializable : bool) : outcome (Inner.t S W * t) :=
  '(i, a) ← ActiveReader.new i;
  Ret (i, {| active := a; writes := ∅; reads := if serializable then Some ∅ else None |}).

Definition read_timestamp (tx : t) : Timestamp.t := ActiveReader.read_ts (active tx).

(** [reads.borrow_mut().insert(key)], when reads are tracked. *)
Definition record_read (tx : t) (key : bytes) : t :=
  {| active := active tx; writes := writes tx; reads := (λ set, {[key]} ∪ set) <$> reads tx |}.

Definition get (i : Inner.t S W) (tx : t) (key : bytes) :
    outcome (Inner.t S W * t * Result (option bytes)) :=
  match writes tx !! key with
  | Some pending => Ret (i, tx, Ok pending)
  | None =>
     '(i, r) ← Inner.store_get i key (ActiveReader.read_ts (active tx));
     match r with
     | Err e => Ret (i, tx, Err e)
     | Ok value => Ret (i, record_read tx key, Ok value)
     end
  end.

Definition set_write (tx : t) (key : bytes) (value : option bytes) : t :=
  {| active := active tx; writes := <[key := value]> (writes tx); reads := reads tx |}.

Definition put (tx : t) (key value : bytes) : t := set_write tx key (Some value).
Definition delete (tx : t) (key : bytes) : t := set_write tx key None.

(** The read set handed to the store: keys also written are left out. *)
Definition commit_reads (tx : t) : list bytes :=
  match reads tx with
  | Some set => filter (λ key, writes tx !! key = None) (set_iter set)
  | None => []
  end.

Definition batch (tx : t) : list WriteEntry := hash_iter (writes tx).

(** [commit] consumes the transaction; its reader is dropped when it returns. *)
Definition commit (i : Inner.t S W) (tx : t) : outcome (Inner.t S W * Result Timestamp.t) :=
  let read_ts := ActiveReader.read_ts (active tx) in
  '(i, r) ←
    (if bool_decide (writes tx = ∅) then Ret (i, Ok read_ts)
     else Inner.commit_writes i read_ts (batch tx) (commit_reads tx));
  i ← ActiveReader.drop i (active tx);
  Ret (i, r).

(** [rollback], and dropping a transaction. *)
Definition rollback (i : Inner.t S W) (tx : t) : outcome (Inner.t S W) :=
  ActiveReader.drop i (active tx).

(** ** Specification *)

(** What a transaction sees: its own writes over the snapshot of [h] it reads at. *)
Definition view (h : History) (tx : t) (key : bytes) : option bytes :=
  match writes tx !! key with
  | Some pending => pending
  | None => hist_view h key (read_timestamp tx)
  end.

(** A sequence of [put]s ([Some]) and [delete]s ([None]). *)
Definition buffer (tx : t) (ops : list (bytes * option bytes)) : t :=
  foldl (λ tx '(key, v), set_write tx key v) tx ops.

(** The keys a commit validates. *)
Definition validated (tx : t) (key : bytes) : Prop :=
  is_Some (writes tx !! key) ∨ key ∈ default ∅ (reads tx).

(** ** Lemmas *)

Context `{!StoreLaws S}.

Lemma new_tx_inv i live inflight h hz serializable :
  Inner.inv i live inflight h hz → (N.of_nat (length live) + 2 < u64_modulus)%N →
  ∃ i' tx, new i serializable = Ret (i', tx) ∧
    Inner.inv i' (Timestamp.get (read_timestamp tx) :: live) inflight h hz ∧
    read_timestamp tx = Inner.read_ts i ∧ writes tx = ∅ ∧
    reads tx = (if serializable then Some ∅ else None) ∧
    Inner.store i' = Inner.store i ∧ Inner.log i' = Inner.log i ∧
    Oracle.next_ts (Inner.oracle i') = Oracle.next_ts (Inner.oracle i) ∧
    Inner.read_ts i' = Inner.read_ts i.
Proof.
  intros Hi Hroom. unfold new, ActiveReader.new.
  destruct (Inner.begin_reader_inv _ _ _ _ _ Hi Hroom) as (i' & -> & Hi' & ? & ? & ? & ?). run.
  eexists i', _. split; [done|]. by split_and!.
Qed.

Lemma get_inv i live inflight h hz tx key :
  Inner.inv i live inflight h hz → Timestamp.get (read_timestamp tx) ∈ live →
  ∃ i' tx' r, get i tx key = Ret (i', tx', r) ∧ Inner.inv i' live inflight h hz ∧
    Inner.oracle i' = Inner.oracle i ∧ Inner.log i' = Inner.log i ∧
    active tx' = active tx ∧ writes tx' = writes tx ∧
    match r with
    | Ok v => v = view h tx key ∧
        reads tx' = (λ set, if writes tx !! key then set else {[key]} ∪ set) <$> reads tx
    | Err (TxnError.Store _ _) => tx' = tx ∧ vs_may_fail (S := S)
    | Err _ => False
    end.
Proof.
  intros Hi Hlive. unfold get, view. destruct (writes tx !! key) as [pending|] eqn:E.
  { eexists i, tx, _. split; [done|]. split_and!; try done. by destruct (reads tx). }
  unfold read_timestamp in *.
  destruct (Inner.store_get_inv i live inflight h hz key (ActiveReader.read_ts (active tx)))
    as (i' & r & -> & Hi' & Ho & Hl & Hr); [done|by eapply Inner.inv_live|]. run.
  destruct r as [v|e]; eexists i', _, _; (split; [done|]); split_and!; try done.
  by destruct e.
Qed.

Lemma batch_NoDup tx : NoDup (batch tx).*1.
Proof. apply hash_iter_NoDup. Qed.

Lemma batch_map tx ts : writes_map (Inner.commit_of ts (batch tx)) = writes tx.
Proof. apply hash_iter_list_to_map. Qed.

Lemma batch_elem tx key : key ∈ (batch tx).*1 ↔ is_Some (writes tx !! key).
Proof.
  rewrite list_elem_of_fmap. split.
  - intros ([k v] & -> & Hkv%hash_iter_elem). by exists v.
  - intros [v Hv%hash_iter_elem]. by exists (key, v).
Qed.

Lemma commit_reads_elem tx key :
  key ∈ commit_reads tx ↔ key ∈ default ∅ (reads tx) ∧ writes tx !! key = None.
Proof.
  unfold commit_reads. destruct (reads tx) as [set|]; cbn; [|set_solver].
  rewrite list_elem_of_filter, set_iter_elem. tauto.
Qed.

Lemma validated_elem tx key : key ∈ (batch tx).*1 ++ commit_reads tx ↔ validated tx key.
Proof.
  rewrite elem_of_app, batch_elem, commit_reads_elem. unfold validated.
  destruct (writes tx !! key); naive_solver.
Qed.

(** Dropping the reader after a commit. *)
Lemma commit_post_drop (i i1 i2 : Inner.t S W) ts live inflight h hz writes reads r :
  Inner.commit_post i i1 (Timestamp.get ts :: live) inflight h hz ts writes reads r →
  Inner.end_reader i1 ts = Ret i2 →
  Inner.commit_post i i2 live inflight h hz ts writes reads r.
Proof.
  intros Hpost Hend.
  assert (Hdrop : ∀ h', Inner.inv i1 (Timestamp.get ts :: live) inflight h' hz →
    Inner.inv i2 live inflight h' hz ∧ Inner.log i2 = Inner.log i1).
  { intros h' Hi. destruct (Inner.end_reader_inv _ _ _ _ _ _ Hi) as (i2' & E & ? & _ & ? & _).
    rewrite Hend in E. by injection E as ->. }
  destruct r as [|[]]; cbn in *.
  - destruct Hpost as (? & Hi & ?). split_and!; [done|by apply Hdrop|done].
  - destruct Hpost as (Hi & Hl & ?). destruct (Hdrop _ Hi) as [? ->]. done.
  - destruct Hpost as (Hi & Hl & ?). destruct (Hdrop _ Hi) as [? ->]. done.
  - destruct Hpost as (Hi & Hl & ?). split_and!; [by apply Hdrop|done..].
Qed.

Lemma commit_inv i live inflight h hz tx :
  Inner.inv i (Timestamp.get (read_timestamp tx) :: live) inflight h hz →
  (Oracle.next_ts (Inner.oracle i) + 2 < u64_modulus)%N →
  writes tx ≠ ∅ →
  ∃ i' r, commit i tx = Ret (i', r) ∧
    Oracle.next_ts (Inner.oracle i') = (Oracle.next_ts (Inner.oracle i) + 1)%N ∧
    (Inner.watermark i ≤ Inner.watermark i')%N ∧
    (is_Some (Inner.log i') → is_Some (Inner.log i)) ∧
    Inner.commit_post i i' live inflight h hz (read_timestamp tx) (batch tx) (commit_reads tx) r ∧
    ∀ `{!WalLaws Disk W}, Inner.commit_log_post i i' (batch tx) r.
Proof.
  intros Hi Hroom Hne. unfold commit. rewrite bool_decide_false by done.
  destruct (Inner.commit_writes_inv i _ _ _ _ (read_timestamp tx) (batch tx) (commit_reads tx) Hi)
    as (i1 & r & Hc & Hn & Hw & Hls & Hpost & Hlog); [done|set_solver|apply batch_NoDup|].
  unfold read_timestamp in *. rewrite Hc. run.
  set (ts := ActiveReader.read_ts (active tx)) in *.
  unfold ActiveReader.drop. fold ts.
  assert (∃ h', Inner.inv i1 (Timestamp.get ts :: live) inflight h' hz) as [h' Hi1].
  { destruct r as [|[]]; eexists; apply Hpost. }
  destruct (Inner.end_reader_inv _ _ _ _ _ _ Hi1) as (i2 & Hend & _ & Hs2 & Hl2 & Hn2 & Hw2).
  rewrite Hend. run. eexists i2, r. split_and!; [done|by rewrite Hn2| |by rewrite Hl2| |].
  - unfold Inner.watermark in *. by rewrite Hw2.
  - by eapply commit_post_drop.
  - intros ? logged Hl Hfits. specialize (Hlog _ logged Hl Hfits).
    unfold Inner.log_holds in *. by rewrite Hl2.
Qed.

(** A transaction without writes commits trivially, at its snapshot. *)
Lemma commit_empty_inv i live inflight h hz tx :
  Inner.inv i (Timestamp.get (read_timestamp tx) :: live) inflight h hz →
  writes tx = ∅ →
  ∃ i', commit i tx = Ret (i', Ok (read_timestamp tx)) ∧ Inner.inv i' live inflight h hz ∧
    Inner.store i' = Inner.store i ∧ Inner.log i' = Inner.log i ∧
    Oracle.next_ts (Inner.oracle i') = Oracle.next_ts (Inner.oracle i) ∧
    Inner.read_ts i' = Inner.read_ts i.
Proof.
  intros Hi He. unfold commit. rewrite bool_decide_true by done. run. unfold ActiveReader.drop.
  destruct (Inner.end_reader_inv _ _ _ _ _ _ Hi) as (i' & E & ? & ? & ? & ? & ?).
  unfold read_timestamp in E. rewrite E. run. by eexists.
Qed.

Lemma rollback_inv i live inflight h hz tx :
  Inner.inv i (Timestamp.get (read_timestamp tx) :: live) inflight h hz →
  ∃ i', rollback i tx = Ret i' ∧ Inner.inv i' live inflight h hz ∧
    Inner.store i' = Inner.store i ∧ Inner.log i' = Inner.log i ∧
    Oracle.next_ts (Inner.oracle i') = Oracle.next_ts (Inner.oracle i) ∧
    Inner.read_ts i' = Inner.read_ts i.
Proof. intros Hi. by apply Inner.end_reader_inv. Qed.

(** ** Properties *)

(** Read your own writes. After any sequence of [put]s and [delete]s, a read of
    a key returns the last of them that touched the key, absent after a delete,
    without consulting the store or recording a read; a key none of them touched
    reads as it did before. *)
Theorem read_your_own_writes i tx ops key :
  match last (filter (λ w, w.1 = key) ops) with
  | Some (_, v) => get i (buffer tx ops) key = Ret (i, buffer tx ops, Ok v)
  | None =>
     writes (buffer tx ops) !! key = writes tx !! key ∧
     ∀ h, view h (buffer tx ops) key = view h tx key
  end.
Proof using Type.
  assert (Hlook : writes (buffer tx ops) !! key =
    match last (filter (λ w, w.1 = key) ops) with Some (_, v) => Some v | None => writes tx !! key end).
  { induction ops as [|[k v] ops IH] using rev_ind; [done|]. unfold buffer in *.
    rewrite foldl_app, filter_app. cbn [foldl set_write writes].
    destruct (decide (k = key)) as [->|Hne].
    - rewrite filter_cons_True by done. cbn. by rewrite last_snoc, lookup_insert_eq.
    - rewrite filter_cons_False by done. cbn. by rewrite app_nil_r, lookup_insert_ne. }
  destruct (last (filter _ ops)) as [[k v]|].
  - unfold get. by rewrite Hlook.
  - split; [done|]. intros h. unfold view. rewrite Hlook.
    replace (read_timestamp (buffer tx ops)) with (read_timestamp tx); [done|].
    clear. unfold read_timestamp, buffer. induction ops as [|[k v] ops IH] using rev_ind; [done|].
    by rewrite foldl_app.
Qed.

(** What is handed to the store. The batch of a commit holds every buffered
    write once and nothing else; the read set holds every tracked key that is not
    also written, once and nothing else; together they cover exactly the keys the
    commit has to validate. *)
Lemma commit_arguments_exact tx key v :
  ((key, v) ∈ batch tx ↔ writes tx !! key = Some v) ∧
  (key ∈ commit_reads tx ↔ key ∈ default ∅ (reads tx) ∧ writes tx !! key = None) ∧
  (key ∈ (batch tx).*1 ++ commit_reads tx ↔ validated tx key) ∧
  NoDup ((batch tx).*1 ++ commit_reads tx).
Proof using Type.
  split_and!; [apply hash_iter_elem|apply commit_reads_elem|apply validated_elem|].
  apply NoDup_app. split_and!; [apply batch_NoDup| |].
  - intros k [v' Hv]%batch_elem [_ Hn]%commit_reads_elem. by rewrite Hv in Hn.
  - unfold commit_reads. destruct (reads tx) as [set|]; [|apply NoDup_nil_2].
    apply NoDup_filter. rewrite set_iter_perm. apply NoDup_elements.
Qed.

End transaction.
End Transaction.

Module Snapshot.
Section snapshot.
Context `{Profile} {S : Type} `{VersionStore S} {Disk W : Type} `{Wal Disk W}.

(** [struct Snapshot]. *)
Record t := mk { active : ActiveReader.t }.

Definition new (i : Inner.t S W) : outcome (Inner.t S W * t) :=
  '(i, a) ← ActiveReader.new i;
  Ret (i, {| active := a |}).

Definition read_timestamp (s : t) : Timestamp.t := ActiveReader.read_ts (active s).

Definition get (i : Inner.t S W) (s : t) (key : bytes) :
    outcome (Inner.t S W * Result (option bytes)) :=
  Inner.store_get i key (ActiveReader.read_ts (active s)).

Definition drop (i : Inner.t S W) (s : t) : outcome (Inner.t S W) :=
  ActiveReader.drop i (active s).

End snapshot.
End Snapshot.
