(* ===== verification/Database.v ===== *)
(** * The database handle

    [struct Db] of [src/db.rs]: the front door. A [Db] is a handle to the shared
    [Inner], so every operation takes it and returns it; cloning a handle shares
    the state and is the identity here. [open] is for the in-memory store, the
    rest is generic in the store. *)

From S2P Require Import Prelude RustStd Types Chain StoreTrait CommitLog MemStore OracleState.
From S2P Require Import History Coordinator Handles.

Module Db.

(** ** Definitions *)

Section db.
Context `{Profile} {S : Type} `{VersionStore S} {Disk W : Type} `{Wal Disk W} `{HashIter}.

Definition with_store (s : S) : Inner.t S W := Inner.new s.

Definition begin (i : Inner.t S W) : outcome (Inner.t S W * Transaction.t) :=
  Transaction.new i false.

Definition begin_serializable (i : Inner.t S W) : outcome (Inner.t S W * Transaction.t) :=
  Transaction.new i true.

Definition snapshot (i : Inner.t S W) : outcome (Inner.t S W * Snapshot.t) := Snapshot.new i.

(** The temporary snapshot is dropped at the end of the expression. *)
Definition get (i : Inner.t S W) (key : bytes) :
    outcome (Inner.t S W * Result (option bytes)) :=
  '(i, s) ← snapshot i;
  '(i, r) ← Snapshot.get i s key;
  i ← Snapshot.drop i s;
  Ret (i, r).

(** The retry loops of [put] and [delete]; [None] is running out of fuel. *)
Fixpoint put_loop (fuel : nat) (i : Inner.t S W) (key value : bytes) :
    outcome (option (Inner.t S W * Result Timestamp.t)) :=
  match fuel with
  | O => Ret None
  | Datatypes.S fuel =>
     '(i, tx) ← begin i;
     let tx := Transaction.put tx key value in
     '(i, r) ← Transaction.commit i tx;
     match r with
     | Ok ts => Ret (Some (i, Ok ts))
     | Err e => if TxnError.is_retryable e then put_loop fuel i key value
                else Ret (Some (i, Err e))
     end
  end.

Fixpoint delete_loop (fuel : nat) (i : Inner.t S W) (key : bytes) :
    outcome (option (Inner.t S W * Result Timestamp.t)) :=
  match fuel with
  | O => Ret None
  | Datatypes.S fuel =>
     '(i, tx) ← begin i;
     let tx := Transaction.delete tx key in
     '(i, r) ← Transaction.commit i tx;
     match r with
     | Ok ts => Ret (Some (i, Ok ts))
     | Err e => if TxnError.is_retryable e then delete_loop fuel i key
                else Ret (Some (i, Err e))
     end
  end.

Definition last_committed (i : Inner.t S W) : Timestamp.t := Inner.read_ts i.

Definition collect_garbage (i : Inner.t S W) : outcome (Inner.t S W * nat) :=
  Inner.collect_garbage i.

End db.

Section memory.
Context `{Profile} {Disk W : Type} `{Wal Disk W} `{HashIter}.

Definition new : outcome (Inner.t MemoryStore.t W) :=
  s ← MemoryStore.new;
  Ret (with_store s).

Definition default : outcome (Inner.t MemoryStore.t W) := new.

(** The loop of [open]: install every commit and keep the highest timestamp. *)
Fixpoint replay (s : MemoryStore.t) (highest : Timestamp.t) (recovered : History) :
    outcome (MemoryStore.t * Timestamp.t) :=
  match recovered with
  | [] => Ret (s, highest)
  | c :: recovered =>
     let highest := Timestamp.max highest (Codec.commit_ts c) in
     s ← MemoryStore.install_recovered s (Codec.commit_ts c) (Codec.writes c);
     replay s highest recovered
  end.

Definition open (path : Disk) : fallible (Inner.t MemoryStore.t W) :=
  '(log, recovered) ←? CommitLog.open path;
  let recovered := sort_by_key ts_of recovered in
  s ← MemoryStore.new;
  '(s, highest) ← replay s Timestamp.ZERO recovered;
  o ← Oracle.recovered highest;
  Ret (Ok (Inner.recovered s o log)).

(** The highest timestamp of a list of commits. *)
Definition highest_of (from : Timestamp.t) (h : History) : Timestamp.t :=
  foldl (λ m c, Timestamp.max m (Codec.commit_ts c)) from h.

(** The store holds exactly the history. *)
Definition store_holds (s : MemoryStore.t) (h : History) : Prop :=
  vs_inv s ∧ ∀ k t, vs_view s k t = hist_view h k t ∧ vs_changed s k t = hist_changed h k t.

End memory.

(** ** Lemmas: between operations

    When no commit is in flight the watermark is the last timestamp allocated,
    and the contents of the database are those of its history there. *)

Section quiet.
Context `{Profile} {S : Type} `{StoreLaws S} {Disk W : Type} `{Wal Disk W} `{HashIter}.
Implicit Types i : Inner.t S W.

Lemma quiet_watermark i live h hz :
  Inner.inv i live ∅ h hz → (Inner.watermark i + 1)%N = Oracle.next_ts (Inner.oracle i).
Proof.
  intros Hi. destruct (Inner.inv_oracle _ _ _ _ _ Hi).
  unfold Inner.watermark, Inner.read_ts, Oracle.read_ts. cbn. rewrite wf_published.
  set (d := Oracle.done_upto _) in *.
  destruct (N.lt_ge_cases (d + 1) (Oracle.next_ts (Inner.oracle i))) as [Hlt|]; [|lia].
  destruct (wf_cover (d + 1)%N); [lia|done|set_solver].
Qed.

(** So no key has changed since. *)
Lemma quiet_unchanged i live h hz k t :
  Inner.inv i live ∅ h hz → (Inner.watermark i ≤ Timestamp.get t)%N → hist_changed h k t = false.
Proof.
  intros Hi Ht. apply hist_changed_false. intros c Hc _.
  pose proof (Inner.inv_issued _ _ _ _ _ Hi c Hc). pose proof (quiet_watermark _ _ _ _ Hi). lia.
Qed.

Lemma quiet_view i live h hz k t :
  Inner.inv i live ∅ h hz → (Inner.watermark i ≤ Timestamp.get t)%N →
  hist_view h k t = hist_view h k (Inner.read_ts i).
Proof.
  intros Hi Ht. apply hist_view_between; [done|]. intros c Hc Hk Hlt.
  pose proof (quiet_unchanged i live h hz k (Inner.read_ts i) Hi ltac:(done)) as Hun.
  rewrite hist_changed_false in Hun. specialize (Hun c Hc Hk). lia.
Qed.

End quiet.

(** ** Lemmas: recovery *)

Section recovery.
Context `{Profile} `{HashIter} {Disk W : Type} `{Wal Disk W}.

Lemma highest_of_ge h from c : c ∈ h → (ts_of c ≤ Timestamp.get (highest_of from h))%N.
Proof.
  induction h as [|c' h IH] using rev_ind; intros Hc; [set_solver|]. unfold highest_of in *.
  rewrite foldl_app. cbn. rewrite Timestamp.max_get.
  apply elem_of_app in Hc as [Hc%IH| ->%list_elem_of_singleton]; unfold ts_of in *; lia.
Qed.

Lemma highest_of_cases h from :
  highest_of from h = from ∨ ∃ c, c ∈ h ∧ highest_of from h = Codec.commit_ts c.
Proof.
  induction h as [|c h IH] using rev_ind; [by left|]. unfold highest_of in *. rewrite foldl_app. cbn.
  set (m := foldl _ from h) in *. unfold Timestamp.max. destruct (Timestamp.leb _ _); [right; exists c; set_solver|].
  destruct IH as [->|(c' & ? & ->)]; [by left|right; exists c'; set_solver].
Qed.

(** Installing one more recovered commit. *)
Lemma install_recovered_holds s h c h2 :
  store_holds s h → history_wf (h ++ c :: h2) →
  ∃ s', MemoryStore.install_recovered s (Codec.commit_ts c) (Codec.writes c) = Ret s' ∧
    store_holds s' (h ++ [c]).
Proof.
  intros [Hs Hview] Hwf.
  assert (MemoryStore.unchanged_keys s (Codec.commit_ts c) (Codec.writes c)) as Hun.
  { intros k Hk%touches_elem. etrans; [apply Hview|]. apply hist_changed_false.
    intros c' Hc' Hk'. pose proof (history_wf_before _ _ _ _ k Hwf Hc' Hk Hk').
    unfold ts_of in *. lia. }
  assert (NoDup (Codec.writes c).*1) as Hnd by (apply (hwf_batches _ Hwf); set_solver).
  eexists. split; [by apply MemoryStore.install_recovered_install|].
  split; [by apply MemoryStore.install_wf|]. intros k t. cbn.
  rewrite MemoryStore.view_install, MemoryStore.changed_install by done.
  rewrite hist_view_snoc, hist_changed_snoc. by destruct (Hview k t) as [<- <-].
Qed.

Lemma replay_holds h2 : ∀ s highest h,
  store_holds s h → history_wf (h ++ h2) →
  ∃ s', replay s highest h2 = Ret (s', highest_of highest h2) ∧ store_holds s' (h ++ h2).
Proof.
  induction h2 as [|c h2 IH]; intros s highest h Hs Hwf.
  { exists s. by rewrite app_nil_r. }
  destruct (install_recovered_holds s h c h2 Hs Hwf) as (s1 & E & Hs1).
  destruct (IH s1 (Timestamp.max highest (Codec.commit_ts c)) (h ++ [c]) Hs1) as (s' & E' & Hs').
  { by rewrite <-app_assoc. }
  exists s'. cbn. rewrite E. run. rewrite E'. by rewrite <-app_assoc in Hs'.
Qed.

(** Opening a disk that holds [cs]: an I/O error, or a database whose history is
    [cs] in timestamp order and that reads at its highest timestamp. *)
Lemma open_disk_inv `{!WalLaws Disk W} (d : Disk) cs :
  CommitLog.disk_holds d cs →
  NoDup (ts_of <$> cs) → (∀ c, c ∈ cs → NoDup (Codec.writes c).*1) →
  (∀ c, c ∈ cs → (ts_of c + 2 < u64_modulus)%N) →
  (∃ e, open d = Ret (Err (TxnError.durability e))) ∨
  ∃ i, open d = Ret (Ok i) ∧
    Inner.inv i [] ∅ (sort_by_key ts_of cs) 0 ∧ Inner.log_holds i cs ∧
    Inner.read_ts i = highest_of Timestamp.ZERO (sort_by_key ts_of cs).
Proof.
  intros Hl Hu Hb Hr. unfold open.
  destruct (CommitLog.open_disk d cs Hl) as [[e ->]|(l' & -> & Hl')]; [left; by exists e|right].
  unfold try_bind. run. destruct MemoryStore.new_spec as (s0 & -> & Hs0 & Hempty & _). run.
  pose proof (history_wf_sorted cs Hu Hb) as Hwf. set (h := sort_by_key ts_of cs) in *.
  assert (Hmem : ∀ c, c ∈ h ↔ c ∈ cs) by (intros c; unfold h; by rewrite sort_by_key_perm).
  destruct (replay_holds h s0 Timestamp.ZERO []) as (s & -> & Hs & Hview).
  { split; [done|]. intros k t. cbn. by rewrite Hempty. }
  { done. }
  run. set (hi := highest_of Timestamp.ZERO h).
  assert (Timestamp.get hi + 2 < u64_modulus)%N as Hhi.
  { destruct (highest_of_cases h Timestamp.ZERO) as [E|(c & Hc & E)]; unfold hi; rewrite E; [done|].
    apply Hr. by apply Hmem. }
  destruct (Oracle.recovered_wf hi Hhi) as (o & -> & Ho & Hread & Hnext & Hreaders). run.
  eexists. split; [done|]. split_and!; [|by eexists|by rewrite <-Hread].
  split; cbn; [done| |set_solver|lia|done|intros k t _; apply Hview|done|].
  - split; [|done]. intros ts. by rewrite Hreaders.
  - intros c Hc. rewrite Hnext. pose proof (highest_of_ge h Timestamp.ZERO c Hc). unfold hi. lia.
Qed.

End recovery.
End Db.
