(* ===== verification/Spec.v ===== *)
(** * Snapshot isolation, abstractly

    What the database promises a client that issues one call at a time (with any
    number of handles open), stated without chains, shards, watermarks or logs: a
    current map, the stamp of each key's last commit, a clock, and handles that
    own a copy of the map they began with. [Session] proves that [Db] implements
    it. *)

From S2P Require Import Prelude RustStd Types StoreTrait.

(** Applying a batch to a map: a tombstone deletes. *)
Definition overlay (writes : gmap bytes (option bytes)) (m : gmap bytes bytes) :
    gmap bytes bytes :=
  merge (λ w v, match w with Some w => w | None => v end) writes m.

(** ** The calls of a client and their answers *)

Inductive call :=
| Begin (serializable : bool)
| TakeSnapshot
| Get (handle : nat) (key : bytes)
| Put (handle : nat) (key value : bytes)
| Delete (handle : nat) (key : bytes)
| Commit (handle : nat)
| Drop (handle : nat)
| GetNow (key : bytes)
| PutNow (key value : bytes)
| DeleteNow (key : bytes)
| LastCommitted
| CollectGarbage.

Inductive answer :=
| Opened (handle : nat)
| Value (r : Result (option bytes))
| Committed (r : Result Timestamp.t)
| At (ts : Timestamp.t)
| Reclaimed (n : nat)
| Done
| Unusable.

(** ** States *)

Module SI.

Record txn := mkTxn {
  began : N;
  base : gmap bytes bytes;
  pending : gmap bytes (option bytes);
  seen : option (gset bytes);
}.

Inductive handle :=
| HTxn (tx : txn)
| HSnap (began : N) (base : gmap bytes bytes).

Record db := mkDb {
  now : gmap bytes bytes;
  stamps : gmap bytes N;
  clock : N;
}.

Record state := mkState { sdb : db; handles : gmap nat handle; next : nat }.

Definition initial : state := mkState (mkDb ∅ ∅ 0) ∅ 0.

Definition stamp (d : db) (key : bytes) : N := default 0%N (stamps d !! key).

Definition tick (d : db) : db := mkDb (now d) (stamps d) (clock d + 1).

Definition install (d : db) (w : gmap bytes (option bytes)) : db :=
  mkDb (overlay w (now d)) (((λ _, (clock d + 1)%N) <$> w) ∪ stamps d) (clock d + 1).

Definition begin (d : db) (serializable : bool) : txn :=
  mkTxn (clock d) (now d) ∅ (if serializable then Some ∅ else None).

Definition read (tx : txn) (key : bytes) : option bytes :=
  match pending tx !! key with Some v => v | None => base tx !! key end.

(** A read from the base is recorded when the read set is tracked. *)
Definition note (tx : txn) (key : bytes) : txn :=
  match pending tx !! key with
  | Some _ => tx
  | None => mkTxn (began tx) (base tx) (pending tx) ((λ set, {[key]} ∪ set) <$> seen tx)
  end.

Definition write (tx : txn) (key : bytes) (v : option bytes) : txn :=
  mkTxn (began tx) (base tx) (<[key := v]> (pending tx)) (seen tx).

Definition validated (tx : txn) (key : bytes) : Prop :=
  is_Some (pending tx !! key) ∨ key ∈ default ∅ (seen tx).

Definition stale (d : db) (tx : txn) (key : bytes) : Prop :=
  validated tx key ∧ (began tx < stamp d key)%N.

(** A call that names a handle needs one of the right kind. *)
Definition usable (s : state) (c : call) : bool :=
  match c with
  | Get n _ | Drop n => bool_decide (is_Some (handles s !! n))
  | Put n _ _ | Delete n _ | Commit n =>
     match handles s !! n with Some (HTxn _) => true | _ => false end
  | _ => true
  end.

(** ** Steps

    [may_fail]: the backend can fail. [durable]: there is a log, which can fail;
    the writes of a commit that could not be logged are installed all the same. *)
Section steps.
Context (may_fail durable : Prop).

Inductive committed (d : db) (tx : txn) : Result Timestamp.t → db → Prop :=
| committed_nothing :
   pending tx = ∅ →
   committed d tx (Ok (Timestamp.from_raw (began tx))) d
| committed_ok :
   pending tx ≠ ∅ → (∀ key, ¬ stale d tx key) →
   committed d tx (Ok (Timestamp.from_raw (clock d + 1))) (install d (pending tx))
| committed_conflict key :
   pending tx ≠ ∅ → stale d tx key →
   committed d tx (Err (TxnError.conflict (length key))) (tick d)
| committed_store context detail :
   pending tx ≠ ∅ → may_fail →
   committed d tx (Err (TxnError.Store context detail)) (tick d)
| committed_durability detail :
   pending tx ≠ ∅ → durable → (∀ key, ¬ stale d tx key) →
   committed d tx (Err (TxnError.Durability detail)) (install d (pending tx)).

(** A read returns the value, or a failure of the backend. *)
Inductive reads_as (v : option bytes) : Result (option bytes) → bool → Prop :=
| reads_ok : reads_as v (Ok v) true
| reads_store context detail :
   may_fail → reads_as v (Err (TxnError.Store context detail)) false.

Inductive step (s : state) : call → answer → state → Prop :=
| step_begin serializable :
   step s (Begin serializable) (Opened (next s))
     (mkState (sdb s) (<[next s := HTxn (begin (sdb s) serializable)]> (handles s)) (S (next s)))
| step_snapshot :
   step s TakeSnapshot (Opened (next s))
     (mkState (sdb s) (<[next s := HSnap (clock (sdb s)) (now (sdb s))]> (handles s)) (S (next s)))
| step_get_txn n key tx r ok :
   handles s !! n = Some (HTxn tx) → reads_as (read tx key) r ok →
   step s (Get n key) (Value r)
     (mkState (sdb s) (<[n := HTxn (if ok then note tx key else tx)]> (handles s)) (next s))
| step_get_snap n key b m r ok :
   handles s !! n = Some (HSnap b m) → reads_as (m !! key) r ok →
   step s (Get n key) (Value r) s
| step_put n key value tx :
   handles s !! n = Some (HTxn tx) →
   step s (Put n key value) Done
     (mkState (sdb s) (<[n := HTxn (write tx key (Some value))]> (handles s)) (next s))
| step_delete n key tx :
   handles s !! n = Some (HTxn tx) →
   step s (Delete n key) Done
     (mkState (sdb s) (<[n := HTxn (write tx key None)]> (handles s)) (next s))
| step_commit n tx r d :
   handles s !! n = Some (HTxn tx) → committed (sdb s) tx r d →
   step s (Commit n) (Committed r) (mkState d (delete n (handles s)) (next s))
| step_drop n h :
   handles s !! n = Some h →
   step s (Drop n) Done (mkState (sdb s) (delete n (handles s)) (next s))
| step_get_now key r ok :
   reads_as (now (sdb s) !! key) r ok →
   step s (GetNow key) (Value r) s
| step_put_now key value r d :
   committed (sdb s) (write (begin (sdb s) false) key (Some value)) r d →
   step s (PutNow key value) (Committed r) (mkState d (handles s) (next s))
| step_delete_now key r d :
   committed (sdb s) (write (begin (sdb s) false) key None) r d →
   step s (DeleteNow key) (Committed r) (mkState d (handles s) (next s))
| step_last :
   step s LastCommitted (At (Timestamp.from_raw (clock (sdb s)))) s
| step_gc n :
   step s CollectGarbage (Reclaimed n) s
| step_unusable c :
   usable s c = false →
   step s c Unusable s.

(** A conversation: calls and their answers. *)
Inductive steps : state → list (call * answer) → state → Prop :=
| steps_nil s : steps s [] s
| steps_cons s c a s1 l s2 : step s c a s1 → steps s1 l s2 → steps s ((c, a) :: l) s2.

End steps.
End SI.

Lemma lookup_overlay writes m k :
  overlay writes m !! k = match writes !! k with Some w => w | None => m !! k end.
Proof.
  unfold overlay. rewrite lookup_merge. unfold diag_None.
  by destruct (writes !! k), (m !! k).
Qed.
