(* ===== verification/Session.v ===== *)
(** * A client session implements snapshot isolation

    An interpreter of the calls of [Spec] over the [Db] of [Database], and the
    simulation that relates its states to those of the abstract machine. *)

From S2P Require Import Prelude RustStd Types StoreTrait CommitLog OracleState History.
From S2P Require Import Coordinator Handles Database Spec.

(** ** Definitions *)

Module Session.
Section session.
Context `{Profile} {S : Type} `{VersionStore S} {Disk W : Type} `{Wal Disk W} `{HashIter}.

Inductive handle :=
| HTxn (tx : Transaction.t)
| HSnap (s : Snapshot.t).

Record t := mk { inner : Inner.t S W; handles : gmap nat handle; next : nat }.

Definition start (i : Inner.t S W) : t := mk i ∅ 0.

(** Opening a handle, replacing it, closing it. *)
Definition opened (s : t) (i : Inner.t S W) (x : handle) : t * answer :=
  (mk i (<[next s := x]> (handles s)) (Datatypes.S (next s)), Opened (next s)).

Definition updated (s : t) (i : Inner.t S W) (n : nat) (x : handle) (a : answer) : t * answer :=
  (mk i (<[n := x]> (handles s)) (next s), a).

Definition closed (s : t) (i : Inner.t S W) (n : nat) (a : answer) : t * answer :=
  (mk i (delete n (handles s)) (next s), a).

Definition kept (s : t) (i : Inner.t S W) (a : answer) : t * answer :=
  (mk i (handles s) (next s), a).

Definition committed (s : t) (o : option (Inner.t S W * Result Timestamp.t)) :
    option (t * answer) :=
  match o with Some (i, r) => Some (kept s i (Committed r)) | None => None end.

(** One call; [None] when a retry loop runs out of [fuel]. *)
Definition exec (fuel : nat) (s : t) (c : call) : outcome (option (t * answer)) :=
  let i := inner s in
  match c with
  | Begin serializable =>
     '(i, tx) ← (if serializable then Db.begin_serializable i else Db.begin i);
     Ret (Some (opened s i (HTxn tx)))
  | TakeSnapshot => '(i, x) ← Db.snapshot i; Ret (Some (opened s i (HSnap x)))
  | Get n key =>
     match handles s !! n with
     | Some (HTxn tx) =>
        '(i, tx, r) ← Transaction.get i tx key; Ret (Some (updated s i n (HTxn tx) (Value r)))
     | Some (HSnap x) =>
        '(i, r) ← Snapshot.get i x key; Ret (Some (kept s i (Value r)))
     | None => Ret (Some (s, Unusable))
     end
  | Put n key value =>
     match handles s !! n with
     | Some (HTxn tx) => Ret (Some (updated s i n (HTxn (Transaction.put tx key value)) Done))
     | _ => Ret (Some (s, Unusable))
     end
  | Delete n key =>
     match handles s !! n with
     | Some (HTxn tx) => Ret (Some (updated s i n (HTxn (Transaction.delete tx key)) Done))
     | _ => Ret (Some (s, Unusable))
     end
  | Commit n =>
     match handles s !! n with
     | Some (HTxn tx) =>
        '(i, r) ← Transaction.commit i tx; Ret (Some (closed s i n (Committed r)))
     | _ => Ret (Some (s, Unusable))
     end
  | Drop n =>
     match handles s !! n with
     | Some (HTxn tx) => i ← Transaction.rollback i tx; Ret (Some (closed s i n Done))
     | Some (HSnap x) => i ← Snapshot.drop i x; Ret (Some (closed s i n Done))
     | None => Ret (Some (s, Unusable))
     end
  | GetNow key => '(i, r) ← Db.get i key; Ret (Some (kept s i (Value r)))
  | PutNow key value =>
     o ← Db.put_loop fuel i key value;
     Ret (committed s o)
  | DeleteNow key =>
     o ← Db.delete_loop fuel i key;
     Ret (committed s o)
  | LastCommitted => Ret (Some (s, At (Db.last_committed i)))
  | CollectGarbage =>
     '(i, n) ← Db.collect_garbage i; Ret (Some (kept s i (Reclaimed n)))
  end.

Fixpoint run_calls (fuel : nat) (s : t) (cs : list call) : outcome (option (t * list answer)) :=
  match cs with
  | [] => Ret (Some (s, []))
  | c :: cs =>
     o ← exec fuel s c;
     match o with
     | None => Ret None
     | Some (s, a) =>
        o ← run_calls fuel s cs;
        Ret match o with Some (s, answers) => Some (s, a :: answers) | None => None end
     end
  end.

(** ** The simulation *)

Context `{!StoreLaws S}.

Definition handle_ts (x : handle) : N :=
  match x with
  | HTxn tx => Timestamp.get (Transaction.read_timestamp tx)
  | HSnap s => Timestamp.get (Snapshot.read_timestamp s)
  end.

Definition live_of (hs : gmap nat handle) : list N := (λ p, handle_ts p.2) <$> map_to_list hs.

(** [m] is what the history reads at [ts]. *)
Definition map_at (h : History) (ts : N) (m : gmap bytes bytes) : Prop :=
  ∀ k, m !! k = hist_view h k (Timestamp.from_raw ts).

Definition sim_txn (h : History) (tx : Transaction.t) (x : SI.txn) : Prop :=
  SI.began x = Timestamp.get (Transaction.read_timestamp tx) ∧
  map_at h (SI.began x) (SI.base x) ∧
  SI.pending x = Transaction.writes tx ∧
  SI.seen x = Transaction.reads tx.

Definition sim_handle (h : History) (x : handle) (y : SI.handle) : Prop :=
  match x, y with
  | HTxn tx, SI.HTxn y => sim_txn h tx y
  | HSnap s, SI.HSnap b m => b = Timestamp.get (Snapshot.read_timestamp s) ∧ map_at h b m
  | _, _ => False
  end.

Context (durable : Prop).
#[local] Abbreviation may_fail := (vs_may_fail (S := S)).

Record sim_db (h : History) (i : Inner.t S W) (live : list N) (d : SI.db) : Prop := {
  sd_inv : ∃ hz, Inner.inv i live ∅ h hz;
  sd_now : map_at h (Inner.watermark i) (SI.now d);
  sd_stamps k t : hist_changed h k t = (Timestamp.get t <? SI.stamp d k)%N;
  sd_clock : SI.clock d = Inner.watermark i;
  sd_log : is_Some (Inner.log i) → durable;
}.

Record sim (h : History) (s : t) (a : SI.state) : Prop := {
  sim_sdb : sim_db h (inner s) (live_of (handles s)) (SI.sdb a);
  sim_next : SI.next a = next s;
  sim_fresh n : is_Some (handles s !! n) → n < next s;
  sim_handles n : option_Forall2 (sim_handle h) (handles s !! n) (SI.handles a !! n);
}.

(** Room for [n] more calls. *)
Definition room (s : t) (a : SI.state) (n : N) : Prop :=
  (SI.clock (SI.sdb a) + n + 2 < u64_modulus)%N ∧
  (N.of_nat (size (handles s)) + n + 1 < u64_modulus)%N.

(** Handles cannot tell a history from its extension above their timestamp. *)
Definition extends (wm : N) (h h' : History) : Prop :=
  h' = h ∨ ∃ c, h' = h ++ [c] ∧ (wm < ts_of c)%N.

(** The answer to [c] is one the abstract machine gives, and the states stay
    related with room for [n] more calls. *)
Definition simulates (fuel : nat) (s : t) (a : SI.state) (c : call) (n : N) : Prop :=
  ∃ s' ans a' h', exec fuel s c = Ret (Some (s', ans)) ∧
    SI.step may_fail durable a c ans a' ∧ sim h' s' a' ∧ room s' a' n.

(** ** Lemmas: live readers *)

Lemma live_of_insert hs n x :
  hs !! n = None → live_of (<[n := x]> hs) ≡ₚ handle_ts x :: live_of hs.
Proof using Type. intros Hn. unfold live_of. by rewrite map_to_list_insert. Qed.

Lemma live_of_delete hs n x :
  hs !! n = Some x → live_of hs ≡ₚ handle_ts x :: live_of (delete n hs).
Proof using Type.
  intros Hn. rewrite <-live_of_insert by apply lookup_delete_eq. by rewrite insert_delete_id.
Qed.

Lemma live_of_update hs n x y :
  hs !! n = Some x → handle_ts y = handle_ts x → live_of (<[n := y]> hs) ≡ₚ live_of hs.
Proof using Type.
  intros Hn Hts. rewrite (live_of_delete hs n x Hn), <-Hts, <-live_of_insert by apply lookup_delete_eq.
  by rewrite insert_delete_eq.
Qed.

Lemma live_of_elem hs n x : hs !! n = Some x → handle_ts x ∈ live_of hs.
Proof using Type. intros Hn. rewrite (live_of_delete hs n x Hn). by left. Qed.

Lemma length_live_of hs : length (live_of hs) = size hs.
Proof using Type. unfold live_of. by rewrite length_fmap, length_map_to_list. Qed.

(** ** Lemmas: the database *)

(** A step that keeps the history and the watermark. *)
Lemma sim_db_same h i i' live live' d hz :
  sim_db h i live d → Inner.inv i' live' ∅ h hz → Inner.watermark i' = Inner.watermark i →
  (is_Some (Inner.log i') → is_Some (Inner.log i)) → sim_db h i' live' d.
Proof using Type. intros [] Hi' Hw Hl. split; rewrite ?Hw; try done; [by eexists|auto]. Qed.

(** A refused commit only moves the clock. *)
Lemma sim_db_tick h i i' live live' d hz :
  sim_db h i live d → Inner.inv i' live' ∅ h hz →
  Inner.watermark i' = (Inner.watermark i + 1)%N →
  (is_Some (Inner.log i') → is_Some (Inner.log i)) → sim_db h i' live' (SI.tick d).
Proof using Type.
  intros [[hz0 Hi] Hnow Hst Hc Hl] Hi' Hw Hl'. split; [by eexists| |done|cbn; lia|auto].
  intros k. cbn. rewrite Hnow.
  rewrite (Db.quiet_view i live h hz0 k (Timestamp.from_raw (Inner.watermark i')))
    by (done || (cbn [Timestamp.get]; lia)). by eapply Db.quiet_view.
Qed.

(** An applied commit installs its batch. *)
Lemma sim_db_install h i i' live live' d hz ts tx :
  sim_db h i live d →
  Inner.inv i' live' ∅ (h ++ [Inner.commit_of ts (Transaction.batch tx)]) hz →
  Timestamp.get ts = (Inner.watermark i + 1)%N →
  Inner.watermark i' = (Inner.watermark i + 1)%N →
  (is_Some (Inner.log i') → is_Some (Inner.log i)) →
  sim_db (h ++ [Inner.commit_of ts (Transaction.batch tx)]) i' live'
    (SI.install d (Transaction.writes tx)).
Proof using Type.
  intros [[hz0 Hi] Hnow Hst Hc Hl] Hi' Hts Hw Hl'.
  pose proof (Transaction.batch_map tx ts) as Hbatch.
  unfold writes_map in Hbatch. cbn in Hbatch.
  split; [by eexists| | |cbn; lia|auto].
  - intros k. cbn. rewrite lookup_overlay, hist_view_snoc. unfold committed_view. cbn.
    rewrite Hbatch. destruct (Transaction.writes tx !! k).
    + by case_ts; [|cbn in *; lia].
    + rewrite Hnow. rewrite (Db.quiet_view i live h hz0 k (Timestamp.from_raw (Inner.watermark i')))
        by (done || (cbn [Timestamp.get]; lia)). by eapply Db.quiet_view.
  - intros k t. rewrite hist_changed_snoc. unfold committed_changed. cbn. rewrite Hbatch, Hst.
    unfold SI.stamp. cbn. rewrite lookup_union, lookup_fmap.
    destruct (Transaction.writes tx !! k) as [w|]; cbn; [|by destruct (SI.stamps d !! k)].
    assert (Hmax : (SI.stamp d k ≤ Inner.watermark i)%N).
    { apply N.le_ngt. intros Hlt. apply N.ltb_lt in Hlt.
      change (Inner.watermark i) with (Timestamp.get (Inner.read_ts i)) in Hlt.
      rewrite <-Hst, (Db.quiet_unchanged i live h hz0) in Hlt; done. }
    unfold SI.stamp in *. rewrite union_Some_l. cbn.
    case_ts; repeat case_cmp; cbn; try done; lia.
Qed.

Lemma map_at_extends wm h h' ts m :
  extends wm h h' → (ts ≤ wm)%N → map_at h ts m → map_at h' ts m.
Proof using Type.
  intros [->|(c & -> & Hc)] Hts Hm k; [done|]. rewrite hist_view_above; [apply Hm|cbn; lia].
Qed.

Lemma sim_handle_extends wm h h' x y :
  extends wm h h' → (handle_ts x ≤ wm)%N → sim_handle h x y → sim_handle h' x y.
Proof using Type.
  intros He Hx. destruct x as [tx|sn], y as [y|b m]; cbn in *; try done.
  - intros (Hb & Hm & ? & ?). split_and!; try done.
    eapply map_at_extends; [done| |done]. by rewrite Hb.
  - intros [-> Hm]. split; [done|]. by eapply map_at_extends.
Qed.

(** *** Commit *)

Lemma sim_txn_validated h tx x k : sim_txn h tx x → SI.validated x k ↔ Transaction.validated tx k.
Proof using Type. intros (_ & _ & Hp & Hs). unfold SI.validated. by rewrite Hp, Hs. Qed.

Lemma sim_txn_stale h i live d tx x k :
  sim_db h i live d → sim_txn h tx x →
  SI.stale d x k ↔
    Transaction.validated tx k ∧ hist_changed h k (Transaction.read_timestamp tx) = true.
Proof using Type.
  intros Hd Hx. unfold SI.stale. rewrite (sim_txn_validated h tx x k Hx), (sd_stamps _ _ _ _ Hd).
  destruct Hx as (-> & _). by rewrite N.ltb_lt.
Qed.

(** A commit without writes only drops the handle. *)
Lemma commit_empty_sim h i live d tx x :
  sim_db h i (Timestamp.get (Transaction.read_timestamp tx) :: live) d →
  sim_txn h tx x → Transaction.writes tx = ∅ →
  ∃ i' r, Transaction.commit i tx = Ret (i', r) ∧
    SI.committed may_fail durable d x r d ∧ sim_db h i' live d.
Proof using Type.
  intros Hd (Hbegan & _ & Hpend & _) He. pose proof Hd as [[hz Hi] _ _ _ _].
  destruct (Transaction.commit_empty_inv _ _ _ _ _ _ Hi He) as (i' & -> & Hi' & _ & Hl & _ & Hw).
  eexists i', _. split_and!; [done| |].
  - replace (Transaction.read_timestamp tx) with (Timestamp.from_raw (SI.began x))
      by (rewrite Hbegan; by destruct (Transaction.read_timestamp tx)).
    constructor. by rewrite Hpend.
  - eapply sim_db_same; [done..|unfold Inner.watermark; by rewrite Hw|by rewrite Hl].
Qed.

(** A batch that was applied is one the machine installs. *)
Lemma applied_sim h i i' live d tx x hz :
  let ts := Timestamp.from_raw (Oracle.next_ts (Inner.oracle i)) in
  let h' := h ++ [Inner.commit_of ts (Transaction.batch tx)] in
  sim_db h i (Timestamp.get (Transaction.read_timestamp tx) :: live) d →
  sim_txn h tx x → Inner.inv i' live ∅ h' hz →
  Inner.watermark i' = (Inner.watermark i + 1)%N →
  (is_Some (Inner.log i') → is_Some (Inner.log i)) →
  (∀ k, k ∈ (Transaction.batch tx).*1 ++ Transaction.commit_reads tx →
    hist_changed h k (Transaction.read_timestamp tx) = false) →
  (∀ k, ¬ SI.stale d x k) ∧ sim_db h' i' live (SI.install d (SI.pending x)) ∧
  extends (Inner.watermark i) h h'.
Proof using Type.
  intros ts h' Hd Hx Hi' Hw Hl Hvalid. pose proof Hd as [[hz0 Hi] _ _ Hc _].
  pose proof (Db.quiet_watermark _ _ _ _ Hi) as Hnext. split_and!.
  - intros k [Hk Hch]%(sim_txn_stale h i _ d tx x k Hd Hx). apply Transaction.validated_elem in Hk.
    by rewrite (Hvalid k Hk) in Hch.
  - destruct Hx as (_ & _ & -> & _). eapply sim_db_install; [done..|cbn; lia|done|done].
  - right. eexists. split; [done|]. unfold ts_of. cbn. lia.
Qed.

Lemma commit_sim h i live d tx x :
  sim_db h i (Timestamp.get (Transaction.read_timestamp tx) :: live) d →
  sim_txn h tx x →
  (SI.clock d + 3 < u64_modulus)%N →
  ∃ i' r d' h', Transaction.commit i tx = Ret (i', r) ∧
    SI.committed may_fail durable d x r d' ∧
    sim_db h' i' live d' ∧ extends (Inner.watermark i) h h'.
Proof using Type.
  intros Hd Hx Hroom. pose proof Hd as [[hz Hi] _ _ Hc Hlog].
  pose proof (Db.quiet_watermark _ _ _ _ Hi) as Hnext.
  destruct (decide (Transaction.writes tx = ∅)) as [He|Hne].
  { destruct (commit_empty_sim h i live d tx x Hd Hx He) as (i' & r & -> & ? & ?).
    exists i', r, d, h. split_and!; [done..|by left]. }
  assert (Hpne : SI.pending x ≠ ∅) by (by destruct Hx as (_ & _ & -> & _)).
  destruct (Transaction.commit_inv i live ∅ h hz tx) as (i' & r & -> & Hn & _ & Hls & Hpost & _);
    [done|lia|done|].
  assert (Hw : ∀ h', Inner.inv i' live ∅ h' hz → Inner.watermark i' = (Inner.watermark i + 1)%N).
  { intros h' Hi'. pose proof (Db.quiet_watermark _ _ _ _ Hi'). lia. }
  destruct r as [ts'|[n|context detail|detail]]; cbn [Inner.commit_post] in Hpost.
  - destruct Hpost as (-> & Hi' & Hvalid).
    destruct (applied_sim h i i' live d tx x hz Hd Hx Hi' (Hw _ Hi') Hls Hvalid) as (Hns & Hs & He).
    eexists i', _, _, _. split_and!; [done| |exact Hs|done].
    replace (Oracle.next_ts (Inner.oracle i)) with (SI.clock d + 1)%N by by rewrite Hc.
    by constructor.
  - destruct Hpost as (Hi' & Hl & k & Hk & Hch & ->).
    eexists i', _, _, h. split_and!; [done| | |by left].
    + apply (SI.committed_conflict _ _ d x k); [done|]. eapply sim_txn_stale; [done..|].
      by rewrite <-Transaction.validated_elem.
    + eapply sim_db_tick; [done..|by eapply Hw|by rewrite Hl].
  - destruct Hpost as (Hi' & Hl & Hf). eexists i', _, _, h. split_and!; [done|by constructor| |by left].
    eapply sim_db_tick; [done..|by eapply Hw|by rewrite Hl].
  - destruct Hpost as (Hi' & Hl & Hvalid).
    destruct (applied_sim h i i' live d tx x hz Hd Hx Hi' (Hw _ Hi') Hls Hvalid) as (Hns & Hs & He).
    eexists i', _, _, _. split_and!; [done| |exact Hs|done]. constructor; auto.
Qed.

Lemma committed_clock d x r d' :
  SI.committed may_fail durable d x r d' → (SI.clock d' ≤ SI.clock d + 1)%N.
Proof using Type. destruct 1; cbn; lia. Qed.

(** *** Handles *)

Lemma sim_live_le h s a n x :
  sim h s a → handles s !! n = Some x → (handle_ts x ≤ Inner.watermark (inner s))%N.
Proof using Type.
  intros [[[hz Hi] _ _ _ _] _ _ _] Hn. eapply (Inner.inv_live _ _ _ _ _ Hi). by eapply live_of_elem.
Qed.

Lemma sim_open h s a i x y :
  sim h s a → sim_db h i (handle_ts x :: live_of (handles s)) (SI.sdb a) → sim_handle h x y →
  sim h (mk i (<[next s := x]> (handles s)) (Datatypes.S (next s)))
    (SI.mkState (SI.sdb a) (<[SI.next a := y]> (SI.handles a)) (Datatypes.S (SI.next a))).
Proof using Type.
  intros Hs Hd Hxy. pose proof Hs as [_ Hnext Hfresh Hhs].
  assert (handles s !! next s = None) as Hnone.
  { apply eq_None_not_Some. intros Hn%Hfresh. lia. }
  split; cbn.
  - destruct Hd as [[hz Hi] ? ? ? ?]. split; try done. exists hz.
    eapply Inner.inv_live_perm; [|done]. by rewrite live_of_insert.
  - by rewrite Hnext.
  - intros n. rewrite lookup_insert. case_decide; [lia|]. intros Hn%Hfresh. lia.
  - intros n. rewrite Hnext, !lookup_insert. case_decide; [by constructor|apply Hhs].
Qed.

Lemma sim_update h s a i n x x' y' :
  sim h s a → handles s !! n = Some x → handle_ts x' = handle_ts x →
  sim_db h i (live_of (handles s)) (SI.sdb a) → sim_handle h x' y' →
  sim h (mk i (<[n := x']> (handles s)) (next s))
    (SI.mkState (SI.sdb a) (<[n := y']> (SI.handles a)) (SI.next a)).
Proof using Type.
  intros [_ Hnext Hfresh Hhs] Hn Hts [[hz Hi] ? ? ? ?] Hxy. split; cbn.
  - split; try done. exists hz. eapply Inner.inv_live_perm; [|done].
    by rewrite (live_of_update _ _ _ _ Hn Hts).
  - done.
  - intros m. rewrite lookup_insert. case_decide; [subst; intros _|]; apply Hfresh; by eexists.
  - intros m. rewrite !lookup_insert. case_decide; [by constructor|apply Hhs].
Qed.

Lemma sim_close h h' s a i n x d :
  sim h s a → handles s !! n = Some x →
  extends (Inner.watermark (inner s)) h h' →
  sim_db h' i (live_of (delete n (handles s))) d →
  sim h' (mk i (delete n (handles s)) (next s)) (SI.mkState d (delete n (SI.handles a)) (SI.next a)).
Proof using Type.
  intros Hs Hn He Hd. pose proof Hs as [_ Hnext Hfresh Hhs]. split; cbn; [done|done|..].
  - intros m. rewrite lookup_delete. case_decide; [by intros []|apply Hfresh].
  - intros m. rewrite !lookup_delete. case_decide; [constructor|].
    specialize (Hhs m). destruct (handles s !! m) as [z|] eqn:E; inversion Hhs; subst; constructor.
    eapply sim_handle_extends; [done|by eapply sim_live_le|done].
Qed.

Lemma sim_keep h h' s a i d :
  sim h s a → extends (Inner.watermark (inner s)) h h' →
  sim_db h' i (live_of (handles s)) d →
  sim h' (mk i (handles s) (next s)) (SI.mkState d (SI.handles a) (SI.next a)).
Proof using Type.
  intros Hs He Hd. pose proof Hs as [_ Hnext Hfresh Hhs]. split; cbn; [done..|].
  intros m. specialize (Hhs m). destruct (handles s !! m) as [z|] eqn:E; inversion Hhs; subst;
    constructor. eapply sim_handle_extends; [done|by eapply sim_live_le|done].
Qed.

(** *** Reads *)

Lemma read_sim h i live d ts m key :
  sim_db h i live d → Timestamp.get ts ∈ live → map_at h (Timestamp.get ts) m →
  ∃ i' r ok, Inner.store_get i key ts = Ret (i', r) ∧ sim_db h i' live d ∧
    SI.reads_as may_fail (m !! key) r ok.
Proof using Type.
  intros Hd Hts Hm. pose proof Hd as [[hz Hi] _ _ _ _].
  destruct (Inner.store_get_inv i live ∅ h hz key ts Hi) as (i' & r & -> & Hi' & Ho & Hl & Hr).
  { by eapply Inner.inv_live. }
  assert (sim_db h i' live d).
  { eapply sim_db_same; [done..| |by rewrite Hl].
    unfold Inner.watermark, Inner.read_ts. by rewrite Ho. }
  destruct r as [v|e].
  - eexists i', _, true. split_and!; [done..|]. rewrite Hm.
    replace (Timestamp.from_raw (Timestamp.get ts)) with ts by by destruct ts. subst v. constructor.
  - destruct e; try done. eexists i', _, false. split_and!; [done..|]. by constructor.
Qed.

Lemma get_txn_sim h i live d tx x key :
  sim_db h i live d → Timestamp.get (Transaction.read_timestamp tx) ∈ live → sim_txn h tx x →
  ∃ i' tx' r (ok : bool), Transaction.get i tx key = Ret (i', tx', r) ∧ sim_db h i' live d ∧
    SI.reads_as may_fail (SI.read x key) r ok ∧
    sim_txn h tx' (if ok then SI.note x key else x) ∧
    Transaction.read_timestamp tx' = Transaction.read_timestamp tx.
Proof using Type.
  intros Hd Hts Hx. pose proof Hx as (Hb & Hm & Hp & Hs). unfold Transaction.get, SI.read, SI.note.
  rewrite Hp. destruct (Transaction.writes tx !! key) as [v|] eqn:E.
  { eexists i, tx, _, true. split_and!; [done|done|constructor|done|done]. }
  rewrite Hb in Hm. unfold Transaction.read_timestamp in *.
  destruct (read_sim h i live d _ (SI.base x) key Hd Hts Hm) as (i' & r & ok & -> & Hd' & Hr). run.
  destruct Hr as [|context detail Hf].
  - eexists i', _, _, true. split_and!; [done|done|constructor| |done].
    split_and!; [done|by cbn; rewrite Hb|done|]. cbn. by rewrite Hs.
  - eexists i', _, _, false. split_and!; [done|done|by constructor|done|done].
Qed.

(** *** Opening and closing *)

Lemma begin_sim h i live d serializable :
  sim_db h i live d → (N.of_nat (length live) + 2 < u64_modulus)%N →
  ∃ i' tx, Transaction.new i serializable = Ret (i', tx) ∧
    sim_db h i' (Timestamp.get (Transaction.read_timestamp tx) :: live) d ∧
    sim_txn h tx (SI.begin d serializable).
Proof using Type.
  intros Hd Hroom. pose proof Hd as [[hz Hi] Hnow ? Hc ?].
  destruct (Transaction.new_tx_inv _ _ _ _ _ serializable Hi Hroom)
    as (i' & tx & -> & Hi' & Hts & Hw & Hr & _ & Hl & _ & Hwm).
  eexists i', tx. split_and!; [done| |].
  - eapply sim_db_same; [done..|unfold Inner.watermark; by rewrite Hwm|by rewrite Hl].
  - unfold sim_txn. rewrite Hts, Hw, Hr. cbn. rewrite Hc. by split_and!.
Qed.

Lemma snapshot_sim h i live d :
  sim_db h i live d → (N.of_nat (length live) + 2 < u64_modulus)%N →
  ∃ i' x, Snapshot.new i = Ret (i', x) ∧
    sim_db h i' (Timestamp.get (Snapshot.read_timestamp x) :: live) d ∧
    sim_handle h (HSnap x) (SI.HSnap (SI.clock d) (SI.now d)).
Proof using Type.
  intros Hd Hroom. pose proof Hd as [[hz Hi] Hnow ? Hc ?]. unfold Snapshot.new, ActiveReader.new.
  destruct (Inner.begin_reader_inv _ _ _ _ _ Hi Hroom) as (i' & -> & Hi' & _ & Hl & _ & Hwm). run.
  eexists i', _. split_and!; [done| |].
  - eapply sim_db_same; [done..|unfold Inner.watermark; by rewrite Hwm|by rewrite Hl].
  - cbn. rewrite Hc. by split.
Qed.

Lemma drop_sim h i ts live d :
  sim_db h i (Timestamp.get ts :: live) d →
  ∃ i', Inner.end_reader i ts = Ret i' ∧ sim_db h i' live d.
Proof using Type.
  intros Hd. pose proof Hd as [[hz Hi] _ _ _ _].
  destruct (Inner.end_reader_inv _ _ _ _ _ _ Hi) as (i' & -> & Hi' & _ & Hl & _ & Hwm).
  eexists. split; [done|].
  eapply sim_db_same; [done..|unfold Inner.watermark; by rewrite Hwm|by rewrite Hl].
Qed.

(** *** One-shot operations *)

Lemma get_now_sim h i live d key :
  sim_db h i live d → (N.of_nat (length live) + 2 < u64_modulus)%N →
  ∃ i' r ok, Db.get i key = Ret (i', r) ∧ sim_db h i' live d ∧
    SI.reads_as may_fail (SI.now d !! key) r ok.
Proof using Type.
  intros Hd Hroom. unfold Db.get, Db.snapshot.
  destruct (snapshot_sim h i live d Hd Hroom) as (i1 & x & -> & Hd1 & Hx & Hm). run.
  unfold Snapshot.get.
  change (ActiveReader.read_ts (Snapshot.active x)) with (Snapshot.read_timestamp x).
  destruct (read_sim h i1 _ d (Snapshot.read_timestamp x) (SI.now d) key Hd1)
    as (i2 & r & ok & -> & Hd2 & Hr); [by left|by rewrite <-Hx|]. run.
  unfold Snapshot.drop, ActiveReader.drop.
  destruct (drop_sim _ _ _ _ _ Hd2) as (i3 & E & Hd3). unfold Snapshot.read_timestamp in E.
  rewrite E. run. by eexists i3, r, ok.
Qed.

(** A key written by a transaction that began now cannot be stale. *)
Lemma fresh_not_stale h i live d key k v :
  sim_db h i live d → ¬ SI.stale d (SI.write (SI.begin d false) key v) k.
Proof using Type.
  intros [[hz Hi] _ Hst Hc _] [_ Hlt]. cbn in Hlt. rewrite Hc in Hlt. apply N.ltb_lt in Hlt.
  change (Inner.watermark i) with (Timestamp.get (Inner.read_ts i)) in Hlt.
  by rewrite <-Hst, (Db.quiet_unchanged i live h hz) in Hlt.
Qed.

(** The first attempt of a one-shot write is never refused by validation. *)
Lemma write_now_sim h i live d key v :
  sim_db h i live d → (N.of_nat (length live) + 2 < u64_modulus)%N →
  (SI.clock d + 3 < u64_modulus)%N →
  ∃ i1 tx i' r d' h', Db.begin i = Ret (i1, tx) ∧
    Transaction.commit i1 (Transaction.set_write tx key v) = Ret (i', r) ∧
    match r with Ok _ => True | Err e => TxnError.is_retryable e = false end ∧
    SI.committed may_fail durable d (SI.write (SI.begin d false) key v) r d' ∧
    sim_db h' i' live d' ∧ extends (Inner.watermark i) h h'.
Proof using Type.
  intros Hd Hroom Hclock.
  destruct (begin_sim h i live d false Hd Hroom) as (i1 & tx & E & Hd1 & Hx).
  assert (sim_txn h (Transaction.set_write tx key v) (SI.write (SI.begin d false) key v)) as Hx'.
  { destruct Hx as (? & ? & Hp & ?). split_and!; try done. cbn in *. by rewrite Hp. }
  destruct (commit_sim h i1 live d (Transaction.set_write tx key v) _ Hd1 Hx' Hclock)
    as (i' & r & d' & h' & Hc & Hr & Hd' & He).
  rewrite <-(sd_clock _ _ _ _ Hd1), (sd_clock _ _ _ _ Hd) in He.
  eexists i1, tx, i', r, d', h'. split_and!; [done|done| |done..].
  inversion Hr; subst; try done. exfalso.
  eapply fresh_not_stale; [exact Hd|eassumption].
Qed.

Lemma write_loop_sim h i live d key v fuel :
  sim_db h i live d → (N.of_nat (length live) + 2 < u64_modulus)%N →
  (SI.clock d + 3 < u64_modulus)%N → 1 ≤ fuel →
  ∃ i' r d' h',
    match v with
    | Some value => Db.put_loop fuel i key value
    | None => Db.delete_loop fuel i key
    end = Ret (Some (i', r)) ∧
    SI.committed may_fail durable d (SI.write (SI.begin d false) key v) r d' ∧
    sim_db h' i' live d' ∧ extends (Inner.watermark i) h h'.
Proof using Type.
  intros Hd Hroom Hclock Hfuel.
  destruct (write_now_sim h i live d key v Hd Hroom Hclock)
    as (i1 & tx & i' & r & d' & h' & Hb & Hc & Hr & Hcom & Hd' & He).
  eexists i', r, d', h'. split_and!; [|done..].
  destruct fuel as [|fuel]; [lia|].
  destruct v as [value|]; cbn [Db.put_loop Db.delete_loop]; rewrite Hb; run;
    unfold Transaction.put, Transaction.delete; rewrite Hc; run; destruct r as [|e]; by rewrite ?Hr.
Qed.

(** ** One call *)

Section one_call.
Context (fuel : nat) (h : History) (s : t) (a : SI.state) (n : N).
Context (Hs : sim h s a) (Hroom : room s a (n + 1)) (Hfuel : 1 ≤ fuel).

Lemma sim_room_live : (N.of_nat (length (live_of (handles s))) + 2 < u64_modulus)%N.
Proof. destruct Hroom. rewrite length_live_of. lia. Qed.

Lemma sim_room_clock : (SI.clock (SI.sdb a) + 3 < u64_modulus)%N.
Proof. destruct Hroom. lia. Qed.

Lemma sim_next_none : handles s !! next s = None.
Proof. apply eq_None_not_Some. intros Hn%(sim_fresh _ _ _ Hs). lia. Qed.

(** The handle the abstract machine has at [m], when the session has [x]. *)
Lemma sim_lookup m x :
  handles s !! m = Some x → ∃ y, SI.handles a !! m = Some y ∧ sim_handle h x y.
Proof.
  intros Hm. pose proof (sim_handles _ _ _ Hs m) as Hh. rewrite Hm in Hh.
  inversion Hh; subst. by eexists.
Qed.

Lemma sim_lookup_None m : handles s !! m = None → SI.handles a !! m = None.
Proof.
  intros Hm. pose proof (sim_handles _ _ _ Hs m) as Hh. rewrite Hm in Hh. by inversion Hh.
Qed.

Lemma room_open i x d y :
  SI.clock d = SI.clock (SI.sdb a) →
  room (mk i (<[next s := x]> (handles s)) (Datatypes.S (next s)))
    (SI.mkState d (<[SI.next a := y]> (SI.handles a)) (Datatypes.S (SI.next a))) n.
Proof.
  intros Hd. destruct Hroom. split; cbn; [lia|].
  rewrite map_size_insert_None by apply sim_next_none. lia.
Qed.

Lemma room_rest i hs d hs' m m' :
  (SI.clock d ≤ SI.clock (SI.sdb a) + 1)%N → size hs ≤ size (handles s) →
  room (mk i hs m) (SI.mkState d hs' m') n.
Proof. intros. destruct Hroom. split; cbn; lia. Qed.

Lemma size_update m x y : handles s !! m = Some x → size (<[m := y]> (handles s)) ≤ size (handles s).
Proof. intros Hm. rewrite map_size_insert_Some; [done|by eexists]. Qed.

Lemma size_delete m : size (delete m (handles s)) ≤ size (handles s).
Proof. rewrite map_size_delete. destruct (handles s !! m); unfold id; lia. Qed.

Lemma unusable_sim c :
  exec fuel s c = Ret (Some (s, Unusable)) → SI.usable a c = false → simulates fuel s a c n.
Proof.
  intros E Hu. eexists s, _, a, h. split_and!; [done|by constructor|done|].
  destruct Hroom. split; lia.
Qed.

Lemma exec_begin serializable : simulates fuel s a (Begin serializable) n.
Proof.
  pose proof (sim_sdb _ _ _ Hs) as Hd. unfold simulates, exec.
  destruct (begin_sim h (inner s) _ _ serializable Hd sim_room_live) as (i' & tx & E & Hd' & Hx).
  replace (if serializable then _ else _) with (Transaction.new (inner s) serializable)
    by by destruct serializable.
  rewrite E. run. unfold opened. eexists _, _, _, h.
  split_and!; [done|rewrite <-(sim_next _ _ _ Hs); constructor|by apply sim_open|by apply room_open].
Qed.

Lemma exec_snapshot : simulates fuel s a TakeSnapshot n.
Proof.
  pose proof (sim_sdb _ _ _ Hs) as Hd. unfold simulates, exec, Db.snapshot.
  destruct (snapshot_sim h (inner s) _ _ Hd sim_room_live) as (i' & x & -> & Hd' & Hx).
  run. unfold opened. eexists _, _, _, h.
  split_and!; [done|rewrite <-(sim_next _ _ _ Hs); constructor|by apply sim_open|by apply room_open].
Qed.

Lemma exec_get m key : simulates fuel s a (Get m key) n.
Proof.
  pose proof (sim_sdb _ _ _ Hs) as Hd. destruct (handles s !! m) as [x|] eqn:Hm.
  2:{ apply unusable_sim; cbn; [by rewrite Hm|by rewrite sim_lookup_None]. }
  destruct (sim_lookup m x Hm) as (y & Hy & Hxy). unfold simulates, exec. rewrite Hm.
  pose proof (live_of_elem _ _ _ Hm) as Hin.
  destruct x as [tx|x], y as [y|b base]; try done.
  - destruct (get_txn_sim h (inner s) _ _ tx y key Hd Hin Hxy)
      as (i' & tx' & r & ok & -> & Hd' & Hr & Hx' & Hts). run.
    eexists _, _, _, h. split_and!; [done|by econstructor| |].
    + eapply sim_update; [done..|cbn; by rewrite Hts|done|done].
    + apply room_rest; [lia|by eapply size_update].
  - destruct Hxy as [-> Hbase]. unfold Snapshot.get.
    destruct (read_sim h (inner s) _ _ (Snapshot.read_timestamp x) base key Hd Hin Hbase)
      as (i' & r & ok & E & Hd' & Hr). unfold Snapshot.read_timestamp in E. rewrite E. run.
    eexists _, _, a, h. split_and!; [done|by econstructor| |].
    + replace a with (SI.mkState (SI.sdb a) (SI.handles a) (SI.next a)) by by destruct a.
      by eapply sim_keep; [done|left|].
    + destruct Hroom. split; cbn; lia.
Qed.

Lemma exec_write c m key v :
  (c = Delete m key ∧ v = None ∨ ∃ value, c = Put m key value ∧ v = Some value) →
  simulates fuel s a c n.
Proof.
  intros Hc. pose proof (sim_sdb _ _ _ Hs) as Hd.
  destruct (handles s !! m) as [[tx|x]|] eqn:Hm.
  - destruct (sim_lookup m _ Hm) as ([y|] & Hy & Hxy); [|done].
    assert (exec fuel s c = Ret (Some (updated s (inner s) m (HTxn (Transaction.set_write tx key v))
      Done))) as E.
    { destruct Hc as [[-> ->]|(value & -> & ->)]; cbn; by rewrite Hm. }
    eexists _, _, (SI.mkState (SI.sdb a) (<[m := SI.HTxn (SI.write y key v)]> (SI.handles a))
      (SI.next a)), h. split_and!; [done| | |].
    + destruct Hc as [[-> ->]|(value & -> & ->)]; by constructor.
    + eapply sim_update; [done..|]. destruct Hxy as (? & ? & Hp & ?).
      split_and!; try done. cbn in *. by rewrite Hp.
    + apply room_rest; [lia|by eapply size_update].
  - destruct (sim_lookup m _ Hm) as ([y|] & Hy & Hxy); [done|].
    apply unusable_sim; destruct Hc as [[-> ->]|(value & -> & ->)]; cbn; rewrite ?Hm, ?Hy; done.
  - apply unusable_sim; destruct Hc as [[-> ->]|(value & -> & ->)]; cbn;
      rewrite ?Hm, ?sim_lookup_None; done.
Qed.

Lemma exec_commit m : simulates fuel s a (Commit m) n.
Proof.
  pose proof (sim_sdb _ _ _ Hs) as Hd. destruct (handles s !! m) as [[tx|x]|] eqn:Hm.
  - destruct (sim_lookup m _ Hm) as ([y|] & Hy & Hxy); [|done].
    assert (sim_db h (inner s) (Timestamp.get (Transaction.read_timestamp tx) ::
      live_of (delete m (handles s))) (SI.sdb a)) as Hd'.
    { destruct Hd as [[hz Hi] ? ? ? ?]. split; try done. exists hz.
      eapply Inner.inv_live_perm; [|done]. by rewrite (live_of_delete _ _ _ Hm). }
    destruct (commit_sim h (inner s) _ _ tx y Hd' Hxy sim_room_clock)
      as (i' & r & d' & h' & E & Hr & Hd'' & He).
    unfold simulates, exec. rewrite Hm, E. run.
    eexists _, _, _, h'. split_and!; [done|by econstructor|by eapply sim_close|].
    apply room_rest; [by eapply committed_clock|apply size_delete].
  - destruct (sim_lookup m _ Hm) as ([y|] & Hy & Hxy); [done|].
    apply unusable_sim; cbn; rewrite ?Hm, ?Hy; done.
  - apply unusable_sim; cbn; rewrite ?Hm, ?sim_lookup_None; done.
Qed.

Lemma exec_drop m : simulates fuel s a (Drop m) n.
Proof.
  pose proof (sim_sdb _ _ _ Hs) as Hd. destruct (handles s !! m) as [x|] eqn:Hm.
  2:{ apply unusable_sim; cbn; [by rewrite Hm|by rewrite sim_lookup_None]. }
  destruct (sim_lookup m x Hm) as (y & Hy & Hxy).
  set (ts := match x with HTxn tx => Transaction.read_timestamp tx
             | HSnap s => Snapshot.read_timestamp s end).
  assert (sim_db h (inner s) (Timestamp.get ts :: live_of (delete m (handles s))) (SI.sdb a)) as Hd'.
  { destruct Hd as [[hz Hi] ? ? ? ?]. split; try done. exists hz.
    eapply Inner.inv_live_perm; [|done]. rewrite (live_of_delete _ _ _ Hm). by destruct x. }
  destruct (drop_sim _ _ _ _ _ Hd') as (i' & E & Hd'').
  assert (exec fuel s (Drop m) = Ret (Some (closed s i' m Done))) as Ex.
  { cbn. rewrite Hm. destruct x as [tx|x]; unfold Transaction.rollback, Snapshot.drop,
      ActiveReader.drop; change (Inner.end_reader _ _) with (Inner.end_reader (inner s) ts);
      by rewrite E. }
  eexists _, _, _, h. split_and!; [done|by econstructor| |].
  - eapply sim_close; [done|done|by left|done].
  - apply room_rest; [lia|apply size_delete].
Qed.

Lemma exec_write_now c key v :
  (c = DeleteNow key ∧ v = None ∨ ∃ value, c = PutNow key value ∧ v = Some value) →
  simulates fuel s a c n.
Proof.
  intros Hc. pose proof (sim_sdb _ _ _ Hs) as Hd.
  destruct (write_loop_sim h (inner s) _ _ key v fuel Hd sim_room_live sim_room_clock Hfuel)
    as (i' & r & d' & h' & E & Hr & Hd' & He).
  assert (exec fuel s c = Ret (Some (kept s i' (Committed r)))) as Ex.
  { destruct Hc as [[-> ->]|(value & -> & ->)]; cbn; by rewrite E. }
  eexists _, _, _, h'. split_and!; [done| |by eapply sim_keep|].
  - destruct Hc as [[-> ->]|(value & -> & ->)]; by constructor.
  - apply room_rest; [by eapply committed_clock|done].
Qed.

Lemma exec_collect : simulates fuel s a CollectGarbage n.
Proof.
  pose proof (sim_sdb _ _ _ Hs) as Hd. pose proof Hd as [[hz Hi] _ _ _ _].
  unfold simulates, exec, Db.collect_garbage.
  destruct (Inner.collect_garbage_inv _ _ _ _ _ Hi) as (i' & m & -> & Hi' & Ho & Hl). run.
  eexists _, _, a, h. split_and!; [done|constructor| |destruct Hroom; split; cbn; lia].
  replace a with (SI.mkState (SI.sdb a) (SI.handles a) (SI.next a)) by by destruct a.
  eapply sim_keep; [done|by left|]. eapply sim_db_same; [done..| |by rewrite Hl].
  unfold Inner.watermark, Inner.read_ts. by rewrite Ho.
Qed.

Lemma exec_sim c : simulates fuel s a c n.
Proof.
  pose proof (sim_sdb _ _ _ Hs) as Hd.
  destruct c; eauto using exec_begin, exec_snapshot, exec_get, exec_commit, exec_drop, exec_collect.
  - eapply exec_write; eauto.
  - eapply exec_write; eauto.
  - destruct (get_now_sim h (inner s) _ _ key Hd sim_room_live) as (i' & r & ok & E & Hd' & Hr).
    unfold simulates, exec. rewrite E. run.
    eexists _, _, a, h. split_and!; [done|by econstructor| |destruct Hroom; split; cbn; lia].
    replace a with (SI.mkState (SI.sdb a) (SI.handles a) (SI.next a)) by by destruct a.
    by eapply sim_keep; [done|left|].
  - eapply exec_write_now; eauto.
  - eapply exec_write_now; eauto.
  - eexists s, _, a, h. split_and!; [done| |done|destruct Hroom; split; lia].
    unfold Db.last_committed. replace (Inner.read_ts _) with (Timestamp.from_raw (SI.clock (SI.sdb a)));
      [constructor|]. rewrite (sd_clock _ _ _ _ Hd). apply Timestamp.ext. done.
Qed.

End one_call.

(** ** A whole session *)

Lemma run_calls_sim fuel h s a cs :
  sim h s a → room s a (N.of_nat (length cs)) → 1 ≤ fuel →
  ∃ s' answers a', run_calls fuel s cs = Ret (Some (s', answers)) ∧
    SI.steps may_fail durable a (zip cs answers) a' ∧ length answers = length cs.
Proof using Type.
  intros Hs Hroom Hfuel. revert h s a Hs Hroom. induction cs as [|c cs IH]; intros h s a Hs Hroom.
  { eexists s, [], a. split_and!; [done|constructor|done]. }
  destruct (exec_sim fuel h s a (N.of_nat (length cs)) Hs) with (c := c)
    as (s1 & ans & a1 & h1 & E & Hstep & Hs1 & Hroom1); [|done|].
  { cbn [length] in Hroom. by replace (N.of_nat (length cs) + 1)%N
      with (N.of_nat (Datatypes.S (length cs))) by lia. }
  destruct (IH h1 s1 a1 Hs1 Hroom1) as (s' & answers & a' & Er & Hsteps & Hlen).
  exists s', (ans :: answers), a'. cbn. rewrite E. run. rewrite Er. run.
  split_and!; [done|by econstructor|lia].
Qed.

(** A new database is the initial abstract state. *)
Lemma start_sim s : vs_empty s → sim [] (start (Inner.new s)) SI.initial.
Proof using Type.
  intros Hs. split; cbn; [|done|by intros n []|constructor].
  split; cbn; [|intros k; apply lookup_empty|intros k t; unfold SI.stamp; cbn|done|by intros []].
  - exists 0%N. unfold live_of. rewrite map_to_list_empty. by apply Inner.new_inv.
  - rewrite lookup_empty. cbn. symmetry. apply N.ltb_ge. lia.
Qed.

End session.
Arguments t : clear implicits.

Section properties.
Context `{Profile} {S : Type} `{StoreLaws S} {Disk W : Type} `{Wal Disk W} `{HashIter}.

(** ** Properties *)

(** C9: The database implements snapshot isolation. Any sequence of calls, with any
    number of transactions and snapshots open at once, run against a new database
    over any store that meets its contract, is answered without panic or endless
    retry, and the answers are ones the abstract machine [SI] gives: reads come
    from the map as it was at begin overlaid with the handle's own writes, a commit
    is refused exactly when a key it validates has a later stamp, an accepted one
    installs its batch at once, collections and closed handles change nothing. *)
Theorem session_refines_snapshot_isolation (s0 : S) fuel cs :
  vs_empty s0 → 1 ≤ fuel → (N.of_nat (length cs) + 2 < u64_modulus)%N →
  ∃ s' answers a', run_calls fuel (start (Db.with_store (W := W) s0)) cs = Ret (Some (s', answers)) ∧
    SI.steps (vs_may_fail (S := S)) False SI.initial (zip cs answers) a' ∧
    length answers = length cs.
Proof.
  intros Hs0 Hfuel Hlen. eapply (run_calls_sim False); [by apply start_sim| |done].
  split; cbn [start handles SI.initial SI.sdb SI.clock]; [lia|]. rewrite map_size_empty. lia.
Qed.

End properties.
End Session.
