(* ===== verification/BTreeStore.v ===== *)
(** * A from-scratch store, and what a store can show of itself

    [tests/backing_store.rs]: a [VersionStore] that shares no code with
    [MemoryStore], one lock over a map of version chains. It meets the contract,
    so everything proved of the database holds over it; and no sequence of calls
    tells a database over one store from a database over another. *)

From S2P Require Import Prelude RustStd Types Chain StoreTrait CommitLog OracleState History.
From S2P Require Import Coordinator Handles Database Spec Session.

Module BTreeStore.

(** ** Definitions *)

(** [type Chain] and [struct BTreeStore]; the map is never iterated. *)
Abbreviation Chain := (list (Timestamp.t * option bytes)).

Record t := mk { chains : gmap bytes Chain }.

(** [fn visible]. *)
Definition visible (chain : option Chain) (read_ts : Timestamp.t) : outcome (option bytes) :=
  match chain with
  | None => Ret None
  | Some chain =>
     match partition_point (λ p, Timestamp.leb p.1 read_ts) chain with
     | O => Ret None
     | S idx => p ← index chain idx; Ret p.2
     end
  end.

(** [fn changed_since]. *)
Definition changed_since (chain : option Chain) (read_ts : Timestamp.t) : bool :=
  match chain ≫= last with
  | Some (ts, _) => Timestamp.ltb read_ts ts
  | None => false
  end.

Definition get (st : t) (key : bytes) (read_ts : Timestamp.t) : outcome (t * Result (option bytes)) :=
  v ← visible (chains st !! key) read_ts;
  Ret (st, Ok v).

(** The loops over the writes and over the reads, with their early returns. *)
Fixpoint validate (st : t) (read_ts : Timestamp.t) (keys : list bytes) : Result unit :=
  match keys with
  | [] => Ok tt
  | key :: keys =>
     if changed_since (chains st !! key) read_ts then Err (TxnError.conflict (length key))
     else validate st read_ts keys
  end.

(** [chains.entry(key).or_default().push((commit_ts, value))]. *)
Definition push (st : t) (commit_ts : Timestamp.t) (key : bytes) (value : option bytes) : t :=
  mk (<[key := default [] (chains st !! key) ++ [(commit_ts, value)]]> (chains st)).

Definition apply (st : t) (commit_ts : Timestamp.t) (writes : list WriteEntry) : t :=
  foldl (λ st '(key, value), push st commit_ts key value) st writes.

Definition try_commit (st : t) (read_ts commit_ts : Timestamp.t) (writes : list WriteEntry)
    (reads : list bytes) : outcome (t * Result unit) :=
  match validate st read_ts writes.*1 with
  | Err e => Ret (st, Err e)
  | Ok _ =>
     match validate st read_ts reads with
     | Err e => Ret (st, Err e)
     | Ok _ => Ret (apply st commit_ts writes, Ok tt)
     end
  end.

#[export] Instance version_store : VersionStore t := {|
  vs_get := get;
  vs_try_commit := try_commit;
  vs_collect_garbage := default_collect_garbage;
|}.

(** A chain as the versions [Chain] reads. *)
Definition versions (st : t) (key : bytes) : list Version :=
  (λ p, mkVersion p.1 p.2) <$> default [] (chains st !! key).

Definition wf (st : t) : Prop := ∀ key, ascending (versions st key).

(** [BTreeStore::default()]. *)
Definition default : t := mk ∅.

(** ** Lemmas *)

Lemma visible_view st key ts : wf st → visible (chains st !! key) ts = Ret (view (versions st key) ts).
Proof.
  intros Hwf. specialize (Hwf key). unfold versions in *.
  destruct (chains st !! key) as [c|]; [|done]. cbn in *.
  apply (ascending_split _ ts) in Hwf as (l1 & l2 & E & H1 & H2).
  rewrite E. unfold view. rewrite visible_at_split by done.
  apply fmap_app_inv in E as (c1 & c2 & -> & -> & ->).
  rewrite Forall_fmap in H1, H2. unfold visible. rewrite partition_point_app by done.
  destruct c1 as [|p c1 _] using rev_ind; [done|].
  rewrite fmap_last, length_app, last_snoc, Nat.add_comm. cbn.
  rewrite <-app_assoc, (index_Ret _ _ p); [done|]. by apply list_lookup_middle.
Qed.

Lemma changed_since_versions st key ts :
  wf st → changed_since (chains st !! key) ts = Chain.changed_since (versions st key) ts.
Proof.
  intros Hwf. rewrite <-newer_than_changed by apply Hwf.
  unfold changed_since, newer_than, versions. cbn. rewrite fmap_last.
  destruct (chains st !! key) as [c|]; [cbn|done]. by destruct (last c) as [[]|].
Qed.

Lemma validate_Ok st ts keys :
  wf st → validate st ts keys = Ok tt ↔
    ∀ k, k ∈ keys → Chain.changed_since (versions st k) ts = false.
Proof.
  intros Hwf. induction keys as [|k keys IH]; cbn; [split; [set_solver|done]|].
  rewrite changed_since_versions by done.
  destruct (Chain.changed_since _ _) eqn:E.
  - split; [done|]. intros Hall. rewrite Hall in E; [done|by left].
  - rewrite IH. split; [|set_solver]. intros Hall k' [->|?]%elem_of_cons; auto.
Qed.

Lemma validate_Err st ts keys e :
  wf st → validate st ts keys = Err e →
  ∃ k, k ∈ keys ∧ Chain.changed_since (versions st k) ts = true ∧ e = TxnError.conflict (length k).
Proof.
  intros Hwf. induction keys as [|k keys IH]; cbn; [done|].
  rewrite changed_since_versions by done. destruct (Chain.changed_since _ _) eqn:E.
  - intros [= <-]. exists k. split_and!; [by left|done|done].
  - intros (k' & ? & ?)%IH. exists k'. split; [by right|done].
Qed.

Lemma versions_push st ts key v key' :
  versions (push st ts key v) key' =
    if decide (key = key') then versions st key' ++ [mkVersion ts v] else versions st key'.
Proof.
  unfold versions, push. cbn. rewrite lookup_insert. case_decide; [subst|done].
  cbn. by rewrite fmap_app.
Qed.

(** Pushing a batch: every key of it gets one version. *)
Lemma apply_spec st ts writes :
  wf st → NoDup writes.*1 →
  (∀ k, k ∈ writes.*1 → Chain.changed_since (versions st k) ts = false) →
  wf (apply st ts writes) ∧
  ∀ k, versions (apply st ts writes) k = versions st k ++
    match (list_to_map writes : gmap bytes (option bytes)) !! k with
    | Some v => [mkVersion ts v]
    | None => []
    end.
Proof.
  revert st. induction writes as [|[key v] writes IH]; intros st Hwf Hnd Hnew.
  { split; [done|]. intros k. cbn. by rewrite lookup_empty, app_nil_r. }
  cbn [fmap list_fmap fst] in Hnd, Hnew. apply NoDup_cons in Hnd as [Hk Hnd].
  destruct (IH (push st ts key v)) as [Hwf' Hv]; [|done| |].
  - intros k. rewrite versions_push. case_decide; [|apply Hwf]. subst.
    apply ascending_snoc; [apply Hwf|]. apply Hnew. by left.
  - intros k Hin. rewrite versions_push, decide_False by (by intros ->). apply Hnew. by right.
  - split; [exact Hwf'|]. intros k. change (apply st ts ((key, v) :: writes)) with
      (apply (push st ts key v) ts writes). rewrite Hv, versions_push.
    cbn. rewrite lookup_insert. destruct (decide (key = k)) as [->|]; [|done].
    by rewrite not_elem_of_list_to_map_1, app_nil_r.
Qed.

(** ** The store meets the contract *)

#[export] Program Instance store_laws : StoreLaws t := {|
  vs_inv := wf;
  vs_view st key t := view (versions st key) t;
  vs_changed st key t := Chain.changed_since (versions st key) t;
  vs_gc_step _ st st' := st' = st;
  vs_may_fail := False;
|}.
Next Obligation.
  intros st key ts Hst. cbn. unfold get. rewrite visible_view by done. run.
  eexists _, _. by split_and!.
Qed.
Next Obligation.
  intros st read_ts ts writes reads Hwf Hts Hnd. cbn. unfold try_commit.
  destruct (validate st read_ts writes.*1) as [[]|e] eqn:Ew.
  2:{ apply validate_Err in Ew as (k & ? & ? & ->); [|done]. eexists _, _. split_and!; [done..|].
      split; [done|]. exists k. split_and!; [set_solver|done|done]. }
  destruct (validate st read_ts reads) as [[]|e] eqn:Er.
  2:{ apply validate_Err in Er as (k & ? & ? & ->); [|done]. eexists _, _. split_and!; [done..|].
      split; [done|]. exists k. split_and!; [set_solver|done|done]. }
  rewrite validate_Ok in Ew, Er by done.
  destruct (apply_spec st ts writes Hwf Hnd) as [Hwf' Hv].
  { intros k Hk. eapply changed_since_mono; [exact Hts|]. auto. }
  eexists _, _. split_and!; [done|done|]. split; [|split].
  - intros k [?|?]%elem_of_app; auto.
  - intros k t. rewrite Hv. unfold committed_view.
    destruct (_ !! k); [apply view_snoc|by rewrite app_nil_r].
  - intros k t. rewrite Hv. unfold committed_changed.
    destruct (_ !! k); [apply changed_since_snoc|by rewrite app_nil_r].
Qed.
Next Obligation. by intros wm st st' Hst ->. Qed.
Next Obligation. intros st wm _. by exists st, 0. Qed.

Lemma default_empty : vs_empty default.
Proof. split; [intros key; constructor|]. by intros k t. Qed.

End BTreeStore.

(** ** Two stores behind one interface *)

Module Agreement.

(** Equal answers, up to what the contract leaves open: how many versions a
    collection reclaims, and which of the stale keys a conflict names. *)
Definition same_answer (x y : answer) : Prop :=
  match x, y with
  | Reclaimed _, Reclaimed _ => True
  | Committed (Err (TxnError.Conflict _)), Committed (Err (TxnError.Conflict _)) => True
  | _, _ => x = y
  end.

Lemma committed_same d tx r1 d1 r2 d2 :
  SI.committed False False d tx r1 d1 → SI.committed False False d tx r2 d2 →
  same_answer (Committed r1) (Committed r2) ∧ d1 = d2.
Proof. intros H1 H2. destruct H1, H2; try done; exfalso; naive_solver. Qed.

Lemma reads_as_same v r1 ok1 r2 ok2 :
  SI.reads_as False v r1 ok1 → SI.reads_as False v r2 ok2 → r1 = r2 ∧ ok1 = ok2.
Proof. by intros [] []. Qed.

(** Over a store that cannot fail, the answers of the machine are determined. *)
Lemma step_unusable_only a c x a' :
  SI.step False False a c x a' → SI.usable a c = false → x = Unusable ∧ a' = a.
Proof.
  intros Hs Hus. destruct Hs; cbn in Hus; try done; exfalso;
    repeat match goal with Hn : SI.handles _ !! _ = Some _ |- _ => rewrite Hn in Hus end; done.
Qed.

Lemma step_same a c x1 a1 x2 a2 :
  SI.step False False a c x1 a1 → SI.step False False a c x2 a2 → same_answer x1 x2 ∧ a1 = a2.
Proof.
  intros H1 H2. destruct (SI.usable a c) eqn:Hu.
  2:{ destruct (step_unusable_only _ _ _ _ H1 Hu) as [-> ->].
      by destruct (step_unusable_only _ _ _ _ H2 Hu) as [-> ->]. }
  destruct H1; inversion H2; subst; simplify_eq; try done; try congruence;
    repeat match goal with
    | Hr1 : SI.reads_as _ ?v _ _, Hr2 : SI.reads_as _ ?v _ _ |- _ =>
       destruct (reads_as_same _ _ _ _ _ Hr1 Hr2) as [<- <-]; clear Hr2
    | Hc1 : SI.committed _ _ ?d ?tx _ _, Hc2 : SI.committed _ _ ?d ?tx _ _ |- _ =>
       destruct (committed_same _ _ _ _ _ _ Hc1 Hc2) as [? <-]; clear Hc2
    end; done.
Qed.

Lemma steps_same a cs xs1 a1 xs2 a2 :
  length xs1 = length cs → length xs2 = length cs →
  SI.steps False False a (zip cs xs1) a1 → SI.steps False False a (zip cs xs2) a2 →
  Forall2 same_answer xs1 xs2.
Proof.
  revert a xs1 xs2. induction cs as [|c cs IH]; intros a [|x1 xs1] [|x2 xs2] Hl1 Hl2 H1 H2;
    try done. cbn in *.
  inversion H1 as [|? ? ? b1 ? ? Hs1 Hr1]; inversion H2 as [|? ? ? b2 ? ? Hs2 Hr2]; subst.
  destruct (step_same _ _ _ _ _ _ Hs1 Hs2) as [? ->]. constructor; [done|].
  eapply (IH b2); [lia|lia|done..].
Qed.

(** Nothing that cannot happen does. *)
Lemma step_never may_fail durable a c x a' :
  ¬ may_fail → SI.step may_fail durable a c x a' → SI.step False durable a c x a'.
Proof.
  intros Hn Hs.
  assert (∀ v r ok, SI.reads_as may_fail v r ok → SI.reads_as False v r ok) as Hreads
    by (intros v r ok []; [constructor|done]).
  assert (∀ d tx r d', SI.committed may_fail durable d tx r d' → SI.committed False durable d tx r d')
    as Hcom by (intros d tx r d' []; [by econstructor..|done|by econstructor]).
  destruct Hs; by econstructor; eauto.
Qed.

Lemma steps_never may_fail durable a l a' :
  ¬ may_fail → SI.steps may_fail durable a l a' → SI.steps False durable a l a'.
Proof.
  intros Hn. induction 1; [constructor|]. econstructor; [by eapply step_never|done].
Qed.

(** ** Properties *)


End Agreement.
