(* ===== verification/Sequential.v ===== *)
(** * Reasoning about a program that uses a database on its own

    The state of a single-threaded client of an in-memory database: the shared
    [Inner], the handles the program holds, each with what the abstract machine of
    [Spec] knows of it, and the abstract database. One lemma per operation of
    [Db], [Transaction] and [Snapshot], each about the handle in front. *)

From S2P Require Import Prelude RustStd Types Chain StoreTrait CommitLog MemStore OracleState.
From S2P Require Import History Coordinator Handles Database Spec Session.

Module Local.
Section local.
Context `{Profile} {Disk W : Type} `{Wal Disk W} `{HashIter}.

(** ** Definitions *)

Abbreviation Shared := (Inner.t MemoryStore.t W).
Abbreviation held := (Session.handle * SI.handle)%type.

Definition ts_of_held (p : held) : N := Session.handle_ts p.1.

(** The program holds [hs]; it has made at most [n] operations. *)
Definition world (n : N) (i : Shared) (hs : list held) (d : SI.db) : Prop :=
  ∃ h, Session.sim_db False h i (ts_of_held <$> hs) d ∧
    Forall (λ p, Session.sim_handle h p.1 p.2) hs ∧
    (SI.clock d ≤ n)%N ∧ (N.of_nat (length hs) ≤ n)%N.

(** How many operations a program may make. *)
Definition LIMIT : N := u64_modulus - 5.

(** The handle in front. *)
Definition txn (tx : Transaction.t) (x : SI.txn) : held := (Session.HTxn tx, SI.HTxn x).
Definition snap (s : Snapshot.t) (b : N) (m : gmap bytes bytes) : held :=
  (Session.HSnap s, SI.HSnap b m).

(** What the machine says of a commit, when the store cannot fail and there is no
    log. *)
Definition commits (d : SI.db) (x : SI.txn) (r : Result Timestamp.t) (d' : SI.db) : Prop :=
  SI.committed False False d x r d'.

(** ** Lemmas *)

Lemma world_perm n i hs hs' d : hs ≡ₚ hs' → world n i hs d → world n i hs' d.
Proof.
  intros Hp (h & [[hz Hi] ? ? ? ?] & Hhs & ? & ?). exists h. split_and!; [|by rewrite <-Hp|done|by rewrite <-Hp].
  split; try done. exists hz. eapply Inner.inv_live_perm; [|done]. by rewrite Hp.
Qed.

Lemma world_mono n n' i hs d : (n ≤ n')%N → world n i hs d → world n' i hs d.
Proof. intros ? (h & ? & ? & ? & ?). exists h. split_and!; [done..|lia|lia]. Qed.

(** A new database. *)
Lemma world_new : ∃ i, Db.new = Ret i ∧ world 0 i [] (SI.sdb SI.initial).
Proof.
  unfold Db.new. destruct MemoryStore.new_spec as (s & -> & Hs & Hempty & _). run.
  eexists. split; [done|]. exists []. split_and!; [|done|done|done].
  assert (vs_empty s) as Hvs.
  { split; [done|]. intros k t. cbn. by rewrite Hempty. }
  pose proof (Session.sim_sdb _ _ _ _ (Session.start_sim (W := W) False s Hvs)) as Hd.
  unfold Session.start, Session.live_of in Hd. cbn in Hd. by rewrite map_to_list_empty in Hd.
Qed.

Section steps.
Implicit Types (n : N) (i : Shared) (hs : list held) (d : SI.db).

Lemma world_live n i hs d : world n i hs d → (n < LIMIT)%N →
  (N.of_nat (length (ts_of_held <$> hs)) + 2 < u64_modulus)%N.
Proof. intros (h' & _ & _ & _ & Hl) Hn. rewrite length_fmap. unfold LIMIT in Hn. lia. Qed.

Lemma world_begin n i hs d serializable :
  world n i hs d → (n < LIMIT)%N →
  ∃ i' tx, Transaction.new i serializable = Ret (i', tx) ∧
    world (n + 1) i' (txn tx (SI.begin d serializable) :: hs) d.
Proof.
  intros Hw Hn. pose proof Hw as (h & Hd & Hhs & Hc & Hl).
  destruct (Session.begin_sim False h i _ d serializable Hd) as (i' & tx & E & Hd' & Hx);
    [by eapply world_live|].
  exists i', tx. split; [done|]. exists h. split_and!; [done|by constructor|lia|cbn; lia].
Qed.

Lemma world_snapshot n i hs d :
  world n i hs d → (n < LIMIT)%N →
  ∃ i' s, Db.snapshot i = Ret (i', s) ∧ world (n + 1) i' (snap s (SI.clock d) (SI.now d) :: hs) d.
Proof.
  intros Hw Hn. pose proof Hw as (h & Hd & Hhs & Hc & Hl). unfold Db.snapshot.
  destruct (Session.snapshot_sim False h i _ d Hd) as (i' & s & E & Hd' & Hx); [by eapply world_live|].
  exists i', s. split; [done|]. exists h. split_and!; [done|by constructor|lia|cbn; lia].
Qed.

Lemma world_write n i hs d tx x key v :
  world n i (txn tx x :: hs) d →
  world n i (txn (Transaction.set_write tx key v) (SI.write x key v) :: hs) d.
Proof.
  intros (h & Hd & [Hx Hhs]%Forall_cons_1 & Hc & Hl). exists h. split_and!; [done| |done|done].
  constructor; [|done]. destruct Hx as (? & ? & Hp & ?). split_and!; try done. cbn in *. by rewrite Hp.
Qed.

Lemma world_get n i hs d tx x key :
  world n i (txn tx x :: hs) d →
  ∃ i' tx', Transaction.get i tx key = Ret (i', tx', Ok (SI.read x key)) ∧
    world n i' (txn tx' (SI.note x key) :: hs) d.
Proof.
  intros (h & Hd & [Hx Hhs]%Forall_cons_1 & Hc & Hl).
  destruct (Session.get_txn_sim False h i _ d tx x key Hd) as (i' & tx' & r & ok & -> & Hd' & Hr & Hx' & Hts);
    [by left|done|].
  destruct Hr as [|? ? []]. exists i', tx'. split; [done|]. exists h.
  split_and!; [|by constructor|done|done]. cbn. unfold ts_of_held in *. cbn in *. by rewrite Hts.
Qed.

Lemma world_read n i hs d s b m key :
  world n i (snap s b m :: hs) d →
  ∃ i', Snapshot.get i s key = Ret (i', Ok (m !! key)) ∧ world n i' (snap s b m :: hs) d.
Proof.
  intros (h & Hd & Hhs & Hc & Hl). pose proof Hhs as [[-> Hm] _]%Forall_cons_1.
  destruct (Session.read_sim False h i _ d (Snapshot.read_timestamp s) m key Hd)
    as (i' & r & ok & E & Hd' & Hr); [by left|done|]. destruct Hr as [|? ? []].
  exists i'. split; [exact E|]. by exists h.
Qed.

Lemma world_drop_snapshot n i hs d s b m :
  world n i (snap s b m :: hs) d → ∃ i', Snapshot.drop i s = Ret i' ∧ world n i' hs d.
Proof.
  intros (h & Hd & [_ Hhs]%Forall_cons_1 & Hc & Hl).
  destruct (Session.drop_sim False h i (Snapshot.read_timestamp s) _ d Hd) as (i' & E & Hd').
  exists i'. split; [exact E|]. exists h. cbn in Hl. split_and!; [done..|lia].
Qed.

Lemma world_rollback n i hs d tx x :
  world n i (txn tx x :: hs) d → ∃ i', Transaction.rollback i tx = Ret i' ∧ world n i' hs d.
Proof.
  intros (h & Hd & [_ Hhs]%Forall_cons_1 & Hc & Hl).
  destruct (Session.drop_sim False h i (Transaction.read_timestamp tx) _ d Hd) as (i' & E & Hd').
  exists i'. split; [exact E|]. exists h. cbn in Hl. split_and!; [done..|lia].
Qed.

Lemma world_commit n i hs d tx x :
  world n i (txn tx x :: hs) d → (n < LIMIT)%N →
  ∃ i' r d', Transaction.commit i tx = Ret (i', r) ∧ commits d x r d' ∧ world (n + 1) i' hs d'.
Proof.
  intros (h & Hd & [Hx Hhs]%Forall_cons_1 & Hc & Hl) Hn.
  destruct (Session.commit_sim False h i _ d tx x Hd Hx)
    as (i' & r & d' & h' & E & Hr & Hd' & He); [unfold LIMIT in *; lia|].
  exists i', r, d'. split_and!; [done|done|]. exists h'. cbn in Hl.
  pose proof (Session.committed_clock _ _ _ _ _ Hr). split_and!; [done| |lia|lia].
  rewrite Forall_forall in Hhs |- *. intros p Hp. eapply Session.sim_handle_extends; [done| |by apply Hhs].
  destruct Hd as [[hz Hi] _ _ _ _]. eapply (Inner.inv_live _ _ _ _ _ Hi).
  apply elem_of_cons. right. by apply (list_elem_of_fmap_2 ts_of_held).
Qed.

Lemma world_collect n i hs d :
  world n i hs d → ∃ i' m, Db.collect_garbage i = Ret (i', m) ∧ world n i' hs d.
Proof.
  intros (h & Hd & Hhs & Hc & Hl). pose proof Hd as [[hz Hi] _ _ _ _]. unfold Db.collect_garbage.
  destruct (Inner.collect_garbage_inv _ _ _ _ _ Hi) as (i' & m & -> & Hi' & Ho & Hlog).
  exists i', m. split; [done|]. exists h. split_and!; [|done..].
  eapply Session.sim_db_same; [done..| |by rewrite Hlog].
  unfold Inner.watermark, Inner.read_ts. by rewrite Ho.
Qed.

(** A read of the latest snapshot, dropped at once. *)
Lemma world_get_now n i hs d key :
  world n i hs d → (n < LIMIT)%N → ∃ i', Db.get i key = Ret (i', Ok (SI.now d !! key)) ∧ world n i' hs d.
Proof.
  intros Hw Hn. pose proof Hw as (h & Hd & Hhs & Hc & Hl).
  destruct (Session.get_now_sim False h i _ d key Hd) as (i' & r & ok & E & Hd' & Hr);
    [by eapply world_live|]. destruct Hr as [|? ? []].
  exists i'. split; [done|]. exists h. by split_and!.
Qed.

Lemma world_last n i hs d : world n i hs d → Db.last_committed i = Timestamp.from_raw (SI.clock d).
Proof. intros (h & [_ _ _ Hc _] & _). apply Timestamp.ext. by rewrite Hc. Qed.

End steps.

(** ** Lemmas: how a commit ends *)

Lemma commits_nothing d x r d' :
  commits d x r d' → SI.pending x = ∅ → r = Ok (Timestamp.from_raw (SI.began x)) ∧ d' = d.
Proof. by intros []. Qed.

Lemma commits_fresh d x r d' :
  commits d x r d' → SI.pending x ≠ ∅ → (∀ key, SI.validated x key → (SI.stamp d key ≤ SI.began x)%N) →
  r = Ok (Timestamp.from_raw (SI.clock d + 1)) ∧ d' = SI.install d (SI.pending x).
Proof.
  intros Hc Hne Hfresh. destruct Hc as [| |key ? [Hv Hlt]| |]; try done.
  specialize (Hfresh key Hv). lia.
Qed.

Lemma commits_stale d x r d' key :
  commits d x r d' → SI.pending x ≠ ∅ → SI.validated x key → (SI.began x < SI.stamp d key)%N →
  (∃ k : bytes, r = Err (TxnError.conflict (length k))) ∧ d' = SI.tick d.
Proof.
  intros Hc Hne Hv Hlt. destruct Hc as [|? Hn|k| |]; try done.
  - by destruct (Hn key).
  - split; [by exists k|done].
Qed.

(** Stamps are never ahead of the clock. *)
Lemma world_stamp n i hs d key : world n i hs d → (SI.stamp d key ≤ SI.clock d)%N.
Proof.
  intros (h & [[hz Hi] _ Hst Hc _] & _). apply N.le_ngt. intros Hlt%N.ltb_lt. rewrite Hc in Hlt.
  change (Inner.watermark i) with (Timestamp.get (Inner.read_ts i)) in Hlt.
  rewrite <-Hst in Hlt. by erewrite Db.quiet_unchanged in Hlt.
Qed.

Lemma lookup_now_install d w key :
  SI.now (SI.install d w) !! key = match w !! key with Some v => v | None => SI.now d !! key end.
Proof. cbn. apply lookup_overlay. Qed.

Lemma stamp_install d w key :
  SI.stamp (SI.install d w) key = if decide (is_Some (w !! key)) then (SI.clock d + 1)%N else SI.stamp d key.
Proof.
  unfold SI.stamp. cbn. rewrite lookup_union, lookup_fmap.
  destruct (w !! key) as [v|]; cbn.
  - rewrite decide_True by by eexists. by rewrite union_Some_l.
  - rewrite decide_False by by intros []. by destruct (SI.stamps d !! key).
Qed.

(** The transaction begun last, committed before anything else happens. *)
Lemma commits_now n i hs d serializable x r d' :
  world n i hs d → commits d x r d' → SI.pending x ≠ ∅ →
  SI.began x = SI.began (SI.begin d serializable) →
  r = Ok (Timestamp.from_raw (SI.clock d + 1)) ∧ d' = SI.install d (SI.pending x).
Proof.
  intros Hw Hc Hne Hb. apply (commits_fresh _ _ _ _ Hc Hne). intros key _. rewrite Hb. cbn.
  by eapply world_stamp.
Qed.

End local.
End Local.
