(* ===== verification/System.v ===== *)
(** * Concurrent transactions

    Any number of transactions and collections share one [Inner] and interleave.
    An action is one atomic piece of the code: an oracle operation, a critical
    section of the store, an append to the log, or a purely local step of a
    handle. The state carries a ghost history, the commits the store has applied
    in the order it applied them, and each client the reads it was served. A
    snapshot handle is a client that never writes. *)

From S2P Require Import Prelude RustStd Types StoreTrait CommitLog OracleState History.
From S2P Require Import Coordinator Handles.

(** ** Definitions *)

(** *** Collecting over a map of clients *)

Definition collect {A B} (f : A → option B) (m : gmap nat A) : list B :=
  omap (λ p, f p.2) (map_to_list m).

Section collect.
Context {A B : Type} (f : A → option B).
Implicit Types m : gmap nat A.

Lemma elem_collect m b : b ∈ collect f m ↔ ∃ n c, m !! n = Some c ∧ f c = Some b.
Proof.
  unfold collect. rewrite list_elem_of_omap. split.
  - intros ([n c] & Hin%elem_of_map_to_list & Hf). eauto.
  - intros (n & c & Hin%elem_of_map_to_list & Hf). by exists (n, c).
Qed.

Lemma collect_fresh m n c :
  m !! n = None → collect f (<[n := c]> m) ≡ₚ option_list (f c) ++ collect f m.
Proof.
  intros Hn. unfold collect. rewrite map_to_list_insert by done. cbn. by destruct (f c).
Qed.

Lemma collect_delete m n c :
  m !! n = Some c → collect f m ≡ₚ option_list (f c) ++ collect f (delete n m).
Proof.
  intros Hn. rewrite <-collect_fresh by apply lookup_delete_eq. by rewrite insert_delete_id.
Qed.

Lemma collect_replace m n c :
  collect f (<[n := c]> m) ≡ₚ option_list (f c) ++ collect f (delete n m).
Proof. rewrite <-insert_delete_eq, collect_fresh; [done|apply lookup_delete_eq]. Qed.

Lemma collect_update m n c c' :
  m !! n = Some c → f c' = f c → collect f (<[n := c']> m) ≡ₚ collect f m.
Proof. intros Hn Hf. by rewrite collect_replace, (collect_delete m n c), Hf. Qed.

(** The elements are unchanged when the value at [n] still yields the same. *)
Lemma collect_elem_update m n c c' b :
  m !! n = Some c → f c' = f c →
  (∃ k x, <[n := c']> m !! k = Some x ∧ f x = Some b) ↔ ∃ k x, m !! k = Some x ∧ f x = Some b.
Proof. intros Hn Hf. rewrite <-!elem_collect. by rewrite (collect_update m n c c'). Qed.

Lemma collect_elem_fresh m n c b :
  m !! n = None → f c = None →
  (∃ k x, <[n := c]> m !! k = Some x ∧ f x = Some b) ↔ ∃ k x, m !! k = Some x ∧ f x = Some b.
Proof. intros Hn Hf. rewrite <-!elem_collect, collect_fresh by done. by rewrite Hf. Qed.

Lemma collect_length m : length (collect f m) ≤ size m.
Proof.
  rewrite <-length_map_to_list. unfold collect. generalize (map_to_list m).
  induction l as [|p l IH]; cbn; [done|]. destruct (f p.2); cbn; lia.
Qed.

Lemma collect_ext (g : A → option B) m :
  (∀ n c, m !! n = Some c → f c = g c) → collect f m = collect g m.
Proof.
  intros Hfg. unfold collect. assert (∀ p, p ∈ map_to_list m → f p.2 = g p.2) as Hp.
  { intros [n c] Hin%elem_of_map_to_list. by eapply Hfg. }
  revert Hp. generalize (map_to_list m). induction l as [|p l IH]; intros Hp; cbn; [done|].
  rewrite (Hp p), IH by set_solver. done.
Qed.
End collect.

Module System.

(** Where a client is in the code of [Transaction::commit] and [commit_writes]. *)
Inductive phase :=
| Active
| Allocated
| Applied (r : Result unit)
| Logged (r : Result Timestamp.t)
| Published (r : Result Timestamp.t)
| Finished (r : Result Timestamp.t)
| RolledBack.

(** A client: its handle, its phase, and (ghost) the reads it was served from its
    snapshot, its commit timestamp and whether its batch was applied. *)
Record client := mkClient {
  c_tx : Transaction.t;
  c_phase : phase;
  c_obs : list (bytes * option bytes);
  c_ts : option Timestamp.t;
  c_applied : bool;
}.

Inductive action :=
| ABegin (n : nat) (serializable : bool)
| AGet (n : nat) (key : bytes)
| AWrite (n : nat) (key : bytes) (v : option bytes)
| ARollback (n : nat)
| ACommitEmpty (n : nat)
| AAlloc (n : nat)
| AApply (n : nat)
| AAppend (n : nat)
| APublish (n : nat)
| ADrop (n : nat)
| AGcStart (m : nat)
| AGcEnd (m : nat).

Section system.
Context `{Profile} {S : Type} `{VersionStore S} {Disk W : Type} `{Wal Disk W} `{HashIter}.

Record t := mk {
  inner : Inner.t S W;
  clients : gmap nat client;
  collectors : gmap nat Timestamp.t;
  hist : History;
}.

Definition start (i : Inner.t S W) (h : History) : t := mk i ∅ ∅ h.

Definition set_client (s : t) (i : Inner.t S W) (n : nat) (c : client) : t :=
  mk i (<[n := c]> (clients s)) (collectors s) (hist s).

Definition to_phase (c : client) (p : phase) : client :=
  mkClient (c_tx c) p (c_obs c) (c_ts c) (c_applied c).

(** The client [n], when it is in the phase [p]. *)
Definition in_phase (s : t) (n : nat) (p : phase → bool) : option client :=
  c ← clients s !! n; if p (c_phase c) then Some c else None.

Definition is_active (p : phase) : bool := match p with Active => true | _ => false end.

(** One action; [None] when it is not enabled. *)
Definition act (s : t) (a : action) : outcome (option t) :=
  let i := inner s in
  match a with
  | ABegin n serializable =>
     match clients s !! n with
     | Some _ => Ret None
     | None =>
        '(i, tx) ← Transaction.new i serializable;
        Ret (Some (set_client s i n (mkClient tx Active [] None false)))
     end
  | AGet n key =>
     match in_phase s n is_active with
     | None => Ret None
     | Some c =>
        '(i, tx, r) ← Transaction.get i (c_tx c) key;
        let obs := match Transaction.writes (c_tx c) !! key, r with
                   | None, Ok v => (key, v) :: c_obs c
                   | _, _ => c_obs c
                   end in
        Ret (Some (set_client s i n (mkClient tx Active obs (c_ts c) (c_applied c))))
     end
  | AWrite n key v =>
     match in_phase s n is_active with
     | None => Ret None
     | Some c =>
        Ret (Some (set_client s i n
          (mkClient (Transaction.set_write (c_tx c) key v) Active (c_obs c) (c_ts c) (c_applied c))))
     end
  | ARollback n =>
     match in_phase s n is_active with
     | None => Ret None
     | Some c =>
        i ← Transaction.rollback i (c_tx c);
        Ret (Some (set_client s i n (to_phase c RolledBack)))
     end
  | ACommitEmpty n =>
     match in_phase s n is_active with
     | None => Ret None
     | Some c =>
        if bool_decide (Transaction.writes (c_tx c) = ∅)
        then Ret (Some (set_client s i n
               (to_phase c (Published (Ok (Transaction.read_timestamp (c_tx c)))))))
        else Ret None
     end
  | AAlloc n =>
     match in_phase s n is_active with
     | None => Ret None
     | Some c =>
        if bool_decide (Transaction.writes (c_tx c) = ∅) then Ret None
        else
          let '(i, ts) := Inner.alloc i in
          Ret (Some (set_client s i n (mkClient (c_tx c) Allocated (c_obs c) (Some ts) false)))
     end
  | AApply n =>
     match clients s !! n with
     | Some (mkClient tx Allocated obs (Some ts) _) =>
        '(i, r) ← Inner.apply i (Transaction.read_timestamp tx) ts
                    (Transaction.batch tx) (Transaction.commit_reads tx);
        let h := if is_ok r then hist s ++ [Inner.commit_of ts (Transaction.batch tx)]
                 else hist s in
        Ret (Some (mk i (<[n := mkClient tx (Applied r) obs (Some ts) (is_ok r)]> (clients s))
                     (collectors s) h))
     | _ => Ret None
     end
  | AAppend n =>
     match clients s !! n with
     | Some (mkClient tx (Applied r) obs (Some ts) applied) =>
        let '(i, d) := if is_ok r
                       then Inner.append i (Inner.encode_record i ts (Transaction.batch tx))
                       else (i, Ok tt) in
        let r := match d with Err e => Err e | Ok _ => (λ _, ts) <$> r end in
        Ret (Some (set_client s i n (mkClient tx (Logged r) obs (Some ts) applied)))
     | _ => Ret None
     end
  | APublish n =>
     match clients s !! n with
     | Some (mkClient tx (Logged r) obs (Some ts) applied) =>
        i ← Inner.commit_done i ts;
        Ret (Some (set_client s i n (mkClient tx (Published r) obs (Some ts) applied)))
     | _ => Ret None
     end
  | ADrop n =>
     match clients s !! n with
     | Some (mkClient tx (Published r) obs ts applied) =>
        i ← ActiveReader.drop i (Transaction.active tx);
        Ret (Some (set_client s i n (mkClient tx (Finished r) obs ts applied)))
     | _ => Ret None
     end
  | AGcStart m =>
     Ret (Some (mk i (clients s) (<[m := Oracle.low_watermark (Inner.oracle i)]> (collectors s))
                  (hist s)))
  | AGcEnd m => Ret (Some (mk i (clients s) (delete m (collectors s)) (hist s)))
  end.

Fixpoint acts (s : t) (l : list action) : outcome (option t) :=
  match l with
  | [] => Ret (Some s)
  | a :: l => o ← act s a; match o with Some s => acts s l | None => Ret None end
  end.

Context `{!StoreLaws S}.

(** A step is an action of a client, or one critical section of a collection that
    has read its low watermark. *)
Inductive step (s : t) : t → Prop :=
| step_act a s' : act s a = Ret (Some s') → step s s'
| step_gc m wm st :
   collectors s !! m = Some wm →
   vs_gc_step wm (Inner.store (inner s)) st →
   step s (mk (Inner.set_store (inner s) st) (clients s) (collectors s) (hist s)).

(** ** The invariant *)

(** The read timestamp a client has registered, and the commit timestamp it has
    in flight. *)
Definition registered (c : client) : option N :=
  match c_phase c with
  | RolledBack | Finished _ => None
  | _ => Some (Timestamp.get (Transaction.read_timestamp (c_tx c)))
  end.

Definition pending (c : client) : option N :=
  match c_phase c with
  | Allocated | Applied _ | Logged _ => Timestamp.get <$> c_ts c
  | _ => None
  end.

(** The client's commit as it stands in the history: nothing it validated had
    changed in what came before it, and it and all that came after it are above
    its snapshot. *)
Definition committed_in (h : History) (tx : Transaction.t) (ts : Timestamp.t) : Prop :=
  ∃ h1 h2, h = h1 ++ Inner.commit_of ts (Transaction.batch tx) :: h2 ∧
    (∀ k, Transaction.validated tx k → hist_changed h1 k (Transaction.read_timestamp tx) = false) ∧
    ∀ e, e ∈ Inner.commit_of ts (Transaction.batch tx) :: h2 →
      (Timestamp.get (Transaction.read_timestamp tx) < ts_of e)%N.

(** What a client is told agrees with what happened to its batch. *)
Definition result_ok (c : client) (r : Result Timestamp.t) : Prop :=
  match r with
  | Ok ts =>
     match c_ts c with
     | Some ts' => ts = ts' ∧ c_applied c = true
     | None => ts = Transaction.read_timestamp (c_tx c) ∧ Transaction.writes (c_tx c) = ∅
     end
  | Err (TxnError.Durability _) => c_applied c = true
  | Err _ => c_applied c = false ∧ is_Some (c_ts c)
  end.

Definition phase_ok (c : client) : Prop :=
  match c_phase c with
  | Active | RolledBack => c_ts c = None ∧ c_applied c = false
  | Allocated => is_Some (c_ts c) ∧ c_applied c = false
  | Applied r => is_Some (c_ts c) ∧ c_applied c = is_ok r ∧
      match r with Err (TxnError.Durability _) => False | _ => True end
  | Logged r => is_Some (c_ts c) ∧ result_ok c r
  | Published r | Finished r => result_ok c r
  end.

Record client_ok (h : History) (wm : N) (next : N) (c : client) : Prop := {
  co_read : (Timestamp.get (Transaction.read_timestamp (c_tx c)) ≤ wm)%N;
  co_obs k v : (k, v) ∈ c_obs c → v = hist_view h k (Transaction.read_timestamp (c_tx c));
  co_tracked set k v : Transaction.reads (c_tx c) = Some set → (k, v) ∈ c_obs c → k ∈ set;
  co_phase : phase_ok c;
  co_next ts : c_ts c = Some ts → (Timestamp.get ts < next)%N;
  co_applied ts : c_ts c = Some ts → c_applied c = true → committed_in h (c_tx c) ts;
  co_absent ts : c_ts c = Some ts → c_applied c = false → Timestamp.get ts ∉ ts_of <$> h;
  co_ts : c_applied c = true → is_Some (c_ts c);
}.

Record inv (h0 : History) (s : t) : Prop := {
  i_inner : ∃ inflight hz,
    Inner.inv (inner s) (collect registered (clients s)) inflight (hist s) hz ∧
    ∀ ts, ts ∈ inflight ↔ ∃ n c, clients s !! n = Some c ∧ pending c = Some ts;
  i_collectors m wm : collectors s !! m = Some wm →
    (Timestamp.get wm ≤ Inner.watermark (inner s))%N ∧
    ∀ ts, ts ∈ collect registered (clients s) → (Timestamp.get wm ≤ ts)%N;
  i_clients n c : clients s !! n = Some c →
    client_ok (hist s) (Inner.watermark (inner s)) (Oracle.next_ts (Inner.oracle (inner s))) c;
  i_unique n n' c c' ts : clients s !! n = Some c → clients s !! n' = Some c' →
    c_ts c = Some ts → c_ts c' = Some ts → n = n';
  i_hist e : e ∈ hist s → e ∈ h0 ∨ ∃ n c ts, clients s !! n = Some c ∧ c_ts c = Some ts ∧
    c_applied c = true ∧ e = Inner.commit_of ts (Transaction.batch (c_tx c));
}.

(** The action a client inside [commit] takes next, and how many it has left. *)
Definition next_action (n : nat) (c : client) : option action :=
  match c_phase c with
  | Allocated => Some (AApply n)
  | Applied _ => Some (AAppend n)
  | Logged _ => Some (APublish n)
  | Published _ => Some (ADrop n)
  | _ => None
  end.

Definition remaining (p : phase) : nat :=
  match p with Allocated => 4 | Applied _ => 3 | Logged _ => 2 | Published _ => 1 | _ => 0 end.

(** Room for [n] more steps before a 64-bit counter could overflow. *)
Definition room (s : t) (n : N) : Prop :=
  (Oracle.next_ts (Inner.oracle (inner s)) + n + 1 < u64_modulus)%N ∧
  (N.of_nat (size (clients s)) + n + 1 < u64_modulus)%N.

(** The client's batch was applied. *)
Definition applied (c : client) : option unit := if c_applied c then Some tt else None.

(** What a history may become in one step of client [c]. *)
Definition hist_step (h h' : History) (wm : N) (c : client) : Prop :=
  h' = h ∨ ∃ ts, h' = h ++ [Inner.commit_of ts (Transaction.batch (c_tx c))] ∧
    (wm < Timestamp.get ts)%N ∧ c_ts c = Some ts ∧ c_applied c = true.

(** The action does not panic, and what it does keeps the invariant. *)
Definition keeps (h0 : History) (s : t) (a : action) (n : N) : Prop :=
  ∃ o, act s a = Ret o ∧ ∀ s', o = Some s' → inv h0 s' ∧ room s' n.

(** The actions a call of [Transaction::commit] consists of. *)
Definition commit_actions (n : nat) (tx : Transaction.t) : list action :=
  if bool_decide (Transaction.writes tx = ∅) then [ACommitEmpty n; ADrop n]
  else [AAlloc n; AApply n; AAppend n; APublish n; ADrop n].

(** A step for which the 64-bit counters have room. *)
Definition roomy (s s' : t) : Prop := room s 1 ∧ step s s'.

(** Runs of such steps, from a database with history [h0] and no client. *)
Definition reachable (h0 : History) (s : t) : Prop :=
  ∃ i hz, Inner.inv i [] ∅ h0 hz ∧ rtc roomy (start i h0) s.

(** ** Lemmas *)

Implicit Types h : History.

Lemma registered_active c : c_phase c = Active →
  registered c = Some (Timestamp.get (Transaction.read_timestamp (c_tx c))).
Proof using Type. unfold registered. by intros ->. Qed.

(** *** Other clients keep their guarantees *)

Lemma committed_in_snoc h e tx ts :
  (Timestamp.get (Transaction.read_timestamp tx) < ts_of e)%N →
  committed_in h tx ts → committed_in (h ++ [e]) tx ts.
Proof using Type.
  intros He (h1 & h2 & -> & Hv & Hafter). exists h1, (h2 ++ [e]). rewrite <-app_assoc.
  split_and!; [done|done|].
  intros e' [Hin| ->%list_elem_of_singleton]%(elem_of_app (_ :: h2)); auto.
Qed.

Lemma client_ok_mono h wm nx wm' nx' c :
  (wm ≤ wm')%N → (nx ≤ nx')%N → client_ok h wm nx c → client_ok h wm' nx' c.
Proof using Type.
  intros ? ? []. split; try done; [lia|]. intros ts Hts. specialize (co_next0 ts Hts). lia.
Qed.

Lemma client_ok_snoc h e wm nx c :
  (wm < ts_of e)%N → (∀ ts, c_ts c = Some ts → Timestamp.get ts ≠ ts_of e) →
  client_ok h wm nx c → client_ok (h ++ [e]) wm nx c.
Proof using Type.
  intros He Hne []. split; try done.
  - intros k v Hkv. rewrite hist_view_above by lia. auto.
  - intros ts ? ?. apply committed_in_snoc; [lia|auto].
  - intros ts Hts Ha. rewrite fmap_app, not_elem_of_app. split; [auto|].
    cbn. rewrite list_elem_of_singleton. auto.
Qed.

(** The frame: replacing one client, everything else keeps its guarantees. *)
Lemma inv_frame h0 s n c' i' h' :
  inv h0 s →
  (∃ inflight hz,
    Inner.inv i' (collect registered (<[n := c']> (clients s))) inflight h' hz ∧
    ∀ ts, ts ∈ inflight ↔
      ∃ m c, <[n := c']> (clients s) !! m = Some c ∧ pending c = Some ts) →
  (Inner.watermark (inner s) ≤ Inner.watermark i')%N →
  (Oracle.next_ts (Inner.oracle (inner s)) ≤ Oracle.next_ts (Inner.oracle i'))%N →
  hist_step (hist s) h' (Inner.watermark (inner s)) c' →
  client_ok h' (Inner.watermark i') (Oracle.next_ts (Inner.oracle i')) c' →
  (∀ ts, registered c' = Some ts →
    ts = Inner.watermark (inner s) ∨ ∃ c, clients s !! n = Some c ∧ registered c = Some ts) →
  (∀ ts, c_ts c' = Some ts →
    (Oracle.next_ts (Inner.oracle (inner s)) ≤ Timestamp.get ts)%N ∨
    ∃ c, clients s !! n = Some c ∧ c_ts c = Some ts) →
  (∀ c, clients s !! n = Some c → c_applied c = true →
    c_applied c' = true ∧ c_tx c' = c_tx c ∧ c_ts c' = c_ts c) →
  inv h0 (mk i' (<[n := c']> (clients s)) (collectors s) h').
Proof using Type.
  intros [Hin Hgc Hcl Hun Hh] Hinner Hwm Hnx Hstep Hc' Hreg Hts Happ.
  assert (Hfresh : ∀ m c ts, m ≠ n → clients s !! m = Some c → c_ts c = Some ts →
    c_ts c' ≠ Some ts).
  { intros m c ts Hm Hc Ect Ect'. destruct (Hts ts Ect') as [Hge|(c0 & Hc0 & Ec0)].
    - pose proof (co_next _ _ _ _ (Hcl m c Hc) ts Ect). lia.
    - by apply Hm, (Hun m n c c0 ts). }
  split; cbn; [done|..].
  - intros m wm Hm. destruct (Hgc m wm Hm) as [Hw Hl]. split; [lia|].
    intros ts (k & c & Hk & Hr)%elem_collect. rewrite lookup_insert in Hk. case_decide.
    + injection Hk as <-. destruct (Hreg ts Hr) as [->|(c0 & ? & ?)]; [done|].
      apply Hl, elem_collect. eauto.
    + apply Hl, elem_collect. eauto.
  - intros m c Hm. rewrite lookup_insert in Hm. case_decide as Hmn; [by injection Hm as <-|].
    apply client_ok_mono with (wm := Inner.watermark (inner s))
      (nx := Oracle.next_ts (Inner.oracle (inner s))); [done..|].
    destruct Hstep as [->|(ts & -> & Hlt & Ets & _)]; [by eapply Hcl|].
    apply client_ok_snoc; [done| |by eapply Hcl].
    intros ts' Ets' E. apply (Hfresh m c ts'); [done..|]. rewrite Ets. f_equal.
    by apply Timestamp.ext.
  - intros m m' c1 c2 ts [[<- <-]|[Hm1 Hm]]%lookup_insert_Some [[<- <-]|[Hm1' Hm']]%lookup_insert_Some E1 E2.
    + done.
    + exfalso. by eapply (Hfresh m' c2 ts).
    + exfalso. by eapply (Hfresh m c1 ts).
    + by eapply (Hun m m' c1 c2).
  - assert (Hold : ∀ e, e ∈ hist s → e ∈ h0 ∨ ∃ m c ts, <[n := c']> (clients s) !! m = Some c ∧
      c_ts c = Some ts ∧ c_applied c = true ∧ e = Inner.commit_of ts (Transaction.batch (c_tx c))).
    { intros e He. destruct (Hh e He) as [?|(m & c & ts & Hm & ? & ? & ->)]; [by left|right].
      destruct (decide (n = m)) as [<-|].
      - destruct (Happ c Hm) as (? & Htx & Hct); [done|].
        exists n, c', ts. rewrite lookup_insert_eq, Htx, Hct. done.
      - exists m, c, ts. by rewrite lookup_insert_ne. }
    destruct Hstep as [->|(ts & -> & _ & Ets & Hca)]; [done|].
    intros e [He| ->%list_elem_of_singleton]%elem_of_app; [auto|right].
    exists n, c', ts. by rewrite lookup_insert_eq.
Qed.

(** The same, for a step that stays registered and in flight as it was. *)
Lemma inv_local h0 s n c c' i' :
  inv h0 s → clients s !! n = Some c →
  registered c' = registered c → pending c' = pending c → c_ts c' = c_ts c →
  c_applied c' = c_applied c → (c_applied c = true → c_tx c' = c_tx c) →
  (∀ live inflight hz, Inner.inv (inner s) live inflight (hist s) hz →
    (∀ ts, registered c = Some ts → ts ∈ live) →
    Inner.inv i' live inflight (hist s) hz) →
  Inner.oracle i' = Inner.oracle (inner s) →
  (client_ok (hist s) (Inner.watermark (inner s)) (Oracle.next_ts (Inner.oracle (inner s))) c →
   client_ok (hist s) (Inner.watermark (inner s)) (Oracle.next_ts (Inner.oracle (inner s))) c') →
  inv h0 (set_client s i' n c').
Proof using Type.
  intros Hs Hn Hr Hp Hts Ha Htx Hi Ho Hok.
  assert (Inner.watermark i' = Inner.watermark (inner s)) as Hw
    by (unfold Inner.watermark, Inner.read_ts; by rewrite Ho).
  destruct (i_inner _ _ Hs) as (inflight & hz & Hinv & Hspec).
  apply inv_frame; [done|..].
  - exists inflight, hz. split.
    + eapply Inner.inv_live_perm; [by rewrite (collect_update registered _ n c c')|].
      apply Hi; [done|]. intros ts Hreg. apply elem_collect. eauto.
    + intros ts. by rewrite (collect_elem_update pending _ n c c').
  - by rewrite Hw.
  - by rewrite Ho.
  - by left.
  - rewrite Hw, Ho. by apply Hok, (i_clients _ _ Hs n).
  - rewrite Hr. intros ts ?. right. by exists c.
  - rewrite Hts. intros ts ?. right. by exists c.
  - intros c0 Hc0 Ha0. rewrite Hn in Hc0. injection Hc0 as <-. rewrite Ha. auto.
Qed.

(** *** One lemma per action *)

Lemma in_phase_active s n c :
  in_phase s n is_active = Some c → clients s !! n = Some c ∧ c_phase c = Active.
Proof using Type.
  unfold in_phase. destruct (clients s !! n) as [c0|]; [|done]. cbn.
  destruct (c_phase c0) eqn:E; cbn; try done. by intros [= <-].
Qed.

(** A read keeps what a client knows: the new observation is right, and tracked. *)
Lemma client_ok_get h wm nx c tx' key r :
  client_ok h wm nx c → c_phase c = Active →
  Transaction.active tx' = Transaction.active (c_tx c) →
  match r with
  | Ok v => v = Transaction.view h (c_tx c) key ∧
      Transaction.reads tx' =
        (λ set, if Transaction.writes (c_tx c) !! key then set else {[key]} ∪ set) <$>
          Transaction.reads (c_tx c)
  | Err (TxnError.Store _ _) => tx' = c_tx c ∧ vs_may_fail (S := S)
  | Err _ => False
  end →
  client_ok h wm nx (mkClient tx' Active
    match Transaction.writes (c_tx c) !! key, r with
    | None, Ok v => (key, v) :: c_obs c
    | _, _ => c_obs c
    end (c_ts c) (c_applied c)).
Proof using Type.
  intros [] Hph Hact Hr. unfold phase_ok in co_phase0. rewrite Hph in co_phase0.
  assert (Transaction.read_timestamp tx' = Transaction.read_timestamp (c_tx c)) as Hts
    by (unfold Transaction.read_timestamp; by rewrite Hact).
  destruct co_phase0 as [Hnots Hnotapp].
  split; cbn; rewrite ?Hts, ?Hnots, ?Hnotapp; try done.
  - destruct (Transaction.writes (c_tx c) !! key) eqn:Ew; [done|].
    destruct r as [v|]; [|done]. destruct Hr as [-> _].
    intros k' v' [[= -> ->]|Hin]%elem_of_cons; [|by apply co_obs0].
    unfold Transaction.view. by rewrite Ew.
  - intros set k' v'. destruct r as [v|e]; [destruct Hr as [_ ->]|].
    2:{ destruct e; try done. destruct Hr as [-> _]. destruct (Transaction.writes _ !! key); eauto. }
    destruct (Transaction.reads (c_tx c)) as [set0|] eqn:Er; [|done]. cbn. intros [= <-].
    destruct (Transaction.writes (c_tx c) !! key); [by apply co_tracked0|].
    intros [[= -> ->]|Hin]%elem_of_cons; [set_solver|].
    apply elem_of_union. right. by eapply co_tracked0.
Qed.

Section actions.
Context (h0 : History) (s : t) (k : N) (Hs : inv h0 s) (Hroom : room s (k + 1)).

Lemma keeps_none a : act s a = Ret None → keeps h0 s a k.
Proof. intros E. by exists None. Qed.

Lemma keeps_some a s' : act s a = Ret (Some s') → inv h0 s' → room s' k → keeps h0 s a k.
Proof. intros E Hs' Hr. exists (Some s'). split; [done|]. by intros ? [= <-]. Qed.

(** Room after a step of a client that allocates nothing. *)
Lemma room_update i' n c c' cs' h' :
  clients s !! n = Some c → Oracle.next_ts (Inner.oracle i') = Oracle.next_ts (Inner.oracle (inner s)) →
  room (mk i' (<[n := c']> (clients s)) cs' h') k.
Proof.
  intros Hn E. destruct Hroom. split; cbn; [lia|]. rewrite map_size_insert_Some by by eexists. lia.
Qed.

Lemma keeps_begin n serializable : keeps h0 s (ABegin n serializable) k.
Proof.
  unfold keeps, act. destruct (clients s !! n) as [c|] eqn:Hn; [by exists None|].
  destruct (i_inner _ _ Hs) as (inflight & hz & Hinv & Hspec).
  destruct (Transaction.new_tx_inv _ _ _ _ _ serializable Hinv)
    as (i' & tx & -> & Hi' & Hts & Hw & Hr & _ & _ & Hnext & Hwm).
  { pose proof (collect_length registered (clients s)). destruct Hroom. lia. }
  run. eexists. split; [done|]. intros ? [= <-]. unfold set_client.
  assert (Inner.watermark i' = Inner.watermark (inner s)) as Hwm'
    by (unfold Inner.watermark; by rewrite Hwm).
  split.
  - apply inv_frame; [done|..].
    + exists inflight, hz. split; [|intros ts; by rewrite (collect_elem_fresh pending)].
      eapply Inner.inv_live_perm; [|done]. by rewrite collect_fresh.
    + by rewrite Hwm'.
    + by rewrite Hnext.
    + by left.
    + split; cbn; try done; [by rewrite Hts, Hwm'|intros ?? Hin%elem_of_nil; done|
        intros ??? _ Hin%elem_of_nil; done].
    + intros ts. cbn. rewrite Hts. intros [= <-]. by left.
    + done.
    + intros c. by rewrite Hn.
  - destruct Hroom. split; cbn; [lia|]. rewrite map_size_insert_None by done. lia.
Qed.

Lemma keeps_get n key : keeps h0 s (AGet n key) k.
Proof.
  unfold keeps, act. destruct (in_phase s n is_active) as [c|] eqn:Hc; [|by exists None].
  apply in_phase_active in Hc as [Hn Hph].
  destruct (i_inner _ _ Hs) as (inflight & hz & Hinv & Hspec).
  assert (Hlive : Timestamp.get (Transaction.read_timestamp (c_tx c)) ∈
    collect registered (clients s)).
  { apply elem_collect. exists n, c. split; [done|]. by apply registered_active. }
  destruct (Transaction.get_inv _ _ _ _ _ (c_tx c) key Hinv Hlive)
    as (i' & tx' & r & E & _ & Ho & Hl & Hact & Hw & Hr). rewrite E. run.
  eexists. split; [done|]. intros ? [= <-]. split; [|eapply room_update; [done|by rewrite Ho]].
  assert (Transaction.read_timestamp tx' = Transaction.read_timestamp (c_tx c)) as Hts
    by (unfold Transaction.read_timestamp; by rewrite Hact).
  pose proof (i_clients _ _ Hs n c Hn) as Hok. pose proof (co_phase _ _ _ _ Hok) as Hp.
  unfold phase_ok in Hp. rewrite Hph in Hp. destruct Hp as [Hnots Hnotapp].
  eapply inv_local; [done|done|..]; cbn.
  - rewrite (registered_active c Hph). cbn. by rewrite Hts.
  - unfold pending. by rewrite Hph.
  - done.
  - done.
  - by rewrite Hnotapp.
  - intros live fl hz' Hinv' Hin.
    destruct (Transaction.get_inv _ live fl _ hz' (c_tx c) key Hinv')
      as (i2 & tx2 & r2 & E2 & Hi2 & _); [by apply Hin, registered_active|].
    rewrite E in E2. by injection E2 as -> -> ->.
  - done.
  - intros Hok'. by apply client_ok_get.
Qed.

(** An active client has neither a timestamp nor an applied batch. *)
Lemma active_facts n c :
  in_phase s n is_active = Some c →
  clients s !! n = Some c ∧ c_phase c = Active ∧ c_ts c = None ∧ c_applied c = false.
Proof.
  intros [Hn Hph]%in_phase_active. pose proof (co_phase _ _ _ _ (i_clients _ _ Hs n c Hn)) as Hp.
  unfold phase_ok in Hp. by rewrite Hph in Hp.
Qed.

Lemma keeps_write n key v : keeps h0 s (AWrite n key v) k.
Proof.
  unfold keeps, act. destruct (in_phase s n is_active) as [c|] eqn:Hc; [|by exists None].
  apply active_facts in Hc as (Hn & Hph & Hts & Happ).
  eexists. split; [done|]. intros ? [= <-]. split; [|by eapply room_update].
  eapply inv_local; [done|done|..]; cbn; try done.
  - by rewrite (registered_active c Hph).
  - unfold pending. by rewrite Hph.
  - by rewrite Happ.
  - intros []. split; cbn; rewrite ?Hts, ?Happ; done.
Qed.

Lemma keeps_commit_empty n : keeps h0 s (ACommitEmpty n) k.
Proof.
  unfold keeps, act. destruct (in_phase s n is_active) as [c|] eqn:Hc; [|by exists None].
  apply active_facts in Hc as (Hn & Hph & Hts & Happ).
  case_bool_decide as He; [|by exists None].
  eexists. split; [done|]. intros ? [= <-]. split; [|by eapply room_update].
  eapply inv_local; [done|done|..]; cbn; try done.
  - by rewrite (registered_active c Hph).
  - unfold pending. by rewrite Hph.
  - intros []. split; cbn; try done. unfold phase_ok, result_ok. cbn. by rewrite Hts.
Qed.

(** Unregistering the reader of client [n]. *)
Lemma unregister n c c' :
  clients s !! n = Some c →
  registered c = Some (Timestamp.get (Transaction.read_timestamp (c_tx c))) →
  registered c' = None → pending c' = pending c → c_ts c' = c_ts c →
  c_applied c' = c_applied c → c_tx c' = c_tx c → phase_ok c' → c_obs c' = c_obs c →
  ∃ i', Inner.end_reader (inner s) (Transaction.read_timestamp (c_tx c)) = Ret i' ∧
    inv h0 (set_client s i' n c') ∧ room (set_client s i' n c') k.
Proof.
  intros Hn Hr Hr' Hp Hts Ha Htx Hph Hobs.
  destruct (i_inner _ _ Hs) as (inflight & hz & Hinv & Hspec).
  assert (Inner.inv (inner s) (Timestamp.get (Transaction.read_timestamp (c_tx c)) ::
    collect registered (delete n (clients s))) inflight (hist s) hz) as Hinv'.
  { eapply Inner.inv_live_perm; [|done]. by rewrite (collect_delete registered _ n c Hn), Hr. }
  destruct (Inner.end_reader_inv _ _ _ _ _ _ Hinv') as (i' & E & Hi' & _ & _ & Hnext & Hw).
  exists i'. split; [done|].
  assert (Inner.watermark i' = Inner.watermark (inner s)) as Hwm
    by (unfold Inner.watermark; by rewrite Hw).
  split; [|by eapply room_update]. apply inv_frame; [done|..].
  - exists inflight, hz. split; [|intros ts; by rewrite (collect_elem_update pending _ n c c')].
    eapply Inner.inv_live_perm; [|done]. by rewrite collect_replace, Hr'.
  - by rewrite Hwm.
  - by rewrite Hnext.
  - by left.
  - rewrite Hwm, Hnext. destruct (i_clients _ _ Hs n c Hn).
    split; rewrite ?Htx, ?Hts, ?Ha, ?Hobs; done.
  - by rewrite Hr'.
  - rewrite Hts. intros ts ?. right. by exists c.
  - intros c0 Hc0. rewrite Hn in Hc0. injection Hc0 as <-. by rewrite Ha.
Qed.

Lemma keeps_rollback n : keeps h0 s (ARollback n) k.
Proof.
  unfold keeps, act. destruct (in_phase s n is_active) as [c|] eqn:Hc; [|by exists None].
  apply active_facts in Hc as (Hn & Hph & Hts & Happ).
  destruct (unregister n c (to_phase c RolledBack) Hn) as (i' & E & Hi' & Hr'); try done.
  { by apply registered_active. }
  { unfold pending. by rewrite Hph. }
  unfold Transaction.rollback, ActiveReader.drop. unfold Transaction.read_timestamp in E.
  rewrite E. run. eexists. split; [done|]. by intros ? [= <-].
Qed.

Lemma keeps_drop n : keeps h0 s (ADrop n) k.
Proof.
  unfold keeps, act. destruct (clients s !! n) as [[tx ph obs ts app]|] eqn:Hn; [|by exists None].
  destruct ph as [| | | |r| |]; try by exists None.
  destruct (unregister n _ (mkClient tx (Finished r) obs ts app) Hn) as (i' & E & Hi' & Hr'); try done.
  { apply (co_phase _ _ _ _ (i_clients _ _ Hs n _ Hn)). }
  unfold ActiveReader.drop. unfold Transaction.read_timestamp in E. cbn in E.
  rewrite E. run. eexists. split; [done|]. by intros ? [= <-].
Qed.

Lemma keeps_alloc n : keeps h0 s (AAlloc n) k.
Proof.
  unfold keeps, act. destruct (in_phase s n is_active) as [c|] eqn:Hc; [|by exists None].
  apply active_facts in Hc as (Hn & Hph & Hts & Happ).
  case_bool_decide as He; [by exists None|].
  destruct (i_inner _ _ Hs) as (inflight & hz & Hinv & Hspec).
  pose proof (Inner.alloc_inv _ _ _ _ _ Hinv) as Halloc. destruct (Inner.alloc (inner s)) as [i' ts].
  destruct Halloc as (Hi' & Ets & Hnext & _ & _ & Hw & Hfl & Hh); [destruct Hroom; lia|].
  assert (Inner.watermark i' = Inner.watermark (inner s)) as Hwm
    by (unfold Inner.watermark; by rewrite Hw).
  set (c' := mkClient (c_tx c) Allocated (c_obs c) (Some ts) false).
  eexists. split; [done|]. intros ? [= <-]. split.
  - apply inv_frame; [done|..].
    + exists ({[Timestamp.get ts]} ∪ inflight), hz. split.
      * eapply Inner.inv_live_perm; [|done]. rewrite (collect_update registered _ n c c'); [done|done|].
        by rewrite (registered_active c Hph).
      * intros t. rewrite elem_of_union, elem_of_singleton, Hspec, <-!elem_collect.
        rewrite collect_replace, (collect_delete pending _ n c Hn).
        unfold pending at 1 3. rewrite Hph. cbn. set_solver.
    + by rewrite Hwm.
    + rewrite Hnext. lia.
    + by left.
    + rewrite Hwm, Hnext. destruct (i_clients _ _ Hs n c Hn). split; cbn; try done.
      * intros ? [= <-]. lia.
      * by intros ? [= <-].
    + intros t. cbn. intros [= <-]. right. exists c. split; [done|]. by apply registered_active.
    + intros t. cbn. intros [= <-]. left. lia.
    + intros c0 Hc0. rewrite Hn in Hc0. injection Hc0 as <-. by rewrite Happ.
  - destruct Hroom. split; cbn; [lia|]. rewrite map_size_insert_Some by by eexists. lia.
Qed.

(** A client after its validate-and-apply step. *)
Lemma client_ok_applied tx obs ts app (r : Result unit) wm nx :
  client_ok (hist s) wm nx (mkClient tx Allocated obs (Some ts) app) →
  (wm < Timestamp.get ts)%N →
  (r = Ok tt → ∀ k, k ∈ (Transaction.batch tx).*1 ++ Transaction.commit_reads tx →
     hist_changed (hist s) k (Transaction.read_timestamp tx) = false) →
  (∀ e, r ≠ Err (TxnError.Durability e)) →
  client_ok (if is_ok r then hist s ++ [Inner.commit_of ts (Transaction.batch tx)] else hist s)
    wm nx (mkClient tx (Applied r) obs (Some ts) (is_ok r)).
Proof using Type.
  intros [Hread Hobs Htr Hph Hnx _ Habs _] Hlt Hvalid Hnd. destruct Hph as [_ Happ].
  cbn [c_tx c_obs c_ts c_applied] in *. subst app. split; cbn; try done.
  - intros k' v' Hin. rewrite (Hobs _ _ Hin). destruct (is_ok r); [|done].
    by rewrite hist_view_above by (unfold ts_of; cbn; lia).
  - unfold phase_ok. cbn. split_and!; [done|done|]. destruct r as [|[]]; try done. by destruct (Hnd detail).
  - intros ? [= <-] Hokr. rewrite Hokr. exists (hist s), []. split_and!; [done| |].
    + intros k' Hk'. destruct r as [[]|]; [|done]. apply Hvalid; [done|].
      by apply Transaction.validated_elem.
    + intros e ->%list_elem_of_singleton. unfold ts_of. cbn. lia.
  - intros ? [= <-] Hokr. rewrite Hokr. by apply Habs.
Qed.

(** A timestamp in flight is above the watermark. *)
Lemma inflight_above (i : Inner.t S W) live inflight h hz ts :
  Inner.inv i live inflight h hz → ts ∈ inflight → (Inner.watermark i < ts)%N.
Proof using Type.
  intros Hinv Hfl. pose proof (Oracle.wf_inflight _ _ (Inner.inv_oracle _ _ _ _ _ Hinv) _ Hfl).
  rewrite <-(Oracle.wf_published _ _ (Inner.inv_oracle _ _ _ _ _ Hinv)) in *.
  change (Inner.watermark i) with (Oracle.read_ts_atomic (Inner.oracle i)). lia.
Qed.

Lemma keeps_apply n : keeps h0 s (AApply n) k.
Proof.
  unfold keeps, act. destruct (clients s !! n) as [[tx ph obs [ts|] app]|] eqn:Hn;
    [|destruct ph; by exists None|by exists None].
  destruct ph; try by exists None.
  destruct (i_inner _ _ Hs) as (inflight & hz & Hinv & Hspec).
  pose proof (i_clients _ _ Hs n _ Hn) as Hok. destruct (co_phase _ _ _ _ Hok) as [_ Happ].
  cbn in Happ. subst app.
  assert (Timestamp.get ts ∈ inflight) as Hfl by (apply Hspec; by eexists _, _).
  pose proof (inflight_above _ _ _ _ _ _ Hinv Hfl) as Hlt.
  destruct (Inner.apply_inv (inner s) _ _ _ _ (Transaction.read_timestamp tx) ts
    (Transaction.batch tx) (Transaction.commit_reads tx) Hinv) as (i' & r & -> & Ho & _ & Hr).
  { apply elem_collect. by eexists _, _. }
  { done. }
  { by apply (co_absent _ _ _ _ Hok). }
  { apply Transaction.batch_NoDup. }
  run. eexists. split; [done|]. intros ? [= <-].
  split; [|by eapply room_update; [|rewrite Ho]].
  assert (Inner.watermark i' = Inner.watermark (inner s)) as Hwm
    by (unfold Inner.watermark, Inner.read_ts; by rewrite Ho).
  set (c' := mkClient tx (Applied r) obs (Some ts) (is_ok r)).
  apply inv_frame; [done|..].
  - exists inflight, hz. split.
    + eapply Inner.inv_live_perm; [by rewrite (collect_update registered _ n _ c' Hn)|].
      destruct r as [|[]]; cbn; by apply Hr || done.
    + intros t. by rewrite (collect_elem_update pending _ n _ c' t Hn).
  - by rewrite Hwm.
  - by rewrite Ho.
  - destruct r; cbn; [right|by left]. by exists ts.
  - rewrite Hwm, Ho. eapply client_ok_applied; [exact Hok|done| |].
    + intros ->. apply Hr.
    + by intros e ->.
  - intros t Ht. right. by eexists.
  - intros t [= <-]. right. by eexists.
  - intros c0 Hc0. rewrite Hn in Hc0. by injection Hc0 as <-.
Qed.

Lemma keeps_append n : keeps h0 s (AAppend n) k.
Proof.
  unfold keeps, act. destruct (clients s !! n) as [[tx ph obs [ts|] app]|] eqn:Hn;
    [|destruct ph; by exists None|by exists None].
  destruct ph as [| |r| | | |]; try by exists None.
  pose proof (i_clients _ _ Hs n _ Hn) as Hok. pose proof (co_phase _ _ _ _ Hok) as (_ & Happ & Hr).
  cbn in Happ. subst app.
  set (record := Inner.encode_record _ _ _).
  assert (∃ i' d, (if is_ok r then Inner.append (inner s) record else (inner s, Ok tt)) = (i', d) ∧
    Inner.store i' = Inner.store (inner s) ∧ Inner.oracle i' = Inner.oracle (inner s) ∧
    (d = Ok tt ∨ is_ok r = true ∧ ∃ e, d = Err (TxnError.durability e))) as (i' & d & -> & Est & Eor & Hd).
  { destruct (is_ok r); [|eexists _, _; by split_and!; [..|left]].
    destruct (Inner.append_same (inner s) record) as (? & ? & _).
    pose proof (Inner.append_result (inner s) record) as Hres.
    destruct (Inner.append (inner s) record) as [i' d]. cbn in *.
    eexists _, _. split_and!; [done..|]. destruct Hres as [->|[[e ->] _]]; eauto. }
  eexists. split; [done|]. intros ? [= <-]. split; [|by eapply room_update; [|rewrite Eor]].
  eapply inv_local; [done|done|done|done|done|done|done| |done|].
  - intros live fl hz Hinv _. by eapply Inner.inv_same.
  - intros []. split; cbn in *; try done. split; [done|]. unfold result_ok. cbn.
    destruct Hd as [->|[-> [e ->]]]; [|done].
    destruct r as [|[]]; cbn; try done; by split.
Qed.

Lemma keeps_publish n : keeps h0 s (APublish n) k.
Proof.
  unfold keeps, act. destruct (clients s !! n) as [[tx ph obs [ts|] app]|] eqn:Hn;
    [|destruct ph; by exists None|by exists None].
  destruct ph as [| | |r| | |]; try by exists None.
  destruct (i_inner _ _ Hs) as (inflight & hz & Hinv & Hspec).
  assert (Timestamp.get ts ∈ inflight) as Hfl by (apply Hspec; by eexists _, _).
  destruct (Inner.commit_done_inv _ _ _ _ _ ts Hinv Hfl) as (i' & -> & Hi' & _ & _ & Hnext & Hw).
  run. eexists. split; [done|]. intros ? [= <-]. split; [|by eapply room_update].
  set (c' := mkClient tx (Published r) obs (Some ts) app).
  apply inv_frame; [done|..].
  - exists (inflight ∖ {[Timestamp.get ts]}), hz. split.
    + eapply Inner.inv_live_perm; [|done]. by rewrite (collect_update registered _ n _ c' Hn).
    + intros t. rewrite elem_of_difference, Hspec, elem_of_singleton. split.
      * intros [(m & c & Hm & Hp) Hne]. exists m, c. split; [|done].
        rewrite lookup_insert_ne; [done|]. intros <-. rewrite Hn in Hm. injection Hm as <-.
        injection Hp as <-. done.
      * intros (m & c & [[<- <-]|[Hne Hm]]%lookup_insert_Some & Hp); [done|].
        split; [by exists m, c|]. intros ->. apply Hne.
        assert (c_ts c = Some ts) as Hcts.
        { unfold pending in Hp. destruct (c_phase c), (c_ts c) as [ts'|]; try done;
            injection Hp as Hp; f_equal; by apply Timestamp.ext. }
        by apply (i_unique _ _ Hs n m _ c ts Hn Hm).
  - done.
  - by rewrite Hnext.
  - by left.
  - pose proof (i_clients _ _ Hs n _ Hn) as Hok.
    eapply client_ok_mono; [exact Hw|by rewrite Hnext|]. destruct Hok as [].
    split; try done. by apply co_phase0.
  - intros t Ht. right. by eexists.
  - intros t [= <-]. right. by eexists.
  - intros c0 Hc0. rewrite Hn in Hc0. by injection Hc0 as <-.
Qed.

Lemma room_same i' cs' h' :
  Oracle.next_ts (Inner.oracle i') = Oracle.next_ts (Inner.oracle (inner s)) →
  room (mk i' (clients s) cs' h') k.
Proof. intros E. destruct Hroom. split; cbn; lia. Qed.

Lemma keeps_gc_start m : keeps h0 s (AGcStart m) k.
Proof.
  eexists. split; [done|]. intros ? [= <-]. split; [|by apply room_same].
  pose proof Hs as [(inflight & hz & Hinv & Hspec) Hgc Hcl Hun Hh].
  destruct (Inner.low_watermark_bound _ _ _ _ _ Hinv) as [Hlive Hbound].
  split; cbn; try done; [by exists inflight, hz|].
  intros m' wm [[<- <-]|[_ Hm]]%lookup_insert_Some; [|by eapply Hgc]. split; [lia|done].
Qed.

Lemma keeps_gc_end m : keeps h0 s (AGcEnd m) k.
Proof.
  eexists. split; [done|]. intros ? [= <-]. split; [|by apply room_same].
  pose proof Hs as [Hin Hgc Hcl Hun Hh]. split; cbn; try done.
  intros m' wm [_ Hm]%lookup_delete_Some. by eapply Hgc.
Qed.

(** A piece of a collection. *)
Lemma gc_inv m wm st :
  collectors s !! m = Some wm → vs_gc_step wm (Inner.store (inner s)) st →
  inv h0 (mk (Inner.set_store (inner s) st) (clients s) (collectors s) (hist s)).
Proof.
  intros Hm Hstep. pose proof Hs as [(inflight & hz & Hinv & Hspec) Hgc Hcl Hun Hh].
  destruct (Hgc m wm Hm) as [Hwm Hlive]. split; cbn; try done.
  eexists inflight, _. split; [|done]. by apply Inner.gc_step_inv.
Qed.

(** Every action keeps the invariant, and none panics. *)
Lemma keeps_all a : keeps h0 s a k.
Proof.
  destruct a; eauto using keeps_begin, keeps_get, keeps_write, keeps_rollback, keeps_commit_empty,
    keeps_alloc, keeps_apply, keeps_append, keeps_publish, keeps_drop, keeps_gc_start, keeps_gc_end.
Qed.

Lemma step_inv s' : step s s' → inv h0 s' ∧ room s' k.
Proof.
  destruct 1 as [a s' E|m wm st Hm Hstep].
  - destruct (keeps_all a) as (o & E' & Hk). rewrite E in E'. injection E' as <-. by apply Hk.
  - split; [by eapply gc_inv|by apply room_same].
Qed.

End actions.

(** *** Reachable states *)

Lemma start_inv i h0 hz : Inner.inv i [] ∅ h0 hz → inv h0 (start i h0).
Proof using Type.
  intros Hi. split; cbn; try (by intros; simplify_map_eq); [|by intros; left].
  exists ∅, hz. split; [exact Hi|]. intros ts. split; [set_solver|].
  intros (n & c & Hn & _). by rewrite lookup_empty in Hn.
Qed.

(** Induction over runs. *)
Lemma reachable_rule h0 (P : t → Prop) :
  (∀ i hz, Inner.inv i [] ∅ h0 hz → P (start i h0)) →
  (∀ s s', inv h0 s → room s 1 → step s s' → P s → P s') →
  ∀ s, reachable h0 s → inv h0 s ∧ P s.
Proof using Type.
  intros Hstart Hstep s (i & hz & Hi & Hrun). pose proof (start_inv i h0 hz Hi) as Hs.
  specialize (Hstart i hz Hi). revert Hs Hstart.
  induction Hrun as [s|s s1 s2 [Hr Hs1] _ IH]; intros Hs Hp; [done|].
  apply IH; [by apply (step_inv h0 s 0 Hs Hr s1)|by eapply Hstep].
Qed.

Lemma reachable_inv h0 s : reachable h0 s → inv h0 s.
Proof using Type. intros Hs. by apply (reachable_rule h0 (λ _, True)) in Hs as [? _]. Qed.

(** As many steps as there is room for. *)
Lemma nsteps_roomy h0 n s s' :
  inv h0 s → room s (N.of_nat n) → nsteps step n s s' → rtc roomy s s'.
Proof using Type.
  intros Hs Hr Hn. induction Hn as [s|n s s1 s2 Hstep _ IH]; [done|].
  replace (N.of_nat (Datatypes.S n)) with (N.of_nat n + 1)%N in Hr by lia.
  destruct (step_inv h0 s (N.of_nat n) Hs Hr s1 Hstep) as [Hs1 Hr1].
  econstructor; [|by apply IH]. split; [|done]. destruct Hr. split; lia.
Qed.

Lemma bounded_reachable i h0 hz n s :
  Inner.inv i [] ∅ h0 hz → room (start i h0) (N.of_nat n) → nsteps step n (start i h0) s →
  reachable h0 s.
Proof using Type.
  intros Hi Hr Hn. exists i, hz. split; [done|]. eapply nsteps_roomy; [by eapply start_inv|done|done].
Qed.

Lemma acts_steps l s s' : acts s l = Ret (Some s') → ∃ n, nsteps step n s s' ∧ n = length l.
Proof using Type.
  revert s. induction l as [|a l IH]; intros s; cbn.
  - intros [= <-]. eexists. split; [constructor|done].
  - destruct (act s a) as [[s1|]|] eqn:E; try done. intros (n & Hn & ->)%IH.
    eexists. split; [econstructor; [by econstructor|done]|done].
Qed.

(** A step applies at most one commit, at the end of the history. *)
Lemma step_history s s' : step s s' → hist s' = hist s ∨ ∃ e, hist s' = hist s ++ [e].
Proof using Type.
  destruct 1 as [a s' E|]; [|by left].
  destruct a; cbn in E; repeat (case_match || (apply bind_Ret in E as (? & ? & E)) ||
    discriminate || (simplify_eq; cbn in * )); first [by left | right; by eexists].
Qed.

Lemma reachable_history h0 s : reachable h0 s → ∃ l, hist s = h0 ++ l.
Proof using Type.
  intros Hs. apply (reachable_rule h0 (λ s, ∃ l, hist s = h0 ++ l)) in Hs as [_ ?]; [done|..].
  - intros i hz _. exists []. by rewrite app_nil_r.
  - intros s1 s2 _ _ Hstep [l Hl].
    destruct (step_history s1 s2 Hstep) as [->|[e ->]]; [by exists l|]. exists (l ++ [e]).
    by rewrite Hl, app_assoc.
Qed.

(** Every commit applied is the commit of one client. *)
Lemma act_applied h0 s a s' :
  inv h0 s → act s a = Ret (Some s') →
  length (collect applied (clients s')) + length (hist s) =
    length (collect applied (clients s)) + length (hist s').
Proof using Type.
  intros Hs E.
  assert (Hsame : ∀ n c c' i, clients s !! n = Some c → c_applied c' = c_applied c →
    s' = set_client s i n c' →
    length (collect applied (clients s')) + length (hist s) =
      length (collect applied (clients s)) + length (hist s')).
  { intros n c c' i Hn Ha ->. cbn. rewrite (collect_update applied _ n c c' Hn); [done|].
    unfold applied. by rewrite Ha. }
  assert (Hact : ∀ n c, in_phase s n is_active = Some c → clients s !! n = Some c ∧ c_applied c = false).
  { intros n c Hc. destruct (active_facts h0 s Hs n c Hc) as (? & _ & _ & ?). done. }
  destruct a as [n ser|n key|n key v|n|n|n|n|n|n|n|m|m]; cbn in E.
  1: { destruct (_ !! n) eqn:Hn; [done|]. apply bind_Ret in E as ([i tx] & _ & [= <-]).
       cbn. by rewrite (collect_fresh applied _ n _ Hn). }
  1-5: destruct (in_phase _ _ _) as [c|] eqn:Hc; [|done]; destruct (Hact n c Hc) as [Hn Ha];
    try (destruct (Inner.alloc _) as [i ts]); repeat (case_bool_decide || (apply bind_Ret in E as ([[? ?] ?] & _ & E)) ||
      (apply bind_Ret in E as (? & _ & E)) || discriminate); injection E as <-;
    (eapply Hsame; [exact Hn| |reflexivity]); cbn; by rewrite ?Ha.
  1-4: destruct (_ !! n) as [[tx ph obs [ts|] app]|] eqn:Hn; [destruct ph|destruct ph|]; try done.
  - apply bind_Ret in E as ([i r] & _ & [= <-]).
    destruct (co_phase _ _ _ _ (i_clients _ _ Hs n _ Hn)) as [_ Ha]. cbn in Ha. subst app.
    cbn. rewrite (collect_replace applied), (collect_delete applied _ n _ Hn).
    destruct r; cbn; rewrite ?length_app; cbn; lia.
  - destruct (if is_ok r then _ else _) as [i d]. injection E as <-. by eapply Hsame; [exact Hn| |reflexivity].
  - apply bind_Ret in E as (i & _ & [= <-]). by eapply Hsame; [exact Hn| |reflexivity].
  - apply bind_Ret in E as (i & _ & [= <-]). by eapply Hsame; [exact Hn| |reflexivity].
  - apply bind_Ret in E as (i & _ & [= <-]). by eapply Hsame; [exact Hn| |reflexivity].
  - by injection E as <-.
  - by injection E as <-.
Qed.

Lemma applied_history h0 s :
  reachable h0 s → length (hist s) = length h0 + length (collect applied (clients s)).
Proof using Type.
  intros Hs. apply (reachable_rule h0
    (λ s, length (hist s) = length h0 + length (collect applied (clients s)))) in Hs as [_ ?]; [done|..].
  - intros i hz _. cbn. change (collect applied ∅) with (@nil unit). cbn. lia.
  - intros s1 s2 Hs1 _ Hstep E. destruct Hstep as [a s2 Ha|]; [|done].
    pose proof (act_applied h0 s1 a s2 Hs1 Ha). lia.
Qed.

(** *** Consequences of the invariant *)

Lemma committed_in_elem h tx ts :
  committed_in h tx ts → Inner.commit_of ts (Transaction.batch tx) ∈ h.
Proof using Type. intros (h1 & h2 & -> & _). set_solver. Qed.

(** Two applied commits that wrote the same key do not overlap: the later one
    began after the earlier one committed. *)
Lemma committed_ordered h tx tx' ts ts' k :
  history_wf h → committed_in h tx ts → committed_in h tx' ts' →
  is_Some (Transaction.writes tx !! k) → is_Some (Transaction.writes tx' !! k) →
  (Timestamp.get ts < Timestamp.get ts')%N →
  (Timestamp.get ts ≤ Timestamp.get (Transaction.read_timestamp tx'))%N.
Proof using Type.
  intros Hwf Hc (h1 & h2 & E & Hv & _) Hk Hk' Hlt. apply committed_in_elem in Hc.
  assert (∀ tx ts, is_Some (Transaction.writes tx !! k) →
    touches k (Inner.commit_of ts (Transaction.batch tx))) as Htouch.
  { intros tx0 ts0 Hk0. unfold touches. by rewrite Transaction.batch_map. }
  rewrite E in Hc, Hwf. apply elem_of_app in Hc as [Hc|[Hc|Hc]%elem_of_cons].
  - specialize (Hv k (or_introl Hk')). rewrite hist_changed_false in Hv.
    apply (Hv _ Hc). by apply Htouch.
  - injection Hc as ->. lia.
  - apply list_elem_of_split in Hc as (h3 & h4 & ->).
    pose proof (history_wf_before (h1 ++ Inner.commit_of ts' (Transaction.batch tx') :: h3)
      (Inner.commit_of ts (Transaction.batch tx)) h4
      (Inner.commit_of ts' (Transaction.batch tx')) k) as Hb.
    rewrite <-app_assoc in Hb. cbn in Hb. specialize (Hb Hwf ltac:(set_solver)).
    specialize (Hb (Htouch _ _ Hk) (Htouch _ _ Hk')). unfold ts_of in Hb. cbn in Hb. lia.
Qed.

Lemma inv_history h0 s : inv h0 s → history_wf (hist s).
Proof using Type. intros [(inflight & hz & Hinv & _) _ _ _ _]. by eapply Inner.inv_history. Qed.

(** The watermark is below every commit still in flight, and there is nothing
    else above it. *)
Lemma watermark_spec h0 s ts :
  inv h0 s →
  (ts ≤ Inner.watermark (inner s))%N ↔
    (ts < Oracle.next_ts (Inner.oracle (inner s)))%N ∧
    ∀ n c t, clients s !! n = Some c → pending c = Some t → (ts < t)%N.
Proof using Type.
  intros [(inflight & hz & Hinv & Hspec) _ _ _ _].
  destruct (Inner.inv_oracle _ _ _ _ _ Hinv).
  assert (Inner.watermark (inner s) = Oracle.done_upto (Oracle.pending (Inner.oracle (inner s)))) as ->
    by exact wf_published.
  set (d := Oracle.done_upto _) in *. split.
  - intros Hle. split; [lia|]. intros n c t Hn Hp.
    assert (t ∈ inflight) as Ht by (apply Hspec; eauto). specialize (wf_inflight t Ht). lia.
  - intros [Hlt Hall]. apply N.le_ngt. intros Hgt.
    destruct (wf_cover (d + 1)%N) as [|Hin]; [lia|done|].
    apply Hspec in Hin as (n & c & Hn & Hp). specialize (Hall n c _ Hn Hp). lia.
Qed.

(** *** The code's commit is a path of actions *)

Lemma act_apply s n tx obs ts app i r :
  clients s !! n = Some (mkClient tx Allocated obs (Some ts) app) →
  Inner.apply (inner s) (Transaction.read_timestamp tx) ts (Transaction.batch tx)
    (Transaction.commit_reads tx) = Ret (i, r) →
  ∃ h, act s (AApply n) = Ret (Some (mk i
    (<[n := mkClient tx (Applied r) obs (Some ts) (is_ok r)]> (clients s)) (collectors s) h)).
Proof using Type. intros Hn E. unfold act. rewrite Hn, E. run. by eexists. Qed.

(** Appending, publishing and unregistering, after the store has answered. *)
Lemma acts_finish s n tx obs ts app r i d i2 i3 :
  clients s !! n = Some (mkClient tx (Applied r) obs (Some ts) app) →
  (if is_ok r then Inner.append (inner s) (Inner.encode_record (inner s) ts (Transaction.batch tx))
   else (inner s, Ok tt)) = (i, d) →
  Inner.commit_done i ts = Ret i2 → ActiveReader.drop i2 (Transaction.active tx) = Ret i3 →
  let r' := match d with Err e => Err e | Ok _ => (λ _, ts) <$> r end in
  ∃ s', acts s [AAppend n; APublish n; ADrop n] = Ret (Some s') ∧ inner s' = i3 ∧
    ∃ c, clients s' !! n = Some c ∧ c_phase c = Finished r'.
Proof using Type.
  intros Hn Ea Ed Er. cbn [acts act]. rewrite Hn, Ea. run. cbn [set_client clients inner].
  rewrite lookup_insert_eq, Ed. run. cbn [set_client clients inner].
  rewrite lookup_insert_eq, Er. run. eexists. split; [done|]. split; [done|].
  eexists. cbn. by rewrite lookup_insert_eq.
Qed.

Lemma commit_path_empty s n c i' r :
  clients s !! n = Some c → c_phase c = Active → Transaction.writes (c_tx c) = ∅ →
  Transaction.commit (inner s) (c_tx c) = Ret (i', r) →
  ∃ s', acts s [ACommitEmpty n; ADrop n] = Ret (Some s') ∧ inner s' = i' ∧
    ∃ c', clients s' !! n = Some c' ∧ c_phase c' = Finished r.
Proof using Type.
  intros Hn Hph He. unfold Transaction.commit. rewrite bool_decide_true by done. run.
  intros (i1 & Ed & [= -> <-])%bind_Ret. unfold acts, act, in_phase. rewrite Hn. cbn. rewrite Hph.
  cbn. rewrite bool_decide_true by done. run. cbn. rewrite lookup_insert_eq. cbn.
  rewrite Ed. run. eexists. split; [done|]. split; [done|].
  eexists. cbn. by rewrite lookup_insert_eq.
Qed.

Lemma commit_path_writes s n c i' r :
  clients s !! n = Some c → c_phase c = Active → Transaction.writes (c_tx c) ≠ ∅ →
  Transaction.commit (inner s) (c_tx c) = Ret (i', r) →
  ∃ s', acts s [AAlloc n; AApply n; AAppend n; APublish n; ADrop n] = Ret (Some s') ∧
    inner s' = i' ∧ ∃ c', clients s' !! n = Some c' ∧ c_phase c' = Finished r.
Proof using Type.
  intros Hn Hph Hne. unfold Transaction.commit. rewrite bool_decide_false by done.
  intros ([i0 r0] & Hcw & (i3 & Ed & [= -> <-])%bind_Ret)%bind_Ret. unfold Inner.commit_writes in Hcw.
  change (?a :: ?b :: ?l) with ([a] ++ [b] ++ l).
  cbn [acts app act]. unfold in_phase at 1. rewrite Hn. cbn [mbind option_bind].
  rewrite Hph. cbn [is_active]. rewrite bool_decide_false by done.
  destruct (Inner.alloc (inner s)) as [i1 ts]. run.
  apply bind_Ret in Hcw as ([i2 res] & Eap & Hcw).
  set (s1 := set_client s i1 n _).
  destruct (act_apply s1 n (c_tx c) (c_obs c) ts false i2 res) as [h E].
  { cbn. by rewrite lookup_insert_eq. }
  { done. }
  cbn [act] in E. rewrite E. run.
  assert (Inner.encode_record i1 ts (Transaction.batch (c_tx c)) =
    Inner.encode_record i2 ts (Transaction.batch (c_tx c))) as Henc.
  { unfold Inner.apply in Eap. apply bind_Ret in Eap as ([st r'] & _ & [= <- <-]). done. }
  rewrite Henc in Hcw. destruct (if is_ok res then _ else _) as [i4 d] eqn:Eapp.
  assert (∃ i5, Inner.commit_done i4 ts = Ret i5 ∧ i0 = i5 ∧
    r0 = match d with Err e => Err e | Ok _ => (λ _, ts) <$> res end) as (i5 & Ecd & -> & ->).
  { destruct d; apply bind_Ret in Hcw as (i5 & ? & [= <- <-]); by exists i5. }
  eapply acts_finish; [|exact Eapp|exact Ecd|exact Ed]. cbn. by rewrite lookup_insert_eq.
Qed.

(** ** Properties *)

(** Snapshot isolation of reads. Whatever steps other clients and collections
    take in between, every value a transaction was served from its snapshot is
    the value the applied history has at its read timestamp; it stays so in every
    later state, so reads are repeatable and no collection takes a version away
    from a live reader. *)
Theorem snapshot_reads_stable h0 s n c k v :
  reachable h0 s → clients s !! n = Some c → (k, v) ∈ c_obs c →
  v = hist_view (hist s) k (Transaction.read_timestamp (c_tx c)).
Proof using Type.
  intros Hs%reachable_inv Hn Hin. by eapply co_obs; [eapply i_clients|].
Qed.

(** C2: First committer wins. Two transactions whose batches were applied and
    both wrote a key did not overlap: one of them committed at or before the
    other's snapshot. No update is lost. *)
Theorem first_committer_wins h0 s n n' c c' ts ts' k :
  reachable h0 s → clients s !! n = Some c → clients s !! n' = Some c' → n ≠ n' →
  c_applied c = true → c_applied c' = true → c_ts c = Some ts → c_ts c' = Some ts' →
  is_Some (Transaction.writes (c_tx c) !! k) → is_Some (Transaction.writes (c_tx c') !! k) →
  (Timestamp.get ts ≤ Timestamp.get (Transaction.read_timestamp (c_tx c')))%N ∨
  (Timestamp.get ts' ≤ Timestamp.get (Transaction.read_timestamp (c_tx c)))%N.
Proof using Type.
  intros Hs%reachable_inv Hn Hn' Hne Ha Ha' Ht Ht' Hk Hk'.
  pose proof (co_applied _ _ _ _ (i_clients _ _ Hs n c Hn) ts Ht Ha) as Hc.
  pose proof (co_applied _ _ _ _ (i_clients _ _ Hs n' c' Hn') ts' Ht' Ha') as Hc'.
  pose proof (inv_history _ _ Hs) as Hwf.
  destruct (N.lt_trichotomy (Timestamp.get ts) (Timestamp.get ts')) as [?|[E|?]].
  - left. by eapply committed_ordered.
  - apply Timestamp.ext in E as ->. destruct Hne. by eapply (i_unique _ _ Hs n n' c c').
  - right. by eapply committed_ordered.
Qed.

(** C3: Serializability of committing serializable transactions. The order in
    which the store applied the batches is a serial order: each serializable
    transaction that wrote read, for every key it read from its snapshot, the
    value that key has after the commits applied before its own. *)
Theorem serializable_in_apply_order h0 s n c set :
  reachable h0 s → clients s !! n = Some c → c_applied c = true →
  Transaction.reads (c_tx c) = Some set →
  ∃ ts h1 h2, c_ts c = Some ts ∧
    hist s = h1 ++ Inner.commit_of ts (Transaction.batch (c_tx c)) :: h2 ∧
    ∀ k v, (k, v) ∈ c_obs c → v = hist_now h1 k.
Proof using Type.
  intros Hs%reachable_inv Hn Ha Hset. pose proof (i_clients _ _ Hs n c Hn) as [].
  destruct (co_ts0 Ha) as [ts Ht]. destruct (co_applied0 ts Ht Ha) as (h1 & h2 & E & Hv & Hafter).
  exists ts, h1, h2. split_and!; [done..|]. intros k v Hin.
  rewrite (hist_now_unchanged h1 k (Transaction.read_timestamp (c_tx c))).
  2:{ apply Hv. right. rewrite Hset. by eapply co_tracked0. }
  rewrite (co_obs0 k v Hin), E. by apply hist_view_suffix.
Qed.



(** C33: No action of any client or collection ever panics: no index out of range,
    no arithmetic overflow, no missing reader, as long as the 64-bit counters have
    room for one more step. *)
Theorem system_never_panics h0 s a :
  reachable h0 s → room s 1 → act s a ≠ Panic.
Proof using Type.
  intros Hs%reachable_inv Hr. destruct (keeps_all h0 s 0 Hs Hr a) as (o & -> & _). done.
Qed.

(** Commits are wait-free: a client inside [commit] always has its next action
    enabled, whatever the others do, and each one brings it strictly closer to
    the end. *)
Theorem commit_progress h0 s n c a :
  reachable h0 s → room s 1 → clients s !! n = Some c → next_action n c = Some a →
  ∃ s' c', act s a = Ret (Some s') ∧ clients s' !! n = Some c' ∧
    remaining (c_phase c') < remaining (c_phase c).
Proof using Type.
  intros Hs%reachable_inv Hr Hn Ha. pose proof (i_clients _ _ Hs n c Hn) as [].
  destruct (keeps_all h0 s 0 Hs Hr a) as (o & E & _).
  destruct c as [tx ph obs ots app]. unfold phase_ok in co_phase0. cbn in *.
  destruct ph; try done; injection Ha as <-.
  4:{ unfold act in E |- *. rewrite Hn in E |- *. apply bind_Ret in E as (i' & -> & _). run.
      eexists _, _. split; [done|]. cbn. rewrite lookup_insert_eq. split; [done|cbn; lia]. }
  all: destruct co_phase0 as [[ts ->] _].
  - unfold act in E |- *. rewrite Hn in E |- *. apply bind_Ret in E as ([i' r] & -> & _). run.
    eexists _, _. split; [done|]. cbn. rewrite lookup_insert_eq. split; [done|cbn; lia].
  - unfold act in E |- *. rewrite Hn in E |- *. destruct (if is_ok r then _ else _) as [i' d].
    eexists _, _. split; [done|]. cbn. rewrite lookup_insert_eq. split; [done|cbn; lia].
  - unfold act in E |- *. rewrite Hn in E |- *. apply bind_Ret in E as (i' & -> & _). run.
    eexists _, _. split; [done|]. cbn. rewrite lookup_insert_eq. split; [done|cbn; lia].
Qed.

(** [Transaction::commit] run without interruption is the composition of the
    actions that [System] interleaves: it ends in the same shared state, with the
    client finished and holding the same result. *)
Theorem commit_is_its_actions s n c i' r :
  clients s !! n = Some c → c_phase c = Active →
  Transaction.commit (inner s) (c_tx c) = Ret (i', r) →
  ∃ s', acts s (commit_actions n (c_tx c)) = Ret (Some s') ∧ inner s' = i' ∧
    ∃ c', clients s' !! n = Some c' ∧ c_phase c' = Finished r.
Proof using Type.
  intros Hn Hph Hc. unfold commit_actions. case_bool_decide.
  - by eapply commit_path_empty.
  - by eapply commit_path_writes.
Qed.

End system.
Arguments t : clear implicits.
End System.
