(* ===== verification/Recovery.v ===== *)
(** * Durability and recovery

    What the commit log holds in every state the concurrent system can reach, and
    what opening the disk after a crash gives back. *)

From S2P Require Import Prelude RustStd Types Chain StoreTrait CommitLog MemStore OracleState.
From S2P Require Import History Coordinator Handles Database System.

Module Recovery.
Section recovery.
Context `{Profile} {S : Type} `{StoreLaws S} {Disk W : Type} `{WalLaws Disk W} `{HashIter}.

(** ** Definitions *)

(** The client was, or is about to be, told that its commit succeeded. *)
Definition acked (c : System.client) (ts : Timestamp.t) : Prop :=
  System.c_ts c = Some ts ∧
  match System.c_phase c with
  | System.Logged (Ok _) | System.Published (Ok _) | System.Finished (Ok _) => True
  | _ => False
  end.

(** The client has a timestamp and has not reached the log. *)
Definition unlogged (c : System.client) (ts : Timestamp.t) : Prop :=
  System.c_ts c = Some ts ∧
  match System.c_phase c with
  | System.Allocated | System.Applied _ => True
  | _ => False
  end.

(** The log holds [logged]: commits that were applied, each once, all those that
    were acknowledged among them. *)
Record log_inv (h0 : History) (s : System.t S W) (logged : History) : Prop := {
  li_holds : Inner.log_holds (System.inner s) logged;
  li_sub e : e ∈ logged → e ∈ System.hist s;
  li_unique : NoDup (ts_of <$> logged);
  li_initial e : e ∈ h0 → e ∈ logged;
  li_unlogged n c ts : System.clients s !! n = Some c → unlogged c ts →
    Timestamp.get ts ∉ ts_of <$> logged;
  li_acked n c ts : System.clients s !! n = Some c → acked c ts →
    Inner.commit_of ts (Transaction.batch (System.c_tx c)) ∈ logged;
}.

(** A step that does not touch the log, and acknowledges nobody new. *)
Definition silent (s s' : System.t S W) : Prop :=
  Inner.log (System.inner s') = Inner.log (System.inner s) ∧
  (∀ e, e ∈ System.hist s → e ∈ System.hist s') ∧
  ∀ n c', System.clients s' !! n = Some c' →
    (∀ ts, acked c' ts → ∃ c, System.clients s !! n = Some c ∧ acked c ts ∧
       System.c_tx c' = System.c_tx c) ∧
    (∀ ts, unlogged c' ts →
       (∃ c, System.clients s !! n = Some c ∧ unlogged c ts) ∨
       Timestamp.get ts ∉ ts_of <$> System.hist s).

(** States reached from a database opened over a log that holds its history, in
    which every commit so far fits the record format. *)
Definition reachable (h0 : History) (s : System.t S W) : Prop :=
  (∃ i hz logged0, Inner.inv i [] ∅ h0 hz ∧ logged0 ≡ₚ h0 ∧
    Inner.log_holds i logged0 ∧
    rtc System.roomy (System.start i h0) s) ∧
  Forall CommitLog.commit_fits (System.hist s).

(** Nothing is in flight, and no commit failed to reach the log. *)
Definition settled (s : System.t S W) : Prop :=
  ∀ n c, System.clients s !! n = Some c →
    System.pending c = None ∧
    ∀ detail, System.c_phase c ≠ System.Published (Err (TxnError.Durability detail)) ∧
      System.c_phase c ≠ System.Finished (Err (TxnError.Durability detail)).

(** ** Lemmas *)

Lemma log_inv_silent h0 s s' logged : log_inv h0 s logged → silent s s' → log_inv h0 s' logged.
Proof using Type.
  intros [] (Hlog & Hh & Hc). split; [|by auto|done|done|..].
  - unfold Inner.log_holds in *. by rewrite Hlog.
  - intros n c ts Hn Hu. destruct (Hc n c Hn) as [_ Hun].
    destruct (Hun ts Hu) as [(c0 & Hc0 & Hu0)|Hfresh]; [by eapply li_unlogged0|].
    intros (e & Ets & He)%list_elem_of_fmap. apply Hfresh. rewrite Ets.
    apply list_elem_of_fmap_2. auto.
  - intros n c ts Hn Ha. destruct (Hc n c Hn) as [Hac _].
    destruct (Hac ts Ha) as (c0 & Hc0 & Ha0 & ->). by eapply li_acked0.
Qed.

(** Replacing one client. *)
Lemma silent_set h0 s n c' i' h' :
  System.inv h0 s →
  Inner.log i' = Inner.log (System.inner s) →
  (∀ e, e ∈ System.hist s → e ∈ h') →
  (∀ ts, acked c' ts → ∃ c, System.clients s !! n = Some c ∧ acked c ts ∧
     System.c_tx c' = System.c_tx c) →
  (∀ ts, unlogged c' ts →
     (∃ c, System.clients s !! n = Some c ∧ unlogged c ts) ∨
     Timestamp.get ts ∉ ts_of <$> System.hist s) →
  silent s (System.mk i' (<[n := c']> (System.clients s)) (System.collectors s) h').
Proof using Type.
  intros Hs Hl Hh Ha Hu. split_and!; cbn; [done..|].
  intros m c [[<- <-]|[_ Hm]]%lookup_insert_Some; [done|].
  split; [by eauto|]. intros ts ?. left. eauto.
Qed.

(** A client that is neither acknowledged nor waiting for the log. *)
Lemma silent_idle h0 (s : System.t S W) n c' i' :
  System.inv h0 s → Inner.log i' = Inner.log (System.inner s) →
  (∀ ts, ¬ acked c' ts) → (∀ ts, ¬ unlogged c' ts) →
  silent s (System.set_client s i' n c').
Proof using Type. intros Hs Hl Ha Hu. apply (silent_set h0); [done..|by intros ? ?%Ha|by intros ? ?%Hu]. Qed.

Lemma set_oracle_log (i : Inner.t S W) (m : outcome Oracle.t) i' :
  (o ← m; Ret (Inner.set_oracle i o)) = Ret i' → Inner.log i' = Inner.log i.
Proof using Type. by intros (o & _ & [= <-])%bind_Ret. Qed.

Lemma begin_log (i i' : Inner.t S W) serializable tx :
  Transaction.new i serializable = Ret (i', tx) → Inner.log i' = Inner.log i.
Proof using Type.
  unfold Transaction.new, ActiveReader.new, Inner.begin_reader.
  intros ([i1 a] & ([i2 ts] & ([o ts'] & _ & [= <- <-])%bind_Ret & [= <- <-])%bind_Ret
    & [= <- <-])%bind_Ret. done.
Qed.

Lemma get_log (i i' : Inner.t S W) tx tx' key r :
  Transaction.get i tx key = Ret (i', tx', r) → Inner.log i' = Inner.log i.
Proof using Type.
  unfold Transaction.get. destruct (_ !! key); [by intros [= <- _ _]|].
  unfold Inner.store_get.
  intros ([i1 r1] & ([s' r2] & _ & [= <- <-])%bind_Ret & E)%bind_Ret.
  destruct r2; by injection E as <- _ _.
Qed.

Lemma apply_log (i i' : Inner.t S W) read ts writes reads r :
  Inner.apply i read ts writes reads = Ret (i', r) → Inner.log i' = Inner.log i.
Proof using Type. unfold Inner.apply. by intros ([s' r'] & _ & [= <- <-])%bind_Ret. Qed.

(** Every action but an append is silent. *)
Lemma act_silent h0 s a s' :
  System.inv h0 s → System.act s a = Ret (Some s') → (∀ n, a ≠ System.AAppend n) → silent s s'.
Proof using Type.
  intros Hs E Hna. destruct a as [n ser|n key|n key v|n|n|n|n|n|n|n|m|m]; cbn in E.
  - destruct (_ !! n) eqn:Hn; [done|]. apply bind_Ret in E as ([i tx] & Hl%begin_log & [= <-]).
    by apply (silent_idle h0); [..|intros ts []|intros ts []].
  - destruct (System.in_phase _ _ _) as [c|]; [|done].
    apply bind_Ret in E as ([[i tx] r] & Hl%get_log & [= <-]).
    by apply (silent_idle h0); [..|intros ts [_ []]|intros ts [_ []]].
  - destruct (System.in_phase _ _ _) as [c|]; [|done]. injection E as <-.
    by apply (silent_idle h0); [..|intros ts [_ []]|intros ts [_ []]].
  - destruct (System.in_phase _ _ _) as [c|]; [|done].
    apply bind_Ret in E as (i & Hl%set_oracle_log & [= <-]).
    by apply (silent_idle h0); [..|intros ts [_ []]|intros ts [_ []]].
  - destruct (System.in_phase _ _ _) as [c|] eqn:Hc; [|done].
    apply (System.active_facts h0 s Hs) in Hc as (Hn & _ & Hts & _).
    case_bool_decide; [|done]. injection E as <-.
    apply (silent_idle h0); [done..| |]; intros ts [Hts' ?]; cbn in Hts'; by rewrite Hts in Hts'.
  - destruct (System.in_phase _ _ _) as [c|] eqn:Hc; [|done].
    case_bool_decide; [done|]. destruct (System.i_inner _ _ Hs) as (inflight & hz & Hinv & _).
    destruct (Inner.alloc (System.inner s)) as [i ts] eqn:Ea. injection E as <-.
    unfold Inner.alloc, Oracle.alloc_commit_ts in Ea. injection Ea as <- <-.
    apply (silent_set h0); [done..| |]; [by intros ts [_ []]|]. intros ts [[= <-] _]. right.
    intros (e & Ets & He)%list_elem_of_fmap. pose proof (Inner.inv_issued _ _ _ _ _ Hinv e He).
    cbn in Ets. lia.
  - destruct (_ !! n) as [[tx ph obs [ts|] app]|] eqn:Hn; [destruct ph|destruct ph|]; try done.
    apply bind_Ret in E as ([i r] & Hl%apply_log & [= <-]).
    apply (silent_set h0); [done|done| | |].
    + intros e He. destruct (is_ok r); [set_solver|done].
    + by intros ts' [_ []].
    + intros ts' [[= <-] _]. left. by eexists.
  - by destruct (Hna n).
  - destruct (_ !! n) as [[tx ph obs [ts|] app]|] eqn:Hn; [destruct ph|destruct ph|]; try done.
    apply bind_Ret in E as (i & Hl%set_oracle_log & [= <-]).
    apply (silent_set h0); [done|done|done| |by intros ? [_ []]].
    intros ts' Ha. by eexists.
  - destruct (_ !! n) as [[tx ph obs ots app]|] eqn:Hn; [destruct ph|]; try done.
    apply bind_Ret in E as (i & Hl%set_oracle_log & [= <-]).
    apply (silent_set h0); [done|done|done| |by intros ? [_ []]].
    intros ts' Ha. by eexists.
  - injection E as <-. split_and!; cbn; [done..|]. intros n c Hn. split; intros; eauto.
  - injection E as <-. split_and!; cbn; [done..|]. intros n c Hn. split; intros; eauto.
Qed.

(** A client leaves the log with an error and nothing was written. *)
Lemma log_inv_refused h0 s n tx e obs ts app i logged :
  log_inv h0 s logged → Inner.log_holds i logged →
  log_inv h0 (System.set_client s i n
    (System.mkClient tx (System.Logged (Err e)) obs (Some ts) app)) logged.
Proof using Type.
  intros [] Hl. split; cbn; [exact Hl|done|done|done|..].
  - intros m c' ts' [[<- <-]|[_ Hm]]%lookup_insert_Some Hu; [by destruct Hu|by eapply li_unlogged0].
  - intros m c' ts' [[<- <-]|[_ Hm]]%lookup_insert_Some Hu; [by destruct Hu|by eapply li_acked0].
Qed.

(** A client leaves the log and its commit was written. *)
Lemma log_inv_written h0 s n tx r r' obs ts app i logged :
  System.inv h0 s →
  System.clients s !! n = Some (System.mkClient tx (System.Applied r) obs (Some ts) app) →
  Inner.commit_of ts (Transaction.batch tx) ∈ System.hist s →
  log_inv h0 s logged → Inner.log_holds i (logged ++ [Inner.commit_of ts (Transaction.batch tx)]) →
  log_inv h0 (System.set_client s i n
    (System.mkClient tx (System.Logged r') obs (Some ts) app))
    (logged ++ [Inner.commit_of ts (Transaction.batch tx)]).
Proof using Type.
  intros Hs Hn Hc [] Hl.
  assert (Timestamp.get ts ∉ ts_of <$> logged) as Hfresh by (by eapply (li_unlogged0 n)).
  split; cbn; [exact Hl|..].
  - intros e [?| ->%list_elem_of_singleton]%elem_of_app; auto.
  - rewrite fmap_app. apply NoDup_app. split_and!; [done| |by apply NoDup_singleton].
    intros t Ht ->%list_elem_of_singleton. done.
  - intros e He. apply elem_of_app. auto.
  - intros m c' ts' [[<- <-]|[Hne Hm]]%lookup_insert_Some Hu; [by destruct Hu|].
    rewrite fmap_app, not_elem_of_app. split; [by eapply li_unlogged0|].
    cbn. rewrite list_elem_of_singleton. intros E. apply Hne.
    apply (System.i_unique _ _ Hs n m _ c' ts Hn Hm); [done|].
    destruct Hu as [-> _]. f_equal. by apply Timestamp.ext.
  - intros m c' ts' [[<- <-]|[_ Hm]]%lookup_insert_Some Hu.
    + destruct Hu as [[= <-] _]. set_solver.
    + apply elem_of_app. left. by eapply li_acked0.
Qed.

(** An append records the commit, if it is to be acknowledged. *)
Lemma act_append h0 s n s' logged :
  System.inv h0 s → System.act s (System.AAppend n) = Ret (Some s') →
  log_inv h0 s logged → Forall CommitLog.commit_fits (System.hist s) →
  ∃ logged', log_inv h0 s' logged'.
Proof using Type.
  intros Hs E Hli Hfits. cbn in E.
  destruct (System.clients s !! n) as [[tx ph obs [ts|] app]|] eqn:Hn;
    [destruct ph as [| |r| | | |]|destruct ph|]; try done.
  pose proof (System.i_clients _ _ Hs n _ Hn) as Hok.
  destruct (System.co_phase _ _ _ _ Hok) as (_ & Happ & Hr). cbn in Happ. subst app.
  destruct r as [[]|e]; cbn [is_ok] in E.
  2:{ injection E as <-. exists logged. by apply log_inv_refused, (li_holds h0). }
  set (c := Inner.commit_of ts (Transaction.batch tx)).
  assert (c ∈ System.hist s) as Hc.
  { eapply System.committed_in_elem. by apply (System.co_applied _ _ _ _ Hok). }
  assert (CommitLog.commit_fits c) as Hcf by (by eapply Forall_forall in Hfits).
  pose proof (Inner.append_log (System.inner s) c logged (li_holds _ _ _ Hli) Hcf) as Hlog.
  change (Inner.encode_record _ _ _) with
    (Inner.encode_record (System.inner s) ts (Transaction.batch tx)) in Hlog.
  destruct (Inner.append _ _) as [i [[]|e]]; cbn [fst snd] in *; injection E as <-.
  - eexists. by eapply log_inv_written.
  - destruct Hlog; eexists; [by apply log_inv_refused|by eapply log_inv_written].
Qed.

(** The history only grows. *)
Lemma step_hist s s' e : System.step s s' → e ∈ System.hist s → e ∈ System.hist s'.
Proof using Type. intros [->|[c ->]]%System.step_history He; set_solver. Qed.

Lemma step_log_inv h0 s s' logged k :
  System.inv h0 s → System.room s (k + 1) → System.step s s' →
  Forall CommitLog.commit_fits (System.hist s') →
  log_inv h0 s logged → ∃ logged', log_inv h0 s' logged'.
Proof using Type.
  intros Hs Hr Hstep Hfits Hli.
  assert (Forall CommitLog.commit_fits (System.hist s)) as Hfits0.
  { rewrite Forall_forall in Hfits |- *. intros e He. apply Hfits. by eapply step_hist. }
  destruct Hstep as [a s' E|m wm st Hm Hgc].
  - assert ((∃ n, a = System.AAppend n) ∨ ∀ n, a ≠ System.AAppend n) as [[n ->]|Hna]
      by (destruct a; (by left; eexists) || by right).
    { by eapply act_append. }
    assert (silent s s') as Hsil by by eapply act_silent.
    exists logged. by eapply log_inv_silent.
  - exists logged. destruct Hli. by split.
Qed.

Lemma rtc_log_inv h0 s s' logged :
  System.inv h0 s → rtc System.roomy s s' →
  Forall CommitLog.commit_fits (System.hist s') →
  log_inv h0 s logged → ∃ logged', log_inv h0 s' logged'.
Proof using Type.
  intros Hs Hrun. revert logged. induction Hrun as [s|s s1 s2 [Hr Hstep] Hrun IH];
    intros logged Hfits Hli; [by eexists|].
  destruct (System.step_inv h0 s 0 Hs Hr s1 Hstep) as [Hs1 _].
  assert (∀ e, e ∈ System.hist s1 → e ∈ System.hist s2) as Hgrow.
  { clear -Hrun. induction Hrun as [|? ? ? [_ Hstep] _ IH]; [done|]. intros e He.
    by eapply IH, step_hist. }
  assert (Forall CommitLog.commit_fits (System.hist s1)) as Hfits1.
  { rewrite Forall_forall in Hfits |- *. auto. }
  destruct (step_log_inv h0 s s1 logged 0) as (logged1 & Hli1); [done..|].
  by eapply IH.
Qed.

(** At the start the log holds the history. *)
Lemma start_log_inv i h0 hz logged0 :
  Inner.inv i [] ∅ h0 hz → logged0 ≡ₚ h0 → Inner.log_holds i logged0 →
  log_inv h0 (System.start i h0) logged0.
Proof using Type.
  intros Hi Hp Hl. split; cbn; [exact Hl|..].
  - intros e. by rewrite Hp.
  - rewrite Hp. by apply (hwf_unique _ (Inner.inv_history _ _ _ _ _ Hi)).
  - intros e. by rewrite Hp.
  - intros m c ts Hm. by rewrite lookup_empty in Hm.
  - intros m c ts Hm. by rewrite lookup_empty in Hm.
Qed.

Lemma reachable_log_inv h0 s :
  reachable h0 s →
  System.inv h0 s ∧ ∃ logged, log_inv h0 s logged.
Proof using Type.
  intros [(i & hz & logged0 & Hi & Hp & Hl & Hrun) Hfits].
  pose proof (System.start_inv i h0 hz Hi) as Hs.
  split; [apply System.reachable_inv; by exists i, hz|].
  eapply rtc_log_inv; [exact Hs|exact Hrun|done|]. by eapply start_log_inv.
Qed.

(** In a settled state the log holds the whole history. *)
Lemma settled_logged h0 s logged :
  System.inv h0 s → log_inv h0 s logged → settled s → logged ≡ₚ System.hist s.
Proof using Type.
  intros Hs Hli Hset. pose proof (System.inv_history _ _ Hs) as Hwf.
  apply NoDup_Permutation.
  - by eapply NoDup_fmap_1, li_unique.
  - by eapply NoDup_fmap_1, hwf_unique.
  - intros e. split; [by eapply li_sub|]. intros He.
    destruct (System.i_hist _ _ Hs e He) as [?|(n & c & ts & Hn & Hts & Ha & ->)];
      [by eapply li_initial|].
    eapply (li_acked _ _ _ Hli n); [done|]. split; [done|].
    destruct (Hset n c Hn) as [Hp Hd].
    pose proof (System.co_phase _ _ _ _ (System.i_clients _ _ Hs n c Hn)) as Hph.
    unfold System.phase_ok, System.pending, System.result_ok in *. rewrite Hts, Ha in *.
    destruct (System.c_phase c) as [| |r|r|[|[]]|[|[]]|]; try done; try naive_solver.
Qed.

(** Opening the log of a settled state gives the same reads. *)
Lemma settled_reopens h0 s logged l :
  System.inv h0 s → log_inv h0 s logged → settled s → Inner.log (System.inner s) = Some l →
  (∃ e, Db.open (wal_disk (CommitLog.wal l)) = Ret (Err (TxnError.durability e))) ∨
  ∃ i h, Db.open (wal_disk (CommitLog.wal l)) = Ret (Ok i) ∧
    Inner.inv i [] ∅ h 0 ∧ h ≡ₚ logged ∧ Inner.log_holds i logged ∧
    ∀ k t, hist_view h k t = hist_view (System.hist s) k t.
Proof using Type.
  intros Hs Hli Hset Hl. pose proof (System.inv_history _ _ Hs) as Hwf.
  destruct (System.i_inner _ _ Hs) as (fl & hz & Hi & _).
  pose proof (settled_logged h0 s logged Hs Hli Hset) as Hp.
  pose proof Hli as [Hh Hsub Hu _ _ _]. destruct Hh as (l' & El & Hh). rewrite Hl in El. injection El as <-.
  destruct (Db.open_disk_inv _ logged (CommitLog.holds_disk _ logged Hh) Hu) as [?|(i & Ho & Hi' & Hli' & _)].
  - intros c Hc. by apply (hwf_batches _ Hwf), Hsub.
  - intros c Hc%Hsub. pose proof (Inner.inv_issued _ _ _ _ _ Hi c Hc).
    pose proof (Oracle.wf_range _ _ (Inner.inv_oracle _ _ _ _ _ Hi)). lia.
  - by left.
  - right. eexists _, _. split_and!; [exact Ho|exact Hi'|apply sort_by_key_perm|exact Hli'|].
    intros k t. apply (history_perm_same (System.hist s) (sort_by_key ts_of logged)); [done| |].
    + by apply history_wf_sorted; [|intros c Hc; apply (hwf_batches _ Hwf), Hsub].
    + by rewrite sort_by_key_perm, Hp.
Qed.

(** ** Properties *)


(** Recovery is exact when nothing is in flight and no append failed: the
    reopened database reads, for every key at every timestamp, what the database
    before the crash would. *)
Theorem settled_recovery_exact h0 s l i :
  reachable h0 s → settled s → Inner.log (System.inner s) = Some l →
  Db.open (wal_disk (CommitLog.wal l)) = Ret (Ok i) →
  ∃ h, Inner.inv i [] ∅ h 0 ∧
    ∀ k t, hist_view h k t = hist_view (System.hist s) k t.
Proof using Type.
  intros Hreach Hset Hl Hopen. destruct (reachable_log_inv h0 s Hreach) as (Hs & logged & Hli).
  destruct (settled_reopens h0 s logged l Hs Hli Hset Hl) as [[e E]|(i' & h & Ho & Hi & _ & _ & Hv)].
  - by rewrite Hopen in E.
  - rewrite Hopen in Ho. injection Ho as <-. by exists h.
Qed.

(** A log cut anywhere recovers a prefix. Take any state that clients and
    collections can reach, and a disk on which only the first records of its log
    are left: opening it reports a durability error, or yields a database with no
    reader and nothing in flight whose history is exactly the first logged commits,
    each of them whole. *)
Theorem truncated_log_recovers_prefix h0 s l d m :
  reachable h0 s → Inner.log (System.inner s) = Some l →
  (∀ w, wal_open d = inr w → wal_records w = take m (wal_records (CommitLog.wal l))) →
  (∃ e, Db.open d = Ret (Err (TxnError.durability e))) ∨
  ∃ i logged, Db.open d = Ret (Ok i) ∧ Inner.log_holds (System.inner s) logged ∧
    (∀ e, e ∈ logged → e ∈ System.hist s) ∧
    Inner.inv i [] ∅ (sort_by_key ts_of (take m logged)) 0 ∧ Inner.log_holds i (take m logged).
Proof using Type.
  intros Hreach Hl Hcut. destruct (reachable_log_inv h0 s Hreach) as (Hs & logged & Hli).
  pose proof (System.inv_history _ _ Hs) as Hwf. destruct (System.i_inner _ _ Hs) as (fl & hz & Hi & _).
  pose proof Hli as [Hh Hsub Hu _ _ _]. destruct Hh as (l' & El & Hrec & Hfits).
  rewrite Hl in El. injection El as <-.
  assert (∀ c, c ∈ take m logged → c ∈ logged) as Htake.
  { intros c Hc. by eapply elem_of_submseteq, sublist_submseteq, sublist_take. }
  destruct (Db.open_disk_inv d (take m logged)) as [?|(i & Ho & Hi' & Hli' & _)].
  - split; [by apply Forall_take|]. intros w Hw. by rewrite (Hcut w Hw), Hrec, fmap_take.
  - rewrite fmap_take. eapply sublist_NoDup; [exact Hu|apply sublist_take].
  - intros c Hc%Htake. by apply (hwf_batches _ Hwf), Hsub.
  - intros c Hc%Htake%Hsub. pose proof (Inner.inv_issued _ _ _ _ _ Hi c Hc).
    pose proof (Oracle.wf_range _ _ (Inner.inv_oracle _ _ _ _ _ Hi)). lia.
  - by left.
  - right. exists i, logged. split_and!; [done|by exists l|done..].
Qed.

End recovery.
End Recovery.
