(* ===== verification/Restart.v ===== *)
(** * A durable database across restarts

    [Db::open], a session, a crash or a shutdown between two calls, [Db::open] on
    what is on the disk, and so on. The abstract machine of [Spec] is extended
    with what is saved; the modelled code implements it. *)

From S2P Require Import Prelude RustStd Types Chain StoreTrait CommitLog MemStore OracleState.
From S2P Require Import History Coordinator Handles Database Spec Session System Recovery.

(** ** What a client of a durable database does

    A call of a session, or opening the directory again: handles are lost. *)
Inductive op :=
| Call (c : call)
| Restart.

Inductive reply :=
| Answered (a : answer)
| Reopened
| OpenFailed (e : TxnError.t)
| NotOpen.

(** ** The abstract machine *)

Module DSI.

(** The session, when the database is open, and the database a restart gives. *)
Record state := mk { up : option SI.state; saved : SI.db }.

Definition nothing : SI.db := SI.mkDb ∅ ∅ 0.

(** A directory that does not exist yet. *)
Definition initial : state := mk None nothing.

(** Saving the batch of the commit at [ts]. *)
Definition save (d : SI.db) (ts : N) (w : gmap bytes (option bytes)) : SI.db :=
  SI.mkDb (overlay w (SI.now d)) (((λ _, ts) <$> w) ∪ SI.stamps d) ts.

(** The batch a call asks to commit. *)
Definition batch_of (a : SI.state) (c : call) : gmap bytes (option bytes) :=
  match c with
  | Commit n => match SI.handles a !! n with Some (SI.HTxn tx) => SI.pending tx | _ => ∅ end
  | PutNow key value => {[key := Some value]}
  | DeleteNow key => {[key := None]}
  | _ => ∅
  end.

(** What a call saves: the batch of a commit that is acknowledged, whole; perhaps
    that of one that could not be logged; nothing else. *)
Definition saves (a : SI.state) (c : call) (ans : answer) (d d' : SI.db) : Prop :=
  let w := batch_of a c in
  let saved := save d (SI.clock (SI.sdb a) + 1) w in
  if bool_decide (w = ∅) then d' = d else
  match ans with
  | Committed (Ok _) => d' = saved
  | Committed (Err (TxnError.Durability _)) => d' = d ∨ d' = saved
  | _ => d' = d
  end.

(** The in-memory store of a durable database cannot fail. *)
Inductive step (s : state) : op → reply → state → Prop :=
| step_call a c ans a' d :
   up s = Some a → SI.step False True a c ans a' → saves a c ans (saved s) d →
   step s (Call c) (Answered ans) (mk (Some a') d)
| step_not_open c :
   up s = None →
   step s (Call c) NotOpen s
| step_reopen :
   step s Restart Reopened (mk (Some (SI.mkState (saved s) ∅ 0)) (saved s))
| step_open_failed e :
   step s Restart (OpenFailed (TxnError.durability e)) (mk None (saved s)).

Inductive steps : state → list (op * reply) → state → Prop :=
| steps_nil s : steps s [] s
| steps_cons s o r s1 l s2 : step s o r s1 → steps s1 l s2 → steps s ((o, r) :: l) s2.

Lemma steps_app s l1 l2 s' :
  steps s (l1 ++ l2) s' → ∃ s1, steps s l1 s1 ∧ steps s1 l2 s'.
Proof.
  revert s. induction l1 as [|[o r] l1 IH]; intros s Hs; [by exists s; split; [constructor|]|].
  inversion Hs; subst. destruct (IH s1) as (s2 & ? & ?); [done|]. exists s2. split; [|done].
  by econstructor.
Qed.

End DSI.

(** ** The code *)

Module Durable.
Section durable.
Context `{Profile} {Disk W : Type} `{Wal Disk W} `{HashIter}.

(** The process is running with a database open, or only the disk is there. *)
Inductive node :=
| Up (s : Session.t MemoryStore.t W)
| Down (d : Disk).

(** What a crash leaves. *)
Definition disk_of (x : node) : option Disk :=
  match x with
  | Up s => (λ l, wal_disk (CommitLog.wal l)) <$> Inner.log (Session.inner s)
  | Down d => Some d
  end.

Definition exec (fuel : nat) (x : node) (o : op) : outcome (option (node * reply)) :=
  match o with
  | Restart =>
     match disk_of x with
     | None => Ret (Some (x, NotOpen))
     | Some d =>
        r ← Db.open d;
        Ret (Some match r with
                  | Ok i => (Up (Session.start i), Reopened)
                  | Err e => (Down d, OpenFailed e)
                  end)
     end
  | Call c =>
     match x with
     | Down _ => Ret (Some (x, NotOpen))
     | Up s =>
        o ← Session.exec fuel s c;
        Ret match o with Some (s, a) => Some (Up s, Answered a) | None => None end
     end
  end.

Fixpoint run_ops (fuel : nat) (x : node) (os : list op) : outcome (option (node * list reply)) :=
  match os with
  | [] => Ret (Some (x, []))
  | o :: os =>
     r ← exec fuel x o;
     match r with
     | None => Ret None
     | Some (x, a) =>
        r ← run_ops fuel x os;
        Ret match r with Some (x, replies) => Some (x, a :: replies) | None => None end
     end
  end.

(** The keys and values of a call have lengths the record format can hold. *)
Definition call_fits (o : op) : Prop :=
  match o with
  | Call (Put _ key value) | Call (PutNow key value) => Codec.write_fits (key, Some value)
  | Call (Delete _ key) | Call (DeleteNow key) => Codec.write_fits (key, None)
  | _ => True
  end.

(** So many calls cannot fill a record. *)
Definition MAX_OPS : N := 2 ^ 30.

Context `{!WalLaws Disk W}.

(** A directory that does not exist yet: what is created there is empty. *)
Definition fresh (d : Disk) : Prop := ∀ w, wal_open d = inr w → wal_records w = [].

(** ** The simulation *)

(** [d] is what recovering the commits [logged] gives. *)
Record saved_as (logged : History) (d : SI.db) : Prop := {
  sv_wf : history_wf logged;
  sv_now k t : (SI.clock d ≤ Timestamp.get t)%N → hist_view logged k t = SI.now d !! k;
  sv_stamps k t : hist_changed logged k t = (Timestamp.get t <? SI.stamp d k)%N;
  sv_le c : c ∈ logged → (ts_of c ≤ SI.clock d)%N;
  sv_clock : SI.clock d = 0%N ∨ ∃ c, c ∈ logged ∧ ts_of c = SI.clock d;
}.

(** A batch of at most [used] writes, each of which fits. *)
Definition small (used : N) (w : gmap bytes (option bytes)) : Prop :=
  map_Forall (λ k v, Codec.write_fits (k, v)) w ∧ (N.of_nat (size w) ≤ used)%N.

Record open_as (logged : History) (used : N) (s : Session.t MemoryStore.t W) (a : SI.state)
    (d : SI.db) : Prop := {
  op_log : Inner.log_holds (Session.inner s) logged;
  op_sim : ∃ h, Session.sim True h s a;
  op_ahead : (SI.clock d ≤ SI.clock (SI.sdb a) ≤ used)%N;
  op_size : (N.of_nat (size (Session.handles s)) ≤ used)%N;
  op_small n tx : Session.handles s !! n = Some (Session.HTxn tx) →
    small used (Transaction.writes tx);
}.

(** After [used] operations. *)
Definition sim (used : N) (x : node) (st : DSI.state) : Prop :=
  ∃ logged, saved_as logged (DSI.saved st) ∧ (SI.clock (DSI.saved st) ≤ used)%N ∧
    match x, DSI.up st with
    | Down d, None => CommitLog.disk_holds d logged
    | Up s, Some a => open_as logged used s a (DSI.saved st)
    | _, _ => False
    end.

(** ** Lemmas: the saved image *)

Lemma saved_nothing : saved_as [] DSI.nothing.
Proof using Type.
  split; cbn; [|done| |set_solver|by left].
  - split; [apply NoDup_nil_2|set_solver|constructor].
  - intros k t. unfold SI.stamp. cbn. rewrite lookup_empty. cbn. symmetry. apply N.ltb_ge. lia.
Qed.

(** One more commit, with a later timestamp. *)
Lemma saved_snoc logged d ts tx :
  saved_as logged d → (SI.clock d < Timestamp.get ts)%N →
  saved_as (logged ++ [Inner.commit_of ts (Transaction.batch tx)])
    (DSI.save d (Timestamp.get ts) (Transaction.writes tx)).
Proof using Type.
  intros [Hwf Hnow Hst Hle Hcl] Hts.
  pose proof (Transaction.batch_map tx ts) as Hb. unfold writes_map in Hb. cbn in Hb.
  split; cbn [DSI.save SI.now SI.stamps SI.clock].
  - apply history_wf_snoc; [done|apply Transaction.batch_NoDup| |].
    + intros (c & E & Hc%Hle)%list_elem_of_fmap. rewrite <-E in Hc. unfold ts_of in Hc. cbn in Hc. lia.
    + intros k c Hc%Hle _ _. unfold ts_of in *. cbn. lia.
  - intros k t Ht. rewrite lookup_overlay, hist_view_snoc, Hnow by lia. unfold committed_view. cbn.
    rewrite Hb. destruct (Transaction.writes tx !! k); [|done]. by case_ts; [|lia].
  - intros k t. rewrite hist_changed_snoc, Hst. unfold committed_changed, SI.stamp. cbn.
    rewrite Hb, lookup_union, lookup_fmap.
    destruct (Transaction.writes tx !! k) as [w|]; cbn; [|by destruct (SI.stamps d !! k)].
    rewrite union_Some_l. cbn.
    assert (default 0%N (SI.stamps d !! k) ≤ SI.clock d)%N as Hmax.
    { apply N.le_ngt. intros Hlt%N.ltb_lt.
      pose proof (Hst k (Timestamp.from_raw (SI.clock d))) as E. unfold SI.stamp in E. cbn in E.
      rewrite Hlt in E. apply hist_changed_true in E as (c & Hc%Hle & _ & ?). cbn in *. lia. }
    case_ts; repeat case_cmp; cbn; try done; lia.
  - intros c [Hc%Hle| ->%list_elem_of_singleton]%elem_of_app; [lia|by unfold ts_of].
  - right. eexists. split; [apply elem_of_app; right; by left|done].
Qed.

(** Its highest timestamp. *)
Lemma saved_highest logged d :
  saved_as logged d →
  Timestamp.get (Db.highest_of Timestamp.ZERO (sort_by_key ts_of logged)) = SI.clock d.
Proof using Type.
  intros [_ _ _ Hle Hcl].
  assert (Hin : ∀ c, c ∈ sort_by_key ts_of logged ↔ c ∈ logged)
    by (intros c; by rewrite sort_by_key_perm).
  apply N.le_antisymm.
  - destruct (Db.highest_of_cases (sort_by_key ts_of logged) Timestamp.ZERO) as [->|(c & Hc & ->)];
      [cbn; lia|]. apply Hle. by apply Hin.
  - destruct Hcl as [->|(c & Hc & <-)]; [lia|]. apply Db.highest_of_ge. by apply Hin.
Qed.

(** ** Lemmas: sizes *)

Lemma small_mono used used' w : small used w → (used ≤ used')%N → small used' w.
Proof using Type. intros [? ?] ?. split; [done|lia]. Qed.

Lemma small_empty used : small used ∅.
Proof using Type. split; [apply map_Forall_empty|rewrite map_size_empty; lia]. Qed.

Lemma small_insert used w k v :
  small used w → Codec.write_fits (k, v) → small (used + 1) (<[k := v]> w).
Proof using Type.
  intros [Hf Hs] Hk. split; [by apply map_Forall_insert_2|].
  rewrite map_size_insert. destruct (w !! k); unfold id; lia.
Qed.

Lemma write_len_bound (w : WriteEntry) :
  Codec.write_fits w → (N.of_nat (Codec.write_len w) ≤ 8589934601)%N.
Proof using Type.
  destruct w as [k v]. unfold Codec.write_fits, Codec.value_fits, Codec.fits_u32.
  change (2 ^ 32)%N with 4294967296%N. cbn [fst snd Codec.write_len]. destruct v; lia.
Qed.

Lemma writes_len_bound (ws : list WriteEntry) :
  Forall Codec.write_fits ws →
  (N.of_nat (sum_list (Codec.write_len <$> ws)) ≤ N.of_nat (length ws) * 8589934601)%N.
Proof using Type.
  induction 1 as [|w ws Hw%write_len_bound _ IH]; [done|].
  rewrite fmap_cons. cbn [sum_list length]. change (id (Codec.write_len w)) with (Codec.write_len w). lia.
Qed.

(** A small batch fits the record format. *)
Lemma small_fits used tx ts :
  small used (Transaction.writes tx) → (used ≤ MAX_OPS)%N → (Timestamp.get ts < u64_modulus)%N →
  CommitLog.commit_fits (Inner.commit_of ts (Transaction.batch tx)).
Proof using Type.
  intros [Hf Hs] Hused Hts. unfold MAX_OPS in *.
  assert (Hlen : length (Transaction.batch tx) = size (Transaction.writes tx)).
  { unfold Transaction.batch. by rewrite hash_iter_perm, length_map_to_list. }
  assert (Hws : Forall Codec.write_fits (Transaction.batch tx)).
  { apply Forall_forall. intros [k v] Hkv%hash_iter_elem. by apply (Hf k v). }
  change (2 ^ 30)%N with 1073741824%N in *.
  unfold CommitLog.commit_fits, Inner.commit_of. cbn [Codec.commit_ts Codec.writes].
  split; [done| |done|].
  - unfold Codec.fits_u32. rewrite Hlen. change (2 ^ 32)%N with 4294967296%N. lia.
  - rewrite Codec.record_capacity_exact. unfold Codec.record_capacity, u64_modulus.
    apply writes_len_bound in Hws. lia.
Qed.

(** ** Lemmas: opening *)

(** Reopening a disk that holds [logged]: an I/O error, or a session that starts
    from what was saved. *)
Lemma open_sim used logged d sv :
  CommitLog.disk_holds d logged → saved_as logged sv →
  (SI.clock sv ≤ used)%N → (used ≤ MAX_OPS)%N →
  (∃ e, Db.open d = Ret (Err (TxnError.durability e))) ∨
  ∃ i, Db.open d = Ret (Ok i) ∧ open_as logged used (Session.start i) (SI.mkState sv ∅ 0) sv.
Proof using Type.
  intros Hd Hsv Hused Hmax. pose proof Hsv as [Hwf Hnow Hst Hle _]. unfold MAX_OPS in *.
  change (2 ^ 30)%N with 1073741824%N in *.
  destruct (Db.open_disk_inv d logged Hd) as [?|(i & Ho & Hi & Hlog & Hread)].
  - by apply hwf_unique.
  - by apply hwf_batches.
  - intros c Hc%Hle. unfold u64_modulus. lia.
  - by left.
  - right. exists i. split; [done|].
    assert (history_wf (sort_by_key ts_of logged)) as Hwf'
      by (apply history_wf_sorted; by apply Hwf).
    assert (Inner.watermark i = SI.clock sv) as Hw.
    { unfold Inner.watermark. rewrite Hread. by apply saved_highest. }
    assert (Hsame := history_perm_same _ _ Hwf Hwf' (Permutation_sym (sort_by_key_perm _ _))).
    split; cbn; [done| |lia|by rewrite map_size_empty; lia|by intros n tx Hn].
    exists (sort_by_key ts_of logged). split; cbn; [|done|by intros n []|intros n; constructor].
    split; cbn [SI.sdb]; [|intros k|intros k t|done|done].
    + exists 0%N. unfold Session.live_of. by rewrite map_to_list_empty.
    + rewrite Hw, (proj1 (Hsame _ _)), Hnow; [done|]. cbn. lia.
    + by rewrite (proj2 (Hsame _ _)).
Qed.

(** ** Lemmas: the abstract machine's clocks *)

Lemma machine_clock may_fail durable a c ans a' :
  SI.step may_fail durable a c ans a' →
  (SI.clock (SI.sdb a) ≤ SI.clock (SI.sdb a') ≤ SI.clock (SI.sdb a) + 1)%N.
Proof using Type.
  destruct 1; cbn; try lia; match goal with Hc : SI.committed _ _ _ _ _ _ |- _ => destruct Hc end;
    cbn; lia.
Qed.

(** Something is saved only when the clock moves. *)
Lemma saves_clock may_fail durable a c ans a' d d' :
  SI.step may_fail durable a c ans a' → DSI.saves a c ans d d' →
  (SI.clock d ≤ SI.clock (SI.sdb a))%N → (SI.clock d' ≤ SI.clock (SI.sdb a'))%N.
Proof using Type.
  intros Hstep. pose proof (machine_clock _ _ _ _ _ _ Hstep) as Hc. unfold DSI.saves.
  case_bool_decide as Hw; [intros -> ?; lia|].
  assert (∀ r, ans = Committed r → match r with
    | Ok _ | Err (TxnError.Durability _) => SI.clock (SI.sdb a') = (SI.clock (SI.sdb a) + 1)%N
    | _ => True end) as Hinst.
  { intros r ->. inversion Hstep; subst; cbn in *;
      match goal with Hc : SI.committed _ _ _ _ _ _ |- _ => destruct Hc end; cbn; try done;
      exfalso; apply Hw; try done; by simplify_map_eq. }
  destruct ans as [| |[|[]]| | | |]; try (intros -> ?; lia).
  - intros -> ?. cbn. by rewrite (Hinst _ eq_refl).
  - intros [-> | ->] ?; [lia|]. cbn. by rewrite (Hinst _ eq_refl).
Qed.

(** ** Lemmas: what a call does to the log *)

(** What it makes of the log is what the machine makes of the saved image. *)
Definition logs (a : SI.state) (c : call) (ans : answer) (d : SI.db)
    (i' : Inner.t MemoryStore.t W) : Prop :=
  ∃ logged' d', Inner.log_holds i' logged' ∧ saved_as logged' d' ∧ DSI.saves a c ans d d'.

Lemma logs_nothing logged a c ans d (i i' : Inner.t MemoryStore.t W) :
  Inner.log_holds i logged → saved_as logged d → Inner.log i' = Inner.log i →
  DSI.batch_of a c = ∅ ∨ (∀ r, ans ≠ Committed r) → logs a c ans d i'.
Proof using Type.
  intros Hl Hd E Hn. exists logged, d. split_and!; [by eapply Inner.log_holds_log|done|].
  unfold DSI.saves. case_bool_decide; [done|]. destruct Hn as [?|Hn]; [done|].
  destruct ans; try done. by destruct (Hn r).
Qed.

(** A commit that reaches [commit_writes]. *)
Lemma logs_commit used logged a c r d (i i' : Inner.t MemoryStore.t W) tx :
  Inner.log_holds i logged → saved_as logged d →
  (SI.clock d ≤ SI.clock (SI.sdb a))%N →
  Oracle.next_ts (Inner.oracle i) = (SI.clock (SI.sdb a) + 1)%N →
  (SI.clock (SI.sdb a) + 1 < u64_modulus)%N →
  DSI.batch_of a c = Transaction.writes tx →
  small used (Transaction.writes tx) → (used ≤ MAX_OPS)%N →
  Inner.commit_log_post i i' (Transaction.batch tx) r →
  Transaction.writes tx ≠ ∅ → logs a c (Committed r) d i'.
Proof using Type.
  intros Hl Hd Hle Hn Hroom Hb Hsmall Hused Hpost Hne.
  set (ts := Timestamp.from_raw (Oracle.next_ts (Inner.oracle i))) in *.
  assert (CommitLog.commit_fits (Inner.commit_of ts (Transaction.batch tx))) as Hfits
    by (eapply small_fits; [done|done|cbn; lia]).
  assert (saved_as (logged ++ [Inner.commit_of ts (Transaction.batch tx)])
    (DSI.save d (SI.clock (SI.sdb a) + 1) (DSI.batch_of a c))) as Hsnoc.
  { rewrite Hb, <-Hn. change (Oracle.next_ts _) with (Timestamp.get ts).
    apply saved_snoc; [done|]. cbn. lia. }
  specialize (Hpost logged Hl Hfits). fold ts in Hpost.
  assert (Hsv : ∀ d', match r with Ok _ => d' = DSI.save d (SI.clock (SI.sdb a) + 1) (DSI.batch_of a c)
    | Err (TxnError.Durability _) =>
       d' = d ∨ d' = DSI.save d (SI.clock (SI.sdb a) + 1) (DSI.batch_of a c)
    | _ => d' = d end → DSI.saves a c (Committed r) d d').
  { intros d' Hd'. unfold DSI.saves. rewrite bool_decide_false by by rewrite Hb.
    destruct r as [|[]]; done. }
  destruct r as [|[]]; [|by eexists _, _; split_and!; [done|done|apply Hsv]..|].
  - eexists _, _. split_and!; [done|exact Hsnoc|by apply Hsv].
  - destruct Hpost as [?|?]; eexists _, _; (split_and!; [done| |apply Hsv]); [done|by left|exact Hsnoc|by right].
Qed.

Lemma tx_commit_logs used logged h i live a c d tx i' r :
  Session.sim_db True h i (Timestamp.get (Transaction.read_timestamp tx) :: live) (SI.sdb a) →
  (SI.clock (SI.sdb a) + 3 < u64_modulus)%N →
  Inner.log_holds i logged → saved_as logged d → (SI.clock d ≤ SI.clock (SI.sdb a))%N →
  DSI.batch_of a c = Transaction.writes tx →
  small used (Transaction.writes tx) → (used ≤ MAX_OPS)%N →
  Transaction.commit i tx = Ret (i', r) → logs a c (Committed r) d i'.
Proof using Type.
  intros [[hz Hi] _ _ Hc _] Hroom Hl Hd Hle Hb Hsmall Hused E.
  pose proof (Db.quiet_watermark _ _ _ _ Hi) as Hn. rewrite <-Hc in Hn.
  destruct (decide (Transaction.writes tx = ∅)) as [He|Hne].
  - destruct (Transaction.commit_empty_inv _ _ _ _ _ _ Hi He) as (i1 & E1 & _ & _ & Hl1 & _).
    rewrite E in E1. injection E1 as <- ->. eapply logs_nothing; [done..|left; by rewrite Hb].
  - destruct (Transaction.commit_inv i live ∅ h hz tx Hi) as (i1 & r1 & E1 & _ & _ & _ & _ & Hpost);
      [lia|done|]. rewrite E in E1. injection E1 as <- ->.
    eapply logs_commit; [done..|lia|done|done|done|apply Hpost|done].
Qed.

(** Beginning, reading and dropping leave the log alone. *)
Lemma begin_reader_log (i i' : Inner.t MemoryStore.t W) x :
  Snapshot.new i = Ret (i', x) → Inner.log i' = Inner.log i.
Proof using Type.
  unfold Snapshot.new, ActiveReader.new, Inner.begin_reader.
  by intros ([? ?] & ([? ?] & ([? ?] & _ & [= <- <-])%bind_Ret & [= <- <-])%bind_Ret
    & [= <- <-])%bind_Ret.
Qed.

Lemma read_log (i i' : Inner.t MemoryStore.t W) key ts r :
  Inner.store_get i key ts = Ret (i', r) → Inner.log i' = Inner.log i.
Proof using Type. unfold Inner.store_get. by intros ([? ?] & _ & [= <- <-])%bind_Ret. Qed.

Lemma end_reader_log (i i' : Inner.t MemoryStore.t W) ts :
  Inner.end_reader i ts = Ret i' → Inner.log i' = Inner.log i.
Proof using Type. apply Recovery.set_oracle_log. Qed.

Lemma new_writes (i i' : Inner.t MemoryStore.t W) serializable tx :
  Transaction.new i serializable = Ret (i', tx) → Transaction.writes tx = ∅.
Proof using Type.
  unfold Transaction.new. by intros ([? ?] & _ & [= _ <-])%bind_Ret.
Qed.

Lemma get_writes (i i' : Inner.t MemoryStore.t W) tx tx' key r :
  Transaction.get i tx key = Ret (i', tx', r) → Transaction.writes tx' = Transaction.writes tx.
Proof using Type.
  unfold Transaction.get. destruct (_ !! key); [by intros [= _ <- _]|].
  intros ([? [v|e]] & _ & [= _ <- _])%bind_Ret; done.
Qed.

(** *** One call *)

Section one_call.
Context (fuel : nat) (used : N) (logged h : History) (s : Session.t MemoryStore.t W).
Context (a : SI.state) (d : SI.db) (n : N).
Context (Hopen : open_as logged used s a d) (Hs : Session.sim True h s a).
Context (Hroom : Session.room s a (n + 1)) (Hsv : saved_as logged d) (Hused : (used < MAX_OPS)%N).

(** What a call does besides what the session's simulation says. *)
Record effect (c : call) (s' : Session.t MemoryStore.t W) (ans : answer) : Prop := {
  ef_logs : logs a c ans d (Session.inner s');
  ef_size : (N.of_nat (size (Session.handles s')) ≤ used + 1)%N;
  ef_small m tx : Session.handles s' !! m = Some (Session.HTxn tx) →
    small (used + 1) (Transaction.writes tx);
}.

Definition one (c : call) : Prop :=
  ∀ s' ans, Session.exec (S fuel) s c = Ret (Some (s', ans)) → effect c s' ans.

Lemma one_small m tx :
  Session.handles s !! m = Some (Session.HTxn tx) → small (used + 1) (Transaction.writes tx).
Proof. intros Hm. eapply small_mono; [by eapply op_small|lia]. Qed.

Lemma one_nothing c (i : Inner.t MemoryStore.t W) ans :
  Inner.log i = Inner.log (Session.inner s) →
  DSI.batch_of a c = ∅ ∨ (∀ r, ans ≠ Committed r) → logs a c ans d i.
Proof. intros El Hn. eapply logs_nothing; [by eapply op_log|done..]. Qed.

(** The handles stay, or some are closed. *)
Lemma one_fewer c s' ans :
  Session.handles s' ⊆ Session.handles s → logs a c ans d (Session.inner s') → effect c s' ans.
Proof.
  intros Hsub Hlogs. pose proof (op_size _ _ _ _ _ Hopen). split; [done| |].
  - apply map_subseteq_size in Hsub. lia.
  - intros m tx Hm. eapply one_small, lookup_weaken; [exact Hm|done].
Qed.

(** One handle is replaced or added. *)
Lemma one_set c m x i nx ans :
  (∀ tx, x = Session.HTxn tx → small (used + 1) (Transaction.writes tx)) →
  logs a c ans d i → effect c (Session.mk i (<[m := x]> (Session.handles s)) nx) ans.
Proof.
  intros Hx Hlogs. pose proof (op_size _ _ _ _ _ Hopen). split; cbn; [done| |].
  - rewrite map_size_insert. destruct (_ !! m); unfold id; lia.
  - intros m' tx [[<- E']|[_ Hm]]%lookup_insert_Some; [auto|by eapply one_small].
Qed.

Lemma one_begin serializable : one (Begin serializable).
Proof.
  intros s' ans E. cbn in E. apply bind_Ret in E as ([i tx] & El & [= <- <-]).
  assert (Transaction.new (Session.inner s) serializable = Ret (i, tx)) as En
    by by destruct serializable.
  apply one_set.
  - intros tx' [= <-]. rewrite (new_writes _ _ _ _ En). apply small_empty.
  - apply one_nothing; [by eapply Recovery.begin_log|by left].
Qed.

Lemma one_snapshot : one TakeSnapshot.
Proof.
  intros s' ans E. cbn in E. apply bind_Ret in E as ([i x] & El & [= <- <-]).
  apply one_set; [done|]. apply one_nothing; [by eapply begin_reader_log|by left].
Qed.

Lemma one_get m key : one (Get m key).
Proof.
  intros s' ans E. cbn in E. destruct (Session.handles s !! m) as [[tx|x]|] eqn:Hm.
  - apply bind_Ret in E as ([[i tx'] r] & Eg & [= <- <-]). apply one_set.
    + intros ? [= <-]. rewrite (get_writes _ _ _ _ _ _ Eg). by eapply one_small.
    + apply one_nothing; [by eapply Recovery.get_log|by left].
  - apply bind_Ret in E as ([i r] & Eg%read_log & [= <- <-]).
    apply one_fewer; [done|]. apply one_nothing; [done|by left].
  - injection E as <- <-. apply one_fewer; [done|]. apply one_nothing; [done|by left].
Qed.

Lemma one_write c m key v :
  (c = Delete m key ∧ v = None ∨ ∃ value, c = Put m key value ∧ v = Some value) →
  Codec.write_fits (key, v) → one c.
Proof.
  intros Hc Hfit s' ans E.
  assert (DSI.batch_of a c = ∅) as Hb by (destruct Hc as [[-> _]|(value & -> & _)]; done).
  assert (match Session.handles s !! m with
    | Some (Session.HTxn tx) => Ret (Some (Session.updated s (Session.inner s) m
        (Session.HTxn (Transaction.set_write tx key v)) Done))
    | _ => Ret (Some (s, Unusable)) end = Ret (Some (s', ans))) as E'.
  { destruct Hc as [[-> ->]|(value & -> & ->)]; exact E. }
  destruct (Session.handles s !! m) as [[tx|x]|] eqn:Hm; injection E' as <- <-.
  - apply one_set; [|by apply one_nothing; [|left]].
    intros ? [= <-]. cbn. apply small_insert; [by eapply op_small|done].
  - apply one_fewer; [done|]. by apply one_nothing; [|left].
  - apply one_fewer; [done|]. by apply one_nothing; [|left].
Qed.

Lemma one_commit m : one (Commit m).
Proof.
  intros s' ans E. cbn in E. destruct (Session.handles s !! m) as [[tx|x]|] eqn:Hm.
  2,3: injection E as <- <-; apply one_fewer; [done|]; by apply one_nothing; [|right].
  apply bind_Ret in E as ([i r] & Ec & [= <- <-]).
  apply one_fewer; [apply delete_subseteq|]. cbn.
  pose proof (Session.sim_handles _ _ _ _ Hs m) as Hh. rewrite Hm in Hh.
  inversion Hh as [? y Hxy E1 E2|]; subst. destruct y as [y|]; [|done].
  eapply (tx_commit_logs used logged h (Session.inner s)); [|..|exact Ec].
  - destruct (Session.sim_sdb _ _ _ _ Hs) as [[hz Hi] ? ? ? ?]. split; try done. exists hz.
    eapply Inner.inv_live_perm; [|done]. by rewrite (Session.live_of_delete _ _ _ Hm).
  - destruct Hroom. lia.
  - by eapply op_log.
  - done.
  - by eapply op_ahead.
  - cbn. rewrite <-E2. by destruct Hxy as (_ & _ & -> & _).
  - by eapply op_small.
  - lia.
Qed.

Lemma one_drop m : one (Drop m).
Proof.
  intros s' ans E. cbn in E. destruct (Session.handles s !! m) as [[tx|x]|] eqn:Hm.
  - apply bind_Ret in E as (i & Ed%end_reader_log & [= <- <-]).
    apply one_fewer; [apply delete_subseteq|]. by apply one_nothing; [|left].
  - apply bind_Ret in E as (i & Ed%end_reader_log & [= <- <-]).
    apply one_fewer; [apply delete_subseteq|]. by apply one_nothing; [|left].
  - injection E as <- <-. apply one_fewer; [done|]. by apply one_nothing; [|left].
Qed.

Lemma one_get_now key : one (GetNow key).
Proof.
  intros s' ans E. cbn in E. apply bind_Ret in E as ([i r] & Eg & [= <- <-]).
  apply one_fewer; [done|]. cbn. apply one_nothing; [|by left].
  unfold Db.get, Db.snapshot in Eg.
  apply bind_Ret in Eg as ([i1 x] & E1%begin_reader_log & Eg).
  apply bind_Ret in Eg as ([i2 r'] & E2%read_log & Eg).
  apply bind_Ret in Eg as (i3 & E3%end_reader_log & [= <- <-]). by rewrite E3, E2, E1.
Qed.

(** The first attempt of a one-shot write decides. *)
Lemma one_write_now c key v :
  (c = DeleteNow key ∧ v = None ∨ ∃ value, c = PutNow key value ∧ v = Some value) →
  Codec.write_fits (key, v) → one c.
Proof.
  intros Hc Hfit s' ans E. pose proof (Session.sim_sdb _ _ _ _ Hs) as Hd.
  destruct Hroom as [Hroom1 Hroom2].
  assert (N.of_nat (length (Session.live_of (Session.handles s))) + 2 < u64_modulus)%N as Hlive
    by (rewrite Session.length_live_of; lia).
  assert (SI.clock (SI.sdb a) + 3 < u64_modulus)%N as Hclock by lia.
  destruct (Session.write_now_sim True h (Session.inner s) _ _ key v Hd Hlive Hclock)
    as (i1 & tx & i' & r & d' & h' & Eb & Ec & Hr & _).
  destruct (Session.begin_sim True h (Session.inner s) _ _ false Hd Hlive)
    as (i1' & tx' & Eb' & Hd1 & Hx). unfold Db.begin in Eb. rewrite Eb in Eb'.
  injection Eb' as <- <-.
  assert (Session.exec (S fuel) s c = Ret (Some (Session.kept s i' (Committed r)))) as Ex.
  { destruct Hc as [[-> ->]|(value & -> & ->)]; cbn; unfold Db.begin; rewrite Eb; run;
      unfold Transaction.put, Transaction.delete; rewrite Ec; run; destruct r; by rewrite ?Hr. }
  rewrite E in Ex. injection Ex as -> ->. apply one_fewer; [done|]. cbn.
  assert (Transaction.writes (Transaction.set_write tx key v) = {[key := v]}) as Hw.
  { cbn. by rewrite (new_writes _ _ _ _ Eb). }
  eapply (tx_commit_logs (used + 1) logged h i1 _ a c d (Transaction.set_write tx key v));
    [exact Hd1|done| |done| | | | |exact Ec].
  - eapply Inner.log_holds_log; [symmetry; by eapply Recovery.begin_log|by eapply op_log].
  - by eapply op_ahead.
  - rewrite Hw. by destruct Hc as [[-> ->]|(value & -> & ->)].
  - rewrite Hw. apply small_insert; [apply small_empty|done].
  - lia.
Qed.

Lemma one_any c : call_fits (Call c) → one c.
Proof.
  intros Hfit. destruct c; eauto using one_begin, one_snapshot, one_get, one_commit, one_drop, one_get_now.
  - eapply one_write; eauto.
  - eapply one_write; eauto.
  - eapply one_write_now; eauto.
  - eapply one_write_now; eauto.
  - intros s' ans E. injection E as <- <-. apply one_fewer; [done|]. by apply one_nothing; [|left].
  - intros s' ans E. cbn in E. apply bind_Ret in E as ([i m] & Eg & [= <- <-]).
    apply one_fewer; [done|]. cbn. apply one_nothing; [|by left].
    unfold Db.collect_garbage, Inner.collect_garbage in Eg.
    by apply bind_Ret in Eg as ([? ?] & _ & [= <- <-]).
Qed.

(** One call of an open database is a step of the machine. *)
Lemma call_sim c :
  call_fits (Call c) →
  ∃ s' ans a' logged' d', Session.exec (S fuel) s c = Ret (Some (s', ans)) ∧
    SI.step False True a c ans a' ∧ DSI.saves a c ans d d' ∧
    saved_as logged' d' ∧ open_as logged' (used + 1) s' a' d' ∧ Session.room s' a' n.
Proof.
  intros Hfit.
  destruct (Session.exec_sim True (S fuel) h s a n Hs Hroom) with (c := c)
    as (s' & ans & a' & h' & E & Hstep & Hs' & Hroom'); [lia|].
  destruct (one_any c Hfit s' ans E) as [(logged' & d' & Hl & Hsv' & Hsaves) Hsize Hsmall].
  pose proof (machine_clock _ _ _ _ _ _ Hstep). pose proof (op_ahead _ _ _ _ _ Hopen) as [Hle ?].
  pose proof (saves_clock _ _ _ _ _ _ _ _ Hstep Hsaves Hle).
  exists s', ans, a', logged', d'. split_and!; try done. split; try done; [by eexists|lia].
Qed.

End one_call.

(** *** Any operation *)

Lemma open_room logged used s a d : open_as logged used s a d → (used ≤ MAX_OPS)%N → Session.room s a 1.
Proof using Type.
  intros [_ _ ? ? _] Hmax. unfold MAX_OPS in *. change (2 ^ 30)%N with 1073741824%N in *.
  unfold Session.room, u64_modulus. lia.
Qed.

(** The disk a node leaves behind holds what was saved. *)
Lemma disk_sim used x st :
  sim used x st →
  ∃ d logged, disk_of x = Some d ∧ CommitLog.disk_holds d logged ∧ saved_as logged (DSI.saved st).
Proof using Type.
  intros (logged & Hsv & _ & Hx). destruct x as [s|d], (DSI.up st) as [a|]; try done.
  - destruct (op_log _ _ _ _ _ Hx) as (l & Hl & Hh). cbn. rewrite Hl. cbn.
    eexists _, logged. split; [done|]. split; [by apply CommitLog.holds_disk|done].
  - by eexists d, logged.
Qed.

Lemma node_sim fuel used x st o :
  sim used x st → (used < MAX_OPS)%N → call_fits o →
  ∃ x' r st', exec (S fuel) x o = Ret (Some (x', r)) ∧ DSI.step st o r st' ∧ sim (used + 1) x' st'.
Proof using Type.
  intros Hsim Hused Hfit. destruct o as [c|]; cbn [exec].
  - destruct Hsim as (logged & Hsv & Hle & Hx). destruct x as [s|d], (DSI.up st) as [a|] eqn:Hup; try done.
    + destruct (op_sim _ _ _ _ _ Hx) as [h Hs].
      destruct (call_sim fuel used logged h s a (DSI.saved st) 0 Hx Hs) with (c := c)
        as (s' & ans & a' & logged' & d' & -> & Hstep & Hsaves & Hsv' & Hx' & _);
        [eapply open_room; [done|lia]|done..|]. run.
      eexists _, _, (DSI.mk (Some a') d'). split_and!; [done|by econstructor|].
      exists logged'. split_and!; [done| |done]. cbn. pose proof (op_ahead _ _ _ _ _ Hx'). lia.
    + eexists _, _, st. split_and!; [done|by constructor|]. exists logged.
      rewrite Hup. split_and!; [done|lia|done].
  - destruct (disk_sim used x st Hsim) as (d & logged & -> & Hd & Hsv).
    destruct Hsim as (_ & _ & Hle & _).
    destruct (open_sim (used + 1) logged d (DSI.saved st) Hd Hsv) as [[e ->]|(i & -> & Hi)]; [lia..| |];
      run.
    + eexists _, _, _. split_and!; [done|constructor|]. exists logged. cbn. split_and!; [done|lia|done].
    + eexists _, _, _. split_and!; [done|constructor|]. exists logged. cbn. split_and!; [done|lia|done].
Qed.

Lemma run_ops_sim fuel os : ∀ used x st,
  sim used x st → (used + N.of_nat (length os) ≤ MAX_OPS)%N → Forall call_fits os →
  ∃ x' replies st', run_ops (S fuel) x os = Ret (Some (x', replies)) ∧
    DSI.steps st (zip os replies) st' ∧ length replies = length os.
Proof using Type.
  induction os as [|o os IH]; intros used x st Hsim Hused Hfits.
  { eexists x, [], st. split_and!; [done|constructor|done]. }
  apply Forall_cons_1 in Hfits as [Hfit Hfits]. cbn [length] in Hused.
  destruct (node_sim fuel used x st o Hsim) as (x1 & r & st1 & E & Hstep & Hsim1); [lia|done|].
  destruct (IH (used + 1)%N x1 st1 Hsim1) as (x' & replies & st' & Er & Hsteps & Hlen); [lia|done|].
  exists x', (r :: replies), st'. cbn [run_ops]. rewrite E. run. rewrite Er. run.
  split_and!; [done|by econstructor|cbn; lia].
Qed.

Lemma fresh_sim d : fresh d → sim 0 (Down d) DSI.initial.
Proof using Type.
  intros Hd. exists []. cbn. split_and!; [apply saved_nothing|lia|]. split; [constructor|].
  intros w Hw. by rewrite (Hd w Hw).
Qed.

(** ** Lemmas: an abstract machine that was told of no failure *)

Definition acknowledged (r : reply) : Prop :=
  match r with Answered (Committed (Err (TxnError.Durability _))) => False | _ => True end.

(** The current map is the saved one. *)
Definition in_step (st : DSI.state) : Prop :=
  match DSI.up st with Some a => SI.now (SI.sdb a) = SI.now (DSI.saved st) | None => True end.

Lemma step_in_step st o r st' :
  in_step st → DSI.step st o r st' → acknowledged r → in_step st'.
Proof using Type.
  unfold in_step. intros Hin Hstep Hr. destruct Hstep as [a c ans a' d Hup Hstep Hsaves|c Hup| |e]; cbn in *.
  2: by rewrite Hup.
  2,3: done.
  rewrite Hup in Hin. unfold DSI.saves in Hsaves.
  assert (∀ tx r' db', SI.committed False True (SI.sdb a) tx r' db' →
    DSI.batch_of a c = SI.pending tx → ans = Committed r' → SI.now db' = SI.now d) as Hcom.
  { intros tx r' db' Hc Hb ->. rewrite Hb in Hsaves.
    destruct Hc; case_bool_decide; cbn in *; try done; rewrite Hsaves; cbn; by rewrite ?Hin. }
  inversion Hstep; subst; cbn in *; try (by rewrite Hin; case_bool_decide; subst).
  - eapply Hcom; [done|by simplify_map_eq|done].
  - eapply Hcom; [done|done|done].
  - eapply Hcom; [done|done|done].
Qed.

Lemma steps_in_step l st st' :
  DSI.steps st l st' → in_step st → Forall acknowledged l.*2 → in_step st'.
Proof using Type.
  induction 1 as [|st o r st1 l st' Hstep _ IH]; [done|]. rewrite fmap_cons.
  intros Hin [Hr Hl]%Forall_cons_1. apply IH; [by eapply step_in_step|done].
Qed.

(** ** Properties *)

(** C10: A durable database across restarts implements the abstract machine. Run any
    sequence of calls and restarts over a new directory, the process dying between
    any two of them, with any number of transactions and snapshots open: nothing
    panics or retries without end, and the answers are ones the machine gives. So
    after a restart the contents are the batches of the acknowledged commits (and
    perhaps of some that were told they could not be logged), each whole, in
    commit order, timestamps go on from the highest of them, and everything else
    is as in a database that never stopped. *)
Theorem durable_session_refines d fuel os :
  fresh d → 1 ≤ fuel → (N.of_nat (length os) ≤ MAX_OPS)%N → Forall call_fits os →
  ∃ x replies st, run_ops fuel (Down d) os = Ret (Some (x, replies)) ∧
    DSI.steps DSI.initial (zip os replies) st ∧ length replies = length os.
Proof using Type.
  intros Hd Hfuel Hlen Hfits. destruct fuel as [|fuel]; [lia|].
  by eapply run_ops_sim; [apply fresh_sim|..].
Qed.

(** C11: A restart loses nothing that was acknowledged. In any run over a new
    directory in which no commit failed to reach the log, a key reads the same
    just before the process dies and just after the directory is opened again. *)
Theorem restart_loses_nothing d fuel os key x replies v r :
  fresh d → 1 ≤ fuel → (N.of_nat (length os) + 3 ≤ MAX_OPS)%N → Forall call_fits os →
  run_ops fuel (Down d) (os ++ [Call (GetNow key); Restart; Call (GetNow key)]) =
    Ret (Some (x, replies ++ [Answered (Value (Ok v)); Reopened; Answered (Value r)])) →
  Forall acknowledged replies → r = Ok v.
Proof using Type.
  intros Hd Hfuel Hlen Hfits E Hack. destruct fuel as [|fuel]; [lia|].
  destruct (run_ops_sim fuel (os ++ [Call (GetNow key); Restart; Call (GetNow key)]) 0 (Down d)
    DSI.initial) as (x' & replies' & st & E' & Hsteps & Hl); [by apply fresh_sim| | |].
  { rewrite length_app. cbn. lia. }
  { apply Forall_app. split; [done|]. by repeat constructor. }
  rewrite E in E'. injection E' as <- <-. rewrite !length_app in Hl. cbn in Hl.
  rewrite zip_with_app in Hsteps by lia.
  apply DSI.steps_app in Hsteps as (st1 & Hsteps & Hlast).
  apply steps_in_step in Hsteps; [|done|by rewrite snd_zip by lia].
  revert Hlast. cbn. generalize st1 Hsteps. clear. intros st1 Hin Hlast.
  inversion Hlast as [|? ? ? st2 ? ? H1 Hlast2]; subst.
  inversion Hlast2 as [|? ? ? st3 ? ? H2 Hlast3]; subst.
  inversion Hlast3 as [|? ? ? st4 ? ? H3 _]; subst.
  assert (in_step st2) as Hin2 by (by eapply step_in_step).
  inversion H1 as [a c ans a' d' Hup Hget Hsaves| | |]; subst.
  inversion H2; subst. inversion H3 as [a3 c ans a3' d'' Hup3 Hget3 _| | |]; subst.
  injection Hup3 as <-. inversion Hget as [| | | | | | | |? ? ? Hr| | | | |]; subst.
  inversion Hget3 as [| | | | | | | |? ? ? Hr3| | | | |]; subst.
  unfold in_step in Hin2. cbn in *. rewrite <-Hin2 in Hr3. by inversion Hr; inversion Hr3; subst.
Qed.

End durable.
End Durable.
