(* ===== verification/Conflicts.v ===== *)
(** * Conflicts and progress

    How one action changes the client that takes it (module [Evolution]), and what
    follows for clients whose commits are refused: every refusal is owed to a
    commit above the client's snapshot that wrote what the client validated; and
    while a timestamp is in flight, every commit that validates a key written
    above it is refused, however often the client retries. *)

From S2P Require Import Prelude RustStd Types StoreTrait CommitLog OracleState History.
From S2P Require Import Coordinator Handles Database System.

Module Evolution.
Import System.

(** ** Definitions *)

Section evolution.
Context `{Profile} {S : Type} `{VersionStore S} `{!StoreLaws S} {Disk W : Type} `{Wal Disk W}.
Context `{HashIter}.

(** The client has returned. *)
Definition ended (p : phase) : bool :=
  match p with Finished _ | RolledBack => true | _ => false end.

(** The key length of the conflict a commit was refused with. *)
Definition refused (c : client) : option N :=
  match c_phase c with
  | Applied (Err (TxnError.Conflict len))
  | Logged (Err (TxnError.Conflict len))
  | Published (Err (TxnError.Conflict len))
  | Finished (Err (TxnError.Conflict len)) => Some len
  | _ => None
  end.

(** A failure of the store or of the log. *)
Definition failure (e : TxnError.t) : bool := negb (TxnError.is_retryable e).

Definition failed (c : client) : bool :=
  match c_phase c with
  | Applied (Err e) => failure e
  | Logged (Err e) | Published (Err e) | Finished (Err e) => failure e
  | _ => false
  end.

(** A commit in [h] above the transaction's snapshot wrote a key it validates. *)
Definition blamed (h : History) (tx : Transaction.t) (len : N) : Prop :=
  ∃ e k, e ∈ h ∧ touches k e ∧ Transaction.validated tx k ∧ len = N.of_nat (length k) ∧
    (Timestamp.get (Transaction.read_timestamp tx) < ts_of e)%N.

(** A commit timestamp is in flight: taken, and not yet published. *)
Definition in_flight (s : t S W) (p : N) : Prop :=
  ∃ a c, clients s !! a = Some c ∧ pending c = Some p.

(** The client that takes an action; collections have none. *)
Definition actor (a : action) : option nat :=
  match a with
  | ABegin n _ | AGet n _ | AWrite n _ _ | ARollback n | ACommitEmpty n | AAlloc n
  | AApply n | AAppend n | APublish n | ADrop n => Some n
  | AGcStart _ | AGcEnd _ => None
  end.

(** The client's commit becomes the newest one, and nothing it validated has changed
    since its snapshot. *)
Definition joins_history (s s' : t S W) (c' : client) : Prop :=
  (∃ ts, c_ts c' = Some ts ∧ hist s' = hist s ++ [Inner.commit_of ts (Transaction.batch (c_tx c'))]) ∧
  ∀ k, Transaction.validated (c_tx c') k →
    hist_changed (hist s) k (Transaction.read_timestamp (c_tx c')) = false.

(** The client's commit was applied, and appending it to the log failed. *)
Definition append_failed (s : t S W) (c : client) : Prop :=
  c_phase c = Applied (Ok tt) ∧ ∃ l record l' e,
    Inner.log (inner s) = Some l ∧ CommitLog.append_committed l record = (l', Err e).

(** What one action may make of its client. *)
Record evolves (s s' : t S W) (c c' : client) : Prop := {
  ev_running : ended (c_phase c) = false;
  ev_read : Transaction.read_timestamp (c_tx c') = Transaction.read_timestamp (c_tx c);
  ev_pending ts : pending c' = Some ts →
    pending c = Some ts ∨ ts = Oracle.next_ts (Inner.oracle (inner s));
  ev_applied : hist s' = hist s ∧ c_applied c' = c_applied c ∨
    c_applied c = false ∧ c_applied c' = true ∧ joins_history s s' c';
  ev_refused len : refused c' = Some len →
    refused c = Some len ∧ c_tx c' = c_tx c ∨ blamed (hist s) (c_tx c') len;
  ev_failed : failed c' = true →
    failed c = true ∨ vs_may_fail (S := S) ∨ append_failed s c;
}.

Definition client_evolves (s s' : t S W) (n : nat) : Prop :=
  ∃ c c', clients s !! n = Some c ∧ clients s' = <[n := c']> (clients s) ∧
    collectors s' = collectors s ∧ evolves s s' c c'.

(** ** Lemmas *)

Implicit Types s : t S W.

(** A client that begins. *)
Lemma act_begin h0 s n serializable s' :
  inv h0 s → room s 1 → act s (ABegin n serializable) = Ret (Some s') →
  clients s !! n = None ∧ hist s' = hist s ∧ collectors s' = collectors s ∧
  ∃ tx, clients s' = <[n := mkClient tx Active [] None false]> (clients s) ∧
    Transaction.read_timestamp tx = Inner.read_ts (inner s) ∧ Transaction.writes tx = ∅.
Proof.
  intros Hs [_ Hr] E. cbn in E. destruct (clients s !! n) as [c|] eqn:Hn; [done|].
  destruct (i_inner _ _ Hs) as (fl & hz & Hinv & _).
  destruct (Transaction.new_tx_inv _ _ _ _ _ serializable Hinv)
    as (i' & tx & E' & _ & Hts & Hw & _).
  { pose proof (collect_length registered (clients s)). lia. }
  rewrite E' in E. run. injection E as <-. split_and!; [done..|]. by exists tx.
Qed.

(** Cases on an action of an active client. *)
Lemma in_active s n o :
  in_phase s n is_active = o →
  match o with Some c => clients s !! n = Some c ∧ c_phase c = Active | None => True end.
Proof. intros <-. destruct (in_phase s n is_active) eqn:E; [by apply in_phase_active|done]. Qed.

(** The end of a conflict check. *)
Lemma apply_blamed h0 s n tx obs ts app i r :
  inv h0 s → clients s !! n = Some (mkClient tx Allocated obs (Some ts) app) →
  Inner.apply (inner s) (Transaction.read_timestamp tx) ts (Transaction.batch tx)
    (Transaction.commit_reads tx) = Ret (i, r) →
  match r with
  | Ok _ => ∀ k, Transaction.validated tx k →
     hist_changed (hist s) k (Transaction.read_timestamp tx) = false
  | Err (TxnError.Conflict len) => blamed (hist s) tx len
  | Err _ => vs_may_fail (S := S)
  end.
Proof.
  intros Hs Hn E. destruct (i_inner _ _ Hs) as (fl & hz & Hinv & Hspec).
  pose proof (i_clients _ _ Hs n _ Hn) as Hok. destruct (co_phase _ _ _ _ Hok) as [_ Happ].
  cbn in Happ. subst app.
  destruct (Inner.apply_inv (inner s) _ _ _ _ (Transaction.read_timestamp tx) ts
    (Transaction.batch tx) (Transaction.commit_reads tx) Hinv) as (i' & r' & E' & _ & _ & Hr).
  { apply elem_collect. by eexists _, _. }
  { apply Hspec. by eexists _, _. }
  { by apply (co_absent _ _ _ _ Hok). }
  { apply Transaction.batch_NoDup. }
  rewrite E' in E. injection E as <- <-. destruct r' as [[]|[len| |]]; try done.
  - intros k Hk%Transaction.validated_elem. by apply Hr.
  - destruct Hr as (_ & k & Hk%Transaction.validated_elem & (e & He & Ht & Hlt)%hist_changed_true & ->).
    by exists e, k.
  - by destruct Hr.
Qed.

(** The conflict check makes its client evolve. *)
Lemma apply_evolves h0 s s' n c :
  inv h0 s → clients s !! n = Some c → act s (AApply n) = Ret (Some s') → client_evolves s s' n.
Proof.
  intros Hs Hn E. cbn in E. rewrite Hn in E. destruct c as [tx ph obs [ts|] app]; [destruct ph|destruct ph]; try done.
  apply bind_Ret in E as ([i r] & Happ & [= <-]). eexists _, _. split_and!; [done|done|done|].
  pose proof (apply_blamed h0 s n _ _ _ _ _ _ Hs Hn Happ) as Hb.
  destruct (co_phase _ _ _ _ (i_clients _ _ Hs n _ Hn)) as [_ Happd]. cbn in Happd. subst app.
  split; cbn; try done; [by left|destruct r as [[]|]; [right|by left]|..].
  - split_and!; [done|done|split; [by exists ts|exact Hb]].
  - intros len Hlen. right. destruct r as [|[]]; try done. by injection Hlen as <-.
  - intros Hf. right. left. by destruct r as [|[]].
Qed.

(** So does the log append. *)
Lemma append_evolves h0 s s' n c :
  inv h0 s → clients s !! n = Some c → act s (AAppend n) = Ret (Some s') → client_evolves s s' n.
Proof.
  intros Hs Hn E. cbn in E. rewrite Hn in E. destruct c as [tx ph obs [ts|] app]; [destruct ph as [| |r| | | |]|destruct ph]; try done.
  destruct (if is_ok r then _ else _) as [i d] eqn:Hd. injection E as <-.
  eexists _, _. split_and!; [done|done|done|]. split; cbn; try done; [by left|by left|..].
  - intros len Hlen. left. split; [|done]. unfold refused in *. cbn in *.
    destruct r as [|e]; cbn in *; [|by injection Hd as <- <-].
    pose proof (Inner.append_result (inner s) (Inner.encode_record (inner s) ts (Transaction.batch tx))) as Hres.
    rewrite Hd in Hres. cbn in Hres. destruct Hres as [->|[[? ->] _]]; done.
  - intros Hf. unfold failed in *. cbn in *.
    destruct r as [u|e]; cbn in *; [|injection Hd as <- <-; by left].
    pose proof (Inner.append_result (inner s) (Inner.encode_record (inner s) ts (Transaction.batch tx))) as Hres.
    rewrite Hd in Hres. cbn in Hres. destruct Hres as [->|[_ (l & record' & l' & e & Hl & Ha)]]; [done|].
    right. right. destruct u. split; [done|]. by exists l, record', l', e.
Qed.

(** Every action of a client that has begun makes it evolve. *)
Lemma act_evolves h0 s a s' n :
  inv h0 s → act s a = Ret (Some s') → actor a = Some n → is_Some (clients s !! n) →
  client_evolves s s' n.
Proof.
  intros Hs E Ha [c Hn]. destruct a as [m ser|m key|m key v|m|m|m|m|m|m|m|m|m]; cbn in Ha; try done;
    injection Ha as ->; cbn in E.
  1: by rewrite Hn in E.
  1-5: destruct (in_phase s n is_active) as [c0|] eqn:Hc; [|done]; apply in_active in Hc as [Hn0 Hph];
    rewrite Hn in Hn0; injection Hn0 as <-.
  - apply bind_Ret in E as ([[i tx] r] & Hget & E). injection E as <-.
    eexists c, _. split_and!; [done|done|done|]. split; cbn; rewrite ?Hph; try done.
    + unfold Transaction.get in Hget. destruct (_ !! key); [by injection Hget as _ <- _|].
      apply bind_Ret in Hget as ([? [|]] & _ & Hget); by injection Hget as _ <- _.
    + by left.
  - injection E as <-. eexists c, _. split_and!; [done|done|done|]. split; cbn; rewrite ?Hph; try done. by left.
  - apply bind_Ret in E as (i & _ & [= <-]). eexists c, _. split_and!; [done|done|done|].
    split; cbn; rewrite ?Hph; try done. by left.
  - case_bool_decide; [|done]. injection E as <-. eexists c, _. split_and!; [done|done|done|].
    split; cbn; rewrite ?Hph; try done. by left.
  - case_bool_decide; [done|]. destruct (Inner.alloc (inner s)) as [i ts] eqn:Halloc. injection E as <-.
    eexists c, _. split_and!; [done|done|done|].
    pose proof (co_phase _ _ _ _ (i_clients _ _ Hs n c Hn)) as Hp. unfold phase_ok in Hp.
    rewrite Hph in Hp. destruct Hp as [_ Happ].
    split; cbn; rewrite ?Hph; try done; [|by left]. intros t [= <-]. right. by injection Halloc as _ <-.
  - by eapply apply_evolves.
  - by eapply append_evolves.
  - rewrite Hn in E. destruct c as [tx ph obs [ts|] app]; [destruct ph|destruct ph]; try done.
    apply bind_Ret in E as (i & _ & [= <-]). eexists _, _. split_and!; [done|done|done|].
    split; cbn; try done; [by left|intros len Hlen; by left|intros Hf; by left].
  - rewrite Hn in E. destruct c as [tx ph obs ts app]; destruct ph; try done.
    apply bind_Ret in E as (i & _ & [= <-]). eexists _, _. split_and!; [done|done|done|].
    split; cbn; try done; [by left|intros len Hlen; by left|intros Hf; by left].
Qed.

(** Only an allocation moves the clock. *)
Abbreviation clock i := (Oracle.next_ts (Inner.oracle i)).

Lemma oracle_clock (o o' : Oracle.t) :
  (∃ ts, Oracle.begin_reader o = Ret (o', ts)) ∨ (∃ ts, Oracle.end_reader o ts = Ret o') ∨
    (∃ ts, Oracle.commit_done o ts = Ret o') → Oracle.next_ts o' = Oracle.next_ts o.
Proof using Type.
  intros [[ts E]|[[ts E]|[ts E]]].
  - unfold Oracle.begin_reader in E. by apply bind_Ret in E as (? & _ & [= <- _]).
  - unfold Oracle.end_reader in E. destruct (_ !! _); [|by injection E as <-].
    apply bind_Ret in E as (? & _ & E). destruct (_ =? _)%N; by injection E as <-.
  - unfold Oracle.commit_done in E. apply bind_Ret in E as (? & _ & E).
    destruct (_ =? _)%N; [|by injection E as <-].
    apply bind_Ret in E as (? & _ & E). by apply bind_Ret in E as (? & _ & [= <-]).
Qed.

Lemma end_reader_clock (i i' : Inner.t S W) ts : Inner.end_reader i ts = Ret i' → clock i' = clock i.
Proof using Type.
  unfold Inner.end_reader. intros (o & E & [= <-])%bind_Ret. apply oracle_clock. eauto.
Qed.

Lemma act_clock s a s' :
  room s 1 → act s a = Ret (Some s') → (clock (inner s) ≤ clock (inner s'))%N.
Proof using Type.
  intros [Hr _] E. destruct a as [n ser|n key|n key v|n|n|n|n|n|n|n|m|m]; cbn in E.
  1: { destruct (clients s !! n); [done|]. apply bind_Ret in E as ([i tx] & E & [= <-]). cbn.
       unfold Transaction.new, ActiveReader.new, Inner.begin_reader in E.
       apply bind_Ret in E as ([i1 a] & E1 & [= <- _]).
       apply bind_Ret in E1 as ([i2 ts] & E2 & [= <- _]).
       apply bind_Ret in E2 as ([o ts'] & E3 & [= <- _]).
       change (clock (Inner.set_oracle (inner s) o)) with (Oracle.next_ts o).
       rewrite (oracle_clock (Inner.oracle (inner s)) o); eauto. }
  1-5: destruct (in_phase s n is_active) as [c|]; [|done].
  - apply bind_Ret in E as ([[i tx] r] & E & [= <-]). unfold Transaction.get in E. cbn.
    destruct (_ !! key); [by injection E as <- _ _|].
    apply bind_Ret in E as ([i1 r'] & E1 & E). unfold Inner.store_get in E1.
    apply bind_Ret in E1 as ([st r1] & _ & [= <- <-]). by destruct r1; injection E as <- _ _.
  - by injection E as <-.
  - apply bind_Ret in E as (i & E%end_reader_clock & [= <-]). cbn. by rewrite E.
  - case_bool_decide; [|done]. by injection E as <-.
  - case_bool_decide; [done|]. injection E as <-. cbn. unfold fetch_add_u64, wrap_u64.
    rewrite N.mod_small; lia.
  - destruct (clients s !! n) as [[tx ph obs [ts|] app]|]; [destruct ph|destruct ph|]; try done.
    apply bind_Ret in E as ([i r] & E & [= <-]). unfold Inner.apply in E.
    by apply bind_Ret in E as ([st r'] & _ & [= <- _]).
  - destruct (clients s !! n) as [[tx ph obs [ts|] app]|]; [destruct ph as [| |r| | | |]|destruct ph|]; try done.
    destruct (if is_ok r then _ else _) as [i d] eqn:Hd. injection E as <-. cbn.
    destruct (is_ok r); [|by injection Hd as <- _].
    pose proof (Inner.append_same (inner s) (Inner.encode_record (inner s) ts (Transaction.batch tx)))
      as (_ & Ho & _). rewrite Hd in Ho. cbn in Ho. by rewrite Ho.
  - destruct (clients s !! n) as [[tx ph obs [ts|] app]|]; [destruct ph|destruct ph|]; try done.
    apply bind_Ret in E as (i & E & [= <-]). unfold Inner.commit_done in E.
    apply bind_Ret in E as (o & E & [= <-]). cbn.
    change (clock (Inner.set_oracle (inner s) o)) with (Oracle.next_ts o).
    rewrite (oracle_clock (Inner.oracle (inner s)) o); eauto.
  - destruct (clients s !! n) as [[tx ph obs ts app]|]; [destruct ph|]; try done.
    apply bind_Ret in E as (i & E%end_reader_clock & [= <-]). cbn. by rewrite E.
  - by injection E as <-.
  - by injection E as <-.
Qed.

(** Only [begin] makes a client. *)
Lemma fresh_actor s a s' n :
  act s a = Ret (Some s') → actor a = Some n → clients s !! n = None → ∃ ser, a = ABegin n ser.
Proof using Type.
  intros E Ha Hn. destruct a; try done; injection Ha as ->; [by eexists|..]; cbn in E;
    unfold in_phase in E; by rewrite Hn in E.
Qed.

(** ** Refusals *)

Definition all_blamed s : Prop :=
  ∀ n c len, clients s !! n = Some c → refused c = Some len → blamed (hist s) (c_tx c) len.

Lemma blamed_mono h h' tx len :
  (∀ e, e ∈ h → e ∈ h') → blamed h tx len → blamed h' tx len.
Proof using Type. intros Hin (e & k & He & ?). exists e, k. auto. Qed.

Lemma step_blamed h0 s s' :
  inv h0 s → room s 1 → step s s' → all_blamed s → all_blamed s'.
Proof using Type.
  intros Hs Hr Hstep Hall.
  assert (∀ e, e ∈ hist s → e ∈ hist s') as Hmono.
  { intros e He. destruct (step_history s s' Hstep) as [->|[? ->]]; set_solver. }
  destruct Hstep as [a s' E|m wm st Hm Hgc].
  2:{ intros n c len Hn Hlen. by eapply Hall. }
  destruct (actor a) as [n|] eqn:Ha.
  2:{ destruct a; try done; injection E as <-; intros n c len Hn Hlen; by eapply Hall. }
  intros n' c' len Hn' Hlen. destruct (clients s !! n) as [c|] eqn:Hn.
  - destruct (act_evolves h0 s a s' n Hs E Ha) as (c0 & c1 & Hn0 & Hcs & _ & Hev); [by eexists|].
    rewrite Hcs in Hn'. apply lookup_insert_Some in Hn' as [[<- ->]|[_ Hn']].
    + destruct (ev_refused _ _ _ _ Hev len Hlen) as [[Hold ->]|Hnew]; [|by eapply blamed_mono].
      eapply blamed_mono; [done|]. by eapply Hall.
    + eapply blamed_mono; [done|]. by eapply Hall.
  - destruct (fresh_actor s a s' n E Ha Hn) as [ser ->].
    destruct (act_begin h0 s n ser s' Hs Hr E) as (_ & _ & _ & tx & Hcs & _).
    rewrite Hcs in Hn'. apply lookup_insert_Some in Hn' as [[<- <-]|[_ Hn']]; [done|].
    eapply blamed_mono; [done|]. by eapply Hall.
Qed.

Lemma reachable_blamed h0 s : reachable h0 s → all_blamed s.
Proof using Type.
  intros Hs. apply (reachable_rule h0 all_blamed) in Hs as [_ ?]; [done|..].
  - intros i hz _ m c len Hm. cbn in Hm. by rewrite lookup_empty in Hm.
  - intros s1 s2. apply step_blamed.
Qed.

(** ** The initial history *)

(** What the database held at the start is below every clock, pending timestamp and
    snapshot. *)
Definition covers (h0 : History) (s : t S W) : Prop :=
  ∀ e, e ∈ h0 → (ts_of e < clock (inner s))%N ∧
    ∀ n c, clients s !! n = Some c →
      (∀ p, pending c = Some p → (ts_of e < p)%N) ∧
      (ts_of e ≤ Timestamp.get (Transaction.read_timestamp (c_tx c)))%N.

Lemma covers_watermark h0 s e :
  inv h0 s → covers h0 s → e ∈ h0 → (ts_of e ≤ Inner.watermark (inner s))%N.
Proof using Type.
  intros Hs Hcov He. destruct (Hcov e He) as [Hlt Hcl].
  apply (watermark_spec h0 s (ts_of e) Hs). split; [done|].
  intros n c p Hn Hp. by apply (Hcl n c Hn).
Qed.

Lemma step_covers h0 s s' :
  inv h0 s → room s 1 → step s s' → covers h0 s → covers h0 s'.
Proof using Type.
  intros Hs Hr Hstep Hcov e He. destruct (Hcov e He) as [Hlt Hcl].
  pose proof (covers_watermark h0 s e Hs Hcov He) as Hwm.
  destruct Hstep as [a s' E|m wm st Hm Hgc]; [|done].
  pose proof (act_clock s a s' Hr E) as Hclock. split; [lia|]. intros n' c' Hn'.
  destruct (actor a) as [n|] eqn:Ha.
  2:{ destruct a; try done; injection E as <-; by eapply Hcl. }
  destruct (clients s !! n) as [c|] eqn:Hn.
  - destruct (act_evolves h0 s a s' n Hs E Ha) as (c0 & c1 & Hn0 & Hcs & _ & Hev); [by eexists|].
    rewrite Hcs in Hn'. apply lookup_insert_Some in Hn' as [[<- <-]|[_ Hn']]; [|by eapply Hcl].
    destruct (Hcl n c0 Hn0) as [Hp Hread]. rewrite (ev_read _ _ _ _ Hev). split; [|done].
    intros p [Hp0| ->]%(ev_pending _ _ _ _ Hev); [by apply Hp|done].
  - destruct (fresh_actor s a s' n E Ha Hn) as [ser ->].
    destruct (act_begin h0 s n ser s' Hs Hr E) as (_ & _ & _ & tx & Hcs & Hts & _).
    rewrite Hcs in Hn'. apply lookup_insert_Some in Hn' as [[<- <-]|[_ Hn']]; [|by eapply Hcl].
    split; [done|]. cbn. by rewrite Hts.
Qed.

Lemma reachable_covers h0 s : reachable h0 s → covers h0 s.
Proof using Type.
  intros Hs. apply (reachable_rule h0 (covers h0)) in Hs as [_ ?]; [done|..].
  - intros i hz Hi e He. split; [by apply (Inner.inv_issued _ _ _ _ _ Hi)|].
    intros n c Hn. cbn in Hn. by rewrite lookup_empty in Hn.
  - intros s1 s2. apply step_covers.
Qed.

(** ** Properties *)

(** C23: No conflict is spurious. In any interleaving, a client whose commit was
    refused with a conflict has a commit of another transaction to blame: one in
    the history, above the snapshot the client read, that wrote a key the client
    wrote or (serializable) read; and the length in the error is that key's. *)
Theorem conflict_not_spurious h0 s n c len :
  reachable h0 s → clients s !! n = Some c → refused c = Some len →
  ∃ e k, e ∈ hist s ∧ touches k e ∧ Transaction.validated (c_tx c) k ∧
    len = N.of_nat (length k) ∧
    (Timestamp.get (Transaction.read_timestamp (c_tx c)) < ts_of e)%N ∧
    ∀ ts, c_ts c = Some ts → ts_of e ≠ Timestamp.get ts.
Proof using Type.
  intros Hreach Hn Hlen. pose proof (reachable_blamed h0 s Hreach) as Hall.
  destruct (Hall n c len Hn Hlen) as (e & k & He & Ht & Hv & -> & Hlt).
  exists e, k. split_and!; try done. intros ts Hts Heq.
  pose proof (reachable_inv h0 s Hreach) as Hs. pose proof (i_clients _ _ Hs n c Hn) as Hok.
  apply (co_absent _ _ _ _ Hok ts Hts).
  - pose proof (co_phase _ _ _ _ Hok) as Hph. unfold phase_ok, result_ok, refused in *.
    destruct (c_phase c) as [| |[|[]]|[|[]]|[|[]]|[|[]]|]; try done; naive_solver.
  - rewrite <-Heq. by apply list_elem_of_fmap_2.
Qed.

(** C24: A stalled commit blocks its successors. While a timestamp [p] is in flight
    (between the moment a client takes it and the moment it is published, for
    instance while that client waits for the disk), no commit that validates a key written above [p] is accepted: it is
    refused by the store and nothing is applied, no matter when the client began,
    so also on every retry. *)
Theorem stalled_commit_refuses h0 s p e k n s' c :
  reachable h0 s → in_flight s p →
  e ∈ hist s → touches k e → (p < ts_of e)%N →
  act s (AApply n) = Ret (Some s') → clients s' !! n = Some c → Transaction.validated (c_tx c) k →
  hist s' = hist s ∧ ∃ err, c_phase c = Applied (Err err).
Proof using Type.
  intros Hreach (a & ca & Ha & Hp) He Ht Hlt E Hn Hv. pose proof (reachable_inv h0 s Hreach) as Hs.
  cbn in E. destruct (clients s !! n) as [[tx ph obs [ts|] app]|] eqn:Hn0; [destruct ph|destruct ph|]; try done.
  apply bind_Ret in E as ([i r] & Happ & [= <-]).
  cbn in Hn. rewrite lookup_insert_eq in Hn. injection Hn as <-. cbn in *.
  destruct r as [[]|err]; [|by eauto]. exfalso.
  pose proof (apply_blamed h0 s n tx obs ts app i (Ok tt) Hs Hn0 Happ k Hv) as Hun.
  assert (hist_changed (hist s) k (Transaction.read_timestamp tx) = true); [|congruence].
  apply hist_changed_true. exists e. split_and!; [done..|].
  pose proof (co_read _ _ _ _ (i_clients _ _ Hs n _ Hn0)) as Hread. cbn in Hread.
  destruct (watermark_spec h0 s (Inner.watermark (inner s)) Hs) as [Hwm _].
  destruct Hwm as [_ Hwm]; [lia|]. specialize (Hwm a ca p Ha Hp). lia.
Qed.

(** Independent keys never conflict, as the documentation of [Db] says. In any
    interleaving, a client is not refused with a conflict if no other client whose
    commit was applied wrote a key that it wrote or (serializable) read; whatever the
    database held before does not matter. *)
Theorem independent_keys_never_conflict h0 s n c :
  reachable h0 s → clients s !! n = Some c →
  (∀ m c' k, m ≠ n → clients s !! m = Some c' → c_applied c' = true →
     is_Some (Transaction.writes (c_tx c') !! k) → ¬ Transaction.validated (c_tx c) k) →
  refused c = None.
Proof using Type.
  intros Hreach Hn Hdis. destruct (refused c) as [len|] eqn:Hlen; [exfalso|done].
  pose proof (reachable_inv h0 s Hreach) as Hs.
  destruct (reachable_blamed h0 s Hreach n c len Hn Hlen) as (e & k & He & Ht & Hv & _ & Hlt).
  destruct (i_hist _ _ Hs e He) as [H0'|(m & c' & ts & Hm & Hts & Happ & ->)].
  - destruct (reachable_covers h0 s Hreach e H0') as [_ Hcov]. destruct (Hcov n c Hn). lia.
  - unfold touches in Ht. rewrite Transaction.batch_map in Ht.
    destruct (decide (m = n)) as [->|Hne]; [|by eapply Hdis].
    rewrite Hn in Hm. injection Hm as <-.
    pose proof (co_phase _ _ _ _ (i_clients _ _ Hs n c Hn)) as Hph. unfold phase_ok, result_ok, refused in *.
    destruct (c_phase c) as [| |[|[]]|[|[]]|[|[]]|[|[]]|]; try done; naive_solver congruence.
Qed.

End evolution.
End Evolution.
