(* ===== verification/Calls.v ===== *)
(** * Calls of the API as runs of the concurrent system

    [System] interleaves the critical sections of the calls. Here the other calls of
    the handles are put together from them, as [System.commit_is_its_actions] does
    for [commit]: the life of a snapshot is that of a client that only reads, and a
    collection is a start, the sections of the store and an end. And a handle keeps
    what it began with, whatever runs beside it. *)

From S2P Require Import Prelude RustStd Types StoreTrait CommitLog OracleState History.
From S2P Require Import Coordinator Handles Database System Conflicts.

Module Calls.
Section calls.
Context `{Profile} {S : Type} `{VersionStore S} {Disk W : Type} `{Wal Disk W} `{HashIter}.

(** ** Definitions *)

(** [get] for each key, one after the other. *)
Fixpoint gets (i : Inner.t S W) (snap : Snapshot.t) (keys : list bytes) :
    outcome (Inner.t S W * list (Result (option bytes))) :=
  match keys with
  | [] => Ret (i, [])
  | key :: keys =>
     '(i, r) ← Snapshot.get i snap key;
     '(i, rs) ← gets i snap keys;
     Ret (i, r :: rs)
  end.

(** [let snap = db.snapshot(); ... drop(snap)]. *)
Definition read_through (i : Inner.t S W) (keys : list bytes) :
    outcome (Inner.t S W * list (Result (option bytes))) :=
  '(i, snap) ← Db.snapshot i;
  '(i, rs) ← gets i snap keys;
  i ← Snapshot.drop i snap;
  Ret (i, rs).

Definition snapshot_actions (n : nat) (keys : list bytes) : list System.action :=
  System.ABegin n false :: (System.AGet n <$> keys) ++ [System.ARollback n].

(** What the reads returned, the last one first. *)
Definition observed (keys : list bytes) (rs : list (Result (option bytes))) :
    list (bytes * option bytes) :=
  foldl (λ obs '(key, r), match r with Ok v => (key, v) :: obs | Err _ => obs end) [] (zip keys rs).

(** A client that is a snapshot. *)
Definition is_snapshot (c : System.client) (snap : Snapshot.t) : Prop :=
  c = System.mkClient (Transaction.mk (Snapshot.active snap) ∅ None) System.Active (System.c_obs c) None false.

(** What a handle made now reads, and what client [n] has been served. *)
Definition present (s : System.t S W) (k : bytes) : option bytes :=
  hist_view (System.hist s) k (Inner.read_ts (System.inner s)).

Definition served (s : System.t S W) (n : nat) (k : bytes) (v : option bytes) : Prop :=
  ∃ c, System.clients s !! n = Some c ∧ (k, v) ∈ System.c_obs c.

Context `{!StoreLaws S}.

Implicit Types s : System.t S W.

(** ** Lemmas *)

Lemma acts_app s l1 l2 s1 :
  System.acts s l1 = Ret (Some s1) → System.acts s (l1 ++ l2) = System.acts s1 l2.
Proof using Type.
  revert s. induction l1 as [|a l1 IH]; intros s; cbn [app System.acts]; [by intros [= ->]|].
  destruct (System.act s a) as [[s2|]|]; cbn; [apply IH|done|done].
Qed.

Lemma get_is_its_action s n c snap key i' r :
  System.clients s !! n = Some c → is_snapshot c snap →
  Snapshot.get (System.inner s) snap key = Ret (i', r) →
  ∃ c', System.act s (System.AGet n key) = Ret (Some (System.set_client s i' n c')) ∧
    is_snapshot c' snap ∧
    System.c_obs c' = match r with Ok v => (key, v) :: System.c_obs c | Err _ => System.c_obs c end.
Proof using Type.
  intros Hn Hc E. cbn. unfold System.in_phase. rewrite Hn, Hc. cbn. unfold Transaction.get.
  cbn. rewrite lookup_empty. unfold Snapshot.get in E. rewrite E. run.
  destruct r; run; by eexists.
Qed.

Lemma gets_are_actions s n c snap keys i' rs :
  System.clients s !! n = Some c → is_snapshot c snap →
  gets (System.inner s) snap keys = Ret (i', rs) →
  ∃ s' c', System.acts s (System.AGet n <$> keys) = Ret (Some s') ∧ System.inner s' = i' ∧
    System.clients s' = <[n := c']> (System.clients s) ∧
    System.collectors s' = System.collectors s ∧ System.hist s' = System.hist s ∧
    is_snapshot c' snap ∧
    System.c_obs c' = foldl (λ obs '(key, r), match r with Ok v => (key, v) :: obs | Err _ => obs end)
      (System.c_obs c) (zip keys rs).
Proof using Type.
  revert s c i' rs. induction keys as [|key keys IH]; intros s c i' rs Hn Hc; cbn [gets].
  - intros [= <- <-]. exists s, c. split_and!; try done. cbn. by rewrite insert_id.
  - intros ([i1 r] & E & ([i2 rs'] & Er & [= <- <-])%bind_Ret)%bind_Ret.
    destruct (get_is_its_action s n c snap key i1 r Hn Hc E) as (c1 & E1 & Hc1 & Hobs1).
    destruct (IH (System.set_client s i1 n c1) c1 i2 rs') as (s' & c' & E' & Hi' & Hcs & Hco & Hh & Hc' & Hobs).
    { cbn. by rewrite lookup_insert_eq. } { done. } { done. }
    exists s', c'. cbn [fmap list_fmap System.acts]. rewrite E1. cbn [mbind outcome_bind].
    split_and!; try done.
    + rewrite Hcs. cbn. by rewrite insert_insert_eq.
    + rewrite Hobs, Hobs1. done.
Qed.

(** The action of a client leaves the others alone. *)
Lemma act_others s a s' n m :
  System.act s a = Ret (Some s') → Evolution.actor a = Some n → m ≠ n →
  System.clients s' !! m = System.clients s !! m.
Proof using Type.
  intros E Ha Hm. destruct a; try done; injection Ha as ->; cbn in E;
    repeat (match type of E with
    | context [System.in_phase ?s ?n ?p] => destruct (System.in_phase s n p)
    | context [System.clients ?s !! n] => destruct (System.clients s !! n) as [[? [] ? [] ?]|]
    | context [bool_decide ?P] => destruct (bool_decide P)
    | context [Inner.alloc ?i] => destruct (Inner.alloc i)
    | context [if ?b then _ else _] => destruct (if b then _ else _)
    end; try done); try (apply bind_Ret in E as (? & _ & E); repeat case_match); simplify_eq/=; by rewrite lookup_insert_ne.
Qed.

(** A step changes no read at or below the watermark. *)
Lemma step_view h0 s s' k t :
  System.inv h0 s → System.step s s' → (Timestamp.get t ≤ Inner.watermark (System.inner s))%N →
  hist_view (System.hist s') k t = hist_view (System.hist s) k t.
Proof using Type.
  intros Hs [a s1 E|] Ht; [|done].
  assert (System.hist s1 = System.hist s ∨ ∃ n tx obs ts app,
    System.clients s !! n = Some (System.mkClient tx System.Allocated obs (Some ts) app) ∧
    System.hist s1 = System.hist s ++ [Inner.commit_of ts (Transaction.batch tx)])
    as [->|(n & tx & obs & ts & app & Hn & ->)]; [|done|].
  { destruct a; cbn in E; repeat (case_match || (apply bind_Ret in E as (? & ? & E)) ||
      discriminate || (simplify_eq; cbn in *)); first [by left | right; by eexists _, _, _, _, _]. }
  apply hist_view_above. destruct (System.i_inner _ _ Hs) as (fl & hz & Hi & Hfl).
  pose proof (System.inflight_above _ _ _ _ _ (Timestamp.get ts) Hi) as Hlt. cbn.
  eapply N.le_lt_trans; [exact Ht|]. apply Hlt, Hfl. by eexists _, _.
Qed.

(** A handle that lives keeps its timestamp, and what can be read there. *)
Lemma step_pinned h0 s s' n c :
  System.inv h0 s → System.step s s' → System.clients s !! n = Some c →
  ∃ c', System.clients s' !! n = Some c' ∧
    Transaction.read_timestamp (System.c_tx c') = Transaction.read_timestamp (System.c_tx c) ∧
    ∀ k, hist_view (System.hist s') k (Transaction.read_timestamp (System.c_tx c)) =
      hist_view (System.hist s) k (Transaction.read_timestamp (System.c_tx c)).
Proof using Type.
  intros Hs Hstep Hn.
  assert (∃ c', System.clients s' !! n = Some c' ∧ Transaction.read_timestamp (System.c_tx c') =
    Transaction.read_timestamp (System.c_tx c)) as (c' & Hn' & Hts).
  { destruct Hstep as [a s' E|]; [|by exists c]. destruct (Evolution.actor a) as [m|] eqn:Ha.
    - destruct (decide (n = m)) as [<-|Hne].
      + destruct (Evolution.act_evolves h0 s a s' n Hs E Ha) as (c0 & c' & Hn0 & Hcs & _ & Hev); [by eexists|].
        rewrite Hn in Hn0. injection Hn0 as <-. exists c'. rewrite Hcs, lookup_insert_eq.
        split; [done|apply Hev].
      + exists c. by rewrite (act_others s a s' m n).
    - exists c. destruct a; try done; cbn in E; by injection E as <-. }
  exists c'. split_and!; [done..|]. intros k. eapply step_view; [exact Hs|exact Hstep|].
  by eapply System.co_read, System.i_clients.
Qed.

(** ** Properties *)

(** C1: A handle is pinned to the moment it was made. Let a client begin in any
    reachable state, and let other clients commit and collections run for as long as
    there is room, in any interleaving: every value the client is served is the one a
    read found at the moment it began. *)
Theorem handle_is_pinned h0 s0 n serializable s1 s k v :
  System.reachable h0 s0 → System.room s0 1 →
  System.act s0 (System.ABegin n serializable) = Ret (Some s1) → rtc System.roomy s1 s →
  served s n k v → v = present s0 k.
Proof using Type.
  unfold present. intros Hreach Hroom Ebegin Hrun (c & Hn & Hobs). set (t := Inner.read_ts (System.inner s0)).
  destruct (Evolution.act_begin h0 s0 n serializable s1) as (_ & Hh & _ & tx & Hcs & Hts & _);
    [by apply System.reachable_inv|done|done|].
  assert (System.reachable h0 s1) as Hreach1.
  { destruct Hreach as (i & hz & Hi & Hr). exists i, hz. split; [done|].
    eapply rtc_r; [exact Hr|]. split; [done|]. by eapply System.step_act. }
  assert (∃ c, System.clients s1 !! n = Some c ∧ Transaction.read_timestamp (System.c_tx c) = t ∧
    ∀ k, hist_view (System.hist s1) k t = hist_view (System.hist s0) k t) as Hpin.
  { rewrite Hcs, lookup_insert_eq. eexists. split; [done|]. split; [done|]. by rewrite Hh. }
  clear Ebegin Hh Hcs Hts. induction Hrun as [s|s1 s2 s [Hr Hstep] _ IH].
  - destruct Hpin as (c0 & Hn0 & Hts & Hview). rewrite Hn in Hn0. injection Hn0 as <-.
    rewrite <-Hview, <-Hts. by eapply System.co_obs;
      [eapply System.i_clients; [by eapply System.reachable_inv|]|].
  - apply IH; [done| |].
    + destruct Hreach1 as (i & hz & Hi & Hrun). exists i, hz. split; [done|]. by eapply rtc_r.
    + destruct Hpin as (c0 & Hn0 & Hts & Hview).
      destruct (step_pinned h0 s1 s2 n c0) as (c1 & Hn1 & Hts1 & Hview1);
        [by apply System.reachable_inv|done|done|]. rewrite Hts in Hts1, Hview1.
      exists c1. split_and!; [done|done|]. intros k'. by rewrite Hview1.
Qed.

(** A snapshot, taken, read through and dropped without interruption, is the
    composition of the actions of a client that begins, reads and leaves: they end in
    the same shared state, the client has observed what the calls returned, and
    nothing else of the system has changed. *)
Theorem snapshot_is_its_actions s n keys i' rs :
  System.clients s !! n = None → read_through (System.inner s) keys = Ret (i', rs) →
  ∃ s' c', System.acts s (snapshot_actions n keys) = Ret (Some s') ∧ System.inner s' = i' ∧
    System.clients s' = <[n := c']> (System.clients s) ∧
    System.collectors s' = System.collectors s ∧ System.hist s' = System.hist s ∧
    System.c_phase c' = System.RolledBack ∧ System.c_obs c' = observed keys rs.
Proof using Type.
  intros Hn. unfold read_through, Db.snapshot, Snapshot.new.
  intros ([i1 snap] & Es & ([i2 rs'] & Eg & (i3 & Ed & [= <- <-])%bind_Ret)%bind_Ret)%bind_Ret.
  apply bind_Ret in Es as ([i0 a] & Ea & [= <- <-]).
  set (c0 := System.mkClient (Transaction.mk a ∅ None) System.Active [] None false).
  destruct (gets_are_actions (System.set_client s i0 n c0) n c0 (Snapshot.mk a) keys i2 rs')
    as (s2 & c2 & E2 & Hi2 & Hcs & Hco & Hh & Hc2 & Hobs);
    [cbn; by rewrite lookup_insert_eq|done|done|].
  exists (System.set_client s2 i3 n (System.to_phase c2 System.RolledBack)), (System.to_phase c2 System.RolledBack).
  split_and!; try done.
  - unfold snapshot_actions. cbn [System.acts]. unfold System.act at 1. rewrite Hn.
    unfold Transaction.new. rewrite Ea. run. fold c0.
    rewrite (acts_app _ _ _ s2 E2). cbn [System.acts]. unfold System.act, System.in_phase.
    rewrite Hcs, lookup_insert_eq, Hc2. cbn. unfold Transaction.rollback. cbn.
    unfold Snapshot.drop in Ed. cbn in Ed. rewrite Hi2, Ed. run. by rewrite <-Hc2.
  - cbn. rewrite Hcs. cbn. by rewrite !insert_insert_eq.
Qed.

(** A collection without interruption is a run of the system: its start, which
    reads the low watermark, the critical sections of the store, and its end. Only
    the store changes. *)
Theorem collection_is_its_steps h0 s m i' reclaimed :
  System.inv h0 s → System.collectors s !! m = None →
  Db.collect_garbage (System.inner s) = Ret (i', reclaimed) →
  rtc System.step s (System.mk i' (System.clients s) (System.collectors s) (System.hist s)).
Proof using Type.
  intros Hs Hm. unfold Db.collect_garbage, Inner.collect_garbage.
  set (wm := Oracle.low_watermark (Inner.oracle (System.inner s))).
  intros ([st k] & E & [= <- <-])%bind_Ret.
  destruct (System.i_inner _ _ Hs) as (fl & hz & Hi & _).
  destruct (law_collect_garbage (Inner.store (System.inner s)) wm (Inner.inv_store _ _ _ _ _ Hi))
    as (st' & k' & E' & Hrtc). rewrite E in E'. injection E' as <- <-.
  set (cs := <[m := wm]> (System.collectors s)).
  assert (∀ st0, rtc (vs_gc_step wm) st0 st →
    rtc System.step
      (System.mk (Inner.set_store (System.inner s) st0) (System.clients s) cs (System.hist s))
      (System.mk (Inner.set_store (System.inner s) st) (System.clients s) cs (System.hist s))) as Hgc.
  { intros st0. induction 1 as [|st0 st1 st Hstep _ IH]; [done|]. eapply rtc_l; [|by apply IH].
    by eapply (System.step_gc (System.mk (Inner.set_store (System.inner s) st0) _ cs _) m wm);
      [apply lookup_insert_eq|]. }
  eapply rtc_l; [apply (System.step_act s (System.AGcStart m)); done|]. fold wm cs.
  etransitivity.
  - specialize (Hgc _ Hrtc).
    replace (Inner.set_store (System.inner s) (Inner.store (System.inner s))) with (System.inner s)
      in Hgc by (by destruct (System.inner s)). exact Hgc.
  - apply rtc_once, (System.step_act _ (System.AGcEnd m)). cbn. unfold cs. by rewrite delete_insert_id.
Qed.

End calls.
End Calls.
