(* ===== verification/LoomTests.v ===== *)
(** * The model-checked tests, for every interleaving

    [tests/loom_txn.rs] has three small concurrent programs that a model checker
    runs under every interleaving of two threads. Here their assertions are
    theorems about every reachable state of [System], so for any number of
    threads, any store and any interleaving, collections included. *)

From S2P Require Import Prelude RustStd Types StoreTrait CommitLog OracleState History.
From S2P Require Import Coordinator Handles Database System Conflicts.

Module Loom.
Import System Evolution.
Section loom.
Context `{Profile} {S : Type} `{StoreLaws S} {Disk W : Type} `{Wal Disk W} `{HashIter}.

(** ** Definitions *)

(** Every thread has joined, and none met a failure of the store or of the log. *)
Definition joined (s : t S W) : Prop :=
  ∀ n c, clients s !! n = Some c → (∃ r, c_phase c = Finished r) ∧ failed c = false.

Definition committed (c : client) : Prop := ∃ ts, c_phase c = Finished (Ok ts).
Definition rejected (c : client) : Prop :=
  ∃ len, c_phase c = Finished (Err (TxnError.Conflict len)).

(** [db.snapshot().get(key)] in a state in which nothing runs. *)
Definition latest (s : t S W) (key : bytes) : option bytes :=
  hist_view (hist s) key (Inner.read_ts (inner s)).

(** ** Lemmas *)

(** A writer that joined has committed and its batch is applied, or was rejected
    and it is not. *)
Lemma joined_outcome h0 (s : t S W) n c :
  inv h0 s → joined s → clients s !! n = Some c → Transaction.writes (c_tx c) ≠ ∅ →
  (committed c ∧ c_applied c = true) ∨ (rejected c ∧ c_applied c = false).
Proof using Type.
  intros Hs Hj Hn Hne. destruct (Hj n c Hn) as [[r Hr] Hf].
  pose proof (co_phase _ _ _ _ (i_clients _ _ Hs n c Hn)) as Hph.
  unfold phase_ok, result_ok, failed in *. rewrite Hr in *.
  destruct r as [ts|[len|context detail|detail]]; try done.
  - left. split; [by exists ts|]. destruct (c_ts c); [by destruct Hph|]. by destruct Hph.
  - right. split; [by exists len|]. by destruct Hph.
Qed.

Lemma joined_pending (s : t S W) n c : joined s → clients s !! n = Some c → pending c = None.
Proof using Type. intros Hj Hn. destruct (Hj n c Hn) as [[r Hr] _]. unfold pending. by rewrite Hr. Qed.

Lemma some_applied (s : t S W) :
  (∃ n c, clients s !! n = Some c ∧ c_applied c = true) ∨
  ∀ n c, clients s !! n = Some c → c_applied c = false.
Proof using Type.
  destruct (decide (Exists (λ p, c_applied p.2 = true) (map_to_list (clients s)))) as [Hex|Hno].
  - left. apply Exists_exists in Hex as ([n c] & Hn%elem_of_map_to_list & Ha). by exists n, c.
  - right. intros n c Hn. apply not_true_is_false. intros Ha. apply Hno, Exists_exists.
    exists (n, c). by rewrite elem_of_map_to_list.
Qed.

(** When nothing runs, the only applied writer of a key is what a read finds. *)
Lemma sole_writer_visible h0 s n c k v :
  reachable h0 s → joined s → clients s !! n = Some c → c_applied c = true →
  Transaction.writes (c_tx c) !! k = Some v →
  (∀ m c', m ≠ n → clients s !! m = Some c' → c_applied c' = true →
     Transaction.writes (c_tx c') !! k = None) →
  latest s k = v.
Proof using Type.
  intros Hreach Hj Hn Ha Hk Hsole. pose proof (reachable_inv h0 s Hreach) as Hs.
  pose proof (i_clients _ _ Hs n c Hn) as Hok. destruct (co_ts _ _ _ _ Hok Ha) as [ts Hts].
  destruct (co_applied _ _ _ _ Hok ts Hts Ha) as (h1 & h2 & E & _ & Habove).
  set (e := Inner.commit_of ts (Transaction.batch (c_tx c))) in *.
  assert (Hb : writes_map e = Transaction.writes (c_tx c)) by apply Transaction.batch_map.
  assert (Hseen : (Timestamp.get ts ≤ Inner.watermark (inner s))%N).
  { apply (watermark_spec h0 s _ Hs). split; [by eapply co_next|].
    intros m c' p Hm Hp. by rewrite (joined_pending s m c' Hj Hm) in Hp. }
  pose proof (inv_history _ _ Hs) as Hwf. pose proof (hwf_unique _ Hwf) as Hu.
  assert (Hlast : writers k h2 = []).
  { apply writers_none. intros e' He' Ht.
    assert (e' ∈ hist s) as Hin by (rewrite E; set_solver).
    destruct (i_hist _ _ Hs e' Hin) as [H0'|(m & c' & ts' & Hm & Hts' & Ha' & E')].
    - destruct (reachable_covers h0 s Hreach e' H0') as [_ Hcov]. destruct (Hcov n c Hn) as [_ Hle].
      specialize (Habove e' ltac:(by right)). lia.
    - destruct (decide (m = n)) as [->|Hne].
      + assert (e' = e) as ->.
        { rewrite Hn in Hm. injection Hm as <-. rewrite Hts in Hts'. by injection Hts' as <-. }
        rewrite E, fmap_app, fmap_cons in Hu. apply NoDup_app in Hu as (_ & _ & Hu).
        apply NoDup_cons in Hu as [Hu _]. by apply Hu, list_elem_of_fmap_2.
      + specialize (Hsole m c' Hne Hm Ha'). subst e'. unfold touches in Ht.
        rewrite Transaction.batch_map, Hsole in Ht. by destruct Ht. }
  unfold latest. rewrite <-hist_view_writers, E. unfold writers in *.
  rewrite filter_app, filter_cons_True, Hlast by (unfold touches; rewrite Hb; by eexists).
  rewrite hist_view_snoc. unfold committed_view. fold (writes_map e). rewrite Hb, Hk.
  change (Inner.watermark (inner s)) with (Timestamp.get (Inner.read_ts (inner s))) in Hseen.
  by case_ts; [|cbn in *; lia].
Qed.

(** Of the writers of a key with one snapshot, one at most is applied. *)
Lemma same_snapshot_winner h0 (s : t S W) n m c c' k :
  inv h0 s → clients s !! n = Some c → clients s !! m = Some c' →
  c_applied c = true → c_applied c' = true →
  Transaction.read_timestamp (c_tx c) = Transaction.read_timestamp (c_tx c') →
  is_Some (Transaction.writes (c_tx c) !! k) → is_Some (Transaction.writes (c_tx c') !! k) → n = m.
Proof using Type.
  intros Hs Hn Hm Ha Ha' Ht Hk Hk'.
  pose proof (i_clients _ _ Hs n c Hn) as Hok. pose proof (i_clients _ _ Hs m c' Hm) as Hok'.
  destruct (co_ts _ _ _ _ Hok Ha) as [ts Hts], (co_ts _ _ _ _ Hok' Ha') as [ts' Hts'].
  pose proof (co_applied _ _ _ _ Hok ts Hts Ha) as Hin. pose proof (co_applied _ _ _ _ Hok' ts' Hts' Ha') as Hin'.
  assert (Habove : ∀ tx tsx, committed_in (hist s) tx tsx →
    (Timestamp.get (Transaction.read_timestamp tx) < Timestamp.get tsx)%N).
  { intros tx tsx (h1 & h2 & _ & _ & Hab). specialize (Hab _ ltac:(by left)). unfold ts_of in Hab.
    cbn in Hab. lia. }
  pose proof (Habove _ _ Hin). pose proof (Habove _ _ Hin'). pose proof (inv_history _ _ Hs) as Hwf.
  destruct (N.lt_trichotomy (Timestamp.get ts) (Timestamp.get ts')) as [Hlt|[E%Timestamp.ext|Hlt]].
  - pose proof (committed_ordered _ _ _ _ _ k Hwf Hin Hin' Hk Hk' Hlt). rewrite <-Ht in *. lia.
  - subst. by eapply (i_unique _ _ Hs n m c c').
  - pose proof (committed_ordered _ _ _ _ _ k Hwf Hin' Hin Hk' Hk Hlt). rewrite Ht in *. lia.
Qed.

(** ** Properties *)

(** C21: Same-key commits have one winner. Any number of transactions take the same
    snapshot, write one key, the same for all, and commit concurrently. Once all
    have joined, exactly one has committed, every other one was rejected with a
    conflict, and a read finds what the winner wrote. *)
Theorem same_key_commit_has_one_winner h0 (s : t S W) k t :
  reachable h0 s → joined s → clients s ≠ ∅ →
  (∀ n c, clients s !! n = Some c →
     Transaction.read_timestamp (c_tx c) = t ∧
     ∀ k', is_Some (Transaction.writes (c_tx c) !! k') ↔ k' = k) →
  ∃ n c, clients s !! n = Some c ∧ committed c ∧
    Transaction.writes (c_tx c) !! k = Some (latest s k) ∧
    ∀ m c', m ≠ n → clients s !! m = Some c' → rejected c'.
Proof using Type.
  intros Hreach Hj Hne Hall. pose proof (reachable_inv h0 s Hreach) as Hs.
  assert (Hw : ∀ n c, clients s !! n = Some c → ∃ v, Transaction.writes (c_tx c) !! k = Some v).
  { intros n c Hn. by apply (Hall n c Hn). }
  assert (Hout : ∀ n c, clients s !! n = Some c →
    (committed c ∧ c_applied c = true) ∨ (rejected c ∧ c_applied c = false)).
  { intros n c Hn. eapply joined_outcome; [done..|]. destruct (Hw n c Hn) as [v Hv].
    intros E. by rewrite E, lookup_empty in Hv. }
  destruct (some_applied s) as [(n & c & Hn & Ha)|Hnone].
  - assert (Hothers : ∀ m c', m ≠ n → clients s !! m = Some c' → c_applied c' = false).
    { intros m c' Hm Hc'. apply not_true_is_false. intros Ha'. destruct Hm.
      eapply (same_snapshot_winner h0 s m n c' c k); [done..| | |].
      - by rewrite (proj1 (Hall n c Hn)), (proj1 (Hall m c' Hc')).
      - by apply (Hall m c' Hc').
      - by apply (Hall n c Hn). }
    exists n, c. split; [done|]. destruct (Hout n c Hn) as [[Hc _]|[_ ?]]; [|congruence].
    split; [done|]. destruct (Hw n c Hn) as [v Hv]. split.
    + rewrite Hv. f_equal. symmetry. eapply (sole_writer_visible h0 s n c); [done..|].
      intros m c' Hm Hc' Ha'. by rewrite (Hothers m c' Hm Hc') in Ha'.
    + intros m c' Hm Hc'. destruct (Hout m c' Hc') as [[_ ?]|[? _]]; [|done].
      by rewrite (Hothers m c' Hm Hc') in *.
  - exfalso. apply map_choose in Hne as (n & c & Hn).
    destruct (Hout n c Hn) as [[_ Ha]|[[len Hlen] _]]; [by rewrite (Hnone n c Hn) in Ha|].
    assert (refused c = Some len) as Href by (unfold refused; by rewrite Hlen).
    destruct (reachable_blamed h0 s Hreach n c len Hn Href) as (e & k' & He & _ & _ & _ & Hlt).
    destruct (i_hist _ _ Hs e He) as [H0'|(m & c' & ts & Hm & _ & Ha' & _)].
    + destruct (reachable_covers h0 s Hreach e H0') as [_ Hcov]. destruct (Hcov n c Hn). lia.
    + by rewrite (Hnone m c' Hm) in Ha'.
Qed.

(** C22: Disjoint commits all succeed and are visible. Any number of transactions, no
    one of which writes a key that another writes or (serializable) read, commit
    concurrently, out of order. Once all have joined, every one of them with a
    write has committed, and a read finds everything each of them wrote. *)
Theorem disjoint_commits_succeed_and_are_visible h0 (s : t S W) :
  reachable h0 s → joined s →
  (∀ m n c c' k, m ≠ n → clients s !! m = Some c → clients s !! n = Some c' →
     is_Some (Transaction.writes (c_tx c) !! k) → ¬ Transaction.validated (c_tx c') k) →
  ∀ n c, clients s !! n = Some c → Transaction.writes (c_tx c) ≠ ∅ →
    committed c ∧ ∀ k v, Transaction.writes (c_tx c) !! k = Some v → latest s k = v.
Proof using Type.
  intros Hreach Hj Hdis n c Hn Hne. pose proof (reachable_inv h0 s Hreach) as Hs.
  destruct (joined_outcome h0 s n c Hs Hj Hn Hne) as [[Hc Ha]|[[len Hlen] Ha]].
  - split; [done|]. intros k v Hk. eapply (sole_writer_visible h0 s n c); [done..|].
    intros m c' Hm Hc' _. apply eq_None_not_Some. intros Hk'.
    by eapply (Hdis m n c' c k); [..|left; eexists].
  - exfalso. assert (refused c = Some len) as Href by (unfold refused; by rewrite Hlen).
    destruct (reachable_blamed h0 s Hreach n c len Hn Href) as (e & k & He & Ht & Hv & _ & Hlt).
    destruct (i_hist _ _ Hs e He) as [H0'|(m & c' & ts & Hm & _ & Ha' & ->)].
    + destruct (reachable_covers h0 s Hreach e H0') as [_ Hcov]. destruct (Hcov n c Hn). lia.
    + unfold touches in Ht. rewrite Transaction.batch_map in Ht.
      destruct (decide (m = n)) as [->|Hmn]; [congruence|]. by eapply (Hdis m n c' c k).
Qed.

(** Collection never disturbs a concurrent reader. While nobody writes, whatever
    readers and collections do, every read finds the newest value of its key. *)
Theorem gc_never_disturbs_a_reader h0 (s : t S W) n c k v :
  reachable h0 s → (∀ m c', clients s !! m = Some c' → c_applied c' = false) →
  clients s !! n = Some c → (k, v) ∈ c_obs c → v = hist_now h0 k.
Proof using Type.
  intros Hreach Hquiet Hn Hin. pose proof (reachable_inv h0 s Hreach) as Hs.
  rewrite (co_obs _ _ _ _ (i_clients _ _ Hs n c Hn) k v Hin).
  destruct (reachable_history h0 s Hreach) as [l Hl].
  assert (l = []) as ->.
  { destruct l as [|e l]; [done|exfalso]. destruct (i_hist _ _ Hs e) as [H0'|(m & c' & ts & Hm & _ & Ha & _)].
    - rewrite Hl. set_solver.
    - pose proof (hwf_unique _ (inv_history _ _ Hs)) as Hu. rewrite Hl, fmap_app in Hu.
      apply NoDup_app in Hu as (_ & Hu & _). apply (Hu (ts_of e)); [by apply list_elem_of_fmap_2|by left].
    - by rewrite (Hquiet m c' Hm) in Ha. }
  rewrite Hl, app_nil_r, <-hist_now_visible, visible_all; [done|]. intros e He.
  destruct (reachable_covers h0 s Hreach e He) as [_ Hcov]. by apply (Hcov n c Hn).
Qed.

End loom.
End Loom.
