(* ===== verification/Crashes.v ===== *)
(** * Lives of a durable database

    [Recovery] is about one crash. Here a database on one disk is run by one process
    after another: in each of them clients and collections interleave as in
    [System], the process dies at any point, also in the middle of commits, and the
    next one opens the log it left. What the clients of dead processes were told is
    remembered on the side. *)

From S2P Require Import Prelude RustStd Types StoreTrait CommitLog MemStore OracleState History.
From S2P Require Import Coordinator Handles Database System Recovery Restart Conflicts.

Module Crashes.
Section crashes.
Context `{Profile} {Disk W : Type} `{WalLaws Disk W} `{HashIter}.
Abbreviation State := (System.t MemoryStore.t W).

(** ** Definitions *)

(** A process with the database open, or the disk a process left behind. *)
Inductive machine :=
| Running (s : State)
| Dead (d : Disk).

(** The machine now, and the commits that clients of the processes before were told
    had succeeded. *)
Record t := mk { now : machine; told : History }.

(** What a client was, or was about to be, told. *)
Definition acknowledged (c : System.client) : option Commit :=
  match System.c_ts c, System.c_phase c with
  | Some ts, (System.Logged (Ok _) | System.Published (Ok _) | System.Finished (Ok _)) =>
     Some (Inner.commit_of ts (Transaction.batch (System.c_tx c)))
  | _, _ => None
  end.

Definition told_by (s : State) : History :=
  omap (λ p, acknowledged p.2) (map_to_list (System.clients s)).

(** The commits an opened log gives back, in the order they are replayed. *)
Definition replayed (cs : History) : History := sort_by_key ts_of cs.

(** A critical section of the running process, its death, and opening its log, which
    may fail any number of times. *)
Inductive step (x : t) : t → Prop :=
| step_run s s' :
   now x = Running s → System.roomy s s' → Forall CommitLog.commit_fits (System.hist s') →
   step x (mk (Running s') (told x))
| step_crash s l :
   now x = Running s → Inner.log (System.inner s) = Some l →
   step x (mk (Dead (wal_disk (CommitLog.wal l))) (told x ++ told_by s))
| step_open d i l cs :
   now x = Dead d → CommitLog.open d = Ret (Ok (l, cs)) → Db.open d = Ret (Ok i) →
   step x (mk (Running (System.start i (replayed cs))) (told x))
| step_open_failed d e :
   now x = Dead d → Db.open d = Ret (Err e) → step x x.

(** Everything that can become of a new directory. *)
Definition reachable (x : t) : Prop :=
  ∃ d, Durable.fresh d ∧ rtc step (mk (Dead d) []) x.

(** No client of the running process met a failure of the log. *)
Definition log_works (s : State) : Prop :=
  ∀ n c detail, System.clients s !! n = Some c →
    System.c_phase c ≠ System.Logged (Err (TxnError.Durability detail)) ∧
    System.c_phase c ≠ System.Published (Err (TxnError.Durability detail)) ∧
    System.c_phase c ≠ System.Finished (Err (TxnError.Durability detail)).

(** ** The invariant *)

(** What a log holds, so that opening it rebuilds a database. *)
Record restorable (cs : History) : Prop := {
  re_unique : NoDup (ts_of <$> cs);
  re_batches c : c ∈ cs → NoDup (Codec.writes c).*1;
  re_room c : c ∈ cs → (ts_of c + 2 < u64_modulus)%N;
}.

Definition inv (x : t) : Prop :=
  match now x with
  | Running s => ∃ h0, Recovery.reachable h0 s ∧ ∀ e, e ∈ told x → e ∈ h0
  | Dead d => ∃ cs, CommitLog.disk_holds d cs ∧ restorable cs ∧ ∀ e, e ∈ told x → e ∈ cs
  end.

(** ** Lemmas *)

Lemma replayed_elem cs e : e ∈ replayed cs ↔ e ∈ cs.
Proof using Type. unfold replayed. by rewrite sort_by_key_perm. Qed.

Lemma told_by_acked (s : State) e :
  e ∈ told_by s → ∃ n c ts, System.clients s !! n = Some c ∧ Recovery.acked c ts ∧
    e = Inner.commit_of ts (Transaction.batch (System.c_tx c)).
Proof using Type.
  unfold told_by. rewrite list_elem_of_omap. intros ([n c] & Hn%elem_of_map_to_list & Ha).
  cbn in Ha. unfold acknowledged in Ha. exists n, c. unfold Recovery.acked.
  destruct (System.c_ts c) as [ts|] eqn:Hts; [|done]. exists ts.
  destruct (System.c_phase c) as [| |r|[]|[]|[]|]; try done; by injection Ha as <-.
Qed.

Lemma acked_told_by (s : State) n c ts :
  System.clients s !! n = Some c → Recovery.acked c ts →
  Inner.commit_of ts (Transaction.batch (System.c_tx c)) ∈ told_by s.
Proof using Type.
  intros Hn [Hts Hp]. unfold told_by. apply list_elem_of_omap. exists (n, c).
  split; [by apply elem_of_map_to_list|]. cbn. unfold acknowledged. rewrite Hts.
  by destruct (System.c_phase c) as [| |r|[]|[]|[]|].
Qed.

(** What the log of a reachable state holds can be opened again. *)
Lemma logged_restorable h0 (s : State) logged :
  System.inv h0 s → Recovery.log_inv h0 s logged → restorable logged.
Proof using Type.
  intros Hs [_ Hsub Hu _ _ _]. destruct (System.i_inner _ _ Hs) as (fl & hz & Hi & _). split; [done|..].
  - intros c Hc. by apply (hwf_batches _ (System.inv_history _ _ Hs)), Hsub.
  - intros c Hc%Hsub. pose proof (Inner.inv_issued _ _ _ _ _ Hi c Hc).
    pose proof (Oracle.wf_range _ _ (Inner.inv_oracle _ _ _ _ _ Hi)). lia.
Qed.

(** Opening such a log. *)
Lemma open_restorable d cs :
  CommitLog.disk_holds d cs → restorable cs →
  (∃ e, Db.open d = Ret (Err (TxnError.durability e))) ∨
  ∃ i l, CommitLog.open d = Ret (Ok (l, cs)) ∧ Db.open d = Ret (Ok i) ∧
    Inner.inv i [] ∅ (replayed cs) 0 ∧ Inner.log_holds i cs.
Proof using Type.
  intros Hd [Hu Hb Hr].
  destruct (Db.open_disk_inv d cs Hd Hu Hb Hr) as [?|(i & Ho & Hi & Hl & _)]; [by left|right].
  destruct (CommitLog.open_disk d cs Hd) as [[e E]|(l & E & _)]; [|by exists i, l].
  unfold Db.open, try_bind in Ho. by rewrite E in Ho.
Qed.

(** A run of one process. *)
Lemma run_steps s s' past :
  rtc System.roomy s s' → Forall CommitLog.commit_fits (System.hist s') →
  rtc step (mk (Running s) past) (mk (Running s') past).
Proof using Type.
  intros Hrun. revert s' Hrun. apply (rtc_ind_r (λ s', _ → rtc step _ (mk (Running s') past))).
  - intros _. apply rtc_refl.
  - intros s1 s2 _ [Hr Hstep] IH Hfits. eapply rtc_r; [|by eapply (step_run (mk (Running s1) past))].
    apply IH. rewrite Forall_forall in *. intros e He. by eapply Hfits, Recovery.step_hist.
Qed.

Lemma life_step_inv x x' : inv x → step x x' → inv x'.
Proof using Type.
  unfold inv. intros Hx Hstep.
  destruct Hstep as [s s' E Hrun Hfits|s l E Hl|d i l cs E Ho1 Ho2|d e E Ho]; rewrite E in Hx; cbn.
  - destruct Hx as (h0 & [(i & hz & lg & Hi & Hp & Hlg & Hrtc) _] & Htold).
    exists h0. split; [|done]. split; [|done]. exists i, hz, lg. split_and!; [done..|].
    by eapply rtc_r.
  - destruct Hx as (h0 & Hreach & Htold).
    destruct (Recovery.reachable_log_inv h0 s Hreach) as (Hs & logged & Hli).
    pose proof Hli as [Hh Hsub Hu Hinit _ Hack]. destruct Hh as (l' & El & Hh).
    rewrite Hl in El. injection El as <-. exists logged. split_and!.
    + by apply CommitLog.holds_disk.
    + by eapply logged_restorable.
    + intros e [He|(n & c & ts & Hn & Ha & ->)%told_by_acked]%elem_of_app; [by apply Hinit, Htold|].
      by eapply Hack.
  - destruct Hx as (cs' & Hd & Hre & Htold).
    destruct (open_restorable d cs' Hd Hre) as [[e E']|(i' & l' & E1 & E2 & Hi & Hlog)].
    { by rewrite E' in Ho2. }
    rewrite Ho1 in E1. injection E1 as <- <-. rewrite Ho2 in E2. injection E2 as <-.
    exists (replayed cs). split; [|by intros e He; apply replayed_elem, Htold]. split.
    + exists i, 0%N, cs. split_and!; [done|by unfold replayed; rewrite sort_by_key_perm|done|].
      apply rtc_refl.
    + apply Forall_forall. cbn. intros e He. rewrite replayed_elem in He. destruct Hlog as (? & _ & _ & Hf).
      rewrite Forall_forall in Hf. by apply Hf.
  - by rewrite E.
Qed.

Lemma life_inv x : reachable x → inv x.
Proof using Type.
  intros (d & Hd & Hrun). assert (inv (mk (Dead d) [])) as H0'.
  { exists []. cbn. split_and!; [|split; cbn; [by apply NoDup_nil|by intros c ?%not_elem_of_nil..]|done].
    split; [constructor|]. apply Hd. }
  induction Hrun as [|x y z Hstep _ IH]; [done|]. by eapply IH, life_step_inv.
Qed.

(** What the running process knows of an acknowledged commit of a dead one. *)
Lemma told_covered x s e :
  reachable x → now x = Running s → e ∈ told x →
  ∃ h0, System.reachable h0 s ∧ e ∈ h0 ∧ e ∈ System.hist s.
Proof using Type.
  intros Hreach%life_inv E He. unfold inv in Hreach. rewrite E in Hreach.
  destruct Hreach as (h0 & [(i & hz & lg & Hi & _ & _ & Hrtc) _] & Htold). exists h0.
  assert (System.reachable h0 s) as Hs by (by exists i, hz). split_and!; [done|by apply Htold|].
  destruct (System.reachable_history h0 s Hs) as [l ->]. apply elem_of_app. left. by apply Htold.
Qed.

(** A commit at or below the watermark that no failed append can have lost is in the
    log. *)
Lemma visible_logged h0 (s : State) logged e :
  System.inv h0 s → Recovery.log_inv h0 s logged → log_works s →
  e ∈ System.hist s → (ts_of e ≤ Inner.watermark (System.inner s))%N → e ∈ logged.
Proof using Type.
  intros Hs Hli Hworks He Hle.
  destruct (System.i_hist _ _ Hs e He) as [?|(n & c & ts & Hn & Hts & Ha & ->)];
    [by eapply Recovery.li_initial|].
  eapply (Recovery.li_acked _ _ _ Hli n); [done|]. split; [done|].
  pose proof (System.co_phase _ _ _ _ (System.i_clients _ _ Hs n c Hn)) as Hph.
  apply (System.watermark_spec h0 s _ Hs) in Hle as [_ Hpend]. specialize (Hpend n c).
  pose proof (λ d, Hworks n c d Hn) as Hw.
  unfold System.phase_ok, System.result_ok, System.pending in *. rewrite Hts, Ha in *.
  destruct (System.c_phase c) as [| |r|r|[|[]]|[|[]]|]; try done; try naive_solver;
    specialize (Hpend _ Hn eq_refl); unfold ts_of in Hpend; cbn in Hpend; lia.
Qed.

(** Reads at or below the watermark are those of the log alone. *)
Lemma logged_view h0 (s : State) logged k tr :
  System.inv h0 s → Recovery.log_inv h0 s logged → log_works s →
  (Timestamp.get tr ≤ Inner.watermark (System.inner s))%N →
  hist_view (replayed logged) k tr = hist_view (System.hist s) k tr.
Proof using Type.
  intros Hs Hli Hworks Hle.
  pose proof (System.inv_history _ _ Hs) as Hwf.
  destruct (logged_restorable h0 s logged Hs Hli) as [Hu Hb _].
  apply hist_view_visible_same; [by apply history_wf_sorted|done|]. intros e Ht.
  rewrite replayed_elem. split; [by apply (Recovery.li_sub _ _ _ Hli)|].
  intros He. eapply visible_logged; [done..|]. lia.
Qed.

(** ** Properties *)

(** C7: What was acknowledged survives every crash. Run a database on a new
    directory through any number of processes, each of them concurrent and dying at
    any point. A commit that a client of a process before the present one was told
    had succeeded is still there: while the database is down, opening its log yields
    it, or a durability error; while it is up, it is in the history, and whoever
    reads a key it wrote finds what it wrote or what a later commit wrote. *)
Theorem acknowledged_survive_crashes x e :
  reachable x → e ∈ told x →
  match now x with
  | Dead d =>
     (∃ err, Db.open d = Ret (Err (TxnError.durability err))) ∨
     ∃ i h, Db.open d = Ret (Ok i) ∧ Inner.inv i [] ∅ h 0 ∧ e ∈ h
  | Running s =>
     e ∈ System.hist s ∧
     ∀ n c k v, System.clients s !! n = Some c → (k, v) ∈ System.c_obs c → touches k e →
       ∃ e', e' ∈ System.hist s ∧ writes_map e' !! k = Some v ∧ (ts_of e ≤ ts_of e')%N ∧
         (ts_of e' ≤ Timestamp.get (Transaction.read_timestamp (System.c_tx c)))%N
  end.
Proof using Type.
  intros Hreach He. pose proof (life_inv x Hreach) as Hinv. unfold inv in Hinv.
  destruct (now x) as [s|d] eqn:E.
  - destruct (told_covered x s e Hreach E He) as (h0 & Hs & H0' & Hh). split; [done|].
    intros n c k v Hn Ho Ht. pose proof (System.reachable_inv h0 s Hs) as Hi.
    rewrite (System.co_obs _ _ _ _ (System.i_clients _ _ Hi n c Hn) k v Ho).
    apply hist_view_newest; [by eapply System.inv_history|done|done|].
    destruct (Evolution.reachable_covers h0 s Hs e H0') as [_ Hcov]. by apply (Hcov n c Hn).
  - destruct Hinv as (cs & Hd & Hre & Htold).
    destruct (open_restorable d cs Hd Hre) as [?|(i & l & _ & Ho & Hi & _)]; [by left|right].
    exists i, (replayed cs). split_and!; [done..|]. by apply replayed_elem, Htold.
Qed.

(** C8: What was read survives a crash. As long as no append has failed, every value
    that a client of the running process was ever served outlives it: if the process
    dies at this moment and its log opens again, the store of the new process,
    asked for the same key at the same timestamp, answers the same. So no
    transaction acts on a commit that recovery undoes. *)
Theorem observed_reads_survive x s l i n c k v :
  reachable x → now x = Running s → log_works s →
  Inner.log (System.inner s) = Some l → Db.open (wal_disk (CommitLog.wal l)) = Ret (Ok i) →
  System.clients s !! n = Some c → (k, v) ∈ System.c_obs c →
  ∃ i', Inner.store_get i k (Transaction.read_timestamp (System.c_tx c)) = Ret (i', Ok v).
Proof using Type.
  intros Hreach%life_inv E Hworks Hl Hopen Hn Ho. unfold inv in Hreach. rewrite E in Hreach.
  destruct Hreach as (h0 & Hrec & _).
  destruct (Recovery.reachable_log_inv h0 s Hrec) as (Hs & logged & Hli).
  destruct (Recovery.li_holds _ _ _ Hli) as (l' & El & Hh). rewrite Hl in El. injection El as <-.
  destruct (open_restorable _ logged (CommitLog.holds_disk _ logged Hh)) as
    [[e E']|(i' & l' & _ & E' & Hi & _)]; [by eapply logged_restorable|by rewrite E' in Hopen|].
  rewrite Hopen in E'. injection E' as <-.
  pose proof (System.i_clients _ _ Hs n c Hn) as Hok.
  destruct (Inner.store_get_inv i [] ∅ _ 0 k (Transaction.read_timestamp (System.c_tx c)) Hi)
    as (i1 & r & Eg & _ & _ & _ & Hr); [lia|].
  exists i1. rewrite Eg. destruct r as [v'|[len|ctx detail|detail]]; try done.
  rewrite Hr, (System.co_obs _ _ _ _ Hok k v Ho).
  by erewrite logged_view; [..|exact (System.co_read _ _ _ _ Hok)].
Qed.

End crashes.
End Crashes.
