(* ===== verification/Programs.v ===== *)
(** * Client programs

    What clients of the database may rely on, whatever runs beside them. A client
    program is a tree of the calls it makes inside one transaction; [run] is the
    program alone on a map, [exec] the program on the modelled code, and [pstep]
    interleaves any number of programs on [System]. The theorem is the rule that
    client code is written for: an invariant that every program keeps when it runs
    alone holds in every snapshot of every concurrent run. *)

From S2P Require Import Prelude RustStd Types StoreTrait CommitLog OracleState History.
From S2P Require Import Coordinator Handles Database System.

Module Program.

(** ** Definitions *)

(** The contents of the database. *)
Abbreviation contents := (bytes → option bytes).

(** One transaction of a client: [Leave e] drops it and returns the error [e],
    [Crash] is a panic of the client, which drops it as well. *)
Inductive prog :=
| Get (key : bytes) (k : option bytes → prog)
| Write (key : bytes) (v : option bytes) (p : prog)
| Commit
| Leave (e : TxnError.t)
| Crash.

(** The contents after a batch. *)
Definition after (w : gmap bytes (option bytes)) (m : contents) : contents :=
  λ k, default (m k) (w !! k).

(** The program alone on [m], having written [w]: the batch it commits, if any. *)
Fixpoint run (p : prog) (m : contents) (w : gmap bytes (option bytes)) :
    option (gmap bytes (option bytes)) :=
  match p with
  | Get key k => run (k (after w m key)) m w
  | Write key v p => run p m (<[key := v]> w)
  | Commit => Some w
  | Leave _ | Crash => None
  end.

(** The error it leaves with, if it does. *)
Fixpoint leaves (p : prog) (m : contents) (w : gmap bytes (option bytes)) : option TxnError.t :=
  match p with
  | Get key k => leaves (k (after w m key)) m w
  | Write key v p => leaves p m (<[key := v]> w)
  | Leave e => Some e
  | Commit | Crash => None
  end.

(** [reaches p q obs w]: [p] can get to [q] having been served the reads [obs] from
    its snapshot, the last one first, and having written [w]. *)
Inductive reaches (p : prog) :
    prog → list (bytes * option bytes) → gmap bytes (option bytes) → Prop :=
| reach_start : reaches p p [] ∅
| reach_own key k obs w v :
   reaches p (Get key k) obs w → w !! key = Some v → reaches p (k v) obs w
| reach_get key k obs w v :
   reaches p (Get key k) obs w → w !! key = None → reaches p (k v) ((key, v) :: obs) w
| reach_fail key k obs w e : reaches p (Get key k) obs w → reaches p (Leave e) obs w
| reach_write key v q obs w : reaches p (Write key v q) obs w → reaches p q obs (<[key := v]> w).

(** Whenever the program commits writes, it wrote every key it read: then the
    write-write check of snapshot isolation validates all it read. *)
Definition self_validating (p : prog) : Prop :=
  ∀ obs w, reaches p Commit obs w → w ≠ ∅ → ∀ k v, (k, v) ∈ obs → is_Some (w !! k).

(** A property of contents that depends on the values of the keys only. *)
Abbreviation extensional P := (Proper (pointwise_relation bytes eq ==> iff) P).

(** Run alone, the program keeps [P]. *)
Definition keeps_alone (P : contents → Prop) (p : prog) : Prop :=
  ∀ m w, P m → run p m ∅ = Some w → P (after w m).

(** A program that never writes. *)
Fixpoint read_only (p : prog) : Prop :=
  match p with
  | Get key k => ∀ v, read_only (k v)
  | Write _ _ _ => False
  | _ => True
  end.

(** On every path, the keys read are among those written in the end: [rs] have been
    read and [ws] written so far. *)
Fixpoint covered (p : prog) (rs : list bytes) (ws : gset bytes) : Prop :=
  match p with
  | Get key k => ∀ v, covered (k v) (key :: rs) ws
  | Write key v p => covered p rs ({[key]} ∪ ws)
  | Commit => ws = ∅ ∨ ∀ key, key ∈ rs → key ∈ ws
  | Leave _ | Crash => True
  end.

Section programs.
Context `{Profile} {S : Type} `{VersionStore S} {Disk W : Type} `{Wal Disk W} `{HashIter}.

(** *** One attempt on the code *)

Inductive ended :=
| Committed (r : Result Timestamp.t)
| Left (e : TxnError.t).

Fixpoint exec (i : Inner.t S W) (tx : Transaction.t) (p : prog) :
    outcome (Inner.t S W * ended) :=
  match p with
  | Get key k =>
     '(i, tx, r) ← Transaction.get i tx key;
     match r with
     | Ok v => exec i tx (k v)
     | Err e => i ← Transaction.rollback i tx; Ret (i, Left e)
     end
  | Write key v p => exec i (Transaction.set_write tx key v) p
  | Commit => '(i, r) ← Transaction.commit i tx; Ret (i, Committed r)
  | Leave e => i ← Transaction.rollback i tx; Ret (i, Left e)
  | Crash => Panic
  end.

(** *** Concurrent programs *)

(** Client [n] runs [programs n], in a serializable transaction if
    [serializable n]. A state adds what each client has left to do. *)
Context (programs : nat → prog) (serializable : nat → bool).

Record t := mk { sys : System.t S W; rest : gmap nat prog }.

Inductive paction :=
| PBegin (n : nat)
| PNext (n : nat)
| PDrop (n : nat)
| PGcStart (m : nat)
| PGcEnd (m : nat).

(** What a client that wants to commit does next. *)
Definition commit_action (n : nat) (c : System.client) : System.action :=
  match System.c_phase c with
  | System.Active =>
     if bool_decide (Transaction.writes (System.c_tx c) = ∅)
     then System.ACommitEmpty n else System.AAlloc n
  | _ => default (System.ADrop n) (System.next_action n c)
  end.

Definition lift (x : t) (a : System.action) (rs : gmap nat prog) : outcome (option t) :=
  o ← System.act (sys x) a;
  Ret match o with Some s => Some (mk s rs) | None => None end.

(** The next call of client [n]. *)
Definition next (x : t) (n : nat) (c : System.client) (p : prog) : outcome (option t) :=
  match p with
  | Get key k =>
     '(_, _, r) ← Transaction.get (System.inner (sys x)) (System.c_tx c) key;
     lift x (System.AGet n key)
       (<[n := match r with Ok v => k v | Err e => Leave e end]> (rest x))
  | Write key v p => lift x (System.AWrite n key v) (<[n := p]> (rest x))
  | Commit => lift x (commit_action n c) (rest x)
  | Leave _ | Crash => lift x (System.ARollback n) (rest x)
  end.

Definition pact (x : t) (a : paction) : outcome (option t) :=
  match a with
  | PBegin n => lift x (System.ABegin n (serializable n)) (<[n := programs n]> (rest x))
  | PNext n =>
     match System.clients (sys x) !! n, rest x !! n with
     | Some c, Some p => next x n c p
     | _, _ => Ret None
     end
  | PDrop n => lift x (System.ARollback n) (rest x)
  | PGcStart m => lift x (System.AGcStart m) (rest x)
  | PGcEnd m => lift x (System.AGcEnd m) (rest x)
  end.

Fixpoint pacts (x : t) (l : list paction) : outcome (option t) :=
  match l with
  | [] => Ret (Some x)
  | a :: l => o ← pact x a; match o with Some x => pacts x l | None => Ret None end
  end.

Definition start (i : Inner.t S W) (h : History) : t := mk (System.start i h) ∅.

Context `{!StoreLaws S}.

Inductive pstep (x : t) : t → Prop :=
| pstep_act a x' : pact x a = Ret (Some x') → pstep x x'
| pstep_gc m wm st :
   System.collectors (sys x) !! m = Some wm →
   vs_gc_step wm (Inner.store (System.inner (sys x))) st →
   pstep x (mk (System.mk (Inner.set_store (System.inner (sys x)) st)
     (System.clients (sys x)) (System.collectors (sys x)) (System.hist (sys x))) (rest x)).

(** Runs from a database with history [h0], within the room of the counters. *)
Definition roomy (x x' : t) : Prop := System.room (sys x) 1 ∧ pstep x x'.

Definition reachable (h0 : History) (x : t) : Prop :=
  ∃ i hz, Inner.inv i [] ∅ h0 hz ∧ rtc roomy (start i h0) x.

(** The client is where its program can be, and has committed only where the
    program does. *)
Record follows (n : nat) (c : System.client) (q : prog) : Prop := {
  f_reaches : reaches (programs n) q (System.c_obs c) (Transaction.writes (System.c_tx c));
  f_commit : match System.c_phase c with System.Active | System.RolledBack => True | _ => q = Commit end;
  f_mode : is_Some (Transaction.reads (System.c_tx c)) ↔ serializable n = true;
  f_writes : is_Some (System.c_ts c) → Transaction.writes (System.c_tx c) ≠ ∅;
}.

Definition all_follow (x : t) : Prop :=
  ∀ n c, System.clients (sys x) !! n = Some c → ∃ q, rest x !! n = Some q ∧ follows n c q.

(** The commit of client [c] keeps [P], a property of the commits a snapshot sees,
    whenever they leave the keys it validated as it read them. *)
Definition commit_keeps (P : History → Prop) (c : System.client) : Prop :=
  ∀ g ts, System.c_ts c = Some ts →
    (∀ k v, (k, v) ∈ System.c_obs c → Transaction.validated (System.c_tx c) k → hist_now g k = v) →
    P g → P (g ++ [Inner.commit_of ts (Transaction.batch (System.c_tx c))]).

(** The actions of a client that is ending its transaction. *)
Definition ends (n : nat) (a : System.action) : Prop :=
  a ∈ [System.ARollback n; System.ACommitEmpty n; System.AAlloc n; System.AApply n;
       System.AAppend n; System.APublish n; System.ADrop n].

(** The database [i] reads as [m] after the batch of [p]. *)
Definition took_effect (hz : N) (live : list N) (m : contents) (p : prog)
    (w : gmap bytes (option bytes)) (i : Inner.t S W) : Prop :=
  ∃ w' h, run p m w = Some w' ∧ Inner.inv i live ∅ h hz ∧
    ∀ k, hist_view h k (Inner.read_ts i) = after w' m k.

(** What an attempt leaves behind, by how it ended. *)
Definition exec_post (h : History) (hz : N) (live : list N) (m : contents)
    (p : prog) (w : gmap bytes (option bytes)) (o : outcome (Inner.t S W * ended)) : Prop :=
  match o with
  | Panic => run p m w = None ∧ leaves p m w = None
  | Ret (i', Committed (Ok _ | Err (TxnError.Durability _))) => took_effect hz live m p w i'
  | Ret (i', Committed (Err (TxnError.Store _ _))) =>
     vs_may_fail (S := S) ∧ Inner.inv i' live ∅ h hz
  | Ret (_, Committed (Err (TxnError.Conflict _))) => False
  | Ret (i', Left e) =>
     (leaves p m w = Some e ∨ vs_may_fail (S := S) ∧ ∃ context detail,
        e = TxnError.Store context detail) ∧ Inner.inv i' live ∅ h hz
  end.

(** ** Lemmas: programs *)

Lemma after_empty m k : after ∅ m k = m k.
Proof using Type. unfold after. by rewrite lookup_empty. Qed.

Lemma run_Get key k m w : run (Get key k) m w = run (k (after w m key)) m w.
Proof using Type. done. Qed.

Lemma reaches_covered p q obs w :
  covered p [] ∅ → reaches p q obs w →
  ∃ rs, covered q rs (dom w) ∧ ∀ k v, (k, v) ∈ obs → k ∈ rs.
Proof using Type.
  clear programs serializable. intros Hp. induction 1 as [|key k obs w v _ IH Hk|
    key k obs w v _ IH Hk|key k obs w e _ IH|key v q obs w _ IH].
  - exists []. rewrite dom_empty_L. split; [done|]. set_solver.
  - destruct IH as (rs & Hc & Hrs). exists (key :: rs). split; [apply Hc|]. set_solver.
  - destruct IH as (rs & Hc & Hrs). exists (key :: rs). split; [apply Hc|].
    intros k' v' [[= -> ->]|?]%elem_of_cons; [by left|right; eauto].
  - destruct IH as (rs & Hc & Hrs). by exists rs.
  - destruct IH as (rs & Hc & Hrs). exists rs. rewrite dom_insert_L. by split.
Qed.

Lemma covered_self_validating p : covered p [] ∅ → self_validating p.
Proof using Type.
  clear programs serializable. intros Hp obs w Hr Hw k v Hobs.
  destruct (reaches_covered p Commit obs w Hp Hr) as (rs & [Hd|Hin] & Hrs).
  - by apply dom_empty_inv_L in Hd.
  - by eapply elem_of_dom, Hin, Hrs.
Qed.

Lemma read_only_reaches p q obs w : read_only p → reaches p q obs w → read_only q ∧ w = ∅.
Proof using Type.
  clear programs serializable. intros Hp. induction 1; cbn in *; naive_solver.
Qed.

Lemma read_only_self_validating p : read_only p → self_validating p.
Proof using Type.
  clear programs serializable. intros Hp obs w Hr Hw. by destruct (read_only_reaches p Commit obs w Hp Hr).
Qed.

Lemma read_only_run p m w w' : read_only p → run p m w = Some w' → w' = w.
Proof using Type.
  clear programs serializable. induction p; cbn; try naive_solver.
Qed.

Lemma read_only_keeps P p : extensional P → read_only p → keeps_alone P p.
Proof using Type.
  clear programs serializable. intros HP Hp m w Hm ->%read_only_run; [|done].
  revert Hm. apply HP. intros k. apply after_empty.
Qed.

(** ** Lemmas: programs run on the system *)

Lemma lift_Some x a rs x' :
  lift x a rs = Ret (Some x') → System.act (sys x) a = Ret (Some (sys x')) ∧ rest x' = rs.
Proof using Type.
  unfold lift. intros ([s|] & E & E')%bind_Ret; [|done]. injection E' as <-. done.
Qed.

Lemma pstep_step x x' : pstep x x' → System.step (sys x) (sys x').
Proof using Type.
  assert (∀ a rs, lift x a rs = Ret (Some x') → System.step (sys x) (sys x')) as Hlift.
  { intros a rs [E _]%lift_Some. by econstructor. }
  destruct 1 as [a x' E|m wm st]; [|by econstructor].
  destruct a as [n|n|n|m|m]; unfold pact in E; try by eapply Hlift.
  destruct (System.clients _ !! n) as [c|], (rest x !! n) as [p|]; try done.
  destruct p; unfold next in E; try by eapply Hlift.
  apply bind_Ret in E as ([[? ?] r] & _ & E). by eapply Hlift.
Qed.

Lemma reachable_system h0 x : reachable h0 x → System.reachable h0 (sys x).
Proof using Type.
  intros (i & hz & Hi & Hrun). exists i, hz. split; [done|].
  change (System.start i h0) with (sys (start i h0)).
  induction Hrun as [|x1 x2 x3 [Hr Hp%pstep_step] _ IH]; [done|by econstructor].
Qed.

(** As many steps as there is room for. *)
Lemma programs_bounded_reachable i h0 hz n x :
  Inner.inv i [] ∅ h0 hz → System.room (System.start i h0) (N.of_nat n) →
  nsteps pstep n (start i h0) x → reachable h0 x.
Proof using Type.
  intros Hi Hr Hn. exists i, hz. split; [done|]. pose proof (System.start_inv i h0 hz Hi) as Hs.
  change (System.start i h0) with (sys (start i h0)) in Hs, Hr.
  induction Hn as [x|n x x1 x2 Hp _ IH]; [done|]. pose proof (pstep_step _ _ Hp) as Hstep.
  replace (N.of_nat (Datatypes.S n)) with (N.of_nat n + 1)%N in Hr by lia.
  destruct (System.step_inv h0 (sys x) (N.of_nat n) Hs Hr _ Hstep) as [Hs1 Hr1].
  econstructor; [|by apply IH]. split; [|done]. destruct Hr. split; lia.
Qed.

Lemma all_follow_set x n c q i cs h :
  all_follow x → follows n c q →
  all_follow (mk (System.mk i (<[n := c]> (System.clients (sys x))) cs h) (<[n := q]> (rest x))).
Proof using Type.
  intros Hx Hc m c'. cbn. intros [[<- <-]|[? Hm]]%lookup_insert_Some.
  - exists q. by rewrite lookup_insert_eq.
  - destruct (Hx m c' Hm) as (q' & ? & ?). exists q'. by rewrite lookup_insert_ne.
Qed.

(** They leave its handle as it is. *)
Lemma act_ends n a (s s' : System.t S W) :
  ends n a → System.act s a = Ret (Some s') →
  ∃ c c', System.clients s !! n = Some c ∧ System.clients s' = <[n := c']> (System.clients s) ∧
    System.c_tx c' = System.c_tx c ∧ System.c_obs c' = System.c_obs c ∧
    (is_Some (System.c_ts c') → is_Some (System.c_ts c) ∨ Transaction.writes (System.c_tx c) ≠ ∅) ∧
    (a = System.ARollback n → System.c_phase c' = System.RolledBack).
Proof using Type.
  unfold ends. rewrite !elem_of_cons, elem_of_nil. intros Ha E. unfold System.in_phase in *.
  destruct_or?; try done; subst a; cbn in E; unfold System.in_phase in E;
    destruct (System.clients s !! n) as [[tx ph obs ots app]|] eqn:Hn; try done; cbn in E;
    destruct ph; try done; repeat (case_bool_decide || case_match || discriminate ||
      (apply bind_Ret in E as (? & ? & E)) || (injection E as <-)); try done;
    (eexists _, _; split_and!; [done|done|done|done|by auto|done]).
Qed.

Lemma new_fields (i i' : Inner.t S W) ser tx :
  Transaction.new i ser = Ret (i', tx) →
  Transaction.writes tx = ∅ ∧ Transaction.reads tx = if ser then Some ∅ else None.
Proof using Type.
  unfold Transaction.new. intros ([? ?] & _ & E)%bind_Ret. injection E as <- <-. done.
Qed.

Lemma get_fields (i i' : Inner.t S W) tx tx' key r :
  Transaction.get i tx key = Ret (i', tx', r) →
  Transaction.writes tx' = Transaction.writes tx ∧
  (is_Some (Transaction.reads tx') ↔ is_Some (Transaction.reads tx)) ∧
  (∀ v, Transaction.writes tx !! key = Some v → r = Ok v).
Proof using Type.
  unfold Transaction.get. destruct (Transaction.writes tx !! key) as [v|] eqn:Hk.
  { intros [= <- <- <-]. split_and!; [done|done|]. by intros ? [= <-]. }
  intros ([? r'] & _ & E)%bind_Ret. destruct r'; injection E as <- <- <-; [|done].
  split_and!; [done| |done]. cbn. by rewrite fmap_is_Some.
Qed.

Lemma follow_ends x n a s' c q :
  all_follow x → System.act (sys x) a = Ret (Some s') → ends n a →
  System.clients (sys x) !! n = Some c → rest x !! n = Some q →
  (a = System.ARollback n ∨ q = Commit) → all_follow (mk s' (rest x)).
Proof using Type.
  intros Hx E He Hn Hq Ha.
  destruct (act_ends n a (sys x) s' He E) as (c0 & c' & Hn0 & Hcs & Htx & Hobs & Hts & Hroll).
  rewrite Hn in Hn0. injection Hn0 as <-.
  destruct (Hx n c Hn) as (q' & Hq' & [Hr _ Hm Hw]). rewrite Hq in Hq'. injection Hq' as <-.
  assert (follows n c' q) as Hc'.
  { split; rewrite ?Htx, ?Hobs; [done| |done|by intros [?|?]%Hts; [apply Hw|]]. destruct Ha as [-> | ->]; [by rewrite Hroll|].
    by destruct (System.c_phase c'). }
  intros m cm Hm'. cbn in *. rewrite Hcs in Hm'.
  apply lookup_insert_Some in Hm' as [[<- <-]|[_ Hm']]; [by exists q|by apply Hx].
Qed.

Lemma follow_begin x n x' :
  all_follow x →
  lift x (System.ABegin n (serializable n)) (<[n := programs n]> (rest x)) = Ret (Some x') →
  all_follow x'.
Proof using Type.
  intros Hx [E Hrest]%lift_Some. destruct x' as [s' rs]. cbn in Hrest, E. subst rs.
  destruct (System.clients (sys x) !! n); [done|].
  apply bind_Ret in E as ([i tx] & [Hw Hr]%new_fields & E). injection E as <-.
  apply all_follow_set; [done|]. split; cbn; [rewrite Hw; constructor|done| |by intros []].
  rewrite Hr. by destruct (serializable n).
Qed.

Lemma follow_get x n c key k x' :
  all_follow x → System.clients (sys x) !! n = Some c → rest x !! n = Some (Get key k) →
  next x n c (Get key k) = Ret (Some x') → all_follow x'.
Proof using Type.
  intros Hx Hn Hq E. unfold next in E.
  apply bind_Ret in E as ([[i tx] r] & Hget & [E Hrest]%lift_Some).
  destruct x' as [s' rs]. cbn in Hrest, E. subst rs.
  unfold System.in_phase in E. rewrite Hn in E. cbn in E.
  destruct (System.is_active (System.c_phase c)) eqn:Hph; [|done].
  rewrite Hget in E. injection E as <-.
  destruct (Hx n c Hn) as (q & Hq' & [Hr _ Hm Hwr]). rewrite Hq in Hq'. injection Hq' as <-.
  destruct (get_fields _ _ _ _ _ _ Hget) as (Hw & Hreads & Hown).
  apply all_follow_set; [done|]. split; cbn; [|done|by rewrite Hreads|by rewrite Hw]. rewrite Hw.
  destruct (Transaction.writes (System.c_tx c) !! key) as [v|] eqn:Hk.
  - rewrite (Hown v eq_refl). by eapply reach_own.
  - destruct r; [by eapply reach_get|by eapply reach_fail].
Qed.

Lemma follow_write x n c key v q x' :
  all_follow x → System.clients (sys x) !! n = Some c → rest x !! n = Some (Write key v q) →
  next x n c (Write key v q) = Ret (Some x') → all_follow x'.
Proof using Type.
  intros Hx Hn Hq [E Hrest]%lift_Some. destruct x' as [s' rs]. cbn in Hrest, E. subst rs.
  unfold System.in_phase in E. rewrite Hn in E. cbn in E.
  destruct (System.is_active (System.c_phase c)) eqn:Hph; [|done]. injection E as <-.
  destruct (Hx n c Hn) as (q' & Hq' & [Hr _ Hm _]). rewrite Hq in Hq'. injection Hq' as <-.
  apply all_follow_set; [done|]. split; cbn; [by apply reach_write|done|done|].
  intros _. apply insert_non_empty.
Qed.

(** What a client that wants to commit does is one of those actions. *)
Lemma commit_action_ends n c :
  ends n (commit_action n c) ∧ commit_action n c ≠ System.ARollback n.
Proof using Type.
  clear programs serializable. unfold ends, commit_action, System.next_action.
  destruct (System.c_phase c); try case_bool_decide; cbn; (split; [set_solver|done]).
Qed.

Lemma pstep_follow x x' : all_follow x → pstep x x' → all_follow x'.
Proof using Type.
  intros Hx. destruct 1 as [a x' E|m wm st]; [|done].
  assert (∀ n, lift x (System.ARollback n) (rest x) = Ret (Some x') → all_follow x') as Hroll.
  { intros n [E' Hrest]%lift_Some. destruct x' as [s' rs]. cbn in *. subst rs.
    assert (ends n (System.ARollback n)) as He by (unfold ends; set_solver).
    destruct (act_ends n _ (sys x) s' He E') as (c & _ & Hn & _). destruct (Hx n c Hn) as (q & Hq & _).
    by eapply follow_ends; eauto. }
  destruct a as [n|n|n|m|m]; unfold pact in E; [by eapply follow_begin| |by eapply Hroll|..].
  2, 3: apply lift_Some in E as [E Hrest]; destruct x' as [s' rs]; cbn in *; subst rs;
    by injection E as <-.
  destruct (System.clients (sys x) !! n) as [c|] eqn:Hn, (rest x !! n) as [p|] eqn:Hp; try done.
  destruct p; [by eapply follow_get|by eapply follow_write| |by eapply Hroll|by eapply Hroll].
  apply lift_Some in E as [E Hrest]. destruct x' as [s' rs]. cbn in *. subst rs.
  destruct (commit_action_ends n c) as [He _]. by eapply follow_ends; eauto.
Qed.

Lemma reachable_follow h0 x : reachable h0 x → all_follow x.
Proof using Type.
  intros (i & hz & _ & Hrun).
  assert (all_follow (start i h0)) as Hs by (intros m c; cbn; by rewrite lookup_empty).
  induction Hrun as [|x1 x2 x3 [_ Hp] _ IH]; [done|]. eauto using pstep_follow.
Qed.

(** ** Lemmas: the rule *)

(** A program that reads what [m] holds does what it does alone on [m]. *)
Lemma reaches_run p q obs w m :
  reaches p q obs w → (∀ k v, (k, v) ∈ obs → m k = v) →
  run p m ∅ = run q m w ∨ ∃ e, q = Leave e.
Proof using Type.
  clear programs serializable. intros Hr Hm. induction Hr as [|key k obs w v _ IH Hk|
    key k obs w v _ IH Hk|key k obs w e _ IH|key v q obs w _ IH]; [by left|..].
  - left. destruct (IH Hm) as [->|[? ?]]; [|done]. cbn. unfold after. by rewrite Hk.
  - left. destruct IH as [->|[? ?]]; [intros k' v' ?; apply Hm; by right| |done].
    cbn. unfold after. rewrite Hk. cbn. by rewrite (Hm key v ltac:(by left)).
  - right. by exists e.
  - left. by destruct (IH Hm) as [->|[? ?]].
Qed.

(** The commits a snapshot sees, one by one in the order they were applied: each
    finds the keys it validated as its transaction read them. *)
Lemma visible_rule h0 (s : System.t S W) t (P : History → Prop) :
  System.reachable h0 s → P (visible t h0) →
  (∀ n c, System.clients s !! n = Some c → System.c_applied c = true → commit_keeps P c) →
  P (visible t (System.hist s)).
Proof using Type.
  clear programs serializable. intros Hreach H0' Hkeep.
  pose proof (System.reachable_inv h0 s Hreach) as Hs.
  apply System.reachable_history in Hreach as [l Hl].
  pose proof (System.inv_history _ _ Hs) as Hwf. pose proof (hwf_unique _ Hwf) as Hnd.
  enough (∀ h1 h2, l = h1 ++ h2 → P (visible t (h0 ++ h1))) as Hall.
  { rewrite Hl. apply (Hall l []). by rewrite app_nil_r. }
  induction h1 as [|e h1 IH] using rev_ind; intros h2 El; [by rewrite app_nil_r|].
  rewrite <-app_assoc in El. specialize (IH ([e] ++ h2) El).
  rewrite app_assoc, visible_snoc. case_decide as Ht; [|by rewrite app_nil_r].
  assert (System.hist s = (h0 ++ h1) ++ e :: h2) as Ehist by (by rewrite Hl, El, <-app_assoc).
  destruct (System.i_hist _ _ Hs e) as [He|(n & c & ts & Hn & Hts & Ha & ->)].
  { rewrite Ehist. set_solver. }
  { rewrite Ehist, fmap_app in Hnd. apply NoDup_app in Hnd as (_ & Hdis & _).
    exfalso. apply (Hdis (ts_of e)); [|by left]. apply list_elem_of_fmap_2. set_solver. }
  apply (Hkeep n c Hn Ha); [done| |done]. intros k v Hobs Hval.
  destruct (System.i_clients _ _ Hs n c Hn). destruct (co_applied ts Hts Ha) as (g1 & g2 & Eg & Hv & Haft).
  assert (g1 = h0 ++ h1) as ->.
  { rewrite Eg in Ehist. apply NoDup_fmap_1 in Hnd. rewrite Eg in Hnd. by eapply split_unique. }
  rewrite hist_now_visible, (co_obs k v Hobs), Eg, (hist_view_suffix (h0 ++ h1)) by done.
  pose proof (Haft _ ltac:(by left)) as Hread. apply hist_view_between; [unfold ts_of in *; lia|].
  intros c' Hc' Hk Hlt. specialize (Hv k Hval). rewrite hist_changed_false in Hv.
  specialize (Hv c' Hc' Hk). lia.
Qed.

(** A commit of a client is what its program does alone, wherever the keys it
    validated are as it read them. *)
Lemma commit_runs_alone h0 x n c g :
  reachable h0 x → System.clients (sys x) !! n = Some c → System.c_applied c = true →
  serializable n = true ∨ self_validating (programs n) →
  (∀ k v, (k, v) ∈ System.c_obs c → Transaction.validated (System.c_tx c) k → hist_now g k = v) →
  run (programs n) (hist_now g) ∅ = Some (Transaction.writes (System.c_tx c)) ∧
  Transaction.writes (System.c_tx c) ≠ ∅.
Proof using Type.
  intros Hreach Hn Ha Hmode Hval.
  pose proof (System.reachable_inv h0 _ (reachable_system h0 x Hreach)) as Hs.
  destruct (System.i_clients _ _ Hs n c Hn).
  destruct (reachable_follow h0 x Hreach n c Hn) as (q & _ & [Hr Hq Hm Hw]).
  assert (q = Commit) as ->.
  { unfold System.phase_ok in co_phase. rewrite Ha in co_phase.
    destruct (System.c_phase c); [by destruct co_phase|done..|by destruct co_phase]. }
  specialize (Hw (co_ts Ha)). split; [|done].
  destruct (reaches_run _ _ _ _ (hist_now g) Hr) as [->|[? ?]]; [|done..].
  intros k v Hobs. apply Hval; [done|]. destruct Hmode as [Hser|Hself].
  - right. apply Hm in Hser as [set Hset]. rewrite Hset. by eapply co_tracked.
  - left. by eapply Hself.
Qed.

Lemma hist_now_commit g ts tx k :
  hist_now (g ++ [Inner.commit_of ts (Transaction.batch tx)]) k =
    after (Transaction.writes tx) (hist_now g) k.
Proof using Type.
  clear programs serializable. rewrite hist_now_snoc, Transaction.batch_map. unfold after.
  by destruct (_ !! k).
Qed.

(** The commit of a program keeps what the program keeps alone. *)
Lemma program_commit_keeps h0 x n c P :
  extensional P → reachable h0 x → System.clients (sys x) !! n = Some c →
  System.c_applied c = true →
  keeps_alone P (programs n) → serializable n = true ∨ self_validating (programs n) →
  commit_keeps (λ g, P (hist_now g)) c.
Proof using Type.
  intros HP Hreach Hn Ha Hkeep Hmode g ts Hts Hval Hg.
  destruct (commit_runs_alone h0 x n c g Hreach Hn Ha Hmode Hval) as [Hrun _].
  specialize (Hkeep _ _ Hg Hrun). revert Hkeep. apply HP. intros k. by rewrite hist_now_commit.
Qed.

(** The rule, for the clients of the library. *)
Lemma keeps_invariant h0 x P t0 :
  reachable h0 x → extensional P →
  (∀ n, keeps_alone P (programs n)) →
  (∀ n, serializable n = true ∨ self_validating (programs n)) →
  (∀ t, Timestamp.le t0 t → P (λ k, hist_view h0 k t)) →
  (∀ t, Timestamp.le t0 t → P (λ k, hist_view (System.hist (sys x)) k t)) ∧
  ∀ n c, System.clients (sys x) !! n = Some c →
    Timestamp.le t0 (Transaction.read_timestamp (System.c_tx c)) →
    ∃ m, P m ∧ ∀ k v, (k, v) ∈ System.c_obs c → m k = v.
Proof using Type.
  intros Hreach HP Hkeep Hmode Hinit.
  assert (Hall : ∀ t, Timestamp.le t0 t → P (λ k, hist_view (System.hist (sys x)) k t)).
  { intros t Ht. assert (P (hist_now (visible t (System.hist (sys x))))) as HP'.
    { apply (visible_rule h0 (sys x) t (λ g, P (hist_now g))); [by apply reachable_system|..].
      - specialize (Hinit t Ht). revert Hinit. apply HP. intros k. by rewrite hist_now_visible.
      - intros n c Hn Ha. by eapply program_commit_keeps. }
    revert HP'. apply HP. intros k. by rewrite hist_now_visible. }
  split; [done|]. intros n c Hn Ht. eexists. split; [by apply (Hall _ Ht)|]. intros k v Hobs.
  pose proof (System.reachable_inv h0 _ (reachable_system h0 x Hreach)) as Hs.
  symmetry. eapply System.co_obs; [by eapply System.i_clients|done].
Qed.

(** ** Lemmas: a program alone on the code *)

(** Dropping the transaction of an attempt. *)
Lemma exec_rollback i live h hz m p tx e :
  Inner.inv i (Timestamp.get (Transaction.read_timestamp tx) :: live) ∅ h hz →
  leaves p m (Transaction.writes tx) = Some e ∨ vs_may_fail (S := S) ∧
    (∃ context detail, e = TxnError.Store context detail) →
  exec_post h hz live m p (Transaction.writes tx)
    (i' ← Transaction.rollback i tx; Ret (i', Left e)).
Proof using Type.
  intros Hi Hrun. destruct (Transaction.rollback_inv i live ∅ h hz tx Hi) as (i' & -> & Hi' & _). done.
Qed.

(** An applied batch is what the program commits. *)
Lemma commit_took_effect (i i' : Inner.t S W) live h hz tx :
  Inner.inv i (Timestamp.get (Transaction.read_timestamp tx) :: live) ∅ h hz →
  Inner.inv i' live ∅ (h ++ [Inner.commit_of
    (Timestamp.from_raw (Oracle.next_ts (Inner.oracle i))) (Transaction.batch tx)]) hz →
  Oracle.next_ts (Inner.oracle i') = (Oracle.next_ts (Inner.oracle i) + 1)%N →
  took_effect hz live (λ k, hist_view h k (Inner.read_ts i)) Commit (Transaction.writes tx) i'.
Proof using Type.
  intros Hi Hi' Hn. eexists _, _. split_and!; [done|exact Hi'|]. intros k.
  rewrite hist_view_snoc. unfold after, committed_view.
  change (list_to_map _) with (writes_map (Inner.commit_of
    (Timestamp.from_raw (Oracle.next_ts (Inner.oracle i))) (Transaction.batch tx))).
  rewrite Transaction.batch_map.
  pose proof (Db.quiet_watermark _ _ _ _ Hi). pose proof (Db.quiet_watermark _ _ _ _ Hi').
  change (Inner.watermark i') with (Timestamp.get (Inner.read_ts i')) in *.
  destruct (_ !! k); cbn; [case_ts; [done|cbn in *; lia]|]. eapply Db.quiet_view; [done|lia].
Qed.

Lemma exec_committed i live h hz tx :
  Inner.inv i (Timestamp.get (Transaction.read_timestamp tx) :: live) ∅ h hz →
  Transaction.read_timestamp tx = Inner.read_ts i →
  (Oracle.next_ts (Inner.oracle i) + 2 < u64_modulus)%N →
  exec_post h hz live (λ k, hist_view h k (Inner.read_ts i)) Commit (Transaction.writes tx)
    ('(i', r) ← Transaction.commit i tx; Ret (i', Committed r)).
Proof using Type.
  intros Hi Hts Hroom. destruct (decide (Transaction.writes tx = ∅)) as [Hw|Hw].
  { destruct (Transaction.commit_empty_inv i live ∅ h hz tx Hi Hw)
      as (i' & -> & Hi' & _ & _ & _ & Hread). run. cbn.
    exists (Transaction.writes tx), h. split_and!; [done..|]. intros k.
    unfold after. by rewrite Hw, lookup_empty, Hread. }
  destruct (Transaction.commit_inv i live ∅ h hz tx Hi Hroom Hw)
    as (i' & r & -> & Hn & _ & _ & Hpost & _). run. cbn. unfold Inner.commit_post in Hpost.
  destruct r as [ts|[n| |]]; [|destruct Hpost as (_ & _ & k & _ & Hch & _)|..].
  - destruct Hpost as (-> & Hi' & _). by eapply commit_took_effect.
  - rewrite (Db.quiet_unchanged _ _ _ _ _ _ Hi) in Hch; [done|]. by rewrite Hts.
  - by destruct Hpost as (? & _ & ?).
  - destruct Hpost as (Hi' & _). by eapply commit_took_effect.
Qed.

Lemma exec_spec p : ∀ i live h hz tx m,
  Inner.inv i (Timestamp.get (Transaction.read_timestamp tx) :: live) ∅ h hz →
  Transaction.read_timestamp tx = Inner.read_ts i →
  (∀ k, m k = hist_view h k (Inner.read_ts i)) →
  (Oracle.next_ts (Inner.oracle i) + 2 < u64_modulus)%N →
  exec_post h hz live m p (Transaction.writes tx) (exec i tx p).
Proof using Type.
  induction p as [key k IH|key v p IH| |e|]; intros i live h hz tx m Hi Hts Hm Hroom.
  - destruct (Transaction.get_inv i _ _ _ _ tx key Hi) as (i' & tx' & r & E & Hi' & Ho & _ & Ha & Hw & Hr);
      [by left|]. cbn [exec]. rewrite E. run.
    assert (Hread : Inner.read_ts i' = Inner.read_ts i) by (unfold Inner.read_ts; by rewrite Ho).
    assert (Hts' : Transaction.read_timestamp tx' = Transaction.read_timestamp tx)
      by (unfold Transaction.read_timestamp; by rewrite Ha).
    rewrite <-Hw. destruct r as [v|[]]; try done.
    + change (run (Get key k) m (Transaction.writes tx')) with
        (run (k (after (Transaction.writes tx') m key)) m (Transaction.writes tx')).
      replace v with (after (Transaction.writes tx') m key).
      2:{ destruct Hr as [-> _]. unfold after, Transaction.view. rewrite Hw.
          destruct (_ !! key); [done|]. cbn. by rewrite Hm, Hts. }
      apply IH; [by rewrite Hts'|by rewrite Hts', Hread|by rewrite Hread|by rewrite Ho].
    + apply exec_rollback; [by rewrite Hts'|]. right. split; [apply Hr|by eexists _, _].
  - apply (IH i live h hz (Transaction.set_write tx key v) m); done.
  - cbn [exec]. pose proof (exec_committed i live h hz tx Hi Hts Hroom) as Hc.
    destruct (_ ≫= _) as [[i' [[|[]]|]]|]; try done.
    all: destruct Hc as (w' & h' & ? & ? & Hv); exists w', h'; split_and!; [done..|]; intros k';
      rewrite Hv; unfold after; by rewrite Hm.
  - cbn [exec]. apply exec_rollback; [done|by left].
  - done.
Qed.

(** From a new transaction. *)
Lemma exec_alone i live h hz ser p :
  Inner.inv i live ∅ h hz → Inner.room i live 2 →
  exec_post h hz live (λ k, hist_view h k (Inner.read_ts i)) p ∅
    ('(i1, tx) ← Transaction.new i ser; exec i1 tx p).
Proof using Type.
  intros Hi [Hr1 Hr2].
  destruct (Transaction.new_tx_inv i live ∅ h hz ser Hi) as
    (i1 & tx & -> & Hi1 & Hts & Hw & _ & _ & _ & Hn & Hread); [lia|]. run. rewrite <-Hw.
  apply exec_spec; [done|by rewrite Hread|by rewrite Hread|rewrite Hn; lia].
Qed.

(** ** Properties *)


(** A program alone on the code does what it does on the map. Begun and run on a
    database with nothing in flight, an attempt panics only where the program
    does; it is never refused for a conflict; if its commit succeeds, and also if it
    reports an error of the log, the database afterwards reads as the map after the
    batch the program commits there; if the program leaves, it does so with the
    error it leaves with there and nothing changed; any other error is one of a
    store that may fail, and nothing changed. *)
Theorem exec_runs_alone i live h hz ser p :
  Inner.inv i live ∅ h hz → Inner.room i live 2 →
  exec_post h hz live (λ k, hist_view h k (Inner.read_ts i)) p ∅
    ('(i1, tx) ← Transaction.new i ser; exec i1 tx p).
Proof using Type. apply exec_alone. Qed.

End programs.
#[global] Arguments t : clear implicits.

End Program.
