(* ===== verification/Retry.v ===== *)
(** * Retry loops under a fair scheduler

    Client code retries: [Db::put] and [Db::delete] of [src/db.rs], [transfer] and
    [increment_many] of the examples are loops that begin a new transaction while
    the commit is refused with a retryable error. Module [Retry] runs any number of
    threads, each a sequence of such loops, on the interleaved system: [turn] is the
    next step of one thread. Nothing bounds the number of attempts; but in every
    fair run, in which each thread keeps getting turns, every loop ends. *)

From S2P Require Import Prelude RustStd Types StoreTrait CommitLog OracleState History.
From S2P Require Import Coordinator Handles Database System Conflicts Programs.

Module Retry.

(** ** Definitions *)

(** A thread: the number of the attempt it is at, and how many transactions it has
    to commit after the present one. *)
Record thread := mkThread { attempt : nat; left : nat }.

Section retry.
Context `{Profile} {S : Type} `{VersionStore S} {Disk W : Type} `{Wal Disk W} `{HashIter}.

(** Thread [w] of [threads] commits the transactions [body w 0], [body w 1] and so on,
    [count w] of them. *)
Context (threads : nat) (body : nat → nat → Program.prog) (ser : nat → bool) (count : nat → nat).

(** Attempt [k] of thread [w] is a client of its own. Attempts are numbered so that
    their number tells which transaction they are at: the next attempt at the same
    one is [count w] further on, the first attempt at the next one has the next
    number. *)
Definition id (w k : nat) : nat := w + k * threads.
Definition job (w k : nat) : nat := k mod count w.
Definition programs (n : nat) : Program.prog :=
  body (n mod threads) (job (n mod threads) (n / threads)).
Definition serializable (n : nat) : bool := ser (n mod threads).

Record t := mk { prog_state : Program.t S W; table : gmap nat thread }.

Definition sys (x : t) : System.t S W := Program.sys (prog_state x).

Definition start (i : Inner.t S W) (h : History) : t := mk (Program.start i h) ∅.

(** [let mut tx = self.begin()]. *)
Definition begin (x : t) (w k l : nat) : outcome t :=
  o ← Program.pact programs serializable (prog_state x) (Program.PBegin (id w k));
  Ret match o with Some p => mk p (<[w := mkThread k l]> (table x)) | None => x end.

(** A call inside the transaction. *)
Definition advance (x : t) (n : nat) : outcome t :=
  o ← Program.pact programs serializable (prog_state x) (Program.PNext n);
  Ret match o with Some p => mk p (table x) | None => x end.

(** The next step of thread [w]: [continue] on a retryable error, the next loop
    after a success, nothing when it has returned. *)
Definition turn (x : t) (w : nat) : outcome t :=
  match table x !! w with
  | None => match count w with O => Ret x | Datatypes.S l => begin x w 0 l end
  | Some (mkThread k l) =>
     match System.c_phase <$> System.clients (sys x) !! id w k with
     | Some (System.Finished (Ok _)) =>
        match l with O => Ret x | Datatypes.S l => begin x w (Datatypes.S k) l end
     | Some (System.Finished (Err e)) =>
        if TxnError.is_retryable e then begin x w (k + count w) l else Ret x
     | Some System.RolledBack | None => Ret x
     | Some _ => advance x (id w k)
     end
  end.

(** The thread has returned: it has committed all it had to, or has stopped at an
    error that is not retryable. *)
Definition returned (x : t) (w : nat) : bool :=
  match table x !! w with
  | None => count w =? 0
  | Some (mkThread k l) =>
     match System.c_phase <$> System.clients (sys x) !! id w k with
     | Some (System.Finished (Ok _)) => l =? 0
     | Some (System.Finished (Err e)) => negb (TxnError.is_retryable e)
     | Some System.RolledBack => true
     | _ => false
     end
  end.

Context `{!StoreLaws S}.

(** A step is a turn of a thread or a piece of a collection. *)
Inductive rstep (x : t) : option nat → t → Prop :=
| rstep_turn w x' : w < threads → turn x w = Ret x' → rstep x (Some w) x'
| rstep_gc_start m p :
   Program.pact programs serializable (prog_state x) (Program.PGcStart m) = Ret (Some p) →
   rstep x None (mk p (table x))
| rstep_gc_end m p :
   Program.pact programs serializable (prog_state x) (Program.PGcEnd m) = Ret (Some p) →
   rstep x None (mk p (table x))
| rstep_gc m wm st :
   System.collectors (sys x) !! m = Some wm →
   vs_gc_step wm (Inner.store (System.inner (sys x))) st →
   rstep x None (mk (Program.mk (System.mk (Inner.set_store (System.inner (sys x)) st)
     (System.clients (sys x)) (System.collectors (sys x)) (System.hist (sys x)))
     (Program.rest (prog_state x))) (table x)).

(** A run is an infinite sequence of steps within the room of the counters; it is
    fair when every thread gets a turn again and again. *)
Record run (h0 : History) (r : nat → t) (who : nat → option nat) : Prop := {
  run_start : ∃ i hz, Inner.inv i [] ∅ h0 hz ∧ r 0 = start i h0;
  run_step j : rstep (r j) (who j) (r (Datatypes.S j));
  run_room j : System.room (sys (r j)) 1;
  run_fair w j : w < threads → ∃ j', j ≤ j' ∧ who j' = Some w;
}.

(** *** The invariant *)

Record inv (h0 : History) (x : t) : Prop := {
  r_sys : System.inv h0 (sys x);
  r_follow : Program.all_follow programs serializable (prog_state x);
  r_blamed : Evolution.all_blamed (sys x);
  r_clients n : is_Some (System.clients (sys x) !! n) →
    ∃ th, table x !! (n mod threads) = Some th ∧ n / threads ≤ attempt th;
  r_table w th : table x !! w = Some th → w < threads ∧
    is_Some (System.clients (sys x) !! id w (attempt th)) ∧
    ∀ k c, k < attempt th → System.clients (sys x) !! id w k = Some c →
      Evolution.ended (System.c_phase c) = true;
  r_job w th : table x !! w = Some th → job w (attempt th) + left th + 1 = count w;
}.

(** The present attempt of a thread. *)
Definition current (x : t) (w k l : nat) (c : System.client) : Prop :=
  table x !! w = Some (mkThread k l) ∧ System.clients (sys x) !! id w k = Some c.

(** Transactions thread [w] has still to complete. *)
Definition settled (c : System.client) : bool :=
  System.c_applied c || match System.c_phase c with System.Finished (Ok _) => true | _ => false end.

Definition owed (x : t) (w : nat) : nat :=
  match table x !! w with
  | None => count w
  | Some (mkThread k l) =>
     l + match System.clients (sys x) !! id w k with
         | Some c => if settled c then 0 else 1
         | None => 0
         end
  end.

Definition total (x : t) : nat := sum_list (owed x <$> seq 0 threads).

(** Calls a client inside [commit] has left. *)
Definition todo (p : System.phase) : nat :=
  match p with System.Active => 5 | p => System.remaining p end.

(** One call brings a client closer to the end of its attempt. *)
Inductive nears (c : System.client) : Program.prog → System.client → Program.prog → Prop :=
| near_get key k v c' :
   System.c_phase c' = System.Active →
   Transaction.writes (System.c_tx c') = Transaction.writes (System.c_tx c) →
   match Transaction.writes (System.c_tx c) !! key with
   | Some v' => v = v' ∧ System.c_obs c' = System.c_obs c
   | None => System.c_obs c' = (key, v) :: System.c_obs c
   end → nears c (Program.Get key k) c' (k v)
| near_fail key k e c' :
   System.c_phase c' = System.Active → vs_may_fail (S := S) →
   nears c (Program.Get key k) c' (Program.Leave e)
| near_write key v p c' :
   System.c_phase c' = System.Active →
   Transaction.writes (System.c_tx c') = <[key := v]> (Transaction.writes (System.c_tx c)) →
   System.c_obs c' = System.c_obs c → nears c (Program.Write key v p) c' p
| near_leave q c' :
   (∃ e, q = Program.Leave e) ∨ q = Program.Crash →
   System.c_phase c' = System.RolledBack → System.c_tx c' = System.c_tx c →
   System.c_obs c' = System.c_obs c → nears c q c' q
| near_commit c' :
   todo (System.c_phase c') < todo (System.c_phase c) → System.c_phase c' ≠ System.RolledBack →
   System.c_tx c' = System.c_tx c → System.c_obs c' = System.c_obs c →
   nears c Program.Commit c' Program.Commit.

(** Thread [w] is about to begin attempt [k], with [l] transactions after it: its
    first one, one more after a conflict, or the one after a success. *)
Definition begins (x : t) (w k l : nat) : Prop :=
  table x !! w = None ∧ k = 0 ∧ count w = Datatypes.S l ∨
  ∃ k0 c r, k0 < k ∧ System.c_phase c = System.Finished r ∧
    match r with
    | Ok _ => k = Datatypes.S k0 ∧ current x w k0 (Datatypes.S l) c
    | Err e => k = k0 + count w ∧ current x w k0 l c ∧ TxnError.is_retryable e = true
    end.

(** What a turn of thread [w] is: nothing, a new attempt, or a call of the present one. *)
Inductive turns (x : t) (w : nat) (x' : t) : Prop :=
| turn_idle : x' = x → returned x w = true → turns x w x'
| turn_begin k l tx :
   begins x w k l →
   System.clients (sys x) !! id w k = None →
   System.clients (sys x') = <[id w k := System.mkClient tx System.Active [] None false]>
     (System.clients (sys x)) →
   Program.rest (prog_state x') = <[id w k := body w (job w k)]> (Program.rest (prog_state x)) →
   table x' = <[w := mkThread k l]> (table x) →
   Transaction.read_timestamp tx = Inner.read_ts (System.inner (sys x)) ∧
     Transaction.writes tx = ∅ →
   System.hist (sys x') = System.hist (sys x) →
   Program.pstep programs serializable (prog_state x) (prog_state x') →
   turns x w x'
| turn_advance k l c c' q q' :
   current x w k l c → Program.rest (prog_state x) !! id w k = Some q →
   Evolution.ended (System.c_phase c) = false →
   Program.pstep programs serializable (prog_state x) (prog_state x') →
   System.clients (sys x') = <[id w k := c']> (System.clients (sys x)) →
   Program.rest (prog_state x') = <[id w k := q']> (Program.rest (prog_state x)) →
   table x' = table x → Evolution.evolves (sys x) (sys x') c c' → nears c q c' q' →
   turns x w x'.

(** Nothing of thread [w] changed. *)
Record same (x x' : t) (w : nat) : Prop := {
  same_table : table x' !! w = table x !! w;
  same_clients k : System.clients (sys x') !! id w k = System.clients (sys x) !! id w k;
  same_rest k :
    Program.rest (prog_state x') !! id w k = Program.rest (prog_state x) !! id w k;
}.

(** No commit below [N] is in flight, nor will be. *)
Definition quiet_below (N : N) (x : t) (w : nat) : Prop :=
  ∀ k c ts, System.clients (sys x) !! id w k = Some c → System.pending c = Some ts → (N ≤ ts)%N.

(** ** Lemmas: attempts as clients *)

Lemma id_mod w k : w < threads → id w k mod threads = w.
Proof using Type. intros Hw. unfold id. rewrite Nat.Div0.mod_add. by apply Nat.mod_small. Qed.

Lemma id_div w k : w < threads → id w k / threads = k.
Proof using Type.
  intros Hw. unfold id. rewrite Nat.div_add by lia. by rewrite Nat.div_small.
Qed.

Lemma id_inj w k w' k' : w < threads → w' < threads → id w k = id w' k' → w = w' ∧ k = k'.
Proof using Type.
  intros Hw Hw' E. pose proof (id_mod w k Hw) as Hm. pose proof (id_div w k Hw) as Hd.
  rewrite E, id_mod in Hm by done. by rewrite E, id_div in Hd.
Qed.

Lemma id_split n : n = id (n mod threads) (n / threads).
Proof using Type. unfold id. pose proof (Nat.div_mod_eq n threads). lia. Qed.

(** ** Lemmas: one call *)

Implicit Types p : Program.t S W.

Lemma lift_cases p a rs o :
  Program.lift p a rs = Ret o →
  match o with
  | Some p' => System.act (Program.sys p) a = Ret (Some (Program.sys p')) ∧ Program.rest p' = rs
  | None => System.act (Program.sys p) a = Ret None
  end.
Proof using Type.
  unfold Program.lift. intros ([s|] & -> & E)%bind_Ret; injection E as <-; done.
Qed.

(** What a client inside [commit] does next is enabled. *)
Lemma commit_enabled s n (c : System.client) :
  System.clients s !! n = Some c → System.phase_ok c →
  Evolution.ended (System.c_phase c) = false →
  System.act (S := S) (W := W) s (Program.commit_action n c) ≠ Ret None.
Proof using Type.
  intros Hn Hok Hend E. unfold Program.commit_action, System.phase_ok in *.
  destruct c as [tx ph obs ots app]; cbn in *. destruct ph; try done.
  - case_bool_decide as Hw; cbn in E; unfold System.in_phase in E; rewrite Hn in E; cbn in E.
    + by rewrite bool_decide_true in E.
    + by rewrite bool_decide_false in E.
  - destruct Hok as [[ts ->] _]. cbn in E. rewrite Hn in E. by apply bind_Ret in E as ([? ?] & _ & E).
  - destruct Hok as [[ts ->] _]. cbn in E. rewrite Hn in E.
    by destruct (if is_ok r then _ else _).
  - destruct Hok as [[ts ->] _]. cbn in E. rewrite Hn in E. by apply bind_Ret in E as (? & _ & E).
  - cbn in E. rewrite Hn in E. by apply bind_Ret in E as (? & _ & E).
Qed.

Lemma commit_nears s n (c : System.client) s' c' :
  System.clients s !! n = Some c →
  System.act (S := S) (W := W) s (Program.commit_action n c) = Ret (Some s') →
  System.clients s' !! n = Some c' → nears c Program.Commit c' Program.Commit.
Proof using Type.
  intros Hn E Hn'. unfold Program.commit_action in E.
  destruct c as [tx ph obs ots app]; cbn in *.
  destruct ph; cbn in E; unfold System.in_phase in E; try (rewrite Hn in E; cbn in E).
  - case_bool_decide as Hw; cbn in E; unfold System.in_phase in E; rewrite Hn in E; cbn in E;
      [rewrite bool_decide_true in E by done|rewrite bool_decide_false in E by done];
      injection E as <-; cbn in Hn'; rewrite lookup_insert_eq in Hn'; injection Hn' as <-;
      apply near_commit; done || (cbn; lia).
  - destruct ots; [|done]. apply bind_Ret in E as ([? ?] & _ & [= <-]). cbn in Hn'.
    rewrite lookup_insert_eq in Hn'. injection Hn' as <-. apply near_commit; done || (cbn; lia).
  - destruct ots; [|done]. destruct (if is_ok r then _ else _). injection E as <-. cbn in Hn'.
    rewrite lookup_insert_eq in Hn'. injection Hn' as <-. apply near_commit; done || (cbn; lia).
  - destruct ots; [|done]. apply bind_Ret in E as (? & _ & [= <-]). cbn in Hn'.
    rewrite lookup_insert_eq in Hn'. injection Hn' as <-. apply near_commit; done || (cbn; lia).
  - apply bind_Ret in E as (? & _ & [= <-]). cbn in Hn'.
    rewrite lookup_insert_eq in Hn'. injection Hn' as <-. apply near_commit; done || (cbn; lia).
  - done.
  - done.
Qed.

(** A read: the store does not fail unless it may. *)
Lemma get_call h0 s n c key i tx r :
  System.inv h0 s → System.clients s !! n = Some c → System.c_phase c = System.Active →
  Transaction.get (System.inner (S := S) (W := W) s) (System.c_tx c) key = Ret (i, tx, r) →
  Transaction.writes tx = Transaction.writes (System.c_tx c) ∧
  match r with
  | Ok v => match Transaction.writes (System.c_tx c) !! key with Some v' => v = v' | None => True end
  | Err _ => vs_may_fail (S := S)
  end.
Proof using Type.
  intros Hs Hn Hph E. destruct (System.i_inner _ _ Hs) as (fl & hz & Hi & _).
  destruct (Transaction.get_inv (System.inner s) _ _ _ _ (System.c_tx c) key Hi)
    as (i' & tx' & r' & E' & _ & _ & _ & _ & Hw & Hr).
  { apply System.elem_collect. exists n, c. split; [done|]. unfold System.registered. by rewrite Hph. }
  rewrite E' in E. injection E as <- <- <-. split; [done|].
  destruct r' as [v|[| |]]; try done; [|by destruct Hr]. destruct Hr as [-> _].
  unfold Transaction.view. by destruct (_ !! key).
Qed.

(** The action behind a call, the program after it, and that it is enabled. *)
Lemma next_action_of h0 p n c q o :
  System.inv h0 (Program.sys p) → System.clients (Program.sys p) !! n = Some c → System.phase_ok c →
  Evolution.ended (System.c_phase c) = false →
  (q = Program.Commit ∨ System.c_phase c = System.Active) →
  Program.rest p !! n = Some q → Program.next p n c q = Ret o →
  ∃ p' a q', o = Some p' ∧ Evolution.actor a = Some n ∧
    System.act (Program.sys p) a = Ret (Some (Program.sys p')) ∧
    Program.rest p' = <[n := q']> (Program.rest p) ∧
    ∀ c', System.clients (Program.sys p') !! n = Some c' → nears c q c' q'.
Proof using Type.
  intros Hs Hn Hok Hend Hq Hrest E.
  assert (Hact : System.c_phase c = System.Active →
    System.in_phase (Program.sys p) n System.is_active = Some c).
  { intros Hph. unfold System.in_phase. rewrite Hn. cbn. by rewrite Hph. }
  destruct q as [key k|key v q| |e|]; cbn [Program.next] in E;
    try (destruct Hq as [?|Hph]; [done|]; specialize (Hact Hph)).
  - apply bind_Ret in E as ([[i tx] r] & Hget & E%lift_cases). destruct o as [p'|].
    2:{ cbn in E. rewrite Hact, Hget in E. done. }
    destruct E as [E Hr]. eexists p', _, _. split_and!; [done| |exact E|exact Hr|]; [done|].
    intros c' Hc'. cbn in E. rewrite Hact, Hget in E. injection E as E. rewrite <-E in Hc'. cbn in Hc'.
    rewrite lookup_insert_eq in Hc'. injection Hc' as <-.
    destruct (get_call h0 _ _ _ _ _ _ _ Hs Hn Hph Hget) as [Hw Hr'].
    destruct r as [v|e]; [|by apply near_fail]. apply near_get; [done|done|]. cbn.
    by destruct (_ !! key).
  - apply lift_cases in E. destruct o as [p'|]; [|cbn in E; by rewrite Hact in E].
    destruct E as [E Hr]. eexists p', _, _. split_and!; [done| |exact E|exact Hr|]; [done|].
    intros c' Hc'. cbn in E. rewrite Hact in E. injection E as E. rewrite <-E in Hc'. cbn in Hc'.
    rewrite lookup_insert_eq in Hc'. injection Hc' as <-. by constructor.
  - apply lift_cases in E. destruct o as [p'|]; [|by eapply commit_enabled in E].
    destruct E as [E Hr]. eexists p', _, Program.Commit.
    split_and!; [done| |exact E|by rewrite Hr, insert_id|].
    + unfold Program.commit_action, System.next_action.
      destruct (System.c_phase c); try case_bool_decide; done.
    + intros c' Hc'. by eapply commit_nears.
  - apply lift_cases in E. destruct o as [p'|].
    2:{ cbn in E. rewrite Hact in E. by apply bind_Ret in E as (? & _ & E). }
    destruct E as [E Hr]. eexists p', _, _. split_and!; [done| |exact E|by rewrite Hr, insert_id|]; [done|].
    intros c' Hc'. cbn in E. rewrite Hact in E. apply bind_Ret in E as (i & _ & E). injection E as E.
    rewrite <-E in Hc'. cbn in Hc'. rewrite lookup_insert_eq in Hc'. injection Hc' as <-.
    by apply near_leave; [left; by eexists|..].
  - apply lift_cases in E. destruct o as [p'|].
    2:{ cbn in E. rewrite Hact in E. by apply bind_Ret in E as (? & _ & E). }
    destruct E as [E Hr]. eexists p', _, _. split_and!; [done| |exact E|by rewrite Hr, insert_id|]; [done|].
    intros c' Hc'. cbn in E. rewrite Hact in E. apply bind_Ret in E as (i & _ & E). injection E as E.
    rewrite <-E in Hc'. cbn in Hc'. rewrite lookup_insert_eq in Hc'. injection Hc' as <-.
    by apply near_leave; [right|..].
Qed.

(** ** Lemmas: turns *)

Lemma begin_spec h0 x w k l x' :
  inv h0 x → System.room (sys x) 1 → w < threads →
  System.clients (sys x) !! id w k = None → begin x w k l = Ret x' →
  ∃ tx, System.clients (sys x') = <[id w k := System.mkClient tx System.Active [] None false]>
      (System.clients (sys x)) ∧
    Program.rest (prog_state x') = <[id w k := body w (job w k)]> (Program.rest (prog_state x)) ∧
    table x' = <[w := mkThread k l]> (table x) ∧
    (Transaction.read_timestamp tx = Inner.read_ts (System.inner (sys x)) ∧
     Transaction.writes tx = ∅) ∧
    System.hist (sys x') = System.hist (sys x) ∧
    Program.pstep programs serializable (prog_state x) (prog_state x').
Proof using Type.
  intros Hx Hr Hw Hn E. unfold begin in E. apply bind_Ret in E as (o & Hp & [= <-]).
  pose proof Hp as E. cbn [Program.pact] in E. apply lift_cases in E. destruct o as [p|].
  - destruct E as [E Hrest].
    destruct (Evolution.act_begin h0 _ _ _ _ (r_sys _ _ Hx) Hr E) as (_ & Hh & _ & tx & Hcs & Hts).
    exists tx. split_and!; [done| |done|by destruct Hts..|done|by econstructor].
    cbn. rewrite Hrest. unfold programs. by rewrite id_mod, id_div.
  - cbn in E. unfold sys in Hn. rewrite Hn in E. by apply bind_Ret in E as ([? ?] & _ & E).
Qed.

Lemma advance_call h0 x n c x' :
  inv h0 x → System.clients (sys x) !! n = Some c →
  Evolution.ended (System.c_phase c) = false → advance x n = Ret x' →
  ∃ c' q q', Program.rest (prog_state x) !! n = Some q ∧
    Program.pstep programs serializable (prog_state x) (prog_state x') ∧
    System.clients (sys x') = <[n := c']> (System.clients (sys x)) ∧
    Program.rest (prog_state x') = <[n := q']> (Program.rest (prog_state x)) ∧
    table x' = table x ∧ Evolution.evolves (sys x) (sys x') c c' ∧ nears c q c' q'.
Proof using Type.
  intros Hx Hn Hend E. unfold advance in E. apply bind_Ret in E as (o & Hp & [= <-]).
  destruct (r_follow _ _ Hx n c Hn) as (q & Hq & [_ Hcommit _ _]).
  pose proof Hp as E. cbn [Program.pact] in E. unfold sys in Hn. rewrite Hn, Hq in E.
  pose proof (System.co_phase _ _ _ _ (System.i_clients _ _ (r_sys _ _ Hx) n c Hn)) as Hok.
  destruct (next_action_of h0 _ n c q o (r_sys _ _ Hx) Hn Hok Hend) as (p & a & q' & -> & Ha & Hact & Hrest & Hnear);
    [by destruct (System.c_phase c); auto|done|done|].
  destruct (Evolution.act_evolves h0 _ a _ n (r_sys _ _ Hx) Hact Ha) as (c0 & c' & Hn0 & Hcs & _ & Hev);
    [by eexists|].
  unfold sys in Hn0. rewrite Hn in Hn0. injection Hn0 as <-.
  exists c', q, q'. split_and!; [done|by econstructor|done|done|done|done|].
  apply Hnear. by rewrite Hcs, lookup_insert_eq.
Qed.

(** An attempt after the last one is a client that does not exist yet. *)
Lemma fresh_attempt h0 x w k :
  inv h0 x → w < threads →
  match table x !! w with Some th => attempt th < k | None => True end →
  System.clients (sys x) !! id w k = None.
Proof using Type.
  intros Hx Hw Hk. apply eq_None_not_Some. intros Hn.
  destruct (r_clients _ _ Hx _ Hn) as (th & Hth & Hle). rewrite id_mod, id_div in * by done.
  rewrite Hth in Hk. lia.
Qed.

Lemma turn_cases h0 x w x' :
  inv h0 x → System.room (sys x) 1 → w < threads → turn x w = Ret x' → turns x w x'.
Proof using Type.
  intros Hx Hr Hw E. unfold turn in E. destruct (table x !! w) as [[k l]|] eqn:Hth.
  2:{ destruct (count w) as [|l] eqn:Hc.
      - injection E as <-. apply turn_idle; [done|]. unfold returned. by rewrite Hth, Hc.
      - assert (System.clients (sys x) !! id w 0 = None) as Hn
          by (apply (fresh_attempt h0); [done|done|by rewrite Hth]).
        destruct (begin_spec h0 x w 0 l x' Hx Hr Hw Hn E) as (tx & ? & ? & ? & ? & ? & ?).
        eapply turn_begin; eauto. by left. }
  destruct (r_table _ _ Hx w _ Hth) as (_ & [c Hn] & _). cbn in Hn. rewrite Hn in E. cbn in E.
  pose proof (r_job _ _ Hx w _ Hth) as Hj. cbn in Hj.
  assert (Hfresh : ∀ k', k < k' → System.clients (sys x) !! id w k' = None)
    by (intros; apply (fresh_attempt h0); [done|done|by rewrite Hth]).
  assert (Hstop : returned x w = true → x' = x → turns x w x') by (intros; by apply turn_idle).
  unfold returned in Hstop. rewrite Hth, Hn in Hstop. cbn in Hstop.
  destruct (Evolution.ended (System.c_phase c)) eqn:Hend.
  - destruct (System.c_phase c) as [| | | | |[ts|e]|] eqn:Hph; try done.
    + destruct l as [|l]; [injection E as <-; by apply Hstop|].
      assert (k < Datatypes.S k) as Hk by lia.
      destruct (begin_spec h0 x w _ l x' Hx Hr Hw (Hfresh _ Hk) E) as (tx & ? & ? & ? & ? & ? & ?).
      eapply turn_begin; eauto. right. eexists k, c, _. split_and!; [done|exact Hph|]. by split_and!.
    + destruct (TxnError.is_retryable e) eqn:He; [|injection E as <-; by apply Hstop].
      assert (k < k + count w) as Hk by lia.
      destruct (begin_spec h0 x w _ l x' Hx Hr Hw (Hfresh _ Hk) E) as (tx & ? & ? & ? & ? & ? & ?).
      eapply turn_begin; eauto. right. eexists k, c, _. split_and!; [done|exact Hph|]. by split_and!.
    + injection E as <-. by apply Hstop.
  - assert (advance x (id w k) = Ret x') as E' by by destruct (System.c_phase c).
    destruct (advance_call h0 x _ c x' Hx Hn Hend E') as (c' & q & q' & ? & ? & ? & ? & ? & ? & ?).
    by eapply turn_advance.
Qed.

(** A piece of a collection leaves the clients and the threads alone. *)
Lemma rstep_collect x x' :
  rstep x None x' →
  System.clients (sys x') = System.clients (sys x) ∧ table x' = table x ∧
  Program.rest (prog_state x') = Program.rest (prog_state x) ∧
  System.hist (sys x') = System.hist (sys x) ∧
  Program.pstep programs serializable (prog_state x) (prog_state x').
Proof using Type.
  intros Hstep. inversion Hstep as [|m p E|m p E|m wm st Hm Hst]; subst.
  1, 2: pose proof E as E'; cbn [Program.pact] in E'; apply lift_cases in E' as [E' Hrest];
    cbn in E'; injection E' as E'; unfold sys; cbn; rewrite <-E', Hrest; cbn;
    split_and!; try done; by econstructor.
  split_and!; try done. by eapply Program.pstep_gc.
Qed.

Lemma rstep_pstep h0 x who x' :
  inv h0 x → System.room (sys x) 1 → rstep x who x' →
  x' = x ∨ Program.pstep programs serializable (prog_state x) (prog_state x').
Proof using Type.
  intros Hx Hr Hstep. destruct who as [w|]; [|right; by apply rstep_collect].
  inversion Hstep as [w' x1 Hw E| | |]; subst.
  destruct (turn_cases h0 x w x' Hx Hr Hw E) as [->| |]; [by left|by right..].
Qed.

(** The attempt before the one that begins. *)
Lemma begins_current x w k l :
  begins x w k l →
  (table x !! w = None ∧ k = 0) ∨
  ∃ k0 l0 c, k0 < k ∧ current x w k0 l0 c ∧ Evolution.ended (System.c_phase c) = true.
Proof using Type.
  intros [(? & ? & _)|(k0 & c & r & Hlt & Hph & Hr)]; [by left|right].
  destruct r; [destruct Hr as [_ Hr]|destruct Hr as (_ & Hr & _)]; eexists k0, _, c; by rewrite Hph.
Qed.

(** It is at the transaction its number tells. *)
Lemma begins_job h0 x w k l : inv h0 x → begins x w k l → job w k + l + 1 = count w.
Proof using Type.
  unfold job. intros Hx [(_ & -> & ->)|(k0 & c & r & _ & _ & Hr)].
  - rewrite Nat.Div0.mod_0_l. lia.
  - destruct r; [destruct Hr as (-> & Hth & _)|destruct Hr as (-> & [Hth _] & _)];
      pose proof (r_job _ _ Hx w _ Hth) as Hj; unfold job in Hj; cbn in Hj.
    + rewrite <-Nat.add_1_r, <-Nat.Div0.add_mod_idemp_l, (Nat.mod_small (_ + 1)) by lia. lia.
    + replace (k0 + count w) with (k0 + 1 * count w) by lia. by rewrite Nat.Div0.mod_add.
Qed.

(** Clients and threads go together: every client is an attempt of a thread, and all
    but the last one of a thread have ended. *)
Definition tabled (x : t) : Prop :=
  (∀ n, is_Some (System.clients (sys x) !! n) →
     ∃ th, table x !! (n mod threads) = Some th ∧ n / threads ≤ attempt th) ∧
  (∀ w th, table x !! w = Some th → w < threads ∧
     is_Some (System.clients (sys x) !! id w (attempt th)) ∧
     ∀ k c, k < attempt th → System.clients (sys x) !! id w k = Some c →
       Evolution.ended (System.c_phase c) = true) ∧
  ∀ w th, table x !! w = Some th → job w (attempt th) + left th + 1 = count w.

Lemma inv_tabled h0 x : inv h0 x → tabled x.
Proof using Type. by intros []. Qed.

(** The step of a thread changes one client and one thread. *)
Lemma turn_table h0 x w x' :
  inv h0 x → w < threads → turns x w x' → tabled x'.
Proof using Type.
  intros Hx Hw Hturn. pose proof (r_job _ _ Hx) as Hjob. pose proof (r_clients _ _ Hx) as Hcl. pose proof (r_table _ _ Hx) as Htab.
  destruct Hturn as [-> _|k l tx Hbefore Hn Hcs _ Ht _ _ _|k l c c' q q' [Hth Hn] _ Hend _ Hcs _ Ht _ _];
    [by eapply inv_tabled|unfold tabled; rewrite Hcs, Ht..].
  - split_and!.
    + intros n. destruct (decide (n mod threads = w)) as [Hm|Hm].
      * rewrite Hm, lookup_insert_eq. intros Hsome. eexists. split; [done|]. cbn.
        destruct (decide (n = id w k)) as [->|Hne]; [by rewrite id_div|].
        rewrite lookup_insert_ne in Hsome by done. destruct (Hcl n Hsome) as (th & Hth & Hle).
        rewrite Hm in Hth. destruct (begins_current _ _ _ _ Hbefore) as [[Hnone _]|(k0 & l0 & c & Hlt & [E _] & _)];
          [congruence|]. rewrite E in Hth. injection Hth as <-. cbn in Hle. lia.
      * rewrite !lookup_insert_ne; [apply Hcl|by intros ->|]. intros <-. by rewrite id_mod in Hm.
    + intros w' th [[<- <-]|[Hne Hth]]%lookup_insert_Some; cbn.
      * split_and!; [done|rewrite lookup_insert_eq; by eexists|]. intros k' c' Hk' Hc'.
        rewrite lookup_insert_ne in Hc' by (intros E; apply id_inj in E as [_ ?]; lia || done).
        destruct (begins_current _ _ _ _ Hbefore) as [[_ ->]|(k0 & l0 & c & _ & [Hth Hc] & Hend)]; [lia|].
        destruct (decide (k' = k0)) as [->|Hne]; [rewrite Hc in Hc'; by injection Hc' as <-|].
        destruct (r_clients _ _ Hx (id w k')) as (th & Hth' & Hle); [by eexists|].
        rewrite id_mod, id_div in * by done. rewrite Hth in Hth'. injection Hth' as <-. cbn in Hle.
        destruct (Htab w _ Hth) as (_ & _ & Hpast). eapply Hpast; [|done]. cbn. lia.
      * destruct (Htab w' th Hth) as (Hw' & Hs & Hpast).
        assert (∀ k', id w k ≠ id w' k') as Hid by (intros k' E; by apply id_inj in E as [??]).
        rewrite lookup_insert_ne by done. split_and!; [done|done|]. intros k' c' Hk'.
        rewrite lookup_insert_ne by done. by apply Hpast.
    + intros w' th [[<- <-]|[_ Hth]]%lookup_insert_Some; [by eapply begins_job|by apply Hjob].
  - split_and!; [| |done].
    + intros n [<-|[_ Hsome]]%lookup_insert_is_Some; [|by apply Hcl]. apply Hcl. by eexists.
    + intros w' th Hth'. destruct (Htab w' th Hth') as (Hw' & Hs & Hpast). split_and!; [done|..].
      * apply lookup_insert_is_Some. destruct (decide (id w k = id w' (attempt th))); auto.
      * intros k' c1 Hk' [[E <-]|[_ Hc1]]%lookup_insert_Some; [|by eapply Hpast].
        apply id_inj in E as [<- <-]; [|done|done]. rewrite Hth in Hth'. injection Hth' as <-. cbn in Hk'. lia.
Qed.

Lemma rstep_inv h0 x who x' :
  inv h0 x → System.room (sys x) 1 → rstep x who x' → inv h0 x'.
Proof using Type.
  intros Hx Hr Hstep. destruct (rstep_pstep h0 x who x' Hx Hr Hstep) as [->|Hp]; [done|].
  pose proof (Program.pstep_step _ _ _ _ Hp) as Hs.
  assert (tabled x') as (Hcl & Htab & Hjob).
  { destruct who as [w|].
    - inversion Hstep as [w' x1 Hw E| | |]; subst. by eapply turn_table, turn_cases.
    - destruct (rstep_collect x x' Hstep) as (Hcs & Ht & _). unfold tabled. rewrite Hcs, Ht.
      by eapply inv_tabled. }
  split; [| | |done|done|done].
  - apply (System.step_inv h0 (sys x) 0 (r_sys _ _ Hx) Hr _ Hs).
  - by eapply Program.pstep_follow, Hp; apply Hx.
  - eapply Evolution.step_blamed; [apply Hx|done|exact Hs|apply Hx].
Qed.

Lemma unstarted_inv i h0 hz : Inner.inv i [] ∅ h0 hz → inv h0 (start i h0).
Proof using Type.
  intros Hi. split.
  - by eapply System.start_inv.
  - intros n c Hn. cbn in Hn. by rewrite lookup_empty in Hn.
  - intros n c len Hn. cbn in Hn. by rewrite lookup_empty in Hn.
  - intros n [c Hn]. cbn in Hn. by rewrite lookup_empty in Hn.
  - intros w th Hn. cbn in Hn. by rewrite lookup_empty in Hn.
  - intros w th Hn. cbn in Hn. by rewrite lookup_empty in Hn.
Qed.

(** ** Lemmas: what a step does to a thread *)

Lemma same_refl x w : same x x w.
Proof using Type. by split. Qed.

Lemma same_trans x y z w : same x y w → same y z w → same x z w.
Proof using Type.
  intros [A1 A2 A3] [B1 B2 B3]. split; [congruence|intros k; by rewrite B2|intros k; by rewrite B3].
Qed.

Lemma returned_same x y w : same x y w → returned y w = returned x w.
Proof using Type.
  intros [A1 A2 _]. unfold returned. rewrite A1. destruct (table x !! w) as [[k l]|]; [|done].
  by rewrite A2.
Qed.

Lemma owed_same x y w : same x y w → owed y w = owed x w.
Proof using Type.
  intros [A1 A2 _]. unfold owed. rewrite A1. destruct (table x !! w) as [[k l]|]; [|done].
  by rewrite A2.
Qed.

Lemma rstep_same h0 x who x' w :
  inv h0 x → System.room (sys x) 1 → rstep x who x' → who ≠ Some w → w < threads → same x x' w.
Proof using Type.
  intros Hx Hr Hstep Hne Hw. destruct who as [w1|].
  2:{ destruct (rstep_collect x x' Hstep) as (E1 & E2 & E3 & _). split; congruence. }
  inversion Hstep as [w' x1 Hw1 E| | |]; subst.
  assert (∀ k k', id w1 k ≠ id w k') as Hid by (intros k k' E'; apply id_inj in E' as [? _]; [congruence|done..]).
  assert (w1 ≠ w) as Hww by congruence.
  destruct (turn_cases h0 x w1 x' Hx Hr Hw1 E) as [-> _|k l tx _ _ Hc Hrs Ht _ _ _|k l c c' q q' _ _ _ _ Hc Hrs Ht _ _];
    [apply same_refl|split; rewrite ?Ht, ?Hc, ?Hrs..]; intros; by rewrite ?lookup_insert_ne.
Qed.

(** A thread that has not returned, and one whose attempt has ended. *)
Lemma returned_ended x w k l c :
  current x w k l c → returned x w = true → Evolution.ended (System.c_phase c) = true.
Proof using Type.
  intros [Hth Hn]. unfold returned. rewrite Hth, Hn. cbn. by destruct (System.c_phase c).
Qed.

(** A thread that has returned does not begin again. *)
Lemma no_begin x w k l :
  begins x w k l →
  returned x w = false.
Proof using Type.
  unfold returned. intros [(-> & _ & ->)|(k0 & c & r & _ & Hph & Hr)]; [done|].
  destruct r as [ts|e]; [destruct Hr as (_ & -> & ->)|destruct Hr as (_ & [-> ->] & He)]; cbn; rewrite Hph; [done|].
  by rewrite He.
Qed.

Lemma rstep_returned h0 x who x' w :
  inv h0 x → System.room (sys x) 1 → rstep x who x' → w < threads →
  returned x w = true → returned x' w = true.
Proof using Type.
  intros Hx Hr Hstep Hw Hret. destruct (decide (who = Some w)) as [->|Hne].
  2:{ rewrite (returned_same x x'); [done|]. by eapply rstep_same. }
  inversion Hstep as [w' x1 _ E| | |]; subst.
  destruct (turn_cases h0 x w x' Hx Hr Hw E) as [-> _|k l tx Hb _ _ _ _ _ _ _|k l c c' q q' Hc _ Hend _ _ _ _ _ _];
    [done|apply no_begin in Hb; congruence|]. apply (returned_ended _ _ _ _ _ Hc) in Hret. congruence.
Qed.

(** An error that is retried left nothing behind. *)
Lemma conflict_unapplied h0 x n c e :
  inv h0 x → System.clients (sys x) !! n = Some c →
  System.c_phase c = System.Finished (Err e) → TxnError.is_retryable e = true →
  settled c = false.
Proof using Type.
  intros Hx Hn Hph He.
  pose proof (System.co_phase _ _ _ _ (System.i_clients _ _ (r_sys _ _ Hx) n c Hn)) as Hok.
  unfold System.phase_ok, System.result_ok in Hok. unfold settled. rewrite Hph in *.
  destruct e; [|done..]. by destruct Hok as [-> _].
Qed.

(** A new attempt owes what the thread owed. *)
Lemma begin_owed h0 x w k l x' tx :
  inv h0 x → begins x w k l → table x' = <[w := mkThread k l]> (table x) →
  System.clients (sys x') = <[id w k := System.mkClient tx System.Active [] None false]>
    (System.clients (sys x)) → owed x' w = owed x w.
Proof using Type.
  intros Hx Hb Ht Hcs. unfold owed. rewrite Ht, lookup_insert_eq, Hcs, lookup_insert_eq. cbn.
  destruct Hb as [(-> & _ & ->)|(k0 & c & r & _ & Hph & Hr)]; [lia|].
  destruct r as [ts|e]; [destruct Hr as (-> & -> & Hc)|destruct Hr as (-> & [-> Hc] & He)]; rewrite Hc.
  - unfold settled. rewrite Hph, orb_true_r. lia.
  - rewrite (conflict_unapplied h0 x _ c e Hx Hc Hph He). lia.
Qed.

(** What a thread owes never grows, and shrinks with every commit that is applied. *)
Lemma turn_owed h0 x w x' :
  inv h0 x → turns x w x' →
  owed x' w ≤ owed x w ∧ (System.hist (sys x') = System.hist (sys x) ∨ owed x' w < owed x w).
Proof using Type.
  intros Hx Hturn.
  destruct Hturn as [-> _|k l tx Hb Hn Hcs _ Ht _ Hh _|k l c c' q q' [Hth Hn] _ Hend _ Hcs _ Ht Hev _].
  - auto.
  - rewrite (begin_owed h0 x w k l x' tx), Hh by done. auto.
  - unfold owed. rewrite Ht, Hth, Hcs, lookup_insert_eq, Hn.
    assert (settled c = System.c_applied c) as Hc.
    { unfold settled. destruct (System.c_phase c) as [| | | | |[]|]; try done; apply orb_false_r. }
    destruct (Evolution.ev_applied _ _ _ _ Hev) as [[Hh Ha]|(Ha & Ha' & _)].
    + split; [|by left]. rewrite Hc. unfold settled. rewrite Ha. destruct (System.c_applied c); cbn; [lia|].
      case_match; lia.
    + rewrite Hc, Ha. unfold settled. rewrite Ha'. cbn. split; [lia|right; lia].
Qed.

Lemma rstep_owed h0 x who x' :
  inv h0 x → System.room (sys x) 1 → rstep x who x' →
  (∀ w, w < threads → owed x' w ≤ owed x w) ∧
  (System.hist (sys x') = System.hist (sys x) ∨ ∃ w, w < threads ∧ owed x' w < owed x w).
Proof using Type.
  intros Hx Hr Hstep.
  assert (∀ w, w < threads → who ≠ Some w → owed x' w = owed x w) as Hother.
  { intros w Hw Hne. eapply owed_same, rstep_same; eauto. }
  destruct who as [w|].
  - inversion Hstep as [w' x1 Hw E| | |]; subst.
    destruct (turn_owed h0 x w x' Hx) as [Hle Hh]; [by eapply turn_cases|]. split.
    + intros w1 Hw1. destruct (decide (w = w1)) as [->|Hne]; [done|]. rewrite Hother; [done..|congruence].
    + destruct Hh; [by left|]. right. by exists w.
  - split; [intros w Hw; by rewrite Hother|]. left. by apply rstep_collect.
Qed.

Lemma total_le x x' :
  (∀ w, w < threads → owed x' w ≤ owed x w) →
  total x' ≤ total x ∧ ((∃ w, w < threads ∧ owed x' w < owed x w) → total x' < total x).
Proof using Type.
  intros Hle. unfold total. destruct (sum_list_le (owed x') (owed x) (seq 0 threads)) as [H1' H2'].
  { intros w Hw%elem_of_seq. apply Hle. lia. }
  split; [done|]. intros (w & Hw & Hlt). apply H2'. exists w. split; [apply elem_of_seq; lia|done].
Qed.

(** The clock never goes back, so a quiet thread stays quiet. *)
Lemma step_clock s s' :
  System.room s 1 → System.step (S := S) (W := W) s s' →
  (Oracle.next_ts (Inner.oracle (System.inner s)) ≤ Oracle.next_ts (Inner.oracle (System.inner s')))%N.
Proof using Type. intros Hr [a s1 E|m wm st _ _]; [by eapply Evolution.act_clock|done]. Qed.

Lemma ended_quiet c : Evolution.ended (System.c_phase c) = true → System.pending c = None.
Proof using Type. unfold System.pending. by destruct (System.c_phase c). Qed.

Lemma rstep_quiet h0 x who x' w N :
  inv h0 x → System.room (sys x) 1 → rstep x who x' → w < threads →
  (N ≤ Oracle.next_ts (Inner.oracle (System.inner (sys x))))%N →
  quiet_below N x w → quiet_below N x' w.
Proof using Type.
  intros Hx Hr Hstep Hw HN Hq. destruct (decide (who = Some w)) as [->|Hne].
  2:{ destruct (rstep_same h0 x who x' w Hx Hr Hstep Hne Hw) as [_ Hc _].
      intros k c ts. rewrite Hc. apply Hq. }
  inversion Hstep as [w' x1 _ E| | |]; subst. intros k1 c1 ts.
  destruct (turn_cases h0 x w x' Hx Hr Hw E) as [-> _|k l tx _ _ Hc _ _ _ _ _|k l c c' q q' [_ Hn] _ _ _ Hc _ _ Hev _];
    [apply Hq|..]; rewrite Hc; intros [[_ <-]|[_ Hn1]]%lookup_insert_Some; try by eapply Hq.
  - done.
  - intros [Hp| ->]%(Evolution.ev_pending _ _ _ _ Hev); [by eapply Hq|done].
Qed.

(** ** Lemmas: fair runs *)

Section fair_run.
Context (h0 : History) (r : nat → t) (who : nat → option nat) (Hrun : run h0 r who).

Lemma run_inv j : inv h0 (r j).
Proof using Hrun.
  induction j as [|j IH].
  - destruct (run_start _ _ _ Hrun) as (i & hz & Hi & ->). by eapply unstarted_inv.
  - eapply rstep_inv; [done|apply (run_room _ _ _ Hrun)|apply (run_step _ _ _ Hrun)].
Qed.

(** What one step keeps, a run keeps. *)
Lemma run_keeps (P : t → Prop) i j :
  i ≤ j → (∀ k, i ≤ k → P (r k) → P (r (Datatypes.S k))) → P (r i) → P (r j).
Proof using Type. intros Hle Hstep Hi. induction Hle as [|j Hle IH]; [done|]. by apply Hstep. Qed.

Lemma run_returned i j w :
  i ≤ j → w < threads → returned (r i) w = true → returned (r j) w = true.
Proof using Hrun.
  intros Hle Hw. apply (run_keeps (λ x, returned x w = true) i j); [done|]. intros k _.
  by eapply rstep_returned; [apply run_inv|apply (run_room _ _ _ Hrun)|apply (run_step _ _ _ Hrun)|].
Qed.

Lemma run_owed i j w : i ≤ j → w < threads → owed (r j) w ≤ owed (r i) w.
Proof using Hrun.
  intros Hle Hw. apply (run_keeps (λ x, owed x w ≤ owed (r i) w) i j); [done|..|done]. intros k _ Hk.
  destruct (rstep_owed h0 (r k) (who k) (r (Datatypes.S k)) (run_inv k)) as [Hs _];
    [apply (run_room _ _ _ Hrun)|apply (run_step _ _ _ Hrun)|]. specialize (Hs w Hw). lia.
Qed.

Lemma run_total i j : i ≤ j → total (r j) ≤ total (r i).
Proof using Hrun. intros Hle. apply total_le. intros w Hw. by apply run_owed. Qed.

Lemma run_clock i j :
  i ≤ j → (Oracle.next_ts (Inner.oracle (System.inner (sys (r i)))) ≤
    Oracle.next_ts (Inner.oracle (System.inner (sys (r j)))))%N.
Proof using Hrun.
  intros Hle. apply (run_keeps (λ x, (Oracle.next_ts (Inner.oracle (System.inner (sys (r i)))) ≤
    Oracle.next_ts (Inner.oracle (System.inner (sys x))))%N) i j); [done|..|lia]. intros k _ Hk.
  destruct (rstep_pstep h0 _ _ _ (run_inv k) (run_room _ _ _ Hrun k) (run_step _ _ _ Hrun k)) as [->|Hp];
    [done|].
  pose proof (step_clock _ _ (run_room _ _ _ Hrun k) (Program.pstep_step _ _ _ _ Hp)).
  unfold sys in *. lia.
Qed.

(** A commit applied on the way is owed no longer. *)
Lemma run_hist i j :
  i ≤ j → System.hist (sys (r j)) = System.hist (sys (r i)) ∨ total (r j) < total (r i).
Proof using Hrun.
  intros Hle. enough (total (r j) ≤ total (r i) ∧ (System.hist (sys (r j)) = System.hist (sys (r i)) ∨
    total (r j) < total (r i))) by tauto.
  apply (run_keeps (λ x, total x ≤ total (r i) ∧ (System.hist (sys x) = System.hist (sys (r i)) ∨
    total x < total (r i))) i j); [done|..|auto]. intros k _ Hk.
  destruct (rstep_owed h0 (r k) (who k) (r (Datatypes.S k)) (run_inv k)) as [Hs Hh];
    [apply (run_room _ _ _ Hrun)|apply (run_step _ _ _ Hrun)|].
  destruct (total_le _ _ Hs) as [Hle' Hlt]. destruct Hk as [Hk0 [Hk|Hk]]; (split; [lia|]); [|right; lia].
  destruct Hh as [->|Hw]; [by left|]. right. specialize (Hlt Hw). lia.
Qed.

(** The next turn of a thread comes, and finds the thread as it was. *)
Lemma run_wait i w :
  w < threads → ∃ j, i ≤ j ∧ same (r i) (r j) w ∧ turns (r j) w (r (Datatypes.S j)).
Proof using Hrun.
  intros Hw. destruct (run_fair _ _ _ Hrun w i Hw) as (j & Hle & Hj). remember (j - i) as d eqn:Hd.
  revert i Hle Hd. induction d as [|d IH]; intros i Hle Hd.
  all: destruct (decide (who i = Some w)) as [Hi|Hi].
  1, 3: exists i; split_and!; [done|apply same_refl|]; pose proof (run_step _ _ _ Hrun i) as Hstep;
    rewrite Hi in Hstep; inversion Hstep as [w' x1 _ E| | |]; subst;
    eapply turn_cases; [apply run_inv|apply (run_room _ _ _ Hrun)|done|done].
  - replace i with j in Hi by lia. done.
  - destruct (IH (Datatypes.S i)) as (j' & Hle' & Hs & Ht); [|lia|].
    { assert (i ≠ j) by congruence. lia. }
    exists j'. split_and!; [lia| |done]. eapply same_trans; [|done].
    eapply rstep_same; [apply run_inv|apply (run_room _ _ _ Hrun)|apply (run_step _ _ _ Hrun)|done|done].
Qed.

Lemma same_current x y w k l c : same x y w → current x w k l c → current y w k l c.
Proof using Type. intros [A1 A2 _] [Ht Hc]. split; [by rewrite A1|by rewrite A2]. Qed.

(** The next call of a thread inside an attempt. *)
Lemma run_call i w k l c q :
  w < threads → current (r i) w k l c → Program.rest (prog_state (r i)) !! id w k = Some q →
  Evolution.ended (System.c_phase c) = false →
  ∃ j c' q', i ≤ j ∧ current (r j) w k l c' ∧
    Program.rest (prog_state (r j)) !! id w k = Some q' ∧ nears c q c' q' ∧
    Transaction.read_timestamp (System.c_tx c') = Transaction.read_timestamp (System.c_tx c).
Proof using Hrun.
  intros Hw Hc Hq Hend. destruct (run_wait i w Hw) as (j & Hle & Hs & Ht).
  pose proof (same_current _ _ _ _ _ _ Hs Hc) as [Hth Hn].
  pose proof (same_rest _ _ _ Hs k) as Hq'. rewrite Hq in Hq'.
  assert (returned (r j) w = false) as Hret.
  { destruct (returned (r j) w) eqn:E; [|done].
    apply (returned_ended _ _ k l c) in E; [congruence|done]. }
  destruct Ht as [_ Ht|k1 l1 tx Hb _ _ _ _ _ _ _|k1 l1 c1 c' q1 q' [Hth1 Hn1] Hq1 _ _ Hcs Hrs Htab Hev Hnear].
  - congruence.
  - destruct (begins_current _ _ _ _ Hb) as [[Hnone _]|(k0 & l0 & c0 & _ & [Hth0 Hn0] & Hend0)]; [congruence|].
    rewrite Hth in Hth0. injection Hth0 as <- <-. rewrite Hn in Hn0. injection Hn0 as <-. congruence.
  - rewrite Hth in Hth1. injection Hth1 as <- <-. rewrite Hn in Hn1. injection Hn1 as <-.
    rewrite Hq' in Hq1. injection Hq1 as <-. exists (Datatypes.S j), c', q'.
    split_and!; [lia|split; [by rewrite Htab|by rewrite Hcs, lookup_insert_eq]|by rewrite Hrs, lookup_insert_eq|
      done|apply Hev].
Qed.

(** An attempt inside [commit] ends. *)
Lemma commit_ends m w k l : w < threads → ∀ i c,
  todo (System.c_phase c) ≤ m → current (r i) w k l c →
  Program.rest (prog_state (r i)) !! id w k = Some Program.Commit →
  ∃ j c', i ≤ j ∧ current (r j) w k l c' ∧ Evolution.ended (System.c_phase c') = true ∧
    Transaction.read_timestamp (System.c_tx c') = Transaction.read_timestamp (System.c_tx c).
Proof using Hrun.
  intros Hw. induction m as [|m IH]; intros i c Hm Hc Hq;
    (destruct (Evolution.ended (System.c_phase c)) eqn:Hend; [by exists i, c|]).
  - destruct (System.c_phase c); cbn in Hm; done || lia.
  - destruct (run_call i w k l c _ Hw Hc Hq Hend) as (j & c' & q' & Hle & Hc' & Hq' & Hnear & Hts).
    inversion Hnear as [| | |? ? [[? ?]|?]|? Hlt]; subst; try done.
    destruct (IH j c') as (j' & c2 & Hle' & Hc2 & Hend2 & Hts2); [lia|done|done|].
    exists j', c2. split_and!; [lia|done|done|congruence].
Qed.

(** Every attempt ends. *)
Lemma attempt_ends w k l : w < threads → ∀ q i c,
  current (r i) w k l c → Program.rest (prog_state (r i)) !! id w k = Some q →
  ∃ j c', i ≤ j ∧ current (r j) w k l c' ∧ Evolution.ended (System.c_phase c') = true ∧
    Transaction.read_timestamp (System.c_tx c') = Transaction.read_timestamp (System.c_tx c).
Proof using Hrun.
  intros Hw.
  assert (Hleave : ∀ q i c, (∃ e, q = Program.Leave e) ∨ q = Program.Crash →
    current (r i) w k l c → Program.rest (prog_state (r i)) !! id w k = Some q →
    ∃ j c', i ≤ j ∧ current (r j) w k l c' ∧ Evolution.ended (System.c_phase c') = true ∧
      Transaction.read_timestamp (System.c_tx c') = Transaction.read_timestamp (System.c_tx c)).
  { intros q i c Hlv Hc Hq. destruct (Evolution.ended (System.c_phase c)) eqn:Hend; [by exists i, c|].
    destruct (run_call i w k l c _ Hw Hc Hq Hend) as (j & c' & q' & Hle & Hc' & Hq' & Hnear & Hts).
    inversion Hnear as [| | |? ? _ Hph|? Hlt]; subst; try by destruct Hlv as [[? ?]|?].
    exists j, c'. split_and!; [done|done|by rewrite Hph|done]. }
  induction q as [key f IH|key v q IH| |e|]; intros i c Hc Hq;
    (destruct (Evolution.ended (System.c_phase c)) eqn:Hend; [by exists i, c|]).
  - destruct (run_call i w k l c _ Hw Hc Hq Hend) as (j & c' & q' & Hle & Hc' & Hq' & Hnear & Hts).
    assert (∃ j' c2, j ≤ j' ∧ current (r j') w k l c2 ∧ Evolution.ended (System.c_phase c2) = true ∧
      Transaction.read_timestamp (System.c_tx c2) = Transaction.read_timestamp (System.c_tx c'))
      as (j' & c2 & ? & ? & ? & ?).
    { inversion Hnear as [| | |? ? [[? ?]|?]|]; subst; try done; [by eapply IH|].
      eapply Hleave; [left; by eexists|done|done]. }
    exists j', c2. split_and!; [lia|done|done|congruence].
  - destruct (run_call i w k l c _ Hw Hc Hq Hend) as (j & c' & q' & Hle & Hc' & Hq' & Hnear & Hts).
    inversion Hnear as [| | |? ? [[? ?]|?]|]; subst; try done.
    destruct (IH j c') as (j' & c2 & ? & ? & ? & ?); [done|done|].
    exists j', c2. split_and!; [lia|done|done|congruence].
  - by eapply commit_ends.
  - eapply Hleave; [left; by eexists|done|done].
  - eapply Hleave; [by right|done|done].
Qed.

Lemma current_rest i w k l c :
  current (r i) w k l c → ∃ q, Program.rest (prog_state (r i)) !! id w k = Some q.
Proof using Hrun.
  intros [_ Hn]. destruct (r_follow _ _ (run_inv i) _ c Hn) as (q & Hq & _). by exists q.
Qed.

(** A thread that has not returned comes to the end of an attempt. *)
Lemma run_ended i w :
  w < threads → ∃ j, i ≤ j ∧
    (returned (r j) w = true ∨
     ∃ k l c, current (r j) w k l c ∧ Evolution.ended (System.c_phase c) = true).
Proof using Hrun.
  intros Hw. destruct (returned (r i) w) eqn:Hret; [exists i; auto|].
  assert (∃ j k l c, i ≤ j ∧ current (r j) w k l c) as (j & k & l & c & Hle & Hc).
  { destruct (table (r i) !! w) as [[k l]|] eqn:Hth.
    - destruct (r_table _ _ (run_inv i) w _ Hth) as (_ & [c Hn] & _). by exists i, k, l, c.
    - destruct (run_wait i w Hw) as (j & Hle & Hs & Ht).
      destruct Ht as [_ Ht|k l tx _ _ Hcs _ Htab _ _ _|k l c c' q q' [Hth1 _] _ _ _ _ _ _ _ _].
      + rewrite (returned_same _ _ _ Hs) in Ht. congruence.
      + eexists (Datatypes.S j), k, l, _. split; [lia|]. split; [by rewrite Htab, lookup_insert_eq|].
        by rewrite Hcs, lookup_insert_eq.
      + rewrite (same_table _ _ _ Hs) in Hth1. congruence. }
  destruct (current_rest j w k l c Hc) as [q Hq].
  destruct (attempt_ends w k l Hw q j c Hc Hq) as (j' & c' & Hle' & Hc' & Hend & _).
  exists j'. split; [lia|]. right. eauto.
Qed.

(** At the end of an attempt a thread has nothing in flight. *)
Lemma run_quiet i w N :
  w < threads → (N ≤ Oracle.next_ts (Inner.oracle (System.inner (sys (r i)))))%N →
  ∃ j, i ≤ j ∧ ∀ j', j ≤ j' → quiet_below N (r j') w.
Proof using Hrun.
  intros Hw HN. destruct (run_ended i w Hw) as (j & Hle & Hj). exists j. split; [done|].
  intros j' Hle'. apply (run_keeps (λ x, quiet_below N x w) j j'); [done|..].
  { intros k Hk. eapply rstep_quiet; [apply run_inv|apply (run_room _ _ _ Hrun)|
      apply (run_step _ _ _ Hrun)|done|]. pose proof (run_clock i k ltac:(lia)). lia. }
  intros k c ts Hn Hp. exfalso.
  assert (∃ th, table (r j) !! w = Some th ∧ k ≤ attempt th) as (th & Hth & Hk).
  { destruct (r_clients _ _ (run_inv j) (id w k)) as (th & Hth & Hk); [by eexists|].
    rewrite id_mod, id_div in * by done. eauto. }
  assert (Evolution.ended (System.c_phase c) = true) as Hend.
  { destruct (r_table _ _ (run_inv j) w th Hth) as (_ & _ & Hpast).
    destruct (decide (k = attempt th)) as [->|]; [|eapply Hpast; [|done]; lia].
    destruct th as [k0 l0]. cbn in *.
    destruct Hj as [Hret|(k1 & l1 & c1 & [Hth1 Hn1] & Hend)].
    - by eapply returned_ended.
    - rewrite Hth in Hth1. injection Hth1 as <- <-. rewrite Hn in Hn1. by injection Hn1 as <-. }
  by rewrite ended_quiet in Hp.
Qed.

(** Something that happens to each thread for good happens to all. *)
Lemma run_all (P : t → nat → Prop) n :
  (∀ w, w < n → ∃ j, ∀ j', j ≤ j' → P (r j') w) → ∃ j, ∀ j', j ≤ j' → ∀ w, w < n → P (r j') w.
Proof using Type.
  induction n as [|n IH]; intros Hall; [exists 0; lia|].
  destruct IH as [j1 H1']; [intros w Hw; apply Hall; lia|].
  destruct (Hall n ltac:(lia)) as [j2 H2']. exists (Nat.max j1 j2). intros j' Hj' w Hw.
  destruct (decide (w = n)) as [->|]; [apply H2'; lia|apply H1'; lia].
Qed.

(** With nothing from before moment [i] in flight, all applied until then is visible. *)
Lemma quiet_covers i j e :
  i ≤ j → (∀ w, w < threads →
    quiet_below (Oracle.next_ts (Inner.oracle (System.inner (sys (r i))))) (r j) w) →
  e ∈ System.hist (sys (r i)) →
  (ts_of e ≤ Timestamp.get (Inner.read_ts (System.inner (sys (r j)))))%N.
Proof using Hrun.
  intros Hle Hq He.
  assert (ts_of e < Oracle.next_ts (Inner.oracle (System.inner (sys (r i)))))%N as HeN.
  { destruct (System.i_inner _ _ (r_sys _ _ (run_inv i))) as (fl & hz & Hi & _).
    by apply (Inner.inv_issued _ _ _ _ _ Hi). }
  apply (System.watermark_spec h0 (sys (r j)) (ts_of e) (r_sys _ _ (run_inv j))). split.
  - pose proof (run_clock i j Hle). lia.
  - intros n c ts Hn Hp. destruct (r_clients _ _ (run_inv j) n) as (th & Hth & _); [by eexists|].
    destruct (r_table _ _ (run_inv j) _ th Hth) as (Hw & _). rewrite (id_split n) in Hn.
    pose proof (Hq _ Hw _ c ts Hn Hp). lia.
Qed.

(** Everything applied so far is in every snapshot taken later on. *)
Lemma run_caught_up i :
  ∃ j, ∀ j' e, j ≤ j' → e ∈ System.hist (sys (r i)) →
    (ts_of e ≤ Timestamp.get (Inner.read_ts (System.inner (sys (r j')))))%N.
Proof using Hrun.
  set (N := Oracle.next_ts (Inner.oracle (System.inner (sys (r i))))).
  destruct (run_all (λ x w, quiet_below N x w) threads) as [j Hj].
  { intros w Hw. destruct (run_quiet i w N Hw) as (j & _ & Hj); [lia|]. by exists j. }
  exists (Nat.max i j). intros j' e Hle. apply quiet_covers; [lia|]. apply Hj. lia.
Qed.

(** The states of a run are reachable, so what it began with is in every snapshot. *)
Lemma fair_run_reachable j : Program.reachable programs serializable h0 (prog_state (r j)).
Proof using Hrun.
  destruct (run_start _ _ _ Hrun) as (i & hz & Hi & E0). exists i, hz. split; [done|].
  induction j as [|j IH]; [by rewrite E0|].
  destruct (rstep_pstep h0 _ _ _ (run_inv j) (run_room _ _ _ Hrun j) (run_step _ _ _ Hrun j)) as [->|Hp];
    [done|]. eapply rtc_r; [done|]. split; [apply (run_room _ _ _ Hrun)|done].
Qed.

Lemma run_covers j : Evolution.covers h0 (sys (r j)).
Proof using Hrun. eapply Evolution.reachable_covers, Program.reachable_system, fair_run_reachable. Qed.

Lemma run_initial j e :
  e ∈ h0 → (ts_of e ≤ Timestamp.get (Inner.read_ts (System.inner (sys (r j)))))%N.
Proof using Hrun. apply Evolution.covers_watermark; [apply (r_sys _ _ (run_inv j))|apply run_covers]. Qed.

Lemma run_snapshots j n c e :
  System.clients (sys (r j)) !! n = Some c → e ∈ h0 →
  (ts_of e ≤ Timestamp.get (Transaction.read_timestamp (System.c_tx c)))%N.
Proof using Hrun. intros Hn He. by destruct (run_covers j e He) as [_ Hcl]; apply (Hcl n c Hn). Qed.

(** One more attempt, begun when every commit so far is in its snapshot: the thread
    returns, or something it or another thread owed is done. *)
Lemma run_progress i w :
  w < threads → ∃ j, i ≤ j ∧ (returned (r j) w = true ∨ total (r j) < total (r i)).
Proof using Hrun.
  intros Hw. destruct (run_caught_up i) as [j0 Hcaught].
  destruct (run_ended (Nat.max i j0) w Hw) as (j1 & Hle1 & Hj1).
  destruct (returned (r j1) w) eqn:Hret; [exists j1; split; [lia|by left]|].
  destruct Hj1 as [?|(k0 & l0 & c0 & Hc0 & Hend0)]; [congruence|].
  destruct (run_wait j1 w Hw) as (j2 & Hle2 & Hs & Ht).
  pose proof (same_current _ _ _ _ _ _ Hs Hc0) as [Hth2 Hn2].
  destruct Ht as [_ Ht|k l tx _ _ Hcs _ Htab [Hts _] _ _|k l c c' q q' [Hth Hn] _ Hend _ _ _ _ _ _].
  { rewrite (returned_same _ _ _ Hs) in Ht. congruence. }
  2:{ rewrite Hth2 in Hth. injection Hth as <- <-. rewrite Hn2 in Hn. injection Hn as <-. congruence. }
  assert (current (r (Datatypes.S j2)) w k l (System.mkClient tx System.Active [] None false)) as Hc.
  { split; [by rewrite Htab, lookup_insert_eq|by rewrite Hcs, lookup_insert_eq]. }
  destruct (current_rest _ w k l _ Hc) as [q Hq].
  destruct (attempt_ends w k l Hw q _ _ Hc Hq) as (j3 & c & Hle3 & Hc3 & Hend & Hread). cbn in Hread.
  exists j3. split; [lia|]. destruct (returned (r j3) w) eqn:Hret3; [by left|]. right.
  destruct Hc3 as [Hth3 Hn3]. unfold returned in Hret3. rewrite Hth3, Hn3 in Hret3. cbn in Hret3.
  destruct (System.c_phase c) as [| | | | |[ts|e]|] eqn:Hph; try done.
  - pose proof (run_total i (Datatypes.S j2) ltac:(lia)).
    enough (total (r j3) < total (r (Datatypes.S j2))) by lia.
    apply total_le; [intros; by apply run_owed|]. exists w. split; [done|].
    unfold owed. rewrite Hth3, Hn3. destruct Hc as [-> ->]. unfold settled. rewrite Hph, orb_true_r. cbn. lia.
  - destruct e as [len| |]; try done.
    destruct (r_blamed _ _ (run_inv j3) _ c len Hn3) as (e & key & He & _ & _ & _ & Hlt).
    { unfold Evolution.refused. by rewrite Hph. }
    destruct (run_hist i j3 ltac:(lia)) as [Hh|]; [|done]. exfalso. rewrite Hh in He.
    specialize (Hcaught j2 e ltac:(lia) He). rewrite Hread, Hts in Hlt. lia.
Qed.

Lemma thread_returns w : w < threads → ∃ j, ∀ j', j ≤ j' → returned (r j') w = true.
Proof using Hrun.
  intros Hw. enough (∀ b i, total (r i) ≤ b → ∃ j, returned (r j) w = true) as Hb.
  { destruct (Hb (total (r 0)) 0) as [j Hj]; [lia|]. exists j. intros j' Hle. by eapply run_returned. }
  induction b as [|b IH]; intros i Hi; (destruct (run_progress i w Hw) as (j & _ & [Hj|Hj]); [by exists j|]);
    [lia|]. apply (IH j). lia.
Qed.

Lemma all_return : ∃ j, ∀ j', j ≤ j' → ∀ w, w < threads → returned (r j') w = true.
Proof using Hrun. apply (run_all (λ x w, returned x w = true)). apply thread_returns. Qed.

End fair_run.

(** ** Properties *)


End retry.
#[global] Arguments t : clear implicits.
End Retry.
