(* ===== verification/Completion.v ===== *)
(** * What retry loops leave behind

    The threads of [Retry] on a database in memory, over a store that does not fail:
    no attempt ends with anything but success or a conflict, so every loop ends with
    a success; and the history grows by exactly one commit for each success of a
    transaction that writes. *)

From S2P Require Import Prelude RustStd Types StoreTrait CommitLog OracleState History.
From S2P Require Import Coordinator Handles Database System Recovery Conflicts Programs Retry.

Module Completion.

(** ** Definitions *)

(** A transaction that never gives up: on every path it commits. *)
Fixpoint no_exit (p : Program.prog) : Prop :=
  match p with
  | Program.Get _ k => ∀ v, no_exit (k v)
  | Program.Write _ _ p => no_exit p
  | Program.Commit => True
  | Program.Leave _ | Program.Crash => False
  end.

(** A transaction that does not commit without having written. *)
Definition writes_out (p : Program.prog) : Prop :=
  ∀ obs w, Program.reaches p Program.Commit obs w → w ≠ ∅.

Fixpoint written (p : Program.prog) (wrote : bool) : Prop :=
  match p with
  | Program.Get _ k => ∀ v, written (k v) wrote
  | Program.Write _ _ p => written p true
  | Program.Commit => wrote = true
  | Program.Leave _ | Program.Crash => True
  end.

Lemma written_writes_out p : written p false → writes_out p.
Proof.
  intros Hp obs w Hr. enough (∃ b, written Program.Commit b ∧ (b = true → w ≠ ∅)) as (b & Hb & Hw) by auto.
  remember Program.Commit as q eqn:E. clear E.
  induction Hr as [|key k obs w v _ IH _|key k obs w v _ IH _|key k obs w e _ IH|key v q obs w _ IH].
  - by exists false.
  - destruct IH as (b & Hb & Hw). exists b. split; [apply Hb|done].
  - destruct IH as (b & Hb & Hw). exists b. split; [apply Hb|done].
  - destruct IH as (b & _ & Hw). by exists b.
  - destruct IH as (b & Hb & _). exists true. split; [done|]. intros _. apply insert_non_empty.
Qed.

Section completion.
Context `{Profile} {S : Type} `{VersionStore S} {Disk W : Type} `{Wal Disk W} `{HashIter}.
Context `{!StoreLaws S}.
Context (threads : nat) (body : nat → nat → Program.prog) (ser : nat → bool) (count : nat → nat).

(** The thread has returned, and every one of its transactions has committed. *)
Definition completed (x : Retry.t S W) (w : nat) : bool :=
  match Retry.table x !! w with
  | None => count w =? 0
  | Some (Retry.mkThread k l) =>
     match System.c_phase <$> System.clients (Retry.sys x) !! Retry.id threads w k with
     | Some (System.Finished (Ok _)) => l =? 0
     | _ => false
     end
  end.

(** The contents client [c] reads. *)
Definition snapshot (s : System.t S W) (c : System.client) : Program.contents :=
  λ k, hist_view (System.hist s) k (Transaction.read_timestamp (System.c_tx c)).

(** All that has to be committed. *)
Definition due : nat := sum_list (count <$> seq 0 threads).

(** The database is in memory, and its store does not fail. *)
Definition infallible (x : Retry.t S W) : Prop :=
  Inner.log (System.inner (Retry.sys x)) = None ∧ ¬ vs_may_fail (S := S).

(** No attempt has met a failure, and no read can. *)
Definition unfailing (x : Retry.t S W) : Prop :=
  (∀ n c, System.clients (Retry.sys x) !! n = Some c → Evolution.failed c = false) ∧
  ¬ vs_may_fail (S := S).

(** A client to which no failure has happened is where its program, given what it
    read, has got to. *)
Record unfailed (n : nat) (c : System.client) (q : Program.prog) : Prop := {
  u_gone : System.c_phase c = System.RolledBack → (∃ e, q = Program.Leave e) ∨ q = Program.Crash;
  u_run m : (∀ k v, (k, v) ∈ System.c_obs c → m k = v) →
    Program.run (Retry.programs threads body count n) m ∅ =
      Program.run q m (Transaction.writes (System.c_tx c));
}.

Definition all_unfailed (x : Retry.t S W) : Prop :=
  ∀ n c, System.clients (Retry.sys x) !! n = Some c →
    ∃ q, Program.rest (Retry.prog_state x) !! n = Some q ∧ unfailed n c q.

Implicit Types x : Retry.t S W.

(** ** Lemmas: no failure *)

(** No step opens a log. *)
Lemma step_log h0 (s s' : System.t S W) :
  System.inv h0 s → System.step s s' → Inner.log (System.inner s) = None →
  Inner.log (System.inner s') = None.
Proof using Type.
  intros Hs Hstep Hl. destruct Hstep as [a s' E|m wm st _ _]; [|done].
  assert ((∃ n, a = System.AAppend n) ∨ ∀ n, a ≠ System.AAppend n) as [[n ->]|Hna]
    by (destruct a; (by left; eexists) || by right).
  - cbn in E. destruct (System.clients s !! n) as [[tx ph obs [ts|] app]|]; [destruct ph as [| |r| | | |]|destruct ph|]; try done. unfold Inner.append in E. rewrite Hl in E.
    destruct r; by injection E as <-.
  - destruct (Recovery.act_silent h0 s a s' Hs E Hna) as [-> _]. done.
Qed.

(** A step of a run changes one client, and that one evolves. *)
Lemma rstep_failed h0 x who x' :
  Retry.inv threads body ser count h0 x → System.room (Retry.sys x) 1 →
  Retry.rstep threads body ser count x who x' →
  (∀ n c, System.clients (Retry.sys x) !! n = Some c → Evolution.failed c = false) →
  (∀ n c c', System.clients (Retry.sys x) !! n = Some c →
     Evolution.evolves (Retry.sys x) (Retry.sys x') c c' → Evolution.failed c' = true → False) →
  ∀ n c, System.clients (Retry.sys x') !! n = Some c → Evolution.failed c = false.
Proof using Type.
  intros Hx Hr Hstep Hu Hev n c Hn. destruct who as [w|].
  2:{ destruct (Retry.rstep_collect _ _ _ _ x x' Hstep) as (Hcs & _). rewrite Hcs in Hn. by eapply Hu. }
  inversion Hstep as [w' x1 Hw E| | |]; subst.
  destruct (Retry.turn_cases _ _ _ _ h0 x w x' Hx Hr Hw E) as
    [-> _|k l tx _ _ Hcs _ _ _ _ _|k l c0 c' q q' [_ Hn0] _ _ _ Hcs _ _ He _]; [by eapply Hu|..];
    rewrite Hcs in Hn; apply lookup_insert_Some in Hn as [[_ <-]|[_ Hn]]; try by eapply Hu.
  - done.
  - apply not_true_is_false. intros Hf. by eapply Hev.
Qed.

(** So nothing fails when nothing can. *)
Lemma infallible_step h0 x who x' :
  Retry.inv threads body ser count h0 x → System.room (Retry.sys x) 1 →
  Retry.rstep threads body ser count x who x' →
  infallible x → unfailing x → infallible x' ∧ unfailing x'.
Proof using Type.
  intros Hx Hr Hstep [Hl Hf] [Hu _]. split; (split; [|done]).
  - destruct (Retry.rstep_pstep _ _ _ _ h0 x who x' Hx Hr Hstep) as [->|Hp]; [done|].
    eapply step_log; [apply Hx|by eapply Program.pstep_step|done].
  - eapply rstep_failed; [exact Hx|done|exact Hstep|done|].
    intros n c c' Hn Hev Hfail. destruct (Evolution.ev_failed _ _ _ _ Hev Hfail) as [E|[?|Hlog]]; [|done|].
    + by rewrite (Hu n c Hn) in E.
    + destruct Hlog as (_ & l & ? & ? & ? & E & _). congruence.
Qed.

(** ** Lemmas: where a client is *)

Lemma call_unfailed n c q c' q' :
  ¬ vs_may_fail (S := S) → Retry.nears c q c' q' → unfailed n c q → unfailed n c' q'.
Proof using Type.
  intros Hf Hnear [Hgone Hrun].
  destruct Hnear as [key k v c' Hact Hw Hobs|key k e c'|key v p c' Hact Hw Hobs|q c' Hq Hact Htx Hobs|c' _ Hact Htx Hobs];
    [|done|..].
  - split; [by rewrite Hact|]. intros m Hm. rewrite Hw.
    destruct (_ !! key) as [v'|] eqn:Hk; [destruct Hobs as [-> Hobs]|]; rewrite Hobs in Hm.
    + rewrite Hrun by done. cbn. unfold Program.after. by rewrite Hk.
    + rewrite Hrun by (intros; apply Hm; by right). cbn. unfold Program.after. rewrite Hk. cbn.
      by rewrite (Hm key v ltac:(by left)).
  - split; [by rewrite Hact|]. intros m. rewrite Hw, Hobs. apply Hrun.
  - split; [done|]. intros m. rewrite Htx, Hobs. apply Hrun.
  - split; [done|]. intros m. rewrite Htx, Hobs. apply Hrun.
Qed.

Lemma turn_unfailed x w x' :
  unfailing x → all_unfailed x → w < threads →
  Retry.turns threads body ser count x w x' → all_unfailed x'.
Proof using Type.
  intros [_ Hf] Hx Hw Hturn.
  destruct Hturn as [-> _|k l tx _ _ Hcs Hrs _ [_ Htx] _ _|k l c c' q q' [_ Hn] Hq _ _ Hcs Hrs _ Hev Hnear];
    [done|..]; intros n0 c0; rewrite Hcs, Hrs; intros [[<- <-]|[Hne Hn0]]%lookup_insert_Some.
  - rewrite lookup_insert_eq. eexists. split; [done|]. split; [done|]. intros m _. cbn.
    unfold Retry.programs. by rewrite Retry.id_mod, Retry.id_div, Htx.
  - rewrite lookup_insert_ne by done. by apply Hx.
  - rewrite lookup_insert_eq. eexists. split; [done|]. destruct (Hx _ _ Hn) as (q0 & Hq0 & Hu).
    rewrite Hq in Hq0. injection Hq0 as <-. by eapply call_unfailed.
  - rewrite lookup_insert_ne by done. by apply Hx.
Qed.

Lemma rstep_unfailed h0 x who x' :
  Retry.inv threads body ser count h0 x → System.room (Retry.sys x) 1 →
  Retry.rstep threads body ser count x who x' →
  unfailing x → all_unfailed x → all_unfailed x'.
Proof using Type.
  intros Hx Hr Hstep Hok Hu. destruct who as [w|].
  - inversion Hstep as [w' x1 Hw E| | |]; subst. eapply turn_unfailed; [done|done|done|].
    by eapply Retry.turn_cases.
  - destruct (Retry.rstep_collect _ _ _ _ x x' Hstep) as (Hcs & _ & Hrs & _).
    intros n c. rewrite Hcs, Hrs. apply Hu.
Qed.

(** ** Lemmas: the history counts the successes *)

Lemma finished_settled h0 x w k c :
  Retry.inv threads body ser count h0 x → w < threads → writes_out (body w (Retry.job count w k)) →
  System.clients (Retry.sys x) !! Retry.id threads w k = Some c →
  Retry.settled c = System.c_applied c.
Proof using Type.
  intros Hx Hw Hout Hn. unfold Retry.settled.
  destruct (System.c_phase c) as [| | | | |[ts|]|] eqn:Hph; try apply orb_false_r.
  destruct (System.c_applied c) eqn:Ha; [done|]. exfalso.
  pose proof (System.co_phase _ _ _ _ (System.i_clients _ _ (Retry.r_sys _ _ _ _ _ _ Hx) _ c Hn)) as Hok.
  unfold System.phase_ok, System.result_ok in Hok. rewrite Hph in Hok.
  destruct (System.c_ts c); [destruct Hok; congruence|]. destruct Hok as [_ Hempty].
  destruct (Retry.r_follow _ _ _ _ _ _ Hx _ c Hn) as (q & _ & [Hreach Hc _ _]).
  rewrite Hph in Hc. subst q. unfold Retry.programs in Hreach. rewrite Retry.id_mod, Retry.id_div in Hreach by done.
  by apply Hout in Hreach.
Qed.

Lemma turn_exact h0 x w x' :
  Retry.inv threads body ser count h0 x → Retry.inv threads body ser count h0 x' → w < threads →
  (∀ j, writes_out (body w j)) → Retry.turns threads body ser count x w x' →
  length (System.hist (Retry.sys x')) + Retry.owed threads count x' w =
    length (System.hist (Retry.sys x)) + Retry.owed threads count x w.
Proof using Type.
  intros Hx Hx' Hw Hout Hturn.
  destruct Hturn as [-> _|k l tx Hb Hn Hcs _ Ht _ Hh _|k l c c' q q' [Hth Hn] _ Hend _ Hcs _ Ht Hev _];
    [done|..].
  - by rewrite (Retry.begin_owed _ body ser _ h0 x w k l x' tx), Hh.
  - unfold Retry.owed. rewrite Ht, Hth, Hcs, lookup_insert_eq, Hn.
    rewrite (finished_settled h0 x w k c Hx Hw (Hout _) Hn).
    rewrite (finished_settled h0 x' w k c' Hx' Hw (Hout _)) by (by rewrite Hcs, lookup_insert_eq).
    destruct (Evolution.ev_applied _ _ _ _ Hev) as [[-> ->]|(-> & -> & (ts & _ & ->) & _)]; [done|].
    rewrite length_app. cbn. lia.
Qed.

Lemma rstep_exact h0 x who x' :
  Retry.inv threads body ser count h0 x → System.room (Retry.sys x) 1 →
  Retry.rstep threads body ser count x who x' → (∀ w j, w < threads → writes_out (body w j)) →
  length (System.hist (Retry.sys x')) + Retry.total threads count x' =
    length (System.hist (Retry.sys x)) + Retry.total threads count x.
Proof using Type.
  intros Hx Hr Hstep Hout. pose proof (Retry.rstep_inv _ _ _ _ h0 x who x' Hx Hr Hstep) as Hx'.
  destruct who as [w|].
  - assert (Hstep' := Hstep). inversion Hstep' as [w' x1 Hw E| | |]; subst.
    pose proof (turn_exact h0 x w x' Hx Hx' Hw (λ j, Hout w j Hw) (Retry.turn_cases _ _ _ _ h0 x w x' Hx Hr Hw E)).
    enough (Retry.total threads count x' + Retry.owed threads count x w =
      Retry.total threads count x + Retry.owed threads count x' w) by lia.
    apply sum_list_update; [apply NoDup_seq|apply elem_of_seq; lia|].
    intros w' Hw'%elem_of_seq Hne. eapply Retry.owed_same, Retry.rstep_same; [done|done|exact Hstep|congruence|lia].
  - destruct (Retry.rstep_collect _ _ _ _ x x' Hstep) as (Hcs & Ht & _ & -> & _). f_equal.
    unfold Retry.total. f_equal. apply list_fmap_ext. intros i w _. unfold Retry.owed. by rewrite Ht, Hcs.
Qed.

(** A returned thread to which no failure has happened and whose program cannot leave. *)
Lemma unfailed_completed h0 x w :
  Retry.inv threads body ser count h0 x → unfailing x → all_unfailed x → w < threads →
  (∀ k l c, Retry.current threads x w k l c → Retry.settled c = false →
     is_Some (Program.run (body w (Retry.job count w k)) (snapshot (Retry.sys x) c) ∅)) →
  Retry.returned threads count x w = true → completed x w = true.
Proof using Type.
  intros Hx [Hok _] Hu Hw Hruns. unfold Retry.returned, completed.
  destruct (Retry.table x !! w) as [[k l]|] eqn:Hth; [|done].
  destruct (System.clients (Retry.sys x) !! Retry.id threads w k) as [c|] eqn:Hn; [|done]. cbn.
  destruct (Hu _ c Hn) as (q & _ & [Hgone Hrun]). pose proof (Hok _ c Hn) as Hph.
  assert (System.client_ok (System.hist (Retry.sys x)) (Inner.watermark (System.inner (Retry.sys x)))
    (Oracle.next_ts (Inner.oracle (System.inner (Retry.sys x)))) c) as Hcok
    by (eapply System.i_clients; [apply Hx|done]).
  destruct (System.c_phase c) as [| | | | |[ts|e]|] eqn:E; try done.
  - intros He. unfold Evolution.failed in Hph. rewrite E in Hph. unfold Evolution.failure in Hph. congruence.
  - intros _. exfalso. destruct (Hruns k l c) as [wr Hwr]; [by split| |].
    { unfold Retry.settled. rewrite E, orb_false_r. pose proof (System.co_phase _ _ _ _ Hcok) as Hp.
      unfold System.phase_ok in Hp. rewrite E in Hp. by destruct Hp. }
    specialize (Hrun (snapshot (Retry.sys x) c)). unfold Retry.programs in Hrun.
    rewrite Retry.id_mod, Retry.id_div in Hrun by done. rewrite Hrun in Hwr.
    + by destruct (Hgone eq_refl) as [[? ->]| ->].
    + intros key v Hobs. symmetry. by apply (System.co_obs _ _ _ _ Hcok).
Qed.

Lemma no_exit_run p m w : no_exit p → is_Some (Program.run p m w).
Proof using Type.
  clear threads body ser count. revert w. induction p as [key k IH|key v p IH| |e|]; intros w Hp; cbn in *;
    [by apply IH|by apply IH|by eexists|done|done].
Qed.

(** ** Lemmas: fair runs *)

Section fair_run.
Context (h0 : History) (r : nat → Retry.t S W) (who : nat → option nat).
Context (Hrun : Retry.run threads body ser count h0 r who) (Hok : ∀ j, unfailing (r j)).

Lemma run_unfailed j : all_unfailed (r j).
Proof using Hrun Hok.
  induction j as [|j IH].
  - destruct (Retry.run_start _ _ _ _ _ _ _ Hrun) as (i & hz & _ & ->).
    intros n c Hn. cbn in Hn. by rewrite lookup_empty in Hn.
  - eapply rstep_unfailed; [by eapply Retry.run_inv|apply (Retry.run_room _ _ _ _ _ _ _ Hrun)|
      apply (Retry.run_step _ _ _ _ _ _ _ Hrun)|done|done].
Qed.

(** The history is what it was and one commit for each success. *)
Lemma run_exact j :
  (∀ w j, w < threads → writes_out (body w j)) →
  length (System.hist (Retry.sys (r j))) + Retry.total threads count (r j) = length h0 + due.
Proof using Hrun.
  intros Hout. induction j as [|j IH].
  - by destruct (Retry.run_start _ _ _ _ _ _ _ Hrun) as (i & hz & _ & ->).
  - rewrite <-IH. eapply rstep_exact; [by eapply Retry.run_inv|apply (Retry.run_room _ _ _ _ _ _ _ Hrun)|
      apply (Retry.run_step _ _ _ _ _ _ _ Hrun)|done].
Qed.

(** Every thread comes to complete, when its program run on what it reads commits. *)
Lemma runs_complete :
  (∀ j w k l c, w < threads → Retry.current threads (r j) w k l c → Retry.settled c = false →
     is_Some (Program.run (body w (Retry.job count w k)) (snapshot (Retry.sys (r j)) c) ∅)) →
  ∃ j, ∀ j', j ≤ j' → ∀ w, w < threads → completed (r j') w = true.
Proof using Hrun Hok.
  intros Hruns. destruct (Retry.all_return _ _ _ _ h0 r who Hrun) as [j Hj]. exists j. intros j' Hle w Hw.
  eapply unfailed_completed; [by eapply Retry.run_inv|done|apply run_unfailed|done| |by apply Hj].
  intros k l c. by apply Hruns.
Qed.

(** Completed threads owe nothing. *)
Lemma completed_owed x w : completed x w = true → Retry.owed threads count x w = 0.
Proof using Type.
  unfold completed, Retry.owed.
  destruct (Retry.table x !! w) as [[k l]|]; [|by intros ->%Nat.eqb_eq].
  destruct (_ !! Retry.id threads w k) as [c|]; [|done]. cbn.
  destruct (System.c_phase c) as [| | | | |[ts|]|] eqn:Hph; try done.
  intros ->%Nat.eqb_eq. unfold Retry.settled. by rewrite Hph, orb_true_r.
Qed.

Lemma completed_total j :
  (∀ w, w < threads → completed (r j) w = true) → Retry.total threads count (r j) = 0.
Proof using Type.
  intros Hall. unfold Retry.total.
  destruct (sum_list_le (Retry.owed threads count (r j)) (λ _, 0) (seq 0 threads)) as [Hle _].
  - intros w Hw%elem_of_seq. rewrite completed_owed; [done|]. apply Hall. lia.
  - enough (sum_list ((λ _, 0) <$> seq 0 threads) = 0) by lia. clear. by induction (seq 0 threads) as [|? ? IH]; [|exact IH].
Qed.

(** Then every client has returned. *)
Lemma completed_ended j n c :
  (∀ w, w < threads → completed (r j) w = true) → System.clients (Retry.sys (r j)) !! n = Some c →
  Evolution.ended (System.c_phase c) = true.
Proof using Hrun.
  intros Hall Hn. pose proof (Retry.run_inv _ _ _ _ h0 r who Hrun j) as Hinv.
  destruct (Retry.r_clients _ _ _ _ _ _ Hinv n) as (th & Hth & Hk); [by eexists|].
  destruct (Retry.r_table _ _ _ _ _ _ Hinv _ th Hth) as (Hw & _ & Hpast).
  rewrite (Retry.id_split threads n) in Hn.
  destruct (decide (n / threads = Retry.attempt th)) as [E|]; [|eapply Hpast; [|done]; lia].
  specialize (Hall _ Hw). unfold completed in Hall. rewrite Hth in Hall. destruct th as [k0 l0]. cbn in *.
  rewrite <-E, Hn in Hall. cbn in Hall. by destruct (System.c_phase c).
Qed.

(** And the present reads see every commit. *)
Lemma completed_visible j :
  (∀ w, w < threads → completed (r j) w = true) →
  visible (Inner.read_ts (System.inner (Retry.sys (r j)))) (System.hist (Retry.sys (r j))) =
    System.hist (Retry.sys (r j)).
Proof using Hrun.
  intros Hall. apply visible_all. intros e He.
  apply (Retry.quiet_covers threads body ser count h0 r who Hrun j j); [lia| |exact He].
  intros w Hw k c ts Hn Hp. exfalso. rewrite Retry.ended_quiet in Hp; [done|]. by eapply completed_ended.
Qed.

Lemma completed_length j :
  (∀ w, w < threads → completed (r j) w = true) → (∀ w j, w < threads → writes_out (body w j)) →
  length (System.hist (Retry.sys (r j))) = length h0 + due.
Proof using Hrun. intros Hall Hout. rewrite <-(run_exact j Hout), completed_total by done. lia. Qed.

End fair_run.

(** A database in memory stays one. *)
Lemma infallible_run h0 (r : nat → Retry.t S W) (who : nat → option nat) j :
  Retry.run threads body ser count h0 r who → infallible (r 0) → infallible (r j) ∧ unfailing (r j).
Proof using Type.
  intros Hrun Hinf. induction j as [|j [IH1 IH2]].
  - split; [done|]. split; [|apply Hinf].
    destruct (Retry.run_start _ _ _ _ _ _ _ Hrun) as (i & hz & _ & ->).
    intros n c Hn. cbn in Hn. by rewrite lookup_empty in Hn.
  - eapply infallible_step; [by eapply Retry.run_inv|apply (Retry.run_room _ _ _ _ _ _ _ Hrun)|
      apply (Retry.run_step _ _ _ _ _ _ _ Hrun)|done|done].
Qed.

(** ** Properties *)


End completion.
End Completion.
