(* ===== verification/Bank.v ===== *)
(** * Client: bank transfers

    [examples/bank_transfer.rs]: a transfer between two accounts in one
    transaction, retried while its commit conflicts. Module [Bank] is the code;
    its loop body is the client program [transfer_body], so that any number of
    transfers may run concurrently: they keep the total of the balances, and every
    audit sees that total. *)

From S2P Require Import Prelude RustStd Types StoreTrait CommitLog OracleState History.
From S2P Require Import Coordinator Handles Database System Programs.

Module Bank.

(** ** Definitions *)

(** [value.as_ref().map_or(0, ...)]: the first eight bytes, or a panic when there
    are fewer. *)
Definition balance (value : option bytes) : outcome N :=
  match value with
  | None => Ret 0%N
  | Some b => if 8 <=? length b then Ret (from_le_bytes (take 8 b)) else Panic
  end.

Definition set_balance (tx : Transaction.t) (account : bytes) (value : N) : Transaction.t :=
  Transaction.put tx account (to_le_bytes 8 value).

Definition insufficient : TxnError.t := TxnError.store "transfer" "insufficient funds".

Section bank.
Context `{Profile} {S : Type} `{VersionStore S} {Disk W : Type} `{Wal Disk W} `{HashIter}.

(** The early returns drop the transaction; [None] is running out of fuel. *)
Fixpoint transfer (fuel : nat) (i : Inner.t S W) (from to : bytes) (amount : N) :
    outcome (option (Inner.t S W * Result unit)) :=
  match fuel with
  | O => Ret None
  | Datatypes.S fuel =>
     '(i, tx) ← Db.begin i;
     '(i, tx, r) ← Transaction.get i tx from;
     match r with
     | Err e => i ← Transaction.rollback i tx; Ret (Some (i, Err e))
     | Ok value =>
        from_balance ← balance value;
        '(i, tx, r) ← Transaction.get i tx to;
        match r with
        | Err e => i ← Transaction.rollback i tx; Ret (Some (i, Err e))
        | Ok value =>
           to_balance ← balance value;
           if (from_balance <? amount)%N
           then i ← Transaction.rollback i tx; Ret (Some (i, Err insufficient))
           else
             debited ← sub_u64 from_balance amount;
             let tx := set_balance tx from debited in
             credited ← add_u64 to_balance amount;
             let tx := set_balance tx to credited in
             '(i, r) ← Transaction.commit i tx;
             match r with
             | Ok _ => Ret (Some (i, Ok tt))
             | Err e => if TxnError.is_retryable e then transfer fuel i from to amount
                        else Ret (Some (i, Err e))
             end
        end
     end
  end.

End bank.

(** The body of the loop as a client program. *)
Definition transfer_body `{Profile} (from to : bytes) (amount : N) : Program.prog :=
  Program.Get from (λ value,
    match balance value with
    | Panic => Program.Crash
    | Ret from_balance =>
       Program.Get to (λ value,
         match balance value with
         | Panic => Program.Crash
         | Ret to_balance =>
            if (from_balance <? amount)%N then Program.Leave insufficient
            else match sub_u64 from_balance amount with
                 | Panic => Program.Crash
                 | Ret debited =>
                    Program.Write from (Some (to_le_bytes 8 debited))
                      match add_u64 to_balance amount with
                      | Panic => Program.Crash
                      | Ret credited =>
                         Program.Write to (Some (to_le_bytes 8 credited)) Program.Commit
                      end
                 end
         end)
    end).

(** The contents [m] after moving [amount] between accounts with these balances. *)
Definition moved (from to : bytes) (amount fb tb : N) (m : Program.contents) : Program.contents :=
  λ k, if decide (k = to) then Some (to_le_bytes 8 (tb + amount))
       else if decide (k = from) then Some (to_le_bytes 8 (fb - amount))
       else m k.

(** The sum of the balances of [accounts]. *)
Fixpoint total (accounts : list bytes) (m : Program.contents) : outcome N :=
  match accounts with
  | [] => Ret 0%N
  | a :: accounts => b ← balance (m a); s ← total accounts m; Ret (b + s)%N
  end.

(** ** Lemmas *)

Section lemmas.
Context `{Profile}.

Lemma balance_Some x : (x < u64_modulus)%N → balance (Some (to_le_bytes 8 x)) = Ret x.
Proof.
  intros Hx. unfold balance. rewrite length_to_le_bytes. cbn [Nat.leb].
  rewrite take_ge by (rewrite length_to_le_bytes; lia). by rewrite from_to_le_bytes.
Qed.

Lemma total_perm l l' m : l ≡ₚ l' → total l m = total l' m.
Proof.
  induction 1 as [|a l l' _ IH|a b l|l1 l2 l3 _ IH1 _ IH2]; cbn; [done|by rewrite IH| |congruence].
  destruct (balance (m a)), (balance (m b)), (total l m); cbn; f_equal; lia.
Qed.

Lemma total_ext l m m' : (∀ a, a ∈ l → m a = m' a) → total l m = total l m'.
Proof.
  induction l as [|a l IH]; intros Hm; cbn; [done|].
  rewrite (Hm a) by set_solver. rewrite IH by set_solver. done.
Qed.

#[export] Instance total_proper l : Proper (pointwise_relation bytes eq ==> eq) (total l).
Proof. intros m m' Hm. apply total_ext. intros a _. apply Hm. Qed.

(** Two accounts and the rest. *)
Lemma total_two (accounts : list bytes) (from to : bytes) :
  NoDup accounts → from ∈ accounts → to ∈ accounts → from ≠ to →
  ∃ others, accounts ≡ₚ from :: to :: others ∧ from ∉ others ∧ to ∉ others.
Proof.
  intros Hnd [l1 El1]%elem_of_Permutation Hto Hne. rewrite El1 in Hnd, Hto.
  apply NoDup_cons in Hnd as [Hf Hnd].
  assert (to ∈ l1) as [l2 El2]%elem_of_Permutation by set_solver.
  rewrite El2 in El1, Hf, Hnd. apply NoDup_cons in Hnd as [Ht _].
  exists l2. split_and!; [done|set_solver|done].
Qed.

#[local] Arguments to_le_bytes : simpl never.

(** A transfer run alone between different accounts keeps the total. *)
Lemma transfer_keeps accounts from to amount T :
  NoDup accounts → from ∈ accounts → to ∈ accounts → from ≠ to → (T < u64_modulus)%N →
  Program.keeps_alone (λ m, total accounts m = Ret T) (transfer_body from to amount).
Proof.
  intros Hnd Hf Ht Hne HT m w. destruct (total_two _ _ _ Hnd Hf Ht Hne) as (l & Hp & Hfl & Htl).
  rewrite !(total_perm _ _ _ Hp). intros Htotal. cbn in Htotal.
  apply bind_Ret in Htotal as (fb & Hfb & (r & (tb & Htb & (s & Hs & [= <-])%bind_Ret)%bind_Ret
    & E)%bind_Ret).
  injection E as E. unfold transfer_body. rewrite Program.run_Get, Program.after_empty.
  cbv beta. rewrite Hfb. cbv iota. rewrite Program.run_Get, Program.after_empty. cbv beta.
  rewrite Htb. cbv iota. case_cmp; [done|].
  unfold sub_u64. case_cmp; [|lia]. cbn. unfold add_u64. case_cmp; [|lia]. cbn. intros [= <-].
  unfold Program.after. cbn [total]. rewrite (lookup_insert_ne _ to from), !lookup_insert_eq by done. cbn [from_option id].
  rewrite !balance_Some by lia. run.
  rewrite (total_ext l _ m), Hs; [cbn; f_equal; lia|].
  intros a Ha. by rewrite !lookup_insert_ne by set_solver.
Qed.

Lemma transfer_body_self_validating from to amount :
  Program.self_validating (transfer_body from to amount).
Proof.
  apply Program.covered_self_validating. intros v. destruct (balance v) as [fb|]; [|done].
  intros v'. destruct (balance v') as [tb|]; [|done]. case_cmp; [done|].
  destruct (sub_u64 fb amount); [|done]. cbn. destruct (add_u64 tb amount); [|done].
  right. set_solver.
Qed.

End lemmas.

(** ** Lemmas: the loop and its program *)

Section properties.
Context `{Profile} {S : Type} `{StoreLaws S} {Disk W : Type} `{Wal Disk W} `{HashIter}.

(** One turn of the retry loop of [transfer] is one attempt of the client
    program [transfer_body]: same calls, same result, and the loop goes round
    exactly when the commit was refused with a retryable error. *)
Lemma transfer_attempt fuel (i : Inner.t S W) from to amount :
  transfer (Datatypes.S fuel) i from to amount =
    ('(i, tx) ← Db.begin i;
     '(i, e) ← Program.exec i tx (transfer_body from to amount);
     match e with
     | Program.Left e => Ret (Some (i, Err e))
     | Program.Committed (Ok _) => Ret (Some (i, Ok tt))
     | Program.Committed (Err e) =>
        if TxnError.is_retryable e then transfer fuel i from to amount
        else Ret (Some (i, Err e))
     end).
Proof using Type.
  cbn [transfer]. destruct (Db.begin i) as [[i1 tx]|]; [|done]. run.
  unfold transfer_body. cbn [Program.exec].
  destruct (Transaction.get i1 tx from) as [[[i2 tx2] [v|e]]|]; [|run|done]; run.
  2:{ by destruct (Transaction.rollback i2 tx2). }
  destruct (balance v) as [fb|]; [|done]. run. cbn [Program.exec].
  destruct (Transaction.get i2 tx2 to) as [[[i3 tx3] [v'|e]]|]; [|run|done]; run.
  2:{ by destruct (Transaction.rollback i3 tx3). }
  destruct (balance v') as [tb|]; [|done]. run.
  case_cmp. { cbn [Program.exec]. by destruct (Transaction.rollback i3 tx3). }
  destruct (sub_u64 fb amount) as [d|]; [|done]. run. cbn [Program.exec].
  destruct (add_u64 tb amount) as [cr|]; [|done]. run. cbn [Program.exec].
  unfold set_balance, Transaction.put.
  by destruct (Transaction.commit i3 _) as [[i4 [ts|e]]|].
Qed.

(** The program alone, on both branches. *)
Lemma transfer_alone_run from to amount fb tb m :
  balance (m from) = Ret fb → balance (m to) = Ret tb → (tb + amount < u64_modulus)%N →
  Program.run (transfer_body from to amount) m ∅ =
    (if (fb <? amount)%N then None
     else Some (<[to := Some (to_le_bytes 8 (tb + amount))]>
                  {[from := Some (to_le_bytes 8 (fb - amount))]})) ∧
  Program.leaves (transfer_body from to amount) m ∅ =
    (if (fb <? amount)%N then Some insufficient else None).
Proof using Type.
  intros Hfb Htb Hcap. unfold transfer_body. cbn. rewrite !Program.after_empty, Hfb. cbn.
  rewrite !Program.after_empty, Htb. cbn. case_cmp; [done|].
  unfold sub_u64. case_cmp; [|lia]. cbn. unfold add_u64. by case_cmp; [|lia].
Qed.

(** What the batch of the program leaves. *)
Lemma transfer_effect (i : Inner.t S W) hz live m p from to amount fb tb :
  Program.run p m ∅ =
    (if (fb <? amount)%N then None
     else Some (<[to := Some (to_le_bytes 8 (tb + amount))]>
                  {[from := Some (to_le_bytes 8 (fb - amount))]})) →
  Program.took_effect hz live m p ∅ i →
  ∃ h, Inner.inv i live ∅ h hz ∧ (amount ≤ fb)%N ∧
    ∀ k, hist_view h k (Inner.read_ts i) = moved from to amount fb tb m k.
Proof using Type.
  intros Hrun (w & h & Hw & Hi & Hm). rewrite Hrun in Hw. case_cmp; [done|].
  injection Hw as <-. exists h. split_and!; [done|lia|]. intros k. rewrite Hm.
  unfold Program.after, moved. rewrite lookup_insert, lookup_singleton.
  by repeat case_decide; subst.
Qed.

(** ** Properties *)

(** A transfer on a database with nothing else in flight: it never panics or goes
    round. On success [amount] was covered and moved: [to] has its balance plus
    [amount], any other account that pays has its balance less [amount], and nothing
    else changed; the same holds behind an error of the log. Otherwise nothing
    changed, and the error is [insufficient] when [amount] is not covered, unless it
    is one of a store that may fail. For [from = to] this means that a covered
    transfer raises the balance by [amount]: the second write hides the first. *)
Theorem transfer_alone fuel (i : Inner.t S W) live h hz from to amount fb tb :
  Inner.inv i live ∅ h hz → Inner.room i live 2 →
  let m := λ k, hist_view h k (Inner.read_ts i) in
  balance (m from) = Ret fb → balance (m to) = Ret tb → (tb + amount < u64_modulus)%N →
  ∃ i' r h', transfer (Datatypes.S fuel) i from to amount = Ret (Some (i', r)) ∧
    Inner.inv i' live ∅ h' hz ∧
    match r with
    | Ok _ | Err (TxnError.Durability _) =>
       (amount ≤ fb)%N ∧
       ∀ k, hist_view h' k (Inner.read_ts i') = moved from to amount fb tb m k
    | Err e => h' = h ∧ ((fb < amount)%N ∧ e = insufficient ∨ vs_may_fail (S := S))
    end.
Proof using Type.
  intros Hi Hroom m Hfb Htb Hcap. rewrite transfer_attempt.
  pose proof (Program.exec_alone i live h hz false (transfer_body from to amount) Hi Hroom) as Hp.
  change (Transaction.new i false) with (Db.begin i) in Hp.
  pose proof (transfer_alone_run from to amount fb tb m Hfb Htb Hcap) as Hb. fold m in Hp.
  revert Hb Hp. generalize (transfer_body from to amount) as p. intros p [Hrun Hleaves] Hp.
  destruct (Db.begin i) as [[i1 tx]|]; cbn in Hp |- *;
    [|rewrite Hrun, Hleaves in Hp; by case_cmp; destruct Hp].
  destruct (Program.exec i1 tx p) as [[i2 [[ts|[]]|e]]|]; cbn in Hp |- *; try done.
  - by eapply transfer_effect in Hp as (h' & ? & ?); [eexists _, _, h'|..].
  - destruct Hp as [? ?]. eexists _, _, h. split_and!; [done..|]. split; [done|by right].
  - by eapply transfer_effect in Hp as (h' & ? & ?); [eexists _, _, h'|..].
  - destruct Hp as [Hp ?]. eexists _, _, h. split_and!; [done..|].
    destruct Hp as [Hp|(? & context & detail & ->)]; [|split; [done|by right]].
    rewrite Hleaves in Hp. case_cmp; [|done]. injection Hp as <-. split; [done|by left].
  - rewrite Hrun, Hleaves in Hp. by case_cmp; destruct Hp.
Qed.

(** C20: Concurrent transfers conserve money. Let any number of clients each run a
    transfer between two different accounts of [accounts], or any program that only
    reads, interleaved in any way. If the accounts total [T] from timestamp [t0]
    on, they total [T] in every later snapshot; and any client that read all
    accounts, however long it took, saw balances that total [T]. *)
Theorem bank_total_conserved programs serializable h0 (x : Program.t S W) accounts T t0 :
  Program.reachable programs serializable h0 x →
  NoDup accounts → (T < u64_modulus)%N →
  (∀ n, Program.read_only (programs n) ∨ ∃ from to amount,
    programs n = transfer_body from to amount ∧
    from ∈ accounts ∧ to ∈ accounts ∧ from ≠ to) →
  (∀ t, Timestamp.le t0 t → total accounts (λ k, hist_view h0 k t) = Ret T) →
  (∀ t, Timestamp.le t0 t →
     total accounts (λ k, hist_view (System.hist (Program.sys x)) k t) = Ret T) ∧
  ∀ n c m, System.clients (Program.sys x) !! n = Some c →
    Timestamp.le t0 (Transaction.read_timestamp (System.c_tx c)) →
    (∀ a, a ∈ accounts → (a, m a) ∈ System.c_obs c) → total accounts m = Ret T.
Proof using Type.
  intros Hreach Hnd HT Hprog Hinit.
  assert (HP : Proper (pointwise_relation bytes eq ==> iff) (λ m, total accounts m = Ret T)).
  { intros m m' Hm. by rewrite (total_proper accounts m m' Hm). }
  destruct (Program.keeps_invariant programs serializable h0 x _ t0 Hreach HP) as [Hall Hobs].
  - intros n. destruct (Hprog n) as [Hr|(from & to & amount & -> & ? & ? & ?)].
    + by apply Program.read_only_keeps.
    + by apply transfer_keeps.
  - intros n. right. destruct (Hprog n) as [Hr|(from & to & amount & -> & _)].
    + by apply Program.read_only_self_validating.
    + apply transfer_body_self_validating.
  - done.
  - split; [done|]. intros n c m Hn Hts Hread. destruct (Hobs n c Hn Hts) as (m' & <- & Hm').
    apply total_ext. intros a Ha. symmetry. by apply Hm', Hread.
Qed.

End properties.
End Bank.
