(* ===== verification/Counter.v ===== *)
(** * Client: a shared counter

    [examples/concurrent_counter.rs]: increments of one counter, each a
    read-modify-write transaction retried when it loses a race. Run concurrently
    by any number of clients, the counter is at every moment the number of
    increments applied: no update is lost. *)

From S2P Require Import Prelude RustStd Types StoreTrait CommitLog OracleState History.
From S2P Require Import Coordinator Handles Database System Programs Bank.

Module Counter.

(** ** Definitions *)

Definition COUNTER : bytes := [x63; x6f; x75; x6e; x74; x65; x72].

(** [fn read_u64]. *)
Definition read_u64 (b : bytes) : outcome N := Bank.balance (Some b).

(** [.map_or(0, |b| read_u64(&b))]. *)
Definition current (value : option bytes) : outcome N :=
  match value with None => Ret 0%N | Some b => read_u64 b end.

Section counter.
Context `{Profile} {S : Type} `{VersionStore S} {Disk W : Type} `{Wal Disk W} `{HashIter}.

(** The inner [loop]: one increment. [expect] and [panic!] panic; [None] is running
    out of fuel. *)
Fixpoint increment (fuel : nat) (i : Inner.t S W) (retries : N) :
    outcome (option (Inner.t S W * N)) :=
  match fuel with
  | O => Ret None
  | Datatypes.S fuel =>
     '(i, tx) ← Db.begin i;
     '(i, tx, r) ← Transaction.get i tx COUNTER;
     match r with
     | Err _ => Panic
     | Ok value =>
        n ← current value;
        n' ← add_u64 n 1;
        let tx := Transaction.put tx COUNTER (to_le_bytes 8 n') in
        '(i, r) ← Transaction.commit i tx;
        match r with
        | Ok _ => Ret (Some (i, retries))
        | Err e =>
           if TxnError.is_retryable e
           then retries ← add_u64 retries 1; increment fuel i retries
           else Panic
        end
     end
  end.

(** [fn increment_many]: [fuel] attempts for each increment. *)
Fixpoint increment_many (fuel : nat) (i : Inner.t S W) (count : nat) (retries : N) :
    outcome (option (Inner.t S W * N)) :=
  match count with
  | O => Ret (Some (i, retries))
  | Datatypes.S count =>
     r ← increment fuel i retries;
     match r with
     | Some (i, retries) => increment_many fuel i count retries
     | None => Ret None
     end
  end.

End counter.

(** The body of the loop as a client program, for the counter under [key]. *)
Definition increment_body `{Profile} (key : bytes) : Program.prog :=
  Program.Get key (λ value,
    match current value with
    | Panic => Program.Crash
    | Ret n =>
       match add_u64 n 1 with
       | Panic => Program.Crash
       | Ret n' => Program.Write key (Some (to_le_bytes 8 n')) Program.Commit
       end
    end).

(** The counter in some contents. *)
Definition value (key : bytes) (m : Program.contents) : outcome N := current (m key).

(** The client was told that its increment succeeded. *)
Definition acknowledged (c : System.client) : option unit :=
  match System.c_phase c with
  | System.Finished (Ok _) =>
     if bool_decide (Transaction.writes (System.c_tx c) = ∅) then None else Some tt
  | _ => None
  end.

(** Every client has returned, and none of them with an error of the log. *)
Definition all_returned {S W} (s : System.t S W) : Prop :=
  ∀ n c, System.clients s !! n = Some c →
    match System.c_phase c with
    | System.Finished (Err (TxnError.Durability _)) => False
    | System.Finished _ | System.RolledBack => True
    | _ => False
    end.

(** ** Lemmas *)

Section lemmas.
Context `{Profile} (key : bytes).
#[local] Arguments to_le_bytes : simpl never.

Lemma increment_body_self_validating : Program.self_validating (increment_body key).
Proof.
  apply Program.covered_self_validating. intros v. destruct (current v) as [n|]; [|done].
  destruct (add_u64 n 1); [|done]. right. set_solver.
Qed.

(** An increment run alone. *)
Lemma increment_run m w n :
  value key m = Ret n → (n + 1 < u64_modulus)%N → Program.run (increment_body key) m ∅ = Some w →
  value key (Program.after w m) = Ret (n + 1)%N.
Proof.
  unfold value. intros Hm Hn. unfold increment_body. rewrite Program.run_Get, Program.after_empty.
  cbv beta. rewrite Hm. unfold add_u64. case_cmp; [|lia]. cbn. intros [= <-].
  unfold Program.after. rewrite lookup_insert_eq. cbn [from_option id]. by apply Bank.balance_Some.
Qed.

Lemma value_ext m m' : m key = m' key → value key m = value key m'.
Proof. unfold value. by intros ->. Qed.

End lemmas.

Section concurrent.
Context `{Profile} {S : Type} `{StoreLaws S} {Disk W : Type} `{Wal Disk W} `{HashIter}.
Context (key : bytes) (programs : nat → Program.prog) (serializable : nat → bool).
Context (Hprog : ∀ n, programs n = increment_body key ∨ Program.read_only (programs n)).
Context (h0 : History) (x : Program.t S W) (Hreach : Program.reachable programs serializable h0 x).

(** The counter counts the commits a snapshot sees. *)
Definition counts (v0 : N) (g : History) : Prop :=
  ∃ d, length g = length h0 + d ∧
    ((v0 + N.of_nat d < u64_modulus)%N → value key (hist_now g) = Ret (v0 + N.of_nat d)%N).

Lemma increment_counts v0 n c :
  System.clients (Program.sys x) !! n = Some c → System.c_applied c = true →
  Program.commit_keeps (counts v0) c.
Proof using Hprog Hreach.
  intros Hn Ha g ts Hts Hval (d & Hlen & Hg).
  destruct (Program.commit_runs_alone programs serializable h0 x n c g Hreach Hn Ha) as [Hrun Hw].
  { right. destruct (Hprog n) as [->|?]; [apply increment_body_self_validating|].
    by apply Program.read_only_self_validating. }
  { done. }
  destruct (Hprog n) as [Ep|Hro].
  2:{ by apply Program.read_only_run in Hrun. }
  rewrite Ep in Hrun. exists (Datatypes.S d). rewrite length_app, Hlen. cbn. split; [lia|].
  intros Hroom. rewrite (value_ext key _ (Program.after (Transaction.writes (System.c_tx c)) (hist_now g)))
    by apply Program.hist_now_commit.
  replace (v0 + N.of_nat (Datatypes.S d))%N with (v0 + N.of_nat d + 1)%N by lia.
  apply increment_run; [apply Hg; lia|lia|done].
Qed.

(** With every client back, the read watermark covers the whole history. *)
Lemma returned_visible :
  all_returned (Program.sys x) →
  visible (Inner.read_ts (System.inner (Program.sys x))) (System.hist (Program.sys x)) =
    System.hist (Program.sys x) ∧
  length (collect System.applied (System.clients (Program.sys x))) =
    length (collect acknowledged (System.clients (Program.sys x))).
Proof using Hreach.
  intros Hret. pose proof (Program.reachable_system _ _ h0 x Hreach) as Hsys.
  pose proof (System.reachable_inv h0 _ Hsys) as Hs.
  destruct (System.i_inner _ _ Hs) as (inflight & hz & Hi & Hfl). split.
  - assert (inflight = ∅) as ->.
    { apply leibniz_equiv, elem_of_equiv_empty. intros ts (n & c & Hn & Hp)%Hfl.
      specialize (Hret n c Hn). unfold System.pending in Hp. by destruct (System.c_phase c). }
    pose proof (Db.quiet_watermark _ _ _ _ Hi) as Hwm.
    pose proof (Inner.inv_issued _ _ _ _ _ Hi) as Hiss. apply visible_all. intros c Hc%Hiss.
    change (Inner.watermark _) with
      (Timestamp.get (Inner.read_ts (System.inner (Program.sys x)))) in Hwm. lia.
  - f_equal. apply collect_ext. intros n c Hn. specialize (Hret n c Hn).
    destruct (System.i_clients _ _ Hs n c Hn).
    destruct (Program.reachable_follow _ _ h0 x Hreach n c Hn) as (q & _ & [_ _ _ Hw]).
    unfold System.applied, acknowledged, System.phase_ok, System.result_ok in *.
    destruct (System.c_phase c) as [| | | | |[ts|[]]|]; try done.
    + destruct (System.c_ts c).
      * destruct co_phase as [_ ->]. rewrite bool_decide_false; [done|]. by apply Hw.
      * destruct co_phase as [_ ->]. rewrite bool_decide_true by done.
        destruct (System.c_applied c); [|done]. by destruct co_ts.
    + by destruct co_phase as [-> _].
    + by destruct co_phase as [-> _].
    + by destruct co_phase as [_ ->].
Qed.

(** ** Properties *)

(** No increment is lost. Let any number of clients run increments of a key, any others
    only read, interleaved in any way. When all have returned, none with an error
    of the log, a read of the counter returns its value before the run plus exactly
    the number of clients that were told their increment succeeded. *)
Theorem counter_exact v0 :
  value key (hist_now h0) = Ret v0 → all_returned (Program.sys x) →
  (v0 + N.of_nat (length (collect acknowledged (System.clients (Program.sys x)))) < u64_modulus)%N →
  value key (λ k, hist_view (System.hist (Program.sys x)) k
    (Inner.read_ts (System.inner (Program.sys x)))) =
    Ret (v0 + N.of_nat (length (collect acknowledged (System.clients (Program.sys x)))))%N.
Proof using Hprog Hreach.
  intros Hv0 Hret Hroom. destruct (returned_visible Hret) as [Hvis Hack].
  pose proof (Program.reachable_system _ _ h0 x Hreach) as Hsys.
  pose proof (System.applied_history h0 _ Hsys) as Hlen. rewrite Hack in Hlen.
  set (t := Inner.read_ts _) in *. set (s := Program.sys x) in *.
  rewrite (value_ext key _ (hist_now (visible t (System.hist s)))) by by rewrite hist_now_visible.
  destruct (Program.visible_rule h0 s t (counts v0) Hsys) as (d & Hd & Hcount).
  - apply System.reachable_history in Hsys as [l Hl]. fold s in Hl.
    rewrite visible_all.
    { exists 0. rewrite N.add_0_r. by split; [lia|]. }
    intros c Hc. assert (c ∈ visible t (System.hist s)) as Hin.
    { rewrite Hvis, Hl. set_solver. }
    by apply list_elem_of_filter in Hin as [? _].
  - intros n c Hn Ha. by apply (increment_counts v0 n c).
  - rewrite Hvis in *. replace d with (length (collect acknowledged (System.clients s))) in * by lia.
    by apply Hcount.
Qed.

End concurrent.
End Counter.
