(* ===== verification/Doctors.v ===== *)
(** * Client: the on-call doctors

    [examples/serializable_doctors.rs]: a doctor may go off call only after seeing
    that another one is on. Module [Doctors] has the code of the example and the
    transaction as a client program: serializable transactions keep somebody on
    call in every interleaving, snapshot isolation does not. *)

From S2P Require Import Prelude RustStd Types StoreTrait MemStore CommitLog OracleState History.
From S2P Require Import Coordinator Handles Database System Programs.

Module Doctors.

(** ** Definitions *)

Definition ALICE : bytes :=
  [x6f; x6e; x5f; x63; x61; x6c; x6c; x3a; x61; x6c; x69; x63; x65].
Definition BOB : bytes := [x6f; x6e; x5f; x63; x61; x6c; x6c; x3a; x62; x6f; x62].

Inductive Isolation := ISnapshot | ISerializable.

(** [struct Outcome]. *)
Record Outcome := mkOutcome { alice_committed : bool; bob_committed : bool; on_call : nat }.

(** [value == [1]]. *)
Definition is_on (v : option bytes) : bool := bool_decide (v = Some [x01]).

Section doctors.
Context `{Profile} {S : Type} `{VersionStore S} {Disk W : Type} `{Wal Disk W} `{HashIter}.

(** [fn begin]. *)
Definition begin (i : Inner.t S W) (isolation : Isolation) :
    outcome (Inner.t S W * Transaction.t) :=
  match isolation with
  | ISnapshot => Db.begin i
  | ISerializable => Db.begin_serializable i
  end.

(** [filter(...).count()] over the doctors; a failed read does not count. *)
Fixpoint count_on (i : Inner.t S W) (tx : Transaction.t) (doctors : list bytes) :
    outcome (Inner.t S W * Transaction.t * nat) :=
  match doctors with
  | [] => Ret (i, tx, 0)
  | d :: doctors =>
     '(i, tx, r) ← Transaction.get i tx d;
     let on := match r with Ok v => is_on v | Err _ => false end in
     '(i, tx, n) ← count_on i tx doctors;
     Ret (i, tx, if on then Datatypes.S n else n)
  end.

Definition try_go_off_call (i : Inner.t S W) (tx : Transaction.t) (doctor : bytes) :
    outcome (Inner.t S W * Transaction.t * bool) :=
  '(i, tx, on_call) ← count_on i tx [ALICE; BOB];
  if 2 <=? on_call then Ret (i, Transaction.put tx doctor [x00], true)
  else Ret (i, tx, false).

(** [committed && tx.commit().is_ok()], and the transaction when it was not
    consumed, which lives to the end of the function. *)
Definition finish (i : Inner.t S W) (tx : Transaction.t) (decided : bool) :
    outcome (Inner.t S W * bool * option Transaction.t) :=
  if decided then '(i, r) ← Transaction.commit i tx; Ret (i, is_ok r, None)
  else Ret (i, false, Some tx).

Definition drop_rest (i : Inner.t S W) (tx : option Transaction.t) : outcome (Inner.t S W) :=
  match tx with Some tx => Transaction.rollback i tx | None => Ret i end.

(** The count over a snapshot. *)
Fixpoint count_snapshot (i : Inner.t S W) (snap : Snapshot.t) (doctors : list bytes) :
    outcome (Inner.t S W * nat) :=
  match doctors with
  | [] => Ret (i, 0)
  | d :: doctors =>
     '(i, r) ← Snapshot.get i snap d;
     let on := match r with Ok v => is_on v | Err _ => false end in
     '(i, n) ← count_snapshot i snap doctors;
     Ret (i, if on then Datatypes.S n else n)
  end.

(** [fn run]. *)
Definition run (i : Inner.t S W) (isolation : Isolation) :
    fallible (Inner.t S W * Outcome) :=
  '(i, seed) ← Db.begin i;
  let seed := Transaction.put seed ALICE [x01] in
  let seed := Transaction.put seed BOB [x01] in
  '(i, r) ← Transaction.commit i seed;
  match r with
  | Err e => Ret (Err e)
  | Ok _ =>
     '(i, alice) ← begin i isolation;
     '(i, bob) ← begin i isolation;
     '(i, alice, alice_committed) ← try_go_off_call i alice ALICE;
     '(i, bob, bob_committed) ← try_go_off_call i bob BOB;
     '(i, alice_committed, alice) ← finish i alice alice_committed;
     '(i, bob_committed, bob) ← finish i bob bob_committed;
     '(i, snap) ← Db.snapshot i;
     '(i, on_call) ← count_snapshot i snap [ALICE; BOB];
     i ← Snapshot.drop i snap;
     i ← drop_rest i bob;
     i ← drop_rest i alice;
     Ret (Ok (i, mkOutcome alice_committed bob_committed on_call))
  end.

End doctors.

(** [fn report]: the lines it prints. *)
Definition show (b : bool) : string := if b then "true" else "false".

Definition report (outcome : Outcome) : list string :=
  ["  alice went off call: " +:+ show (alice_committed outcome) +:+
     ", bob went off call: " +:+ show (bob_committed outcome);
   "  doctors still on call: " +:+ pretty (on_call outcome);
   if (on_call outcome =? 0)%nat then "  invariant VIOLATED — nobody is on call"
   else "  invariant held — at least one doctor on call"]%string.

(** [fn main]: what it prints; each run has a database of its own. *)
Definition main `{Profile} {Disk W : Type} `{Wal Disk W} `{HashIter} : fallible (list string) :=
  db ← Db.new (W := W);
  '(_, si) ←? run db ISnapshot;
  db ← Db.new (W := W);
  '(_, ser) ←? run db ISerializable;
  Ret (Ok (["under snapshot isolation:"%string] ++ report si ++
    [String (Ascii.ascii_of_nat 10) "under serializable isolation:"] ++ report ser)).

(** [try_go_off_call] and the commit as a client program. A doctor who stays, and one
    who could not read, drops the transaction. *)
Definition go_off_call (doctor : bytes) : Program.prog :=
  Program.Get ALICE (λ a,
    Program.Get BOB (λ b,
      if is_on a && is_on b then Program.Write doctor (Some [x00]) Program.Commit
      else Program.Leave (TxnError.store "doctors" "stays on call"))).

(** Somebody is on call. *)
Definition covered (m : Program.contents) : Prop := is_on (m ALICE) || is_on (m BOB) = true.

(** ** Lemmas *)

#[export] Instance covered_proper : Proper (pointwise_relation bytes eq ==> iff) covered.
Proof. intros m m' Hm. unfold covered. by rewrite !Hm. Qed.

Lemma go_off_call_keeps doctor :
  doctor = ALICE ∨ doctor = BOB → Program.keeps_alone covered (go_off_call doctor).
Proof.
  intros Hd m w _. unfold go_off_call. rewrite !Program.run_Get, !Program.after_empty. cbv beta.
  destruct (is_on (m ALICE) && is_on (m BOB)) eqn:E; [|done]. cbn. intros [= <-].
  apply andb_true_iff in E as [Ha Hb]. unfold covered, Program.after.
  apply orb_true_iff. destruct Hd as [-> | ->].
  - right. by rewrite lookup_insert_ne by done.
  - left. by rewrite lookup_insert_ne by done.
Qed.

(** ** Properties *)

(** C25: Somebody is always on call. Let any number of serializable clients, and any
    that only read, try to take a doctor off call, interleaved in any way. If
    somebody is on call from timestamp [t0] on, somebody is in every later
    snapshot, and a client that looked at both doctors saw one on call. *)
Theorem somebody_on_call `{Profile} {S : Type} `{StoreLaws S} {Disk W : Type} `{Wal Disk W}
    `{HashIter} programs serializable h0 (x : Program.t S W) t0 :
  Program.reachable programs serializable h0 x →
  (∀ n, Program.read_only (programs n) ∨ serializable n = true ∧
     ∃ doctor, programs n = go_off_call doctor ∧ (doctor = ALICE ∨ doctor = BOB)) →
  (∀ t, Timestamp.le t0 t → covered (λ k, hist_view h0 k t)) →
  (∀ t, Timestamp.le t0 t → covered (λ k, hist_view (System.hist (Program.sys x)) k t)) ∧
  ∀ n c a b, System.clients (Program.sys x) !! n = Some c →
    Timestamp.le t0 (Transaction.read_timestamp (System.c_tx c)) →
    (ALICE, a) ∈ System.c_obs c → (BOB, b) ∈ System.c_obs c → is_on a || is_on b = true.
Proof.
  intros Hreach Hprog Hinit.
  destruct (Program.keeps_invariant programs serializable h0 x covered t0 Hreach) as [Hall Hobs].
  - apply _.
  - intros n. destruct (Hprog n) as [Hr|(_ & doctor & -> & Hd)].
    + by apply Program.read_only_keeps; [apply _|].
    + by apply go_off_call_keeps.
  - intros n. destruct (Hprog n) as [Hr|[Hs _]]; [right|by left].
    by apply Program.read_only_self_validating.
  - done.
  - split; [done|]. intros n c a b Hn Hts Ha Hb. destruct (Hobs n c Hn Hts) as (m & Hm & Hread).
    unfold covered in Hm. by rewrite (Hread _ _ Ha), (Hread _ _ Hb) in Hm.
Qed.

(** The example, run. On a new database, with its two transactions from one
    snapshot: under snapshot isolation both doctors go off call and nobody is left;
    under serializable isolation the second commit is refused and one stays. *)
Theorem doctors_example :
  let outcome_of isolation :=
    (i ← Db.new (H := true) (W := MemWal);
     run (H := true) (Disk := MemWal) i isolation) in
  (∃ i, outcome_of ISnapshot = Ret (Ok (i, mkOutcome true true 0))) ∧
  (∃ i, outcome_of ISerializable = Ret (Ok (i, mkOutcome true false 1))).
Proof.
  split; eexists; by vm_compute.
Qed.

(** The lines of the example. *)
Example main_prints :
  main (H := true) (W := MemWal) = Ret (Ok
    ["under snapshot isolation:";
     "  alice went off call: true, bob went off call: true";
     "  doctors still on call: 0";
     "  invariant VIOLATED — nobody is on call";
     String (Ascii.ascii_of_nat 10) "under serializable isolation:";
     "  alice went off call: true, bob went off call: false";
     "  doctors still on call: 1";
     "  invariant held — at least one doctor on call"]%string).
Proof. by vm_compute. Qed.

End Doctors.
