(* ===== verification/CountingStore.v ===== *)
(** * Client: a custom store

    [examples/custom_store.rs]: a [VersionStore] that counts reads and applied
    versions and leaves the work to a [MemoryStore]. It is a second implementation
    of the store contract, so every theorem about the database holds over it; and
    its own promise, that the counter is the number of versions applied, holds in
    every concurrent run. *)

From S2P Require Import Prelude RustStd Types Chain StoreTrait MemStore CommitLog OracleState.
From S2P Require Import History Coordinator Handles Database System.

Module CountingStore.

(** ** Definitions *)

(** [struct Counters]. *)
Record Counters := mkCounters { reads : N; versions_applied : N }.

(** [struct CountingStore]. *)
Record t := mk { inner : MemoryStore.t; counters : Counters }.

(** [AtomicU64::fetch_add(n)] wraps. *)
Definition fetch_add (x n : N) : N := wrap_u64 (x + n).

Definition get (st : t) (key : bytes) (read_ts : Timestamp.t) :
    outcome (t * Result (option bytes)) :=
  let counters :=
    mkCounters (fetch_add (reads (counters st)) 1) (versions_applied (counters st)) in
  '(inner, r) ← MemoryStore.get (inner st) key read_ts;
  Ret (mk inner counters, r).

Definition try_commit (st : t) (read_ts commit_ts : Timestamp.t) (writes : list WriteEntry)
    (rs : list bytes) : outcome (t * Result unit) :=
  let count := wrap_u64 (N.of_nat (length writes)) in
  '(inner, outcome) ← MemoryStore.try_commit (inner st) read_ts commit_ts writes rs;
  let counters := if is_ok outcome
    then mkCounters (reads (counters st)) (fetch_add (versions_applied (counters st)) count)
    else counters st in
  Ret (mk inner counters, outcome).

(** [collect_garbage] is not overridden. *)
#[export] Instance version_store : VersionStore t := {|
  vs_get := get;
  vs_try_commit := try_commit;
  vs_collect_garbage := default_collect_garbage;
|}.

(** The counter is the number of versions in the inner store. *)
Definition counted (st : t) : Prop :=
  MemoryStore.wf (inner st) ∧
  versions_applied (counters st) = wrap_u64 (N.of_nat (MemoryStore.version_count (inner st))).

(** [CountingStore { inner: MemoryStore::new(), counters }], on two shards. *)
Definition sample : t := mk MemoryStore.sample_store (mkCounters 0 0).

(** ** Lemmas *)

Lemma version_count_push st key v :
  MemoryStore.wf st →
  MemoryStore.version_count (MemoryStore.push st key v) = S (MemoryStore.version_count st).
Proof.
  intros Hwf. destruct (MemoryStore.shard_of_index st Hwf key) as (chains & Hi & _).
  unfold MemoryStore.version_count, MemoryStore.push. cbn.
  rewrite (list_alter_as_insert _ _ _ chains), list_fmap_insert by done.
  pose proof (MemoryStore.sum_list_insert (MemoryStore.chains_size <$> MemoryStore.shards st)
    (MemoryStore.shard_of st key) (MemoryStore.chains_size chains)
    (MemoryStore.chains_size (MemoryStore.push_version key v chains))) as Hsum.
  rewrite list_lookup_fmap, Hi in Hsum. specialize (Hsum eq_refl).
  assert (MemoryStore.chains_size (MemoryStore.push_version key v chains) =
    S (MemoryStore.chains_size chains)) as E; [|lia].
  unfold MemoryStore.push_version. destruct (chains !! key) as [chain|] eqn:Hk; cbn.
  - rewrite <-insert_delete_eq, MemoryStore.chains_size_insert, length_app by apply lookup_delete_eq.
    rewrite (MemoryStore.chains_size_delete chains key chain Hk). cbn. lia.
  - by rewrite MemoryStore.chains_size_insert.
Qed.

Lemma version_count_install st ts writes :
  MemoryStore.wf st → MemoryStore.unchanged_keys st ts writes →
  MemoryStore.version_count (MemoryStore.install st ts writes) =
    MemoryStore.version_count st + length writes.
Proof.
  revert st. induction writes as [|[key v] writes IH]; intros st Hwf Hnew; [cbn; lia|].
  change (MemoryStore.install st ts ((key, v) :: writes)) with
    (MemoryStore.install (MemoryStore.push st key (mkVersion ts v)) ts writes).
  rewrite IH, version_count_push; [cbn; lia|done| |by apply MemoryStore.unchanged_keys_push].
  apply MemoryStore.push_wf; [done|]. apply Hnew. set_solver.
Qed.

Lemma wrap_u64_add x y : wrap_u64 (wrap_u64 x + wrap_u64 y) = wrap_u64 (x + y).
Proof. unfold wrap_u64. by rewrite <-N.Div0.add_mod. Qed.

(** The wrapper commits what the inner store commits, and counts it. *)
Lemma try_commit_counted st read_ts ts writes rs :
  counted st → (Timestamp.get read_ts ≤ Timestamp.get ts)%N →
  ∃ st' r, try_commit st read_ts ts writes rs = Ret (st', r) ∧ counted st' ∧
    MemoryStore.try_commit (inner st) read_ts ts writes rs = Ret (inner st', r).
Proof.
  intros [Hwf Hc] Hts. unfold try_commit.
  pose proof (MemoryStore.try_commit_result (inner st) read_ts ts writes rs Hwf Hts) as Hres.
  pose proof (MemoryStore.commit_unchanged (inner st) read_ts ts writes rs Hts) as Hnew.
  rewrite Hres. unfold MemoryStore.commit_result in *.
  destruct (MemoryStore.first_conflict _ _ _) as [key|]; run; eexists _, _; (split; [done|]).
  - by split.
  - specialize (Hnew eq_refl). split; [|done]. split; cbn; [by apply MemoryStore.install_wf|].
    unfold fetch_add. rewrite Hc, version_count_install, wrap_u64_add by done. f_equal. lia.
Qed.

(** ** The store meets the contract *)

#[export] Program Instance store_laws : StoreLaws t := {|
  vs_inv := counted;
  vs_view st key t := view (MemoryStore.chain_of (inner st) key) t;
  vs_changed st key t := changed_since (MemoryStore.chain_of (inner st) key) t;
  vs_gc_step _ st st' := st' = st;
  vs_may_fail := False;
|}.
Next Obligation.
  intros st key ts [Hwf Hc]. cbn. unfold get. rewrite MemoryStore.get_view by done.
  eexists _, _. by split_and!.
Qed.
Next Obligation.
  intros st read_ts ts writes rs Hst Hts Hnd.
  destruct (try_commit_counted st read_ts ts writes rs Hst Hts) as (st' & r & E & Hst' & Ein).
  exists st', r. split_and!; [done..|].
  pose proof (law_try_commit (inner st) read_ts ts writes rs (proj1 Hst) Hts Hnd)
    as (s' & r' & E' & _ & Hr). cbn in E'. rewrite Ein in E'. by injection E' as <- <-.
Qed.
Next Obligation. by intros wm st st' Hst ->. Qed.
Next Obligation. intros st wm _. by exists st, 0. Qed.

Lemma sample_vs_empty : vs_empty sample.
Proof.
  split; [by split; [apply MemoryStore.sample_store_wf|vm_compute]|]. intros k t. cbn.
  by rewrite MemoryStore.sample_store_empty.
Qed.

(** ** Properties *)

(** The counters of the custom store are right in every concurrent run: whatever
    clients and collections do, [versions_applied] is, up to the wrap-around of the
    counter, the number of versions the inner store holds; and collections through
    the wrapper reclaim none of them. *)
Theorem counters_exact `{Profile} {Disk W : Type} `{Wal Disk W} `{HashIter} h0 (s : System.t t W) :
  System.reachable h0 s →
  let st := Inner.store (System.inner s) in
  versions_applied (counters st) = wrap_u64 (N.of_nat (MemoryStore.version_count (inner st))) ∧
  Db.collect_garbage (System.inner s) = Ret (System.inner s, 0).
Proof.
  intros Hs%System.reachable_inv. destruct (System.i_inner _ _ Hs) as (fl & hz & Hi & _).
  split; [apply (Inner.inv_store _ _ _ _ _ Hi)|].
  unfold Db.collect_garbage, Inner.collect_garbage. cbn. by destruct (System.inner s).
Qed.

End CountingStore.
