(* ===== verification/Threads.v ===== *)
(** * Threads that share a key

    Whole runs of two multi-threaded programs of the repository on a database in
    memory, under a fair scheduler: the counter of
    [examples/concurrent_counter.rs] (module [CounterThreads]) and the contended
    writers of the test
    [test_autocommit_put_is_last_writer_wins_under_contention] of [src/db.rs]
    (module [Writers]). The threads are those of [Retry]; that they come to an end,
    and that each of their transactions commits, is [Completion]. *)

From S2P Require Import Prelude RustStd Types StoreTrait MemStore CommitLog OracleState History.
From S2P Require Import Coordinator Handles Database System Conflicts Programs Retry Completion Bank Counter.

(** What every commit keeps holds of what a present read sees, once every thread is
    done. *)
Lemma completed_rule `{Profile} {S : Type} `{StoreLaws S} {Disk W : Type} `{Wal Disk W} `{HashIter}
    (threads : nat) (body : nat → nat → Program.prog) (ser : nat → bool) (count : nat → nat)
    h0 (r : nat → Retry.t S W) who j (P : History → Prop) :
  Retry.run threads body ser count h0 r who →
  (∀ w, w < threads → Completion.completed threads count (r j) w = true) →
  (∀ w j, w < threads → Completion.writes_out (body w j)) → P h0 →
  (∀ n c, System.clients (Retry.sys (r j)) !! n = Some c → System.c_applied c = true →
     Program.commit_keeps P c) →
  P (System.hist (Retry.sys (r j))) ∧
    length (System.hist (Retry.sys (r j))) = length h0 + Completion.due threads count ∧
    ∀ k, hist_now (System.hist (Retry.sys (r j))) k =
      hist_view (System.hist (Retry.sys (r j))) k (Inner.read_ts (System.inner (Retry.sys (r j)))).
Proof.
  intros Hrun Hall Hout HP Hkeep.
  pose proof (Completion.completed_visible threads body ser count h0 r who Hrun j Hall) as Hvis.
  pose proof (Completion.completed_length threads body ser count h0 r who Hrun j Hall Hout) as Hlen.
  set (s := Retry.sys (r j)) in *. set (t := Inner.read_ts (System.inner s)) in *.
  pose proof (Program.reachable_system _ _ h0 _ (Retry.fair_run_reachable threads body ser count h0 r who Hrun j))
    as Hsys. split_and!; [|done|].
  - rewrite <-Hvis. apply (Program.visible_rule h0 s t P Hsys); [|done].
    rewrite visible_all; [done|]. intros c Hc. eapply (Retry.run_initial threads body ser count); done.
  - intros k. rewrite <-Hvis at 1. apply hist_now_visible.
Qed.

(** * Contended writers *)

Module Writers.

(** ** Definitions *)

(** One pass of the loop of [Db::put], or, for [None], of [Db::delete]. *)
Definition write_body (key : bytes) (value : option bytes) : Program.prog :=
  Program.Write key value Program.Commit.

(** The test: 8 threads put [vec![t]] 100 times each. *)
Definition test_threads : nat := 8.
Definition test_count (w : nat) : nat := 100.
Definition hot : bytes := [x68; x6f; x74].
Definition test_value (w : nat) : option bytes := Some [as_u8 (N.of_nat w)].

(** ** Lemmas *)

Section writers.
Context `{Profile} {S : Type} `{StoreLaws S} {Disk W : Type} `{Wal Disk W} `{HashIter}.
Context (threads : nat) (key : bytes) (value : nat → option bytes) (ser : nat → bool) (count : nat → nat).
Context (h0 : History) (r : nat → Retry.t S W) (who : nat → option nat).

(** Each commit leaves the key with the value of one of the threads. *)
Lemma writers_keep j n c :
  0 < threads → Retry.run threads (λ w _, write_body key (value w)) ser count h0 r who →
  System.clients (Retry.sys (r j)) !! n = Some c → System.c_applied c = true →
  Program.commit_keeps (λ g, length h0 < length g →
    ∃ w, w < threads ∧ hist_now g key = value w) c.
Proof.
  intros Hpos Hrun Hn Ha g ts Hts Hval _ _.
  pose proof (Retry.fair_run_reachable _ _ _ _ h0 r who Hrun j) as Hreach.
  destruct (Program.commit_runs_alone _ _ h0 _ n c g Hreach Hn Ha) as [Hw _]; [|done|].
  { right. apply Program.covered_self_validating. right. set_solver. }
  exists (n mod threads). split; [apply Nat.mod_upper_bound; lia|].
  rewrite Program.hist_now_commit. cbn in Hw. injection Hw as <-. unfold Program.after.
  by rewrite lookup_insert_eq.
Qed.

(** ** Properties *)

(** Contended writers, as in the test of [src/db.rs]. Any number of threads
    put or delete one key in a database in memory, each with a value of its own and
    any number of times. In every fair run all calls come to return [Ok], and from
    then on, if there was a call at all, a read finds what one of the threads wrote. *)
Theorem contended_writes :
  Retry.run threads (λ w _, write_body key (value w)) ser count h0 r who →
  Completion.infallible (r 0) → 0 < Completion.due threads count →
  ∃ j, ∀ j', j ≤ j' → (∀ w, w < threads → Completion.completed threads count (r j') w = true) ∧
    ∃ w, w < threads ∧
      hist_view (System.hist (Retry.sys (r j'))) key
        (Inner.read_ts (System.inner (Retry.sys (r j')))) = value w.
Proof.
  intros Hrun Hinf Hdue.
  assert (∀ w (j : nat), w < threads → Completion.writes_out (write_body key (value w))) as Hout
    by (intros; by apply Completion.written_writes_out).
  destruct (Completion.runs_complete _ _ _ _ h0 r who Hrun
    (λ j, proj2 (Completion.infallible_run _ _ _ _ h0 r who j Hrun Hinf))) as [j Hj].
  { intros. by apply Completion.no_exit_run. }
  exists j. intros j' Hle. specialize (Hj j' Hle). split; [done|].
  assert (0 < threads) as Hpos by (destruct threads; [cbn in Hdue; lia|lia]).
  destruct (completed_rule _ _ _ _ h0 r who j' (λ g, length h0 < length g →
    ∃ w, w < threads ∧ hist_now g key = value w) Hrun Hj Hout) as (HP & Hlen & Hview); [lia|..].
  { intros n c. by apply writers_keep. }
  rewrite <-Hview. apply HP. lia.
Qed.

End writers.

(** The test passes in every fair run: all threads join, and the key exists and
    holds one byte below 8. *)
Corollary test_autocommit_put_is_last_writer_wins_under_contention
    `{Profile} {S : Type} `{StoreLaws S} {Disk W : Type} `{Wal Disk W} `{HashIter}
    (r : nat → Retry.t S W) (who : nat → option nat) :
  Retry.run test_threads (λ w _, write_body hot (test_value w)) (λ _, false) test_count [] r who →
  Completion.infallible (r 0) →
  ∃ j, ∀ j', j ≤ j' →
    (∀ w, w < test_threads → Completion.completed test_threads test_count (r j') w = true) ∧
    ∃ b, hist_view (System.hist (Retry.sys (r j'))) hot
      (Inner.read_ts (System.inner (Retry.sys (r j')))) = Some [b] ∧ (Byte.to_N b < 8)%N.
Proof.
  intros Hrun Hinf. destruct (contended_writes _ hot test_value _ test_count [] r who Hrun Hinf) as [j Hj].
  { apply Nat.ltb_lt. vm_compute. reflexivity. }
  exists j. intros j' Hle. destruct (Hj j' Hle) as (Hall & w & Hw & ->). split; [done|].
  eexists. split; [done|]. unfold test_threads in Hw.
  do 8 (destruct w as [|w]; [by vm_compute|]). lia.
Qed.

End Writers.

(** * The counter *)

Module CounterThreads.
(** ** Lemmas *)

Lemma increment_writes_out `{Profile} key : Completion.writes_out (Counter.increment_body key).
Proof.
  apply Completion.written_writes_out. intros v. destruct (Counter.current v) as [n|]; [|done].
  by destruct (add_u64 n 1).
Qed.

Lemma increment_commits `{Profile} key m n :
  Counter.value key m = Ret n → (n + 1 < u64_modulus)%N →
  is_Some (Program.run (Counter.increment_body key) m ∅).
Proof.
  unfold Counter.value. intros Hm Hn. unfold Counter.increment_body.
  rewrite Program.run_Get, Program.after_empty. cbv beta. rewrite Hm. unfold add_u64.
  case_cmp; [|lia]. by eexists.
Qed.

(** [read_u64(&db.snapshot().get(key)?)]. *)
Definition counter_now {S W : Type} (key : bytes) (x : Retry.t S W) : outcome N :=
  Counter.value key (λ k, hist_view (System.hist (Retry.sys x)) k
    (Inner.read_ts (System.inner (Retry.sys x)))).

Section counter.
Context `{Profile} {S : Type} `{StoreLaws S} {Disk W : Type} `{Wal Disk W} `{HashIter}.
Context (key : bytes) (threads : nat) (ser : nat → bool) (count : nat → nat).
Context (h0 : History) (r : nat → Retry.t S W) (who : nat → option nat).
Context (Hrun : Retry.run threads (λ _ _, Counter.increment_body key) ser count h0 r who).
Context (Hok : ∀ j, Completion.unfailing (r j)).
Context (v0 : N) (Hv0 : Counter.value key (hist_now h0) = Ret v0).
Context (Hroom : (v0 + N.of_nat (Completion.due threads count) < u64_modulus)%N).

Lemma increments_count j t :
  (∀ e, e ∈ h0 → (ts_of e ≤ Timestamp.get t)%N) →
  Counter.counts key h0 v0 (visible t (System.hist (Retry.sys (r j)))).
Proof using Hrun Hv0.
  intros Ht. pose proof (Retry.fair_run_reachable _ _ _ _ h0 r who Hrun j) as Hreach.
  apply (Program.visible_rule h0); [by eapply Program.reachable_system|..].
  - exists 0. rewrite visible_all, Nat.add_0_r, N.add_0_r by done. by split.
  - intros n c. eapply Counter.increment_counts; [|done]. intros n'. by left.
Qed.

(** An increment that is still owed finds a number it can add one to. *)
Lemma increment_ready j w k l c :
  w < threads → Retry.current threads (r j) w k l c → Retry.settled c = false →
  is_Some (Program.run (Counter.increment_body key) (Completion.snapshot (Retry.sys (r j)) c) ∅).
Proof using All.
  intros Hw [Hth Hn] Hset.
  set (t := Transaction.read_timestamp (System.c_tx c)).
  destruct (increments_count j t) as (d & Hlen & Hval).
  { intros e. by eapply (Retry.run_snapshots threads _ ser count h0 r who Hrun j). }
  assert (d < Completion.due threads count) as Hd.
  { pose proof (Completion.run_exact threads _ ser count h0 r who Hrun j
      (λ _ _ _, increment_writes_out key)) as Hexact.
    assert (length (visible t (System.hist (Retry.sys (r j)))) ≤ length (System.hist (Retry.sys (r j))))
      by apply length_filter.
    assert (0 < Retry.total threads count (r j)); [|lia].
    assert (Retry.owed threads count (r j) w ∈ Retry.owed threads count (r j) <$> seq 0 threads) as Hin
      by (apply list_elem_of_fmap_2, elem_of_seq; lia).
    pose proof (sum_list_with_in _ id _ Hin) as Hle. unfold Retry.total. unfold Retry.owed at 1 in Hle.
    rewrite Hth, Hn, Hset in Hle. unfold id at 1 in Hle. lia. }
  apply (increment_commits key _ (v0 + N.of_nat d)); [|lia]. rewrite <-Hval by lia.
  apply (Counter.value_ext key). unfold Completion.snapshot. by rewrite hist_now_visible.
Qed.

Lemma increments_complete :
  ∃ j, ∀ j', j ≤ j' → (∀ w, w < threads → Completion.completed threads count (r j') w = true) ∧
    counter_now key (r j') = Ret (v0 + N.of_nat (Completion.due threads count))%N.
Proof using All.
  destruct (Completion.runs_complete _ _ _ _ h0 r who Hrun Hok increment_ready) as [j Hj].
  exists j. intros j' Hle. specialize (Hj j' Hle). split; [done|].
  destruct (completed_rule _ _ _ _ h0 r who j' (Counter.counts key h0 v0) Hrun Hj)
    as ((d & Hd & Hval) & Hlen & Hview); [intros; apply increment_writes_out|..].
  - exists 0. rewrite Nat.add_0_r, N.add_0_r. by split.
  - intros n c. eapply Counter.increment_counts; [|by eapply Retry.fair_run_reachable]. intros n'. by left.
  - replace (Completion.due threads count) with d by lia. rewrite <-Hval by lia.
    apply (Counter.value_ext key). by rewrite Hview.
Qed.

End counter.

(** ** Properties *)

(** C15: The shared counter, from start to end, as [examples/concurrent_counter.rs]
    asserts. Threads increment the counter of a database in memory, thread [w]
    [count w] times, each increment retried when it loses a race. In every fair run
    all threads come to return with every increment committed, none panics, and from
    then on the counter reads as its initial value plus exactly the number of
    increments issued. *)
Theorem counter_total `{Profile} {S : Type} `{StoreLaws S} {Disk W : Type} `{Wal Disk W} `{HashIter}
    key threads ser count h0 (r : nat → Retry.t S W) who v0 :
  Retry.run threads (λ _ _, Counter.increment_body key) ser count h0 r who →
  Completion.infallible (r 0) → Counter.value key (hist_now h0) = Ret v0 →
  (v0 + N.of_nat (Completion.due threads count) < u64_modulus)%N →
  ∃ j, ∀ j', j ≤ j' → (∀ w, w < threads → Completion.completed threads count (r j') w = true) ∧
    counter_now key (r j') = Ret (v0 + N.of_nat (Completion.due threads count))%N.
Proof.
  intros Hrun Hinf. eapply increments_complete; [exact Hrun|].
  intros j. by eapply Completion.infallible_run.
Qed.

(** A new database and one commit, of [value] under [key]. *)
Definition seed `{Profile} {Disk W : Type} `{Wal Disk W} `{HashIter} (key value : bytes) :
    outcome (Inner.t MemoryStore.t W * Result Timestamp.t) :=
  db ← Db.new;
  '(db, tx) ← Db.begin db;
  Transaction.commit db (Transaction.put tx key value).

(** Up to the threads: the counter at zero. *)
Definition initialise `{Profile} {Disk W : Type} `{Wal Disk W} `{HashIter} (key : bytes) :
    outcome (Inner.t MemoryStore.t W * Result Timestamp.t) := seed key (to_le_bytes 8 0).

Lemma seed_spec `{Profile} {Disk W : Type} `{Wal Disk W} `{HashIter} key value :
  ∃ i ts h0 hz, seed (W := W) key value = Ret (i, Ok ts) ∧ Inner.inv i [] ∅ h0 hz ∧ Inner.log i = None ∧
    hist_now h0 key = Some value.
Proof.
  destruct MemoryStore.new_spec as (st & E & Hwf & Hc & _).
  assert (Inner.inv (W := W) (Inner.new st) [] ∅ [] 0) as Hi.
  { apply Inner.new_inv. split; [done|]. intros k t. cbn. by rewrite Hc. }
  unfold seed, Db.new. rewrite E. cbn [mbind outcome_bind]. unfold Db.with_store, Db.begin.
  destruct (Transaction.new_tx_inv _ _ _ _ _ false Hi) as (i1 & tx & -> & Hi1 & Hts & Hw & _ & _ & Hl & Hn & _);
    [done|]. run.
  destruct (Transaction.commit_inv i1 _ _ _ _ (Transaction.put tx key value) Hi1)
    as (i & r & -> & _ & _ & Hlog & Hpost & _); [by rewrite Hn|apply insert_non_empty|].
  assert (Inner.log i1 = None) as Hl1 by by rewrite Hl.
  unfold Inner.commit_post in Hpost. rewrite Hl1 in Hlog, Hpost.
  destruct r as [ts|[len| |]].
  - destruct Hpost as (-> & Hi' & _). eexists _, _, _, _. split_and!; [done|exact Hi'|..].
    + destruct (Inner.log i); [|done]. by destruct Hlog.
    + rewrite Program.hist_now_commit. unfold Program.after. cbn. by rewrite lookup_insert_eq.
  - by destruct Hpost as (_ & _ & k & _ & ? & _).
  - by destruct Hpost as (_ & _ & ?).
  - by destruct Hpost as (_ & [? ?] & _).
Qed.

Lemma initialise_spec `{Profile} {Disk W : Type} `{Wal Disk W} `{HashIter} key :
  ∃ i ts h0 hz, initialise (W := W) key = Ret (i, Ok ts) ∧ Inner.inv i [] ∅ h0 hz ∧ Inner.log i = None ∧
    Counter.value key (hist_now h0) = Ret 0%N.
Proof.
  destruct (seed_spec key (to_le_bytes 8 0)) as (i & ts & h0 & hz & E & Hi & Hl & Hv).
  exists i, ts, h0, hz. split_and!; [done..|]. unfold Counter.value. rewrite Hv. by apply Bank.balance_Some.
Qed.

(** A program that initialises the counter under [key], starts [threads] threads of
    [per_thread] increments and joins them: the initialisation succeeds, and in every
    fair run of the threads from there all of them join and the counter ends at
    [threads * per_thread]. *)
Theorem final_value `{Profile} {Disk W : Type} `{Wal Disk W} `{HashIter} key threads (per_thread : N) :
  (N.of_nat threads * per_thread < u64_modulus)%N →
  ∃ i ts h0 hz, initialise (W := W) key = Ret (i, Ok ts) ∧ Inner.inv i [] ∅ h0 hz ∧
    ∀ (r : nat → Retry.t MemoryStore.t W) (who : nat → option nat),
      Retry.run threads (λ _ _, Counter.increment_body key) (λ _, false) (λ _, N.to_nat per_thread)
        h0 r who → r 0 = Retry.start i h0 →
      ∃ j, ∀ j', j ≤ j' →
        (∀ w, w < threads →
          Completion.completed threads (λ _, N.to_nat per_thread) (r j') w = true) ∧
        counter_now key (r j') = Ret (N.of_nat threads * per_thread)%N.
Proof.
  intros Hsmall. destruct (initialise_spec key) as (i & ts & h0 & hz & E & Hi & Hl & Hv).
  exists i, ts, h0, hz. split_and!; [done|done|]. intros r who Hrun Hstart.
  assert (N.of_nat (Completion.due threads (λ _, N.to_nat per_thread)) = N.of_nat threads * per_thread)%N
    as Hdue.
  { unfold Completion.due. rewrite sum_list_fmap_same with (n := N.to_nat per_thread).
    - rewrite length_seq. lia.
    - by apply Forall_true. }
  assert (Completion.infallible (r 0)) as Hinf by (split; [by rewrite Hstart|by intros []]).
  destruct (increments_complete key _ _ _ h0 r who Hrun) with (v0 := 0%N) as [j Hj];
    [intros j; by eapply Completion.infallible_run|done|by rewrite Hdue|].
  exists j. intros j' Hle. rewrite Hdue in Hj. by apply Hj.
Qed.

(** [examples/concurrent_counter.rs]: [const THREADS], [const PER_THREAD]. *)
Definition THREADS : nat := 8.
Definition PER_THREAD : N := 1000.

(** The assertion of the example's [main]. *)
Corollary concurrent_counter `{Profile} {Disk W : Type} `{Wal Disk W} `{HashIter} :
  ∃ i ts h0 hz, initialise (W := W) Counter.COUNTER = Ret (i, Ok ts) ∧ Inner.inv i [] ∅ h0 hz ∧
    ∀ (r : nat → Retry.t MemoryStore.t W) (who : nat → option nat),
      Retry.run THREADS (λ _ _, Counter.increment_body Counter.COUNTER) (λ _, false)
        (λ _, N.to_nat PER_THREAD) h0 r who → r 0 = Retry.start i h0 →
      ∃ j, ∀ j', j ≤ j' →
        (∀ w, w < THREADS → Completion.completed THREADS (λ _, N.to_nat PER_THREAD) (r j') w = true) ∧
        counter_now Counter.COUNTER (r j') = Ret 8000%N.
Proof. exact (final_value Counter.COUNTER THREADS PER_THREAD eq_refl). Qed.

End CounterThreads.
