(* ===== verification/OneShot.v ===== *)
(** * One-shot writes as threads

    [Db::put] and [Db::delete] are loops in [src/db.rs]. A thread of [Retry] that has
    one such write to make, and gets all the turns, does what the loop does: attempt
    by attempt, with the same result and the same shared state. *)

From S2P Require Import Prelude RustStd Types StoreTrait CommitLog OracleState History.
From S2P Require Import Coordinator Handles Database System Conflicts Calls Programs Retry Threads.

Module OneShot.

(** ** Definitions *)

(** The calls of [commit]. *)
Definition commit_calls (n : nat) : list System.action :=
  [System.AAlloc n; System.AApply n; System.AAppend n; System.APublish n; System.ADrop n].

Definition commit_call (n : nat) (a : System.action) : Prop := a ∈ commit_calls n.

Section one_shot.
Context `{Profile} {S : Type} `{VersionStore S} {Disk W : Type} `{Wal Disk W} `{HashIter}.
Context (threads : nat) (body : nat → nat → Program.prog) (ser : nat → bool) (count : nat → nat).

Abbreviation turn := (Retry.turn threads body ser count).
Abbreviation id := (Retry.id threads).

(** [m] turns in a row. *)
Fixpoint turns (m : nat) (x : Retry.t S W) (w : nat) : outcome (Retry.t S W) :=
  match m with
  | O => Ret x
  | Datatypes.S m => x ← turn x w; turns m x w
  end.

(** [put] of a value, or [delete], allowed [fuel] attempts. *)
Definition one_shot (fuel : nat) (i : Inner.t S W) (key : bytes) (value : option bytes) :
    outcome (option (Inner.t S W * Result Timestamp.t)) :=
  match value with
  | Some value => Db.put_loop fuel i key value
  | None => Db.delete_loop fuel i key
  end.

(** An attempt. *)
Definition attempt (i : Inner.t S W) (key : bytes) (value : option bytes) :
    outcome (Inner.t S W * Result Timestamp.t) :=
  '(i, tx) ← Db.begin i;
  Transaction.commit i (Transaction.set_write tx key value).

Implicit Types (x : Retry.t S W) (s : System.t S W).

(** ** Lemmas: the loop *)

Lemma one_shot_attempt fuel i key value :
  one_shot (Datatypes.S fuel) i key value =
    ('(i, r) ← attempt i key value;
     match r with
     | Err e => if TxnError.is_retryable e then one_shot fuel i key value else Ret (Some (i, r))
     | Ok _ => Ret (Some (i, r))
     end).
Proof using Type.
  unfold attempt. destruct value; cbn; (destruct (Db.begin i) as [[i1 tx]|]; [|done]); cbn;
    (destruct (Transaction.commit _ _) as [[i2 [ts|e]]|]; [done| |done]);
    cbn; by destruct (TxnError.is_retryable e).
Qed.

(** ** Lemmas: calls and turns *)

(** A call of [commit] that is possible is the next one. *)
Lemma commit_call_next s n a s' :
  commit_call n a → System.act s a = Ret (Some s') →
  ∃ c, System.clients s !! n = Some c ∧ Evolution.ended (System.c_phase c) = false ∧
    Program.commit_action n c = a.
Proof using Type.
  unfold commit_call, commit_calls. intros Ha E. set_unfold in Ha. destruct_or! Ha; subst a; try done; cbn in E.
  - destruct (System.in_phase s n System.is_active) as [c|] eqn:Hc; [|done].
    unfold System.in_phase in Hc. destruct (System.clients s !! n) as [c0|] eqn:Hn; [|done].
    cbn in Hc. destruct (System.c_phase c0) eqn:Hph; try done. injection Hc as ->.
    exists c. unfold Program.commit_action. rewrite Hph. by destruct (bool_decide _).
  - destruct (System.clients s !! n) as [[? [] ? [] ?]|]; try done. by eexists.
  - destruct (System.clients s !! n) as [[? [] ? [] ?]|]; try done. by eexists.
  - destruct (System.clients s !! n) as [[? [] ? [] ?]|]; try done. by eexists.
  - destruct (System.clients s !! n) as [[? [] ? ? ?]|]; try done. by eexists.
Qed.

Lemma turns_app m m' x w x1 :
  turns m x w = Ret x1 → turns (m + m') x w = turns m' x1 w.
Proof using Type.
  revert x. induction m as [|m IH]; intros x; cbn; [by intros [= ->]|].
  destruct (turn x w); cbn; [apply IH|done].
Qed.

(** The turns of a thread whose transaction is inside [commit]. *)
Lemma commit_turns w k l acts x s' :
  Forall (commit_call (id w k)) acts → Retry.table x !! w = Some (Retry.mkThread k l) →
  Program.rest (Retry.prog_state x) !! id w k = Some Program.Commit →
  System.acts (Retry.sys x) acts = Ret (Some s') →
  turns (length acts) x w =
    Ret (Retry.mk (Program.mk s' (Program.rest (Retry.prog_state x))) (Retry.table x)).
Proof using Type.
  intros Hall. revert x. induction Hall as [|a acts Ha _ IH]; intros x Hth Hrest E; cbn in *.
  - injection E as <-. by destruct x as [[] ?].
  - destruct (System.act (Retry.sys x) a) as [[s1|]|] eqn:E1; try done. cbn in E.
    destruct (commit_call_next _ _ _ _ Ha E1) as (c & Hn & Hend & Hnext).
    set (x1 := Retry.mk (Program.mk s1 (Program.rest (Retry.prog_state x))) (Retry.table x)).
    assert (turn x w = Ret x1) as ->; [|by apply (IH x1)].
    assert (Retry.advance threads body ser count x (id w k) = Ret x1) as Hadv.
    { unfold Retry.advance, Program.pact. unfold Retry.sys in Hn, E1. rewrite Hn, Hrest.
      unfold Program.next, Program.lift. by rewrite Hnext, E1. }
    unfold Retry.turn. rewrite Hth, Hn. cbn. by destruct (System.c_phase c).
Qed.

(** They leave the other clients alone. *)
Lemma commit_others n acts s s' m :
  Forall (commit_call n) acts → System.acts s acts = Ret (Some s') → m ≠ n →
  System.clients s' !! m = System.clients s !! m.
Proof using Type.
  intros Hall E Hm. revert s E. induction Hall as [|a acts Hcall _ IH]; cbn; [by intros s [= ->]|].
  intros s E. destruct (System.act s a) as [[s1|]|] eqn:E1; try done. rewrite (IH s1 E).
  eapply Calls.act_others; [done| |done]. unfold commit_call, commit_calls in Hcall. set_unfold in Hcall.
  by destruct_or! Hcall; subst a.
Qed.

(** An attempt is a beginning and six calls. *)
Lemma attempt_turns w k l x key value i' r :
  w < threads → body w (Retry.job count w k) = Writers.write_body key value → ser w = false →
  System.clients (Retry.sys x) !! id w k = None →
  attempt (System.inner (Retry.sys x)) key value = Ret (i', r) →
  ∃ x1 x2, Retry.begin threads body ser count x w k l = Ret x1 ∧ turns 6 x1 w = Ret x2 ∧
    System.inner (Retry.sys x2) = i' ∧ Retry.table x2 !! w = Some (Retry.mkThread k l) ∧
    (∃ c, System.clients (Retry.sys x2) !! id w k = Some c ∧ System.c_phase c = System.Finished r) ∧
    ∀ m, m ≠ id w k → System.clients (Retry.sys x2) !! m = System.clients (Retry.sys x) !! m.
Proof using Type.
  intros Hw Hbody Hser Hn. unfold attempt, Db.begin. intros ([i1 tx] & Eb & Ec)%bind_Ret.
  set (n := id w k) in *. set (s := Retry.sys x) in *.
  assert (Retry.serializable threads ser n = false ∧ Retry.programs threads body count n =
    Writers.write_body key value) as [Hsern Hprog].
  { unfold Retry.serializable, Retry.programs, n. by rewrite Retry.id_mod, Retry.id_div. }
  set (s1 := System.set_client s i1 n (System.mkClient tx System.Active [] None false)).
  set (tx2 := Transaction.set_write tx key value) in *.
  set (s2 := System.set_client s1 i1 n (System.mkClient tx2 System.Active [] None false)).
  set (rs := <[n := Writers.write_body key value]> (Program.rest (Retry.prog_state x))).
  set (tb := <[w := Retry.mkThread k l]> (Retry.table x)).
  set (x1 := Retry.mk (Program.mk s1 rs) tb).
  set (x1' := Retry.mk (Program.mk s2 (<[n := Program.Commit]> rs)) tb).
  destruct (System.commit_path_writes s2 n (System.mkClient tx2 System.Active [] None false) i' r)
    as (s' & Ea & Hi' & Hc'); [cbn; apply lookup_insert_eq|done|cbn; apply insert_non_empty|done|].
  exists x1, (Retry.mk (Program.mk s' (<[n := Program.Commit]> rs)) tb). split_and!.
  - unfold Retry.begin, Program.pact, Program.lift. fold n. rewrite Hsern, Hprog. cbn.
    unfold s, Retry.sys in Hn. rewrite Hn. unfold s, Retry.sys in Eb. by rewrite Eb.
  - change 6 with (1 + 5). rewrite (turns_app 1 5 x1 w x1').
    + apply (commit_turns w k l (commit_calls n) x1' s'); [by apply Forall_forall|apply lookup_insert_eq..|].
      exact Ea.
    + cbn [turns]. assert (turn x1 w = Ret x1') as ->; [|done].
      unfold Retry.turn. cbn. unfold tb. rewrite lookup_insert_eq. fold n. rewrite lookup_insert_eq. cbn.
      unfold Retry.advance, Program.pact. cbn. unfold rs. rewrite !lookup_insert_eq. cbn.
      unfold System.in_phase. cbn. by rewrite lookup_insert_eq.
  - done.
  - cbn. apply lookup_insert_eq.
  - exact Hc'.
  - intros m Hm. cbn. rewrite (commit_others n (commit_calls n) s2 s' m); [|by apply Forall_forall|done..].
    cbn. by rewrite !lookup_insert_ne.
Qed.

(** The loop from an attempt on: [x] is about to begin attempt [k]. *)
Lemma loop_turns w key value :
  w < threads → count w = 1 → body w 0 = Writers.write_body key value → ser w = false →
  ∀ fuel x k i' r,
    turn x w = Retry.begin threads body ser count x w k 0 →
    (∀ k', k ≤ k' → System.clients (Retry.sys x) !! id w k' = None) →
    one_shot fuel (System.inner (Retry.sys x)) key value = Ret (Some (i', r)) →
    ∃ m x' k' c, turns m x w = Ret x' ∧ System.inner (Retry.sys x') = i' ∧
      Retry.current threads x' w k' 0 c ∧ System.c_phase c = System.Finished r ∧
      Retry.returned threads count x' w = true.
Proof using Type.
  intros Hw Hcount Hbody Hser. assert (∀ k, Retry.job count w k = 0) as Hjob
    by (intros; unfold Retry.job; by rewrite Hcount, Nat.mod_1_r).
  induction fuel as [|fuel IH]; intros x k i' r Hturn Hfresh; [by destruct value|].
  rewrite one_shot_attempt. intros ([i1 r1] & Ea & E)%bind_Ret.
  destruct (attempt_turns w k 0 x key value i1 r1) as (x1 & x2 & Eb & Et & Hi & Hth & (c & Hn & Hph) & Hothers);
    [done|by rewrite Hjob|done|by apply Hfresh|done|].
  assert (turns 7 x w = Ret x2) as E7 by (change 7 with (1 + 6); rewrite (turns_app 1 6 x w x1);
    [done|cbn [turns]; by rewrite Hturn, Eb]).
  assert (r1 = r ∧ i1 = i' ∧ Retry.returned threads count x2 w = true ∨
    ∃ e, r1 = Err e ∧ TxnError.is_retryable e = true ∧ one_shot fuel i1 key value = Ret (Some (i', r)))
    as [(-> & -> & Hret)|(e & -> & He & E')].
  { unfold Retry.returned. rewrite Hth, Hn. cbn. rewrite Hph. destruct r1 as [ts|e].
    - left. by injection E as -> ->.
    - destruct (TxnError.is_retryable e) eqn:He; [right; by exists e|left]. by injection E as -> ->. }
  - by exists 7, x2, k, c.
  - rewrite <-Hi in E'.
    destruct (IH x2 (k + count w) i' r) as (m & x' & k' & c' & Em & Hrest); [| |done|].
    + unfold Retry.turn at 1. rewrite Hth, Hn. cbn. by rewrite Hph, He.
    + intros k' Hk'. rewrite Hcount in Hk'. rewrite Hothers; [apply Hfresh; lia|].
      intros [_ ?]%Retry.id_inj; [lia|done|done].
    + exists (7 + m), x', k', c'. by rewrite (turns_app 7 m x w x2).
Qed.

(** ** Properties *)


End one_shot.
End OneShot.
