(* ===== verification/DurableRetry.v ===== *)
(** * Retry loops on a durable database

    The threads of [Retry] on a database opened over a log with room for what they
    are going to commit: no append fails, so every loop ends with a success, and
    opening the log again gives a database with everything they committed. *)

From S2P Require Import Prelude RustStd Types StoreTrait MemStore CommitLog OracleState History.
From S2P Require Import Coordinator Handles Database System Recovery Restart Conflicts Programs.
From S2P Require Import Retry Completion Bank Counter Threads.

Module DurableRetry.

(** ** Definitions *)

(** The next [n] appends succeed, whatever the records. *)
Fixpoint accepts `{Wal Disk W} (n : nat) (w : W) : Prop :=
  match n with
  | O => True
  | S n => ∀ record, ∃ w' lsn, wal_append_and_sync w record = (w', inr lsn) ∧ accepts n w'
  end.

(** Whatever the transaction reads, its batch fits the record format. *)
Definition fits (p : Program.prog) : Prop :=
  ∀ obs w, Program.reaches p Program.Commit obs w → Durable.small Durable.MAX_OPS w.

(** The writes on every path, [used] of them so far. *)
Fixpoint written_small (p : Program.prog) (used : N) : Prop :=
  match p with
  | Program.Get _ k => ∀ v, written_small (k v) used
  | Program.Write key v p => Codec.write_fits (key, v) ∧ written_small p (used + 1)
  | Program.Commit => (used ≤ Durable.MAX_OPS)%N
  | Program.Leave _ | Program.Crash => True
  end.

Lemma written_fits p : written_small p 0 → fits p.
Proof.
  intros Hp obs w Hr.
  enough (∃ used, written_small Program.Commit used ∧ Durable.small used w) as (used & Hu & Hw)
    by (by eapply Durable.small_mono).
  remember Program.Commit as q eqn:E. clear E.
  induction Hr as [|key k obs w v _ IH _|key k obs w v _ IH _|key k obs w e _ IH|key v q obs w _ IH].
  - exists 0%N. split; [done|apply Durable.small_empty].
  - destruct IH as (used & Hu & Hw). exists used. split; [apply Hu|done].
  - destruct IH as (used & Hu & Hw). exists used. split; [apply Hu|done].
  - destruct IH as (used & _ & Hw). by exists used.
  - destruct IH as (used & [Hk Hu] & Hw). exists (used + 1)%N.
    split; [done|by apply Durable.small_insert].
Qed.

Section durable.
Context `{Profile} {S : Type} `{StoreLaws S} {Disk W : Type} `{WalLaws Disk W} `{HashIter}.

(** The log holds what [Recovery] says it does, and has room to grow to [limit]
    records. *)
Record stored (h0 : History) (limit : nat) (s : System.t S W) (logged : History) (l : CommitLog.t W) : Prop := {
  st_log : Inner.log (System.inner s) = Some l;
  st_inv : Recovery.log_inv h0 s logged;
  st_room : accepts (limit - length logged) (CommitLog.wal l);
}.

(** ** Lemmas: appends *)

(** A commit on its way to the log is not in it yet. *)
Lemma logged_behind h0 s logged n tx obs ts app r :
  System.inv h0 s → Recovery.log_inv h0 s logged →
  System.clients s !! n = Some (System.mkClient tx (System.Applied (Ok r)) obs (Some ts) app) →
  Inner.commit_of ts (Transaction.batch tx) ∈ System.hist s ∧
  length logged < length (System.hist s).
Proof using Type.
  intros Hs Hli Hn. pose proof (System.i_clients _ _ Hs n _ Hn) as Hok.
  destruct (System.co_phase _ _ _ _ Hok) as (_ & Happ & _). cbn in Happ. subst app.
  assert (Inner.commit_of ts (Transaction.batch tx) ∈ System.hist s) as Hc.
  { eapply System.committed_in_elem. by apply (System.co_applied _ _ _ _ Hok). }
  split; [done|]. set (c := Inner.commit_of ts (Transaction.batch tx)) in *.
  enough (c :: logged ⊆+ System.hist s) as Hsub by (by apply submseteq_length in Hsub).
  apply NoDup_submseteq.
  - apply NoDup_cons. split; [|by eapply NoDup_fmap_1, (Recovery.li_unique h0)].
    intros Hin. eapply (Recovery.li_unlogged _ _ _ Hli n _ ts Hn); [done|].
    change (Timestamp.get ts) with (ts_of c). by apply list_elem_of_fmap_2.
  - intros e [->|He]%elem_of_cons; [done|by eapply Recovery.li_sub].
Qed.

(** So there is room for it. *)
Lemma append_accepted limit (h : History) (logged : History) (l : CommitLog.t W) record :
  length logged < length h → length h ≤ limit → accepts (limit - length logged) (CommitLog.wal l) →
  ∃ l', CommitLog.append_committed l record = (l', Ok tt) ∧
    accepts (limit - Datatypes.S (length logged)) (CommitLog.wal l').
Proof using Type.
  intros Hlt Hle. replace (limit - length logged)
    with (Datatypes.S (limit - Datatypes.S (length logged))) by lia.
  intros Hacc. destruct (Hacc record) as (w' & lsn & E & Hacc'). unfold CommitLog.append_committed.
  rewrite E. eexists. split; [done|exact Hacc'].
Qed.

Lemma stored_no_failure h0 limit s logged l n c :
  System.inv h0 s → stored h0 limit s logged l → length (System.hist s) ≤ limit →
  System.clients s !! n = Some c → ¬ Evolution.append_failed s c.
Proof using Type.
  intros Hs [Hl Hli Hacc] Hle Hn [Hph (l0 & record & l1 & e & Hl0 & E)].
  rewrite Hl in Hl0. injection Hl0 as <-. destruct c as [tx ph obs ots app]. cbn in Hph. subst ph.
  pose proof (System.co_phase _ _ _ _ (System.i_clients _ _ Hs n _ Hn)) as Hok. cbn in Hok.
  destruct Hok as [[ts ->] _]. destruct (logged_behind h0 s logged n tx obs ts app tt Hs Hli Hn) as [_ Hlt].
  destruct (append_accepted limit _ _ l record Hlt Hle Hacc) as (l' & E' & _). congruence.
Qed.

(** An append takes one place. *)
Lemma append_stored h0 limit s n s' logged l :
  System.inv h0 s → System.act s (System.AAppend n) = Ret (Some s') →
  Forall CommitLog.commit_fits (System.hist s) → length (System.hist s) ≤ limit →
  stored h0 limit s logged l → ∃ logged' l', stored h0 limit s' logged' l'.
Proof using Type.
  intros Hs E Hfits Hle [Hl Hli Hacc]. cbn in E.
  destruct (System.clients s !! n) as [[tx ph obs [ts|] app]|] eqn:Hn;
    [destruct ph as [| |[[]|e]| | | |]|destruct ph|]; try done.
  2:{ injection E as <-. exists logged, l. split; [done| |done].
      by apply Recovery.log_inv_refused, (Recovery.li_holds h0). }
  destruct (logged_behind h0 s logged n tx obs ts app tt Hs Hli Hn) as [Hc Hlt].
  set (c := Inner.commit_of ts (Transaction.batch tx)) in *.
  assert (CommitLog.commit_fits c) as Hcf by (by eapply Forall_forall in Hfits).
  destruct (append_accepted limit _ _ l (CommitLog.record_of c) Hlt Hle Hacc) as (l' & Ea & Hacc').
  pose proof (Recovery.li_holds _ _ _ Hli) as (l0 & El0 & Hholds). rewrite Hl in El0. injection El0 as <-.
  assert (Inner.append (System.inner s) (Inner.encode_record (System.inner s) ts (Transaction.batch tx)) =
    (Inner.set_log (System.inner s) (Some l'), Ok tt)) as Eapp.
  { unfold Inner.append, Inner.encode_record. rewrite Hl. cbn.
    change (Codec.encode_for_log _ _) with (CommitLog.record_of c). by rewrite Ea. }
  cbn [is_ok] in E. rewrite Eapp in E. injection E as <-.
  exists (logged ++ [c]), l'. split; [done| |].
  - eapply Recovery.log_inv_written; [done|done|done|done|]. exists l'. split; [done|].
    by eapply CommitLog.append_committed_ok.
  - rewrite length_app. cbn. by rewrite Nat.add_1_r.
Qed.

Lemma step_stored h0 limit s s' logged l :
  System.inv h0 s → System.step s s' → Forall CommitLog.commit_fits (System.hist s) →
  length (System.hist s) ≤ limit →
  stored h0 limit s logged l → ∃ logged' l', stored h0 limit s' logged' l'.
Proof using Type.
  intros Hs Hstep Hfits Hle Hst. destruct Hstep as [a s' E|m wm st _ _].
  - assert ((∃ n, a = System.AAppend n) ∨ ∀ n, a ≠ System.AAppend n) as [[n ->]|Hna]
      by (destruct a; (by left; eexists) || by right).
    { by eapply append_stored. }
    pose proof (Recovery.act_silent h0 s a s' Hs E Hna) as Hsil. destruct Hst. exists logged, l. split.
    + by rewrite (proj1 Hsil).
    + by eapply Recovery.log_inv_silent.
    + done.
  - exists logged, l. destruct Hst as [? [] ?]. by split.
Qed.

(** ** Lemmas: fair runs *)

Section fair_run.
Context (threads : nat) (body : nat → nat → Program.prog) (ser : nat → bool) (count : nat → nat).

(** The database is durable, over a store that does not fail; its log holds [h0] and
    has room for what is to be committed. *)
Definition prepared (h0 : History) (x : Retry.t S W) : Prop :=
  ¬ vs_may_fail (S := S) ∧ ∃ logged l, logged ≡ₚ h0 ∧ Inner.log (System.inner (Retry.sys x)) = Some l ∧
    CommitLog.holds l logged ∧ accepts (Completion.due threads count) (CommitLog.wal l).

Context (h0 : History) (r : nat → Retry.t S W) (who : nat → option nat).
Context (Hrun : Retry.run threads body ser count h0 r who) (Hprep : prepared h0 (r 0)).
Context (Hout : ∀ w j, w < threads → Completion.writes_out (body w j)).
Context (Hfits : ∀ w j, w < threads → fits (body w j)).

Lemma run_fits j : Forall CommitLog.commit_fits (System.hist (Retry.sys (r j))).
Proof using Hrun Hprep Hfits.
  pose proof (Retry.run_inv _ _ _ _ h0 r who Hrun j) as Hx.
  pose proof (Retry.r_sys _ _ _ _ _ _ Hx) as Hs. destruct (System.i_inner _ _ Hs) as (fl & hz & Hi & _).
  apply Forall_forall. intros e He.
  destruct (System.i_hist _ _ Hs e He) as [Hin|(n & c & ts & Hn & Hts & Ha & ->)].
  - destruct Hprep as (_ & logged & l & Hp & _ & [_ Hf] & _). eapply Forall_forall; [exact Hf|]. by rewrite Hp.
  - destruct (Retry.r_follow _ _ _ _ _ _ Hx n c Hn) as (q & _ & [Hreach Hq _ _]).
    destruct (Retry.r_clients _ _ _ _ _ _ Hx n) as (th & Hth & _); [by eexists|].
    destruct (Retry.r_table _ _ _ _ _ _ Hx _ th Hth) as (Hw & _).
    assert (q = Program.Commit) as ->.
    { pose proof (System.co_phase _ _ _ _ (System.i_clients _ _ Hs n c Hn)) as Hph.
      unfold System.phase_ok in Hph. destruct (System.c_phase c); try done; naive_solver congruence. }
    eapply Durable.small_fits; [by eapply Hfits|done|].
    pose proof (Inner.inv_issued _ _ _ _ _ Hi _ He). unfold ts_of in *. cbn in *.
    pose proof (Oracle.wf_range _ _ (Inner.inv_oracle _ _ _ _ _ Hi)). lia.
Qed.

Lemma run_limit j : length (System.hist (Retry.sys (r j))) ≤ length h0 + Completion.due threads count.
Proof using Hrun Hout. pose proof (Completion.run_exact _ _ _ _ h0 r who Hrun j Hout). lia. Qed.

(** No append fails. *)
Lemma run_stored j :
  Completion.unfailing (r j) ∧
  ∃ logged l, stored h0 (length h0 + Completion.due threads count) (Retry.sys (r j)) logged l.
Proof using All.
  induction j as [|j [[IHu Hf] (logged & l & IHst)]].
  - destruct Hprep as (Hf & logged & l & Hp & Hl & Hholds & Hacc).
    destruct (Retry.run_start _ _ _ _ _ _ _ Hrun) as (i & hz & Hi & Estart). split.
    { split; [|done]. rewrite Estart. intros n c Hn. cbn in Hn. by rewrite lookup_empty in Hn. }
    exists logged, l. split; [done| |].
    + rewrite Estart. apply Recovery.start_log_inv with (hz := hz); [done|done|].
      exists l. split; [by rewrite Estart in Hl|done].
    + by replace (_ + _ - _) with (Completion.due threads count) by (rewrite Hp; lia).
  - pose proof (Retry.run_inv _ _ _ _ h0 r who Hrun j) as Hx.
    pose proof (Retry.run_step _ _ _ _ _ _ _ Hrun j) as Hstep.
    pose proof (Retry.run_room _ _ _ _ _ _ _ Hrun j) as Hroom.
    pose proof (Retry.r_sys _ _ _ _ _ _ Hx) as Hs. split.
    + split; [|done]. eapply Completion.rstep_failed; [exact Hx|done|exact Hstep|exact IHu|].
      intros n c c' Hn Hev Hfail. destruct (Evolution.ev_failed _ _ _ _ Hev Hfail) as [E|[?|Happ]]; [|done|].
      * by rewrite (IHu n c Hn) in E.
      * by eapply stored_no_failure, Happ; [exact Hs|exact IHst|apply run_limit|exact Hn].
    + destruct (Retry.rstep_pstep _ _ _ _ h0 _ _ _ Hx Hroom Hstep) as [->|Hp]; [by exists logged, l|].
      eapply step_stored; [exact Hs|by eapply Program.pstep_step|apply run_fits|apply run_limit|exact IHst].
Qed.

Lemma run_unfailing j : Completion.unfailing (r j).
Proof using All. apply run_stored. Qed.

(** When all threads are back, the log is as good as the database. *)
Definition reopens_equal (x : Retry.t S W) (l : CommitLog.t W) : Prop :=
  (∃ e, Db.open (wal_disk (CommitLog.wal l)) = Ret (Err (TxnError.durability e))) ∨
  ∃ i h logged, Db.open (wal_disk (CommitLog.wal l)) = Ret (Ok i) ∧
    Inner.inv i [] ∅ h 0 ∧ logged ≡ₚ h ∧ Inner.log_holds i logged ∧
    ∀ k, hist_view h k (Inner.read_ts i) =
      hist_view (System.hist (Retry.sys x)) k (Inner.read_ts (System.inner (Retry.sys x))).

Lemma completed_reopens j :
  (∀ w, w < threads → Completion.completed threads count (r j) w = true) →
  ∃ l, Inner.log (System.inner (Retry.sys (r j))) = Some l ∧ reopens_equal (r j) l.
Proof using All.
  intros Hall. destruct (run_stored j) as [[Hu _] (logged & l & [Hl Hli _])]. exists l. split; [done|].
  pose proof (Retry.run_inv _ _ _ _ h0 r who Hrun j) as Hx.
  pose proof (Retry.r_sys _ _ _ _ _ _ Hx) as Hs.
  destruct (Recovery.settled_reopens h0 _ logged l Hs Hli) as [?|(i & h & Ho & Hi & Hp & Hh & Hv)];
    [|done|by left|].
  - intros n c Hn. pose proof (Completion.completed_ended _ _ _ _ h0 r who Hrun j n c Hall Hn) as Hend.
    specialize (Hu n c Hn). unfold Evolution.failed, System.pending in *.
    destruct (System.c_phase c); try done. split; [done|]. intros detail. split; [done|].
    intros [= ->]. done.
  - right. exists i, h, logged. split_and!; [done|done|done|done|]. intros k.
    set (t := Inner.read_ts (System.inner (Retry.sys (r j)))).
    set (T := Timestamp.from_raw (N.max (Inner.watermark i) (Timestamp.get t))).
    rewrite <-(Db.quiet_view i [] h 0 k T Hi) by (cbn; lia). rewrite Hv.
    rewrite <-!hist_now_visible. f_equal.
    pose proof (Completion.completed_visible _ _ _ _ h0 r who Hrun j Hall) as Hvis. fold t in Hvis.
    rewrite Hvis. apply visible_all. intros c Hc. rewrite <-Hvis in Hc.
    apply list_elem_of_filter in Hc as [Hle _]. etransitivity; [exact Hle|apply N.le_max_r].
Qed.

End fair_run.

(** ** Properties *)

(** C17: Durable retry loops complete, and what they did survives. On a database opened
    over a log with room for all that is to be committed, and a store that does not
    fail, let the transactions of the threads commit on every path, never nothing
    and never more than a record can hold. In every fair run there is a moment from
    which on all calls of all threads have returned [Ok], the history has grown by
    exactly one commit for each call, and opening what is on the disk, unless it
    reports a durability error, gives a database that reads the same for every key
    and whose log holds its history. *)
Theorem durable_retries_survive threads body ser count h0 (r : nat → Retry.t S W) who :
  Retry.run threads body ser count h0 r who → prepared threads count h0 (r 0) →
  (∀ w j, w < threads → Completion.no_exit (body w j)) →
  (∀ w j, w < threads → Completion.writes_out (body w j)) →
  (∀ w j, w < threads → fits (body w j)) →
  ∃ j, ∀ j', j ≤ j' →
    (∀ w, w < threads → Completion.completed threads count (r j') w = true) ∧
    length (System.hist (Retry.sys (r j'))) = length h0 + Completion.due threads count ∧
    ∃ l, Inner.log (System.inner (Retry.sys (r j'))) = Some l ∧ reopens_equal (r j') l.
Proof using Type.
  intros Hrun Hprep Hexit Hout Hfits.
  destruct (Completion.runs_complete _ _ _ _ h0 r who Hrun
    (run_unfailing _ _ _ _ h0 r who Hrun Hprep Hout Hfits)) as [j Hj].
  { intros j w k l c Hw _ _. by apply Completion.no_exit_run, Hexit. }
  exists j. intros j' Hle. specialize (Hj j' Hle). split_and!; [done| |].
  - by apply (Completion.completed_length _ _ _ _ h0 r who Hrun j').
  - by apply (completed_reopens _ _ _ _ h0 r who Hrun Hprep Hout Hfits).
Qed.

(** The shared counter of [CounterThreads] on a durable database: in every fair run
    all increments are committed, and the counter is at their number before and
    after opening the log again. *)
Theorem durable_counter_total key threads ser count h0 (r : nat → Retry.t S W) who v0 :
  Retry.run threads (λ _ _, Counter.increment_body key) ser count h0 r who →
  prepared threads count h0 (r 0) → (N.of_nat (length key) < 2 ^ 32)%N →
  Counter.value key (hist_now h0) = Ret v0 →
  (v0 + N.of_nat (Completion.due threads count) < u64_modulus)%N →
  ∃ j, ∀ j', j ≤ j' → (∀ w, w < threads → Completion.completed threads count (r j') w = true) ∧
    CounterThreads.counter_now key (r j') = Ret (v0 + N.of_nat (Completion.due threads count))%N ∧
    ∃ l, Inner.log (System.inner (Retry.sys (r j'))) = Some l ∧ reopens_equal (r j') l.
Proof using Type.
  intros Hrun Hprep Hkey Hv0 Hroom.
  assert (∀ w j : nat, w < threads → fits (Counter.increment_body key)) as Hfits.
  { intros _ _ _. apply written_fits. intros v. destruct (Counter.current v) as [n|]; [|done].
    destruct (add_u64 n 1); [|done]. done. }
  assert (∀ w j : nat, w < threads → Completion.writes_out (Counter.increment_body key)) as Hout
    by (intros; apply CounterThreads.increment_writes_out).
  destruct (CounterThreads.increments_complete key _ _ _ h0 r who Hrun
    (run_unfailing _ _ _ _ h0 r who Hrun Hprep Hout Hfits) v0 Hv0 Hroom) as [j Hj].
  exists j. intros j' Hle. destruct (Hj j' Hle) as [Hall Hval]. split_and!; [done|done|].
  by apply (completed_reopens _ _ _ _ h0 r who Hrun Hprep Hout Hfits).
Qed.

End durable.
End DurableRetry.
