(* ===== verification/Footprint.v ===== *)
(** * Threads that keep to their own keys

    When the transactions of different threads touch different keys, each thread has
    the database for itself: whatever the interleaving, the retries and the
    collections, its keys end as they do when its transactions are run one after the
    other by nobody else. *)

From S2P Require Import Prelude RustStd Types StoreTrait CommitLog OracleState History.
From S2P Require Import Coordinator Handles Database System Conflicts Programs Retry Completion.

Module Footprint.

(** ** Definitions *)

(** The program touches keys in [own] only. *)
Fixpoint within (own : bytes → Prop) (p : Program.prog) : Prop :=
  match p with
  | Program.Get key k => own key ∧ ∀ v, within own (k v)
  | Program.Write key v p => own key ∧ within own p
  | _ => True
  end.

(** The contents after the first [n] of the transactions [body], run one after the
    other from [m]. *)
Fixpoint alone (body : nat → Program.prog) (m : Program.contents) (n : nat) : Program.contents :=
  match n with
  | O => m
  | S n =>
     let m := alone body m n in
     Program.after (default ∅ (Program.run (body n) m ∅)) m
  end.

(** A transaction a thread with the keys [own] may run: it commits on every path,
    and either it only reads, or it reads and writes its own keys, and validates
    what it read. *)
Definition private (own : bytes → Prop) (p : Program.prog) : Prop :=
  Completion.no_exit p ∧
  (Program.read_only p ∨
   within own p ∧ Program.self_validating p ∧ Completion.writes_out p).

(** ** Lemmas: programs *)

(** Only the keys it touches matter to a program. *)
Lemma run_within own p m m' w :
  within own p → (∀ k, own k → m k = m' k) → Program.run p m w = Program.run p m' w.
Proof.
  intros Hp Hm. revert w Hp. induction p as [key k IH|key v p IH| |e|]; intros w Hp; cbn in *; try done.
  - destruct Hp as [Hkey Hp]. unfold Program.after. rewrite (Hm key Hkey). apply IH, Hp.
  - by apply IH, Hp.
Qed.

Lemma run_touched own p m w w' k :
  within own p → Program.run p m w = Some w' → is_Some (w' !! k) → is_Some (w !! k) ∨ own k.
Proof.
  revert w. induction p as [key f IH|key v p IH| |e|]; intros w Hp E Hk; cbn in *; try done.
  - by eapply IH; [apply Hp|..].
  - destruct Hp as [Hkey Hp]. destruct (IH _ Hp E Hk) as [[<-|[_ ?]]%lookup_insert_is_Some|?]; auto.
  - injection E as <-. by left.
Qed.

Lemma private_self_validating own p : private own p → Program.self_validating p.
Proof. intros [_ [?|(_ & ? & _)]]; [by apply Program.read_only_self_validating|done]. Qed.

Section footprint.
Context `{Profile} {S : Type} `{VersionStore S} {Disk W : Type} `{Wal Disk W} `{HashIter}.
Context `{!StoreLaws S}.
Context (threads : nat) (body : nat → nat → Program.prog) (ser : nat → bool) (count : nat → nat).
Context (own : nat → bytes → Prop).
Context (Hapart : ∀ w w' k, w < threads → w' < threads → own w k → own w' k → w = w').
Context (Hpriv : ∀ w j, w < threads → private (own w) (body w j)).

(** Transactions of thread [w] that have taken effect. *)
Definition finished (x : Retry.t S W) (w : nat) : nat := count w - Retry.owed threads count x w.

(** The keys of thread [w] are as its transactions so far leave them. *)
Definition on_its_own (h0 : History) (x : Retry.t S W) (w : nat) : Prop :=
  ∀ k, own w k → hist_now (System.hist (Retry.sys x)) k = alone (body w) (hist_now h0) (finished x w) k.

(** ** Lemmas: runs *)

Section fair_run.
Context (h0 : History) (r : nat → Retry.t S W) (who : nat → option nat).
Context (Hrun : Retry.run threads body ser count h0 r who) (Hok : ∀ j, Completion.unfailing (r j)).

Lemma current_finished j w k l c :
  Retry.current threads (r j) w k l c →
  finished (r j) w = Retry.job count w k + if Retry.settled c then 1 else 0.
Proof using Hrun.
  intros [Hth Hn]. unfold finished, Retry.owed. rewrite Hth, Hn.
  pose proof (Retry.r_job _ _ _ _ _ _ (Retry.run_inv _ _ _ _ h0 r who Hrun j) w _ Hth) as Hj. cbn in Hj.
  destruct (Retry.settled c); lia.
Qed.

(** A commit is that of the program run on the newest contents. *)
Lemma joined_run j w k l c :
  w < threads → Retry.current threads (r (Datatypes.S j)) w k l c → System.c_applied c = true →
  Evolution.joins_history (Retry.sys (r j)) (Retry.sys (r (Datatypes.S j))) c →
  Program.run (body w (Retry.job count w k)) (hist_now (System.hist (Retry.sys (r j)))) ∅ =
    Some (Transaction.writes (System.c_tx c)) ∧
  Transaction.writes (System.c_tx c) ≠ ∅.
Proof using Hrun Hpriv.
  intros Hw [_ Hn] Ha [(ts & Hts & Hh) Hval].
  pose proof (Retry.fair_run_reachable _ _ _ _ h0 r who Hrun (Datatypes.S j)) as Hreach.
  pose proof (System.i_clients _ _ (Retry.r_sys _ _ _ _ _ _
    (Retry.run_inv _ _ _ _ h0 r who Hrun (Datatypes.S j))) _ _ Hn) as Hcok.
  set (g := System.hist (Retry.sys (r j))) in *.
  assert (Hprog : Retry.programs threads body count (Retry.id threads w k) = body w (Retry.job count w k))
    by (unfold Retry.programs; by rewrite Retry.id_mod, Retry.id_div).
  rewrite <-Hprog. eapply Program.commit_runs_alone; [exact Hreach|exact Hn|exact Ha|..].
  - right. rewrite Hprog. by eapply private_self_validating, Hpriv.
  - intros key v Hobs Hv. rewrite (System.co_obs _ _ _ _ Hcok key v Hobs), Hh.
    rewrite hist_view_above; [by apply hist_now_unchanged, Hval|].
    destruct (System.co_applied _ _ _ _ Hcok ts Hts Ha) as (h1 & h2 & _ & _ & Habove).
    apply (Habove (Inner.commit_of ts (Transaction.batch (System.c_tx c)))). by left.
Qed.

(** A transaction that ends well without a commit wrote nothing. *)
Lemma nothing_written j w k l c :
  w < threads → Retry.current threads (r j) w k l c → Retry.settled c = true →
  System.c_applied c = false →
  ∀ m, Program.run (body w (Retry.job count w k)) m ∅ = Some ∅.
Proof using Hrun Hpriv.
  intros Hw [_ Hn] Hset Ha m. destruct (Hpriv w (Retry.job count w k) Hw) as [Hexit [Hro|(_ & _ & Hout)]].
  - destruct (Completion.no_exit_run _ m ∅ Hexit) as [w' E]. by rewrite E, (Program.read_only_run _ _ _ _ Hro E).
  - rewrite (Completion.finished_settled threads body ser count h0 (r j) w k c) in Hset; [congruence|..]; try done.
    by eapply Retry.run_inv.
Qed.

(** One call of thread [w1], seen from the keys of thread [w]. *)
Lemma call_on_its_own j w1 w k l c c' :
  w1 < threads → w < threads → Retry.current threads (r j) w1 k l c →
  Retry.current threads (r (Datatypes.S j)) w1 k l c' → Evolution.ended (System.c_phase c) = false →
  Evolution.evolves (Retry.sys (r j)) (Retry.sys (r (Datatypes.S j))) c c' →
  (w ≠ w1 → finished (r (Datatypes.S j)) w = finished (r j) w) →
  on_its_own h0 (r j) w → on_its_own h0 (r (Datatypes.S j)) w.
Proof using Hrun Hapart Hpriv.
  intros Hw1 Hw Hc Hc' Hend Hev Hother HP key Hown. pose proof (HP key Hown) as HPk.
  pose proof (current_finished _ _ _ _ _ Hc) as Hf. pose proof (current_finished _ _ _ _ _ Hc') as Hf'.
  assert (Retry.settled c = System.c_applied c) as Hset.
  { unfold Retry.settled. destruct (System.c_phase c) as [| | | | |[]|]; try done; apply orb_false_r. }
  destruct (Evolution.ev_applied _ _ _ _ Hev) as [[Hh Ha]|(Ha & Ha' & Hjoin)].
  - rewrite Hh. destruct (decide (w = w1)) as [->|Hne]; [|by rewrite Hother].
    destruct (decide (Retry.settled c' = Retry.settled c)) as [E|E]; [by rewrite Hf', E, <-Hf|].
    destruct (System.c_applied c) eqn:Happ.
    { exfalso. apply E. rewrite Hset. unfold Retry.settled. by rewrite Ha. }
    assert (Retry.settled c' = true) as Hset' by (by destruct (Retry.settled c'); [|rewrite Hset in E]).
    rewrite Hset, Nat.add_0_r in Hf. rewrite Hset', Nat.add_1_r in Hf'. rewrite Hf'. cbn [alone].
    rewrite (nothing_written (Datatypes.S j) w1 k l c') by done. cbn [default].
    by rewrite Program.after_empty, <-Hf.
  - destruct (joined_run j w1 k l c' Hw1 Hc' Ha' Hjoin) as [Hr Hne].
    destruct Hjoin as [(ts & _ & Hh) _]. rewrite Hh, Program.hist_now_commit.
    destruct (Hpriv w1 (Retry.job count w1 k) Hw1) as [_ [Hro|(Hin & _)]].
    { by apply Program.read_only_run in Hr. }
    destruct (decide (w = w1)) as [->|Hww].
    + assert (Retry.settled c' = true) as Hset' by (unfold Retry.settled; by rewrite Ha').
      rewrite Hset, Ha, Nat.add_0_r in Hf. rewrite Hset', Nat.add_1_r in Hf'. rewrite Hf'. cbn [alone].
      rewrite (run_within (own w1) _ _ _ ∅ Hin HP), Hf in Hr. rewrite Hr. cbn [default].
      unfold Program.after. by rewrite HPk, Hf.
    + rewrite Hother by done. unfold Program.after.
      destruct (_ !! key) eqn:Hk; [|done]. exfalso. apply Hww. apply (Hapart w w1 key); [done..|].
      destruct (run_touched (own w1) _ _ _ _ key Hin Hr) as [[? Hno]|?]; [by eexists| |done].
      by rewrite lookup_empty in Hno.
Qed.

Lemma step_on_its_own j w :
  w < threads → on_its_own h0 (r j) w → on_its_own h0 (r (Datatypes.S j)) w.
Proof using Hrun Hapart Hpriv.
  intros Hw HP. pose proof (Retry.run_inv _ _ _ _ h0 r who Hrun j) as Hinv.
  pose proof (Retry.run_room _ _ _ _ _ _ _ Hrun j) as Hroom.
  pose proof (Retry.run_step _ _ _ _ _ _ _ Hrun j) as Hstep. destruct (who j) as [w1|] eqn:Hwho.
  2:{ destruct (Retry.rstep_collect _ _ _ _ _ _ Hstep) as (Hcs & Ht & _ & Hh & _). intros key Hown.
      rewrite Hh, (HP key Hown). unfold finished, Retry.owed. by rewrite Ht, Hcs. }
  assert (Hother : w ≠ w1 → finished (r (Datatypes.S j)) w = finished (r j) w).
  { intros Hne. unfold finished. f_equal.
    eapply Retry.owed_same, Retry.rstep_same; [done|done|exact Hstep|congruence|done]. }
  inversion Hstep as [w' x1 Hw1 E| | |]; subst.
  destruct (Retry.turn_cases _ _ _ _ h0 _ w1 _ Hinv Hroom Hw1 E) as
    [Eq _|k l tx Hb _ Hcs _ Ht _ Hh _|k l c c' q q' [Hth Hn] _ Hend _ Hcs _ Ht Hev _]; [by rewrite Eq|..].
  - intros key Hown. rewrite Hh, (HP key Hown). f_equal.
    destruct (decide (w = w1)) as [->|Hne]; [|by rewrite Hother].
    unfold finished. by rewrite (Retry.begin_owed _ _ _ _ h0 _ w1 k l (r (Datatypes.S j)) tx Hinv Hb Ht Hcs).
  - apply (call_on_its_own j w1 w k l c c'); try done; split; rewrite ?Ht, ?Hcs, ?lookup_insert_eq; done.
Qed.

Lemma run_on_its_own j w : w < threads → on_its_own h0 (r j) w.
Proof using Hrun Hapart Hpriv.
  intros Hw. induction j as [|j IH]; [|by apply step_on_its_own].
  destruct (Retry.run_start _ _ _ _ _ _ _ Hrun) as (i & hz & _ & ->). intros key _.
  unfold finished, Retry.owed. cbn. by rewrite lookup_empty, Nat.sub_diag.
Qed.

Lemma private_runs_complete :
  ∃ j, ∀ j', j ≤ j' →
    (∀ w, w < threads → Completion.completed threads count (r j') w = true) ∧
    ∀ w k, w < threads → own w k →
      hist_view (System.hist (Retry.sys (r j'))) k (Inner.read_ts (System.inner (Retry.sys (r j')))) =
        alone (body w) (hist_now h0) (count w) k.
Proof using Hrun Hok Hapart Hpriv.
  destruct (Completion.runs_complete _ _ _ _ h0 r who Hrun Hok) as [j Hj].
  { intros j w k l c Hw _ _. by apply Completion.no_exit_run, Hpriv. }
  exists j. intros j' Hle. specialize (Hj j' Hle). split; [done|]. intros w k Hw Hown.
  rewrite <-hist_now_visible, (Completion.completed_visible threads body ser count h0 r who Hrun j' Hj).
  rewrite (run_on_its_own j' w Hw k Hown). unfold finished.
  by rewrite Completion.completed_owed, Nat.sub_0_r by (by apply Hj).
Qed.

End fair_run.

(** ** Properties *)


End footprint.
End Footprint.
