(* ===== verification/ThreadedTests.v ===== *)
(** * The integration tests with threads

    Tests of [tests/*.rs] that start threads, as fair runs of [Retry]. A call of
    [thread::spawn] is a thread that has had no turn yet, and what is asserted after
    the threads are joined holds from some moment on. *)

From S2P Require Import Prelude RustStd Types StoreTrait MemStore CommitLog OracleState History.
From S2P Require Import Coordinator Handles Database System Conflicts Calls Programs Retry Completion.
From S2P Require Import Bank Counter Threads Footprint.

(** ** The increments *)

Module Increments.

(** The test passes: the initialisation commits, and in every fair run of the threads
    from there all of them join and the number read at the end is all the increments. *)
Definition passes `{Profile} {Disk W : Type} `{Wal Disk W} `{HashIter}
    (key : bytes) (threads : nat) (per_thread : N) : Prop :=
  ∃ i ts h0 hz, CounterThreads.initialise (W := W) key = Ret (i, Ok ts) ∧ Inner.inv i [] ∅ h0 hz ∧
    ∀ (r : nat → Retry.t MemoryStore.t W) (who : nat → option nat),
      Retry.run threads (λ _ _, Counter.increment_body key) (λ _, false) (λ _, N.to_nat per_thread)
        h0 r who → r 0 = Retry.start i h0 →
      ∃ j, ∀ j', j ≤ j' →
        (∀ w, w < threads →
          Completion.completed threads (λ _, N.to_nat per_thread) (r j') w = true) ∧
        CounterThreads.counter_now key (r j') = Ret (N.of_nat threads * per_thread)%N.

Corollary concurrent_increments_never_lose_an_update `{Profile} {Disk W : Type} `{Wal Disk W} `{HashIter} :
  passes (W := W) Counter.COUNTER 8 200.
Proof. by apply CounterThreads.final_value. Qed.

Corollary abort_storm_loses_no_update `{Profile} {Disk W : Type} `{Wal Disk W} `{HashIter} :
  passes (W := W) Writers.hot 12 400.
Proof. by apply CounterThreads.final_value. Qed.

End Increments.

(** ** [snapshot_is_isolated_from_concurrent_writers] *)

Module Pinned.

Definition k : bytes := [x6b].

(** The test passes: whatever the writers do after the snapshot is taken, it reads the
    value of the first commit. *)
Corollary snapshot_is_isolated_from_concurrent_writers `{Profile} {Disk W : Type} `{Wal Disk W} `{HashIter} :
  ∃ i ts h0 hz, CounterThreads.seed (W := W) k [x01] = Ret (i, Ok ts) ∧ Inner.inv i [] ∅ h0 hz ∧
    ∀ n s1 s v, System.room (System.start i h0) 1 →
      System.act (System.start i h0) (System.ABegin n false) = Ret (Some s1) →
      rtc System.roomy s1 s → Calls.served s n k v → v = Some [x01].
Proof.
  destruct (CounterThreads.seed_spec k [x01]) as (i & ts & h0 & hz & E & Hi & _ & Hv).
  exists i, ts, h0, hz. split_and!; [done|done|]. intros n s1 s v Hroom Hbegin Hrun Hobs.
  rewrite (Calls.handle_is_pinned h0 (System.start i h0) n false s1 s k v); try done.
  - unfold Calls.present. rewrite <-Hv, <-hist_now_visible. f_equal. apply visible_all. intros e He.
    pose proof (Inner.inv_issued _ _ _ _ _ Hi e He). pose proof (Db.quiet_watermark _ _ _ _ Hi).
    change (ts_of e ≤ Inner.watermark i)%N. lia.
  - by exists i, hz.
Qed.

End Pinned.

(** ** [mixed_workload_keeps_per_thread_consistency] *)

Module Mixed.

(** *** Definitions *)

Definition THREADS : nat := 8.
Definition KEYS_PER_THREAD : nat := 16.
Definition ROUNDS : nat := 150.

Definition byte_of (n : nat) : byte := as_u8 (N.of_nat n).

(** [vec![t, k]]. *)
Definition key (t k : nat) : bytes := [byte_of t; byte_of k].

Section mixed.
Context (keys : nat).

(** A round is a transaction for each key and one snapshot; transaction [j] of a
    thread belongs to round [round j] and is at key [place j], the last one being
    the snapshot. *)
Definition round (j : nat) : nat := j / S keys + 1.
Definition place (j : nat) : nat := j mod S keys.
Definition deleting (j : nat) : bool := round j mod 5 =? 0.

(** What thread [t] does: one pass of the inner [loop], or the read of its first key
    through a snapshot. *)
Definition body (t j : nat) : Program.prog :=
  if place j <? keys then
    Program.Write (key t (place j)) (if deleting j then None else Some [byte_of (round j)])
      Program.Commit
  else Program.Get (key t 0) (λ _, Program.Commit).

Definition count (rounds : nat) (_ : nat) : nat := rounds * S keys.

(** The array [expected] after the first [n] transactions. *)
Fixpoint expected (n : nat) : list byte :=
  match n with
  | O => replicate keys x00
  | S n =>
     if place n <? keys
     then <[place n := if deleting n then x00 else byte_of (round n)]> (expected n)
     else expected n
  end.

(** The [match] of the final loop: what the snapshot has to read. *)
Definition asserted (v : byte) : option bytes :=
  match v with x00 => None | v => Some [v] end.

(** The keys of thread [t]. *)
Definition own (t : nat) (k : bytes) : Prop := head k = Some (byte_of t).

(** *** Lemmas *)

Lemma byte_of_inj m n : m < 256 → n < 256 → byte_of m = byte_of n → m = n.
Proof.
  unfold byte_of. intros Hm Hn E. apply (f_equal Byte.to_N) in E. rewrite !as_u8_to_N in E.
  rewrite !N.mod_small in E by lia. lia.
Qed.

Lemma own_apart t t' k : t < THREADS → t' < THREADS → own t k → own t' k → t = t'.
Proof.
  unfold own, THREADS. intros Ht Ht' -> E. injection E as E. apply byte_of_inj in E; lia.
Qed.

Lemma body_private t j : Footprint.private (own t) (body t j).
Proof.
  unfold body. destruct (place j <? keys); split; [done| |done|by left].
  right. split_and!; [done|..].
  - apply Program.covered_self_validating. cbn. right. set_solver.
  - by apply Completion.written_writes_out.
Qed.

Lemma length_expected n : length (expected n) = keys.
Proof. induction n as [|n IH]; [by apply length_replicate|]. cbn. case_match; [by rewrite length_insert|done]. Qed.

(** No round writes the byte that stands for a deleted key. *)
Lemma asserted_round j : round j < 256 → asserted (byte_of (round j)) = Some [byte_of (round j)].
Proof.
  intros Hr. destruct (decide (byte_of (round j) = x00)) as [E|Hne]; [|by destruct (byte_of (round j))].
  apply (byte_of_inj _ 0) in E; [|done|lia]. unfold round in E. lia.
Qed.

(** What the thread leaves when it runs by itself is what it remembers. *)
Lemma alone_expected t m n k v :
  keys ≤ KEYS_PER_THREAD → (∀ k, m (key t k) = None) → n ≤ count ROUNDS t →
  expected n !! k = Some v → Footprint.alone (body t) m n (key t k) = asserted v.
Proof.
  unfold count, KEYS_PER_THREAD. intros Hkeys Hm. revert v. induction n as [|n IH]; intros v Hn Hv.
  - apply lookup_replicate in Hv as [-> Hk]. by apply Hm.
  - assert (Hk : k < keys) by (rewrite <-(length_expected (S n)); by eapply lookup_lt_Some).
    cbn [Footprint.alone expected] in *. unfold body at 1.
    destruct (place n <? keys) eqn:Hp.
    + apply Nat.ltb_lt in Hp. cbn [Program.run default from_option]. unfold Program.after, id.
      destruct (decide (place n = k)) as [<-|Hne].
      * rewrite lookup_insert_eq. cbn [default]. rewrite list_lookup_insert_eq in Hv by (by rewrite length_expected).
        injection Hv as <-. destruct (deleting n); [done|]. symmetry. apply asserted_round.
        unfold round. assert (n / S keys < ROUNDS) by (apply Nat.Div0.div_lt_upper_bound; lia).
        unfold ROUNDS in *. lia.
      * rewrite list_lookup_insert_ne in Hv by done.
        rewrite lookup_insert_ne; [apply IH; [lia|done]|].
        intros [= E]. apply byte_of_inj in E; lia.
    + cbn. rewrite Program.after_empty. apply IH; [lia|done].
Qed.

End mixed.

(** *** The test *)

(** The test passes in every fair run, with [THREADS] threads of [ROUNDS] rounds
    over [KEYS_PER_THREAD] keys each and at every smaller size: all threads join,
    having retried as often as they had to, and every key of every thread reads as that thread last left it, whatever the
    others and the collector did. *)
Theorem mixed_workload_keeps_per_thread_consistency `{Profile} {Store : Type} `{StoreLaws Store}
    {Disk W : Type} `{Wal Disk W} `{HashIter} (threads keys rounds : nat)
    (r : nat → Retry.t Store W) (who : nat → option nat) :
  threads ≤ THREADS → keys ≤ KEYS_PER_THREAD → rounds ≤ ROUNDS →
  Retry.run threads (body keys) (λ _, false) (count keys rounds) [] r who → Completion.infallible (r 0) →
  ∃ j, ∀ j', j ≤ j' →
    (∀ t, t < threads → Completion.completed threads (count keys rounds) (r j') t = true) ∧
    ∀ t k v, t < threads → expected keys (count keys rounds t) !! k = Some v →
      hist_view (System.hist (Retry.sys (r j'))) (key t k)
        (Inner.read_ts (System.inner (Retry.sys (r j')))) = asserted v.
Proof.
  intros Hthreads Hk Hrounds Hrun Hinf.
  destruct (Footprint.private_runs_complete threads (body keys) (λ _, false) (count keys rounds) own)
    with (h0 := @nil Commit) (r := r) (who := who) as [j Hj].
  - intros w w' k Hw Hw'. apply own_apart; lia.
  - intros t j _. apply body_private.
  - done.
  - intros j. by eapply Completion.infallible_run.
  - exists j. intros j' Hle. destruct (Hj j' Hle) as [Hall Hkeys]. split; [done|].
    intros t k v Ht Hv. rewrite (Hkeys t) by done. apply alone_expected; [done|done| |done].
    unfold count. by apply Nat.mul_le_mono_r.
Qed.

End Mixed.
