(* ===== verification/Examples.v ===== *)
(** * Clients: the remaining example programs

    [examples/quick_start.rs], [snapshot_reads.rs], [garbage_collection.rs] and
    [durable_store.rs], and the [main] of [bank_transfer.rs] and [custom_store.rs], as
    functions that return the values the program prints. They run on the modelled
    code; the theorems of the library say what holds beyond the one run. *)

From Stdlib Require Import Strings.String.
From S2P Require Import Prelude RustStd Types Chain StoreTrait MemStore CommitLog OracleState.
From S2P Require Import History Coordinator Handles Database Bank CountingStore.

(** ** Definitions *)

(** A byte string literal [b"..."]. *)
Definition lit (s : string) : bytes := list_byte_of_string s.

Abbreviation Database W := (Inner.t MemoryStore.t W).

Section calls.
Context `{Profile} {S : Type} `{VersionStore S} {Disk W : Type} `{Wal Disk W} `{HashIter}.

(** The [?] operator on a call of the database. *)
Definition question {A} (m : outcome (Inner.t S W * Result A)) : fallible (Inner.t S W * A) :=
  '(i, r) ← m;
  Ret match r with Ok a => Ok (i, a) | Err e => Err e end.

(** [begin], [put]s and [commit()?]. *)
Definition write_all (i : Inner.t S W) (puts : list (bytes * bytes)) :
    fallible (Inner.t S W * Timestamp.t) :=
  '(i, tx) ← Db.begin i;
  question (Transaction.commit i (foldl (λ tx '(k, v), Transaction.put tx k v) tx puts)).

(** [tx.get(key)?]. *)
Definition tx_get (i : Inner.t S W) (tx : Transaction.t) (key : bytes) :
    fallible (Inner.t S W * Transaction.t * option bytes) :=
  '(i, tx, r) ← Transaction.get i tx key;
  Ret match r with Ok v => Ok (i, tx, v) | Err e => Err e end.

(** [snap.get(key)?]. *)
Definition snap_get (i : Inner.t S W) (snap : Snapshot.t) (key : bytes) :
    fallible (Inner.t S W * option bytes) :=
  question (Snapshot.get i snap key).

End calls.

(** *** [quick_start.rs] *)

Module QuickStart.
Section main.
Context `{Profile} {Disk W : Type} `{Wal Disk W} `{HashIter}.

(** The commit timestamp, the name, the role, whether the missing key is present. *)
Definition main : fallible (Timestamp.t * option bytes * option bytes * bool) :=
  i ← Db.new (W := W);
  '(i, commit_ts) ←? write_all i
    [(lit "user:1:name", lit "ada"); (lit "user:1:role", lit "admin")];
  '(i, tx) ← Db.begin i;
  '(i, tx, name) ←? tx_get i tx (lit "user:1:name");
  '(i, tx, role) ←? tx_get i tx (lit "user:1:role");
  '(i, tx, missing) ←? tx_get i tx (lit "user:2:name");
  i ← Transaction.rollback i tx;
  Ret (Ok (commit_ts, name, role, bool_decide (is_Some missing))).

End main.
End QuickStart.

(** *** [snapshot_reads.rs] *)

Module SnapshotReads.
Section main.
Context `{Profile} {Disk W : Type} `{Wal Disk W} `{HashIter}.

Definition print_config (i : Database W) (snap : Snapshot.t) :
    fallible (Database W * (option bytes * option bytes)) :=
  '(i, mode) ←? snap_get i snap (lit "config:mode");
  '(i, limit) ←? snap_get i snap (lit "config:limit");
  Ret (Ok (i, (mode, limit))).

(** For both snapshots, the timestamp it reads at and the configuration. *)
Definition main : fallible (list (Timestamp.t * (option bytes * option bytes))) :=
  i ← Db.new (W := W);
  '(i, _) ←? write_all i [(lit "config:mode", lit "safe"); (lit "config:limit", lit "10")];
  '(i, v1) ← Db.snapshot i;
  '(i, _) ←? write_all i [(lit "config:mode", lit "fast"); (lit "config:limit", lit "1000")];
  '(i, v2) ← Db.snapshot i;
  '(i, c1) ←? print_config i v1;
  '(i, c2) ←? print_config i v2;
  i ← Snapshot.drop i v2;
  i ← Snapshot.drop i v1;
  Ret (Ok [(Snapshot.read_timestamp v1, c1); (Snapshot.read_timestamp v2, c2)]).

End main.
End SnapshotReads.

(** *** [garbage_collection.rs] *)

Module GarbageCollection.
Section main.
Context `{Profile} {Disk W : Type} `{Wal Disk W} `{HashIter}.

(** [for v in range]: overwrite the counter. *)
Fixpoint overwrite (i : Database W) (range : list N) : fallible (Database W * unit) :=
  match range with
  | [] => Ret (Ok (i, tt))
  | v :: range =>
     '(i, _) ←? write_all i [(lit "counter", to_le_bytes 4 v)];
     overwrite i range
  end.

(** [expect] panics on an absent key, and the slice on a short value. *)
Definition read (i : Database W) (snap : Snapshot.t) : fallible (Database W * N) :=
  '(i, value) ←? snap_get i snap (lit "counter");
  match value with
  | None => Panic
  | Some b => if 4 <=? length b then Ret (Ok (i, from_le_bytes (take 4 b))) else Panic
  end.

(** [first..last]. *)
Definition range (first last : nat) : list N := N.of_nat <$> seq first (last - first).

Record printed := mkPrinted {
  reclaimed_while_pinned : nat; pinned_value : N;
  reclaimed_after : nat; latest_value : N; second_pass : nat;
}.

(** The example with [pin] overwrites before the snapshot and [all] in total. *)
Definition main (pin all : nat) : fallible printed :=
  i ← Db.new (W := W);
  '(i, _) ←? overwrite i (range 0 pin);
  '(i, pinned) ← Db.snapshot i;
  '(i, _) ←? overwrite i (range pin all);
  '(i, reclaimed_while_pinned) ← Db.collect_garbage i;
  '(i, pinned_value) ←? read i pinned;
  i ← Snapshot.drop i pinned;
  '(i, reclaimed_after) ← Db.collect_garbage i;
  '(i, latest) ← Db.snapshot i;
  '(i, latest_value) ←? read i latest;
  '(i, second_pass) ← Db.collect_garbage i;
  i ← Snapshot.drop i latest;
  Ret (Ok (mkPrinted reclaimed_while_pinned pinned_value reclaimed_after latest_value second_pass)).

End main.
End GarbageCollection.

(** *** [durable_store.rs] *)

Module DurableStore.
Section main.
Context `{Profile} {Disk W : Type} `{Wal Disk W} `{HashIter}.

(** The first session returns what it leaves on the disk. *)
Definition session_1 (path : Disk) : fallible (Disk * Timestamp.t) :=
  i ←? Db.open (W := W) path;
  '(i, ts) ←? write_all i
    [(lit "alice", to_le_bytes 8 100); (lit "bob", to_le_bytes 8 50)];
  '(i, pending) ← Db.begin i;
  let pending := Transaction.put pending (lit "carol") (to_le_bytes 8 999) in
  i ← Transaction.rollback i pending;
  Ret (Ok (match Inner.log i with Some l => wal_disk (CommitLog.wal l) | None => path end, ts)).

Record printed := mkPrinted {
  watermark : Timestamp.t; alice : N; bob : N; carol_present : bool; transferred_at : Timestamp.t;
}.

Definition session_2 (path : Disk) : fallible (Database W * printed) :=
  i ←? Db.open (W := W) path;
  let watermark := Db.last_committed i in
  '(i, snap) ← Db.snapshot i;
  '(i, a) ←? snap_get i snap (lit "alice");
  snap_alice ← Bank.balance a;
  '(i, b) ←? snap_get i snap (lit "bob");
  snap_bob ← Bank.balance b;
  '(i, carol) ←? snap_get i snap (lit "carol");
  '(i, tx) ← Db.begin i;
  '(i, tx, a) ←? tx_get i tx (lit "alice");
  alice ← Bank.balance a;
  '(i, tx, b) ←? tx_get i tx (lit "bob");
  bob ← Bank.balance b;
  debited ← sub_u64 alice 25;
  let tx := Transaction.put tx (lit "alice") (to_le_bytes 8 debited) in
  credited ← add_u64 bob 25;
  let tx := Transaction.put tx (lit "bob") (to_le_bytes 8 credited) in
  '(i, ts) ←? question (Transaction.commit i tx);
  i ← Snapshot.drop i snap;
  Ret (Ok (i, mkPrinted watermark snap_alice snap_bob (bool_decide (is_Some carol)) ts)).

(** From a clean [path]: the timestamp the first session prints, what the second
    one prints, and the database it ends with. *)
Definition main (path : Disk) : fallible (Timestamp.t * printed * Database W) :=
  '(path, ts) ←? session_1 path;
  '(i, out) ←? session_2 path;
  Ret (Ok (ts, out, i)).

End main.
End DurableStore.

(** *** [bank_transfer.rs] *)

Module BankTransfer.
Section main.
Context `{Profile} {Disk W : Type} `{Wal Disk W} `{HashIter}.

(** The balances after the first transfer, and the result of the second. *)
Definition main (fuel : nat) : fallible (N * N * option (Result unit)) :=
  i ← Db.new (W := W);
  '(i, _) ←? write_all i [(lit "alice", to_le_bytes 8 100); (lit "bob", to_le_bytes 8 0)];
  r ← Bank.transfer fuel i (lit "alice") (lit "bob") 30;
  match r with
  | None => Ret (Ok (0%N, 0%N, None))
  | Some (_, Err e) => Ret (Err e)
  | Some (i, Ok _) =>
     '(i, snap) ← Db.snapshot i;
     '(i, a) ←? snap_get i snap (lit "alice");
     alice ← Bank.balance a;
     '(i, b) ←? snap_get i snap (lit "bob");
     bob ← Bank.balance b;
     r ← Bank.transfer fuel i (lit "bob") (lit "alice") 1000;
     match r with
     | None => Ret (Ok (alice, bob, None))
     | Some (i, r) => i ← Snapshot.drop i snap; Ret (Ok (alice, bob, Some r))
     end
  end.

End main.
End BankTransfer.

(** *** [custom_store.rs] *)

Module CustomStore.
#[local] Existing Instance CountingStore.version_store.

Section main.
Context `{Profile} {Disk W : Type} `{Wal Disk W} `{HashIter}.

(** The counters. *)
Definition main : fallible CountingStore.Counters :=
  inner ← MemoryStore.new;
  let i := Db.with_store (W := W) (CountingStore.mk inner (CountingStore.mkCounters 0 0)) in
  '(i, _) ←? write_all i [(lit "a", lit "1"); (lit "b", lit "2")];
  '(i, tx) ← Db.begin i;
  '(i, tx, _) ←? tx_get i tx (lit "a");
  '(i, tx, _) ←? tx_get i tx (lit "b");
  '(i, tx, _) ←? tx_get i tx (lit "c");
  let counters := CountingStore.counters (Inner.store i) in
  i ← Transaction.rollback i tx;
  Ret (Ok counters).

End main.
End CustomStore.

(** ** What they print *)

Section prints.
Context `{Profile}.

Example quick_start_prints :
  QuickStart.main (W := MemWal) =
    Ret (Ok (Timestamp.from_raw 1, Some (lit "ada"), Some (lit "admin"), false)).
Proof. by destruct H; vm_compute. Qed.

(** Each snapshot keeps its version of the configuration. *)
Example snapshot_reads_prints :
  SnapshotReads.main (W := MemWal) =
    Ret (Ok [(Timestamp.from_raw 1, (Some (lit "safe"), Some (lit "10")));
             (Timestamp.from_raw 2, (Some (lit "fast"), Some (lit "1000")))]).
Proof. by destruct H; vm_compute. Qed.

(** The snapshot pins its version; the second pass finds nothing. *)
Example garbage_collection_prints :
  GarbageCollection.main (W := MemWal) 1000 1500 =
    Ret (Ok (GarbageCollection.mkPrinted 999 999 500 1499 0)).
Proof. by destruct H; vm_compute. Qed.

(** The committed accounts survive the restart and the timestamps continue. *)
Example durable_store_prints :
  match DurableStore.main (mkMemWal [] 2) with
  | Ret (Ok (ts, out, _)) =>
     ts = Timestamp.from_raw 1 ∧
     out = DurableStore.mkPrinted (Timestamp.from_raw 1) 100 50 false (Timestamp.from_raw 2)
  | _ => False
  end.
Proof. by destruct H; vm_compute. Qed.

(** The overdraft is rejected. *)
Example bank_transfer_prints :
  BankTransfer.main (W := MemWal) 1 = Ret (Ok (70%N, 30%N, Some (Err Bank.insufficient))).
Proof. by destruct H; vm_compute. Qed.

(** Three reads and two versions. *)
Example custom_store_prints :
  CustomStore.main (W := MemWal) = Ret (Ok (CountingStore.mkCounters 3 2)).
Proof. by destruct H; vm_compute. Qed.

End prints.
