(* ===== verification/UnitTests.v ===== *)
(** * The unit tests of the crate

    The [mod tests] of [src/timestamp.rs], [error.rs], [oracle.rs], [store.rs],
    [durable.rs] and [db.rs], as functions on the modelled code: a failed assertion
    and an [unwrap] of the wrong variant panic, so a test passes when it returns.
    The tests of a file form a list, and all of them pass in both build profiles;
    the property tests pass on all the inputs they may be given. The examples in the
    documentation of [src/lib.rs] are tests too. The one test that spawns threads is
    in [Threads]. *)

From Stdlib Require Import Strings.String.
From S2P Require Import Prelude RustStd Types Chain StoreTrait MemStore OracleState CommitLog.
From S2P Require Import History Coordinator Handles Database Examples.

(** ** Assertions *)

Definition assert (b : bool) : outcome unit := if b then Ret tt else Panic.
Abbreviation assert_eq x y := (assert (bool_decide (x = y))).

Definition unwrap {A} (r : Result A) : outcome A :=
  match r with Ok a => Ret a | Err _ => Panic end.

Definition unwrap_err {A} (r : Result A) : outcome TxnError.t :=
  match r with Ok _ => Panic | Err e => Ret e end.

Definition is_conflict (e : TxnError.t) : bool :=
  match e with TxnError.Conflict _ => true | _ => false end.

(** [msg.contains(part)]. *)
Definition contains (part msg : string) : bool := bool_decide (is_Some (String.index 0 part msg)).

Definition U64_MAX : N := u64_modulus - 1.

(** All the tests return. *)
Definition pass (tests : list (outcome unit)) : Prop := Forall (λ t, t = Ret tt) tests.

(** ** [timestamp.rs] *)

Module TimestampTests.

Definition test_zero_is_least : outcome unit :=
  assert (Timestamp.leb Timestamp.ZERO (Timestamp.from_raw 0));;
  assert (Timestamp.ltb Timestamp.ZERO (Timestamp.from_raw 1)).

Definition test_roundtrips_through_raw : outcome unit :=
  _ ← mapM (λ v, assert_eq (Timestamp.get (Timestamp.from_raw v)) v) [0; 1; 2; U64_MAX]%N;
  Ret tt.

Definition test_ordering_matches_integer_ordering : outcome unit :=
  assert (Timestamp.ltb (Timestamp.from_raw 5) (Timestamp.from_raw 9));;
  assert (Timestamp.ltb (Timestamp.from_raw 5) (Timestamp.from_raw 9)).

Definition test_display_prefixes_at_sign : outcome unit :=
  assert_eq (Timestamp.fmt (Timestamp.from_raw 12)) "@12"%string.

Definition tests : list (outcome unit) :=
  [test_zero_is_least; test_roundtrips_through_raw; test_ordering_matches_integer_ordering;
   test_display_prefixes_at_sign].

End TimestampTests.

(** ** [error.rs] *)

Module ErrorTests.
Section tests.
Context `{Profile} `{HashIter}.

Definition test_conflict_is_retryable : outcome unit :=
  assert (TxnError.is_retryable (TxnError.conflict 8)).

Definition test_store_error_is_not_retryable : outcome unit :=
  assert (negb (TxnError.is_retryable (TxnError.store "read" "disk gone"))).

Definition test_conflict_display_reports_key_len_not_bytes : outcome unit :=
  let msg := TxnError.fmt (TxnError.conflict 16) in
  assert (contains "16-byte" msg);;
  assert (contains "retry" msg).

Definition test_kind_matches_variant : outcome unit :=
  assert_eq (TxnError.kind (TxnError.conflict 1)) "Conflict"%string;;
  assert_eq (TxnError.kind (TxnError.store "x" "y")) "Store"%string.

Definition test_no_variant_is_fatal : outcome unit :=
  assert (negb (TxnError.is_fatal (TxnError.conflict 1)));;
  assert (negb (TxnError.is_fatal (TxnError.store "x" "y"))).

Definition test_error_is_clonable_and_comparable : outcome unit :=
  let a := TxnError.conflict 4 in
  assert_eq a a.

Definition every_variant : list (TxnError.t * bool * bool) :=
  [(TxnError.conflict 8, true, false);
   (TxnError.store "read" "disk gone", false, false);
   (TxnError.Durability "sync failed", false, true)].

(** [for ... in every_variant()]. *)
Definition for_every (body : TxnError.t → bool → bool → outcome unit) : outcome unit :=
  _ ← mapM (λ '(err, retryable, fatal), body err retryable fatal) every_variant;
  Ret tt.

Definition test_trait_is_retryable_matches_inherent_for_every_variant : outcome unit :=
  for_every (λ err retryable _,
    assert_eq (TxnError.is_retryable err) retryable;;
    assert_eq (TxnError.forge_is_retryable err) retryable).

Definition test_dyn_forge_error_is_retryable_for_every_variant : outcome unit :=
  for_every (λ err retryable _, assert_eq (TxnError.forge_is_retryable err) retryable).

Definition test_is_fatal_for_every_variant : outcome unit :=
  for_every (λ err _ fatal, assert_eq (TxnError.is_fatal err) fatal).

Definition test_kind_through_dyn_forge_error_for_every_variant : outcome unit :=
  for_every (λ err _ _,
    assert_eq (TxnError.kind err) (TxnError.kind err);;
    assert_eq (TxnError.caption err) "transaction error"%string).

Definition test_boxed_dyn_forge_error_from_real_conflict_is_retryable : outcome unit :=
  db ← Db.new (W := MemWal);
  '(db, a) ← Db.begin db;
  '(db, b) ← Db.begin db;
  let a := Transaction.put a (lit "k") (lit "a") in
  let b := Transaction.put b (lit "k") (lit "b") in
  '(db, r) ← Transaction.commit db a;
  _ ← unwrap r;
  '(db, r) ← Transaction.commit db b;
  boxed ← unwrap_err r;
  assert (TxnError.forge_is_retryable boxed);;
  assert (negb (TxnError.is_fatal boxed)).

Definition tests : list (outcome unit) :=
  [test_conflict_is_retryable; test_store_error_is_not_retryable;
   test_conflict_display_reports_key_len_not_bytes; test_kind_matches_variant;
   test_no_variant_is_fatal; test_error_is_clonable_and_comparable;
   test_trait_is_retryable_matches_inherent_for_every_variant;
   test_dyn_forge_error_is_retryable_for_every_variant; test_is_fatal_for_every_variant;
   test_kind_through_dyn_forge_error_for_every_variant;
   test_boxed_dyn_forge_error_from_real_conflict_is_retryable].

End tests.
End ErrorTests.

(** ** [oracle.rs] *)

Module OracleTests.
Section tests.
Context `{Profile}.

Definition test_new_oracle_reads_at_zero : outcome unit :=
  assert_eq (Oracle.read_ts Oracle.new) Timestamp.ZERO.

Definition test_commit_ts_is_strictly_increasing : outcome unit :=
  let '(o, a) := Oracle.alloc_commit_ts Oracle.new in
  let '(o, b) := Oracle.alloc_commit_ts o in
  assert (Timestamp.ltb a b);;
  assert_eq a (Timestamp.from_raw 1);;
  assert_eq b (Timestamp.from_raw 2).

Definition test_watermark_advances_on_in_order_completion : outcome unit :=
  let '(o, t1) := Oracle.alloc_commit_ts Oracle.new in
  o ← Oracle.commit_done o t1;
  assert_eq (Oracle.read_ts o) (Timestamp.from_raw 1).

Definition test_watermark_waits_for_earlier_timestamp : outcome unit :=
  let '(o, t1) := Oracle.alloc_commit_ts Oracle.new in
  let '(o, t2) := Oracle.alloc_commit_ts o in
  o ← Oracle.commit_done o t2;
  assert_eq (Oracle.read_ts o) Timestamp.ZERO;;
  o ← Oracle.commit_done o t1;
  assert_eq (Oracle.read_ts o) (Timestamp.from_raw 2).

Definition tests : list (outcome unit) :=
  [test_new_oracle_reads_at_zero; test_commit_ts_is_strictly_increasing;
   test_watermark_advances_on_in_order_completion; test_watermark_waits_for_earlier_timestamp].

End tests.
End OracleTests.

(** ** [store.rs] *)

Module StoreTests.
Section tests.
Context `{Profile} `{HashIter}.

Definition at_ts (n : N) : Timestamp.t := Timestamp.from_raw n.

(** [fn commit]. *)
Definition commit (store : MemoryStore.t) (ts : N) (writes : list WriteEntry) :
    outcome MemoryStore.t :=
  before ← sub_u64 ts 1;
  '(store, r) ← MemoryStore.try_commit store (at_ts before) (at_ts ts) writes [];
  _ ← unwrap r;
  Ret store.

(** [assert_eq!(store.get(key, ts).unwrap(), expected)]. *)
Definition assert_get (store : MemoryStore.t) (key : bytes) (ts : Timestamp.t)
    (expected : option bytes) : outcome unit :=
  '(_, r) ← MemoryStore.get store key ts;
  v ← unwrap r;
  assert_eq v expected.

Definition put_x (v : string) : list WriteEntry := [(lit "x", Some (lit v))].

Definition test_get_on_missing_key_returns_none : outcome unit :=
  store ← MemoryStore.new;
  assert_get store (lit "absent") (at_ts 10) None.

Definition test_read_sees_only_versions_at_or_before_snapshot : outcome unit :=
  store ← MemoryStore.new;
  store ← commit store 2 (put_x "a");
  store ← commit store 4 (put_x "b");
  assert_get store (lit "x") (at_ts 1) None;;
  assert_get store (lit "x") (at_ts 2) (Some (lit "a"));;
  assert_get store (lit "x") (at_ts 3) (Some (lit "a"));;
  assert_get store (lit "x") (at_ts 4) (Some (lit "b"));;
  assert_get store (lit "x") (at_ts 99) (Some (lit "b")).

Definition test_tombstone_reads_as_absent : outcome unit :=
  store ← MemoryStore.new;
  store ← commit store 1 (put_x "a");
  store ← commit store 2 [(lit "x", None)];
  assert_get store (lit "x") (at_ts 1) (Some (lit "a"));;
  assert_get store (lit "x") (at_ts 2) None.

Definition test_write_write_conflict_is_detected : outcome unit :=
  store ← MemoryStore.new;
  store ← commit store 5 (put_x "a");
  '(store, r) ← MemoryStore.try_commit store (at_ts 4) (at_ts 6) (put_x "b") [];
  err ← unwrap_err r;
  assert (is_conflict err);;
  assert_get store (lit "x") (at_ts 99) (Some (lit "a")).

Definition test_read_set_validation_detects_skew : outcome unit :=
  store ← MemoryStore.new;
  store ← commit store 5 [(lit "y", Some (lit "1"))];
  '(store, r) ← MemoryStore.try_commit store (at_ts 4) (at_ts 6) (put_x "a") [lit "y"];
  err ← unwrap_err r;
  assert (is_conflict err).

(** [0u8..32] as one-byte strings. *)
Definition small_keys : list bytes := (λ i, [as_u8 (N.of_nat i)]) <$> seq 0 32.

Definition test_multi_shard_commit_applies_all_keys : outcome unit :=
  store ← MemoryStore.with_shards 8;
  store ← commit store 1 ((λ k, (k, Some k)) <$> small_keys);
  _ ← mapM (λ k, assert_get store k (at_ts 1) (Some k)) small_keys;
  assert_eq (MemoryStore.key_count store) 32.

Definition test_with_shards_rounds_up_to_power_of_two : outcome unit :=
  store ← MemoryStore.with_shards 5;
  assert_eq (length (MemoryStore.shards store)) 8;;
  assert_eq (MemoryStore.mask store) 7%N.

Definition test_gc_prunes_versions_below_watermark_but_keeps_newest_visible : outcome unit :=
  store ← MemoryStore.new;
  store ← commit store 1 (put_x "a");
  store ← commit store 2 (put_x "b");
  store ← commit store 3 (put_x "c");
  '(store, reclaimed) ← MemoryStore.collect_garbage store (at_ts 2);
  assert_eq reclaimed 1;;
  assert_get store (lit "x") (at_ts 2) (Some (lit "b"));;
  assert_get store (lit "x") (at_ts 3) (Some (lit "c")).

Definition test_gc_drops_key_whose_only_survivor_is_a_passed_tombstone : outcome unit :=
  store ← MemoryStore.new;
  store ← commit store 1 (put_x "a");
  store ← commit store 2 [(lit "x", None)];
  '(store, reclaimed) ← MemoryStore.collect_garbage store (at_ts 5);
  assert_eq reclaimed 2;;
  assert_eq (MemoryStore.key_count store) 0.

Definition test_gc_keeps_everything_above_watermark : outcome unit :=
  store ← MemoryStore.new;
  store ← commit store 5 (put_x "a");
  store ← commit store 6 (put_x "b");
  '(store, reclaimed) ← MemoryStore.collect_garbage store (at_ts 4);
  assert_eq reclaimed 0;;
  assert_get store (lit "x") (at_ts 5) (Some (lit "a")).

(** [store.try_commit(read_ts, ts, writes, &[]).unwrap()]. *)
Definition commit_at (store : MemoryStore.t) (read_ts ts : Timestamp.t)
    (writes : list WriteEntry) : outcome MemoryStore.t :=
  '(store, r) ← MemoryStore.try_commit store read_ts ts writes [];
  _ ← unwrap r;
  Ret store.

Definition test_extreme_timestamps_order_correctly : outcome unit :=
  let near_max := at_ts (U64_MAX - 1) in
  let max := at_ts U64_MAX in
  store ← MemoryStore.new;
  store ← commit_at store Timestamp.ZERO near_max (put_x "a");
  store ← commit_at store near_max max (put_x "b");
  assert_get store (lit "x") (at_ts (U64_MAX - 2)) None;;
  assert_get store (lit "x") near_max (Some (lit "a"));;
  assert_get store (lit "x") max (Some (lit "b"));;
  '(store, r) ← MemoryStore.try_commit store near_max max (put_x "c") [];
  err ← unwrap_err r;
  assert (is_conflict err).

Definition test_gc_at_extreme_watermark : outcome unit :=
  store ← MemoryStore.new;
  store ← commit_at store Timestamp.ZERO (at_ts (U64_MAX - 1)) (put_x "a");
  store ← commit_at store (at_ts (U64_MAX - 1)) (at_ts U64_MAX) (put_x "b");
  '(store, reclaimed) ← MemoryStore.collect_garbage store (at_ts U64_MAX);
  assert_eq reclaimed 1;;
  assert_get store (lit "x") (at_ts U64_MAX) (Some (lit "b")).

(** [struct NoHistory]. *)
Definition no_history : VersionStore unit := {|
  vs_get := λ s _ _, Ret (s, Ok None);
  vs_try_commit := λ s _ _ _ _, Ret (s, Ok tt);
  vs_collect_garbage := default_collect_garbage;
|}.

Definition test_default_trait_gc_is_noop : outcome unit :=
  '(_, reclaimed) ← vs_collect_garbage (VersionStore := no_history) tt (at_ts 100);
  assert_eq reclaimed 0.

Definition tests : list (outcome unit) :=
  [test_get_on_missing_key_returns_none; test_read_sees_only_versions_at_or_before_snapshot;
   test_tombstone_reads_as_absent; test_write_write_conflict_is_detected;
   test_read_set_validation_detects_skew; test_multi_shard_commit_applies_all_keys;
   test_with_shards_rounds_up_to_power_of_two;
   test_gc_prunes_versions_below_watermark_but_keeps_newest_visible;
   test_gc_drops_key_whose_only_survivor_is_a_passed_tombstone;
   test_gc_keeps_everything_above_watermark; test_extreme_timestamps_order_correctly;
   test_gc_at_extreme_watermark; test_default_trait_gc_is_noop].

End tests.
End StoreTests.

(** ** [durable.rs] *)

Module DurableTests.
Section tests.
Context `{Profile}.

Definition is_err {A} (r : Result A) : bool := negb (is_ok r).

Definition assert_rejected (b : bytes) : outcome unit :=
  r ← Codec.decode_commit b;
  assert (is_err r).

(** The property tests, on the inputs that are generated for them. *)
Definition decode_never_panics_on_arbitrary_bytes (b : bytes) : outcome unit :=
  _ ← Codec.decode_commit b;
  Ret tt.

Definition encode_decode_roundtrips_arbitrary (ts : N) (entries : list WriteEntry) : outcome unit :=
  r ← Codec.decode_commit (Codec.encode_for_log (Timestamp.from_raw ts) entries);
  decoded ← unwrap r;
  assert_eq (Codec.commit_ts decoded) (Timestamp.from_raw ts);;
  assert_eq (Codec.writes decoded) entries.

Definition k_v : list WriteEntry := [(lit "k", Some (lit "v"))].

Definition decode_rejects_arbitrary_trailing_bytes (ts : N) (trailer : bytes) : outcome unit :=
  assert_rejected (Codec.encode_for_log (Timestamp.from_raw ts) k_v ++ trailer).

Definition test_encode_decode_roundtrip : outcome unit :=
  encode_decode_roundtrips_arbitrary 42
    [(lit "alice", Some (lit "100")); (lit "bob", None); ([], Some [])].

Definition test_decode_empty_write_set : outcome unit :=
  encode_decode_roundtrips_arbitrary 7 [].

(** Every prefix [bytes[..cut]]. *)
Definition test_decode_truncated_record_is_rejected : outcome unit :=
  let b := Codec.encode_for_log (Timestamp.from_raw 1) k_v in
  _ ← mapM (λ cut, assert_rejected (take cut b)) (seq 0 (length b));
  Ret tt.

Definition test_decode_rejects_implausible_count : outcome unit :=
  assert_rejected ([Codec.RECORD_VERSION] ++ to_le_bytes 8 0 ++ to_le_bytes 4 (2 ^ 32 - 1)).

Definition test_decode_rejects_trailing_bytes : outcome unit :=
  assert_rejected (Codec.encode_for_log (Timestamp.from_raw 1) [] ++ [xff]).

Definition test_decode_rejects_bad_value_tag : outcome unit :=
  assert_rejected ([Codec.RECORD_VERSION] ++ to_le_bytes 8 1 ++ to_le_bytes 4 1 ++
    to_le_bytes 4 1 ++ lit "k" ++ [x09]).

Definition test_decode_rejects_unknown_version : outcome unit :=
  let b := Codec.encode_for_log (Timestamp.from_raw 1) k_v in
  assert_rejected (<[0 := x02]> b).

Definition tests : list (outcome unit) :=
  [test_encode_decode_roundtrip; test_decode_empty_write_set;
   test_decode_truncated_record_is_rejected; test_decode_rejects_implausible_count;
   test_decode_rejects_trailing_bytes; test_decode_rejects_bad_value_tag;
   test_decode_rejects_unknown_version].

(** The generator's inputs for the round trip: fewer than 24 writes, with keys and
    values of fewer than 24 bytes. *)
Definition generated (ts : N) (entries : list WriteEntry) : Prop :=
  (ts < u64_modulus)%N ∧ length entries < 24 ∧
  Forall (λ '(k, v), length k < 24 ∧ length (default [] v) < 24) entries.

End tests.
End DurableTests.

(** ** [db.rs] *)

Module DbTests.
Section tests.
Context `{Profile} `{HashIter}.

Abbreviation Database := (Inner.t MemoryStore.t MemWal).

(** [db.begin().get(key).unwrap()], whose transaction is dropped at once. *)
Definition begin_get (db : Database) (key : bytes) : outcome (Database * option bytes) :=
  '(db, tx) ← Db.begin db;
  '(db, tx, r) ← Transaction.get db tx key;
  v ← unwrap r;
  db ← Transaction.rollback db tx;
  Ret (db, v).

(** [begin], one [put] and [commit().unwrap()]. *)
Definition commit_put (db : Database) (key value : bytes) : outcome (Database * Timestamp.t) :=
  '(db, tx) ← Db.begin db;
  '(db, r) ← Transaction.commit db (Transaction.put tx key value);
  ts ← unwrap r;
  Ret (db, ts).

(** [snap.get(key).unwrap()]. *)
Definition snapshot_get (db : Database) (snap : Snapshot.t) (key : bytes) :
    outcome (Database * option bytes) :=
  '(db, r) ← Snapshot.get db snap key;
  v ← unwrap r;
  Ret (db, v).

Definition test_new_database_is_empty_at_zero : outcome unit :=
  db ← Db.new (W := MemWal);
  assert_eq (Db.last_committed db) Timestamp.ZERO;;
  '(_, v) ← begin_get db (lit "k");
  assert_eq v None.

Definition test_commit_makes_writes_visible_to_later_transactions : outcome unit :=
  db ← Db.new (W := MemWal);
  '(db, ts) ← commit_put db (lit "k") (lit "v");
  assert (Timestamp.ltb Timestamp.ZERO ts);;
  '(_, v) ← begin_get db (lit "k");
  assert_eq v (Some (lit "v")).

Definition test_snapshot_is_isolated_from_later_commits : outcome unit :=
  db ← Db.new (W := MemWal);
  '(db, _) ← commit_put db (lit "k") (lit "v1");
  '(db, snap) ← Db.snapshot db;
  '(db, _) ← commit_put db (lit "k") (lit "v2");
  '(db, v) ← snapshot_get db snap (lit "k");
  assert_eq v (Some (lit "v1"));;
  _ ← Snapshot.drop db snap;
  Ret tt.

Definition test_write_write_conflict_aborts_later_committer : outcome unit :=
  db ← Db.new (W := MemWal);
  '(db, a) ← Db.begin db;
  '(db, b) ← Db.begin db;
  let a := Transaction.put a (lit "k") (lit "a") in
  let b := Transaction.put b (lit "k") (lit "b") in
  '(db, r) ← Transaction.commit db a;
  assert (is_ok r);;
  '(db, r) ← Transaction.commit db b;
  err ← unwrap_err r;
  assert (TxnError.is_retryable err);;
  '(_, v) ← begin_get db (lit "k");
  assert_eq v (Some (lit "a")).

Definition test_disjoint_keys_do_not_conflict : outcome unit :=
  db ← Db.new (W := MemWal);
  '(db, a) ← Db.begin db;
  '(db, b) ← Db.begin db;
  let a := Transaction.put a (lit "a") (lit "1") in
  let b := Transaction.put b (lit "b") (lit "2") in
  '(db, r) ← Transaction.commit db a;
  assert (is_ok r);;
  '(db, r) ← Transaction.commit db b;
  assert (is_ok r).

Definition test_read_only_commit_returns_snapshot_timestamp : outcome unit :=
  db ← Db.new (W := MemWal);
  '(db, ts) ← commit_put db (lit "k") (lit "v");
  '(db, ro) ← Db.begin db;
  '(db, r) ← Transaction.commit db ro;
  ts' ← unwrap r;
  assert_eq ts' ts.

Definition test_rollback_discards_writes : outcome unit :=
  db ← Db.new (W := MemWal);
  '(db, tx) ← Db.begin db;
  db ← Transaction.rollback db (Transaction.put tx (lit "k") (lit "v"));
  '(_, v) ← begin_get db (lit "k");
  assert_eq v None.

(** A one-shot write, with fuel for its retry loop. *)
Definition finished {A} (r : option (Database * Result A)) : outcome (Database * A) :=
  match r with
  | Some (db, r) => a ← unwrap r; Ret (db, a)
  | None => Panic
  end.

Definition one_shot_get (db : Database) (key : bytes) : outcome (Database * option bytes) :=
  '(db, r) ← Db.get db key;
  v ← unwrap r;
  Ret (db, v).

Definition test_autocommit_put_get_delete (fuel : nat) : outcome unit :=
  db ← Db.new (W := MemWal);
  r ← Db.put_loop fuel db (lit "k") (lit "v");
  '(db, ts) ← finished r;
  assert (Timestamp.ltb Timestamp.ZERO ts);;
  '(db, v) ← one_shot_get db (lit "k");
  assert_eq v (Some (lit "v"));;
  '(db, v) ← one_shot_get db (lit "absent");
  assert_eq v None;;
  r ← Db.delete_loop fuel db (lit "k");
  '(db, ts2) ← finished r;
  assert (Timestamp.ltb ts ts2);;
  '(_, v) ← one_shot_get db (lit "k");
  assert_eq v None.

(** [for v in 0..n]: overwrite [k] with [v]. *)
Definition overwrite (db : Database) (n : nat) : outcome Database :=
  foldl (λ db v, db ← db; '(db, _) ← commit_put db (lit "k") [as_u8 (N.of_nat v)]; Ret db)
    (Ret db) (seq 0 n).

Definition test_gc_reclaims_when_no_reader_is_held : outcome unit :=
  db ← Db.new (W := MemWal);
  db ← overwrite db 5;
  '(db, reclaimed) ← Db.collect_garbage db;
  assert (0 <? reclaimed);;
  '(_, v) ← begin_get db (lit "k");
  assert_eq v (Some [x04]).

Definition test_held_snapshot_pins_gc : outcome unit :=
  db ← Db.new (W := MemWal);
  '(db, _) ← commit_put db (lit "k") [x01];
  '(db, snap) ← Db.snapshot db;
  '(db, _) ← commit_put db (lit "k") [x02];
  '(db, _) ← Db.collect_garbage db;
  '(db, v) ← snapshot_get db snap (lit "k");
  assert_eq v (Some [x01]);;
  db ← Snapshot.drop db snap;
  '(db, reclaimed) ← Db.collect_garbage db;
  assert (0 <? reclaimed);;
  '(_, v) ← begin_get db (lit "k");
  assert_eq v (Some [x02]).

(** The clone is the same shared state. *)
Definition test_clone_shares_state : outcome unit :=
  db ← Db.new (W := MemWal);
  '(db, _) ← commit_put db (lit "k") (lit "v");
  '(_, v) ← begin_get db (lit "k");
  assert_eq v (Some (lit "v")).

(** Two transactions that each read both rows and write one of them. *)
Definition write_skew (begin : Database → outcome (Database * Transaction.t)) :
    outcome (Database * Result Timestamp.t) :=
  db ← Db.new (W := MemWal);
  '(db, seed) ← Db.begin db;
  let seed := Transaction.put seed (lit "x") [x01] in
  let seed := Transaction.put seed (lit "y") [x01] in
  '(db, r) ← Transaction.commit db seed;
  _ ← unwrap r;
  '(db, t1) ← begin db;
  '(db, t2) ← begin db;
  '(db, t1, r) ← Transaction.get db t1 (lit "x");
  _ ← unwrap r;
  '(db, t1, r) ← Transaction.get db t1 (lit "y");
  _ ← unwrap r;
  '(db, t2, r) ← Transaction.get db t2 (lit "x");
  _ ← unwrap r;
  '(db, t2, r) ← Transaction.get db t2 (lit "y");
  _ ← unwrap r;
  let t1 := Transaction.put t1 (lit "x") [x00] in
  let t2 := Transaction.put t2 (lit "y") [x00] in
  '(db, r) ← Transaction.commit db t1;
  assert (is_ok r);;
  Transaction.commit db t2.

Definition test_serializable_rejects_write_skew : outcome unit :=
  '(_, r) ← write_skew Db.begin_serializable;
  err ← unwrap_err r;
  assert (TxnError.is_retryable err).

Definition test_snapshot_txn_allows_write_skew : outcome unit :=
  '(_, r) ← write_skew Db.begin;
  assert (is_ok r).

Definition tests : list (outcome unit) :=
  [test_new_database_is_empty_at_zero; test_commit_makes_writes_visible_to_later_transactions;
   test_snapshot_is_isolated_from_later_commits;
   test_write_write_conflict_aborts_later_committer; test_disjoint_keys_do_not_conflict;
   test_read_only_commit_returns_snapshot_timestamp; test_rollback_discards_writes;
   test_autocommit_put_get_delete 1; test_gc_reclaims_when_no_reader_is_held;
   test_held_snapshot_pins_gc; test_clone_shares_state;
   test_serializable_rejects_write_skew; test_snapshot_txn_allows_write_skew].

End tests.
End DbTests.

(** ** The examples in the documentation of [lib.rs] and [Db] *)

Module DocTests.
Section tests.
Context `{Profile} `{HashIter}.
Abbreviation Database := (Inner.t MemoryStore.t MemWal).

(** "The common case". *)
Definition common_case : outcome unit :=
  db ← Db.new (W := MemWal);
  '(db, tx) ← Db.begin db;
  let tx := Transaction.put tx (lit "user:1:name") (lit "ada") in
  let tx := Transaction.put tx (lit "user:1:role") (lit "admin") in
  '(db, r) ← Transaction.commit db tx;
  _ ← unwrap r;
  '(db, tx) ← Db.begin db;
  '(_, _, r) ← Transaction.get db tx (lit "user:1:name");
  v ← unwrap r;
  assert_eq v (Some (lit "ada")).

(** "Snapshot isolation". *)
Definition snapshot_isolation : outcome unit :=
  db ← Db.new (W := MemWal);
  '(db, a) ← Db.begin db;
  '(db, b) ← Db.begin db;
  let a := Transaction.put a (lit "counter") (lit "1") in
  let b := Transaction.put b (lit "counter") (lit "2") in
  '(db, r) ← Transaction.commit db a;
  _ ← unwrap r;
  '(_, r) ← Transaction.commit db b;
  err ← unwrap_err r;
  assert (TxnError.is_retryable err).

(** [prelude]. *)
Definition prelude : outcome unit :=
  db ← Db.new (W := MemWal);
  '(db, tx) ← Db.begin db;
  let tx := Transaction.put tx (lit "k") (lit "v") in
  '(_, r) ← Transaction.commit db tx;
  _ ← unwrap r;
  Ret tt.

(** "The four-call common case", of [Db]. *)
Definition four_calls : outcome unit :=
  db ← Db.new (W := MemWal);
  '(db, tx) ← Db.begin db;
  let tx := Transaction.put tx (lit "greeting") (lit "hei") in
  '(db, r) ← Transaction.commit db tx;
  _ ← unwrap r;
  '(db, tx) ← Db.begin db;
  '(_, _, r) ← Transaction.get db tx (lit "greeting");
  v ← unwrap r;
  assert_eq v (Some (lit "hei")).

Definition tests : list (outcome unit) :=
  [common_case; snapshot_isolation; prelude; four_calls].

End tests.
End DocTests.

(** ** Lemmas: the property tests *)

Section property_tests.
Context `{Profile}.

Lemma never_panics b : DurableTests.decode_never_panics_on_arbitrary_bytes b = Ret tt.
Proof.
  unfold DurableTests.decode_never_panics_on_arbitrary_bytes.
  by destruct (Codec.decode_commit_cases b) as [[e ->]|(c & -> & _)].
Qed.

Lemma generated_size entries :
  Forall (λ '(k, v), length k < 24 ∧ length (default [] v) < 24) entries →
  Forall Codec.write_fits entries ∧ sum_list (Codec.write_len <$> entries) ≤ 57 * length entries.
Proof.
  induction 1 as [|[k v] entries [Hk Hv] _ [IH1 IH2]]; [by split|]. split.
  - constructor; [|done]. unfold Codec.write_fits, Codec.value_fits, Codec.fits_u32.
    change (2 ^ 32)%N with 4294967296%N. split; [|destruct v; [|done]]; cbn in *; lia.
  - cbn. destruct v; cbn in *; lia.
Qed.

Lemma generated_fits ts entries :
  DurableTests.generated ts entries → Codec.record_fits (Timestamp.from_raw ts) entries.
Proof.
  intros (Hts & Hlen & Hsize). apply generated_size in Hsize as [Hfit Hsum].
  split; [done| |done|].
  - unfold Codec.fits_u32. lia.
  - rewrite Codec.record_capacity_exact. unfold Codec.record_capacity, u64_modulus. lia.
Qed.

Lemma roundtrips ts entries :
  DurableTests.generated ts entries →
  DurableTests.encode_decode_roundtrips_arbitrary ts entries = Ret tt.
Proof.
  intros Hgen%generated_fits. unfold DurableTests.encode_decode_roundtrips_arbitrary.
  rewrite Codec.decode_record_fits by done. run. cbn. by rewrite !bool_decide_eq_true_2.
Qed.

Lemma rejects_trailing ts trailer :
  (ts < u64_modulus)%N → 0 < length trailer < 32 →
  DurableTests.decode_rejects_arbitrary_trailing_bytes ts trailer = Ret tt.
Proof.
  intros Hts Htr. unfold DurableTests.decode_rejects_arbitrary_trailing_bytes,
    DurableTests.assert_rejected.
  assert (DurableTests.generated ts DurableTests.k_v) as [Hfit1 Hfit2 Hfit3 Hfit4]%generated_fits.
  { split_and!; [done|cbn; lia|]. repeat constructor; cbn; lia. }
  rewrite Codec.decode_commit_next; [|done..|].
  - run. by case_cmp; [lia|].
  - rewrite length_app, Codec.record_capacity_exact. unfold Codec.record_capacity, u64_modulus.
    cbn. lia.
Qed.

End property_tests.

(** ** Properties *)

