(* ===== verification/IntegrationTests.v ===== *)
(** * The integration tests

    The property tests of [tests/snapshot_isolation.rs], [serializable.rs] and
    [gc.rs], the tests of [adversarial.rs] that run on one thread, and the tests of
    [durability.rs] and [backing_store.rs], as functions on the modelled code, with
    the inputs the test framework draws as arguments. A failed assertion panics,
    and so does a database error, which [?] would report as a failure. The property
    tests pass on every input, the others are run. *)

From S2P Require Import Prelude RustStd Types Chain StoreTrait CommitLog MemStore OracleState.
From S2P Require Import History Coordinator Handles Database Spec Session BTreeStore Sequential Examples UnitTests.

(** A loop over [l] with state [a]. *)
Fixpoint for_each {A X} (l : list X) (a : A) (body : A → X → outcome A) : outcome A :=
  match l with
  | [] => Ret a
  | x :: l => a ← body a x; for_each l a body
  end.

Section tests.
Context `{Profile} {Disk W : Type} `{Wal Disk W} `{HashIter}.
Abbreviation Database := (Inner.t MemoryStore.t W).

(** [0..n] as keys. *)
Definition key_space (n : nat) : list byte :=
  (λ k, default x00 (Byte.of_N (N.of_nat k))) <$> seq 0 n.

(** [value.map(|bytes| bytes[0])]. *)
Definition first_byte (v : option bytes) : outcome (option byte) :=
  match v with None => Ret None | Some b => x ← index b 0; Ret (Some x) end.

Definition snap_read (db : Database) (snap : Snapshot.t) (key : byte) :
    outcome (Database * option byte) :=
  '(db, r) ← Snapshot.get db snap [key];
  v ← unwrap r;
  b ← first_byte v;
  Ret (db, b).

(** [fn read]. *)
Definition read (db : Database) (key : byte) : outcome (Database * option byte) :=
  '(db, snap) ← Db.snapshot db;
  '(db, v) ← snap_read db snap key;
  db ← Snapshot.drop db snap;
  Ret (db, v).

(** One [put] or [delete] in a transaction of its own, which must commit. *)
Definition commit_write (db : Database) (key : bytes) (value : option bytes) : outcome Database :=
  '(db, tx) ← Db.begin db;
  let tx := match value with
            | Some v => Transaction.put tx key v
            | None => Transaction.delete tx key
            end in
  '(db, r) ← Transaction.commit db tx;
  assert (is_ok r);;
  Ret db.

(** ** [snapshot_isolation.rs] *)

Inductive Op :=
| OpPut (k v : byte)
| OpDelete (k : byte).

Definition committed_state_matches_reference_model (ops : list Op) : outcome unit :=
  db ← Db.new (W := W);
  '(db, model) ← for_each ops (db, ∅ : gmap byte byte) (λ '(db, model) op,
    let '(key, value, model) := match op with
      | OpPut k v => ([k], Some [v], <[k := v]> model)
      | OpDelete k => ([k], None, delete k model)
      end in
    db ← commit_write db key value;
    Ret (db, model));
  _ ← for_each (key_space 8) db (λ db k,
    '(db, v) ← read db k;
    assert_eq v (model !! k);;
    Ret db);
  Ret tt.

(** [(0..KEY_SPACE).map(|k| snap.get(&[k])...).collect()]. *)
Definition observe (n : nat) (db : Database) (snap : Snapshot.t) :
    outcome (Database * list (option byte)) :=
  for_each (key_space n) (db, []) (λ '(db, seen) k,
    '(db, v) ← snap_read db snap k;
    Ret (db, seen ++ [v])).

Definition snapshot_is_stable_under_later_commits (base churn : list (byte * byte)) : outcome unit :=
  db ← Db.new (W := W);
  '(db, tx) ← Db.begin db;
  let tx := foldl (λ tx '(k, v), Transaction.put tx [k] [v]) tx base in
  '(db, r) ← Transaction.commit db tx;
  assert (is_ok r);;
  '(db, snap) ← Db.snapshot db;
  '(db, observed) ← observe 8 db snap;
  db ← for_each churn db (λ db '(k, v), commit_write db [k] (Some [v]));
  '(_, again) ← observe 8 db snap;
  assert_eq again observed.

Definition write_write_conflict_aborts_the_later_committer (k v1 v2 : byte) : outcome unit :=
  db ← Db.new (W := W);
  '(db, a) ← Db.begin db;
  '(db, b) ← Db.begin db;
  let a := Transaction.put a [k] [v1] in
  let b := Transaction.put b [k] [v2] in
  '(db, r) ← Transaction.commit db a;
  assert (is_ok r);;
  '(db, r) ← Transaction.commit db b;
  err ← unwrap_err r;
  assert (TxnError.is_retryable err);;
  assert (is_conflict err);;
  '(_, v) ← read db k;
  assert_eq v (Some v1).

Definition transaction_reads_its_own_pending_writes (k v : byte) : outcome unit :=
  db ← Db.new (W := W);
  '(db, tx) ← Db.begin db;
  '(db, tx, r) ← Transaction.get db tx [k];
  got ← unwrap r;
  assert_eq got None;;
  let tx := Transaction.put tx [k] [v] in
  '(db, tx, r) ← Transaction.get db tx [k];
  got ← unwrap r;
  got ← first_byte got;
  assert_eq got (Some v);;
  let tx := Transaction.delete tx [k] in
  '(db, tx, r) ← Transaction.get db tx [k];
  got ← unwrap r;
  assert_eq got None;;
  db ← Transaction.rollback db tx;
  Ret tt.

(** ** [serializable.rs] *)

(** [let _ = tx.get(&[k])?]. *)
Definition touch (db : Database) (tx : Transaction.t) (k : byte) : outcome (Database * Transaction.t) :=
  '(db, tx, r) ← Transaction.get db tx [k];
  _ ← unwrap r;
  Ret (db, tx).

Definition write_skew_never_lets_both_commit (x y vx vy : byte) : outcome unit :=
  db ← Db.new (W := W);
  '(db, seed) ← Db.begin db;
  let seed := Transaction.put seed [x] [x01] in
  let seed := Transaction.put seed [y] [x01] in
  '(db, r) ← Transaction.commit db seed;
  assert (is_ok r);;
  '(db, t1) ← Db.begin_serializable db;
  '(db, t2) ← Db.begin_serializable db;
  '(db, t1) ← touch db t1 x;
  '(db, t1) ← touch db t1 y;
  '(db, t2) ← touch db t2 x;
  '(db, t2) ← touch db t2 y;
  let t1 := Transaction.put t1 [x] [vx] in
  let t2 := Transaction.put t2 [y] [vy] in
  '(db, r1) ← Transaction.commit db t1;
  '(db, r2) ← Transaction.commit db t2;
  assert (negb (is_ok r1 && is_ok r2));;
  assert (is_ok r1);;
  r2_err ← unwrap_err r2;
  assert (TxnError.is_retryable r2_err).

Definition disjoint_serializable_transactions_both_commit (a b va vb : byte) : outcome unit :=
  db ← Db.new (W := W);
  '(db, t1) ← Db.begin_serializable db;
  '(db, t2) ← Db.begin_serializable db;
  '(db, t1) ← touch db t1 a;
  '(db, t2) ← touch db t2 b;
  let t1 := Transaction.put t1 [a] [va] in
  let t2 := Transaction.put t2 [b] [vb] in
  '(db, r) ← Transaction.commit db t1;
  assert (is_ok r);;
  '(db, r) ← Transaction.commit db t2;
  assert (is_ok r).

Definition uncontended_serializable_transaction_commits (reads : list byte) (key value : byte) :
    outcome unit :=
  db ← Db.new (W := W);
  '(db, tx) ← Db.begin_serializable db;
  '(db, tx) ← for_each reads (db, tx) (λ '(db, tx) k, touch db tx k);
  let tx := Transaction.put tx [key] [value] in
  '(db, r) ← Transaction.commit db tx;
  assert (is_ok r).

Definition serializable_read_only_always_commits (reads : list byte) : outcome unit :=
  db ← Db.new (W := W);
  db ← commit_write db [x00] (Some [x09]);
  '(db, tx) ← Db.begin_serializable db;
  '(db, snapshot_tx) ← for_each reads (db, tx) (λ '(db, tx) k, touch db tx k);
  db ← commit_write db [x00] (Some [x05]);
  '(db, r) ← Transaction.commit db snapshot_tx;
  assert (is_ok r).

(** ** [gc.rs] *)

Inductive Step :=
| StepPut (k v : byte)
| StepDelete (k : byte)
| StepSnapshot
| StepGc.

(** Every [Pinned] snapshot reads what it read before. *)
Definition all_unmoved (db : Database) (pinned : list (Snapshot.t * list (option byte))) :
    outcome Database :=
  for_each pinned db (λ db '(snap, observed),
    '(db, again) ← observe 6 db snap;
    assert_eq again observed;;
    Ret db).

Definition gc_never_reclaims_a_live_snapshots_versions (steps : list Step) : outcome unit :=
  db ← Db.new (W := W);
  '(db, pinned) ← for_each steps (db, []) (λ '(db, pinned) step,
    match step with
    | StepPut k v => db ← commit_write db [k] (Some [v]); Ret (db, pinned)
    | StepDelete k => db ← commit_write db [k] None; Ret (db, pinned)
    | StepSnapshot =>
       '(db, snap) ← Db.snapshot db;
       '(db, observed) ← observe 6 db snap;
       Ret (db, pinned ++ [(snap, observed)])
    | StepGc =>
       '(db, _) ← Db.collect_garbage db;
       db ← all_unmoved db pinned;
       Ret (db, pinned)
    end);
  _ ← all_unmoved db pinned;
  Ret tt.

Definition gc_with_no_reader_keeps_only_the_newest_value (values : list byte) : outcome unit :=
  db ← Db.new (W := W);
  db ← for_each values db (λ db v, commit_write db [x6b] (Some [v]));
  '(db, _) ← Db.collect_garbage db;
  '(db, snap) ← Db.snapshot db;
  '(db, r) ← Snapshot.get db snap [x6b];
  got ← unwrap r;
  match last values with
  | Some v => assert_eq got (Some [v])
  | None => Panic
  end.

(** ** [adversarial.rs] *)

(** [snap.get(&key).unwrap()]. *)
Definition snap_get (db : Database) (snap : Snapshot.t) (key : bytes) :
    outcome (Database * option bytes) :=
  '(db, r) ← Snapshot.get db snap key;
  v ← unwrap r;
  Ret (db, v).

Definition some {A} (v : option A) : outcome A := match v with Some x => Ret x | None => Panic end.

(** [u32::to_le_bytes] and [u32::from_le_bytes(got[..4].try_into().unwrap())]. *)
Definition le (i : nat) : bytes := to_le_bytes 4 (N.of_nat i).

Definition from_le (got : bytes) : outcome N :=
  if 4 <=? length got then Ret (from_le_bytes (take 4 got)) else Panic.

Definition U32_MAX : N := 2 ^ 32 - 1.

(** [n] is 20_000. *)
Definition very_large_transaction (n : nat) : outcome unit :=
  db ← Db.new (W := W);
  '(db, tx) ← Db.begin db;
  let tx := foldl (λ tx i, Transaction.put tx (le i) (le i)) tx (seq 0 n) in
  '(db, r) ← Transaction.commit db tx;
  _ ← unwrap r;
  '(db, snap) ← Db.snapshot db;
  db ← for_each [0; 1; n / 2; n - 1] db (λ db i,
    '(db, got) ← snap_get db snap (le i);
    got ← some got;
    v ← from_le got;
    assert_eq v (N.of_nat i);;
    Ret db);
  '(db, tx) ← Db.begin db;
  let tx := foldl (λ tx i, Transaction.put tx (le i) (to_le_bytes 4 U32_MAX)) tx
    ((λ i, 2 * i) <$> seq 0 ((n + 1) / 2)) in
  '(db, r) ← Transaction.commit db tx;
  _ ← unwrap r;
  '(db, snap) ← Db.snapshot db;
  '(db, even) ← snap_get db snap (le 0);
  even ← some even;
  '(_, odd) ← snap_get db snap (le 1);
  odd ← some odd;
  even ← from_le even;
  odd ← from_le odd;
  assert_eq even U32_MAX;;
  assert_eq odd 1%N.

(** [key_len] is 4096 and [value_len] is [1 << 20]. *)
Definition edge_case_key_and_value_sizes (key_len value_len : nat) : outcome unit :=
  db ← Db.new (W := W);
  let big_value := replicate value_len xab in
  let big_key := replicate key_len x5a in
  '(db, tx) ← Db.begin db;
  let tx := Transaction.put tx [] (Examples.lit "empty-key") in
  let tx := Transaction.put tx (Examples.lit "empty-value") [] in
  let tx := Transaction.put tx big_key big_value in
  '(db, r) ← Transaction.commit db tx;
  _ ← unwrap r;
  '(db, snap) ← Db.snapshot db;
  '(db, v) ← snap_get db snap [];
  assert_eq v (Some (Examples.lit "empty-key"));;
  '(db, v) ← snap_get db snap (Examples.lit "empty-value");
  assert_eq v (Some []);;
  '(_, v) ← snap_get db snap big_key;
  v ← some v;
  assert (length v =? length big_value).

(** ** Lemmas *)

(** Every element in turn keeps an invariant of the state and what was done. *)
Lemma for_each_inv {A X} (I : list X → A → Prop) (l : list X) (a : A) (body : A → X → outcome A) :
  I [] a →
  (∀ pre x post a, l = pre ++ x :: post → I pre a → ∃ a', body a x = Ret a' ∧ I (pre ++ [x]) a') →
  ∃ a', for_each l a body = Ret a' ∧ I l a'.
Proof using Type.
  intros Ha Hbody.
  assert (∀ post pre a, l = pre ++ post → I pre a → ∃ a', for_each post a body = Ret a' ∧ I l a') as Hgen;
    [|by eapply (Hgen l [])].
  clear Ha. induction post as [|x post IH]; intros pre b -> Hb.
  { exists b. by rewrite app_nil_r. }
  destruct (Hbody pre x post b eq_refl Hb) as (b' & E & Hb'). cbn. rewrite E. run.
  apply (IH (pre ++ [x])); [by rewrite <-app_assoc|done].
Qed.

(** One byte is stored under every key. *)
Definition single (m : gmap bytes bytes) : Prop := map_Forall (λ _ v, length v = 1) m.

Definition byte_at (m : gmap bytes bytes) (k : byte) : option byte := m !! [k] ≫= head.

Definition one_byte (v : option bytes) : Prop := match v with Some v => length v = 1 | None => True end.

Lemma first_byte_at m k : single m → first_byte (m !! [k]) = Ret (byte_at m k).
Proof using Type.
  intros Hm. unfold first_byte, byte_at. destruct (m !! [k]) as [v|] eqn:E; [|done].
  specialize (Hm _ _ E). cbn in Hm. by destruct v as [|b [|]].
Qed.

Lemma single_install d w :
  single (SI.now d) → map_Forall (λ _ v, one_byte v) w → single (SI.now (SI.install d w)).
Proof using Type.
  intros Hd Hw k v. rewrite Local.lookup_now_install. destruct (w !! k) eqn:E; [|apply Hd].
  intros ->. by apply (Hw _ _ E).
Qed.

Lemma single_install_one d key value :
  single (SI.now d) → one_byte value → single (SI.now (SI.install d {[key := value]})).
Proof using Type. intros Hd Hv. apply single_install; [done|]. by apply map_Forall_singleton. Qed.

Abbreviation world := (Local.world (W := W)).
Ltac limit := unfold Local.LIMIT, u64_modulus in *; lia.

(** The bound of a [world] is only about its clock and its handles. *)
Lemma world_tight n n' i hs d :
  world n i hs d → (SI.clock d ≤ n')%N → (N.of_nat (length hs) ≤ n')%N → world n' i hs d.
Proof using Type. intros (h & ? & ? & _ & _) ? ?. by exists h. Qed.

Lemma world_bounds n i hs d : world n i hs d → (SI.clock d ≤ n)%N ∧ (N.of_nat (length hs) ≤ n)%N.
Proof using Type. by intros (h & _ & _ & ? & ?). Qed.

Lemma snap_read_ok n i s b m hs d k :
  world n i (Local.snap s b m :: hs) d → single m →
  ∃ i', snap_read i s k = Ret (i', byte_at m k) ∧ world n i' (Local.snap s b m :: hs) d.
Proof using Type.
  intros Hw Hm. destruct (Local.world_read n i hs d s b m [k] Hw) as (i' & E & Hw').
  exists i'. split; [|done]. unfold snap_read. rewrite E. run. cbn [unwrap]. run.
  by rewrite first_byte_at.
Qed.

Lemma read_ok n i hs d k :
  world n i hs d → (n < Local.LIMIT)%N → single (SI.now d) →
  ∃ i', read i k = Ret (i', byte_at (SI.now d) k) ∧ world n i' hs d.
Proof using Type.
  intros Hw Hn Hd. unfold read.
  destruct (Local.world_snapshot n i hs d Hw Hn) as (i1 & s & -> & Hw1). run.
  destruct (snap_read_ok _ _ _ _ _ _ _ k Hw1 Hd) as (i2 & -> & Hw2). run.
  destruct (Local.world_drop_snapshot _ _ _ _ _ _ _ Hw2) as (i3 & -> & Hw3). run.
  exists i3. split; [done|]. destruct (world_bounds n i hs d Hw). by eapply world_tight.
Qed.

Lemma observe_ok cnt n i s b m hs d :
  world n i (Local.snap s b m :: hs) d → single m →
  ∃ i', observe cnt i s = Ret (i', byte_at m <$> key_space cnt) ∧
    world n i' (Local.snap s b m :: hs) d.
Proof using Type.
  intros Hw Hm.
  destruct (for_each_inv (λ pre '(i, seen), world n i (Local.snap s b m :: hs) d ∧
      seen = byte_at m <$> pre) (key_space cnt) (i, []) (λ '(db, seen) k,
      '(db, v) ← snap_read db s k; Ret (db, seen ++ [v]))) as ([i' seen] & E & Hw' & ->);
    [done| |by exists i'].
  intros pre k post [i1 seen] _ [Hw1 ->]. destruct (snap_read_ok _ _ _ _ _ _ _ k Hw1 Hm) as (i2 & -> & Hw2).
  run. eexists (_, _). split; [done|]. split; [done|]. by rewrite fmap_app.
Qed.

Lemma commit_write_ok n i hs d key value :
  world n i hs d → (n + 1 < Local.LIMIT)%N →
  ∃ i', commit_write i key value = Ret i' ∧ world (n + 1) i' hs (SI.install d {[key := value]}).
Proof using Type.
  intros Hw Hn. unfold commit_write, Db.begin.
  destruct (Local.world_begin n i hs d false Hw ltac:(limit)) as (i1 & tx & -> & Hw1). run.
  apply (Local.world_write _ _ _ _ _ _ key value) in Hw1.
  replace (match value with Some v => _ | None => _ end) with (Transaction.set_write tx key value)
    by by destruct value.
  destruct (Local.world_commit _ _ _ _ _ _ Hw1 ltac:(limit)) as (i2 & r & d' & -> & Hc & Hw2). run.
  destruct (Local.commits_now n i hs d false _ r d' Hw Hc) as [-> ->]; [|done|].
  { cbn. intros E. apply (insert_non_empty (M := gmap bytes) (A := option bytes)) in E. done. }
  exists i2. split; [done|]. pose proof (world_bounds n i hs d Hw). eapply world_tight; [exact Hw2|cbn; lia..].
Qed.

(** As many operations as a 64-bit clock has room for. *)
Definition few {A} (l : list A) : Prop := (N.of_nat (length l) + 10 < Local.LIMIT)%N.

Lemma few_pre {A} (pre : list A) x post : few (pre ++ x :: post) → (N.of_nat (length pre) + 10 < Local.LIMIT)%N.
Proof using Type. unfold few. rewrite length_app. cbn. lia. Qed.

Lemma single_empty : single (SI.now (SI.sdb SI.initial)).
Proof using Type. intros k v. cbn. by rewrite lookup_empty. Qed.

Lemma byte_at_install d key value k :
  byte_at (SI.now (SI.install d {[key := value]})) k =
    if decide (key = [k]) then value ≫= head else byte_at (SI.now d) k.
Proof using Type.
  unfold byte_at. rewrite Local.lookup_now_install, lookup_singleton. by case_decide.
Qed.

Lemma reads_ok keys n i hs d (expected : byte → option byte) :
  (n < Local.LIMIT)%N → world n i hs d → single (SI.now d) →
  (∀ k, byte_at (SI.now d) k = expected k) →
  ∃ i', for_each keys i (λ db k, '(db, v) ← read db k; assert_eq v (expected k);; Ret db) = Ret i' ∧
    world n i' hs d.
Proof using Type.
  intros Hn Hw Hd He.
  apply (for_each_inv (λ _ i, world n i hs d)); [done|]. intros pre k post i1 _ Hw1.
  destruct (read_ok n i1 hs d k Hw1 Hn Hd) as (i2 & -> & Hw2). run. rewrite He.
  unfold assert. rewrite bool_decide_true by done. run. by exists i2.
Qed.

Lemma reference_model ops : few ops → committed_state_matches_reference_model ops = Ret tt.
Proof using Type.
  intros Hops. unfold committed_state_matches_reference_model.
  destruct (Local.world_new (W := W)) as (i0 & -> & Hw0). run.
  edestruct (for_each_inv (λ pre '((i, model) : Database * gmap byte byte), ∃ d, world (N.of_nat (length pre)) i [] d ∧
      single (SI.now d) ∧ ∀ k, byte_at (SI.now d) k = model !! k) ops (i0, ∅ : gmap byte byte))
    as ([i model] & E & d & Hw & Hd & Hm); [..|rewrite E; run].
  - eexists. split_and!; [exact Hw0|apply single_empty|done].
  - intros pre op post [i1 model1] Hl (d1 & Hw1 & Hd1 & Hm1). subst ops.
    pose proof (few_pre _ _ _ Hops) as Hn. rewrite length_app. cbn [length].
    replace (N.of_nat (length pre + 1)) with (N.of_nat (length pre) + 1)%N by lia.
    destruct op as [k v|k];
      (edestruct commit_write_ok as (i2 & -> & Hw2); [exact Hw1|lia|]); run;
      eexists (_, _); (split; [done|]); eexists; (split_and!; [exact Hw2|by apply single_install_one|]);
      intros k'; rewrite byte_at_install, ?lookup_insert, ?lookup_delete;
      repeat case_decide; try congruence; try done; apply Hm1.
  - unfold few in Hops.
    edestruct (reads_ok (key_space 8)) as (i' & -> & _); [|exact Hw|done|exact Hm|done]. lia.
Qed.

Lemma foldl_put_world n hs d base : ∀ i tx x,
  world n i (Local.txn tx x :: hs) d →
  ∃ x', world n i (Local.txn (foldl (λ tx '(k, v), Transaction.put tx [k] [v]) tx base) x' :: hs) d ∧
    SI.began x' = SI.began x ∧
    (map_Forall (λ _ v, one_byte v) (SI.pending x) → map_Forall (λ _ v, one_byte v) (SI.pending x')) ∧
    (base ≠ [] → SI.pending x' ≠ ∅) ∧ (base = [] → x' = x).
Proof using Type.
  induction base as [|[k v] base IH]; intros i tx x Hw.
  { exists x. by split_and!. }
  destruct (IH i _ _ (Local.world_write n i hs d tx x [k] (Some [v]) Hw)) as (x' & Hw' & Hb & Ho & Hne & He).
  exists x'. split_and!; [exact Hw'|done| | |done].
  - intros Hx. apply Ho. cbn. by apply map_Forall_insert_2.
  - intros _. destruct base; [|by apply Hne]. rewrite He by done. cbn. apply insert_non_empty.
Qed.

Lemma stable_snapshot base churn :
  few churn → snapshot_is_stable_under_later_commits base churn = Ret tt.
Proof using Type.
  intros Hchurn. unfold snapshot_is_stable_under_later_commits. unfold few in *.
  destruct (Local.world_new (W := W)) as (i0 & -> & Hw0). run.
  destruct (Local.world_begin _ _ _ _ false Hw0 ltac:(limit)) as (i1 & tx & E & Hw1).
  unfold Db.begin. rewrite E. run.
  destruct (foldl_put_world _ _ _ base _ _ _ Hw1) as (x & Hw2 & Hb & Ho & Hne & He).
  destruct (Local.world_commit _ _ _ _ _ _ Hw2 ltac:(limit)) as (i2 & r & d & -> & Hc & Hw3). run.
  assert (is_ok r = true ∧ single (SI.now d)) as [Hr Hd].
  { destruct (decide (base = [])) as [->|Hnb].
    - rewrite He in Hc by done. apply Local.commits_nothing in Hc as [-> ->]; [|done].
      split; [done|apply single_empty].
    - destruct (Local.commits_now _ _ _ _ false _ _ _ Hw0 Hc) as [-> ->]; [auto|done|].
      split; [done|]. apply single_install; [apply single_empty|]. by apply Ho. }
  rewrite Hr. run.
  destruct (Local.world_snapshot _ _ _ _ Hw3 ltac:(limit)) as (i3 & sn & -> & Hw4). run.
  destruct (observe_ok 8 _ _ _ _ _ _ _ Hw4 Hd) as (i4 & -> & Hw5). run.
  edestruct (for_each_inv (λ pre i, ∃ d', world (N.of_nat (length pre) + 3) i
      [Local.snap sn (SI.clock d) (SI.now d)] d') churn i4) as (i5 & -> & d5 & Hw6); [..|run].
  - by exists d.
  - intros pre [k v] post i -> [d1 Hw']. rewrite length_app in *. cbn [length] in *.
    edestruct commit_write_ok as (i6 & -> & Hw7); [exact Hw'|limit|]. eexists. split; [done|].
    eexists. replace (N.of_nat (length pre + 1) + 3)%N with (N.of_nat (length pre) + 3 + 1)%N by lia.
    exact Hw7.
  - destruct (observe_ok 8 _ _ _ _ _ _ _ Hw6 Hd) as (i6 & -> & _). run.
    unfold assert. by rewrite bool_decide_true.
Qed.

(** Two handles change places. *)
Lemma world_swap n i p q hs d : world n i (p :: q :: hs) d → world n i (q :: p :: hs) d.
Proof using Type. apply Local.world_perm, Permutation_swap. Qed.

Lemma pending_write x key v : SI.pending (SI.write x key v) ≠ ∅.
Proof using Type. apply insert_non_empty. Qed.

Lemma write_write k v1 v2 : write_write_conflict_aborts_the_later_committer k v1 v2 = Ret tt.
Proof using Type.
  unfold write_write_conflict_aborts_the_later_committer, Db.begin, Transaction.put.
  destruct (Local.world_new (W := W)) as (i0 & -> & Hw). run.
  destruct (Local.world_begin _ _ _ _ false Hw ltac:(limit)) as (i1 & a & -> & Hw1). run.
  destruct (Local.world_begin _ _ _ _ false Hw1 ltac:(limit)) as (i2 & b & -> & Hw2). run.
  apply (Local.world_write _ _ _ _ _ _ [k] (Some [v2])), world_swap in Hw2.
  apply (Local.world_write _ _ _ _ _ _ [k] (Some [v1])) in Hw2.
  destruct (Local.world_commit _ _ _ _ _ _ Hw2 ltac:(limit)) as (i3 & r & d & -> & Hc & Hw3). run.
  destruct (Local.commits_now _ _ _ _ false _ _ _ Hw Hc (pending_write _ _ _) eq_refl) as [-> ->].
  cbn [is_ok assert]. run.
  destruct (Local.world_commit _ _ _ _ _ _ Hw3 ltac:(limit)) as (i4 & r & d & -> & Hc2 & Hw4). run.
  destruct (Local.commits_stale _ _ _ _ [k] Hc2 (pending_write _ _ _)) as [[key ->] ->].
  { left. cbn. rewrite lookup_insert_eq. by eexists. }
  { rewrite Local.stamp_install. cbn. by rewrite lookup_insert_eq. }
  cbn [unwrap_err]. run. cbn [TxnError.is_retryable TxnError.conflict is_conflict assert]. run.
  destruct (read_ok _ _ _ _ k Hw4 ltac:(limit)) as (i5 & -> & _).
  { by apply (single_install_one (SI.sdb SI.initial) [k] (Some [v1]) single_empty). }
  run. unfold assert. rewrite bool_decide_true; [done|].
  change (byte_at _ k) with (byte_at (SI.now (SI.install (SI.sdb SI.initial) {[[k] := Some [v1]]})) k).
  rewrite byte_at_install. by case_decide.
Qed.

Lemma own_writes k v : transaction_reads_its_own_pending_writes k v = Ret tt.
Proof using Type.
  unfold transaction_reads_its_own_pending_writes, Db.begin, Transaction.put, Transaction.delete.
  destruct (Local.world_new (W := W)) as (i0 & -> & Hw). run.
  destruct (Local.world_begin _ _ _ _ false Hw ltac:(limit)) as (i1 & tx & -> & Hw1). run.
  destruct (Local.world_get _ _ _ _ _ _ [k] Hw1) as (i2 & tx2 & -> & Hw2). run.
  unfold SI.read at 1. cbn [unwrap SI.begin SI.pending SI.base SI.now SI.sdb SI.initial].
  rewrite !lookup_empty. run. cbn [assert]. rewrite bool_decide_true by done. cbn [assert]. run.
  apply (Local.world_write _ _ _ _ _ _ [k] (Some [v])) in Hw2.
  destruct (Local.world_get _ _ _ _ _ _ [k] Hw2) as (i3 & tx3 & -> & Hw3). run.
  unfold SI.read at 1. cbn [unwrap SI.write SI.pending]. rewrite lookup_insert_eq. run.
  cbn [first_byte index lookup list_lookup]. run. rewrite bool_decide_true by done. cbn [assert]. run.
  apply (Local.world_write _ _ _ _ _ _ [k] None) in Hw3.
  destruct (Local.world_get _ _ _ _ _ _ [k] Hw3) as (i4 & tx4 & -> & Hw4). run.
  unfold SI.read at 1. cbn [unwrap SI.write SI.pending]. rewrite lookup_insert_eq. run.
  rewrite bool_decide_true by done. cbn [assert]. run.
  by destruct (Local.world_rollback _ _ _ _ _ _ Hw4) as (i5 & -> & _).
Qed.

Lemma note_same x key : SI.began (SI.note x key) = SI.began x ∧ SI.pending (SI.note x key) = SI.pending x.
Proof using Type. unfold SI.note. by destruct (_ !! key). Qed.

Lemma note_seen x key :
  SI.pending x = ∅ → SI.seen (SI.note x key) = (λ set, {[key]} ∪ set) <$> SI.seen x.
Proof using Type. intros E. unfold SI.note. by rewrite E, lookup_empty. Qed.

Lemma touch_ok n i tx x hs d k :
  world n i (Local.txn tx x :: hs) d →
  ∃ i' tx', touch i tx k = Ret (i', tx') ∧ world n i' (Local.txn tx' (SI.note x [k]) :: hs) d.
Proof using Type.
  intros Hw. destruct (Local.world_get _ _ _ _ _ _ [k] Hw) as (i' & tx' & E & Hw').
  exists i', tx'. split; [|done]. unfold touch. rewrite E. by run.
Qed.

(** Any number of reads by a transaction that has not written. *)
Lemma touches_ok n i tx x hs d reads :
  world n i (Local.txn tx x :: hs) d →
  ∃ i' tx' x', for_each reads (i, tx) (λ '(db, tx) k, touch db tx k) = Ret (i', tx') ∧
    world n i' (Local.txn tx' x' :: hs) d ∧ SI.began x' = SI.began x ∧ SI.pending x' = SI.pending x.
Proof using Type.
  intros Hw.
  destruct (for_each_inv (λ _ '(i', tx'), ∃ x', world n i' (Local.txn tx' x' :: hs) d ∧
    SI.began x' = SI.began x ∧ SI.pending x' = SI.pending x) reads (i, tx)
    (λ '(db, tx) k, touch db tx k)) as ([i' tx'] & E & x' & Hw' & ?);
    [by exists x| |by exists i', tx', x'].
  intros pre k post [i1 tx1] _ (x1 & Hw1 & Hb & Hp).
  destruct (touch_ok _ _ _ _ _ _ k Hw1) as (i2 & tx2 & E & Hw2). exists (i2, tx2). split; [done|].
  eexists. split; [exact Hw2|]. destruct (note_same x1 [k]) as [-> ->]. done.
Qed.

Lemma write_skew x y vx vy : x ≠ y → write_skew_never_lets_both_commit x y vx vy = Ret tt.
Proof using Type.
  intros Hxy. unfold write_skew_never_lets_both_commit, Db.begin, Db.begin_serializable, Transaction.put.
  destruct (Local.world_new (W := W)) as (i0 & -> & Hw). run.
  destruct (Local.world_begin _ _ _ _ false Hw ltac:(limit)) as (i1 & seed & -> & Hw1). run.
  apply (Local.world_write _ _ _ _ _ _ [x] (Some [x01])) in Hw1.
  apply (Local.world_write _ _ _ _ _ _ [y] (Some [x01])) in Hw1.
  destruct (Local.world_commit _ _ _ _ _ _ Hw1 ltac:(limit)) as (i2 & r & d1 & -> & Hc & Hw2). run.
  destruct (Local.commits_now _ _ _ _ false _ _ _ Hw Hc (pending_write _ _ _) eq_refl) as [-> _].
  cbn [is_ok assert]. run. clear Hc Hw Hw1.
  destruct (Local.world_begin _ _ _ _ true Hw2 ltac:(limit)) as (i3 & t1 & -> & Hw3). run.
  destruct (Local.world_begin _ _ _ _ true Hw3 ltac:(limit)) as (i4 & t2 & -> & Hw4). run.
  apply world_swap in Hw4.
  destruct (touch_ok _ _ _ _ _ _ x Hw4) as (i5 & t1a & -> & Hw5). run.
  destruct (touch_ok _ _ _ _ _ _ y Hw5) as (i6 & t1b & -> & Hw6). run. apply world_swap in Hw6.
  destruct (touch_ok _ _ _ _ _ _ x Hw6) as (i7 & t2a & -> & Hw7). run.
  destruct (touch_ok _ _ _ _ _ _ y Hw7) as (i8 & t2b & -> & Hw8). run.
  apply (Local.world_write _ _ _ _ _ _ [y] (Some [vy])), world_swap in Hw8.
  apply (Local.world_write _ _ _ _ _ _ [x] (Some [vx])) in Hw8.
  destruct (Local.world_commit _ _ _ _ _ _ Hw8 ltac:(limit)) as (i9 & r1 & d2 & -> & Hc1 & Hw9). run.
  destruct (Local.commits_now _ _ _ _ true _ _ _ Hw2 Hc1 (pending_write _ _ _)) as [-> ->].
  { cbn [SI.write SI.began]. by rewrite !(proj1 (note_same _ _)). }
  destruct (Local.world_commit _ _ _ _ _ _ Hw9 ltac:(limit)) as (i10 & r2 & d3 & -> & Hc2 & _). run.
  destruct (Local.commits_stale _ _ _ _ [x] Hc2 (pending_write _ _ _)) as [[key ->] _]; [..|done].
  - right. cbn [SI.write SI.seen]. rewrite note_seen, note_seen by (rewrite ?(proj2 (note_same _ _)); done).
    cbn. set_solver.
  - rewrite Local.stamp_install. cbn [SI.write SI.pending SI.began].
    rewrite !(proj1 (note_same _ _)), lookup_insert_eq, decide_True by by eexists. cbn. lia.
Qed.

Lemma disjoint_serializable a b va vb :
  a ≠ b → disjoint_serializable_transactions_both_commit a b va vb = Ret tt.
Proof using Type.
  intros Hab. unfold disjoint_serializable_transactions_both_commit, Db.begin_serializable, Transaction.put.
  destruct (Local.world_new (W := W)) as (i0 & -> & Hw). run.
  destruct (Local.world_begin _ _ _ _ true Hw ltac:(limit)) as (i1 & t1 & -> & Hw1). run.
  destruct (Local.world_begin _ _ _ _ true Hw1 ltac:(limit)) as (i2 & t2 & -> & Hw2). run.
  apply world_swap in Hw2. destruct (touch_ok _ _ _ _ _ _ a Hw2) as (i3 & t1a & -> & Hw3). run.
  apply world_swap in Hw3. destruct (touch_ok _ _ _ _ _ _ b Hw3) as (i4 & t2a & -> & Hw4). run.
  apply (Local.world_write _ _ _ _ _ _ [b] (Some [vb])), world_swap in Hw4.
  apply (Local.world_write _ _ _ _ _ _ [a] (Some [va])) in Hw4.
  destruct (Local.world_commit _ _ _ _ _ _ Hw4 ltac:(limit)) as (i5 & r1 & d1 & -> & Hc1 & Hw5). run.
  destruct (Local.commits_now _ _ _ _ true _ _ _ Hw Hc1 (pending_write _ _ _)) as [-> ->].
  { cbn [SI.write SI.began]. by rewrite (proj1 (note_same _ _)). }
  cbn [is_ok assert]. run.
  destruct (Local.world_commit _ _ _ _ _ _ Hw5 ltac:(limit)) as (i6 & r2 & d2 & -> & Hc2 & _). run.
  destruct (Local.commits_fresh _ _ _ _ Hc2 (pending_write _ _ _)) as [-> _]; [|done].
  intros key Hv. rewrite Local.stamp_install, decide_False.
  { unfold SI.stamp. cbn. rewrite lookup_empty. cbn. lia. }
  intros [w Hw']. cbn [SI.write SI.pending] in Hw'. rewrite (proj2 (note_same _ _)) in Hw'.
  apply lookup_insert_Some in Hw' as [[<- _]|[_ Hw']]; [|by cbn in Hw'; rewrite lookup_empty in Hw'].
  destruct Hv as [Hv|Hv]; cbn [SI.write SI.pending SI.seen] in Hv.
  - rewrite (proj2 (note_same _ _)), lookup_insert_ne in Hv by congruence. by destruct Hv.
  - rewrite note_seen in Hv by done. cbn in Hv. set_solver.
Qed.

Lemma uncontended_serializable reads key value :
  uncontended_serializable_transaction_commits reads key value = Ret tt.
Proof using Type.
  unfold uncontended_serializable_transaction_commits, Db.begin_serializable, Transaction.put.
  destruct (Local.world_new (W := W)) as (i0 & -> & Hw). run.
  destruct (Local.world_begin _ _ _ _ true Hw ltac:(limit)) as (i1 & tx & -> & Hw1). run.
  destruct (touches_ok _ _ _ _ _ _ reads Hw1) as (i2 & tx2 & x & -> & Hw2 & Hb & Hp). run.
  apply (Local.world_write _ _ _ _ _ _ [key] (Some [value])) in Hw2.
  destruct (Local.world_commit _ _ _ _ _ _ Hw2 ltac:(limit)) as (i3 & r & d & -> & Hc & _). run.
  by destruct (Local.commits_now _ _ _ _ true _ _ _ Hw Hc (pending_write _ _ _)) as [-> ->].
Qed.

Lemma serializable_read_only reads : serializable_read_only_always_commits reads = Ret tt.
Proof using Type.
  unfold serializable_read_only_always_commits, Db.begin_serializable.
  destruct (Local.world_new (W := W)) as (i0 & -> & Hw). run.
  destruct (commit_write_ok _ _ _ _ [x00] (Some [x09]) Hw ltac:(limit)) as (i1 & -> & Hw1). run.
  destruct (Local.world_begin _ _ _ _ true Hw1 ltac:(limit)) as (i2 & tx & -> & Hw2). run.
  destruct (touches_ok _ _ _ _ _ _ reads Hw2) as (i3 & tx2 & x & -> & Hw3 & Hb & Hp). run.
  destruct (commit_write_ok _ _ _ _ [x00] (Some [x05]) Hw3 ltac:(limit)) as (i4 & -> & Hw4). run.
  destruct (Local.world_commit _ _ _ _ _ _ Hw4 ltac:(limit)) as (i5 & r & d & -> & Hc & _). run.
  by apply Local.commits_nothing in Hc as [-> _].
Qed.

(** The pinned snapshots and what the machine knows of them. *)
Definition pinned_as (p : Snapshot.t * list (option byte)) (x : Session.handle * SI.handle) : Prop :=
  ∃ b m, x = Local.snap p.1 b m ∧ single m ∧ p.2 = byte_at m <$> key_space 6.

Lemma all_unmoved_ok n i hs d pinned :
  world n i hs d → Forall2 pinned_as pinned hs →
  ∃ i', all_unmoved i pinned = Ret i' ∧ world n i' hs d.
Proof using Type.
  intros Hw Hp. apply (for_each_inv (λ _ i, world n i hs d)); [done|].
  intros pre [sn observed] post i1 -> Hw1.
  apply Forall2_app_inv_l in Hp as (hs1 & hs2 & _ & Hp & ->).
  apply Forall2_cons_inv_l in Hp as (x & hs3 & (b & m & -> & Hm & Ho) & _ & ->). cbn [fst snd] in *.
  eapply Local.world_perm in Hw1; [|symmetry; apply Permutation_middle].
  destruct (observe_ok 6 _ _ _ _ _ _ _ Hw1 Hm) as (i2 & -> & Hw2). run.
  unfold assert. rewrite bool_decide_true by done. run. exists i2. split; [done|].
  eapply Local.world_perm; [apply Permutation_middle|exact Hw2].
Qed.

Lemma pinned_unmoved steps :
  few steps → gc_never_reclaims_a_live_snapshots_versions steps = Ret tt.
Proof using Type.
  intros Hsteps. unfold gc_never_reclaims_a_live_snapshots_versions.
  destruct (Local.world_new (W := W)) as (i0 & -> & Hw0). run.
  edestruct (for_each_inv (λ pre '((i, pinned) : Database * list (Snapshot.t * list (option byte))),
      ∃ hs d, world (N.of_nat (length pre)) i hs d ∧ single (SI.now d) ∧
        Forall2 pinned_as pinned hs) steps (i0, []))
    as ([i pinned] & E & hs & d & Hw & _ & Hp); [..|rewrite E; run].
  - eexists _, _. split_and!; [exact Hw0|apply single_empty|constructor].
  - intros pre step post [i1 pinned] Hl (hs & d & Hw & Hd & Hp). subst steps.
    pose proof (few_pre _ _ _ Hsteps) as Hn. rewrite length_app. cbn [length].
    replace (N.of_nat (length pre + 1)) with (N.of_nat (length pre) + 1)%N by lia.
    destruct step as [k v|k| |].
    + edestruct commit_write_ok as (i2 & -> & Hw2); [exact Hw|lia|]. run. eexists (_, _).
      split; [done|]. eexists _, _. split_and!; [exact Hw2|by apply single_install_one|done].
    + edestruct commit_write_ok as (i2 & -> & Hw2); [exact Hw|lia|]. run. eexists (_, _).
      split; [done|]. eexists _, _. split_and!; [exact Hw2|by apply single_install_one|done].
    + destruct (Local.world_snapshot _ _ _ _ Hw ltac:(lia)) as (i2 & sn & -> & Hw2). run.
      destruct (observe_ok 6 _ _ _ _ _ _ _ Hw2 Hd) as (i3 & -> & Hw3). run.
      eexists (_, _). split; [done|]. eexists (hs ++ [_]), d.
      split_and!; [eapply Local.world_perm; [|exact Hw3]; apply Permutation_cons_append|done|].
      apply Forall2_app; [done|]. constructor; [|constructor]. by eexists _, _.
    + destruct (Local.world_collect _ _ _ _ Hw) as (i2 & m & -> & Hw2). run.
      destruct (all_unmoved_ok _ _ _ _ _ Hw2 Hp) as (i3 & -> & Hw3). run. eexists (_, _).
      split; [done|]. exists hs, d. split_and!; [eapply Local.world_mono; [|exact Hw3]; lia|done..].
  - by destruct (all_unmoved_ok _ _ _ _ _ Hw Hp) as (i2 & -> & _).
Qed.

Lemma newest_value_kept values :
  few values → values ≠ [] → gc_with_no_reader_keeps_only_the_newest_value values = Ret tt.
Proof using Type.
  intros Hv Hne. unfold gc_with_no_reader_keeps_only_the_newest_value.
  destruct (Local.world_new (W := W)) as (i0 & -> & Hw0). run.
  edestruct (for_each_inv (λ pre i, ∃ d, world (N.of_nat (length pre)) i [] d ∧
      SI.now d !! [x6b] = (λ v, [v]) <$> last pre) values i0) as (i1 & -> & d & Hw & Hnow); [..|run].
  - by eexists.
  - intros pre v post i -> (d & Hw & _). pose proof (few_pre _ _ _ Hv) as Hn.
    edestruct commit_write_ok as (i2 & -> & Hw2); [exact Hw|lia|]. exists i2. split; [done|].
    eexists. rewrite length_app. cbn [length].
    replace (N.of_nat (length pre + 1)) with (N.of_nat (length pre) + 1)%N by lia.
    split; [exact Hw2|]. rewrite Local.lookup_now_install, lookup_singleton_eq, last_snoc. done.
  - destruct (Local.world_collect _ _ _ _ Hw) as (i2 & m & -> & Hw2). run. unfold few in Hv.
    destruct (Local.world_snapshot _ _ _ _ Hw2 ltac:(lia)) as (i3 & sn & -> & Hw3). run.
    destruct (Local.world_read _ _ _ _ _ _ _ [x6b] Hw3) as (i4 & -> & _). run. cbn [unwrap]. run.
    rewrite Hnow. destruct (last values) as [v|] eqn:El; [|by apply last_None in El].
    unfold assert. by rewrite bool_decide_true.
Qed.

Lemma snap_get_ok n i s b m hs d key :
  world n i (Local.snap s b m :: hs) d →
  ∃ i', snap_get i s key = Ret (i', m !! key) ∧ world n i' (Local.snap s b m :: hs) d.
Proof using Type.
  intros Hw. destruct (Local.world_read n i hs d s b m key Hw) as (i' & E & Hw').
  exists i'. split; [|done]. unfold snap_get. rewrite E. by run.
Qed.

(** A transaction that puts [g x] at [f x] for each [x]. *)
Definition puts {X} (f g : X → bytes) (l : list X) (w : gmap bytes (option bytes)) :
    gmap bytes (option bytes) :=
  foldl (λ w x, <[f x := Some (g x)]> w) w l.

Lemma puts_world {X} (f g : X → bytes) l n hs d : ∀ i tx x,
  world n i (Local.txn tx x :: hs) d →
  ∃ x', world n i (Local.txn (foldl (λ tx x, Transaction.put tx (f x) (g x)) tx l) x' :: hs) d ∧
    SI.began x' = SI.began x ∧ SI.pending x' = puts f g l (SI.pending x).
Proof using Type.
  induction l as [|y l IH]; intros i tx x Hw; [by exists x|].
  destruct (IH i _ _ (Local.world_write n i hs d tx x (f y) (Some (g y)) Hw)) as (x' & ? & ? & ?).
  by exists x'.
Qed.

Lemma puts_other {X} (f g : X → bytes) l w k : k ∉ f <$> l → puts f g l w !! k = w !! k.
Proof using Type.
  revert w. induction l as [|y l IH]; intros w Hk; [done|]. cbn in Hk. apply not_elem_of_cons in Hk as [? ?].
  change (puts f g (y :: l) w) with (puts f g l (<[f y := Some (g y)]> w)). rewrite IH by done. by rewrite lookup_insert_ne.
Qed.

Lemma puts_elem {X} (f g : X → bytes) l w x :
  x ∈ l → (∀ y, y ∈ l → f y = f x → g y = g x) → puts f g l w !! f x = Some (Some (g x)).
Proof using Type.
  revert w x. induction l as [|y l IH]; intros w x Hx Hg; [set_solver|].
  change (puts f g (y :: l) w) with (puts f g l (<[f y := Some (g y)]> w)).
  destruct (decide (f x ∈ f <$> l)) as [Hin|Hout].
  - apply list_elem_of_fmap in Hin as (z & Ez & Hz). rewrite Ez, <-(Hg z ltac:(set_solver) (eq_sym Ez)).
    apply IH; [done|]. intros y' Hy' E. rewrite (Hg y'), (Hg z); [done|set_solver..|congruence].
  - apply elem_of_cons in Hx as [->|Hx]; [|by destruct Hout; apply list_elem_of_fmap_2].
    by rewrite puts_other, lookup_insert_eq.
Qed.

Lemma from_le_ok i : (N.of_nat i < 2 ^ 32)%N → from_le (le i) = Ret (N.of_nat i).
Proof using Type.
  intros Hi. unfold from_le, le. rewrite length_to_le_bytes. cbn [Nat.leb].
  rewrite take_ge by (rewrite length_to_le_bytes; lia). by rewrite from_to_le_bytes.
Qed.

Lemma le_inj i j : (N.of_nat i < 2 ^ 32)%N → (N.of_nat j < 2 ^ 32)%N → le i = le j → i = j.
Proof using Type.
  intros Hi Hj E. assert (from_le (le i) = from_le (le j)) as E' by by rewrite E.
  rewrite !from_le_ok in E' by done. injection E'. lia.
Qed.

Lemma large_transaction n :
  2 ≤ n → (N.of_nat n < 2 ^ 32)%N → very_large_transaction n = Ret tt.
Proof using Type.
  intros Hn Hmax. unfold very_large_transaction, Db.begin.
  destruct (Local.world_new (W := W)) as (i0 & -> & Hw). run.
  destruct (Local.world_begin _ _ _ _ false Hw ltac:(limit)) as (i1 & tx & -> & Hw1). run.
  destruct (puts_world le le (seq 0 n) _ _ _ _ _ _ Hw1) as (x1 & Hw2 & Hb1 & Hp1).
  assert (Hat1 : ∀ i, i < n → SI.pending x1 !! le i = Some (Some (le i))).
  { intros i Hi. rewrite Hp1. apply puts_elem; [by apply elem_of_seq; lia|by intros y _ ->]. }
  assert (Hne1 : SI.pending x1 ≠ ∅).
  { intros E. specialize (Hat1 0 ltac:(lia)). by rewrite E, lookup_empty in Hat1. }
  destruct (Local.world_commit _ _ _ _ _ _ Hw2 ltac:(limit)) as (i2 & r & d1 & -> & Hc & Hw3). run.
  destruct (Local.commits_now _ _ _ _ false _ _ _ Hw Hc Hne1 Hb1) as [-> ->]. cbn [unwrap]. run.
  set (d1 := SI.install _ _) in *.
  assert (Hnow1 : ∀ i, i < n → SI.now d1 !! le i = Some (le i)).
  { intros i Hi. unfold d1. by rewrite Local.lookup_now_install, Hat1. }
  destruct (Local.world_snapshot _ _ _ _ Hw3 ltac:(limit)) as (i3 & sn & -> & Hw4). run.
  edestruct (for_each_inv (λ _ i, world (0 + 1 + 1 + 1) i [Local.snap sn (SI.clock d1) (SI.now d1)] d1)
    [0; 1; n / 2; n - 1] i3) as (i4 & -> & Hw5); [exact Hw4| |run].
  { intros pre i post i' Hl Hw'. destruct (snap_get_ok _ _ _ _ _ _ _ (le i) Hw') as (i'' & -> & Hw'').
    run. assert (i < n) as Hi.
    { assert (i ∈ [0; 1; n / 2; n - 1]) as Hi by (rewrite Hl; set_solver).
      pose proof (Nat.div_lt n 2). set_unfold. lia. }
    rewrite Hnow1 by done. cbn [some]. run. rewrite from_le_ok by lia. run.
    unfold assert. rewrite bool_decide_true by done. run. by exists i''. }
  destruct (Local.world_begin _ _ _ _ false Hw5 ltac:(limit)) as (i5 & tx2 & -> & Hw6). run.
  destruct (puts_world le (λ _, to_le_bytes 4 U32_MAX) ((λ i, 2 * i) <$> seq 0 ((n + 1) / 2))
    _ _ _ _ _ _ Hw6) as (x2 & Hw7 & Hb2 & Hp2).
  assert (0 < (n + 1) / 2 ∧ (n + 1) / 2 ≤ n) as [Hhalf1 Hhalf2].
  { split; [apply Nat.div_str_pos; lia|]. apply Nat.Div0.div_le_upper_bound. lia. }
  assert (Hat2 : SI.pending x2 !! le 0 = Some (Some (to_le_bytes 4 U32_MAX))).
  { rewrite Hp2. apply (puts_elem le (λ _, to_le_bytes 4 U32_MAX) _ _ 0); [|done]. apply list_elem_of_fmap. exists 0.
    split; [done|]. apply elem_of_seq. lia. }
  assert (Hodd : SI.pending x2 !! le 1 = None).
  { rewrite Hp2, puts_other; [apply lookup_empty|].
    intros (j & E & (i & -> & Hi%elem_of_seq)%list_elem_of_fmap)%list_elem_of_fmap.
    pose proof (Nat.Div0.mul_div_le (n + 1) 2). apply le_inj in E; [lia|lia|].
    change (2 ^ 32)%N with 4294967296%N in *. lia. }
  assert (Hne2 : SI.pending x2 ≠ ∅) by (intros E; by rewrite E, lookup_empty in Hat2).
  destruct (Local.world_commit _ _ _ _ _ _ Hw7 ltac:(limit)) as (i6 & r & d2 & -> & Hc2 & Hw8). run.
  destruct (Local.commits_now _ _ _ _ false _ _ _ Hw5 Hc2 Hne2 Hb2) as [-> ->]. cbn [unwrap]. run.
  destruct (Local.world_snapshot _ _ _ _ Hw8 ltac:(limit)) as (i7 & sn2 & -> & Hw9). run.
  destruct (snap_get_ok _ _ _ _ _ _ _ (le 0) Hw9) as (i8 & -> & Hw10). run.
  rewrite Local.lookup_now_install, Hat2. cbn [some]. run.
  destruct (snap_get_ok _ _ _ _ _ _ _ (le 1) Hw10) as (i9 & -> & _). run.
  rewrite Local.lookup_now_install, Hodd, Hnow1 by lia. by vm_compute.
Qed.

Lemma edge_cases key_len value_len :
  11 < key_len → edge_case_key_and_value_sizes key_len value_len = Ret tt.
Proof using Type.
  intros Hk. unfold edge_case_key_and_value_sizes, Db.begin, Transaction.put.
  destruct (Local.world_new (W := W)) as (i0 & -> & Hw). run.
  destruct (Local.world_begin _ _ _ _ false Hw ltac:(limit)) as (i1 & tx & -> & Hw1). run.
  apply (Local.world_write _ _ _ _ _ _ [] (Some (Examples.lit "empty-key"))) in Hw1.
  apply (Local.world_write _ _ _ _ _ _ (Examples.lit "empty-value") (Some [])) in Hw1.
  apply (Local.world_write _ _ _ _ _ _ (replicate key_len x5a) (Some (replicate value_len xab))) in Hw1.
  destruct (Local.world_commit _ _ _ _ _ _ Hw1 ltac:(limit)) as (i2 & r & d & -> & Hc & Hw2). run.
  destruct (Local.commits_now _ _ _ _ false _ _ _ Hw Hc (pending_write _ _ _) eq_refl) as [-> ->].
  cbn [unwrap]. run.
  destruct (Local.world_snapshot _ _ _ _ Hw2 ltac:(limit)) as (i3 & sn & -> & Hw3). run.
  assert (∀ k : bytes, length k ≤ 11 → replicate key_len x5a ≠ k) as Hbig.
  { intros k Hlen <-. rewrite length_replicate in Hlen. lia. }
  destruct (snap_get_ok _ _ _ _ _ _ _ [] Hw3) as (i4 & -> & Hw4). run.
  rewrite Local.lookup_now_install. cbn [SI.write SI.pending].
  rewrite lookup_insert_ne, lookup_insert_ne, lookup_insert_eq by (done || by apply Hbig; cbn; lia).
  rewrite bool_decide_true by done. cbn [assert]. run.
  destruct (snap_get_ok _ _ _ _ _ _ _ (Examples.lit "empty-value") Hw4) as (i5 & -> & Hw5). run.
  rewrite Local.lookup_now_install. cbn [SI.write SI.pending].
  rewrite lookup_insert_ne, lookup_insert_eq by (by apply Hbig; cbn; lia).
  rewrite bool_decide_true by done. cbn [assert]. run.
  destruct (snap_get_ok _ _ _ _ _ _ _ (replicate key_len x5a) Hw5) as (i6 & -> & _). run.
  rewrite Local.lookup_now_install. cbn [SI.write SI.pending]. rewrite lookup_insert_eq.
  cbn [some]. run. by rewrite Nat.eqb_refl.
Qed.

End tests.

(** ** [durability.rs]

    The file system is a log in memory with room for every record, so [open] does
    not report an I/O error; dropping the database leaves the disk of its log. *)

Module DurabilityTests.
Section tests.
Context `{Profile} `{HashIter}.
Abbreviation Database := (Inner.t MemoryStore.t MemWal).

(** [tempfile::tempdir().unwrap().path().join("txn.wal")]. *)
Definition path : MemWal := mkMemWal [] 100.

Definition open (disk : MemWal) : outcome Database :=
  r ← Db.open disk;
  unwrap r.

(** The end of the block that owns [db]. *)
Definition drop (db : Database) : outcome MemWal :=
  l ← some (Inner.log db);
  Ret (wal_disk (CommitLog.wal l)).

Definition byte_of (n : nat) : byte := default x00 (Byte.of_N (N.of_nat n mod 256)).

(** [fn commit_one]. *)
Definition commit_one (db : Database) (key value : byte) : outcome Database :=
  '(db, tx) ← Db.begin db;
  let tx := Transaction.put tx [key] [value] in
  '(db, r) ← Transaction.commit db tx;
  _ ← unwrap r;
  Ret db.

Definition assert_read (db : Database) (key : byte) (expected : option byte) : outcome Database :=
  '(db, v) ← read db key;
  assert_eq v expected;;
  Ret db.

Definition test_committed_transactions_survive_reopen : outcome unit :=
  db ← open path;
  db ← for_each (seq 0 16) db (λ db i, commit_one db (byte_of i) (byte_of (i * 3)));
  path ← drop db;
  db ← open path;
  _ ← for_each (seq 0 16) db (λ db i, assert_read db (byte_of i) (Some (byte_of (i * 3))));
  Ret tt.

Definition test_uncommitted_work_is_not_durable : outcome unit :=
  db ← open path;
  db ← commit_one db x01 x0a;
  '(db, rolled_back) ← Db.begin db;
  let rolled_back := Transaction.put rolled_back [x02] [x14] in
  db ← Transaction.rollback db rolled_back;
  '(db, dropped) ← Db.begin db;
  let dropped := Transaction.put dropped [x03] [x1e] in
  db ← ActiveReader.drop db (Transaction.active dropped);
  path ← drop db;
  db ← open path;
  db ← assert_read db x01 (Some x0a);
  db ← assert_read db x02 None;
  _ ← assert_read db x03 None;
  Ret tt.

Definition test_tombstones_survive_reopen : outcome unit :=
  db ← open path;
  db ← commit_one db x07 x63;
  '(db, tx) ← Db.begin db;
  let tx := Transaction.delete tx [x07] in
  '(db, r) ← Transaction.commit db tx;
  _ ← unwrap r;
  path ← drop db;
  db ← open path;
  _ ← assert_read db x07 None;
  Ret tt.

Definition test_timestamps_continue_after_recovery : outcome unit :=
  db ← open path;
  db ← commit_one db x01 x01;
  db ← commit_one db x02 x02;
  let last := Db.last_committed db in
  path ← drop db;
  assert (Timestamp.ltb Timestamp.ZERO last);;
  db ← open path;
  assert_eq (Db.last_committed db) last;;
  '(db, tx) ← Db.begin db;
  let tx := Transaction.put tx [x03] [x03] in
  '(_, r) ← Transaction.commit db tx;
  next ← unwrap r;
  assert (Timestamp.ltb last next).

Definition test_reopen_empty_log_is_empty_database : outcome unit :=
  db ← open path;
  assert_eq (Db.last_committed db) Timestamp.ZERO;;
  _ ← assert_read db x00 None;
  Ret tt.

(** [fn open_truncated]: what the log crate recovers of a file that was cut is a
    prefix of its records, here [len] of them. *)
Definition open_truncated (source : MemWal) (len : nat) : outcome Database :=
  open (mkMemWal (take len (mw_records source)) (mw_room source)).

(** The [while] loop: the keys that are present, from 0. The test below is run on
    six commits and every cut; that it holds of every log and every cut is
    [Recovery.truncated_log_recovers_prefix]. *)
Fixpoint prefix_len (fuel : nat) (db : Database) (k n : nat) : outcome (Database * nat) :=
  match fuel with
  | O => Ret (db, k)
  | S fuel =>
     if k <? n then
       '(db, v) ← read db (byte_of k);
       if bool_decide (v = Some (byte_of (k + 1))) then prefix_len fuel db (k + 1) n
       else Ret (db, k)
     else Ret (db, k)
  end.

Definition recovery_from_truncated_log_is_a_clean_prefix (n cut : nat) : outcome unit :=
  db ← open path;
  db ← for_each (seq 0 n) db (λ db i, commit_one db (byte_of i) (byte_of (i + 1)));
  path ← drop db;
  recovered ← open_truncated path cut;
  '(recovered, k) ← prefix_len n recovered 0 n;
  _ ← for_each (seq k (n - k)) recovered (λ db i, assert_read db (byte_of i) None);
  Ret tt.

Definition tests : list (outcome unit) :=
  [test_committed_transactions_survive_reopen; test_uncommitted_work_is_not_durable;
   test_tombstones_survive_reopen; test_timestamps_continue_after_recovery;
   test_reopen_empty_log_is_empty_database] ++
  (recovery_from_truncated_log_is_a_clean_prefix 6 <$> seq 0 7).

End tests.
End DurabilityTests.

(** ** [backing_store.rs] *)

Module BackingStoreTests.
Section tests.
Context `{Profile} `{HashIter}.
#[local] Existing Instances BTreeStore.version_store BTreeStore.store_laws.
Abbreviation Database := (Inner.t BTreeStore.t MemWal).

(** [fn db]. *)
Definition db : Database := Db.with_store BTreeStore.default.

Definition k : bytes := Examples.lit "k".

(** [begin], one [put], [commit().unwrap()]. *)
Definition commit_put (db : Database) (key value : bytes) : outcome Database :=
  '(db, tx) ← Db.begin db;
  let tx := Transaction.put tx key value in
  '(db, r) ← Transaction.commit db tx;
  _ ← unwrap r;
  Ret db.

Definition assert_snapshot (db : Database) (snap : Snapshot.t) (key : bytes) (v : option bytes) :
    outcome Database :=
  '(db, r) ← Snapshot.get db snap key;
  got ← unwrap r;
  assert_eq got v;;
  Ret db.

Definition test_basic_read_write_over_custom_store : outcome unit :=
  db ← commit_put db k (Examples.lit "v");
  '(db, tx) ← Db.begin db;
  '(db, tx, r) ← Transaction.get db tx k;
  got ← unwrap r;
  assert_eq got (Some (Examples.lit "v"));;
  '(_, _, r) ← Transaction.get db tx (Examples.lit "absent");
  got ← unwrap r;
  assert_eq got None.

Definition test_snapshot_isolation_over_custom_store : outcome unit :=
  db ← commit_put db k (Examples.lit "v1");
  '(db, snap) ← Db.snapshot db;
  db ← commit_put db k (Examples.lit "v2");
  db ← assert_snapshot db snap k (Some (Examples.lit "v1"));
  '(db, now) ← Db.snapshot db;
  _ ← assert_snapshot db now k (Some (Examples.lit "v2"));
  Ret tt.

Definition test_write_write_conflict_over_custom_store : outcome unit :=
  '(db, a) ← Db.begin db;
  '(db, b) ← Db.begin db;
  let a := Transaction.put a k (Examples.lit "a") in
  let b := Transaction.put b k (Examples.lit "b") in
  '(db, r) ← Transaction.commit db a;
  assert (is_ok r);;
  '(db, r) ← Transaction.commit db b;
  err ← unwrap_err r;
  assert (TxnError.is_retryable err);;
  '(db, snap) ← Db.snapshot db;
  _ ← assert_snapshot db snap k (Some (Examples.lit "a"));
  Ret tt.

Definition test_disjoint_keys_commit_over_custom_store : outcome unit :=
  '(db, a) ← Db.begin db;
  '(db, b) ← Db.begin db;
  let a := Transaction.put a (Examples.lit "a") (Examples.lit "1") in
  let b := Transaction.put b (Examples.lit "b") (Examples.lit "2") in
  '(db, r) ← Transaction.commit db a;
  assert (is_ok r);;
  '(_, r) ← Transaction.commit db b;
  assert (is_ok r).

Definition test_serializable_write_skew_over_custom_store : outcome unit :=
  let x := Examples.lit "x" in
  let y := Examples.lit "y" in
  '(db, seed) ← Db.begin db;
  let seed := Transaction.put (Transaction.put seed x [x01]) y [x01] in
  '(db, r) ← Transaction.commit db seed;
  _ ← unwrap r;
  '(db, t1) ← Db.begin_serializable db;
  '(db, t2) ← Db.begin_serializable db;
  '(db, t1, r) ← Transaction.get db t1 x; _ ← unwrap r;
  '(db, t1, r) ← Transaction.get db t1 y; _ ← unwrap r;
  '(db, t2, r) ← Transaction.get db t2 x; _ ← unwrap r;
  '(db, t2, r) ← Transaction.get db t2 y; _ ← unwrap r;
  let t1 := Transaction.put t1 x [x00] in
  let t2 := Transaction.put t2 y [x00] in
  '(db, r) ← Transaction.commit db t1;
  assert (is_ok r);;
  '(_, r) ← Transaction.commit db t2;
  assert (negb (is_ok r)).

Definition tests : list (outcome unit) :=
  [test_basic_read_write_over_custom_store; test_snapshot_isolation_over_custom_store;
   test_write_write_conflict_over_custom_store; test_disjoint_keys_commit_over_custom_store;
   test_serializable_write_skew_over_custom_store].

End tests.
End BackingStoreTests.

(** ** Properties *)

