(* ===== verification/Scenarios.v ===== *)
(** * Concrete runs

    The system over the in-memory store and an in-memory log, evaluated: the
    interleavings in which the documentation promises more than the code keeps,
    and the concrete states at which the theorems of the generic files are
    applied. *)

From S2P Require Import Prelude RustStd Types Chain StoreTrait MemStore CommitLog OracleState.
From S2P Require Import History Coordinator Handles Database Spec Session System Conflicts BTreeStore Recovery Restart LoomTests.

(** ** Definitions *)

#[local] Instance checked : Profile := true.

Abbreviation State := (System.t MemoryStore.t MemWal).

Definition kx : bytes := [x6b].
Definition ky : bytes := [x78].
Definition v1 : bytes := [x31].
Definition v2 : bytes := [x32].

(** A new in-memory database, and a durable one whose log has [room] for so many
    records. *)
Definition fresh : Inner.t MemoryStore.t MemWal := Inner.new MemoryStore.sample_store.

Definition durable (room : nat) : Inner.t MemoryStore.t MemWal :=
  Inner.recovered MemoryStore.sample_store Oracle.new (CommitLog.mk (mkMemWal [] room)).

Definition run_from (i : Inner.t MemoryStore.t MemWal) (l : list System.action) : State :=
  match System.acts (System.start i []) l with
  | Ret (Some s) => s
  | _ => System.start i []
  end.

Definition client_of (s : State) (n : nat) : System.client :=
  default (System.mkClient (Transaction.mk (ActiveReader.mk Timestamp.ZERO) ∅ None)
    System.RolledBack [] None false) (System.clients s !! n).

Definition commit_of_client (n : nat) : list System.action :=
  [System.AAlloc n; System.AApply n; System.AAppend n; System.APublish n; System.ADrop n].

(** Two serializable transactions, one after the other, on one key. *)
Definition first_half : list System.action :=
  [System.ABegin 0 true; System.AGet 0 kx; System.AWrite 0 kx (Some v1)] ++ commit_of_client 0 ++
  [System.ABegin 1 true; System.AGet 1 kx; System.AWrite 1 kx (Some v2)].

Definition in_sequence : list System.action := first_half ++ commit_of_client 1.

Definition s_first : State := run_from fresh first_half.
Definition s_mid : State := run_from fresh (first_half ++ [System.AAlloc 1]).
Definition s_seq : State := run_from fresh in_sequence.
Definition s_durable : State := run_from (durable 5) in_sequence.

(** The writer of [ky] reads [kx] and is validated before the blind writer of [kx],
    which has the smaller timestamp, is applied; a reader begins when only the
    latter is visible. All three are serializable transactions. *)
Definition anomaly : list System.action :=
  [System.ABegin 0 true; System.AGet 0 kx; System.AWrite 0 ky (Some v1);
   System.ABegin 1 true; System.AWrite 1 kx (Some v1);
   System.AAlloc 1; System.AAlloc 0; System.AApply 0; System.AApply 1;
   System.AAppend 1; System.APublish 1; System.ADrop 1;
   System.ABegin 2 true; System.AGet 2 kx; System.AGet 2 ky;
   System.ACommitEmpty 2; System.ADrop 2;
   System.AAppend 0; System.APublish 0; System.ADrop 0].

(** A run succeeds; a client is there; a computation returns. *)
Definition succeeds (i : Inner.t MemoryStore.t MemWal) (l : list System.action) : bool :=
  match System.acts (System.start i []) l with Ret (Some _) => true | _ => false end.

Definition present (s : State) (n : nat) : bool :=
  match System.clients s !! n with Some _ => true | None => false end.

Definition returns {A} (m : outcome A) : bool := match m with Ret _ => true | Panic => false end.

(** A commit that returns while an earlier timestamp is still in flight, and a
    transaction that begins after it returned. *)
Definition early_return : list System.action :=
  [System.ABegin 0 false; System.AWrite 0 kx (Some v1);
   System.ABegin 1 false; System.AWrite 1 ky (Some v1);
   System.AAlloc 0] ++ commit_of_client 1 ++
  [System.ABegin 2 false; System.AGet 2 ky].

(** Two transactions from one snapshot that commit at once, the second to take a
    timestamp first to apply, the first one last to publish: on one key, and on a
    key each. *)
Definition at_once (k0 k1 : bytes) : list System.action :=
  [System.ABegin 0 false; System.ABegin 1 false; System.AWrite 0 k0 (Some v1);
   System.AWrite 1 k1 (Some v2); System.AAlloc 0; System.AAlloc 1; System.AApply 1;
   System.AApply 0; System.AAppend 1; System.APublish 1; System.AAppend 0; System.ADrop 1;
   System.APublish 0; System.ADrop 0].

Definition s_same : State := run_from fresh (at_once kx kx).
Definition s_disjoint : State := run_from fresh (at_once kx ky).

(** The client has joined. *)
Definition joined_ok (c : System.client) : bool :=
  match System.c_phase c with
  | System.Finished (Ok _) | System.Finished (Err (TxnError.Conflict _)) => true
  | _ => false
  end.

(** It began at the start, tracks no reads, and wrote one key, [key n]. *)
Definition blind_writer (key : nat → bytes) (p : nat * System.client) : bool :=
  let tx := System.c_tx p.2 in
  joined_ok p.2 && (p.1 <? 2) &&
  bool_decide (Transaction.read_timestamp tx = Timestamp.ZERO) &&
  bool_decide (Transaction.reads tx = None) && bool_decide (dom (Transaction.writes tx) = {[key p.1]}).

Definition blind_writers (key : nat → bytes) (s : State) : bool :=
  forallb (blind_writer key) (map_to_list (System.clients s)).

(** A reader beside a collection. *)
Definition reader_and_gc : list System.action :=
  [System.AGcStart 0; System.ABegin 0 false; System.AGet 0 kx; System.AGcEnd 0].

Definition s_reader : State := run_from fresh reader_and_gc.

Definition quiet (s : State) : bool :=
  forallb (λ p, negb (System.c_applied p.2)) (map_to_list (System.clients s)).

(** Executing whole transactions one after the other: does every one of them then
    read what it was served? *)
Definition serial_step (m : option (gmap bytes bytes)) (c : System.client) :
    option (gmap bytes bytes) :=
  m ← m;
  if forallb (λ o, bool_decide (m !! o.1 = o.2)) (System.c_obs c)
  then Some (overlay (Transaction.writes (System.c_tx c)) m) else None.

Definition explains (order : list System.client) : bool :=
  bool_decide (is_Some (foldl serial_step (Some ∅) order)).

(** The client tracks its reads, and its commit returned a timestamp. *)
Definition committed_serializable (c : System.client) : bool :=
  match Transaction.reads (System.c_tx c), System.c_phase c with
  | Some _, System.Finished (Ok _) => true
  | _, _ => false
  end.

(** The client's commit has returned a timestamp. *)
Definition all_finished (p : nat * System.client) : bool :=
  match System.c_phase p.2 with System.Finished (Ok _) => true | _ => false end.

(** A client session: two transactions and a snapshot side by side. *)
Definition calls : list call :=
  [PutNow kx v1; Begin true; TakeSnapshot; Get 0 kx; Begin false; Put 2 kx v2; Commit 2;
   Put 0 ky v1; Commit 0; Get 1 kx; CollectGarbage; Get 1 kx; Drop 1; GetNow kx; DeleteNow kx;
   LastCommitted; Get 7 kx].

(** A durable session: a transaction left open when the process dies, one commit
    after the restart, a log that is full for the last write. *)
Definition ops : list op :=
  [Call (GetNow kx); Restart; Call (PutNow kx v1); Call (Begin false); Call (Put 0 kx v2); Restart;
   Call (Commit 0); Call (Begin true); Call (Get 0 kx); Call (Put 0 ky v2); Call (Commit 0)].

Definition node_run (room : nat) (os : list op) :
    outcome (option (Durable.node (Disk := MemWal) (W := MemWal) * list reply)) :=
  Durable.run_ops 1 (Durable.Down (mkMemWal [] room)) os.

Definition node_replies (room : nat) (os : list op) : list reply :=
  match node_run room os with Ret (Some (_, rs)) => rs | _ => [] end.

Definition node_ends (room : nat) (os : list op) : bool :=
  match node_run room os with Ret (Some _) => true | _ => false end.

(** A durable database without room in its log, with one live reader. *)
Definition full : Inner.t MemoryStore.t MemWal :=
  match Inner.begin_reader (durable 0) with Ret (i, _) => i | Panic => durable 0 end.

Definition full_after : Inner.t MemoryStore.t MemWal :=
  match Inner.commit_writes full Timestamp.ZERO [(kx, Some v1)] [] with
  | Ret (i, _) => i
  | Panic => full
  end.

Definition committed_first : Inner.t MemoryStore.t MemWal * Result Timestamp.t :=
  match Transaction.commit (System.inner s_first) (System.c_tx (client_of s_first 1)) with
  | Ret p => p
  | Panic => (System.inner s_first, Ok Timestamp.ZERO)
  end.

Definition log_after : CommitLog.t MemWal :=
  default (CommitLog.mk (mkMemWal [] 0)) (Inner.log (System.inner s_durable)).

Definition reopened : Inner.t MemoryStore.t MemWal :=
  match Db.open (wal_disk (CommitLog.wal log_after)) with Ret (Ok i) => i | _ => fresh end.

(** ** Lemmas *)

Lemma sample_empty : vs_empty MemoryStore.sample_store.
Proof.
  split; [apply MemoryStore.sample_store_wf|]. intros k t. cbn.
  by rewrite MemoryStore.sample_store_empty.
Qed.

Lemma fresh_inv : Inner.inv fresh [] ∅ [] 0.
Proof. apply Inner.new_inv, sample_empty. Qed.

Lemma durable_inv room : Inner.inv (durable room) [] ∅ [] 0.
Proof. eapply Inner.inv_same; [..|apply fresh_inv]; done. Qed.

Lemma run_from_ok i l :
  succeeds i l = true → System.acts (System.start i []) l = Ret (Some (run_from i l)).
Proof. unfold succeeds, run_from. by destruct (System.acts _ l) as [[s|]|]. Qed.

Lemma client_of_ok s n : present s n = true → System.clients s !! n = Some (client_of s n).
Proof. unfold present, client_of. by destruct (System.clients s !! n). Qed.

Lemma run_reachable i l :
  Inner.inv i [] ∅ [] 0 → Oracle.next_ts (Inner.oracle i) = 1%N →
  (N.of_nat (length l) + 2 < u64_modulus)%N → succeeds i l = true →
  System.reachable [] (run_from i l).
Proof.
  intros Hi Hn Hl E%run_from_ok. apply System.acts_steps in E as (n & Hsteps & ->).
  eapply System.bounded_reachable; [done| |done]. split; cbn; [rewrite Hn; lia|].
  change (size _) with 0. lia.
Qed.

Lemma s_seq_reachable : System.reachable [] s_seq.
Proof. apply run_reachable; [apply fresh_inv|done|done|by vm_compute]. Qed.

Lemma s_first_reachable : System.reachable [] s_first.
Proof. apply run_reachable; [apply fresh_inv|done|done|by vm_compute]. Qed.

Lemma s_mid_reachable : System.reachable [] s_mid.
Proof. apply run_reachable; [apply fresh_inv|done|done|by vm_compute]. Qed.

Lemma s_seq_client n : n < 2 → System.clients s_seq !! n = Some (client_of s_seq n).
Proof. intros Hn. apply client_of_ok. destruct n as [|[|]]; [by vm_compute..|lia]. Qed.

Lemma s_first_client : System.clients s_first !! 1 = Some (client_of s_first 1).
Proof. apply client_of_ok. by vm_compute. Qed.

Lemma s_mid_client : System.clients s_mid !! 1 = Some (client_of s_mid 1).
Proof. apply client_of_ok. by vm_compute. Qed.

Lemma s_seq_ts0 : System.c_ts (client_of s_seq 0) = Some (Timestamp.from_raw 1).
Proof. by vm_compute. Qed.

Lemma s_seq_ts1 : System.c_ts (client_of s_seq 1) = Some (Timestamp.from_raw 2).
Proof. by vm_compute. Qed.

Lemma s_seq_applied n : n < 2 → System.c_applied (client_of s_seq n) = true.
Proof. intros Hn. destruct n as [|[|]]; [by vm_compute..|lia]. Qed.

Lemma s_seq_obs : (kx, Some v1) ∈ System.c_obs (client_of s_seq 1).
Proof. apply (bool_decide_unpack _). by vm_compute. Qed.

Lemma s_seq_phase :
  System.c_phase (client_of s_seq 1) = System.Finished (Ok (Timestamp.from_raw 2)).
Proof. by vm_compute. Qed.

Lemma s_seq_reads : Transaction.reads (System.c_tx (client_of s_seq 1)) = Some {[kx]}.
Proof. apply (bool_decide_unpack _). by vm_compute. Qed.

Lemma s_seq_writes :
  Transaction.writes (System.c_tx (client_of s_seq 0)) !! kx = Some (Some v1) ∧
  Transaction.writes (System.c_tx (client_of s_seq 1)) !! kx = Some (Some v2).
Proof. by vm_compute. Qed.

Lemma s_first_active : System.c_phase (client_of s_first 1) = System.Active.
Proof. by vm_compute. Qed.

Lemma s_first_commit :
  Transaction.commit (System.inner s_first) (System.c_tx (client_of s_first 1)) =
    Ret (committed_first.1, committed_first.2).
Proof.
  assert (returns (Transaction.commit (System.inner s_first) (System.c_tx (client_of s_first 1)))
    = true) as E by by vm_compute.
  unfold committed_first, returns in *. by destruct (Transaction.commit _ _) as [[]|].
Qed.

Lemma s_mid_next : System.next_action 1 (client_of s_mid 1) = Some (System.AApply 1).
Proof. by vm_compute. Qed.

Lemma s_mid_room : System.room s_mid 1.
Proof. by split; vm_compute. Qed.

Lemma committed_serializable_spec cs :
  forallb committed_serializable cs = true →
  ∀ c, c ∈ cs → Transaction.reads (System.c_tx c) ≠ None ∧
    ∃ ts, System.c_phase c = System.Finished (Ok ts).
Proof.
  rewrite forallb_forall. intros Hall c Hc%list_elem_of_In%Hall.
  unfold committed_serializable in Hc. destruct (Transaction.reads _), (System.c_phase c); try done.
  split; [done|]. destruct r; [by eexists|done].
Qed.

(** ** Properties *)

(** C36: Serializable transactions are not serializable together with read-only
    ones. There is an interleaving of three serializable transactions, all of which
    commit without error, whose reads no serial order of the three explains: the
    reader sees the later writer's effect and not that of the transaction that ran
    before it. *)
Theorem read_only_anomaly :
  ∃ s : State, System.reachable [] s ∧
    let cs := client_of s <$> [0; 1; 2] in
    (∀ c, c ∈ cs → Transaction.reads (System.c_tx c) ≠ None ∧
       ∃ ts, System.c_phase c = System.Finished (Ok ts)) ∧
    ∀ order, order ≡ₚ cs → explains order = false.
Proof.
  exists (run_from fresh anomaly). split.
  { apply run_reachable; [apply fresh_inv|done|done|by vm_compute]. }
  split.
  - apply committed_serializable_spec. by vm_compute.
  - intros order Ho%symmetry%permutations_Permutation.
    assert (Forall (λ o, explains o = false) (permutations (client_of (run_from fresh anomaly) <$> [0; 1; 2])))
      as Hall by (apply (bool_decide_unpack _); by vm_compute).
    by eapply Forall_forall in Hall.
Qed.

(** A commit that has returned need not be visible yet. There is an
    interleaving in which [commit] has returned a timestamp, a transaction begins
    after that, and it does not see the write: its snapshot is held back by an
    earlier timestamp still in flight. *)
Theorem acknowledged_not_yet_visible :
  ∃ s : State, System.reachable [] s ∧
    System.c_phase (client_of s 1) = System.Finished (Ok (Timestamp.from_raw 2)) ∧
    Transaction.writes (System.c_tx (client_of s 1)) !! ky = Some (Some v1) ∧
    Transaction.read_timestamp (System.c_tx (client_of s 2)) = Timestamp.ZERO ∧
    (ky, None) ∈ System.c_obs (client_of s 2).
Proof.
  exists (run_from fresh early_return). split.
  { apply run_reachable; [apply fresh_inv|done|done|by vm_compute]. }
  split; [by vm_compute|]. split; [by vm_compute|]. split; [by vm_compute|].
  apply (bool_decide_unpack _). by vm_compute.
Qed.

(** ** Witnesses *)

Lemma snapshot_reads_stable_witness :
  System.reachable [] s_seq ∧ System.clients s_seq !! 1 = Some (client_of s_seq 1) ∧
  (kx, Some v1) ∈ System.c_obs (client_of s_seq 1) ∧
  Some v1 = hist_view (System.hist s_seq) kx
    (Transaction.read_timestamp (System.c_tx (client_of s_seq 1))).
Proof.
  exact (conj s_seq_reachable (conj (s_seq_client 1 ltac:(lia)) (conj s_seq_obs
    (System.snapshot_reads_stable [] s_seq 1 (client_of s_seq 1) kx (Some v1)
      s_seq_reachable (s_seq_client 1 ltac:(lia)) s_seq_obs)))).
Defined.

Lemma first_committer_wins_witness :
  System.reachable [] s_seq ∧ 0 ≠ 1 ∧
  ((1 ≤ Timestamp.get (Transaction.read_timestamp (System.c_tx (client_of s_seq 1))))%N ∨
   (2 ≤ Timestamp.get (Transaction.read_timestamp (System.c_tx (client_of s_seq 0))))%N).
Proof.
  assert (0 ≠ 1) as Hne by lia. destruct s_seq_writes as [W0 W1].
  split; [exact s_seq_reachable|]. split; [exact Hne|].
  exact (System.first_committer_wins [] s_seq 0 1 (client_of s_seq 0) (client_of s_seq 1)
    (Timestamp.from_raw 1) (Timestamp.from_raw 2) kx s_seq_reachable
    (s_seq_client 0 ltac:(lia)) (s_seq_client 1 ltac:(lia)) Hne
    (s_seq_applied 0 ltac:(lia)) (s_seq_applied 1 ltac:(lia)) s_seq_ts0 s_seq_ts1 (mk_is_Some _ _ W0)
    (mk_is_Some _ _ W1)).
Defined.

Lemma serializable_in_apply_order_witness :
  System.reachable [] s_seq ∧ System.c_applied (client_of s_seq 1) = true ∧
  ∃ ts h1 h2, System.c_ts (client_of s_seq 1) = Some ts ∧
    System.hist s_seq =
      h1 ++ Inner.commit_of ts (Transaction.batch (System.c_tx (client_of s_seq 1))) :: h2 ∧
    ∀ k v, (k, v) ∈ System.c_obs (client_of s_seq 1) → v = hist_now h1 k.
Proof.
  split; [exact s_seq_reachable|]. split; [exact (s_seq_applied 1 ltac:(lia))|].
  exact (System.serializable_in_apply_order [] s_seq 1 (client_of s_seq 1) {[kx]}
    s_seq_reachable (s_seq_client 1 ltac:(lia)) (s_seq_applied 1 ltac:(lia)) s_seq_reads).
Defined.



Lemma system_never_panics_witness :
  System.reachable [] s_mid ∧ System.room s_mid 1 ∧
  System.act s_mid (System.AApply 1) ≠ Panic.
Proof.
  exact (conj s_mid_reachable (conj s_mid_room
    (System.system_never_panics [] s_mid (System.AApply 1) s_mid_reachable s_mid_room))).
Defined.

Lemma commit_progress_witness :
  System.reachable [] s_mid ∧ System.room s_mid 1 ∧
  System.next_action 1 (client_of s_mid 1) = Some (System.AApply 1) ∧
  ∃ s' c', System.act s_mid (System.AApply 1) = Ret (Some s') ∧ System.clients s' !! 1 = Some c' ∧
    System.remaining (System.c_phase c') < System.remaining (System.c_phase (client_of s_mid 1)).
Proof.
  exact (conj s_mid_reachable (conj s_mid_room (conj s_mid_next
    (System.commit_progress [] s_mid 1 (client_of s_mid 1) (System.AApply 1)
      s_mid_reachable s_mid_room s_mid_client s_mid_next)))).
Defined.

Lemma commit_is_its_actions_witness :
  System.c_phase (client_of s_first 1) = System.Active ∧
  Transaction.commit (System.inner s_first) (System.c_tx (client_of s_first 1)) =
    Ret (committed_first.1, committed_first.2) ∧
  ∃ s', System.acts s_first (System.commit_actions 1 (System.c_tx (client_of s_first 1))) =
      Ret (Some s') ∧ System.inner s' = committed_first.1 ∧
    ∃ c', System.clients s' !! 1 = Some c' ∧
      System.c_phase c' = System.Finished committed_first.2.
Proof.
  exact (conj s_first_active (conj s_first_commit
    (System.commit_is_its_actions s_first 1 (client_of s_first 1) _ _
      s_first_client s_first_active s_first_commit))).
Defined.

Lemma session_refines_snapshot_isolation_witness :
  vs_empty MemoryStore.sample_store ∧ 1 ≤ 1 ∧ (N.of_nat (length calls) + 2 < u64_modulus)%N ∧
  ∃ s' answers a', Session.run_calls (W := MemWal) 1
      (Session.start (Db.with_store (W := MemWal) MemoryStore.sample_store)) calls =
      Ret (Some (s', answers)) ∧
    SI.steps (vs_may_fail (S := MemoryStore.t)) False SI.initial (zip calls answers) a' ∧
    length answers = length calls.
Proof.
  split; [apply sample_empty|]. split; [done|]. split; [done|].
  apply (Session.session_refines_snapshot_isolation MemoryStore.sample_store 1 calls);
    [apply sample_empty|done|done].
Defined.

(** *** A durable database *)

Lemma s_durable_reachable : Recovery.reachable [] s_durable.
Proof.
  split.
  - exists (durable 5), 0%N, []. split_and!; [apply durable_inv|done|by eexists|].
    assert (succeeds (durable 5) in_sequence = true) as E%run_from_ok by by vm_compute.
    apply System.acts_steps in E as (n & Hn & ->).
    eapply System.nsteps_roomy; [by eapply System.start_inv, durable_inv| |exact Hn].
    split; [done|]. by vm_compute.
  - assert (System.hist s_durable =
      [Codec.mkCommit (Timestamp.from_raw 1) [(kx, Some v1)];
       Codec.mkCommit (Timestamp.from_raw 2) [(kx, Some v2)]]) as -> by by vm_compute.
    repeat (apply Forall_cons_2 || apply Forall_nil_2); split; try done;
      repeat (apply Forall_cons_2 || apply Forall_nil_2); by split.
Qed.


Lemma all_finished_settled (s : State) : forallb all_finished (map_to_list (System.clients s)) = true →
  Recovery.settled s.
Proof.
  rewrite forallb_forall. intros Hall n c Hn%elem_of_map_to_list%list_elem_of_In%Hall.
  unfold all_finished in Hn. cbn in Hn. unfold System.pending.
  by destruct (System.c_phase c) as [| | | | |[]|].
Qed.

Lemma s_durable_settled : Recovery.settled s_durable.
Proof. apply all_finished_settled. by vm_compute. Qed.

Lemma settled_recovery_exact_witness :
  Recovery.reachable [] s_durable ∧ Recovery.settled s_durable ∧
  Inner.log (System.inner s_durable) = Some log_after ∧
  Db.open (wal_disk (CommitLog.wal log_after)) = Ret (Ok reopened) ∧
  ∃ h, Inner.inv reopened [] ∅ h 0 ∧
    ∀ k t, hist_view h k t = hist_view (System.hist s_durable) k t.
Proof.
  split; [apply s_durable_reachable|]. split; [apply s_durable_settled|].
  split; [by vm_compute|]. split; [by vm_compute|].
  apply (Recovery.settled_recovery_exact [] s_durable log_after reopened);
    [apply s_durable_reachable|apply s_durable_settled|by vm_compute|by vm_compute].
Defined.

(** *** A durable database that is restarted *)

Lemma fresh_disk room : Durable.fresh (mkMemWal [] room).
Proof. by intros w [= <-]. Qed.

Lemma ops_fit : Forall Durable.call_fits ops.
Proof. repeat (apply Forall_cons_2 || apply Forall_nil_2); done. Qed.

Lemma node_run_ok room os :
  node_ends room os = true → ∃ x, node_run room os = Ret (Some (x, node_replies room os)).
Proof. unfold node_ends, node_replies. destruct (node_run room os) as [[[x rs]|]|]; by eauto. Qed.

Lemma durable_session_refines_witness :
  Durable.fresh (mkMemWal [] 1) ∧ 1 ≤ 1 ∧ (N.of_nat (length ops) ≤ Durable.MAX_OPS)%N ∧
  Forall Durable.call_fits ops ∧
  ∃ x replies st, node_run 1 ops = Ret (Some (x, replies)) ∧
    DSI.steps DSI.initial (zip ops replies) st ∧ length replies = length ops.
Proof.
  split; [apply fresh_disk|]. split; [done|]. split; [done|]. split; [apply ops_fit|].
  apply (Durable.durable_session_refines (mkMemWal [] 1) 1 ops);
    [apply fresh_disk|done|done|apply ops_fit].
Defined.

Lemma restart_loses_nothing_witness :
  ∃ x, node_run 9 (ops ++ [Call (GetNow ky); Restart; Call (GetNow ky)]) =
    Ret (Some (x, [NotOpen; Reopened; Answered (Committed (Ok (Timestamp.from_raw 1)));
      Answered (Opened 0); Answered Done; Reopened; Answered Unusable; Answered (Opened 0);
      Answered (Value (Ok (Some v1))); Answered Done;
      Answered (Committed (Ok (Timestamp.from_raw 2)))] ++
      [Answered (Value (Ok (Some v2))); Reopened; Answered (Value (Ok (Some v2)))])) ∧
    Ok (Some v2) = Ok (Some v2) :> Result (option bytes).
Proof.
  destruct (node_run_ok 9 (ops ++ [Call (GetNow ky); Restart; Call (GetNow ky)])) as [x E];
    [by vm_compute|].
  match type of E with _ = Ret (Some (_, ?rs)) =>
    match goal with |- ∃ _, _ = Ret (Some (_, ?rs')) ∧ _ =>
      assert (rs = rs') as Ers by by vm_compute end end.
  rewrite Ers in E. exists x. split; [exact E|].
  eapply (Durable.restart_loses_nothing (mkMemWal [] 9) 1 ops ky x _ (Some v2) (Ok (Some v2)));
    [apply fresh_disk|done|done|apply ops_fit|exact E|].
  repeat (apply Forall_cons_2 || apply Forall_nil_2); done.
Defined.

(** *** Transactions that commit at once *)

Lemma at_once_reachable k0 k1 :
  succeeds fresh (at_once k0 k1) = true → System.reachable [] (run_from fresh (at_once k0 k1)).
Proof. intros E. apply run_reachable; [apply fresh_inv|done|done|done]. Qed.

Lemma blind_writers_spec key s n c :
  blind_writers key s = true → System.clients s !! n = Some c →
  n < 2 ∧ ((∃ r, System.c_phase c = System.Finished r) ∧ Evolution.failed c = false) ∧
  Transaction.read_timestamp (System.c_tx c) = Timestamp.ZERO ∧ Transaction.reads (System.c_tx c) = None ∧
  ∀ k, is_Some (Transaction.writes (System.c_tx c) !! k) ↔ k = key n.
Proof.
  unfold blind_writers. rewrite forallb_forall. intros Hall Hn%elem_of_map_to_list%list_elem_of_In%Hall.
  unfold blind_writer in Hn. cbn in Hn.
  apply andb_prop in Hn as [[[[Hj Hlt%Nat.leb_le]%andb_prop Ht%bool_decide_eq_true]%andb_prop
    Hr%bool_decide_eq_true]%andb_prop Hd%bool_decide_eq_true].
  unfold joined_ok in Hj. split_and!; [unfold lt; lia| | |exact Ht|exact Hr|].
  - destruct (System.c_phase c) as [| | | | |r|]; try done. by exists r.
  - unfold Evolution.failed. by destruct (System.c_phase c) as [| | | | |[|[]]|].
  - intros k. by rewrite <-elem_of_dom, Hd, elem_of_singleton.
Qed.

Lemma blind_writers_joined key s : blind_writers key s = true → Loom.joined s.
Proof. intros Hb n c Hn. by apply (blind_writers_spec key s n c Hb Hn). Qed.

Lemma same_key_commit_has_one_winner_witness :
  System.reachable [] s_same ∧ Loom.joined s_same ∧ System.clients s_same ≠ ∅ ∧
  (∀ n c, System.clients s_same !! n = Some c →
     Transaction.read_timestamp (System.c_tx c) = Timestamp.ZERO ∧
     ∀ k', is_Some (Transaction.writes (System.c_tx c) !! k') ↔ k' = kx) ∧
  ∃ n c, System.clients s_same !! n = Some c ∧ Loom.committed c ∧
    Transaction.writes (System.c_tx c) !! kx = Some (Loom.latest s_same kx) ∧
    ∀ m c', m ≠ n → System.clients s_same !! m = Some c' → Loom.rejected c'.
Proof.
  assert (blind_writers (λ _, kx) s_same = true) as Hb by by vm_compute.
  assert (System.reachable [] s_same) as Hr by (apply at_once_reachable; by vm_compute).
  assert (System.clients s_same ≠ ∅) as Hne.
  { intros E. assert (present s_same 0 = true) as Hp by by vm_compute. unfold present in Hp.
    by rewrite E, lookup_empty in Hp. }
  assert (∀ n c, System.clients s_same !! n = Some c →
     Transaction.read_timestamp (System.c_tx c) = Timestamp.ZERO ∧
     ∀ k', is_Some (Transaction.writes (System.c_tx c) !! k') ↔ k' = kx) as Hall.
  { intros n c Hn. destruct (blind_writers_spec _ s_same n c Hb Hn) as (_ & _ & Ht & _ & Hk).
    exact (conj Ht Hk). }
  pose proof (blind_writers_joined _ _ Hb) as Hj.
  split; [exact Hr|]. split; [exact Hj|]. split; [exact Hne|]. split; [exact Hall|].
  apply (Loom.same_key_commit_has_one_winner [] s_same kx Timestamp.ZERO Hr Hj Hne Hall).
Defined.

Lemma disjoint_commits_succeed_and_are_visible_witness :
  System.reachable [] s_disjoint ∧ Loom.joined s_disjoint ∧
  (∀ m n c c' k, m ≠ n → System.clients s_disjoint !! m = Some c →
     System.clients s_disjoint !! n = Some c' →
     is_Some (Transaction.writes (System.c_tx c) !! k) → ¬ Transaction.validated (System.c_tx c') k) ∧
  ∀ n c, System.clients s_disjoint !! n = Some c → Transaction.writes (System.c_tx c) ≠ ∅ →
    Loom.committed c ∧
    ∀ k v, Transaction.writes (System.c_tx c) !! k = Some v → Loom.latest s_disjoint k = v.
Proof.
  assert (blind_writers (λ n, if n =? 0 then kx else ky) s_disjoint = true) as Hb by by vm_compute.
  assert (System.reachable [] s_disjoint) as Hr by (apply at_once_reachable; by vm_compute).
  pose proof (blind_writers_joined _ _ Hb) as Hj.
  assert (∀ m n c c' k, m ≠ n → System.clients s_disjoint !! m = Some c →
     System.clients s_disjoint !! n = Some c' →
     is_Some (Transaction.writes (System.c_tx c) !! k) → ¬ Transaction.validated (System.c_tx c') k) as Hdis.
  { intros m n c c' k Hmn Hm Hn Hk Hv.
    destruct (blind_writers_spec _ _ m c Hb Hm) as (Hlt & _ & _ & _ & Hw).
    destruct (blind_writers_spec _ _ n c' Hb Hn) as (Hlt' & _ & _ & Hrd & Hw').
    apply Hw in Hk as ->. destruct Hv as [Hv|Hv]; [|exfalso; rewrite Hrd in Hv; exact (not_elem_of_empty _ Hv)].
    apply Hw' in Hv. clear -Hmn Hlt Hlt' Hv.
    destruct m as [|[|]], n as [|[|]]; cbn in Hv; (discriminate || lia). }
  split; [exact Hr|]. split; [exact Hj|]. split; [exact Hdis|].
  apply (Loom.disjoint_commits_succeed_and_are_visible [] s_disjoint Hr Hj Hdis).
Defined.

Lemma gc_never_disturbs_a_reader_witness :
  System.reachable [] s_reader ∧
  (∀ m c, System.clients s_reader !! m = Some c → System.c_applied c = false) ∧
  System.clients s_reader !! 0 = Some (client_of s_reader 0) ∧
  (kx, None) ∈ System.c_obs (client_of s_reader 0) ∧ None = hist_now [] kx.
Proof.
  assert (System.reachable [] s_reader) as Hr
    by (apply run_reachable; [apply fresh_inv|done|done|by vm_compute]).
  assert (quiet s_reader = true) as Hq by by vm_compute.
  assert (∀ m c, System.clients s_reader !! m = Some c → System.c_applied c = false) as Hall.
  { intros m c Hm. unfold quiet in Hq. rewrite forallb_forall in Hq.
    apply elem_of_map_to_list, list_elem_of_In, Hq in Hm. by apply negb_true_iff. }
  assert (System.clients s_reader !! 0 = Some (client_of s_reader 0)) as Hn.
  { apply client_of_ok. by vm_compute. }
  assert ((kx, None) ∈ System.c_obs (client_of s_reader 0)) as Ho.
  { assert (System.c_obs (client_of s_reader 0) = [(kx, None)]) as -> by by vm_compute. by left. }
  split; [exact Hr|]. split; [exact Hall|]. split; [exact Hn|]. split; [exact Ho|].
  exact (Loom.gc_never_disturbs_a_reader [] s_reader 0 (client_of s_reader 0) kx None Hr Hall Hn Ho).
Defined.

(** *** A log that was cut, and two stores *)

Lemma truncated_log_recovers_prefix_witness :
  Recovery.reachable [] s_durable ∧ Inner.log (System.inner s_durable) = Some log_after ∧
  (∀ w, wal_open (mkMemWal (take 1 (mw_records (CommitLog.wal log_after))) 0) = inr w →
     wal_records w = take 1 (wal_records (CommitLog.wal log_after))) ∧
  ((∃ e, Db.open (mkMemWal (take 1 (mw_records (CommitLog.wal log_after))) 0) =
      Ret (Err (TxnError.durability e))) ∨
   ∃ i logged, Db.open (mkMemWal (take 1 (mw_records (CommitLog.wal log_after))) 0) = Ret (Ok i) ∧
    Inner.log_holds (System.inner s_durable) logged ∧
    (∀ e, e ∈ logged → e ∈ System.hist s_durable) ∧
    Inner.inv i [] ∅ (sort_by_key ts_of (take 1 logged)) 0 ∧ Inner.log_holds i (take 1 logged)).
Proof.
  split; [apply s_durable_reachable|]. split; [by vm_compute|]. split; [by intros w [= <-]|].
  apply (Recovery.truncated_log_recovers_prefix [] s_durable log_after
    (mkMemWal (take 1 (mw_records (CommitLog.wal log_after))) 0) 1);
    [apply s_durable_reachable|by vm_compute|by intros w [= <-]].
Defined.

Section stores.
#[local] Existing Instances BTreeStore.version_store BTreeStore.store_laws.


End stores.

(** *** A log without room *)

Lemma full_inv : Inner.inv full [0%N] ∅ [] 0.
Proof.
  destruct (Inner.begin_reader_inv (durable 0) [] ∅ [] 0 (durable_inv 0)) as (i & E & Hi & _);
    [done|]. unfold full. by rewrite E.
Qed.

Lemma full_writes_NoDup : NoDup ([(kx, Some v1)] : list WriteEntry).*1.
Proof. by apply (bool_decide_unpack _). Qed.

Lemma commit_writes_outcomes_witness :
  Inner.inv full [0%N] ∅ [] 0 ∧
  ∃ i' r, Inner.commit_writes full Timestamp.ZERO [(kx, Some v1)] [] = Ret (i', r) ∧
    Oracle.next_ts (Inner.oracle i') = (Oracle.next_ts (Inner.oracle full) + 1)%N ∧
    (Inner.watermark full ≤ Inner.watermark i')%N ∧
    Inner.commit_post full i' [0%N] ∅ [] 0 Timestamp.ZERO [(kx, Some v1)] [] r.
Proof.
  split; [apply full_inv|].
  apply (Inner.commit_writes_outcomes full [0%N] ∅ [] 0 Timestamp.ZERO [(kx, Some v1)] []);
    [apply full_inv|done|by left|apply full_writes_NoDup].
Defined.

Lemma durability_error_is_visible_witness :
  Inner.inv full [0%N] ∅ [] 0 ∧
  Inner.commit_writes full Timestamp.ZERO [(kx, Some v1)] [] =
    Ret (full_after, Err (TxnError.Durability "no space left on device")) ∧
  ∃ i'' r, Inner.store_get full_after kx (Inner.read_ts full_after) = Ret (i'', r) ∧
    match r with Ok v' => v' = Some v1 | Err _ => vs_may_fail (S := MemoryStore.t) end.
Proof.
  split; [apply full_inv|]. split; [by vm_compute|].
  apply (Inner.durability_error_is_visible full [0%N] [] 0 Timestamp.ZERO [(kx, Some v1)] []
    full_after "no space left on device" kx (Some v1));
    [apply full_inv|done|by left|apply full_writes_NoDup|by vm_compute|by left].
Defined.
