(* ===== verification/CrashScenarios.v ===== *)
(** * A database that dies in the middle of a commit

    Two processes on one log: the first dies while one commit is acknowledged and
    another one is applied but not logged, the second reads. The theorems of
    [Crashes] are applied to them. *)

From S2P Require Import Prelude RustStd Types StoreTrait MemStore CommitLog OracleState History.
From S2P Require Import Coordinator Handles Database System Recovery Restart Conflicts Crashes Scenarios.

(** ** Definitions *)

#[local] Instance checked : Profile := true.

(** A disk with room for five records, on which nothing was written. *)
Definition blank : MemWal := mkMemWal [] 5.

Definition opened (d : MemWal) : Inner.t MemoryStore.t MemWal :=
  match Db.open d with Ret (Ok i) => i | _ => fresh end.

Definition log_of (d : MemWal) : CommitLog.t MemWal * History :=
  match CommitLog.open d with Ret (Ok p) => p | _ => (CommitLog.mk d, []) end.

Definition opens (d : MemWal) : bool :=
  match Db.open d, CommitLog.open d with Ret (Ok _), Ret (Ok _) => true | _, _ => false end.

(** A process that opens [d] and takes the actions [l]. *)
Definition process (d : MemWal) (l : list System.action) : outcome (option State) :=
  System.acts (System.start (opened d) (Crashes.replayed (log_of d).2)) l.

Definition runs (d : MemWal) (l : list System.action) : bool :=
  match process d l with Ret (Some _) => true | _ => false end.

Definition state_of (d : MemWal) (l : list System.action) : State :=
  match process d l with Ret (Some s) => s | _ => System.start fresh [] end.

Definition first_acts : list System.action := first_half ++ [System.AAlloc 1; System.AApply 1].
Definition second_acts : list System.action := [System.ABegin 0 false; System.AGet 0 kx].

Definition s_before : State := state_of blank first_acts.

(** What it leaves. *)
Definition log_before : CommitLog.t MemWal :=
  default (CommitLog.mk blank) (Inner.log (System.inner s_before)).
Definition left_behind : MemWal := wal_disk (CommitLog.wal log_before).

Definition s_after : State := state_of left_behind second_acts.

(** The commit that was acknowledged. *)
Definition kept : Commit := Codec.mkCommit (Timestamp.from_raw 1) [(kx, Some v1)].

Definition working (s : State) : bool :=
  forallb (λ p, match System.c_phase p.2 with
    | System.Logged (Err _) | System.Published (Err _) | System.Finished (Err _) => false
    | _ => true
    end) (map_to_list (System.clients s)).

(** ** Lemmas *)

Lemma blank_fresh : Durable.fresh blank.
Proof. by intros w [= <-]. Qed.

Lemma opens_ok d :
  opens d = true → Db.open d = Ret (Ok (opened d)) ∧ CommitLog.open d = Ret (Ok (log_of d)).
Proof.
  unfold opens, opened, log_of. by destruct (Db.open d) as [[]|], (CommitLog.open d) as [[]|].
Qed.

Lemma process_ok d l : runs d l = true → process d l = Ret (Some (state_of d l)).
Proof. unfold runs, state_of. by destruct (process d l) as [[]|]. Qed.

Lemma working_ok s : working s = true → Crashes.log_works s.
Proof.
  unfold working. rewrite forallb_forall.
  intros Hall n c detail Hn%elem_of_map_to_list%list_elem_of_In%Hall. cbn in Hn.
  by destruct (System.c_phase c) as [| |r|[]|[]|[]|].
Qed.

(** One life: open the disk, take some actions. *)
Lemma life_steps past d l cs :
  CommitLog.disk_holds d cs → Crashes.restorable cs → opens d = true → runs d l = true →
  (Oracle.next_ts (Inner.oracle (opened d)) + N.of_nat (length l) + 2 < u64_modulus)%N →
  Forall CommitLog.commit_fits (System.hist (state_of d l)) →
  rtc Crashes.step (Crashes.mk (Crashes.Dead d) past) (Crashes.mk (Crashes.Running (state_of d l)) past).
Proof.
  intros Hd Hre [Ho Hl]%opens_ok Hp%process_ok Hroom Hfits.
  assert (CommitLog.open d = Ret (Ok ((log_of d).1, (log_of d).2))) as Hl' by by destruct (log_of d).
  eapply rtc_l.
  { by apply (Crashes.step_open (Crashes.mk (Crashes.Dead d) past) d (opened d) (log_of d).1 (log_of d).2). }
  apply Crashes.run_steps; [|done].
  destruct (Crashes.open_restorable d cs Hd Hre) as [[e E]|(i & lg & E1 & E2 & Hi & _)].
  { by rewrite Ho in E. }
  rewrite Ho in E2. injection E2 as E2. rewrite Hl' in E1. injection E1 as _ E1.
  unfold process in Hp. apply System.acts_steps in Hp as (n & Hn & ->).
  eapply System.nsteps_roomy; [| |exact Hn].
  - eapply System.start_inv. rewrite E1, E2. exact Hi.
  - split; cbn; [lia|]. change (size _) with 0. lia.
Qed.

Lemma kept_fits : CommitLog.commit_fits kept.
Proof. split; try done; repeat (apply Forall_cons_2 || apply Forall_nil_2); by split. Qed.

Lemma before_hist :
  System.hist s_before = [kept; Codec.mkCommit (Timestamp.from_raw 2) [(kx, Some v2)]].
Proof. by vm_compute. Qed.

Lemma before_fits : Forall CommitLog.commit_fits (System.hist s_before).
Proof.
  rewrite before_hist. apply Forall_cons_2; [apply kept_fits|]. apply Forall_cons_2; [|constructor].
  split; try done; repeat (apply Forall_cons_2 || apply Forall_nil_2); by split.
Qed.

Lemma before_log : Inner.log (System.inner s_before) = Some log_before.
Proof. by vm_compute. Qed.

Lemma mem_disk_holds (d : MemWal) cs :
  Forall CommitLog.commit_fits cs → mw_records d = CommitLog.record_of <$> cs →
  CommitLog.disk_holds d cs.
Proof. intros Hf Hr. split; [done|]. by intros w [= <-]. Qed.

Lemma left_holds : CommitLog.disk_holds left_behind [kept].
Proof.
  apply mem_disk_holds; [|by vm_compute]. apply Forall_cons_2; [apply kept_fits|constructor].
Qed.

Lemma kept_restorable : Crashes.restorable [kept].
Proof.
  split; cbn.
  - apply NoDup_singleton.
  - intros c ->%list_elem_of_singleton. apply NoDup_singleton.
  - by intros c ->%list_elem_of_singleton.
Qed.

Lemma before_reachable : Crashes.reachable (Crashes.mk (Crashes.Running s_before) []).
Proof.
  exists blank. split; [apply blank_fresh|].
  apply (life_steps [] blank first_acts []).
  - split; [constructor|apply blank_fresh].
  - split; cbn; [apply NoDup_nil_2|by intros c ?%not_elem_of_nil..].
  - by vm_compute.
  - by vm_compute.
  - by vm_compute.
  - apply before_fits.
Qed.

Lemma before_told : Crashes.told_by s_before = [kept].
Proof. by vm_compute. Qed.

Lemma after_reachable : Crashes.reachable (Crashes.mk (Crashes.Running s_after) [kept]).
Proof.
  destruct before_reachable as (d & Hd & Hrun). exists d. split; [done|].
  etrans; [exact Hrun|]. eapply rtc_l.
  { apply (Crashes.step_crash (Crashes.mk (Crashes.Running s_before) []) s_before log_before);
      [done|apply before_log]. }
  cbn [Crashes.told]. rewrite before_told. change ([] ++ [kept]) with [kept].
  apply (life_steps [kept] left_behind second_acts [kept]).
  - apply left_holds.
  - apply kept_restorable.
  - by vm_compute.
  - by vm_compute.
  - by vm_compute.
  - assert (System.hist (state_of left_behind second_acts) = [kept]) as -> by by vm_compute.
    apply Forall_cons_2; [apply kept_fits|constructor].
Qed.

(** ** Witnesses *)

(** The second process reads what the first one was told. *)
Lemma acknowledged_survive_crashes_witness :
  Crashes.reachable (Crashes.mk (Crashes.Running s_after) [kept]) ∧
  System.clients s_after !! 0 = Some (client_of s_after 0) ∧
  (kx, Some v1) ∈ System.c_obs (client_of s_after 0) ∧ touches kx kept ∧
  ∃ e, e ∈ System.hist s_after ∧ writes_map e !! kx = Some (Some v1) ∧ (ts_of kept ≤ ts_of e)%N ∧
    (ts_of e ≤ Timestamp.get (Transaction.read_timestamp (System.c_tx (client_of s_after 0))))%N.
Proof.
  assert (System.clients s_after !! 0 = Some (client_of s_after 0)) as Hn
    by (apply client_of_ok; by vm_compute).
  assert ((kx, Some v1) ∈ System.c_obs (client_of s_after 0)) as Ho.
  { assert (System.c_obs (client_of s_after 0) = [(kx, Some v1)]) as -> by by vm_compute. by left. }
  assert (touches kx kept) as Ht by (exists (Some v1); by vm_compute).
  split; [exact after_reachable|]. split; [exact Hn|]. split; [exact Ho|]. split; [exact Ht|].
  destruct (Crashes.acknowledged_survive_crashes (Crashes.mk (Crashes.Running s_after) [kept]) kept
    after_reachable ltac:(by left)) as [_ Hread].
  exact (Hread 0 (client_of s_after 0) kx (Some v1) Hn Ho Ht).
Defined.

(** What the second client of the first process read is still there, although its
    own commit is not. *)
Lemma observed_reads_survive_witness :
  Crashes.reachable (Crashes.mk (Crashes.Running s_before) []) ∧ Crashes.log_works s_before ∧
  Inner.log (System.inner s_before) = Some log_before ∧
  Db.open (wal_disk (CommitLog.wal log_before)) = Ret (Ok (opened left_behind)) ∧
  System.clients s_before !! 1 = Some (client_of s_before 1) ∧
  (kx, Some v1) ∈ System.c_obs (client_of s_before 1) ∧
  ∃ i', Inner.store_get (opened left_behind) kx
    (Transaction.read_timestamp (System.c_tx (client_of s_before 1))) = Ret (i', Ok (Some v1)).
Proof.
  assert (System.clients s_before !! 1 = Some (client_of s_before 1)) as Hn
    by (apply client_of_ok; by vm_compute).
  assert ((kx, Some v1) ∈ System.c_obs (client_of s_before 1)) as Ho.
  { assert (System.c_obs (client_of s_before 1) = [(kx, Some v1)]) as -> by by vm_compute. by left. }
  assert (opens left_behind = true) as [Hopen _]%opens_ok by by vm_compute.
  assert (Crashes.log_works s_before) as Hw by (apply working_ok; by vm_compute).
  split; [exact before_reachable|]. split; [exact Hw|]. split; [exact before_log|].
  split; [exact Hopen|]. split; [exact Hn|]. split; [exact Ho|].
  exact (Crashes.observed_reads_survive (Crashes.mk (Crashes.Running s_before) []) s_before log_before
    (opened left_behind) 1 (client_of s_before 1) kx (Some v1) before_reachable eq_refl Hw before_log
    Hopen Hn Ho).
Defined.
