(* ===== verification/ClientScenarios.v ===== *)
(** * Concrete runs of the client programs

    Interleavings of transfers, increments and doctors on a seeded database, at
    which the theorems about client programs are applied. *)

From S2P Require Import Prelude RustStd Types Chain StoreTrait MemStore CommitLog OracleState.
From S2P Require Import History Coordinator Handles Database Spec Session System Recovery.
From S2P Require Import Programs Bank Counter Doctors CountingStore Scenarios.

(** ** Definitions *)

#[local] Instance checked : Profile := true.

Abbreviation PState := (Program.t MemoryStore.t MemWal).

(** One transaction that writes [ws], alone on a new database. *)
Definition seeded (ws : list (bytes * option bytes)) : State :=
  run_from fresh (System.ABegin 0 false ::
    ((λ '(k, v), System.AWrite 0 k v) <$> ws) ++ commit_of_client 0).

Section run.
Context (programs : nat → Program.prog) (serializable : nat → bool) (s : State).

Definition begin_at : PState := Program.start (System.inner s) (System.hist s).

Definition prun (l : list Program.paction) : PState :=
  match Program.pacts programs serializable begin_at l with Ret (Some x) => x | _ => begin_at end.

Definition psucceeds (l : list Program.paction) : bool :=
  match Program.pacts programs serializable begin_at l with Ret (Some _) => true | _ => false end.

End run.

Definition turns (n k : nat) : list Program.paction := replicate k (Program.PNext n).

(** Two transfers from the same snapshot and an audit that begins between their
    commits; the second one is refused. *)
Definition account_a : bytes := [x61].
Definition account_b : bytes := [x62].
Definition accounts : list bytes := [account_a; account_b].

Definition audit : Program.prog :=
  Program.Get account_a (λ _, Program.Get account_b (λ _, Program.Commit)).

Definition bank_programs (n : nat) : Program.prog :=
  match n with
  | 0 => Bank.transfer_body account_a account_b 30
  | 1 => Bank.transfer_body account_b account_a 0
  | 2 => audit
  | _ => Program.Commit
  end.

Definition bank_seed : State :=
  seeded [(account_a, Some (to_le_bytes 8 100)); (account_b, Some (to_le_bytes 8 0))].

Definition bank_schedule : list Program.paction :=
  [Program.PBegin 0; Program.PBegin 1; Program.PGcStart 0] ++ turns 0 4 ++ turns 1 3 ++ turns 0 3 ++
  [Program.PBegin 2; Program.PNext 2] ++ turns 0 2 ++ turns 1 6 ++ turns 2 3.

Definition bank_run : PState := prun bank_programs (λ _, false) bank_seed bank_schedule.

(** Three increments; the first two race and one of them is refused. *)
Definition counter_programs (n : nat) : Program.prog :=
  match n with 3 => Program.Commit | _ => Counter.increment_body Counter.COUNTER end.

Definition counter_seed : State := seeded [(Counter.COUNTER, Some (to_le_bytes 8 0))].

Definition counter_schedule : list Program.paction :=
  [Program.PBegin 0; Program.PBegin 1] ++ turns 0 2 ++ turns 1 2 ++ turns 0 5 ++ turns 1 5 ++
  [Program.PBegin 2] ++ turns 2 7.

Definition counter_run : PState := prun counter_programs (λ _, false) counter_seed counter_schedule.

(** Both doctors try to leave, side by side. *)
Definition doctor_programs (n : nat) : Program.prog :=
  match n with 0 => Doctors.go_off_call Doctors.ALICE | _ => Doctors.go_off_call Doctors.BOB end.

Definition doctor_seed : State := seeded [(Doctors.ALICE, Some [x01]); (Doctors.BOB, Some [x01])].

Definition doctor_schedule : list Program.paction :=
  [Program.PBegin 0; Program.PBegin 1] ++ turns 0 3 ++ turns 1 3 ++ turns 0 5 ++ turns 1 5.

Definition doctor_run : PState := prun doctor_programs (λ _, true) doctor_seed doctor_schedule.

(** ** Lemmas *)

Lemma finished_inv s :
  System.reachable [] s → forallb all_finished (map_to_list (System.clients s)) = true →
  ∃ hz, Inner.inv (System.inner s) [] ∅ (System.hist s) hz.
Proof.
  intros Hreach Hfin. pose proof (System.reachable_inv [] s Hreach) as Hs.
  destruct (System.i_inner _ _ Hs) as (inflight & hz & Hi & Hfl). exists hz.
  assert (Hf : ∀ n c, System.clients s !! n = Some c → ∃ ts, System.c_phase c = System.Finished (Ok ts)).
  { rewrite forallb_forall in Hfin. intros n c Hn%elem_of_map_to_list%list_elem_of_In%Hfin.
    unfold all_finished in Hn. cbn in Hn. destruct (System.c_phase c) as [| | | | |[]|]; eauto; done. }
  replace inflight with (∅ : gset N) in Hi.
  2:{ symmetry. apply leibniz_equiv, elem_of_equiv_empty. intros ts (n & c & Hn & Hp)%Hfl.
      destruct (Hf n c Hn) as [t E]. unfold System.pending in Hp. by rewrite E in Hp. }
  replace (collect System.registered (System.clients s)) with (@nil N) in Hi; [done|].
  symmetry. apply elem_of_nil_inv. intros ts (n & c & Hn & Hr)%elem_collect.
  destruct (Hf n c Hn) as [t E]. unfold System.registered in Hr. by rewrite E in Hr.
Qed.

Lemma psteps programs serializable l x x' :
  Program.pacts programs serializable x l = Ret (Some x') →
  nsteps (Program.pstep (S := MemoryStore.t) (W := MemWal) programs serializable) (length l) x x'.
Proof.
  revert x. induction l as [|a l IH]; intros x E; cbn in *; [injection E as <-; constructor|].
  apply bind_Ret in E as ([x1|] & E1 & E); [|done].
  econstructor; [by econstructor|by apply IH].
Qed.

(** What a run of programs on a seeded database starts from. *)
Record seed_ok (s : State) : Prop := {
  seed_reachable : System.reachable [] s;
  seed_finished : forallb all_finished (map_to_list (System.clients s)) = true;
  seed_room : System.room (System.start (System.inner s) (System.hist s)) 100;
}.

Lemma prun_reachable programs serializable s l :
  seed_ok s → length l ≤ 100 → psucceeds programs serializable s l = true →
  Program.reachable programs serializable (System.hist s) (prun programs serializable s l).
Proof.
  intros [Hreach Hfin [Hr1 Hr2]] Hl Hok. destruct (finished_inv s Hreach Hfin) as [hz Hi].
  apply (Program.programs_bounded_reachable _ _ (System.inner s) _ hz (length l)); [done|..].
  - split; cbn in *; lia.
  - apply psteps. unfold psucceeds, prun in *. by destruct (Program.pacts _ _ _ l) as [[x|]|].
Qed.

(** From its watermark on, a seeded database reads the same. *)
Lemma seed_view s t k :
  seed_ok s → Timestamp.le (Inner.read_ts (System.inner s)) t →
  hist_view (System.hist s) k t = hist_view (System.hist s) k (Inner.read_ts (System.inner s)).
Proof.
  intros [Hreach Hfin _] Ht. destruct (finished_inv s Hreach Hfin) as [hz Hi]. by eapply Db.quiet_view.
Qed.

Lemma seed_ok_by ws :
  succeeds fresh (System.ABegin 0 false ::
    ((λ '(k, v), System.AWrite 0 k v) <$> ws) ++ commit_of_client 0) = true →
  length ws ≤ 10 →
  forallb all_finished (map_to_list (System.clients (seeded ws))) = true →
  (Oracle.next_ts (Inner.oracle (System.inner (seeded ws))) <? 100)%N = true →
  seed_ok (seeded ws).
Proof.
  intros Hok Hl Hfin Hnext%N.ltb_lt. split; [|done|].
  - apply run_reachable; [apply fresh_inv|done| |done].
    cbn [length]. rewrite length_app, length_fmap. cbn. unfold u64_modulus. lia.
  - split; cbn; [unfold u64_modulus; lia|]. by vm_compute.
Qed.

Lemma bank_seed_ok : seed_ok bank_seed.
Proof. apply seed_ok_by; [by vm_compute|cbn; lia|by vm_compute..]. Qed.

Lemma counter_seed_ok : seed_ok counter_seed.
Proof. apply seed_ok_by; [by vm_compute|cbn; lia|by vm_compute..]. Qed.

Lemma doctor_seed_ok : seed_ok doctor_seed.
Proof. apply seed_ok_by; [by vm_compute|cbn; lia|by vm_compute..]. Qed.

Lemma bank_run_reachable :
  Program.reachable bank_programs (λ _, false) (System.hist bank_seed) bank_run.
Proof. apply prun_reachable; [apply bank_seed_ok|cbn; lia|by vm_compute]. Qed.

Lemma counter_run_reachable :
  Program.reachable counter_programs (λ _, false) (System.hist counter_seed) counter_run.
Proof. apply prun_reachable; [apply counter_seed_ok|cbn; lia|by vm_compute]. Qed.

Lemma doctor_run_reachable :
  Program.reachable doctor_programs (λ _, true) (System.hist doctor_seed) doctor_run.
Proof. apply prun_reachable; [apply doctor_seed_ok|cbn; lia|by vm_compute]. Qed.

Lemma total_extensional l T :
  Proper (pointwise_relation bytes eq ==> iff) (λ m, Bank.total l m = Ret T).
Proof. intros m m' Hm. by rewrite (Bank.total_proper l m m' Hm). Qed.

Lemma accounts_NoDup : NoDup accounts.
Proof. apply (bool_decide_unpack _). by vm_compute. Qed.

Lemma bank_clients n :
  Program.read_only (bank_programs n) ∨ ∃ from to amount,
    bank_programs n = Bank.transfer_body from to amount ∧
    from ∈ accounts ∧ to ∈ accounts ∧ from ≠ to.
Proof.
  destruct n as [|[|[|n]]]; [right|right|by left..].
  - exists account_a, account_b, 30%N. split_and!; [done|set_solver..|done].
  - exists account_b, account_a, 0%N. split_and!; [done|set_solver..|done].
Qed.

Lemma bank_seed_total t :
  Timestamp.le (Inner.read_ts (System.inner bank_seed)) t →
  Bank.total accounts (λ k, hist_view (System.hist bank_seed) k t) = Ret 100%N.
Proof.
  intros Ht. erewrite Bank.total_ext; [|intros a _; by apply seed_view, Ht; apply bank_seed_ok].
  by vm_compute.
Qed.

Lemma counter_clients n :
  counter_programs n = Counter.increment_body Counter.COUNTER ∨ Program.read_only (counter_programs n).
Proof. destruct n as [|[|[|[|n]]]]; by (left + right). Qed.

Lemma doctor_clients n :
  Program.read_only (doctor_programs n) ∨ true = true ∧
    ∃ doctor, doctor_programs n = Doctors.go_off_call doctor ∧
      (doctor = Doctors.ALICE ∨ doctor = Doctors.BOB).
Proof. right. split; [done|]. destruct n; eauto. Qed.

Lemma doctor_seed_covered t :
  Timestamp.le (Inner.read_ts (System.inner doctor_seed)) t →
  Doctors.covered (λ k, hist_view (System.hist doctor_seed) k t).
Proof.
  intros Ht. unfold Doctors.covered. rewrite !(seed_view doctor_seed t) by apply doctor_seed_ok || done.
  by vm_compute.
Qed.

Definition returned (p : nat * System.client) : bool :=
  match System.c_phase p.2 with
  | System.Finished (Err (TxnError.Durability _)) => false
  | System.Finished _ | System.RolledBack => true
  | _ => false
  end.

Lemma all_returned_by (s : State) :
  forallb returned (map_to_list (System.clients s)) = true → Counter.all_returned s.
Proof.
  rewrite forallb_forall. intros Hall n c Hn%elem_of_map_to_list%list_elem_of_In%Hall.
  unfold returned in Hn. cbn in Hn. by destruct (System.c_phase c) as [| | | | |[|[]]|].
Qed.

Lemma counter_returned : Counter.all_returned (Program.sys counter_run).
Proof. apply all_returned_by. by vm_compute. Qed.

Lemma counter_acknowledged :
  length (collect Counter.acknowledged (System.clients (Program.sys counter_run))) = 2.
Proof. by vm_compute. Qed.

(** ** Witnesses *)


Lemma exec_runs_alone_witness :
  Inner.room fresh [] 2 ∧
  Program.exec_post [] 0 [] (λ k, hist_view [] k (Inner.read_ts fresh)) (Counter.increment_body Counter.COUNTER) ∅
    ('(i1, tx) ← Transaction.new fresh true; Program.exec i1 tx (Counter.increment_body Counter.COUNTER)).
Proof.
  split; [by split; vm_compute|].
  apply (Program.exec_runs_alone fresh [] [] 0 true (Counter.increment_body Counter.COUNTER)).
  - apply fresh_inv.
  - by split; vm_compute.
Defined.

(** Money moved from an account to itself grows. *)
Lemma transfer_alone_witness :
  Bank.balance (Some (to_le_bytes 8 100)) = Ret 100%N ∧
  ∃ i' h', Bank.transfer 1 (System.inner bank_seed) account_a account_a 30 = Ret (Some (i', Ok tt)) ∧
    hist_view h' account_a (Inner.read_ts i') = Some (to_le_bytes 8 130).
Proof.
  split; [by vm_compute|].
  assert (match Bank.transfer 1 (System.inner bank_seed) account_a account_a 30 with
    Ret (Some (_, r)) => is_ok r | _ => false end = true) as Hok by by vm_compute.
  destruct (finished_inv bank_seed) as [hz Hi]; [apply bank_seed_ok|by vm_compute|].
  destruct (Bank.transfer_alone 0 (System.inner bank_seed) [] (System.hist bank_seed) hz
    account_a account_a 30 100 100) as (i' & r & h' & E & _ & Hr); [done|by split; vm_compute|
    by vm_compute..|].
  rewrite E in Hok |- *. destruct r as [[]|e]; [|discriminate Hok].
  exists i', h'. split; [reflexivity|]. destruct Hr as [_ Hr]. rewrite Hr. by vm_compute.
Defined.

Lemma bank_total_conserved_witness :
  Program.reachable bank_programs (λ _, false) (System.hist bank_seed) bank_run ∧
  (∀ t, Timestamp.le (Inner.read_ts (System.inner bank_seed)) t →
     Bank.total accounts (λ k, hist_view (System.hist (Program.sys bank_run)) k t) = Ret 100%N) ∧
  ∀ n c m, System.clients (Program.sys bank_run) !! n = Some c →
    Timestamp.le (Inner.read_ts (System.inner bank_seed))
      (Transaction.read_timestamp (System.c_tx c)) →
    (∀ a, a ∈ accounts → (a, m a) ∈ System.c_obs c) → Bank.total accounts m = Ret 100%N.
Proof.
  split; [apply bank_run_reachable|].
  apply (Bank.bank_total_conserved bank_programs (λ _, false) (System.hist bank_seed) bank_run
    accounts 100 (Inner.read_ts (System.inner bank_seed))).
  - apply bank_run_reachable.
  - apply accounts_NoDup.
  - done.
  - apply bank_clients.
  - apply bank_seed_total.
Defined.

Lemma counter_exact_witness :
  Counter.all_returned (Program.sys counter_run) ∧
  length (collect Counter.acknowledged (System.clients (Program.sys counter_run))) = 2 ∧
  Counter.value Counter.COUNTER (λ k, hist_view (System.hist (Program.sys counter_run)) k
    (Inner.read_ts (System.inner (Program.sys counter_run)))) = Ret 2%N.
Proof.
  split; [apply counter_returned|]. split; [apply counter_acknowledged|].
  pose proof (Counter.counter_exact Counter.COUNTER counter_programs (λ _, false) counter_clients
    (System.hist counter_seed) counter_run counter_run_reachable 0) as Hc.
  rewrite counter_acknowledged in Hc. apply Hc; [by vm_compute|apply counter_returned|done].
Defined.

Lemma somebody_on_call_witness :
  Program.reachable doctor_programs (λ _, true) (System.hist doctor_seed) doctor_run ∧
  Doctors.covered (λ k, hist_view (System.hist (Program.sys doctor_run)) k (Timestamp.from_raw 3)).
Proof.
  split; [apply doctor_run_reachable|].
  apply (Doctors.somebody_on_call doctor_programs (λ _, true) (System.hist doctor_seed) doctor_run
    (Inner.read_ts (System.inner doctor_seed))).
  - apply doctor_run_reachable.
  - apply doctor_clients.
  - apply doctor_seed_covered.
  - by vm_compute.
Defined.

(** ** A run over the counting store *)

#[local] Existing Instance CountingStore.version_store.
#[local] Existing Instance CountingStore.store_laws.

(** A database over the counting store, after one commit. *)
Definition counting_start : System.t CountingStore.t MemWal :=
  System.start (Inner.new CountingStore.sample) [].

Definition counting_acts : list System.action :=
  [System.ABegin 0 false; System.AGet 0 kx; System.AWrite 0 kx (Some v1); System.AWrite 0 ky None]
  ++ commit_of_client 0.

Definition counting_run : System.t CountingStore.t MemWal :=
  match System.acts counting_start counting_acts with
  | Ret (Some s) => s
  | _ => counting_start
  end.

Lemma counting_run_ok : System.acts counting_start counting_acts = Ret (Some counting_run).
Proof. by vm_compute. Qed.

Lemma counting_run_reachable : System.reachable [] counting_run.
Proof.
  pose proof counting_run_ok as E. revert E. generalize counting_run as s. intros s E.
  apply System.acts_steps in E as (n & Hsteps & ->).
  eapply System.bounded_reachable; [apply Inner.new_inv, CountingStore.sample_vs_empty| |exact Hsteps].
  by split; vm_compute.
Qed.

Lemma counters_exact_witness :
  CountingStore.counters (Inner.store (System.inner counting_run)) = CountingStore.mkCounters 1 2 ∧
  Db.collect_garbage (System.inner counting_run) = Ret (System.inner counting_run, 0).
Proof.
  split; [by vm_compute|].
  apply (CountingStore.counters_exact [] counting_run counting_run_reachable).
Defined.
