(* ===== verification/RetryScenarios.v ===== *)
(** * Concrete runs of retry loops

    Threads taking turns one after the other on a new database in memory, until none
    has anything left to do; and a commit that is stalled while others retry. The
    theorems of [Conflicts], [Retry], [Completion] and [Threads] are applied there. *)

From S2P Require Import Prelude RustStd Types Chain StoreTrait MemStore CommitLog OracleState.
From S2P Require Import History Coordinator Handles Database System Conflicts Calls Programs.
From S2P Require Import Retry Completion Counter Threads OneShot DurableRetry.
From S2P Require Import Footprint ThreadedTests Scenarios.

(** ** Definitions *)

#[local] Instance checked_build : Profile := true.

Abbreviation RState := (Retry.t MemoryStore.t MemWal).

Section robin.
Context (i : Inner.t MemoryStore.t MemWal) (threads : nat) (body : nat → nat → Program.prog) (ser : nat → bool) (count : nat → nat).

Definition unstarted : RState := Retry.start i [].

(** Turn by turn, round and round. *)
Fixpoint robin (j : nat) : RState :=
  match j with
  | O => unstarted
  | Datatypes.S j =>
     match Retry.turn threads body ser count (robin j) (j mod threads) with
     | Ret x => x
     | Panic => robin j
     end
  end.

Definition whose (j : nat) : option nat := Some (j mod threads).

(** The next [n] turns, from turn [j], do not panic and find room, and after them
    every thread has returned. *)
Fixpoint drive (n j : nat) (x : RState) : bool :=
  bool_decide (System.room (Retry.sys x) 1) &&
  match n with
  | O => forallb (Retry.returned threads count x) (seq 0 threads)
  | Datatypes.S n =>
     match Retry.turn threads body ser count x (j mod threads) with
     | Ret x => drive n (Datatypes.S j) x
     | Panic => false
     end
  end.

End robin.

(** ** Lemmas *)

(** A thread that has returned does nothing. *)
Lemma returned_turn threads body ser count (x : RState) w :
  Retry.returned threads count x w = true → Retry.turn threads body ser count x w = Ret x.
Proof.
  unfold Retry.returned, Retry.turn. destruct (Retry.table x !! w) as [[k l]|].
  - destruct (_ <$> _) as [[| | | | |[ts|e]|]|]; try done.
    + by intros ->%Nat.eqb_eq.
    + by destruct (TxnError.is_retryable e).
  - by intros ->%Nat.eqb_eq.
Qed.

Lemma drive_run i threads body ser count n j :
  drive threads body ser count n j (robin i threads body ser count j) = true →
  (∀ k, k ≤ n → System.room (Retry.sys (robin i threads body ser count (j + k))) 1) ∧
  (∀ k, k < n → Retry.turn threads body ser count (robin i threads body ser count (j + k))
     ((j + k) mod threads) = Ret (robin i threads body ser count (Datatypes.S (j + k)))) ∧
  ∀ w, w < threads → Retry.returned threads count (robin i threads body ser count (j + n)) w = true.
Proof.
  revert j. induction n as [|n IH]; intros j; cbn [drive]; intros [Hr%bool_decide_eq_true Hd]%andb_prop.
  - split_and!; [intros k Hk; by replace (j + k) with j by lia|lia|].
    rewrite forallb_forall in Hd. intros w Hw. rewrite Nat.add_0_r.
    apply Hd, list_elem_of_In, elem_of_seq. lia.
  - destruct (Retry.turn _ _ _ _ _ _) as [x|] eqn:E; [|done].
    assert (robin i threads body ser count (Datatypes.S j) = x) as Ex by (cbn; by rewrite E).
    rewrite <-Ex in E, Hd. destruct (IH (Datatypes.S j) Hd) as (IH1 & IH2 & IH3). split_and!.
    + intros [|k] Hk; [by rewrite Nat.add_0_r|]. rewrite <-plus_n_Sm. apply IH1. lia.
    + intros [|k] Hk; [by rewrite Nat.add_0_r|]. rewrite <-plus_n_Sm. apply IH2. lia.
    + intros w Hw. rewrite <-plus_n_Sm. by apply IH3.
Qed.

Lemma robin_fixpoint i threads body ser count J j :
  0 < threads →
  (∀ w, w < threads → Retry.returned threads count (robin i threads body ser count J) w = true) →
  J ≤ j → robin i threads body ser count j = robin i threads body ser count J.
Proof.
  intros Hpos Hret Hle. induction Hle as [|j Hle IH]; [done|]. cbn.
  rewrite IH, returned_turn; [done|]. apply Hret, Nat.mod_upper_bound. lia.
Qed.

Lemma robin_run i threads body ser count J :
  Inner.inv i [] ∅ [] 0 → 0 < threads → drive threads body ser count J 0 (unstarted i) = true →
  Retry.run threads body ser count [] (robin i threads body ser count) (whose threads).
Proof.
  intros Hi Hpos Hd. destruct (drive_run i threads body ser count J 0 Hd) as (Hroom & Hturn & Hret).
  change (0 + J) with J in Hret.
  assert (∀ j, J ≤ j → robin i threads body ser count j = robin i threads body ser count J) as Hfix
    by (intros; by apply robin_fixpoint).
  assert (∀ j, j mod threads < threads) as Hmod by (intros; apply Nat.mod_upper_bound; lia).
  assert (∀ j, Retry.turn threads body ser count (robin i threads body ser count j) (j mod threads) =
    Ret (robin i threads body ser count (Datatypes.S j))) as Hall.
  { intros j. destruct (decide (j < J)) as [Hlt|Hge]; [by apply (Hturn j)|].
    rewrite (Hfix j), (Hfix (Datatypes.S j)) by lia. apply returned_turn, Hret, Hmod. }
  split.
  - by exists i, 0%N.
  - intros j. constructor; [done|apply Hall].
  - intros j. destruct (decide (j ≤ J)) as [Hle|Hgt]; [by apply (Hroom j)|].
    rewrite (Hfix j) by lia. by apply (Hroom J).
  - intros w j Hw. exists (w + j * threads). split; [nia|]. unfold whose.
    by rewrite Nat.Div0.mod_add, Nat.mod_small.
Qed.

(** ** Two threads write one key, twice and once *)

Definition hot : bytes := [x68].
Definition writer_value (w : nat) : option bytes := match w with 0 => Some [x30] | _ => None end.
Definition writer_body (w _ : nat) : Program.prog := Writers.write_body hot (writer_value w).
Definition writer_count (w : nat) : nat := match w with 0 => 2 | _ => 1 end.

Abbreviation writers := (robin fresh 2 writer_body (λ _, false) writer_count).

Lemma writers_run : Retry.run 2 writer_body (λ _, false) writer_count [] writers (whose 2).
Proof. apply (robin_run fresh 2 _ _ _ 60); [apply fresh_inv|lia|vm_compute; reflexivity]. Qed.

(** The threads do race: thread 1 has to try more than once. *)
Example writers_retried : (Retry.attempt <$> Retry.table (writers 60) !! 1) = Some 2.
Proof. vm_compute. reflexivity. Qed.

Lemma writers_infallible : Completion.infallible (writers 0).
Proof. split; [done|]. by intros []. Qed.

(** ** Two threads increment the counter, twice and once *)

Definition increment_count (w : nat) : nat := match w with 0 => 2 | _ => 1 end.

Abbreviation increments := (robin fresh 2 (λ _ _, Counter.increment_body Counter.COUNTER) (λ _, false) increment_count).

Lemma increments_run :
  Retry.run 2 (λ _ _, Counter.increment_body Counter.COUNTER) (λ _, false) increment_count [] increments (whose 2).
Proof. apply (robin_run fresh 2 _ _ _ 60); [apply fresh_inv|lia|vm_compute; reflexivity]. Qed.

Lemma increments_infallible : Completion.infallible (increments 0).
Proof. split; [done|]. by intros []. Qed.

(** ** Two threads of the mixed workload, two keys and one round each *)

Abbreviation mixed := (robin fresh 2 (Mixed.body 2) (λ _, false) (Mixed.count 2 1)).

Lemma mixed_run : Retry.run 2 (Mixed.body 2) (λ _, false) (Mixed.count 2 1) [] mixed (whose 2).
Proof. apply (robin_run fresh 2 _ _ _ 60); [apply fresh_inv|lia|vm_compute; reflexivity]. Qed.

Lemma mixed_infallible : Completion.infallible (mixed 0).
Proof. split; [done|]. by intros []. Qed.

(** ** The same on a new durable database with room for three records *)

Abbreviation logged_writers := (robin (durable 3) 2 writer_body (λ _, false) writer_count).

Lemma logged_writers_run :
  Retry.run 2 writer_body (λ _, false) writer_count [] logged_writers (whose 2).
Proof. apply (robin_run (durable 3) 2 _ _ _ 60); [apply durable_inv|lia|vm_compute; reflexivity]. Qed.

(** Opening the log afterwards succeeds, and reads up to the last commit; the refused
    ones took timestamps too. *)
Example logged_writers_reopened :
  (λ l, i ←? Db.open (wal_disk (CommitLog.wal l));
        Ret (Ok (Timestamp.get (Db.last_committed i)))) <$>
    Inner.log (System.inner (Retry.sys (logged_writers 60))) = Some (Ret (Ok 5%N)).
Proof. vm_compute. reflexivity. Qed.

Abbreviation logged_increments :=
  (robin (durable 3) 2 (λ _ _, Counter.increment_body Counter.COUNTER) (λ _, false) increment_count).

Lemma logged_increments_run :
  Retry.run 2 (λ _ _, Counter.increment_body Counter.COUNTER) (λ _, false) increment_count []
    logged_increments (whose 2).
Proof. apply (robin_run (durable 3) 2 _ _ _ 60); [apply durable_inv|lia|vm_compute; reflexivity]. Qed.

(** No commits, and room for three. *)
Lemma durable_prepared count x :
  Completion.due 2 count = 3 → Retry.sys x = System.start (durable 3) [] →
  DurableRetry.prepared 2 count [] x.
Proof.
  intros Hdue Ex. split; [by intros []|]. rewrite Hdue, Ex. exists [], (CommitLog.mk (mkMemWal [] 3)).
  split; [done|]. split; [done|]. split; [by split|]. cbn. intros r1. eexists _, _. split; [done|].
  intros r2. eexists _, _. split; [done|]. intros r3. by eexists _, _.
Qed.

(** ** A stalled commit *)

(** Client 0 has taken its timestamp and waits; client 1 commits a write of [kx];
    clients 2 and 3 begin afterwards, one after the other, and write [kx]. *)
Definition stalled : list System.action :=
  [System.ABegin 0 false; System.AWrite 0 ky (Some v1); System.AAlloc 0;
   System.ABegin 1 false; System.AWrite 1 kx (Some v1)] ++ commit_of_client 1 ++
  [System.ABegin 2 false; System.AWrite 2 kx (Some v2)] ++ commit_of_client 2 ++
  [System.ABegin 3 false; System.AWrite 3 kx (Some v2); System.AAlloc 3].

Definition s_stalled : State := run_from fresh stalled.

Definition s_refused : State := run_from fresh (stalled ++ [System.AApply 3]).

Lemma s_stalled_reachable : System.reachable [] s_stalled.
Proof. apply run_reachable; [apply fresh_inv|done|done|by vm_compute]. Qed.

Lemma s_stalled_client n : n < 4 → System.clients s_stalled !! n = Some (client_of s_stalled n).
Proof.
  intros Hn. unfold client_of. destruct (System.clients s_stalled !! n) eqn:E; [done|]. exfalso.
  assert (forallb (present s_stalled) (seq 0 4) = true) as Hall by (vm_compute; reflexivity).
  rewrite forallb_forall in Hall. specialize (Hall n). unfold present in Hall. rewrite E in Hall.
  discriminate Hall. apply list_elem_of_In, elem_of_seq. lia.
Qed.

Lemma s_stalled_refused : Evolution.refused (client_of s_stalled 2) = Some 1%N.
Proof. vm_compute. reflexivity. Qed.

Lemma s_stalled_pending : System.pending (client_of s_stalled 0) = Some 1%N.
Proof. vm_compute. reflexivity. Qed.

Lemma s_stalled_in_flight : Evolution.in_flight s_stalled 1.
Proof. exists 0, (client_of s_stalled 0). split; [by apply s_stalled_client; lia|apply s_stalled_pending]. Qed.

(** The commit of client 1. *)
Definition winner : Commit := Inner.commit_of (Timestamp.from_raw 2) [(kx, Some v1)].

Lemma s_stalled_hist : System.hist s_stalled = [winner].
Proof. vm_compute. reflexivity. Qed.

Lemma s_stalled_act : System.act s_stalled (System.AApply 3) = Ret (Some s_refused).
Proof. vm_compute. reflexivity. Qed.

Lemma winner_touches : touches kx winner.
Proof. vm_compute. by eexists. Qed.

Lemma winner_above : (1 < ts_of winner)%N.
Proof. by vm_compute. Qed.

Lemma s_refused_client : System.clients s_refused !! 3 = Some (client_of s_refused 3).
Proof. vm_compute. reflexivity. Qed.

Lemma s_refused_validated : Transaction.validated (System.c_tx (client_of s_refused 3)) kx.
Proof. left. vm_compute. by eexists. Qed.

(** ** A put while a commit is stalled *)

(** The fifth thread, beside the four clients. *)
Definition beside : RState := Retry.mk (Program.mk s_stalled ∅) ∅.

Definition put_beside : Inner.t MemoryStore.t MemWal :=
  match Db.put_loop 1 (System.inner s_stalled) ky [x37] with
  | Ret (Some (i, _)) => i
  | _ => fresh
  end.

Lemma put_beside_succeeds : OneShot.one_shot 1 (System.inner (Retry.sys beside)) ky (Some [x37]) =
  Ret (Some (put_beside, Ok (Timestamp.from_raw 5))).
Proof. vm_compute. reflexivity. Qed.

Lemma keys_below {A} b (m : gmap nat A) n :
  forallb (λ '(n, _), n <? b) (map_to_list m) = true → b ≤ n → m !! n = None.
Proof.
  rewrite forallb_forall. intros Hall Hle. destruct (m !! n) as [x|] eqn:Hn; [|done].
  apply elem_of_map_to_list, list_elem_of_In, Hall, Nat.ltb_lt in Hn. lia.
Qed.

Lemma beside_fresh k : System.clients (Retry.sys beside) !! Retry.id 5 4 k = None.
Proof. apply (keys_below 4); [vm_compute; reflexivity|unfold Retry.id; lia]. Qed.

(** ** A handle older than an overwrite *)

(** Client 0 writes [kx]; client 1 begins; client 2 overwrites [kx]; client 1 reads. *)
Definition before_handle : list System.action :=
  [System.ABegin 0 false; System.AWrite 0 kx (Some v1)] ++ commit_of_client 0.
Definition after_handle : list System.action :=
  [System.ABegin 2 false; System.AWrite 2 kx (Some v2)] ++ commit_of_client 2 ++ [System.AGet 1 kx].

Definition s_before : State := run_from fresh before_handle.
Definition s_handle : State := run_from fresh (before_handle ++ [System.ABegin 1 false]).
Definition s_older : State := run_from fresh (before_handle ++ System.ABegin 1 false :: after_handle).

Lemma s_before_reachable : System.reachable [] s_before.
Proof. apply run_reachable; [apply fresh_inv|done|done|by vm_compute]. Qed.

Lemma s_handle_begun : System.act s_before (System.ABegin 1 false) = Ret (Some s_handle).
Proof. vm_compute. reflexivity. Qed.

Lemma s_older_run : rtc System.roomy s_handle s_older.
Proof.
  assert (System.acts s_handle after_handle = Ret (Some s_older)) as E by (vm_compute; reflexivity).
  apply System.acts_steps in E as (n & Hn & ->). eapply System.nsteps_roomy; [| |exact Hn].
  - apply System.reachable_inv, run_reachable; [apply fresh_inv|done|done|by vm_compute].
  - split; by vm_compute.
Qed.

Lemma s_older_client : System.clients s_older !! 1 = Some (client_of s_older 1).
Proof. apply client_of_ok. by vm_compute. Qed.

(** ** Two clients that write different keys *)

Definition disjoint : list System.action :=
  [System.ABegin 0 false; System.ABegin 1 false; System.AWrite 0 kx (Some v1);
   System.AWrite 1 ky (Some v1); System.AAlloc 0; System.AAlloc 1; System.AApply 0; System.AApply 1].

Definition s_disjoint : State := run_from fresh disjoint.

Lemma s_disjoint_reachable : System.reachable [] s_disjoint.
Proof. apply run_reachable; [apply fresh_inv|done|done|by vm_compute]. Qed.

Lemma s_disjoint_clients : System.clients s_disjoint =
  <[0 := client_of s_disjoint 0]> {[1 := client_of s_disjoint 1]}.
Proof. vm_compute. reflexivity. Qed.

Lemma s_disjoint_apart m c' k :
  m ≠ 1 → System.clients s_disjoint !! m = Some c' → System.c_applied c' = true →
  is_Some (Transaction.writes (System.c_tx c') !! k) →
  ¬ Transaction.validated (System.c_tx (client_of s_disjoint 1)) k.
Proof.
  rewrite s_disjoint_clients.
  intros Hm [[<- <-]|[_ [<- <-]%lookup_singleton_Some]]%lookup_insert_Some _ Hk; [|done].
  assert (Transaction.writes (System.c_tx (client_of s_disjoint 0)) = {[kx := Some v1]}) as E
    by (vm_compute; reflexivity).
  rewrite E in Hk. destruct Hk as [v [<- _]%lookup_singleton_Some].
  intros [[v' Hv]|Hv]; vm_compute in Hv; done.
Qed.

(** ** Witnesses *)

Lemma conflict_not_spurious_witness :
  ∃ e k, e ∈ System.hist s_stalled ∧ touches k e ∧
    Transaction.validated (System.c_tx (client_of s_stalled 2)) k.
Proof.
  destruct (Evolution.conflict_not_spurious [] s_stalled 2 (client_of s_stalled 2) 1
    s_stalled_reachable (s_stalled_client 2 ltac:(lia)) s_stalled_refused)
    as (e & k & He & Ht & Hv & _). by exists e, k.
Defined.


Lemma stalled_commit_refuses_witness :
  System.hist s_refused = System.hist s_stalled ∧
  ∃ err, System.c_phase (client_of s_refused 3) = System.Applied (Err err).
Proof.
  apply (Evolution.stalled_commit_refuses [] s_stalled 1 winner kx 3 s_refused
    (client_of s_refused 3) s_stalled_reachable s_stalled_in_flight).
  - rewrite s_stalled_hist. by left.
  - exact winner_touches.
  - exact winner_above.
  - exact s_stalled_act.
  - exact s_refused_client.
  - exact s_refused_validated.
Defined.


Lemma contended_writes_witness :
  ∃ j, ∀ j', j ≤ j' →
    (∀ w, w < 2 → Completion.completed 2 writer_count (writers j') w = true) ∧
    ∃ w, w < 2 ∧ hist_view (System.hist (Retry.sys (writers j'))) hot
      (Inner.read_ts (System.inner (Retry.sys (writers j')))) = writer_value w.
Proof.
  apply (Writers.contended_writes 2 hot writer_value (λ _, false) writer_count [] writers (whose 2)
    writers_run writers_infallible). cbn. lia.
Defined.

Lemma counter_total_witness :
  ∃ j, ∀ j', j ≤ j' →
    (∀ w, w < 2 → Completion.completed 2 increment_count (increments j') w = true) ∧
    CounterThreads.counter_now Counter.COUNTER (increments j') = Ret 3%N.
Proof.
  apply (CounterThreads.counter_total Counter.COUNTER 2 (λ _, false) increment_count [] increments (whose 2) 0
    increments_run increments_infallible eq_refl). reflexivity.
Defined.

Lemma durable_retries_survive_witness :
  ∃ j, ∀ j', j ≤ j' →
    (∀ w, w < 2 → Completion.completed 2 writer_count (logged_writers j') w = true) ∧
    length (System.hist (Retry.sys (logged_writers j'))) = 3 ∧
    ∃ l, Inner.log (System.inner (Retry.sys (logged_writers j'))) = Some l ∧
      DurableRetry.reopens_equal (logged_writers j') l.
Proof.
  apply (DurableRetry.durable_retries_survive 2 writer_body (λ _, false) writer_count []
    logged_writers (whose 2) logged_writers_run).
  - by apply durable_prepared.
  - intros w j _. exact I.
  - intros w j _. by apply Completion.written_writes_out.
  - intros w j _. apply DurableRetry.written_fits. by destruct w as [|[|w]].
Defined.

Lemma durable_counter_total_witness :
  ∃ j, ∀ j', j ≤ j' →
    (∀ w, w < 2 → Completion.completed 2 increment_count (logged_increments j') w = true) ∧
    CounterThreads.counter_now Counter.COUNTER (logged_increments j') = Ret 3%N ∧
    ∃ l, Inner.log (System.inner (Retry.sys (logged_increments j'))) = Some l ∧
      DurableRetry.reopens_equal (logged_increments j') l.
Proof.
  apply (DurableRetry.durable_counter_total Counter.COUNTER 2 (λ _, false) increment_count []
    logged_increments (whose 2) 0 logged_increments_run); [|done|done|done].
  by apply durable_prepared.
Defined.

Lemma handle_is_pinned_witness :
  hist_now (System.hist s_older) kx = Some v2 ∧ Calls.served s_older 1 kx (Some v1) ∧
  Some v1 = Calls.present s_before kx.
Proof.
  assert (Calls.served s_older 1 kx (Some v1)) as Hobs.
  { exists (client_of s_older 1). split; [exact s_older_client|vm_compute; left]. }
  split; [vm_compute; reflexivity|]. split; [exact Hobs|].
  apply (Calls.handle_is_pinned [] s_before 1 false s_handle s_older kx (Some v1)
    s_before_reachable ltac:(split; by vm_compute) s_handle_begun s_older_run Hobs).
Defined.



Lemma mixed_workload_witness :
  ∃ j, ∀ j', j ≤ j' →
    (∀ t, t < 2 → Completion.completed 2 (Mixed.count 2 1) (mixed j') t = true) ∧
    hist_view (System.hist (Retry.sys (mixed j'))) (Mixed.key 1 1)
      (Inner.read_ts (System.inner (Retry.sys (mixed j')))) = Some [Mixed.byte_of 1].
Proof.
  destruct (Mixed.mixed_workload_keeps_per_thread_consistency 2 2 1 mixed (whose 2)
    ltac:(unfold Mixed.THREADS; lia)
    ltac:(unfold Mixed.KEYS_PER_THREAD; lia) ltac:(unfold Mixed.ROUNDS; lia) mixed_run mixed_infallible) as [j Hj].
  exists j. intros j' Hle. destruct (Hj j' Hle) as [Hall Hkeys]. split; [exact Hall|].
  apply (Hkeys 1 1 (Mixed.byte_of 1)); [lia|vm_compute; reflexivity].
Defined.

Lemma independent_keys_never_conflict_witness :
  Evolution.refused (client_of s_disjoint 1) = None ∧ length (System.hist s_disjoint) = 2.
Proof.
  split; [|vm_compute; reflexivity].
  apply (Evolution.independent_keys_never_conflict [] s_disjoint 1 (client_of s_disjoint 1)
    s_disjoint_reachable); [vm_compute; reflexivity|apply s_disjoint_apart].
Defined.
